(* ===== verification/_CoqProject ===== *)
-Q . S2P
Prelude.v
Bytes.v
Btree.v
ReplayBitmap.v
Replay.v
Framing.v
Reassembly.v
ReassemblyInv.v
ReassemblyComplete.v
Missing.v
ReassemblyProps.v
Auth.v
Peer.v
Routes.v
RecoveryBook.v
FramedSend.v
FramedSendProps.v
Admission.v
Ingress.v
Journal.v
Durability.v
SignedCausal.v
SignedCausalProps.v
SnapshotStore.v
SnapshotProps.v
Messages.v
Replica.v
Samples.v
ReplicaInv.v
ReplicaProps.v
Dumps.v
TimeoutWheel.v
Repair.v
Engine.v
EngineProps.v
Writes.v
Round.v
RunProps.v
RunLimits.v
Startup.v
Reads.v
ReadReplica.v
ReadReplicaProps.v
SignedNetwork.v
SignedNetworkProps.v
Nets.v
Discovery.v
Endpoints.v
Clock.v
Tombstones.v
Stamps.v
Config.v
ConfigProps.v
Facade.v
Transport.v
Emulation.v
Sets.v
SignedStartup.v
Pacing.v
Metrics.v
Metering.v
MeteredEngine.v
MetricsRun.v
MetricsWrites.v
MetricsStore.v
