(* ===== verification/Prelude.v ===== *)
(** * reconcile-rs: a verification development

    [reconcile] replicates a map over UDP: every replica accepts local writes, gossips them, and
    repairs what was lost by comparing ranges of the map with its peers. This library models the
    crate [reconcile] ([src/]) and its transport crate [gossip] ([gossip/src/]) as Rocq functions
    and proves what they promise. Definitions keep the source's names; a name is prefixed only where
    Rust has one method name on several types ([rr_] read replica, [en_]/[engine_] engine,
    [store_]/[ws_] public map).

    ** The program's parts, and the files that model them

    - Bytes on the wire. [Bytes] fixed-width fields; [Framing] complete, fragment and control
      frames ([gossip/src/framing.rs]); [Messages] the protocol messages, [decode_stream] and the
      batch a payload decodes to ([src/replica.rs], [gossip/src/bincode.rs]).
    - Replay protection. [ReplayBitmap] and [Replay]: sliding window, per-sender state, the filter
      and the sender's counter ([gossip/src/replay/]).
    - Authentication. [Auth]: cluster keys, rotation, MAC and AEAD ([gossip/src/auth/]). [Peer] and
      [Routes]: signed identities, the datagram boundary, and routes confirmed by challenge
      ([gossip/src/peer/]).
    - Reassembly. [Btree] ordered maps and bounded eviction loops; [Reassembly], [ReassemblyInv],
      [ReassemblyComplete], [Missing], [ReassemblyProps]: the bounded reassembler and the reports of
      missing ranges ([gossip/src/framing/]).
    - Sending. [RecoveryBook] retained transfers and capabilities ([src/replica/recovery.rs]);
      [FramedSend], [FramedSendProps]: packing, fragmentation, retries, retransmission and recovery
      control, in a state monad over the counter, the book, the network's answers and the log of what
      was sent ([src/replica/framed_send.rs], [recovery_send.rs]); [Pacing] the pacer of a bulk
      transfer and the times its datagrams go out.
    - Receiving. [Ingress]: admission of a datagram and the event of an admitted frame
      ([src/replica/inbound.rs], [src/framing.rs]).
    - The dated state. [Replica]: map, projection, tombstone index, membership, acknowledgements,
      change counter and journal, one definition per critical section ([src/replica/write.rs],
      [dispatch.rs], [gc.rs], [membership.rs], [collision.rs]); [ReplicaInv], [ReplicaProps].
    - The engine. [Admission] bulk admission; [Dumps] pending ranges, slots and dump tasks;
      [Repair] repair retries and acknowledgement resends; [Engine] a datagram from the socket to
      the replica; [Round] rounds, timers, broadcasts, networks and membership; [EngineProps],
      [RunProps], and [RunLimits] that a run keeps the configured limits ([src/replica/]).
    - The public map. [Writes] writes, their coalescing and broadcast; [Reads]; [TimeoutWheel];
      [Startup] loading and collecting the persisted state; [Facade] the handle around an engine,
      its snapshot task, liveness and the end of a run ([src/replicated_map/],
      [src/timeout_wheel.rs]); [Sets] the sets over it ([src/replicated_set.rs]).
    - Time. [Clock] the hybrid clock behind the [Clock] port; [Tombstones] the instant a stored
      tombstone ages from and the hook that feeds the wheel; [Stamps] what the port promises the
      store, a type class, and what the store's writes make of it ([src/clock.rs]).
    - Configuration and construction. [Config], [ConfigProps] ([src/replicated_map/config/],
      [src/replica/construct.rs]).
    - Finding peers. [Nets] declared networks and the random probes into them
      ([gossip/src/gen_ip.rs]); [Discovery] the discovery task and the decommissioning of absent
      members ([src/replicated_map/discovery.rs]); [Endpoints] the endpoint hints of the signed
      replica ([gossip/src/discovery/endpoints.rs]).
    - Networks for tests. [Transport] the in-memory fabric ([gossip/src/substrate.rs]); [Emulation]
      seeded delay, jitter, loss and reordering ([gossip/src/emulation/]).
    - Read replicas. [ReadReplica], [ReadReplicaProps] ([src/read_replica_map/]).
    - Durability. [Journal] the two-generation journal and the backend contract, a type class
      [Persistence]; [Durability]; [SnapshotStore], [SnapshotProps] the incremental file store over a
      file system that may stop between any two effects ([src/snapshot/]).
    - The signed replica. [SignedCausal], [SignedCausalProps]: its causal state over a backend;
      [SignedNetwork], [SignedNetworkProps]: its exchange of messages over [Peer], [Routes],
      [Reassembly] and [RecoveryBook], in a state and error monad ([src/signed_replica/]);
      [SignedStartup] its constructor and whole runs ([src/signed_replica.rs]).
    - Observability. [Metrics] the metric names, their descriptions, the recording helpers and what a
      log of calls adds up to ([src/metrics.rs], [src/observability.rs], [src/observability/]);
      [Metering] sending and receiving frames, and [MeteredEngine] the engine's steps, with what they
      record, in monads that log the calls; [MetricsRun] runs of a recording engine; [MetricsWrites]
      the writers; [MetricsStore] snapshots, the tombstone hook, discovery and the file store.
    - [Samples]: concrete entries on which examples evaluate.

    A datagram goes through [Ingress.admit_inbound] ([Auth], [Replay]), [Ingress.accept_frame]
    ([Reassembly]), [Engine.handle_frame_event] ([RecoveryBook], [FramedSend]) and
    [Engine.handle_messages] ([Messages], [Replica], [Dumps]); [Writes] and [Round] enter the same
    replica from the other side, and [Startup] and [Journal] persist it. The signed replica is a
    separate actor: [SignedNetwork.node_receive] and [SignedNetwork.reconcile].

    ** How code is modelled

    Unsigned integers are [N], with wrap-around, saturation and checked forms written out; instants
    and durations are nanoseconds, stamps milliseconds. [None] as an outcome is a panic (or the end
    of a loop's fuel), [result] is [Result]. A hash map is a [gmap], an ordered map a sorted list or
    a [gmap] read in key order. A lock is the atomicity of a definition: each definition of [Replica]
    is what the code does while it holds the write lock, and what other tasks do between two of them
    is an argument ([meanwhile], [before_cut], [during_save]) or the interleaving of a step relation
    ([Dumps.dump_step], [Writes.store_step], [RunProps.engine_step], [ReplicaProps.history]); where
    one operation takes two locks, or mints before it locks, its parts are separate steps
    ([Stamps.dated_step], [Replay.SenderCounter.mint_step], [Nets.overlapping_step]). A send runs to
    completion, and one reading of the clock stands for those of one datagram.

    Code outside the repository is an argument: BLAKE3, the keyed hash and the AEAD ([Auth]), the
    signature scheme ([Peer]), [bincode] (its round trip), [rbsr] (its ranges are half-open), the
    map's range query, the shuffle (a permutation), the readings and the entries of [lww_register]
    (the class [Lww], and last-writer-wins where a theorem needs it), [ipnet]'s networks, [rand]'s
    generators, quotients and draws in floating point, DNS, the wall clock, the file system and the
    transport.
    Every theorem with such an hypothesis has an instance in which it holds.

    ** What the theorems show

    - Convergence: replicas that exchanged the same updates agree, also when batches overlap with
      each other and with local writes ([SignedCausalProps.replicas_converge],
      [ReplicaProps.overlapping_batches_converge], [EngineProps.gossiped_batch_joins]); a read
      replica becomes the projection of a quiet peer ([ReadReplicaProps.read_replica_mirrors]); a
      dump carries every entry of the differing ranges ([Dumps.dump_covers_differences]); every held
      tombstone is acknowledged again ([Repair.tombstone_acks_all_resent]); the signed replica's
      ticks send every entry to every confirmed peer ([SignedNetworkProps.ticks_send_everything]);
      coalescing loses no write, though a broadcast over the budget is skipped
      ([Writes.coalescing_loses_no_write]); minted stamps rise ([Clock.minted_stamps_outrank]), and
      a local write outranks everything the node held or had observed when its stamp was minted
      ([Stamps.local_writes_outrank]).
    - Delivery: fragments complete in any order, under eviction and selective retransmission
      ([ReassemblyProps]); what is sent is received, unless the book defers it ([FramedSendProps]).
    - Safety of what is accepted: a datagram of a sender that numbers and stamps in order is
      accepted at most once ([Replay.replay_filter_accepts_once]), which overlapping sends can break
      ([Replay.overlapping_callers_reopen_window]); replays, forged or unrouted datagrams and
      value-only senders do not change the dated state ([Replay], [Auth], [Peer], [Routes],
      [Ingress], [EngineProps.dated_state_guarded], [SignedNetworkProps.signed_state_guarded],
      [ReadReplicaProps.read_replica_never_gates]); a staged key rotation keeps every node reachable
      ([ConfigProps.rotation_keeps_nodes_reachable]).
    - Membership: a member is decommissioned only after the absence the configuration asks for, and
      one that stays away is, at the last miss and not before ([Discovery]); probes stay in the
      declared networks ([Nets]) and reach every hint ([Endpoints]); a tombstone stamped far in the
      future still ages ([Tombstones]).
    - Construction: what the constructors accept starts in the invariants, and runs soundly within
      the limits it was configured with; a saved state of another roster is refused
      ([ConfigProps.constructed_replica_sound], [SignedStartup.constructed_signed_replica_sound]).
    - Refinement: a set over the map behaves as a set ([Sets.replicated_set_refines]); the sliding
      window accepts as a set of numbers would ([Replay.peer_state_refines_set_spec]).
    - Limits: reassembly, retained transfers, datagram sizes, admission rates, repairs, dump slots
      and broadcast slots are bounded and exact; a bulk transfer keeps its rate up to the rounding
      of its delays ([Pacing]); no sequence of datagrams, timers, writes and tasks makes the engine
      panic ([RunProps.running_engine_sound]).
    - Durability: the journal replays to the runtime state after any history, saves are atomic under
      a crash between any two effects, a restart gives back the saved state, and so does one after a
      clean shutdown ([ReplicaProps.replica_always_consistent], [SnapshotProps], [Startup],
      [Facade.clean_shutdown_restores]).
    - Metrics: the counters and gauges of a recording engine are what its run did
      ([MetricsRun.run_metrics_exact]); so for the writers ([MetricsWrites.local_writes_counted]),
      the snapshot task and the file store ([MetricsStore]); the published names are distinct and
      legal ([Metrics.metric_names_published]).
    - Emulation: links are seeded apart, a datagram's fate depends on its link alone, and a link
      without jitter delivers in order ([Emulation], [Transport]).

    ** Fuel

    Loops that are not structural take fuel that is shown to be enough: an eviction loop removes a
    transfer each turn and starts with their number; [Startup.load_loop] stops at its fifth attempt;
    [Startup.collect_loop] moves past a key each turn and starts with one more than the map's size.

    ** Not modelled

    UDP sockets and the DNS lookup (I/O: the transport and the resolver's answers are arguments);
    the recorder behind the metric calls and the installation of the Prometheus exporter (external
    crates), what a read replica records, and logging (no effect on the state); the text of errors
    ([Display]) and cloned handles; fingerprints (the external [rsos]); calls that only forward to a
    modelled one with the same arguments (the set's configuration and topology, the map's runtime
    setters, which are the engine's); the user's hooks, which are only what they are called with;
    code compiled for tests alone ([ManualClock], the [just_] writes of the map, counters read by
    assertions). *)
From stdpp Require Import gmap list sorting numbers relations.
From Stdlib Require Import NArith.

(** ** Results: Rust's [Result<A, E>] *)

Inductive result (A E : Type) : Type :=
| Ok (a : A)
| Err (e : E).
Arguments Ok {A E} a.
Arguments Err {A E} e.

#[export] Instance result_eq_dec {A E} `{EqDecision A, EqDecision E} : EqDecision (result A E).
Proof. solve_decision. Defined.

(** [injection] that leaves the payloads as they are written. *)
Lemma Ok_inj {A E} (a b : A) : @Ok A E a = Ok b → a = b.
Proof. congruence. Qed.

Definition is_ok {A E} (r : result A E) : bool :=
  match r with Ok _ => true | Err _ => false end.

Definition ok_or {A E} (o : option A) (e : E) : result A E :=
  match o with Some a => Ok a | None => Err e end.

Declare Scope rust_scope.
Delimit Scope rust_scope with rust.
Open Scope rust_scope.

(** [let? x := e in k] is Rust's [let x = e?; k] on [Result]. *)
Notation "'let?' x ':=' e 'in' k" :=
  (match e with Ok x => k | Err err => Err err end)
  (at level 200, x pattern, e at level 200, k at level 200, right associativity) : rust_scope.

(** ** Machine integers

    Unsigned integers are [N]; [usize] is the 64-bit [u64]. Plain [+] panics on overflow in
    every profile of the crate ([overflow-checks = true]), so it is [N.add] with the bound shown
    by a theorem where it matters; the checked and saturating forms are written out. *)

Definition u16_max : N := 65535.
Definition u32_max : N := 4294967295.
Definition u64_max : N := 18446744073709551615.
Definition usize_max : N := u64_max.
Definition u64_modulus : N := 18446744073709551616.

Definition saturating_add (a b : N) : N := N.min (a + b) usize_max.
Definition saturating_mul (a b : N) : N := N.min (a * b) usize_max.
(** [saturating_sub], and [Instant::saturating_duration_since] on instants. *)
Definition saturating_sub (a b : N) : N := a - b.
Definition checked_add (a b : N) : option N :=
  if (a + b <=? usize_max)%N then Some (a + b)%N else None.
Definition checked_sub (a b : N) : option N :=
  if (b <=? a)%N then Some (a - b)%N else None.
Definition wrapping_add64 (a b : N) : N := (a + b) mod u64_modulus.
Definition div_ceil (a b : N) : N :=
  if (a mod b =? 0)%N then (a / b)%N else (a / b + 1)%N.
Definition u32_try_from (a : N) : option N := if (a <=? u32_max)%N then Some a else None.
Definition u16_try_from (a : N) : option N := if (a <=? u16_max)%N then Some a else None.

(** [l.len()] as a [usize]. *)
Notation len l := (N.of_nat (length l)).

(** ** Boolean tests: reflect every [N] comparison in the context *)

Ltac bool_to_prop :=
  repeat match goal with
  | H : (_ && _) = true |- _ => apply andb_true_iff in H; destruct H
  | H : (_ && _) = false |- _ => apply andb_false_iff in H
  | H : (_ || _) = true |- _ => apply orb_true_iff in H
  | H : (_ || _) = false |- _ => apply orb_false_iff in H; destruct H
  | H : negb _ = true |- _ => apply negb_true_iff in H
  | H : negb _ = false |- _ => apply negb_false_iff in H
  | H : (_ <=? _)%N = true |- _ => apply N.leb_le in H
  | H : (_ <=? _)%N = false |- _ => apply N.leb_gt in H
  | H : (_ <? _)%N = true |- _ => apply N.ltb_lt in H
  | H : (_ <? _)%N = false |- _ => apply N.ltb_ge in H
  | H : (_ =? _)%N = true |- _ => apply N.eqb_eq in H
  | H : (_ =? _)%N = false |- _ => apply N.eqb_neq in H
  | H : bool_decide _ = true |- _ => apply bool_decide_eq_true_1 in H
  | H : bool_decide _ = false |- _ => apply bool_decide_eq_false_1 in H
  end.

(** Case on the innermost test or match of the goal and reflect it. *)
Ltac case_test :=
  match goal with
  | |- context [ if ?b then _ else _ ] =>
      lazymatch b with
      | context [ if _ then _ else _ ] => fail
      | _ => let E := fresh "E" in destruct b eqn:E
      end
  end; bool_to_prop.

Ltac case_test_in H :=
  match type of H with
  | context [ if ?b then _ else _ ] => let E := fresh "E" in destruct b eqn:E
  end; bool_to_prop.

(** A closed decidable goal, by evaluation. *)
Ltac decided := match goal with |- ?P => refine (bool_decide_eq_true_1 P _) end; vm_compute; reflexivity.

(** ** Rust's [Ord]: a decidable total order whose equality is Leibniz *)

Class RustOrd (A : Type) := {
  ord_leb : A → A → bool;
  ord_leb_total a b : ord_leb a b = true ∨ ord_leb b a = true;
  ord_leb_trans a b c : ord_leb a b = true → ord_leb b c = true → ord_leb a c = true;
  ord_leb_antisym a b : ord_leb a b = true → ord_leb b a = true → a = b;
}.

Definition ord_ltb {A} `{RustOrd A} (a b : A) : bool := negb (ord_leb b a).

Section ord.
Context {A : Type} `{RustOrd A}.

Lemma ord_leb_refl a : ord_leb a a = true.
Proof. by destruct (ord_leb_total a a). Qed.

Lemma ord_ltb_leb a b : ord_ltb a b = true → ord_leb a b = true.
Proof.
  unfold ord_ltb; intros Hn%negb_true_iff.
  destruct (ord_leb_total a b) as [?|Hba]; [done|congruence].
Qed.

Lemma ord_ltb_irrefl a : ord_ltb a a = false.
Proof. unfold ord_ltb. by rewrite ord_leb_refl. Qed.

Lemma ord_leb_ltb_trans a b c : ord_leb a b = true → ord_ltb b c = true → ord_ltb a c = true.
Proof.
  unfold ord_ltb; intros Hab Hbc%negb_true_iff. apply negb_true_iff.
  destruct (ord_leb c a) eqn:Hca; [|done].
  rewrite (ord_leb_trans c a b) in Hbc; done.
Qed.

Lemma ord_ltb_leb_trans a b c : ord_ltb a b = true → ord_leb b c = true → ord_ltb a c = true.
Proof.
  unfold ord_ltb; intros Hab%negb_true_iff Hbc. apply negb_true_iff.
  destruct (ord_leb c a) eqn:Hca; [|done].
  rewrite (ord_leb_trans b c a) in Hab; done.
Qed.

Lemma ord_ltb_false a b : ord_ltb a b = false ↔ ord_leb b a = true.
Proof. unfold ord_ltb. rewrite negb_false_iff. done. Qed.
End ord.

#[export] Program Instance N_ord : RustOrd N := {| ord_leb := N.leb |}.
Next Obligation. intros; rewrite !N.leb_le; lia. Qed.
Next Obligation. intros a b c; rewrite !N.leb_le; lia. Qed.
Next Obligation. intros a b; rewrite !N.leb_le; lia. Qed.

(** Tuples compare lexicographically. *)
Section pair_ord.
Context {A B : Type} `{RustOrd A, RustOrd B}.

Definition pair_leb (x y : A * B) : bool :=
  ord_ltb x.1 y.1 || (ord_leb x.1 y.1 && ord_leb x.2 y.2).

#[export] Program Instance pair_ord : RustOrd (A * B) := {| ord_leb := pair_leb |}.
Next Obligation.
  intros [a b] [a' b']; unfold pair_leb, ord_ltb; cbn.
  destruct (ord_leb_total a a') as [Ha|Ha], (ord_leb_total b b') as [Hb|Hb];
    destruct (ord_leb a a') eqn:?, (ord_leb a' a) eqn:?; rewrite ?Hb; naive_solver.
Qed.
Next Obligation.
  intros [a b] [a' b'] [a'' b'']; unfold pair_leb; cbn.
  rewrite !orb_true_iff, !andb_true_iff.
  intros [Hl|[Hl Hr]] [Hl'|[Hl' Hr']].
  - left; eapply ord_leb_ltb_trans; [by apply ord_ltb_leb|done].
  - left; eapply ord_ltb_leb_trans; done.
  - left; eapply ord_leb_ltb_trans; done.
  - right; split; eapply ord_leb_trans; done.
Qed.
Next Obligation.
  intros [a b] [a' b']; unfold pair_leb, ord_ltb; cbn.
  rewrite !orb_true_iff, !andb_true_iff, !negb_true_iff.
  intros [Hl|[Hl Hr]] [Hl'|[Hl' Hr']]; try congruence.
  - destruct (ord_leb_total a a'); congruence.
  - f_equal; by apply ord_leb_antisym.
Qed.
End pair_ord.

(** Byte arrays compare lexicographically. *)
Section list_ord.
Context {A : Type} `{RustOrd A}.

Fixpoint list_leb (x y : list A) : bool :=
  match x, y with
  | [], _ => true
  | _ :: _, [] => false
  | a :: x, b :: y => ord_ltb a b || (ord_leb a b && list_leb x y)
  end.

#[export] Program Instance list_ord : RustOrd (list A) := {| ord_leb := list_leb |}.
Next Obligation.
  induction a as [|a x IH]; intros [|b y]; cbn; auto.
  destruct (ord_leb_total a b), (IH y) as [Hb|Hb];
    unfold ord_ltb; destruct (ord_leb a b) eqn:?, (ord_leb b a) eqn:?;
    rewrite ?Hb; naive_solver.
Qed.
Next Obligation.
  induction a as [|a x IH]; intros [|b y] [|c z]; cbn; try done.
  rewrite !orb_true_iff, !andb_true_iff.
  intros [Hl|[Hl Hr]] [Hl'|[Hl' Hr']].
  - left; eapply ord_leb_ltb_trans; [by apply ord_ltb_leb|done].
  - left; eapply ord_ltb_leb_trans; done.
  - left; eapply ord_leb_ltb_trans; done.
  - right; split; [eapply ord_leb_trans|eapply IH]; done.
Qed.
Next Obligation.
  induction a as [|a x IH]; intros [|b y]; cbn; try done.
  unfold ord_ltb. rewrite !orb_true_iff, !andb_true_iff, !negb_true_iff.
  intros [Hl|[Hl Hr]] [Hl'|[Hl' Hr']]; try congruence.
  - destruct (ord_leb_total a b); congruence.
  - f_equal; [by apply ord_leb_antisym|by apply IH].
Qed.
End list_ord.

(** ** [Iterator::min]

    A Rust iterator over a [HashMap] has an unspecified order; [min] over a total order does not
    depend on it, which is [min_of_perm] below. *)

Section min_of.
Context {A : Type} `{RustOrd A}.

Fixpoint min_of (l : list A) : option A :=
  match l with
  | [] => None
  | a :: l =>
      match min_of l with
      | None => Some a
      | Some b => Some (if ord_leb a b then a else b)
      end
  end.

Lemma min_of_None l : min_of l = None ↔ l = [].
Proof. destruct l as [|a l]; cbn; [done|]. by destruct (min_of l). Qed.

Lemma min_of_elem l a : min_of l = Some a → a ∈ l.
Proof.
  revert a; induction l as [|b l IH]; intros a; cbn; [done|].
  destruct (min_of l) as [c|]; intros [= <-]; [|left].
  destruct (ord_leb b c); [left|right; by apply IH].
Qed.

Lemma min_of_le l a b : min_of l = Some a → b ∈ l → ord_leb a b = true.
Proof.
  revert a; induction l as [|c l IH]; intros a; cbn; [done|].
  intros Hm [->|Hb]%elem_of_cons.
  - destruct (min_of l) as [d|]; injection Hm as <-; [|apply ord_leb_refl].
    destruct (ord_leb c d) eqn:E; [apply ord_leb_refl|].
    destruct (ord_leb_total c d); congruence.
  - destruct (min_of l) as [d|] eqn:Ed.
    + injection Hm as <-. destruct (ord_leb c d) eqn:E; [|by apply IH].
      eapply ord_leb_trans; [done|by apply IH].
    + apply min_of_None in Ed as ->. by apply not_elem_of_nil in Hb.
Qed.

Lemma min_of_perm l l' : l ≡ₚ l' → min_of l = min_of l'.
Proof.
  intros Hp. destruct (min_of l) as [a|] eqn:E, (min_of l') as [b|] eqn:E'; [| | |done].
  - f_equal; apply ord_leb_antisym.
    + eapply min_of_le; [done|]. rewrite Hp. by apply min_of_elem.
    + eapply min_of_le; [done|]. rewrite <- Hp. by apply min_of_elem.
  - apply min_of_None in E'. subst. apply Permutation_nil_r in Hp. by subst.
  - apply min_of_None in E. subst. apply Permutation_nil_l in Hp. by subst.
Qed.
End min_of.

(** ** Sums over finite maps *)

Section map_sum.
Context {K V : Type} `{Countable K}.
Implicit Types (m : gmap K V) (f : K → V → N).

Definition map_sum f m : N := map_fold (λ k v acc, (f k v + acc)%N) 0%N m.

Lemma map_sum_empty f : map_sum f ∅ = 0%N.
Proof. apply map_fold_empty. Qed.

Lemma map_sum_insert f m k v :
  m !! k = None → map_sum f (<[k:=v]> m) = (f k v + map_sum f m)%N.
Proof. intros Hk. unfold map_sum. rewrite map_fold_insert_L; [done|intros; lia|done]. Qed.

Lemma map_sum_delete f m k v :
  m !! k = Some v → map_sum f m = (f k v + map_sum f (delete k m))%N.
Proof. intros Hk. unfold map_sum. rewrite (map_fold_delete_L _ _ k v); [done|intros; lia|done]. Qed.

Lemma map_sum_lookup_le f m k v : m !! k = Some v → (f k v ≤ map_sum f m)%N.
Proof. intros Hk. rewrite (map_sum_delete _ _ _ _ Hk). lia. Qed.

Lemma map_sum_update f m k v v' :
  m !! k = Some v → (map_sum f (<[k:=v']> m) + f k v = map_sum f m + f k v')%N.
Proof.
  intros Hk. rewrite (map_sum_delete f m k v Hk).
  rewrite <- insert_delete_eq, map_sum_insert by apply lookup_delete_eq. lia.
Qed.

Lemma map_sum_delete_le f m k : (map_sum f (delete k m) ≤ map_sum f m)%N.
Proof.
  destruct (m !! k) as [v|] eqn:Hk.
  - rewrite (map_sum_delete f m k v Hk). lia.
  - by rewrite delete_id.
Qed.

Lemma map_sum_subseteq f m m' : m' ⊆ m → (map_sum f m' ≤ map_sum f m)%N.
Proof.
  revert m'. induction m as [|k v m Hk IH] using map_ind; intros m' Hsub.
  - assert (m' = ∅) as ->; [|done]. apply map_empty. intros i.
    eapply lookup_weaken_None; [apply lookup_empty|done].
  - rewrite map_sum_insert by done. destruct (m' !! k) as [v'|] eqn:Hk'.
    + assert (v' = v) as ->.
      { apply (lookup_weaken _ _ _ _ Hk') in Hsub. rewrite lookup_insert_eq in Hsub. congruence. }
      rewrite (map_sum_delete f m' k v Hk').
      assert (map_sum f (delete k m') ≤ map_sum f m)%N; [|lia]. apply IH.
      rewrite <- (delete_insert_id m k v Hk). by apply delete_mono.
    + assert (map_sum f m' ≤ map_sum f m)%N; [|lia]. apply IH.
      apply map_subseteq_spec. intros i x Hi. apply (lookup_weaken _ _ _ _ Hi) in Hsub.
      rewrite lookup_insert_ne in Hsub; [done|]. congruence.
Qed.

Lemma map_sum_ext f g m :
  (∀ k v, m !! k = Some v → f k v = g k v) → map_sum f m = map_sum g m.
Proof.
  induction m as [|k v m Hk IH] using map_ind; intros Hfg; [done|].
  rewrite !map_sum_insert by done. rewrite (Hfg k v) by apply lookup_insert_eq.
  f_equal. apply IH. intros k' v' Hk'. apply Hfg.
  rewrite lookup_insert_ne by congruence. done.
Qed.

Lemma map_sum_1 m : map_sum (λ _ _, 1%N) m = N.of_nat (size m).
Proof.
  induction m as [|k v m Hk IH] using map_ind; [done|].
  rewrite map_sum_insert, map_size_insert_None by done. lia.
Qed.

Lemma map_sum_pos f m :
  (∀ k v, m !! k = Some v → (0 < f k v)%N) → map_sum f m = 0%N → m = ∅.
Proof.
  intros Hpos Hs. apply map_empty. intros k. destruct (m !! k) as [v|] eqn:Hk; [|done].
  pose proof (map_sum_lookup_le f m k v Hk). specialize (Hpos k v Hk). lia.
Qed.
End map_sum.

(** ** Sizes *)

Lemma map_size_delete_lt {K V} `{Countable K} (m : gmap K V) k v :
  m !! k = Some v → S (size (delete k m)) = size m.
Proof.
  intros Hk. rewrite <- (insert_id m k v Hk) at 2.
  rewrite <- insert_delete_eq, map_size_insert_None by apply lookup_delete_eq. done.
Qed.

Lemma map_size_delete_le {K V} `{Countable K} (m : gmap K V) k : size (delete k m) ≤ size m.
Proof.
  destruct (m !! k) as [v|] eqn:Hk.
  - rewrite <- (map_size_delete_lt m k v Hk). lia.
  - by rewrite delete_id.
Qed.

Lemma map_size_insert_le {K V} `{Countable K} (m : gmap K V) k v :
  size (<[k:=v]> m) ≤ S (size m).
Proof.
  destruct (m !! k) as [w|] eqn:Hk.
  - rewrite map_size_insert_Some by (by eexists). lia.
  - by rewrite map_size_insert_None.
Qed.

Lemma map_size_filter_le {K V} `{Countable K} (P : K * V → Prop) `{∀ x, Decision (P x)}
    (m : gmap K V) :
  size (filter P m) ≤ size m.
Proof.
  rewrite <- !size_dom. apply subseteq_size. apply dom_filter_subseteq.
Qed.

(** ** Lists *)

(** [l[i..j]] for in-range indices. *)
Definition slice {A} (i j : nat) (l : list A) : list A := take (j - i) (drop i l).

Lemma length_slice {A} i j (l : list A) : j ≤ length l → length (slice i j l) = j - i.
Proof. intros. unfold slice. rewrite length_take, length_drop. lia. Qed.

Lemma slice_app_l {A} i j (l l' : list A) : j ≤ length l → slice i j (l ++ l') = slice i j l.
Proof.
  intros. unfold slice. destruct (decide (i ≤ length l)).
  - rewrite drop_app_le by done. apply take_app_le. rewrite length_drop. lia.
  - replace (j - i) with 0 by lia. done.
Qed.

Lemma slice_app_r {A} i j (l l' : list A) :
  length l ≤ i → slice i j (l ++ l') = slice (i - length l) (j - length l) l'.
Proof.
  intros. unfold slice. rewrite drop_app_ge by done. f_equal. lia.
Qed.

Lemma slice_all {A} n (l : list A) : length l = n → slice 0 n l = l.
Proof. intros <-. unfold slice. rewrite drop_0, Nat.sub_0_r. apply firstn_all. Qed.

Lemma fold_left_inv {A B} (P : A → Prop) (f : A → B → A) l a :
  P a → (∀ a b, b ∈ l → P a → P (f a b)) → P (fold_left f l a).
Proof.
  revert a; induction l as [|b l IH]; intros a Ha Hf; cbn; [done|].
  apply IH; [apply Hf; [left|done]|]. intros; apply Hf; [by right|done].
Qed.

Lemma rtc_preserved {A} (P : A → Prop) (R : A → A → Prop) x y :
  (∀ x y, P x → R x y → P y) → rtc R x y → P x → P y.
Proof. intros HR. induction 1; eauto. Qed.

Create HintDb reconcile.
#[export] Hint Resolve ord_leb_refl ord_ltb_leb : reconcile.
