(* ===== verification/Bytes.v ===== *)
(** * Bytes and fixed-width little-endian fields

    Datagrams, hashes and keys are [list byte]. [to_le w] and [from_le] are Rust's
    [to_le_bytes]/[from_le_bytes] at [w] bytes; the two inverse lemmas carry every wire
    round trip of the development. *)
From stdpp Require Import gmap list.
From Stdlib Require Import NArith.
From Stdlib.Strings Require Import Byte.
From S2P Require Import Prelude.

#[export] Instance byte_eq_dec : EqDecision byte := Byte.byte_eq_dec.

Definition byte_val (b : byte) : N := Byte.to_N b.
(** [n as u8]: truncation. *)
Definition byte_of (n : N) : byte := default x00 (Byte.of_N (n mod 256)).

Lemma byte_val_lt b : (byte_val b < 256)%N.
Proof. pose proof (Byte.to_N_bounded b). unfold byte_val. lia. Qed.

Lemma byte_of_val b : byte_of (byte_val b) = b.
Proof.
  unfold byte_of. rewrite N.mod_small by apply byte_val_lt.
  unfold byte_val. by rewrite Byte.of_to_N.
Qed.

Lemma byte_val_of n : byte_val (byte_of n) = (n mod 256)%N.
Proof.
  unfold byte_of. assert (n mod 256 < 256)%N by (apply N.mod_lt; lia).
  destruct (Byte.of_N (n mod 256)) as [b|] eqn:E; cbn.
  - by apply Byte.to_of_N in E.
  - apply Byte.of_N_None_iff in E. lia.
Qed.

Lemma byte_val_inj a b : byte_val a = byte_val b → a = b.
Proof. intros E. rewrite <- (byte_of_val a), E. apply byte_of_val. Qed.

#[export] Instance byte_countable : Countable byte :=
  inj_countable' byte_val byte_of byte_of_val.

#[export] Program Instance byte_ord : RustOrd byte := {| ord_leb a b := (byte_val a <=? byte_val b)%N |}.
Next Obligation. intros; rewrite !N.leb_le; lia. Qed.
Next Obligation. intros a b c; rewrite !N.leb_le; lia. Qed.
Next Obligation. intros a b; rewrite !N.leb_le; intros. apply byte_val_inj. lia. Qed.

Fixpoint to_le (w : nat) (n : N) : list byte :=
  match w with
  | O => []
  | S w => byte_of n :: to_le w (n / 256)
  end.

Fixpoint from_le (bs : list byte) : N :=
  match bs with
  | [] => 0
  | b :: bs => byte_val b + 256 * from_le bs
  end.

Lemma length_to_le w n : length (to_le w n) = w.
Proof. revert n; induction w; intros; cbn; auto. Qed.

Lemma from_le_lt bs : (from_le bs < 256 ^ len bs)%N.
Proof.
  induction bs as [|b bs IH]; cbn [from_le length]; [done|].
  rewrite Nat2N.inj_succ, N.pow_succ_r'. pose proof (byte_val_lt b). lia.
Qed.

Lemma from_to_le w n : (n < 256 ^ N.of_nat w)%N → from_le (to_le w n) = n.
Proof.
  revert n; induction w as [|w IH]; intros n Hn.
  - cbn in *. lia.
  - rewrite Nat2N.inj_succ, N.pow_succ_r' in Hn. cbn [to_le from_le].
    rewrite IH by (apply N.Div0.div_lt_upper_bound; done).
    rewrite byte_val_of. pose proof (N.div_mod n 256). lia.
Qed.

Lemma to_from_le bs : to_le (length bs) (from_le bs) = bs.
Proof.
  induction bs as [|b bs IH]; cbn [length to_le from_le]; [done|].
  pose proof (byte_val_lt b) as Hb. f_equal.
  - apply byte_val_inj. rewrite byte_val_of, N.mul_comm, N.Div0.mod_add, N.mod_small by done. done.
  - rewrite N.mul_comm, N.div_add, N.div_small by lia. done.
Qed.

Lemma to_from_le_n n bs : length bs = n → to_le n (from_le bs) = bs.
Proof. intros <-. apply to_from_le. Qed.

Lemma from_le_inj bs bs' : length bs = length bs' → from_le bs = from_le bs' → bs = bs'.
Proof.
  intros Hl E. rewrite <- (to_from_le bs), <- (to_from_le bs'), Hl, E. done.
Qed.

(** The widths the wire formats use. *)
Lemma from_to_le_u16 n : (n ≤ u16_max)%N → from_le (to_le 2 n) = n.
Proof. intros. apply from_to_le. unfold u16_max in *. cbn. lia. Qed.
Lemma from_to_le_u32 n : (n ≤ u32_max)%N → from_le (to_le 4 n) = n.
Proof. intros. apply from_to_le. unfold u32_max in *. cbn. lia. Qed.
Lemma from_to_le_u64 n : (n ≤ u64_max)%N → from_le (to_le 8 n) = n.
Proof. intros. apply from_to_le. unfold u64_max in *. cbn. lia. Qed.

Lemma from_le_u16_bound bs : length bs = 2 → (from_le bs ≤ u16_max)%N.
Proof. intros Hl. pose proof (from_le_lt bs) as Hb. rewrite Hl in Hb. unfold u16_max. cbn in Hb. lia. Qed.
Lemma from_le_u32_bound bs : length bs = 4 → (from_le bs ≤ u32_max)%N.
Proof. intros Hl. pose proof (from_le_lt bs) as Hb. rewrite Hl in Hb. unfold u32_max. cbn in Hb. lia. Qed.
Lemma from_le_u64_bound bs : length bs = 8 → (from_le bs ≤ u64_max)%N.
Proof. intros Hl. pose proof (from_le_lt bs) as Hb. rewrite Hl in Hb. unfold u64_max. cbn in Hb. lia. Qed.

(** A concatenation of fields determines a field by its offset. *)
Ltac solve_slice :=
  repeat first
    [ rewrite slice_app_l by (rewrite ?length_app, ?length_to_le; cbn; lia)
    | rewrite slice_app_r by (rewrite ?length_app, ?length_to_le; cbn; lia) ];
  rewrite ?length_app, ?length_to_le; cbn [length];
  try (apply slice_all; rewrite ?length_to_le; done).

(** An ASCII literal as bytes ([b"RCPE"]). *)
Definition bytes_of (l : list N) : list byte := byte_of <$> l.

(** Fields are reasoned about by the lemmas above, and evaluated by [vm_compute]. *)
#[global] Opaque to_le from_le.
