(* ===== verification/Btree.v ===== *)
(** * [BTreeMap] as a strictly sorted association list, and eviction loops

    [std::collections::BTreeMap] is iterated in key order by the code, so it is modelled by the
    sorted list of its entries. [evict_loop] is the shape of the crate's bounded-cache loops
    [while over_limit { let Some(x) = pick else { fail }; remove(x) }]. *)
From stdpp Require Import gmap list sorting.
From Stdlib Require Import NArith.
From S2P Require Import Prelude.

Section btree.
Context {K V : Type} `{EqDecision K, RustOrd K}.
Implicit Types (l : list (K * V)) (k : K) (v : V).

Fixpoint bt_get k l : option V :=
  match l with
  | [] => None
  | (k', v) :: l => if decide (k = k') then Some v else bt_get k l
  end.

Fixpoint bt_insert k v l : list (K * V) :=
  match l with
  | [] => [(k, v)]
  | (k', v') :: l' =>
      if decide (k = k') then (k, v) :: l'
      else if ord_ltb k k' then (k, v) :: l
      else (k', v') :: bt_insert k v l'
  end.

Fixpoint bt_remove k l : list (K * V) :=
  match l with
  | [] => []
  | (k', v') :: l' => if decide (k = k') then l' else (k', v') :: bt_remove k l'
  end.

(** [map.range(..k).next_back()] and [map.range(k..).next()] *)
Definition bt_last_below k l : option (K * V) := last (filter (λ kv, ord_ltb kv.1 k = true) l).
Definition bt_first_from k l : option (K * V) := head (filter (λ kv, ord_leb k kv.1 = true) l).

Definition bt_sorted l : Prop := StronglySorted (λ a b : K * V, ord_ltb a.1 b.1 = true) l.

Lemma bt_get_In k v l : bt_get k l = Some v → (k, v) ∈ l.
Proof.
  induction l as [|[k' v'] l IH]; cbn; [done|]. case_decide; [intros [= ->]; subst; left|].
  intros. right. auto.
Qed.

Lemma bt_In_get k v l : bt_sorted l → (k, v) ∈ l → bt_get k l = Some v.
Proof.
  intros Hs. induction Hs as [|[k' v'] l Hs IH Hf]; cbn; [by intros ?%not_elem_of_nil|].
  intros [[= -> ->]|Hin]%elem_of_cons; [by rewrite decide_True|].
  rewrite decide_False; [auto|]. intros ->. rewrite Forall_forall in Hf.
  specialize (Hf _ Hin). cbn in Hf. by rewrite ord_ltb_irrefl in Hf.
Qed.

Lemma bt_get_None k l : bt_get k l = None ↔ k ∉ l.*1.
Proof.
  induction l as [|[k' v'] l IH]; cbn; [split; [set_solver|done]|].
  case_decide; rewrite not_elem_of_cons; naive_solver.
Qed.

Lemma bt_get_insert_eq k v l : bt_get k (bt_insert k v l) = Some v.
Proof.
  induction l as [|[k' v'] l IH]; cbn; repeat case_decide; try done; cbn;
    [by rewrite decide_True|].
  destruct (ord_ltb k k'); cbn; [by rewrite decide_True|by rewrite decide_False].
Qed.

Lemma bt_get_insert_ne k k' v l : k ≠ k' → bt_get k' (bt_insert k v l) = bt_get k' l.
Proof.
  intros Hne. induction l as [|[k0 v0] l IH]; cbn; [by rewrite decide_False|].
  destruct (decide (k = k0)) as [<-|]; cbn; [by rewrite !decide_False|].
  destruct (ord_ltb k k0); cbn; [by rewrite (decide_False (P := k' = k)) by done|].
  case_decide; done.
Qed.

Lemma bt_insert_elem k v l x : x ∈ bt_insert k v l → x = (k, v) ∨ x ∈ l.
Proof.
  induction l as [|[k0 v0] l IH]; cbn; [by intros ->%list_elem_of_singleton; left|].
  destruct (decide (k = k0)); [|destruct (ord_ltb k k0)]; rewrite !elem_of_cons; naive_solver.
Qed.

Lemma bt_insert_sorted k v l : bt_sorted l → bt_sorted (bt_insert k v l).
Proof.
  intros Hs. induction Hs as [|[k' v'] l Hs IH Hf]; cbn; [repeat constructor|].
  case_decide as Hk; [subst; by constructor|].
  destruct (ord_ltb k k') eqn:E; constructor; auto.
  - by constructor.
  - constructor; [done|]. eapply Forall_impl; [exact Hf|].
    intros x Hx. cbn in *. eapply ord_ltb_leb_trans; [done|by apply ord_ltb_leb].
  - rewrite Forall_forall in *. intros x [->|Hx]%bt_insert_elem; [|auto]. cbn.
    unfold ord_ltb in *. apply negb_false_iff in E. apply negb_true_iff.
    destruct (ord_leb k k') eqn:E'; [|done]. by destruct Hk; apply ord_leb_antisym.
Qed.

Lemma bt_get_remove_eq k l : bt_sorted l → bt_get k (bt_remove k l) = None.
Proof.
  intros Hs. induction Hs as [|[k' v'] l Hs IH Hf]; cbn; [done|]. case_decide as Hk; cbn.
  - subst. apply bt_get_None. intros ([k0 v0] & -> & Hin)%list_elem_of_fmap.
    rewrite Forall_forall in Hf. specialize (Hf _ Hin). cbn in Hf. by rewrite ord_ltb_irrefl in Hf.
  - by rewrite decide_False.
Qed.

Lemma bt_get_remove_ne k k' l : k ≠ k' → bt_get k' (bt_remove k l) = bt_get k' l.
Proof.
  intros Hne. induction l as [|[k0 v0] l IH]; cbn; [done|].
  destruct (decide (k = k0)); [subst; by rewrite decide_False by done|].
  cbn. by case_decide.
Qed.

Lemma bt_remove_elem k l x : x ∈ bt_remove k l → x ∈ l.
Proof.
  induction l as [|[k0 v0] l IH]; cbn; [done|].
  case_decide; rewrite ?elem_of_cons; naive_solver.
Qed.

Lemma bt_remove_sorted k l : bt_sorted l → bt_sorted (bt_remove k l).
Proof.
  intros Hs. induction Hs as [|[k' v'] l Hs IH Hf]; cbn; [constructor|].
  case_decide; [done|]. constructor; [done|]. rewrite Forall_forall in *.
  eauto using bt_remove_elem.
Qed.

Lemma bt_filter_sorted (P : K * V → Prop) `{∀ x, Decision (P x)} l :
  bt_sorted l → bt_sorted (filter P l).
Proof.
  intros Hs. induction Hs as [|x l Hs IH Hf]; [constructor|].
  rewrite filter_cons. case_decide; [|done]. constructor; [done|].
  rewrite Forall_forall in *. intros y [_ Hy]%list_elem_of_filter. auto.
Qed.

(** Entry-wise equal maps are equal: iteration order is determined by the contents. *)
Lemma bt_ext l l' : bt_sorted l → bt_sorted l' → (∀ x, x ∈ l ↔ x ∈ l') → l = l'.
Proof.
  intros Hs. revert l'. induction Hs as [|x l Hs IH Hf]; intros l' Hs' Hx.
  - destruct l' as [|y l']; [done|]. destruct (not_elem_of_nil y). apply Hx. left.
  - destruct Hs' as [|y l' Hs' Hf']; [destruct (not_elem_of_nil x); apply Hx; left|].
    rewrite Forall_forall in Hf, Hf'. cbn in Hf, Hf'.
    assert (x = y) as ->.
    { assert (x ∈ y :: l') as [->|Hxy]%elem_of_cons by (apply Hx; left); [done|].
      assert (y ∈ x :: l) as [->|Hyx]%elem_of_cons by (apply Hx; left); [done|].
      apply Hf' in Hxy. apply Hf in Hyx. cbn in *.
      assert (ord_ltb x.1 x.1 = true); [|by rewrite ord_ltb_irrefl in *].
      eapply ord_ltb_leb_trans; [done|by apply ord_ltb_leb]. }
    f_equal. apply IH; [done|]. intros z. specialize (Hx z). rewrite !elem_of_cons in Hx.
    assert (∀ m : list (K * V), (∀ w, w ∈ m → ord_ltb y.1 w.1 = true) → y ∉ m) as Hy.
    { intros m Hm Hin. specialize (Hm _ Hin). by rewrite ord_ltb_irrefl in Hm. }
    specialize (Hy l Hf) as Hyl. specialize (Hy l' Hf') as Hyl'. naive_solver.
Qed.
End btree.

(** ** Eviction loops *)
Section evict_loop.
Context {S X : Type} (over : S → bool) (pick : S → option X) (rm : S → X → S).

(** [None]: out of fuel. [Some (s, n, ok)]: the loop ended after [n] evictions, with [ok] false
    when nothing was left to evict. *)
Fixpoint evict_loop (fuel : nat) (s : S) (n : N) : option (S * N * bool) :=
  if over s then
    match pick s with
    | None => Some (s, n, false)
    | Some x =>
        match fuel with
        | O => None
        | Datatypes.S fuel => evict_loop fuel (rm s x) (n + 1)
        end
    end
  else Some (s, n, true).

Lemma evict_loop_total (I : S → Prop) (mu : S → nat) :
  (∀ s x, I s → pick s = Some x → I (rm s x) ∧ mu (rm s x) < mu s) →
  ∀ fuel s n, I s → mu s ≤ fuel → is_Some (evict_loop fuel s n).
Proof.
  intros Hmu. induction fuel as [|fuel IH]; intros s n Hs Hle; cbn;
    (destruct (over s); [|by eexists]); destruct (pick s) as [x|] eqn:Hx; try by eexists.
  - destruct (Hmu s x Hs Hx). lia.
  - destruct (Hmu s x Hs Hx). apply IH; [done|lia].
Qed.

Lemma evict_loop_inv (I : S → Prop) :
  (∀ s x, I s → over s = true → pick s = Some x → I (rm s x)) →
  ∀ fuel s n s' n' ok, I s → evict_loop fuel s n = Some (s', n', ok) →
  I s' ∧ over s' = negb ok ∧ (ok = false → pick s' = None).
Proof.
  intros Hrm. induction fuel as [|fuel IH]; intros s n s' n' ok Hs; cbn;
    (destruct (over s) eqn:Ho; [|by intros [= <- <- <-]]); destruct (pick s) as [x|] eqn:Hx.
  - done.
  - by intros [= <- <- <-].
  - apply IH. auto.
  - by intros [= <- <- <-].
Qed.
End evict_loop.
