(* ===== verification/ReplayBitmap.v ===== *)
(** * The sliding acceptance window ([gossip/src/replay/bitmap.rs])

    Bit [i] of the sixteen 64-bit words records that [high_water - i] was accepted. [advance] is
    the in-place word loop of the source, highest word first; [is_marked_advance] shows that it
    shifts the whole 1024-bit window. *)
From stdpp Require Import gmap list.
From Stdlib Require Import NArith.
From S2P Require Import Prelude.

Module SlidingBitmap.

Definition WINDOW_SIZE : N := 1024.
(** [(WINDOW_SIZE / 64) as usize] *)
Definition words : nat := 16.

(** [SlidingBitmap([u64; 16])] *)
Notation t := (list N).
Definition word (b : t) (i : nat) : N := default 0%N (b !! i).
Definition set_word (b : t) (i : nat) (w : N) : t := <[i:=w]> b.
(** [x << k] on [u64]: bits shifted out are lost. *)
Definition shl64 (x k : N) : N := N.shiftl x k mod u64_modulus.

Definition mark (b : t) (offset : N) : t :=
  let w := N.to_nat (offset / 64) in
  let bit := (offset mod 64)%N in
  set_word b w (N.lor (word b w) (shl64 1 bit)).

Definition new : t := mark (replicate words 0%N) 0.

Definition is_marked (b : t) (offset : N) : bool :=
  let w := N.to_nat (offset / 64) in
  let bit := (offset mod 64)%N in
  negb (N.land (word b w) (shl64 1 bit) =? 0)%N.

(** The loop [for i in (0..words).rev() { self.0[i] = g(i) }], in place. *)
Definition rev_loop (g : t → nat → N) (n : nat) (b : t) : t :=
  fold_left (λ b i, set_word b i (g b i)) (rev (seq 0 n)) b.

Definition shift_words (word_shift : nat) (b : t) (i : nat) : N :=
  if word_shift <=? i then word b (i - word_shift) else 0%N.

Definition shift_bits (word_shift : nat) (bit_shift : N) (b : t) (i : nat) : N :=
  let lo := if word_shift <=? i then shl64 (word b (i - word_shift)) bit_shift else 0%N in
  let hi := if word_shift <? i then N.shiftr (word b (i - word_shift - 1)) (64 - bit_shift) else 0%N in
  N.lor lo hi.

Definition advance (b : t) (delta : N) : t :=
  if (WINDOW_SIZE <=? delta)%N then new
  else
    let word_shift := N.to_nat (delta / 64) in
    let bit_shift := (delta mod 64)%N in
    let b :=
      if (bit_shift =? 0)%N then rev_loop (shift_words word_shift) words b
      else rev_loop (shift_bits word_shift bit_shift) words b in
    mark b 0.

(** ** Well-formed windows: sixteen words of 64 bits *)

Definition wf (b : t) : Prop := length b = words ∧ Forall (λ w, w < u64_modulus)%N b.

Lemma word_lt b i : wf b → (word b i < u64_modulus)%N.
Proof.
  intros [_ Hb]. unfold word. destruct (b !! i) eqn:E; cbn; [|done].
  by eapply (Forall_lookup_1 _ _ _ _ Hb).
Qed.

Lemma u64_modulus_pow : u64_modulus = (2 ^ 64)%N.
Proof. reflexivity. Qed.

Lemma testbit_high w k : (w < u64_modulus)%N → (64 ≤ k)%N → N.testbit w k = false.
Proof.
  intros Hw Hk. destruct (decide (w = 0%N)) as [->|Hw0]; [apply N.bits_0|].
  apply N.bits_above_log2. rewrite u64_modulus_pow in Hw.
  apply N.log2_lt_pow2 in Hw; lia.
Qed.

Lemma lt_modulus_bits w : (∀ k, (64 ≤ k)%N → N.testbit w k = false) → (w < u64_modulus)%N.
Proof.
  intros H. rewrite u64_modulus_pow.
  replace w with (w mod 2 ^ 64)%N; [apply N.mod_lt; lia|].
  apply N.bits_inj. intros k. destruct (N.lt_ge_cases k 64).
  - by rewrite N.mod_pow2_bits_low.
  - by rewrite N.mod_pow2_bits_high, H.
Qed.

Lemma testbit_shl64 x k i :
  (i < 64)%N → N.testbit (shl64 x k) i = ((k <=? i)%N && N.testbit x (i - k)).
Proof.
  intros Hi. unfold shl64. rewrite u64_modulus_pow, N.mod_pow2_bits_low by done.
  destruct (k <=? i)%N eqn:E; bool_to_prop.
  - by rewrite N.shiftl_spec_high'.
  - by rewrite N.shiftl_spec_low.
Qed.

Lemma shl64_lt x k : (shl64 x k < u64_modulus)%N.
Proof. unfold shl64. apply N.mod_lt. done. Qed.

Lemma testbit_one_shl64 k i : (k < 64)%N → (i < 64)%N → N.testbit (shl64 1 k) i = (i =? k)%N.
Proof.
  intros Hk Hi. rewrite testbit_shl64 by done.
  destruct (k <=? i)%N eqn:E; bool_to_prop; cbn [andb].
  - destruct (i =? k)%N eqn:E'; bool_to_prop.
    + subst. by rewrite N.sub_diag.
    + rewrite N.bits_above_log2; [done|]. cbn. lia.
  - symmetry. apply N.eqb_neq. lia.
Qed.

Lemma mask_testbit w k : (k < 64)%N → (N.land w (shl64 1 k) =? 0)%N = negb (N.testbit w k).
Proof.
  intros Hk. assert (Hs : shl64 1 k = (2 ^ k)%N).
  { unfold shl64. rewrite N.shiftl_1_l, u64_modulus_pow. apply N.mod_small.
    apply N.pow_lt_mono_r; lia. }
  rewrite Hs. destruct (N.testbit w k) eqn:Hb; cbn [negb].
  - apply N.eqb_neq. intros H0. apply (f_equal (λ x, N.testbit x k)) in H0.
    rewrite N.land_spec, Hb, N.pow2_bits_true in H0. done.
  - apply N.eqb_eq. apply N.bits_inj. intros i. rewrite N.land_spec, N.bits_0.
    destruct (decide (k = i)) as [<-|]; [by rewrite Hb|].
    by rewrite N.pow2_bits_false, andb_false_r by done.
Qed.

Lemma is_marked_testbit b o :
  is_marked b o = N.testbit (word b (N.to_nat (o / 64))) (o mod 64).
Proof.
  unfold is_marked. rewrite mask_testbit by (apply N.mod_lt; lia). apply negb_involutive.
Qed.

Lemma word_set_word b i w j :
  i < length b → word (set_word b i w) j = if decide (i = j) then w else word b j.
Proof.
  intros Hi. unfold word, set_word. destruct (decide (i = j)) as [->|Hne].
  - by rewrite list_lookup_insert_eq.
  - by rewrite list_lookup_insert_ne.
Qed.

Lemma wf_set_word b i w : wf b → (w < u64_modulus)%N → wf (set_word b i w).
Proof.
  intros [Hl Hb] Hw. unfold set_word. split; [by rewrite length_insert|].
  apply Forall_insert; done.
Qed.

Lemma wf_mark b o : wf b → wf (mark b o).
Proof.
  intros Hb. apply wf_set_word; [done|]. apply lt_modulus_bits. intros k Hk.
  rewrite N.lor_spec, !testbit_high; auto using word_lt, shl64_lt.
Qed.

Lemma wf_new : wf new.
Proof. apply wf_mark. split; [done|]. by apply Forall_replicate. Qed.

Lemma offset_split o p : (o / 64 = p / 64)%N → (o mod 64 = p mod 64)%N → o = p.
Proof. intros. rewrite (N.div_mod o 64), (N.div_mod p 64) by lia. congruence. Qed.

Lemma offset_word o : (o < WINDOW_SIZE)%N → N.to_nat (o / 64) < words.
Proof.
  unfold WINDOW_SIZE, words. intros.
  assert (o / 64 < 16)%N by (apply N.Div0.div_lt_upper_bound; lia). lia.
Qed.

Lemma is_marked_mark b o p :
  wf b → (o < WINDOW_SIZE)%N → (p < WINDOW_SIZE)%N →
  is_marked (mark b o) p = ((p =? o)%N || is_marked b p).
Proof.
  intros Hb Ho Hp. rewrite !is_marked_testbit. unfold mark.
  rewrite word_set_word by (destruct Hb as [-> _]; by apply offset_word).
  case_decide as Hw.
  - rewrite N.lor_spec, testbit_one_shl64 by (apply N.mod_lt; lia). rewrite Hw, orb_comm. f_equal.
    destruct (p =? o)%N eqn:E; bool_to_prop; [subst; apply N.eqb_refl|].
    apply N.eqb_neq. intros Hm. apply E, offset_split; [lia|done].
  - destruct (p =? o)%N eqn:E; bool_to_prop; [by subst|done].
Qed.

Lemma is_marked_new p : (p < WINDOW_SIZE)%N → is_marked new p = (p =? 0)%N.
Proof.
  intros Hp. unfold new. rewrite is_marked_mark; [|split; [done|by apply Forall_replicate]|done|done].
  rewrite (is_marked_testbit (replicate _ _)). unfold word.
  rewrite lookup_replicate_2 by (by apply offset_word).
  cbn. by rewrite orb_false_r.
Qed.

(** ** The loop: an in-place update from the top reads only words not yet written *)

Definition reads_below (g : t → nat → N) : Prop :=
  ∀ b b' i, (∀ k, k ≤ i → word b k = word b' k) → g b i = g b' i.

Lemma rev_loop_spec g n b j :
  reads_below g → n ≤ length b →
  word (rev_loop g n b) j = if decide (j < n) then g b j else word b j.
Proof.
  intros Hg. unfold rev_loop. revert b. induction n as [|n IH]; intros b Hn; [done|].
  rewrite seq_S, rev_app_distr. cbn [rev app fold_left Nat.add].
  rewrite IH by (unfold set_word; rewrite length_insert; lia).
  destruct (decide (j < n)), (decide (j < S n)); try lia.
  - apply Hg. intros k Hk. rewrite word_set_word by lia. by rewrite decide_False by lia.
  - assert (j = n) as -> by lia. rewrite word_set_word by lia. by rewrite decide_True.
  - rewrite word_set_word by lia. by rewrite decide_False by lia.
Qed.

Lemma rev_loop_wf g n b :
  (∀ b i, wf b → (g b i < u64_modulus)%N) → wf b → wf (rev_loop g n b).
Proof.
  intros Hg Hb. unfold rev_loop. apply fold_left_inv; [done|].
  intros b' i _ Hb'. apply wf_set_word; auto.
Qed.

Lemma shift_words_reads s : reads_below (shift_words s).
Proof. intros b b' i H. unfold shift_words. case_test; [apply H; lia|done]. Qed.

Lemma shift_bits_reads s k : reads_below (shift_bits s k).
Proof.
  intros b b' i H. unfold shift_bits.
  rewrite (H (i - s)), (H (i - s - 1)) by lia. done.
Qed.

Lemma shift_words_lt s b i : wf b → (shift_words s b i < u64_modulus)%N.
Proof. intros. unfold shift_words. case_test; [by apply word_lt|done]. Qed.

Lemma shift_bits_lt s k b i : wf b → (shift_bits s k b i < u64_modulus)%N.
Proof.
  intros Hb. apply lt_modulus_bits. intros j Hj. unfold shift_bits. rewrite N.lor_spec.
  apply orb_false_iff; split; case_test; try apply N.bits_0.
  - apply testbit_high; [apply shl64_lt|done].
  - rewrite N.shiftr_spec'. apply testbit_high; [by apply word_lt|lia].
Qed.

Lemma wf_advance b delta : wf b → wf (advance b delta).
Proof.
  intros Hb. unfold advance. repeat case_test; [apply wf_new| |];
    apply wf_mark, rev_loop_wf; auto using shift_words_lt, shift_bits_lt.
Qed.

Ltac offset_facts o d :=
  pose proof (N.div_mod o 64 ltac:(lia)); pose proof (N.div_mod d 64 ltac:(lia));
  pose proof (N.mod_lt o 64 ltac:(lia)); pose proof (N.mod_lt d 64 ltac:(lia)).
Ltac offset_lia o d :=
  generalize dependent (o mod 64)%N; generalize dependent (o / 64)%N;
  generalize dependent (d mod 64)%N; generalize dependent (d / 64)%N; intros; subst; nia.

(** Both loop bodies compute bit [o] of the new window from bit [o - delta] of the old. *)
Lemma sub_offset o d :
  (d ≤ o)%N → (d mod 64 ≤ o mod 64)%N →
  ((o - d) / 64 = o / 64 - d / 64 ∧ (o - d) mod 64 = o mod 64 - d mod 64)%N.
Proof.
  intros. offset_facts o d. pose proof (N.Div0.div_le_mono d o 64 ltac:(done)).
  split; [symmetry; apply (N.div_unique _ _ _ (o mod 64 - d mod 64))
    |symmetry; apply (N.mod_unique _ _ (o / 64 - d / 64))]; offset_lia o d.
Qed.

Lemma sub_offset_borrow o d :
  (d ≤ o)%N → (o mod 64 < d mod 64)%N →
  ((o - d) / 64 = o / 64 - d / 64 - 1 ∧ (o - d) mod 64 = o mod 64 + (64 - d mod 64)
    ∧ d / 64 < o / 64)%N.
Proof.
  intros. offset_facts o d. pose proof (N.Div0.div_le_mono d o 64 ltac:(done)).
  assert (d / 64 < o / 64)%N by offset_lia o d.
  repeat split; [symmetry; apply (N.div_unique _ _ _ (o mod 64 + (64 - d mod 64)))
    |symmetry; apply (N.mod_unique _ _ (o / 64 - d / 64 - 1))|]; offset_lia o d.
Qed.

Lemma le_offset_words o d : (d mod 64 ≤ o mod 64)%N → (d ≤ o ↔ d / 64 ≤ o / 64)%N.
Proof. intros. offset_facts o d. split; intros; offset_lia o d. Qed.

Lemma shift_words_bit b d o :
  (d mod 64 = 0)%N →
  N.testbit (shift_words (N.to_nat (d / 64)) b (N.to_nat (o / 64))) (o mod 64)
  = ((d <=? o)%N && is_marked b (o - d)).
Proof.
  intros Hd. assert (Hm : (d mod 64 ≤ o mod 64)%N) by (rewrite Hd; apply N.le_0_l).
  pose proof (le_offset_words o d Hm) as Hle. unfold shift_words.
  case_test; bool_to_prop.
  - apply Nat.leb_le in E. rewrite (proj2 (N.leb_le d o)) by (apply Hle; lia).
    destruct (sub_offset o d) as [E1 E2]; [apply Hle; lia|done|].
    rewrite is_marked_testbit, E1, E2, Hd, N.sub_0_r, N2Nat.inj_sub. done.
  - apply Nat.leb_gt in E. rewrite (proj2 (N.leb_gt d o)) by lia. apply N.bits_0.
Qed.

Lemma shift_bits_bit b d o :
  wf b → (d mod 64 ≠ 0)%N →
  N.testbit (shift_bits (N.to_nat (d / 64)) (d mod 64) b (N.to_nat (o / 64))) (o mod 64)
  = ((d <=? o)%N && is_marked b (o - d)).
Proof.
  intros Hb Hd. pose proof (N.mod_lt o 64 ltac:(lia)) as Ho. pose proof (N.mod_lt d 64 ltac:(lia)) as Hd'.
  unfold shift_bits. rewrite N.lor_spec, is_marked_testbit.
  destruct (N.le_gt_cases (d mod 64) (o mod 64)) as [Hm|Hm].
  - pose proof (le_offset_words o d Hm) as Hle.
    match goal with |- _ || N.testbit (if ?c then _ else _) _ = _ =>
      replace (N.testbit (if c then _ else _) _) with false end.
    2:{ symmetry. case_test; [|apply N.bits_0]. rewrite N.shiftr_spec'.
        apply testbit_high; [by apply word_lt|lia]. }
    rewrite orb_false_r. case_test.
    + apply Nat.leb_le in E. destruct (sub_offset o d) as [E1 E2]; [apply Hle; lia|done|].
      rewrite (proj2 (N.leb_le d o)) by (apply Hle; lia).
      rewrite testbit_shl64 by done. rewrite (proj2 (N.leb_le _ _) Hm), E1, E2, N2Nat.inj_sub. done.
    + apply Nat.leb_gt in E. rewrite (proj2 (N.leb_gt d o)) by lia. apply N.bits_0.
  - match goal with |- N.testbit (if ?c then _ else _) _ || _ = _ =>
      replace (N.testbit (if c then _ else _) _) with false end.
    2:{ symmetry. case_test; [|apply N.bits_0]. rewrite testbit_shl64 by done.
        by rewrite (proj2 (N.leb_gt _ _)). }
    cbn [orb]. destruct (N.le_gt_cases d o) as [Hle|Hgt].
    + destruct (sub_offset_borrow o d Hle Hm) as (E1 & E2 & E3).
      rewrite (proj2 (N.leb_le d o)) by done. rewrite (proj2 (Nat.ltb_lt _ _)) by lia.
      rewrite N.shiftr_spec', E1, E2, !N2Nat.inj_sub. done.
    + rewrite (proj2 (N.leb_gt d o)) by done.
      rewrite (proj2 (Nat.ltb_ge _ _)); [apply N.bits_0|].
      pose proof (N.Div0.div_le_mono o d 64 ltac:(lia)). lia.
Qed.

Lemma is_marked_advance b delta o :
  wf b → (o < WINDOW_SIZE)%N →
  is_marked (advance b delta) o
  = ((o =? 0)%N || ((delta <=? o)%N && is_marked b (o - delta))).
Proof.
  intros Hb Ho. unfold advance. case_test.
  - rewrite is_marked_new by done. rewrite (proj2 (N.leb_gt delta o)) by lia.
    by rewrite orb_false_r.
  - case_test; (rewrite is_marked_mark;
      [|apply rev_loop_wf; auto using shift_words_lt, shift_bits_lt|done|done]); f_equal;
      rewrite (is_marked_testbit (rev_loop _ _ _)), rev_loop_spec, decide_True
        by first [ apply offset_word; assumption | apply shift_words_reads
                 | apply shift_bits_reads | destruct Hb as [-> _]; reflexivity ].
    + by apply shift_words_bit.
    + by apply shift_bits_bit.
Qed.

End SlidingBitmap.
