(* ===== verification/Replay.v ===== *)
(** * Replay protection ([gossip/src/replay.rs] and [gossip/src/replay/])

    [PeerReplay] is the per-peer accept/restart decision over the sliding window, with the set of
    accepted sequence numbers as its abstract specification; [ReplayFilter] is the bounded map of
    peers with staleness reclamation; [SenderCounter] mints the sequence numbers and stamps. The
    last section composes the three: whatever an attacker replays, reorders or delays of a sender
    whose stamps are in the order of its numbers, no number is accepted twice. *)
From stdpp Require Import gmap list sorting relations.
From Stdlib Require Import NArith.
From Stdlib.Strings Require Import Byte.
From S2P Require Import Prelude Bytes ReplayBitmap.

(** ** Wire fields: [Seq] and [Stamp] are [u64] *)

Definition REPLAY_HEADER_LEN : nat := 16.
Definition Seq_FIRST : N := 1.
Definition Seq_NONE : N := 0.
Definition Stamp_NONE : N := 0.

(** [Duration::as_millis() as u64], durations in nanoseconds. *)
Definition as_millis_u64 (d : N) : N := (d / 1000000) mod u64_modulus.
Definition FRESHNESS_WINDOW_DEFAULT : N := 5 * 60 * 1000000000.

Definition age_relative_to (self now : N) : N := saturating_sub now self.
Definition is_fresh (self now window : N) : bool :=
  let window_ms := as_millis_u64 window in
  (age_relative_to self now <=? window_ms)%N && (age_relative_to now self <=? window_ms)%N.

(** ** One peer's state *)
Module PeerReplay.

Record PeerState := {
  max_seq : N;
  stamp_at_max : N;
  max_stamp_seen : N;
  bitmap : list N;
}.

Definition new (first_seq first_stamp : N) : PeerState :=
  {| max_seq := first_seq; stamp_at_max := first_stamp; max_stamp_seen := first_stamp;
     bitmap := SlidingBitmap.new |}.

Definition reset (p : PeerState) (new_seq new_stamp : N) : PeerState :=
  {| max_seq := new_seq; stamp_at_max := new_stamp;
     max_stamp_seen := N.max (max_stamp_seen p) new_stamp; bitmap := SlidingBitmap.new |}.

Definition accept (p : PeerState) (seq stamp : N) : PeerState * bool :=
  if (max_seq p <? seq)%N then
    if (stamp <? max_stamp_seen p)%N then (p, false)
    else
      let delta := (seq - max_seq p)%N in
      ({| max_seq := seq; stamp_at_max := stamp;
          max_stamp_seen := N.max (max_stamp_seen p) stamp;
          bitmap := SlidingBitmap.advance (bitmap p) delta |}, true)
  else if (stamp_at_max p <? stamp)%N then (reset p seq stamp, true)
  else
    let behind := (max_seq p - seq)%N in
    if (SlidingBitmap.WINDOW_SIZE <=? behind)%N then (p, false)
    else if SlidingBitmap.is_marked (bitmap p) behind then (p, false)
    else
      ({| max_seq := max_seq p; stamp_at_max := stamp_at_max p;
          max_stamp_seen := max_stamp_seen p;
          bitmap := SlidingBitmap.mark (bitmap p) behind |}, true).

(** ** Specification: the numbers accepted since the last restart, as a set *)

Record Spec := { s_max : N; s_stamp : N; s_seen : gset N }.

Definition spec_new (seq stamp : N) : Spec :=
  {| s_max := seq; s_stamp := stamp; s_seen := {[seq]} |}.

Definition spec_accept (a : Spec) (seq stamp : N) : Spec * bool :=
  if (s_max a <? seq)%N then
    if (stamp <? s_stamp a)%N then (a, false)
    else ({| s_max := seq; s_stamp := stamp; s_seen := {[seq]} ∪ s_seen a |}, true)
  else if (s_stamp a <? stamp)%N then (spec_new seq stamp, true)
  else if (s_max a - seq <? SlidingBitmap.WINDOW_SIZE)%N && bool_decide (seq ∉ s_seen a)
  then ({| s_max := s_max a; s_stamp := s_stamp a; s_seen := {[seq]} ∪ s_seen a |}, true)
  else (a, false).

(** The window records membership in the set, and the two stamp fields never differ. *)
Record refines (p : PeerState) (a : Spec) : Prop := {
  ref_max : max_seq p = s_max a;
  ref_stamp : stamp_at_max p = s_stamp a;
  ref_stamp_seen : max_stamp_seen p = s_stamp a;
  ref_wf : SlidingBitmap.wf (bitmap p);
  ref_seen_le : ∀ q, q ∈ s_seen a → (q ≤ s_max a)%N;
  ref_bits : ∀ o, (o < SlidingBitmap.WINDOW_SIZE)%N → (o ≤ s_max a)%N →
    SlidingBitmap.is_marked (bitmap p) o = bool_decide ((s_max a - o)%N ∈ s_seen a);
}.

Lemma refines_new seq stamp : refines (new seq stamp) (spec_new seq stamp).
Proof.
  constructor; cbn; auto using SlidingBitmap.wf_new.
  - set_solver by lia.
  - intros o Ho Hle. rewrite SlidingBitmap.is_marked_new by done.
    symmetry. destruct (o =? 0)%N eqn:E; bool_to_prop.
    + apply bool_decide_eq_true_2. rewrite elem_of_singleton. lia.
    + apply bool_decide_eq_false_2. rewrite elem_of_singleton. lia.
Qed.

Lemma refines_reset p a seq stamp :
  refines p a → (s_stamp a < stamp)%N → refines (reset p seq stamp) (spec_new seq stamp).
Proof.
  intros HR Hs. destruct (refines_new seq stamp). constructor; auto.
  cbn. rewrite (ref_stamp_seen _ _ HR). lia.
Qed.

Lemma bits_advance p a seq o :
  refines p a → (s_max a < seq)%N → (o < SlidingBitmap.WINDOW_SIZE)%N → (o ≤ seq)%N →
  SlidingBitmap.is_marked (SlidingBitmap.advance (bitmap p) (seq - s_max a)) o
  = bool_decide ((seq - o)%N ∈ {[seq]} ∪ s_seen a).
Proof.
  intros HR Hlt Ho Hle. rewrite SlidingBitmap.is_marked_advance by (try apply HR; done).
  apply Bool.eq_iff_eq_true.
  rewrite bool_decide_eq_true, orb_true_iff, andb_true_iff, N.eqb_eq, N.leb_le, elem_of_union,
    elem_of_singleton.
  assert (Hb : (seq - s_max a ≤ o)%N →
    SlidingBitmap.is_marked (bitmap p) (o - (seq - s_max a)) = bool_decide ((seq - o)%N ∈ s_seen a)).
  { intros. rewrite (ref_bits _ _ HR) by lia.
    by replace (s_max a - (o - (seq - s_max a)))%N with (seq - o)%N by lia. }
  split.
  - intros [->|[H1 H2]]; [left; lia|right]. rewrite Hb in H2 by done. by apply bool_decide_eq_true_1 in H2.
  - intros [?|Hin]; [left; lia|]. pose proof (ref_seen_le _ _ HR _ Hin).
    right; split; [lia|]. rewrite Hb by lia. by apply bool_decide_eq_true_2.
Qed.

Lemma bits_mark p a seq o :
  refines p a → (seq ≤ s_max a)%N → (s_max a - seq < SlidingBitmap.WINDOW_SIZE)%N →
  (o < SlidingBitmap.WINDOW_SIZE)%N → (o ≤ s_max a)%N →
  SlidingBitmap.is_marked (SlidingBitmap.mark (bitmap p) (s_max a - seq)) o
  = bool_decide ((s_max a - o)%N ∈ {[seq]} ∪ s_seen a).
Proof.
  intros HR Hle Hw Ho Hle'. rewrite SlidingBitmap.is_marked_mark by (try apply HR; done).
  rewrite (ref_bits _ _ HR) by done. apply Bool.eq_iff_eq_true.
  rewrite orb_true_iff, !bool_decide_eq_true, N.eqb_eq, elem_of_union, elem_of_singleton.
  assert (o = (s_max a - seq)%N ↔ (s_max a - o)%N = seq) by lia. tauto.
Qed.

Lemma refines_accept p a seq stamp :
  refines p a →
  (accept p seq stamp).2 = (spec_accept a seq stamp).2 ∧
  refines (accept p seq stamp).1 (spec_accept a seq stamp).1.
Proof.
  intros HR. unfold accept, spec_accept.
  rewrite (ref_max _ _ HR), (ref_stamp _ _ HR), (ref_stamp_seen _ _ HR).
  case_test; [case_test; cbn; [by split|]|].
  - split; [done|]. constructor; cbn; auto.
    + lia.
    + apply SlidingBitmap.wf_advance, HR.
    + intros q [->%elem_of_singleton|Hq]%elem_of_union; [lia|].
      pose proof (ref_seen_le _ _ HR _ Hq). lia.
    + intros. by apply bits_advance.
  - case_test; cbn; [split; [done|by apply (refines_reset p a)]|].
    destruct (s_max a - seq <? SlidingBitmap.WINDOW_SIZE)%N eqn:Ew; bool_to_prop.
    + rewrite (proj2 (N.leb_gt _ _)) by done. rewrite (ref_bits _ _ HR) by lia.
      replace (s_max a - (s_max a - seq))%N with seq by lia.
      case_bool_decide; [rewrite bool_decide_eq_false_2 by tauto; by cbn|].
      rewrite bool_decide_eq_true_2 by done. cbn. split; [done|].
      constructor; cbn; try (reflexivity || apply HR).
      * apply SlidingBitmap.wf_mark, HR.
      * intros q [->%elem_of_singleton|Hq]%elem_of_union; [lia|]. by apply (ref_seen_le _ _ HR).
      * intros. by apply bits_mark.
    + rewrite (proj2 (N.leb_le _ _)) by done. by split.
Qed.

(** A trace of datagrams and the answers they get. *)
Fixpoint run {S} (step : S → N → N → S * bool) (s : S) (l : list (N * N)) : S * list bool :=
  match l with
  | [] => (s, [])
  | (q, t) :: l => let '(s, r) := step s q t in let '(s, rs) := run step s l in (s, r :: rs)
  end.

Lemma refines_run p a l :
  refines p a → (run accept p l).2 = (run spec_accept a l).2 ∧
    refines (run accept p l).1 (run spec_accept a l).1.
Proof.
  revert p a; induction l as [|[q t] l IH]; intros p a HR; cbn; [by split|].
  destruct (refines_accept p a q t HR) as [E HR'].
  destruct (accept p q t) as [p' r], (spec_accept a q t) as [a' r']; cbn in *; subst.
  destruct (IH _ _ HR') as [E HR'']. destruct (run accept p' l), (run spec_accept a' l); cbn in *.
  by subst.
Qed.

(** ** An honest sender: stamps are a monotone function of sequence numbers *)

(** What [spec_accept] guarantees when the datagram's stamp and the recorded one come from the
    same monotone function: no restart, so the seen set only grows. *)
Definition honest (f : N → N) (a : Spec) : Prop := s_stamp a = f (s_max a).

Lemma spec_accept_honest f a q :
  (∀ x y, (x ≤ y)%N → (f x ≤ f y)%N) → honest f a →
  honest f (spec_accept a q (f q)).1 ∧
  (s_stamp a ≤ s_stamp (spec_accept a q (f q)).1)%N ∧
  s_seen (spec_accept a q (f q)).1
    = (if (spec_accept a q (f q)).2 then {[q]} ∪ s_seen a else s_seen a) ∧
  (s_max (spec_accept a q (f q)).1
    = if (spec_accept a q (f q)).2 then N.max (s_max a) q else s_max a).
Proof.
  intros Hf Ha. unfold honest in *. unfold spec_accept.
  case_test; [pose proof (Hf (s_max a) q ltac:(lia))|pose proof (Hf q (s_max a) ltac:(lia))];
    repeat (case_test; cbn); try (repeat split; first [done|lia]).
Qed.

Lemma spec_accept_seen f a q :
  (∀ x y, (x ≤ y)%N → (f x ≤ f y)%N) → honest f a →
  q ∈ s_seen a → (q ≤ s_max a)%N → (spec_accept a q (f q)).2 = false.
Proof.
  intros Hf Ha Hq Hle. unfold honest in *. unfold spec_accept. pose proof (Hf q (s_max a) Hle).
  rewrite (proj2 (N.ltb_ge _ _)) by done. rewrite (proj2 (N.ltb_ge _ _)) by lia.
  rewrite bool_decide_eq_false_2 by tauto. by rewrite andb_false_r.
Qed.

Lemma spec_accept_fresh f a q :
  (∀ x y, (x ≤ y)%N → (f x ≤ f y)%N) → honest f a →
  q ∉ s_seen a → (s_max a < q + SlidingBitmap.WINDOW_SIZE)%N → (spec_accept a q (f q)).2 = true.
Proof.
  intros Hf Ha Hq Hw. unfold honest in *. unfold spec_accept. unfold SlidingBitmap.WINDOW_SIZE in *.
  case_test; [pose proof (Hf (s_max a) q ltac:(lia)); by rewrite (proj2 (N.ltb_ge _ _)) by lia|].
  pose proof (Hf q (s_max a) ltac:(lia)). rewrite (proj2 (N.ltb_ge _ _)) by lia.
  rewrite bool_decide_eq_true_2 by done. by rewrite (proj2 (N.ltb_lt _ _)) by lia.
Qed.

End PeerReplay.

(** ** The bounded per-sender map *)
Module ReplayFilter.
Import PeerReplay.
Section filter.
Context {K : Type} `{Countable K}.

Record Filter := {
  peers : gmap K PeerState;
  freshness_window : N;
  enabled : bool;
  max_senders : N;
}.

Definition filter_new (window : N) (en : bool) : Filter :=
  {| peers := ∅; freshness_window := window; enabled := en; max_senders := usize_max |}.

Definition with_max_senders (f : Filter) (n : N) : Filter :=
  {| peers := peers f; freshness_window := freshness_window f; enabled := enabled f;
     max_senders := n |}.

(** [s.stamp_at_max().age_relative_to(now) <= window_ms] *)
Definition live_at (now window_ms : N) (p : PeerState) : bool :=
  (age_relative_to (stamp_at_max p) now <=? window_ms)%N.

(** The tail of [check_and_record_sender], reached when no live entry answers: make room, insert. *)
Definition admit_sender (m : gmap K PeerState) (sender : K) (seq stamp now window_ms max : N)
    : gmap K PeerState * bool :=
  if (max <=? N.of_nat (size m))%N then
    let m := filter (λ kv, live_at now window_ms kv.2 = true) m in
    if (max <=? N.of_nat (size m))%N then (m, false)
    else (<[sender := new seq stamp]> m, true)
  else (<[sender := new seq stamp]> m, true).

Definition check_and_record_sender (m : gmap K PeerState) (sender : K)
    (seq stamp now window max : N) : gmap K PeerState * bool :=
  if negb (is_fresh stamp now window) then (m, false)
  else
    let window_ms := as_millis_u64 window in
    match m !! sender with
    | Some state =>
        if live_at now window_ms state then
          let '(state, r) := accept state seq stamp in (<[sender := state]> m, r)
        else admit_sender (delete sender m) sender seq stamp now window_ms max
    | None => admit_sender m sender seq stamp now window_ms max
    end.

Definition check_and_record_at (f : Filter) (sender : K) (seq stamp now : N) : Filter * bool :=
  let '(m, r) := check_and_record_sender (peers f) sender seq stamp now
                   (freshness_window f) (max_senders f) in
  ({| peers := m; freshness_window := freshness_window f; enabled := enabled f;
      max_senders := max_senders f |}, r).

Definition check_and_record (f : Filter) (sender : K) (seq stamp now : N) : Filter * bool :=
  if negb (enabled f) then (f, true) else check_and_record_at f sender seq stamp now.

Definition filter_len (f : Filter) : N := N.of_nat (size (peers f)).

(** A delivery: claimed sender, header fields and the receiver's clock at arrival. *)
Record Delivery := { d_from : K; d_seq : N; d_stamp : N; d_now : N }.

(** The (sender, sequence number) pairs a run accepts, in order. *)
Fixpoint accepted (f : Filter) (l : list Delivery) : list (K * N) :=
  match l with
  | [] => []
  | d :: l =>
      let '(f, r) := check_and_record f (d_from d) (d_seq d) (d_stamp d) (d_now d) in
      if r then (d_from d, d_seq d) :: accepted f l else accepted f l
  end.

(** Those of one sender. *)
Definition numbers_from (k0 : K) (l : list (K * N)) : list N := omap (λ x, if decide (x.1 = k0) then Some x.2 else None) l.

(** *** Capacity *)

Lemma admit_sender_size m k q t now w max :
  (N.of_nat (size m) ≤ max)%N → (N.of_nat (size (admit_sender m k q t now w max).1) ≤ max)%N.
Proof.
  intros Hm. unfold admit_sender. repeat case_test; cbn.
  - pose proof (map_size_filter_le (λ kv, live_at now w kv.2 = true) m). lia.
  - pose proof (map_size_insert_le (filter (λ kv, live_at now w kv.2 = true) m) k (new q t)). lia.
  - pose proof (map_size_insert_le m k (new q t)). lia.
Qed.

Lemma check_and_record_sender_size m k q t now w max :
  (N.of_nat (size m) ≤ max)%N →
  (N.of_nat (size (check_and_record_sender m k q t now w max).1) ≤ max)%N.
Proof.
  intros Hm. unfold check_and_record_sender. case_test; [done|].
  destruct (m !! k) as [p|] eqn:Hk; [case_test|by apply admit_sender_size].
  - destruct (accept p q t). cbn. rewrite map_size_insert_Some by (by eexists). done.
  - apply admit_sender_size. pose proof (map_size_delete_le m k). lia.
Qed.

(** *** No replay from a sender whose stamps are monotone in its sequence numbers, whatever the others do *)

Context (k0 : K) (f : N → N) (Hf : ∀ x y, (x ≤ y)%N → (f x ≤ f y)%N).

Definition stale (window_ms now : N) (t : N) : Prop := (t + window_ms < now)%N.

(** Everything accepted from [k0] is still in its window's set, or too old ever to be fresh. *)
Definition remembered (wms now : N) (log : list N) (o : option PeerState) : Prop :=
  match o with
  | Some p => ∃ a, refines p a ∧ honest f a ∧ ∀ q, q ∈ log → q ∈ s_seen a ∨ stale wms now (f q)
  | None => ∀ q, q ∈ log → stale wms now (f q)
  end.

Definition inv (wms now : N) (log : list N) (m : gmap K PeerState) : Prop := remembered wms now log (m !! k0).

Lemma inv_later wms now now' log m : (now ≤ now')%N → inv wms now log m → inv wms now' log m.
Proof.
  intros Hle. unfold inv, remembered, stale. destruct (m !! k0) as [p|].
  - intros (a & HR & Hh & Hl). exists a. split_and!; auto. intros q Hq. destruct (Hl q Hq); [by left|right; lia].
  - intros Hi q Hq. specialize (Hi q Hq). lia.
Qed.

Lemma expired_remembered wms now log p :
  remembered wms now log (Some p) → live_at now wms p = false → remembered wms now log None.
Proof.
  intros (a & HR & Hh & Hl) Hd q Hq. unfold live_at, age_relative_to, saturating_sub in Hd.
  bool_to_prop. rewrite (ref_stamp _ _ HR), Hh in Hd. destruct (Hl q Hq) as [Hs|]; [|done].
  unfold stale. pose proof (Hf q (s_max a) (ref_seen_le _ _ HR _ Hs)). lia.
Qed.

Lemma inv_retain wms now log m :
  inv wms now log m → inv wms now log (filter (λ kv, live_at now wms kv.2 = true) m).
Proof.
  unfold inv. destruct (m !! k0) as [p|] eqn:Hk.
  - destruct (live_at now wms p) eqn:Hd.
    + by rewrite (map_lookup_filter_Some_2 _ m k0 p).
    + rewrite (map_lookup_filter_None_2 _ m k0); [intros; by eapply expired_remembered|].
      right. intros x Hx. cbn. congruence.
  - rewrite (map_lookup_filter_None_2 _ m k0); [done|by left].
Qed.

(** Another sender's datagram can only make [k0]'s expired state go. *)
Lemma other_inv now log m k q t window max : k ≠ k0 → let wms := as_millis_u64 window in
  inv wms now log m → inv wms now log (check_and_record_sender m k q t now window max).1.
Proof.
  intros Hne wms Hi. assert (Hins : ∀ m' p, inv wms now log m' → inv wms now log (<[k := p]> m')) by (intros; unfold inv; by rewrite lookup_insert_ne).
  assert (Hadm : ∀ m', inv wms now log m' → inv wms now log (admit_sender m' k q t now wms max).1).
  { intros m' Hm'. unfold admit_sender. repeat case_test; cbn; auto using inv_retain. }
  unfold check_and_record_sender. case_test; [done|]. fold wms. destruct (m !! k) as [p|]; [case_test|by apply Hadm].
  - destruct (accept p q t). by apply Hins.
  - apply Hadm. unfold inv. by rewrite lookup_delete_ne.
Qed.

Definition after_step (wms now : N) log q (res : gmap K PeerState * bool) : Prop :=
  if res.2 then q ∉ log ∧ inv wms now (q :: log) res.1 else inv wms now log res.1.

Lemma admit_sender_inv wms now log m q max : inv wms now log m → m !! k0 = None → ¬ stale wms now (f q) →
  after_step wms now log q (admit_sender m k0 q (f q) now wms max).
Proof.
  intros Hi Hk Hs. pose proof Hi as Hrem. unfold inv in Hrem. rewrite Hk in Hrem. assert (q ∉ log) by (intros Hq; apply Hs; by apply Hrem).
  assert (Hnew : ∀ m', inv wms now (q :: log) (<[k0 := new q (f q)]> m')).
  { intros m'. unfold inv. rewrite lookup_insert_eq. exists (spec_new q (f q)). split_and!; [apply refines_new|done|].
    intros x [->|Hx]%elem_of_cons; [left; cbn; set_solver|right; by apply Hrem]. }
  unfold admit_sender. repeat case_test; cbn; [by apply inv_retain|by split..].
Qed.

Lemma accept_inv wms now log m p q : inv wms now log m → m !! k0 = Some p → ¬ stale wms now (f q) →
  after_step wms now log q (let '(p', r) := accept p q (f q) in (<[k0 := p']> m, r)).
Proof.
  unfold inv at 1. intros Hi Hk Hs. rewrite Hk in Hi. destruct Hi as (a & HR & Hh & Hl).
  destruct (refines_accept p a q (f q) HR) as [Er HR'].
  destruct (spec_accept_honest f a q Hf Hh) as (Hh' & _ & Eseen & _).
  pose proof (spec_accept_seen f a q Hf Hh) as Hrej.
  destruct (accept p q (f q)) as [p' r], (spec_accept a q (f q)) as [a' r']; cbn in *; subst r'.
  assert (Hk' : ∀ log', (∀ x, x ∈ log' → x ∈ s_seen a' ∨ stale wms now (f x)) → inv wms now log' (<[k0:=p']> m)).
  { intros log' Hlog. unfold inv. rewrite lookup_insert_eq. by exists a'. }
  unfold after_step; cbn. destruct r; [|apply Hk'; by rewrite Eseen]. split.
  - intros Hq. destruct (Hl q Hq) as [Hq'|]; [|done]. by discriminate (Hrej Hq' (ref_seen_le _ _ HR _ Hq')).
  - apply Hk'. rewrite Eseen. intros x [->|Hx]%elem_of_cons; [left; by apply elem_of_union_l, elem_of_singleton|].
    destruct (Hl x Hx); [left; by apply elem_of_union_r|by right].
Qed.

Lemma step_inv now log m q window max : let wms := as_millis_u64 window in
  inv wms now log m → after_step wms now log q (check_and_record_sender m k0 q (f q) now window max).
Proof.
  intros wms Hi. unfold check_and_record_sender. case_test; [done|].
  assert (¬ stale wms now (f q)).
  { unfold is_fresh, age_relative_to, saturating_sub in E. fold wms in E.
    bool_to_prop. unfold stale. lia. }
  fold wms. destruct (m !! k0) as [p|] eqn:Hk; [case_test|].
  - by apply accept_inv.
  - apply admit_sender_inv; [|apply lookup_delete_eq|done]. unfold inv in *. rewrite lookup_delete_eq. rewrite Hk in Hi. by eapply expired_remembered.
  - by apply admit_sender_inv.
Qed.

Lemma accepted_NoDup_from fl log now l :
  enabled fl = true → inv (as_millis_u64 (freshness_window fl)) now log (peers fl) →
  Sorted N.le (now :: (d_now <$> l)) →
  Forall (λ d, d_from d = k0 → d_stamp d = f (d_seq d)) l →
  NoDup (numbers_from k0 (accepted fl l)) ∧ ∀ q, q ∈ numbers_from k0 (accepted fl l) → q ∉ log.
Proof.
  revert fl log now. induction l as [|d l IH]; intros fl log now He Hi Hs Hd; cbn [accepted].
  { split; [constructor|set_solver]. }
  apply Forall_cons in Hd as [Hd0 Hd]. cbn in Hs. apply Sorted_inv in Hs as [Hs Hr].
  assert (now ≤ d_now d)%N as Hnow by (by inversion Hr). clear Hr.
  pose proof (inv_later _ _ _ _ _ Hnow Hi) as Hi1. unfold check_and_record. rewrite He. cbn [negb]. unfold check_and_record_at.
  destruct (decide (d_from d = k0)) as [Hk|Hk].
  - pose proof (step_inv (d_now d) log (peers fl) (d_seq d) (freshness_window fl) (max_senders fl) Hi1) as Hstep.
    rewrite <- (Hd0 Hk), <- Hk in Hstep. unfold after_step in Hstep.
    destruct (check_and_record_sender _ _ _ _ _ _ _) as [m r]; cbn in Hstep. set (fl' := {| peers := m |}). destruct r.
    + destruct Hstep as [Hnew Hi']. destruct (IH fl' (d_seq d :: log) (d_now d)) as [HN Hlog]; auto.
      unfold numbers_from. cbn [omap list_omap fst snd]. rewrite decide_True by done. fold (numbers_from k0 (accepted fl' l)). split; [constructor; [|done]|].
      * intros Hin. by destruct (Hlog _ Hin); left.
      * intros x [->|Hx]%elem_of_cons; [done|]. intros ?. by destruct (Hlog _ Hx); right.
    + apply (IH fl' log (d_now d)); auto.
  - pose proof (other_inv (d_now d) log (peers fl) (d_from d) (d_seq d) (d_stamp d) (freshness_window fl) (max_senders fl) Hk Hi1) as Hi'.
    destruct (check_and_record_sender _ _ _ _ _ _ _) as [m r]; cbn in Hi'. set (fl' := {| peers := m |}).
    destruct (IH fl' log (d_now d)) as [HN Hlog]; auto. destruct r; [|done].
    unfold numbers_from. cbn [omap list_omap fst snd]. rewrite decide_False by done. done.
Qed.
End filter.
Arguments Filter K {_ _} : assert.
Arguments Delivery K : clear implicits.
End ReplayFilter.

(** ** The sender's counter *)
Module SenderCounter.

Record Counter := { seq : N; stamp_floor : N }.

Definition counter_new : Counter := {| seq := Seq_FIRST; stamp_floor := 0 |}.

(** [fetch_add(1)] returns the old value and wraps. *)
Definition next_seq (c : Counter) : Counter * N :=
  ({| seq := wrapping_add64 (seq c) 1; stamp_floor := stamp_floor c |}, seq c).

(** [fetch_max(now_ms)] returns the old value. *)
Definition next_stamp_at (c : Counter) (now_ms : N) : Counter * N :=
  let prev := stamp_floor c in
  ({| seq := seq c; stamp_floor := N.max prev now_ms |}, N.max prev now_ms).

(** One header by a caller no other runs beside: [next_seq] then [next_stamp]. *)
Definition mint (c : Counter) (now_ms : N) : Counter * (N * N) :=
  let '(c, q) := next_seq c in
  let '(c, t) := next_stamp_at c now_ms in (c, (q, t)).

Fixpoint mints (c : Counter) (clock : list N) : list (N * N) :=
  match clock with
  | [] => []
  | now :: clock => let '(c, h) := mint c now in h :: mints c clock
  end.

(** Callers that share the counter: each draws its number and its stamp in two atomic operations
    of two variables, others running in between. The state is the counter, the numbers that wait for
    their stamp, and the headers minted. *)
Inductive mint_step : Counter * list N * list (N * N) → Counter * list N * list (N * N) → Prop :=
| ms_seq c waiting headers c' q : next_seq c = (c', q) → mint_step (c, waiting, headers) (c', waiting ++ [q], headers)
| ms_stamp c waiting q waiting' headers now_ms c' t : next_stamp_at c now_ms = (c', t) →
    mint_step (c, waiting ++ q :: waiting', headers) (c', waiting ++ waiting', headers ++ [(q, t)]).

(** A later number has no earlier stamp. *)
Definition in_order (headers : list (N * N)) : Prop := ∀ h h', h ∈ headers → h' ∈ headers → (h.1 ≤ h'.1)%N → (h.2 ≤ h'.2)%N.

(** The stamp a process with these clock readings puts on sequence number [q]: the running
    maximum of the clock, however it jumps back. *)
Definition stamp_of (clock : list N) (q : N) : N := foldr N.max 0%N (take (N.to_nat q) clock).

Lemma foldr_max_take clock n m :
  n ≤ m → (foldr N.max 0 (take n clock) ≤ foldr N.max 0 (take m clock))%N.
Proof.
  revert n m; induction clock as [|x clock IH]; intros [|n] [|m] Hle; cbn; try lia.
  specialize (IH n m ltac:(lia)). lia.
Qed.

Lemma stamp_of_mono clock x y : (x ≤ y)%N → (stamp_of clock x ≤ stamp_of clock y)%N.
Proof. intros. apply foldr_max_take. lia. Qed.

Lemma mints_spec c clock h :
  (seq c + len clock < u64_modulus)%N → h ∈ mints c clock →
  (seq c ≤ h.1)%N ∧ h.2 = N.max (stamp_floor c) (stamp_of clock (h.1 - seq c + 1)).
Proof.
  revert c; induction clock as [|now clock IH]; intros c Hb; cbn [mints length] in *; [by intros ?%not_elem_of_nil|].
  unfold mint, next_seq, next_stamp_at. cbn [seq stamp_floor].
  intros [->|Hh]%elem_of_cons.
  - cbn [fst snd]. rewrite N.sub_diag. unfold stamp_of. change (N.to_nat (0 + 1)) with 1.
    cbn [firstn foldr]. rewrite N.max_0_r. split; lia.
  - rewrite Nat2N.inj_succ in Hb. apply IH in Hh as [H1 H2];
      unfold wrapping_add64 in *; rewrite N.mod_small in * by lia; cbn in *; [|lia].
    split; [lia|]. rewrite H2. unfold stamp_of.
    replace (N.to_nat (h.1 - seq c + 1)) with (S (N.to_nat (h.1 - (seq c + 1) + 1))) by lia.
    cbn. lia.
Qed.

(** A process that mints fewer than [2^64 - 1] headers stamps by a monotone function. *)
Lemma mints_stamp_of clock h :
  (len clock < u64_max)%N → h ∈ mints counter_new clock → h.2 = stamp_of clock h.1.
Proof.
  intros Hc Hh. apply mints_spec in Hh as [H1 ->]; [|cbn; unfold Seq_FIRST, u64_max, u64_modulus in *; lia].
  cbn in *. unfold Seq_FIRST in *. rewrite N.max_0_l. f_equal. lia.
Qed.

(** Exclusive callers mint in order, and are an interleaving like any other. *)
Lemma mints_in_order clock : (len clock < u64_max)%N → in_order (mints counter_new clock).
Proof.
  intros Hc h h' Hh Hh' Hle. rewrite (mints_stamp_of clock h Hc Hh), (mints_stamp_of clock h' Hc Hh'). by apply stamp_of_mono.
Qed.

Lemma mints_steps c clock headers : ∃ c', rtc mint_step (c, [], headers) (c', [], headers ++ mints c clock).
Proof.
  revert c headers. induction clock as [|now clock IH]; intros c headers; cbn [mints]; [exists c; rewrite app_nil_r; apply rtc_refl|].
  unfold mint. destruct (next_seq c) as [c1 q] eqn:H1. destruct (next_stamp_at c1 now) as [c2 t] eqn:H2.
  destruct (IH c2 (headers ++ [(q, t)])) as [c' Hr]. exists c'. eapply rtc_l; [by apply ms_seq|].
  eapply rtc_l; [by apply (ms_stamp c1 [] q [] headers now)|]. by rewrite <- (assoc_L (++)) in Hr.
Qed.

(** The least monotone function above the headers. *)
Definition ceiling (headers : list (N * N)) (q : N) : N := foldr (λ h m, if (h.1 <=? q)%N then N.max h.2 m else m) 0%N headers.

Lemma ceiling_mono headers x y : (x ≤ y)%N → (ceiling headers x ≤ ceiling headers y)%N.
Proof.
  intros Hle. induction headers as [|h l IH]; [done|]. cbn [ceiling foldr]. fold (ceiling l x) (ceiling l y).
  destruct (N.leb_spec h.1 x), (N.leb_spec h.1 y); lia.
Qed.

Lemma ceiling_in_order headers h : in_order headers → h ∈ headers → h.2 = ceiling headers h.1.
Proof.
  intros Ho Hh. apply N.le_antisymm.
  - clear Ho. induction headers as [|h' l IH]; [by apply not_elem_of_nil in Hh|]. cbn [ceiling foldr]. fold (ceiling l h.1).
    apply elem_of_cons in Hh as [<-|Hh]; [rewrite N.leb_refl; lia|]. specialize (IH Hh). destruct (h'.1 <=? h.1)%N; lia.
  - assert (Hall : ∀ l, (∀ h', h' ∈ l → (h'.1 ≤ h.1)%N → (h'.2 ≤ h.2)%N) → (ceiling l h.1 ≤ h.2)%N); [|apply Hall; intros h' Hh'; by apply Ho].
    induction l as [|h' l IH]; intros Hl; [cbn; lia|]. cbn [ceiling foldr]. fold (ceiling l h.1). specialize (IH (λ x Hx, Hl x (list_elem_of_further _ _ _ Hx))).
    destruct (N.leb_spec h'.1 h.1); [|done]. pose proof (Hl h' (list_elem_of_here _ _) ltac:(done)). lia.
Qed.
End SenderCounter.

(** ** What replay protection promises *)
Section replay_properties.
Import PeerReplay ReplayFilter SenderCounter.

(** C8. No replay, end to end. An attacker delivers any of the headers that the senders minted, in
    any order, any number of times, at receiver times that do not go back. From a sender whose
    stamps are in the order of its sequence numbers the filter accepts no number twice, through
    expiry, capacity purges and re-admission, and whatever the other senders do. The stamps of a
    sender are in order when its callers take turns at the [SenderCounter], fewer than [2^64 - 1] times and
    whatever its clock reads; callers that overlap can break the order. *)
Theorem replay_filter_accepts_once {K} `{Countable K} (headers : K → list (N * N)) window max (l : list (Delivery K)) k :
  Forall (λ d, (d_seq d, d_stamp d) ∈ headers (d_from d)) l → Sorted N.le (d_now <$> l) →
  in_order (headers k) ∨ (∃ clock, headers k = mints counter_new clock ∧ (len clock < u64_max)%N) →
  NoDup (numbers_from k (accepted (with_max_senders (filter_new window true) max) l)).
Proof.
  intros Hl Hs Hk. assert (Ho : in_order (headers k)) by (destruct Hk as [?|(clock & -> & ?)]; [done|by apply mints_in_order]).
  apply (accepted_NoDup_from k (ceiling (headers k)) (ceiling_mono (headers k)) _ [] 0); [done| | |].
  - unfold inv. cbn. rewrite lookup_empty. by intros ? ?%not_elem_of_nil.
  - constructor; [done|]. destruct l; constructor. cbn. lia.
  - eapply Forall_impl; [done|]. intros d Hd <-. by apply (ceiling_in_order _ (d_seq d, d_stamp d)) in Hd.
Qed.

Lemma replay_filter_accepts_once_witness :
  let clock (k : bool) := if k then [100; 200; 90]%N else [7]%N in
  let d q t now : Delivery bool := {| d_from := true; d_seq := q; d_stamp := t; d_now := now |} in
  let l := [d 3 200 300; d 1 100 300; d 3 200 301; d 2 200 302; d 1 100 303]%N in
  accepted (with_max_senders (filter_new 1000000000 true) 4) l = [(true, 3); (true, 1); (true, 2)]%N ∧
  NoDup (numbers_from true (accepted (with_max_senders (filter_new 1000000000 true) 4) l)).
Proof.
  intros clock d l. split; [vm_compute; reflexivity|].
  apply (replay_filter_accepts_once (λ k, mints counter_new (clock k)) 1000000000 4 l true).
  - repeat (apply Forall_cons; split; [apply (bool_decide_unpack _); vm_compute; exact I|]).
    apply Forall_nil_2.
  - repeat constructor; vm_compute; discriminate.
  - right. exists [100; 200; 90]%N. split; [reflexivity|]. vm_compute. reflexivity.
Defined.

(** Two callers overlap: number 2 gets its stamp after number 3, and a later one. The receiver takes
    it for a restart of the sender and forgets number 1, which it then accepts again. *)
Lemma overlapping_callers_reopen_window :
  (∃ c, rtc mint_step (counter_new, [], []) (c, [], [(1, 100); (3, 100); (2, 101)]%N)) ∧
  let d q t : Delivery unit := {| d_from := tt; d_seq := q; d_stamp := t; d_now := 101%N |} in
  accepted (filter_new 1000000000 true) [d 1 100; d 3 100; d 2 101; d 1 100]%N = [(tt, 1); (tt, 3); (tt, 2); (tt, 1)]%N.
Proof.
  split; [|vm_compute; reflexivity]. eexists.
  eapply rtc_l; [by apply ms_seq|]. eapply rtc_l; [by eapply (ms_stamp _ [] 1 [] [] 100)|].
  eapply rtc_l; [by apply ms_seq|]. eapply rtc_l; [by apply ms_seq|].
  eapply rtc_l; [by eapply (ms_stamp _ [2%N] 3 [] [(1, 100)%N] 100)|].
  eapply rtc_l; [by eapply (ms_stamp _ [] 2 [] [(1, 100); (3, 100)]%N 101)|]. apply rtc_refl.
Qed.

(** C39. Functional refinement: on every trace the bit-shifting window answers exactly as the
    specification that keeps the set of accepted numbers since the last restart. *)
Theorem peer_state_refines_set_spec seq stamp l :
  (run accept (new seq stamp) l).2 = (run spec_accept (spec_new seq stamp) l).2.
Proof. apply refines_run, refines_new. Qed.

(** Reordering is tolerated: after any trace of an honest sender's datagrams, one that was not
    yet accepted and lies less than [WINDOW_SIZE] behind the highest accepted number is accepted. *)
Theorem reordered_datagram_accepted (f : N → N) q0 qs q :
  (∀ x y, (x ≤ y)%N → (f x ≤ f y)%N) →
  let dg x := (x, f x) in
  let p := (run accept (new q0 (f q0)) (dg <$> qs)).1 in
  q ∉ q0 :: qs → (max_seq p < q + SlidingBitmap.WINDOW_SIZE)%N →
  (accept p q (f q)).2 = true.
Proof.
  intros Hf dg p Hq Hw.
  destruct (refines_run _ _ (dg <$> qs) (refines_new q0 (f q0))) as [_ HR]. fold p in HR.
  rewrite (proj1 (refines_accept _ _ q (f q) HR)). rewrite (ref_max _ _ HR) in Hw.
  assert (Hgen : ∀ a, honest f a → q ∉ s_seen a → q ∉ qs →
    honest f (run spec_accept a (dg <$> qs)).1 ∧ q ∉ s_seen (run spec_accept a (dg <$> qs)).1).
  { clear -Hf. induction qs as [|x qs IH]; intros a Ha Hs Hn; [done|]. cbn.
    destruct (spec_accept_honest f a x Hf Ha) as (Ha' & _ & Es & _).
    destruct (spec_accept a x (f x)) as [a' r]; cbn in *.
    specialize (IH a' Ha'). destruct (run spec_accept a' (dg <$> qs)); cbn in *.
    apply IH; destruct r; rewrite ?Es; set_solver. }
  destruct (Hgen (spec_new q0 (f q0))) as [Hh Hs]; [done|set_solver..|].
  apply spec_accept_fresh; auto.
Qed.

Lemma reordered_datagram_accepted_witness :
  (accept (run accept (new 5 5) [(900, 900); (1028, 1028)]%N).1 6 6).2 = true.
Proof.
  apply (reordered_datagram_accepted (λ x, x) 5 [900; 1028]%N 6).
  - intros; assumption.
  - apply (bool_decide_unpack _). vm_compute. exact I.
  - vm_compute. reflexivity.
Defined.

(** Capacity without eviction: a datagram never grows the sender map past [max_senders], and
    leaves every other sender whose state is still fresh exactly as it was. *)
Theorem filter_bounded_and_fresh_kept {K} `{Countable K} (fl : Filter K) k q t now k' p :
  (filter_len fl ≤ max_senders fl)%N →
  k' ≠ k → peers fl !! k' = Some p → live_at now (as_millis_u64 (freshness_window fl)) p = true →
  let fl' := (check_and_record fl k q t now).1 in
  (filter_len fl' ≤ max_senders fl')%N ∧ peers fl' !! k' = Some p.
Proof.
  intros Hsz Hne Hk' Hlive. unfold check_and_record. case_test; [by split|].
  unfold check_and_record_at, filter_len in *.
  pose proof (check_and_record_sender_size (peers fl) k q t now (freshness_window fl)
    (max_senders fl) Hsz) as Hsz'.
  destruct (check_and_record_sender _ _ _ _ _ _ _) as [m r] eqn:Em; cbn in *. split; [done|].
  assert (Hadmit : ∀ m0 m1 r1, m0 !! k' = Some p → admit_sender m0 k q t now
    (as_millis_u64 (freshness_window fl)) (max_senders fl) = (m1, r1) → m1 !! k' = Some p).
  { intros m0 m1 r1 Hm0. unfold admit_sender. repeat case_test; intros [= <- <-];
      rewrite ?lookup_insert_ne by done; try apply map_lookup_filter_Some_2; done. }
  revert Em. unfold check_and_record_sender. case_test; [by intros [= <- <-]|].
  destruct (peers fl !! k) as [p0|] eqn:Hk; [case_test|].
  - destruct (accept p0 q t). intros [= <- <-]. by rewrite lookup_insert_ne.
  - apply Hadmit. by rewrite lookup_delete_ne.
  - by apply Hadmit.
Qed.

Lemma filter_bounded_and_fresh_kept_witness :
  let fl : Filter bool := (check_and_record (with_max_senders (filter_new 1000000000 true) 1) true 1 100 100).1 in
  let fl' := (check_and_record fl false 1 200 200).1 in
  (filter_len fl' ≤ max_senders fl')%N ∧ peers fl' !! true = Some (new 1 100).
Proof.
  intros fl. apply (filter_bounded_and_fresh_kept fl false 1 200 200 true (new 1 100)).
  - vm_compute. discriminate.
  - discriminate.
  - vm_compute. reflexivity.
  - vm_compute. reflexivity.
Defined.

(** The restart rule reopens the window: once a restarted sender's newer stamp resets the
    state at [q0], every older datagram up to [WINDOW_SIZE] behind [q0] is accepted again, whatever
    the state had recorded before. *)
Theorem restart_reopens_window p q t q0 t0 :
  (q0 ≤ max_seq p)%N → (stamp_at_max p < t0)%N →
  (q < q0)%N → (q0 - q < SlidingBitmap.WINDOW_SIZE)%N → (t ≤ t0)%N →
  (accept p q0 t0).2 = true ∧ (accept (accept p q0 t0).1 q t).2 = true.
Proof.
  intros H1 H2 H3 H4 H5.
  assert (E : accept p q0 t0 = (reset p q0 t0, true)).
  { unfold accept. rewrite (proj2 (N.ltb_ge _ _)) by done. by rewrite (proj2 (N.ltb_lt _ _)). }
  rewrite E. split; [done|]. cbn [fst]. unfold accept. cbn [reset max_seq stamp_at_max bitmap].
  rewrite (proj2 (N.ltb_ge q0 q)) by lia. rewrite (proj2 (N.ltb_ge t0 t)) by lia.
  rewrite (proj2 (N.leb_gt _ _)) by lia.
  rewrite SlidingBitmap.is_marked_new by lia. by rewrite (proj2 (N.eqb_neq _ _)) by lia.
Qed.

Lemma restart_reopens_window_witness :
  let p := (run accept (new 1 100) [(2, 100); (3, 100); (4, 100)]%N).1 in
  (accept p 2 100).2 = false ∧
  ((accept p 3 500).2 = true ∧ (accept (accept p 3 500).1 2 100).2 = true).
Proof.
  intros p. split; [vm_compute; reflexivity|].
  apply (restart_reopens_window p 2 100 3 500); vm_compute; congruence.
Defined.
End replay_properties.
