(* ===== verification/Framing.v ===== *)
(** * Outer frames ([gossip/src/framing.rs], [gossip/src/framing/recovery.rs])

    Complete and fragment frames, fragment metadata, and the selective-recovery control frames
    (missing-range reports and completion acknowledgements), each with its codec round trip. The
    [out] buffer a writer clears and fills is its result. *)
From stdpp Require Import gmap list.
From Stdlib Require Import NArith.
From Stdlib.Strings Require Import Byte.
From S2P Require Import Prelude Bytes.

Definition COMPLETE_TAG : byte := x00.
Definition FRAGMENT_TAG : byte := x01.
Definition MISSING_REPORT_TAG : byte := x02.
Definition COMPLETION_ACK_TAG : byte := x03.
Definition COMPLETE_HEADER_LEN : nat := 1.
Definition FRAGMENT_HEADER_LEN : nat := 41.
Definition MISSING_REPORT_HEADER_LEN : nat := 35.
Definition MISSING_RANGE_LEN : nat := 8.
Definition COMPLETION_ACK_LEN : nat := 33.

(** [[u8; 32]] *)
Notation id32 := (list byte).

Record ReassemblyLimits := {
  max_logical_message_size : N;
  max_fragments_per_message : N;
  max_incomplete_transfers_per_peer : N;
  max_reassembly_bytes_per_peer : N;
  max_total_reassembly_bytes : N;
  reassembly_ttl : N;
}.

Inductive ReceiveOutcome :=
| Complete (payload : list byte)
| Pending
| Duplicate.

Inductive FrameError :=
| Empty
| UnknownTag (tag : byte)
| TruncatedFragmentHeader
| EmptyFragment
| InvalidFragmentBounds
| LogicalMessageTooLarge
| TooManyFragments
| InconsistentMetadata
| OverlappingFragment
| HashMismatch
| ReassemblyCapacity.

#[export] Instance FrameError_eq_dec : EqDecision FrameError.
Proof. solve_decision. Defined.
#[export] Instance ReceiveOutcome_eq_dec : EqDecision ReceiveOutcome.
Proof. solve_decision. Defined.

Definition is_limit (e : FrameError) : bool :=
  match e with
  | LogicalMessageTooLarge | TooManyFragments | ReassemblyCapacity => true
  | _ => false
  end.

Record ReceiveReport := {
  outcome : result ReceiveOutcome FrameError;
  expired_transfers : N;
  evicted_transfers : N;
  rr_retained_bytes : N;
  fragment_received : bool;
}.

Definition complete_payload_capacity (datagram_payload_budget auth_overhead : N) : option N :=
  checked_sub datagram_payload_budget (auth_overhead + N.of_nat COMPLETE_HEADER_LEN).

Definition fragment_payload_capacity (datagram_payload_budget auth_overhead : N) : option N :=
  checked_sub datagram_payload_budget (auth_overhead + N.of_nat FRAGMENT_HEADER_LEN).

Definition write_complete (payload : list byte) : list byte := COMPLETE_TAG :: payload.

Definition write_fragment (id : id32) (total_len offset : N) (payload : list byte)
    : result (list byte) FrameError :=
  let? total_len := ok_or (u32_try_from total_len) LogicalMessageTooLarge in
  let? offset := ok_or (u32_try_from offset) InvalidFragmentBounds in
  Ok (FRAGMENT_TAG :: id ++ to_le 4 total_len ++ to_le 4 offset ++ payload).

(** The fixed fragment header, at the offsets [accept] and [fragment_metadata] read. *)
Definition frame_id (bytes : list byte) : id32 := slice 1 33 bytes.
Definition frame_total_len (bytes : list byte) : N := from_le (slice 33 37 bytes).
Definition frame_offset (bytes : list byte) : N := from_le (slice 37 41 bytes).

Record FragmentMetadata := {
  fm_transfer_id : id32;
  fm_total_len : N;
  fm_offset : N;
  fm_payload_len : N;
}.

Definition is_terminal (m : FragmentMetadata) : bool :=
  match checked_add (fm_offset m) (fm_payload_len m) with
  | Some e => (e =? fm_total_len m)%N
  | None => false
  end.

Definition fragment_metadata (bytes : list byte) : option FragmentMetadata :=
  if bool_decide (head bytes ≠ Some FRAGMENT_TAG) || (length bytes <=? FRAGMENT_HEADER_LEN) then None
  else Some {|
    fm_transfer_id := frame_id bytes;
    fm_total_len := frame_total_len bytes;
    fm_offset := frame_offset bytes;
    fm_payload_len := (len bytes - N.of_nat FRAGMENT_HEADER_LEN)%N;
  |}.

(** ** Selective-recovery control frames *)

Inductive RecoveryControl :=
| Missing (transfer_id : id32) (ranges : list (N * N))
| CompleteAck (transfer_id : id32).

Inductive RecoveryControlError := Truncated | InvalidLength | TooManyRanges | InvalidRange.

#[export] Instance RecoveryControl_eq_dec : EqDecision RecoveryControl.
Proof. solve_decision. Defined.
#[export] Instance RecoveryControlError_eq_dec : EqDecision RecoveryControlError.
Proof. solve_decision. Defined.

Definition max_missing_ranges_for_budget (datagram_payload_budget auth_overhead configured_max : N) : N :=
  N.min (N.min
    (match checked_sub datagram_payload_budget (auth_overhead + N.of_nat MISSING_REPORT_HEADER_LEN) with
     | Some bytes => (bytes / N.of_nat MISSING_RANGE_LEN)%N
     | None => 0%N
     end) configured_max) u16_max.

(** The loop of [validate_ranges], from [previous_end]; offsets and ends are [u32]. *)
Fixpoint validate_ranges_from (previous_end : N) (ranges : list (N * N))
    : result unit RecoveryControlError :=
  match ranges with
  | [] => Ok tt
  | (offset, l) :: ranges =>
      if (l =? 0)%N then Err InvalidRange
      else
        let? e := ok_or (u32_try_from (offset + l)) InvalidRange in
        if (offset <? previous_end)%N then Err InvalidRange
        else validate_ranges_from e ranges
  end.
Definition validate_ranges : list (N * N) → result unit RecoveryControlError :=
  validate_ranges_from 0.

Definition encode_range (r : N * N) : list byte := to_le 4 r.1 ++ to_le 4 r.2.

Definition write_missing_report (transfer_id : id32) (ranges : list (N * N))
    : result (list byte) RecoveryControlError :=
  let? count := ok_or (u16_try_from (len ranges)) TooManyRanges in
  let? _ := validate_ranges ranges in
  Ok (MISSING_REPORT_TAG :: transfer_id ++ to_le 2 count ++ concat (encode_range <$> ranges)).

Definition write_completion_ack (transfer_id : id32) : list byte :=
  COMPLETION_ACK_TAG :: transfer_id.

(** [bytes.chunks_exact(8)] decoded as [(u32, u32)]; a short remainder is dropped. *)
Fixpoint decode_ranges (n : nat) (bytes : list byte) : list (N * N) :=
  match n with
  | O => []
  | S n =>
      if length bytes <? MISSING_RANGE_LEN then []
      else (from_le (slice 0 4 bytes), from_le (slice 4 8 bytes))
             :: decode_ranges n (drop MISSING_RANGE_LEN bytes)
  end.

Definition parse_recovery_control (bytes : list byte) (max_missing_ranges : N)
    : result (option RecoveryControl) RecoveryControlError :=
  match head bytes with
  | None => Ok None
  | Some tag =>
      if bool_decide (tag = MISSING_REPORT_TAG) then
        if length bytes <? MISSING_REPORT_HEADER_LEN then Err Truncated
        else
          let transfer_id := slice 1 33 bytes in
          let count := from_le (slice 33 35 bytes) in
          if (max_missing_ranges <? count)%N then Err TooManyRanges
          else
            let? expected := ok_or (checked_add (N.of_nat MISSING_REPORT_HEADER_LEN)
              (saturating_mul count (N.of_nat MISSING_RANGE_LEN))) InvalidLength in
            if negb (len bytes =? expected)%N then Err InvalidLength
            else
              let ranges := decode_ranges (length bytes) (drop MISSING_REPORT_HEADER_LEN bytes) in
              let? _ := validate_ranges ranges in
              Ok (Some (Missing transfer_id ranges))
      else if bool_decide (tag = COMPLETION_ACK_TAG) then
        if length bytes <? COMPLETION_ACK_LEN then Err Truncated
        else if negb (length bytes =? COMPLETION_ACK_LEN) then Err InvalidLength
        else Ok (Some (CompleteAck (drop 1 bytes)))
      else Ok None
  end.

(** ** Codec lemmas *)

Lemma length_write_fragment id total off payload w :
  length id = 32 → write_fragment id total off payload = Ok w →
  length w = FRAGMENT_HEADER_LEN + length payload.
Proof.
  unfold write_fragment, ok_or, u32_try_from. intros Hid. repeat case_test; try done.
  intros [= <-]. cbn [length]. rewrite !length_app, !length_to_le, Hid. unfold FRAGMENT_HEADER_LEN. lia.
Qed.

Lemma slice_cons {A} i j (x : A) l : slice (S i) (S j) (x :: l) = slice i j l.
Proof. unfold slice. cbn. done. Qed.

(** What a receiver reads back from a written fragment. *)
Record parsed_as (w id : list byte) (total off : N) (payload : list byte) : Prop := {
  pa_tag : head w = Some FRAGMENT_TAG;
  pa_len : length w = FRAGMENT_HEADER_LEN + length payload;
  pa_id : frame_id w = id;
  pa_total : frame_total_len w = total;
  pa_offset : frame_offset w = off;
  pa_payload : drop FRAGMENT_HEADER_LEN w = payload;
}.

Lemma write_fragment_parsed id total off payload w :
  length id = 32 → write_fragment id total off payload = Ok w → parsed_as w id total off payload.
Proof.
  intros Hid Hw. pose proof (length_write_fragment _ _ _ _ _ Hid Hw) as Hlen.
  unfold write_fragment, ok_or, u32_try_from in Hw. repeat case_test_in Hw; try done.
  injection Hw as <-. split; try done.
  - unfold frame_id. rewrite slice_cons, slice_app_l by lia. by apply slice_all.
  - unfold frame_total_len. rewrite slice_cons, slice_app_r, Hid by lia. cbn [Nat.sub].
    rewrite slice_app_l, slice_all by (rewrite ?length_to_le; done). by apply from_to_le_u32.
  - unfold frame_offset. rewrite slice_cons, slice_app_r, Hid by lia. cbn [Nat.sub].
    rewrite slice_app_r by (rewrite length_to_le; lia). rewrite length_to_le. cbn [Nat.sub].
    rewrite slice_app_l, slice_all by (rewrite ?length_to_le; done). by apply from_to_le_u32.
  - unfold FRAGMENT_HEADER_LEN. cbn [drop].
    rewrite !app_assoc. rewrite drop_app_length'; [done|]. rewrite !length_app, !length_to_le. lia.
Qed.

Lemma length_encode_range r : length (encode_range r) = MISSING_RANGE_LEN.
Proof. unfold encode_range. by rewrite length_app, !length_to_le. Qed.

Lemma length_encode_ranges rs :
  length (concat (encode_range <$> rs)) = MISSING_RANGE_LEN * length rs.
Proof.
  induction rs as [|r rs IH]; cbn; [done|]. rewrite length_app, length_encode_range, IH.
  unfold MISSING_RANGE_LEN. lia.
Qed.

Lemma validate_ranges_u32 e rs :
  validate_ranges_from e rs = Ok tt → Forall (λ r, r.1 ≤ u32_max ∧ r.2 ≤ u32_max)%N rs.
Proof.
  revert e; induction rs as [|[o l] rs IH]; intros e; cbn; [constructor|].
  unfold ok_or, u32_try_from. repeat case_test; try done. intros H.
  constructor; [cbn; lia|by eapply IH].
Qed.

Lemma decode_encode_ranges rs n :
  Forall (λ r, r.1 ≤ u32_max ∧ r.2 ≤ u32_max)%N rs → length rs ≤ n →
  decode_ranges n (concat (encode_range <$> rs)) = rs.
Proof.
  intros Hrs. revert n. induction Hrs as [|[o l] rs [Ho Hl] _ IH]; intros n Hn.
  - by destruct n.
  - destruct n as [|n]; cbn [length] in Hn; [lia|]. rewrite fmap_cons. cbn [concat decode_ranges].
    rewrite length_app, length_encode_range. case_test;
      [apply Nat.ltb_lt in E; unfold MISSING_RANGE_LEN in E; lia|].
    rewrite drop_app_length' by (by rewrite length_encode_range). rewrite IH by lia.
    rewrite !slice_app_l by (rewrite length_encode_range; unfold MISSING_RANGE_LEN; lia).
    unfold encode_range; cbn [fst snd] in *.
    rewrite slice_app_l by (rewrite length_to_le; lia).
    rewrite (slice_app_r 4 8) by (rewrite length_to_le; lia). rewrite length_to_le. cbn [Nat.sub].
    rewrite !slice_all by apply length_to_le. by rewrite !from_to_le_u32.
Qed.

Lemma encode_decode_ranges n k bytes :
  length bytes = MISSING_RANGE_LEN * k → k ≤ n →
  length (decode_ranges n bytes) = k ∧ concat (encode_range <$> decode_ranges n bytes) = bytes.
Proof.
  revert k bytes; induction n as [|n IH]; intros k bytes Hl Hk;
    (destruct k as [|k]; [rewrite Nat.mul_0_r in Hl; apply nil_length_inv in Hl as ->; done|]); [lia|].
  cbn [decode_ranges]. rewrite Hl. unfold MISSING_RANGE_LEN in *.
  rewrite (proj2 (Nat.ltb_ge _ _)) by lia.
  destruct (IH k (drop 8 bytes)) as [H1 H2]; [rewrite length_drop; lia|lia|].
  split; [cbn [length]; lia|]. rewrite fmap_cons. cbn [concat]. rewrite H2.
  unfold encode_range; cbn [fst snd].
  rewrite !to_from_le_n by (rewrite length_slice by lia; done).
  unfold slice. rewrite drop_0. change (4 - 0) with 4; change (8 - 4) with 4.
  rewrite take_take_drop. apply take_drop.
Qed.

Lemma parse_write_missing id rs w max :
  length id = 32 → write_missing_report id rs = Ok w → (len rs ≤ max)%N →
  parse_recovery_control w max = Ok (Some (Missing id rs)).
Proof.
  intros Hid Hw Hmax. unfold write_missing_report, ok_or, u16_try_from in Hw.
  destruct (len rs <=? u16_max)%N eqn:Hc; [|done]. bool_to_prop.
  destruct (validate_ranges rs) as [[]|] eqn:Hv; [|done].
  assert (w = MISSING_REPORT_TAG :: id ++ to_le 2 (len rs) ++ concat (encode_range <$> rs)) as -> by congruence.
  clear Hw. unfold parse_recovery_control. cbn [head]. rewrite bool_decide_eq_true_2 by done.
  assert (Hlen : length (MISSING_REPORT_TAG :: id ++ to_le 2 (len rs) ++ concat (encode_range <$> rs))
    = 35 + 8 * length rs).
  { cbn [length]. rewrite !length_app, length_to_le, length_encode_ranges, Hid.
    unfold MISSING_RANGE_LEN. lia. }
  rewrite Hlen. unfold MISSING_REPORT_HEADER_LEN. rewrite (proj2 (Nat.ltb_ge _ _)) by lia.
  rewrite !slice_cons. rewrite (slice_app_l 0 32), (slice_all 32) by lia.
  rewrite slice_app_r, Hid by lia. cbn [Nat.sub].
  rewrite slice_app_l, slice_all by (rewrite ?length_to_le; done).
  rewrite from_to_le_u16 by done. rewrite (proj2 (N.ltb_ge _ _)) by done.
  unfold checked_add, saturating_mul, MISSING_RANGE_LEN, ok_or, usize_max, u64_max, u16_max in *.
  rewrite N.min_l by lia. rewrite (proj2 (N.leb_le _ _)) by lia.
  rewrite (proj2 (N.eqb_eq _ _)) by lia. cbn [negb skipn]. rewrite app_assoc.
  rewrite drop_app_length' by (rewrite length_app, length_to_le; lia).
  rewrite decode_encode_ranges; [|by eapply validate_ranges_u32|lia]. by rewrite Hv.
Qed.

Lemma parse_missing_inv w max id rs :
  parse_recovery_control w max = Ok (Some (Missing id rs)) →
  length id = 32 ∧ write_missing_report id rs = Ok w ∧ (len rs ≤ max)%N.
Proof.
  unfold parse_recovery_control. destruct w as [|tag w]; [done|]. cbn [head].
  case_bool_decide as Ht; [|repeat case_test; done]. subst tag.
  case_test; [done|]. apply Nat.ltb_ge in E. unfold MISSING_REPORT_HEADER_LEN in *. cbn [length] in E.
  rewrite !slice_cons. case_test; [done|].
  assert (Hcl : length (slice 32 34 w) = 2) by (rewrite length_slice; lia).
  assert (Hc : (from_le (slice 32 34 w) ≤ u16_max)%N) by (by apply from_le_u16_bound).
  set (c := from_le (slice 32 34 w)) in *.
  unfold checked_add, saturating_mul, MISSING_RANGE_LEN, usize_max, u64_max, u16_max, ok_or in *.
  rewrite N.min_l by lia. rewrite (proj2 (N.leb_le _ _)) by lia.
  case_test; [done|]. cbn [skipn]. cbn [length] in E1.
  destruct (encode_decode_ranges (length (MISSING_REPORT_TAG :: w)) (N.to_nat c) (drop 34 w)) as [H1 H2];
    [rewrite length_drop; unfold MISSING_RANGE_LEN; lia|cbn [length]; lia|].
  set (drs := decode_ranges (length (MISSING_REPORT_TAG :: w)) (drop 34 w)) in *.
  destruct (validate_ranges drs) as [[]|] eqn:Hv; [|done]. intros [= <- <-].
  split_and!; [rewrite length_slice; lia| |lia].
  unfold write_missing_report, u16_try_from, ok_or, u16_max.
  rewrite (proj2 (N.leb_le _ _)) by lia. rewrite Hv, H2. do 2 f_equal.
  rewrite H1, N2Nat.id. unfold c. rewrite to_from_le_n by done.
  unfold slice. rewrite drop_0. change (34 - 32) with 2; change (32 - 0) with 32.
  rewrite (app_assoc (take 32 w)), take_take_drop. apply take_drop.
Qed.

(** The control-frame codec is exact: a byte string parses as a missing-range
    report with at most [max] ranges exactly when it is the encoding of that report, for a 32-byte
    transfer id. *)
Theorem missing_report_codec w max id rs :
  parse_recovery_control w max = Ok (Some (Missing id rs)) ↔
  length id = 32 ∧ write_missing_report id rs = Ok w ∧ (len rs ≤ max)%N.
Proof.
  split; [apply parse_missing_inv|]. intros (Hid & Hw & Hm). by apply parse_write_missing.
Qed.
