(* ===== verification/Reassembly.v ===== *)
(** * Bounded reassembly of fragmented messages ([gossip/src/framing/reassembly.rs])

    The receiver keeps incomplete transfers per peer under byte, count and age limits, evicting
    the least recently active one when a limit is reached. Instants are nanoseconds. The peer
    identity [P] and the content hash are parameters, as the source is generic in [P] and calls
    [blake3]. [None] as the result of an operation is a panic (an [expect]) or an eviction loop
    out of fuel; [accept_total] shows neither happens. *)
From stdpp Require Import gmap list sorting.
From Stdlib Require Import NArith.
From Stdlib.Strings Require Import Byte.
From S2P Require Import Prelude Bytes Btree Framing.

Record Transfer := {
  t_total_len : N;
  t_fragments : list (N * list byte);
  t_retained_bytes : N;
  t_last_activity : N;
  t_last_missing_request : option N;
}.

Record RPeerState := {
  ps_transfers : gmap id32 Transfer;
  ps_retained_bytes : N;
}.

Definition RPeerState_default : RPeerState := {| ps_transfers := ∅; ps_retained_bytes := 0 |}.

(** [overlaps(fragments, start, end)] *)
Definition overlaps (fragments : list (N * list byte)) (start end_ : N) : bool :=
  match bt_last_below start fragments with
  | Some (offset, bytes) => (start <? saturating_add offset (len bytes))%N
  | None => false
  end
  || match bt_first_from start fragments with
     | Some (offset, _) => (offset <? end_)%N
     | None => false
     end.

Record FragmentInput := { fi_id : id32; fi_total_len : N; fi_offset : N; fi_bytes : list byte }.

Section reassembler.
Context {P : Type} `{Countable P, RustOrd P}.
Context (blake3_hash : list byte → id32).

Record Reassembler := {
  r_limits : ReassemblyLimits;
  r_peers : gmap P RPeerState;
  r_total_retained_bytes : N;
}.

Implicit Types (r : Reassembler) (peer : P) (id : id32) (now : N).

Definition for_identity (limits : ReassemblyLimits) : Reassembler :=
  {| r_limits := limits; r_peers := ∅; r_total_retained_bytes := 0 |}.

Definition retained_bytes r : N := r_total_retained_bytes r.

Definition remove_transfer r peer id : Reassembler :=
  match r_peers r !! peer with
  | None => r
  | Some state =>
      let '(state, total) :=
        match ps_transfers state !! id with
        | Some transfer =>
            ({| ps_transfers := delete id (ps_transfers state);
                ps_retained_bytes :=
                  saturating_sub (ps_retained_bytes state) (t_retained_bytes transfer) |},
             saturating_sub (r_total_retained_bytes r) (t_retained_bytes transfer))
        | None => (state, r_total_retained_bytes r)
        end in
      {| r_limits := r_limits r;
         r_peers := if bool_decide (ps_transfers state = ∅) then delete peer (r_peers r)
                    else <[peer := state]> (r_peers r);
         r_total_retained_bytes := total |}
  end.

(** Every incomplete transfer with its key, in the (unspecified) iteration order of the maps. *)
Definition all_transfers r : list (P * id32 * Transfer) :=
  flat_map (λ '(peer, state), (λ '(id, t), (peer, id, t)) <$> map_to_list (ps_transfers state))
    (map_to_list (r_peers r)).

Definition expire r now : Reassembler * N :=
  let ttl := reassembly_ttl (r_limits r) in
  let expired := filter (λ '(_, _, t), (ttl <=? saturating_sub now (t_last_activity t))%N = true)
                   (all_transfers r) in
  (fold_left (λ r '(peer, id, _), remove_transfer r peer id) expired r, len expired).

Definition oldest_for_peer r peer (exclude : option id32) : option id32 :=
  match r_peers r !! peer with
  | None => None
  | Some state =>
      snd <$> min_of (omap (λ '(id, t), if decide (Some id = exclude) then None
                                        else Some (t_last_activity t, id))
                        (map_to_list (ps_transfers state)))
  end.

Definition oldest_global r (exclude : option (P * id32)) : option (P * id32) :=
  (λ '(_, peer, id), (peer, id)) <$>
    min_of (omap (λ '(peer, id, t), if decide (Some (peer, id) = exclude) then None
                                    else Some (t_last_activity t, peer, id))
              (all_transfers r)).

Definition peer_transfers r peer : nat :=
  match r_peers r !! peer with Some state => size (ps_transfers state) | None => 0 end.
Definition peer_bytes r peer : N :=
  match r_peers r !! peer with Some state => ps_retained_bytes state | None => 0%N end.

(** Fuel for the eviction loops: each round removes one transfer. *)
Definition transfer_count r : N :=
  map_sum (λ _ state, N.of_nat (size (ps_transfers state))) (r_peers r).

Definition capacity_result (ok : bool) : result unit FrameError :=
  if ok then Ok tt else Err ReassemblyCapacity.

Definition make_transfer_slot r peer protected_id (incoming_bytes evicted : N)
    : option (Reassembler * N * result unit FrameError) :=
  if (max_reassembly_bytes_per_peer (r_limits r) <? incoming_bytes)%N
     || (max_total_reassembly_bytes (r_limits r) <? incoming_bytes)%N
  then Some (r, evicted, Err ReassemblyCapacity)
  else
    '(r, evicted, ok) ← evict_loop
      (λ r, (max_incomplete_transfers_per_peer (r_limits r) <=? N.of_nat (peer_transfers r peer))%N)
      (λ r, oldest_for_peer r peer (Some protected_id))
      (λ r id, remove_transfer r peer id) (peer_transfers r peer) r evicted;
    Some (r, evicted, capacity_result ok).

Definition make_byte_room r peer protected_id (incoming_bytes evicted : N)
    : option (Reassembler * N * result unit FrameError) :=
  '(r, evicted, ok) ← evict_loop
    (λ r, (max_reassembly_bytes_per_peer (r_limits r)
             <? saturating_add (peer_bytes r peer) incoming_bytes)%N)
    (λ r, oldest_for_peer r peer (Some protected_id))
    (λ r id, remove_transfer r peer id) (peer_transfers r peer) r evicted;
  if negb ok then Some (r, evicted, Err ReassemblyCapacity)
  else
    '(r, evicted, ok) ← evict_loop
      (λ r, (max_total_reassembly_bytes (r_limits r)
               <? saturating_add (r_total_retained_bytes r) incoming_bytes)%N)
      (λ r, oldest_global r (Some (peer, protected_id)))
      (λ r '(old_peer, old_id), remove_transfer r old_peer old_id)
      (N.to_nat (transfer_count r)) r evicted;
    Some (r, evicted, capacity_result ok).

Definition get_transfer r peer id : option Transfer :=
  r_peers r !! peer ≫= λ state, ps_transfers state !! id.

(** [self.peers.entry(peer).or_default().transfers.insert(id, t)] *)
Definition insert_transfer r peer id (t : Transfer) : Reassembler :=
  let state := default RPeerState_default (r_peers r !! peer) in
  {| r_limits := r_limits r;
     r_peers := <[peer := {| ps_transfers := <[id := t]> (ps_transfers state);
                             ps_retained_bytes := ps_retained_bytes state |}]> (r_peers r);
     r_total_retained_bytes := r_total_retained_bytes r |}.

(** The tail of [accept_fragment]: retain the bytes, account for them, complete if all arrived. *)
Definition store_fragment r peer (fragment : FragmentInput) now
    : option (Reassembler * result ReceiveOutcome FrameError) :=
  state ← r_peers r !! peer;
  transfer ← ps_transfers state !! fi_id fragment;
  let n := len (fi_bytes fragment) in
  let transfer :=
    {| t_total_len := t_total_len transfer;
       t_fragments := bt_insert (fi_offset fragment) (fi_bytes fragment) (t_fragments transfer);
       t_retained_bytes := t_retained_bytes transfer + n;
       t_last_activity := now;
       t_last_missing_request := t_last_missing_request transfer |} in
  let r :=
    {| r_limits := r_limits r;
       r_peers := <[peer := {| ps_transfers := <[fi_id fragment := transfer]> (ps_transfers state);
                               ps_retained_bytes := ps_retained_bytes state + n |}]> (r_peers r);
       r_total_retained_bytes := r_total_retained_bytes r + n |} in
  if negb (t_retained_bytes transfer =? t_total_len transfer)%N then Some (r, Ok Pending)
  else
    let assembled := concat ((t_fragments transfer).*2) in
    let r := remove_transfer r peer (fi_id fragment) in
    if decide (blake3_hash assembled = fi_id fragment) then Some (r, Ok (Complete assembled))
    else Some (r, Err HashMismatch).

Definition touch_transfer (t : Transfer) now : Transfer :=
  {| t_total_len := t_total_len t; t_fragments := t_fragments t;
     t_retained_bytes := t_retained_bytes t; t_last_activity := now;
     t_last_missing_request := t_last_missing_request t |}.

Definition accept_fragment r peer (fragment : FragmentInput) now (evicted : N)
    : option (Reassembler * N * result ReceiveOutcome FrameError) :=
  if decide (fi_bytes fragment = []) then Some (r, evicted, Err EmptyFragment)
  else if (max_logical_message_size (r_limits r) <? fi_total_len fragment)%N
  then Some (r, evicted, Err LogicalMessageTooLarge)
  else if (max_fragments_per_message (r_limits r) =? 0)%N
  then Some (r, evicted, Err TooManyFragments)
  else
    match checked_add (fi_offset fragment) (len (fi_bytes fragment)) with
    | None => Some (r, evicted, Err InvalidFragmentBounds)
    | Some end_ =>
        if (fi_total_len fragment <? end_)%N then Some (r, evicted, Err InvalidFragmentBounds)
        else
          match get_transfer r peer (fi_id fragment) with
          | Some existing =>
              if negb (t_total_len existing =? fi_total_len fragment)%N
              then Some (r, evicted, Err InconsistentMetadata)
              else
                match bt_get (fi_offset fragment) (t_fragments existing) with
                | Some bytes =>
                    if decide (bytes = fi_bytes fragment)
                    then Some (insert_transfer r peer (fi_id fragment) (touch_transfer existing now),
                               evicted, Ok Duplicate)
                    else Some (r, evicted, Err OverlappingFragment)
                | None =>
                    if overlaps (t_fragments existing) (fi_offset fragment) end_
                    then Some (r, evicted, Err OverlappingFragment)
                    else if (max_fragments_per_message (r_limits r) <=? len (t_fragments existing))%N
                    then Some (r, evicted, Err TooManyFragments)
                    else
                      '(r, evicted, res) ← make_byte_room r peer (fi_id fragment)
                                             (len (fi_bytes fragment)) evicted;
                      match res with
                      | Err e => Some (r, evicted, Err e)
                      | Ok _ => '(r, o) ← store_fragment r peer fragment now; Some (r, evicted, o)
                      end
                end
          | None =>
              '(r, evicted, res) ← make_transfer_slot r peer (fi_id fragment)
                                     (len (fi_bytes fragment)) evicted;
              match res with
              | Err e => Some (r, evicted, Err e)
              | Ok _ =>
                  '(r, evicted, res) ← make_byte_room r peer (fi_id fragment)
                                         (len (fi_bytes fragment)) evicted;
                  match res with
                  | Err e => Some (r, evicted, Err e)
                  | Ok _ =>
                      let r := insert_transfer r peer (fi_id fragment)
                        {| t_total_len := fi_total_len fragment; t_fragments := [];
                           t_retained_bytes := 0; t_last_activity := now;
                           t_last_missing_request := None |} in
                      '(r, o) ← store_fragment r peer fragment now; Some (r, evicted, o)
                  end
              end
          end
    end.

Definition report r (o : result ReceiveOutcome FrameError) (expired evicted : N) (fragment : bool)
    : ReceiveReport :=
  {| outcome := o; expired_transfers := expired; evicted_transfers := evicted;
     rr_retained_bytes := r_total_retained_bytes r; fragment_received := fragment |}.

Definition fragment_input (bytes : list byte) : FragmentInput :=
  {| fi_id := frame_id bytes; fi_total_len := frame_total_len bytes;
     fi_offset := frame_offset bytes; fi_bytes := drop FRAGMENT_HEADER_LEN bytes |}.

Definition accept r peer (bytes : list byte) now : option (Reassembler * ReceiveReport) :=
  let '(r, expired) := expire r now in
  match head bytes with
  | None => Some (r, report r (Err Empty) expired 0 false)
  | Some tag =>
      if bool_decide (tag = COMPLETE_TAG) then
        if (max_logical_message_size (r_limits r)
              <? saturating_sub (len bytes) (N.of_nat COMPLETE_HEADER_LEN))%N
        then Some (r, report r (Err LogicalMessageTooLarge) expired 0 false)
        else Some (r, report r (Ok (Complete (drop COMPLETE_HEADER_LEN bytes))) expired 0 false)
      else if bool_decide (tag ≠ FRAGMENT_TAG)
      then Some (r, report r (Err (UnknownTag tag)) expired 0 false)
      else if length bytes <? FRAGMENT_HEADER_LEN
      then Some (r, report r (Err TruncatedFragmentHeader) expired 0 true)
      else
        '(r, evicted, o) ← accept_fragment r peer (fragment_input bytes) now 0;
        Some (r, report r o expired evicted true)
  end.
End reassembler.
Arguments Reassembler P {_ _} : assert.
