(* ===== verification/ReassemblyInv.v ===== *)
(** * The reassembler's accounting invariant

    [wf] states what the byte and count limits promise: every retained fragment lies inside its
    message and overlaps no other, the three retained-byte counters are exact sums, and no limit
    is exceeded. Every operation preserves it, from any peer, any bytes and any clock. *)
From stdpp Require Import gmap list sorting.
From Stdlib Require Import NArith.
From Stdlib.Strings Require Import Byte.
From S2P Require Import Prelude Bytes Btree Framing Reassembly.

(** ** Fragment lists *)

Fixpoint frag_sum (l : list (N * list byte)) : N :=
  match l with [] => 0 | (_, b) :: l => len b + frag_sum l end.

(** Non-empty fragments, ascending and disjoint, between [c] and [total]. *)
Fixpoint frags_ok (c total : N) (l : list (N * list byte)) : Prop :=
  match l with
  | [] => (c ≤ total)%N
  | (o, b) :: l => (c ≤ o)%N ∧ b ≠ [] ∧ frags_ok (o + len b) total l
  end.

Lemma len_pos {A} (b : list A) : b ≠ [] → (0 < len b)%N.
Proof. destruct b; [done|cbn; lia]. Qed.

Lemma frags_ok_sum c total l : frags_ok c total l → (c + frag_sum l ≤ total)%N.
Proof.
  revert c; induction l as [|[o b] l IH]; intros c; cbn; [lia|].
  intros (? & ? & Hl). specialize (IH _ Hl). lia.
Qed.

Lemma frags_ok_elem c total l o b :
  frags_ok c total l → (o, b) ∈ l → (c ≤ o)%N ∧ b ≠ [] ∧ (o + len b ≤ total)%N.
Proof.
  revert c; induction l as [|[o' b'] l IH]; intros c; cbn; [by intros _ ?%not_elem_of_nil|].
  intros (? & ? & Hl) [[= -> ->]|Hin]%elem_of_cons.
  - pose proof (frags_ok_sum _ _ _ Hl). split_and!; [done..|lia].
  - destruct (IH _ Hl Hin) as (? & ? & ?). split_and!; [lia|done|done].
Qed.

Lemma frags_ok_sorted c total l : frags_ok c total l → bt_sorted l.
Proof.
  revert c; induction l as [|[o b] l IH]; intros c; cbn; [constructor|].
  intros (? & Hb & Hl). constructor; [by eapply IH|]. apply Forall_forall. intros [o' b'] Hin.
  destruct (frags_ok_elem _ _ _ _ _ Hl Hin) as (? & ? & ?). pose proof (len_pos b Hb).
  unfold ord_ltb. cbn. apply negb_true_iff, N.leb_gt. lia.
Qed.

Lemma frag_sum_insert (o : N) b l : bt_get o l = None → frag_sum (bt_insert o b l) = (len b + frag_sum l)%N.
Proof.
  induction l as [|[o' b'] l IH]; cbn; [done|]. case_decide; [done|]. intros Hl.
  destruct (ord_ltb o o'); cbn; [done|]. rewrite IH by done. lia.
Qed.

Lemma length_bt_insert (o : N) (b : list byte) l : bt_get o l = None → length (bt_insert o b l) = S (length l).
Proof.
  induction l as [|[o' b'] l IH]; cbn; [done|]. case_decide; [done|]. intros Hl.
  destruct (ord_ltb o o'); cbn; [done|]. by rewrite IH.
Qed.

(** Inserting a fragment that meets no retained one keeps the list well formed. *)
Lemma frags_ok_insert c total l o b :
  frags_ok c total l → (c ≤ o)%N → b ≠ [] → (o + len b ≤ total)%N →
  (∀ o' b', (o', b') ∈ l → o' + len b' ≤ o ∨ o + len b ≤ o')%N →
  frags_ok c total (bt_insert o b l).
Proof.
  revert c; induction l as [|[o' b'] l IH]; intros c; cbn; [done|].
  intros (? & Hb' & Hl) Hc Hb Ht Hd. pose proof (len_pos b Hb). pose proof (len_pos b' Hb').
  destruct (Hd o' b') as [Hbefore|Hafter]; [left| |].
  - case_decide; [lia|]. unfold ord_ltb. cbn. rewrite (proj2 (N.leb_le o' o)) by lia. cbn.
    split_and!; [done..|]. apply IH; auto. intros o'' b'' Hin. apply Hd. by right.
  - case_decide; [lia|]. unfold ord_ltb. cbn. rewrite (proj2 (N.leb_gt o' o)) by lia. cbn.
    by split_and!.
Qed.

Lemma last_filter_cons {A} (Q : A → Prop) `{∀ x, Decision (Q x)} (x : A) l :
  last (filter Q (x :: l)) = match last (filter Q l) with
    | Some y => Some y | None => if decide (Q x) then Some x else None end.
Proof.
  rewrite filter_cons. case_decide; [|by destruct (last (filter Q l))].
  destruct (filter Q l) as [|y l'] eqn:E; [done|]. rewrite last_cons.
  by destruct (last (y :: l')).
Qed.

(** [overlaps] looks only at the nearest retained fragments on each side; on a well-formed list
    that decides disjointness from all of them. *)
Lemma overlaps_false c total l s e :
  frags_ok c total l → (total ≤ usize_max)%N → overlaps l s e = false →
  ∀ o b, (o, b) ∈ l → (o + len b ≤ s ∨ e ≤ o)%N.
Proof.
  intros Hok Ht Hov. unfold overlaps in Hov. apply orb_false_iff in Hov as [Hlo Hhi].
  unfold bt_last_below, bt_first_from in *. revert c Hok Hlo Hhi.
  induction l as [|[o' b'] l IH]; intros c Hok Hlo Hhi o b Hin; [by apply not_elem_of_nil in Hin|].
  cbn in Hok. destruct Hok as (Hc & Hb' & Hok).
  pose proof (frags_ok_sum _ _ _ Hok). rewrite last_filter_cons in Hlo. cbn [fst] in Hlo.
  rewrite filter_cons in Hhi. cbn [fst] in Hhi.
  unfold ord_ltb in *. cbn [ord_leb N_ord] in *.
  destruct (N.le_gt_cases s o') as [Hs|Hs].
  - rewrite decide_True in Hhi by (by apply N.leb_le). cbn in Hhi. bool_to_prop.
    apply elem_of_cons in Hin as [[= -> ->]|Hin]; [lia|].
    destruct (frags_ok_elem _ _ _ _ _ Hok Hin). lia.
  - rewrite decide_False in Hhi by (rewrite N.leb_le; lia).
    apply elem_of_cons in Hin as [[= -> ->]|Hin].
    + destruct (last (filter _ l)) as [[o2 b2]|] eqn:El.
      * apply last_Some_elem_of, list_elem_of_filter in El as [El1 El2]. cbn in El1.
        apply negb_true_iff, N.leb_gt in El1.
        destruct (frags_ok_elem _ _ _ _ _ Hok El2). lia.
      * rewrite decide_True in Hlo by (apply negb_true_iff, N.leb_gt; lia).
        unfold saturating_add in Hlo. bool_to_prop. lia.
    + eapply IH; eauto. by destruct (last (filter _ l)) as [[o2 b2]|].
Qed.

(** ** The invariant *)
Section inv.
Context {P : Type} `{Countable P, RustOrd P}.
Implicit Types (r : Reassembler P) (peer : P) (id : id32) (now : N).

(** [usize] limits, the byte limits strictly below [usize::MAX] so that no sum saturates. *)
Record limits_ok (lim : ReassemblyLimits) : Prop := {
  lo_logical : (max_logical_message_size lim ≤ usize_max)%N;
  lo_peer : (max_reassembly_bytes_per_peer lim < usize_max)%N;
  lo_total : (max_total_reassembly_bytes lim < usize_max)%N;
}.

Record transfer_ok (lim : ReassemblyLimits) (t : Transfer) : Prop := {
  to_frags : frags_ok 0 (t_total_len t) (t_fragments t);
  to_sum : t_retained_bytes t = frag_sum (t_fragments t);
  to_incomplete : (t_retained_bytes t < t_total_len t)%N;
  to_nonempty : t_fragments t ≠ [];
  to_count : (len (t_fragments t) ≤ max_fragments_per_message lim)%N;
  to_size : (t_total_len t ≤ max_logical_message_size lim)%N;
}.

Record peer_ok (lim : ReassemblyLimits) (s : RPeerState) : Prop := {
  po_nonempty : ps_transfers s ≠ ∅;
  po_transfers : ∀ id t, ps_transfers s !! id = Some t → transfer_ok lim t;
  po_sum : ps_retained_bytes s = map_sum (λ _ t, t_retained_bytes t) (ps_transfers s);
  po_bytes : (ps_retained_bytes s ≤ max_reassembly_bytes_per_peer lim)%N;
  po_count : (N.of_nat (size (ps_transfers s)) ≤ max_incomplete_transfers_per_peer lim)%N;
}.

Record wf r : Prop := {
  wf_limits : limits_ok (r_limits r);
  wf_peers : ∀ peer s, r_peers r !! peer = Some s → peer_ok (r_limits r) s;
  wf_sum : r_total_retained_bytes r = map_sum (λ _ s, ps_retained_bytes s) (r_peers r);
  wf_total : (r_total_retained_bytes r ≤ max_total_reassembly_bytes (r_limits r))%N;
}.

Lemma wf_for_identity lim : limits_ok lim → wf (for_identity lim).
Proof. intros. constructor; cbn; [done|by intros ? ? ?%lookup_empty_Some|done|lia]. Qed.

(** *** Removal *)

Lemma remove_transfer_limits r peer id : r_limits (remove_transfer r peer id) = r_limits r.
Proof. unfold remove_transfer. destruct (r_peers r !! peer) as [s|]; [|done]. by destruct (ps_transfers s !! id). Qed.

Lemma get_transfer_remove r peer id peer' id' :
  get_transfer (remove_transfer r peer id) peer' id'
  = if decide ((peer, id) = (peer', id')) then None else get_transfer r peer' id'.
Proof.
  unfold get_transfer, remove_transfer.
  destruct (r_peers r !! peer) as [s|] eqn:Hs; [|case_decide as E; [injection E as <- <-; by rewrite Hs|done]].
  destruct (decide (peer = peer')) as [<-|Hp].
  - destruct (ps_transfers s !! id) as [t|] eqn:Ht; cbn [r_peers ps_transfers];
      (case_bool_decide as He; [rewrite lookup_delete_eq|rewrite lookup_insert_eq]); cbn; rewrite ?Hs; cbn;
      case_decide as E; try done.
    + assert (Hd : delete id (ps_transfers s) !! id' = None) by (rewrite He; apply lookup_empty).
      rewrite lookup_delete_ne in Hd by congruence. done.
    + injection E as <-. apply lookup_delete_eq.
    + rewrite lookup_delete_ne by congruence. done.
    + rewrite He. by rewrite lookup_empty.
    + by injection E as <-.
  - rewrite decide_False by congruence.
    destruct (ps_transfers s !! id); cbn [r_peers]; case_bool_decide;
      rewrite ?lookup_delete_ne, ?lookup_insert_ne by done; done.
Qed.

Lemma peer_ok_delete lim s id t :
  peer_ok lim s → ps_transfers s !! id = Some t → delete id (ps_transfers s) ≠ ∅ →
  peer_ok lim {| ps_transfers := delete id (ps_transfers s);
                 ps_retained_bytes := saturating_sub (ps_retained_bytes s) (t_retained_bytes t) |}.
Proof.
  intros Hp Ht Hne. pose proof (map_sum_delete (λ _ t, t_retained_bytes t) _ _ _ Ht) as Hsum.
  unfold saturating_sub. pose proof (po_sum _ _ Hp). pose proof (po_bytes _ _ Hp).
  pose proof (po_count _ _ Hp). pose proof (map_size_delete_le (ps_transfers s) id).
  constructor; cbn in *; [done| |lia|lia|lia].
  intros id' t' [_ ?]%lookup_delete_Some. by eapply (po_transfers _ _ Hp).
Qed.

Lemma remove_transfer_wf r peer id : wf r → wf (remove_transfer r peer id).
Proof.
  intros Hr. unfold remove_transfer. destruct (r_peers r !! peer) as [s|] eqn:Hs; [|done].
  pose proof (wf_peers _ Hr _ _ Hs) as Hp. pose proof (wf_sum _ Hr) as Htot.
  pose proof (wf_total _ Hr). pose proof (map_sum_delete (λ _ s, ps_retained_bytes s) _ _ _ Hs) as Hd.
  destruct (ps_transfers s !! id) as [t|] eqn:Ht.
  - pose proof (map_sum_delete (λ _ t, t_retained_bytes t) _ _ _ Ht) as Hdt. cbn in Hdt.
    pose proof (po_sum _ _ Hp) as Hps.
    set (s' := {| ps_transfers := _; ps_retained_bytes := _ |}).
    case_bool_decide as He; unfold saturating_sub in *.
    + unfold s' in He. cbn in He. rewrite He in Hdt. rewrite map_sum_empty in Hdt. constructor; cbn in *; [apply Hr| |lia|lia].
      intros peer' q [_ ?]%lookup_delete_Some. by eapply (wf_peers _ Hr).
    + pose proof (map_sum_update (λ _ s, ps_retained_bytes s) _ peer s s' Hs) as Hu.
      constructor; cbn in *; [apply Hr| |lia|lia].
      intros peer' q [[<- <-]|[_ ?]]%lookup_insert_Some; [by apply peer_ok_delete|by eapply (wf_peers _ Hr)].
  - rewrite bool_decide_eq_false_2 by apply (po_nonempty _ _ Hp).
    rewrite insert_id by done. constructor; cbn; apply Hr.
Qed.

Lemma fold_remove_wf r (l : list (P * id32 * Transfer)) :
  wf r → wf (fold_left (λ r '(peer, id, _), remove_transfer r peer id) l r).
Proof. intros. apply fold_left_inv; [done|]. intros r' [[p i] t] _ ?. by apply remove_transfer_wf. Qed.

Lemma fold_remove_limits r (l : list (P * id32 * Transfer)) :
  r_limits (fold_left (λ r '(peer, id, _), remove_transfer r peer id) l r) = r_limits r.
Proof.
  apply (fold_left_inv (λ r', r_limits r' = r_limits r)); [done|].
  intros r' [[p i] t] _ <-. apply remove_transfer_limits.
Qed.

(** *** Counting *)

Lemma elem_all_transfers r peer id t :
  (peer, id, t) ∈ all_transfers r ↔ get_transfer r peer id = Some t.
Proof.
  unfold all_transfers, get_transfer. rewrite list_elem_of_In, in_flat_map.
  setoid_rewrite <- list_elem_of_In. split.
  - intros ([p s] & Hs & Hin). apply elem_of_map_to_list in Hs.
    apply list_elem_of_fmap in Hin as ([i t'] & [= -> -> ->] & Hin).
    apply elem_of_map_to_list in Hin. by rewrite Hs.
  - intros (s & Hs & Ht)%bind_Some. exists (peer, s). split; [by apply elem_of_map_to_list|].
    apply list_elem_of_fmap. exists (id, t). split; [done|by apply elem_of_map_to_list].
Qed.

Lemma oldest_for_peer_Some r peer x id :
  oldest_for_peer r peer (Some x) = Some id → id ≠ x ∧ is_Some (get_transfer r peer id).
Proof.
  unfold oldest_for_peer, get_transfer. destruct (r_peers r !! peer) as [s|]; [|done].
  intros ([last i] & Hm%min_of_elem & ->)%fmap_Some.
  apply list_elem_of_omap in Hm as ([i' t] & Hin & Hi). case_decide; [done|]. injection Hi as <- <-.
  apply elem_of_map_to_list in Hin. cbn. rewrite Hin. split; [congruence|by eexists].
Qed.

Lemma oldest_for_peer_None r peer x id t :
  oldest_for_peer r peer (Some x) = None → get_transfer r peer id = Some t → id = x.
Proof.
  unfold oldest_for_peer, get_transfer. destruct (r_peers r !! peer) as [s|]; [cbn|done].
  rewrite fmap_None, min_of_None. intros Hn Ht. destruct (decide (id = x)) as [|Hne]; [done|].
  exfalso. apply (not_elem_of_nil (t_last_activity t, id)). rewrite <- Hn.
  apply list_elem_of_omap. exists (id, t). split; [by apply elem_of_map_to_list|].
  by rewrite decide_False by congruence.
Qed.

Lemma oldest_global_Some r x p id :
  oldest_global r (Some x) = Some (p, id) → (p, id) ≠ x ∧ is_Some (get_transfer r p id).
Proof.
  unfold oldest_global. intros ([[last p'] i] & Hm%min_of_elem & [= -> ->])%fmap_Some.
  apply list_elem_of_omap in Hm as ([[p0 i0] t] & Hin%elem_all_transfers & Hi).
  case_decide; [done|]. injection Hi as <- <- <-. rewrite Hin. split; [congruence|by eexists].
Qed.

Lemma oldest_global_None r x p id t :
  oldest_global r (Some x) = None → get_transfer r p id = Some t → (p, id) = x.
Proof.
  unfold oldest_global. rewrite fmap_None, min_of_None. intros Hn Ht.
  destruct (decide ((p, id) = x)) as [|Hne]; [done|].
  exfalso. apply (not_elem_of_nil (t_last_activity t, p, id)). rewrite <- Hn.
  apply list_elem_of_omap. exists (p, id, t). split; [by apply elem_all_transfers|].
  by rewrite decide_False by congruence.
Qed.

Lemma remove_transfer_measure r peer id t :
  get_transfer r peer id = Some t →
  peer_transfers (remove_transfer r peer id) peer < peer_transfers r peer ∧
  (transfer_count (remove_transfer r peer id) < transfer_count r)%N.
Proof.
  intros (s & Hs & Ht)%bind_Some. unfold peer_transfers, transfer_count, remove_transfer.
  rewrite Hs, Ht. cbn [r_peers ps_transfers].
  set (sz := λ (_ : P) (s : RPeerState), N.of_nat (size (ps_transfers s))).
  pose proof (map_size_delete_lt _ _ _ Ht) as Hsz.
  pose proof (map_sum_delete sz _ _ _ Hs) as Hd. cbn in Hd.
  case_bool_decide as He.
  - rewrite lookup_delete_eq. change (sz peer s) with (N.of_nat (size (ps_transfers s))) in Hd. lia.
  - set (s' := {| ps_transfers := _; ps_retained_bytes := _ |}).
    rewrite lookup_insert_eq. pose proof (map_sum_update sz _ peer s s' Hs) as Hu.
    change (sz peer s) with (N.of_nat (size (ps_transfers s))) in Hu.
    change (sz peer s') with (N.of_nat (size (delete id (ps_transfers s)))) in Hu.
    change (ps_transfers s') with (delete id (ps_transfers s)). lia.
Qed.

Lemma remove_transfer_mono r p id peer :
  peer_transfers (remove_transfer r p id) peer ≤ peer_transfers r peer ∧
  (peer_bytes (remove_transfer r p id) peer ≤ peer_bytes r peer)%N.
Proof.
  unfold peer_transfers, peer_bytes, remove_transfer.
  destruct (r_peers r !! p) as [s|] eqn:Hs; [|lia].
  destruct (decide (p = peer)) as [<-|Hne]; [rewrite Hs|];
    destruct (ps_transfers s !! id); cbn [r_peers]; case_bool_decide;
    rewrite ?lookup_delete_eq, ?lookup_insert_eq, ?lookup_delete_ne, ?lookup_insert_ne by done;
    cbn; unfold saturating_sub; try (pose proof (map_size_delete_le (ps_transfers s) id)); lia.
Qed.

(** *** Making room *)

(** Held through both eviction loops for the protected transfer. *)
Record room_inv lim peer id (o : option Transfer) r : Prop := {
  ri_wf : wf r;
  ri_limits : r_limits r = lim;
  ri_protected : get_transfer r peer id = o;
}.

Lemma room_inv_remove lim peer id o r p i :
  room_inv lim peer id o r → (p, i) ≠ (peer, id) → room_inv lim peer id o (remove_transfer r p i).
Proof.
  intros [Hw Hl Hg] Hne. constructor; [by apply remove_transfer_wf|by rewrite remove_transfer_limits|].
  by rewrite get_transfer_remove, decide_False.
Qed.

Lemma make_transfer_slot_spec r peer id n ev :
  wf r → ∃ r' ev' res, make_transfer_slot r peer id n ev = Some (r', ev', res) ∧
    room_inv (r_limits r) peer id (get_transfer r peer id) r' ∧
    (res = Ok tt → N.of_nat (peer_transfers r' peer) < max_incomplete_transfers_per_peer (r_limits r))%N ∧
    (res = Ok tt ∨ res = Err ReassemblyCapacity ∧
      (max_reassembly_bytes_per_peer (r_limits r) < n ∨ max_total_reassembly_bytes (r_limits r) < n ∨
       (oldest_for_peer r' peer (Some id) = None ∧
        max_incomplete_transfers_per_peer (r_limits r) ≤ N.of_nat (peer_transfers r' peer)))%N).
Proof.
  intros Hr. assert (Hinit : room_inv (r_limits r) peer id (get_transfer r peer id) r) by (by constructor).
  unfold make_transfer_slot. case_test.
  { eexists _, _, _. split; [done|]. split_and!; [done..|]. right. split; [done|].
    destruct E as [E|E]; bool_to_prop; tauto. }
  set (I := room_inv (r_limits r) peer id (get_transfer r peer id)) in *.
  assert (Hstep : ∀ s x, I s → oldest_for_peer s peer (Some id) = Some x → I (remove_transfer s peer x)).
  { intros s x Hs [Hx _]%oldest_for_peer_Some. apply room_inv_remove; [done|congruence]. }
  destruct (evict_loop_total
    (λ r, (max_incomplete_transfers_per_peer (r_limits r) <=? N.of_nat (peer_transfers r peer))%N)
    (λ r, oldest_for_peer r peer (Some id)) (λ r id, remove_transfer r peer id) I
    (λ r, peer_transfers r peer)) with (fuel := peer_transfers r peer) (s := r) (n := ev)
    as [[[r' ev'] ok] Heq]; [|done|done|].
  { intros s x Hs Hx. split; [by apply Hstep|].
    destruct (oldest_for_peer_Some _ _ _ _ Hx) as [_ [t Ht]]. by eapply remove_transfer_measure. }
  rewrite Heq. eexists _, _, _. split; [done|].
  apply evict_loop_inv with (I := I) in Heq as (HI & Hov & Hnone); [|auto|done].
  rewrite (ri_limits _ _ _ _ _ HI) in Hov. destruct ok; cbn in *; bool_to_prop.
  - split_and!; [done|by intros|by left].
  - split_and!; [done|done|]. right. split; [done|]. right. right. split; auto.
Qed.

(** The room both loops of [make_byte_room] establish. *)
Definition byte_room lim peer (n : N) r : Prop :=
  (peer_bytes r peer + n ≤ max_reassembly_bytes_per_peer lim)%N ∧
  (r_total_retained_bytes r + n ≤ max_total_reassembly_bytes lim)%N.

Lemma no_saturation a n m : (m < usize_max)%N → (m <? saturating_add a n)%N = negb (a + n <=? m)%N.
Proof.
  intros. unfold saturating_add. destruct (a + n <=? m)%N eqn:E; bool_to_prop; cbn.
  - apply N.ltb_ge. lia.
  - apply N.ltb_lt. lia.
Qed.

Lemma make_byte_room_spec r peer id n ev :
  wf r → ∃ r' ev' res, make_byte_room r peer id n ev = Some (r', ev', res) ∧
    room_inv (r_limits r) peer id (get_transfer r peer id) r' ∧
    peer_transfers r' peer ≤ peer_transfers r peer ∧
    ((res = Ok tt ∧ byte_room (r_limits r) peer n r') ∨
     (res = Err ReassemblyCapacity ∧
      ((oldest_for_peer r' peer (Some id) = None ∧
        max_reassembly_bytes_per_peer (r_limits r) < peer_bytes r' peer + n) ∨
       (oldest_global r' (Some (peer, id)) = None ∧
        max_total_reassembly_bytes (r_limits r) < r_total_retained_bytes r' + n))%N)).
Proof.
  intros Hr. set (I := λ s, room_inv (r_limits r) peer id (get_transfer r peer id) s ∧
    peer_transfers s peer ≤ peer_transfers r peer).
  assert (Hinit : I r) by (split; [by constructor|done]).
  pose proof (wf_limits _ Hr) as [Hlo_log Hlo_peer Hlo_tot].
  assert (Hrm : ∀ s p i, I s → (p, i) ≠ (peer, id) → I (remove_transfer s p i)).
  { intros s p i [Hs Hle] Hne. split; [by apply room_inv_remove|].
    pose proof (proj1 (remove_transfer_mono s p i peer)). lia. }
  unfold make_byte_room.
  destruct (evict_loop_total
    (λ r, (max_reassembly_bytes_per_peer (r_limits r) <? saturating_add (peer_bytes r peer) n)%N)
    (λ r, oldest_for_peer r peer (Some id)) (λ r id, remove_transfer r peer id) I
    (λ r, peer_transfers r peer)) with (fuel := peer_transfers r peer) (s := r) (n := ev)
    as [[[r1 ev1] ok1] Heq]; [|done|done|].
  { intros s x Hs Hx. destruct (oldest_for_peer_Some _ _ _ _ Hx) as [? [t Ht]].
    split; [apply Hrm; [done|congruence]|by eapply remove_transfer_measure]. }
  rewrite Heq. cbn [mbind option_bind].
  apply evict_loop_inv with (I := I) in Heq as (HI1 & Hov1 & Hnone1); [| |done].
  2:{ intros s x Hs _ [? _]%oldest_for_peer_Some. apply Hrm; [done|congruence]. }
  rewrite (ri_limits _ _ _ _ _ (proj1 HI1)), no_saturation in Hov1 by done.
  apply (f_equal negb) in Hov1. rewrite !negb_involutive in Hov1.
  destruct ok1; cbn [negb]; bool_to_prop.
  2:{ eexists _, _, _. split; [done|]. split_and!; [apply HI1|apply HI1|]. right. split; [done|]. left. auto. }
  set (I2 := λ s, I s ∧ (peer_bytes s peer + n ≤ max_reassembly_bytes_per_peer (r_limits r))%N).
  assert (Hrm2 : ∀ s x, I2 s → oldest_global s (Some (peer, id)) = Some x →
    I2 (remove_transfer s x.1 x.2)).
  { intros s [p i] [Hs Hle] [Hx _]%oldest_global_Some. split; [by apply Hrm|]. cbn.
    pose proof (proj2 (remove_transfer_mono s p i peer)). lia. }
  destruct (evict_loop_total
    (λ r, (max_total_reassembly_bytes (r_limits r) <? saturating_add (r_total_retained_bytes r) n)%N)
    (λ r, oldest_global r (Some (peer, id))) (λ r '(p, i), remove_transfer r p i) I2
    (λ r, N.to_nat (transfer_count r))) with (fuel := N.to_nat (transfer_count r1)) (s := r1) (n := ev1)
    as [[[r2 ev2] ok2] Heq]; [|by split|done|].
  { intros s [p i] Hs Hx. split; [by apply (Hrm2 s (p, i))|].
    destruct (oldest_global_Some _ _ _ _ Hx) as [_ [t Ht]].
    pose proof (proj2 (remove_transfer_measure _ _ _ _ Ht)). lia. }
  rewrite Heq. eexists _, _, _. split; [done|].
  apply evict_loop_inv with (I := I2) in Heq as ((HI2 & Hb) & Hov2 & Hnone2); [| |by split].
  2:{ intros s [p i] Hs _ Hx. by apply (Hrm2 s (p, i)). }
  rewrite (ri_limits _ _ _ _ _ (proj1 HI2)), no_saturation in Hov2 by done.
  apply (f_equal negb) in Hov2. rewrite !negb_involutive in Hov2.
  split_and!; [apply HI2|apply HI2|]. destruct ok2; cbn; bool_to_prop; [by left|right]. auto.
Qed.

End inv.

(** *** Storing a fragment *)
Section inv.
Context {P : Type} `{Countable P, RustOrd P}.
Context (blake3_hash : list byte → id32).
Implicit Types (r : Reassembler P) (peer : P) (id : id32) (now : N).

Definition empty_transfer (total now : N) : Transfer :=
  {| t_total_len := total; t_fragments := []; t_retained_bytes := 0; t_last_activity := now;
     t_last_missing_request := None |}.

(** The transfer after retaining [fragment]. *)
Definition grow (t : Transfer) (fragment : FragmentInput) now : Transfer :=
  {| t_total_len := t_total_len t;
     t_fragments := bt_insert (fi_offset fragment) (fi_bytes fragment) (t_fragments t);
     t_retained_bytes := t_retained_bytes t + len (fi_bytes fragment);
     t_last_activity := now;
     t_last_missing_request := t_last_missing_request t |}.

(** The state with transfer [t] stored and [n] more bytes accounted for. *)
Definition put_transfer r peer id (t : Transfer) (n : N) : Reassembler P :=
  let s := default RPeerState_default (r_peers r !! peer) in
  {| r_limits := r_limits r;
     r_peers := <[peer := {| ps_transfers := <[id := t]> (ps_transfers s);
                             ps_retained_bytes := ps_retained_bytes s + n |}]> (r_peers r);
     r_total_retained_bytes := r_total_retained_bytes r + n |}.

Definition finish r peer id (t : Transfer) (n : N)
    : option (Reassembler P * result ReceiveOutcome FrameError) :=
  if negb (t_retained_bytes t =? t_total_len t)%N then Some (put_transfer r peer id t n, Ok Pending)
  else
    let assembled := concat ((t_fragments t).*2) in
    let r := remove_transfer (put_transfer r peer id t n) peer id in
    if decide (blake3_hash assembled = id) then Some (r, Ok (Complete assembled))
    else Some (r, Err HashMismatch).

Lemma store_existing r peer f t now :
  get_transfer r peer (fi_id f) = Some t →
  store_fragment blake3_hash r peer f now = finish r peer (fi_id f) (grow t f now) (len (fi_bytes f)).
Proof.
  intros (s & Hs & Ht)%bind_Some. unfold store_fragment, finish, put_transfer, grow.
  rewrite Hs. cbn [mbind option_bind default]. rewrite Ht. done.
Qed.

Lemma store_new r peer f now :
  store_fragment blake3_hash
    (insert_transfer r peer (fi_id f) (empty_transfer (fi_total_len f) now)) peer f now
  = finish r peer (fi_id f) (grow (empty_transfer (fi_total_len f) now) f now) (len (fi_bytes f)).
Proof.
  unfold store_fragment, finish, put_transfer, insert_transfer, grow. cbn [r_peers].
  rewrite lookup_insert_eq. cbn [mbind option_bind ps_transfers ps_retained_bytes].
  rewrite lookup_insert_eq. cbn. by rewrite !insert_insert_eq.
Qed.

Definition old_bytes (o : option Transfer) : N := match o with Some t => t_retained_bytes t | None => 0 end.

Lemma get_transfer_put r peer id t n peer' id' :
  get_transfer (put_transfer r peer id t n) peer' id'
  = if decide ((peer, id) = (peer', id')) then Some t else get_transfer r peer' id'.
Proof.
  unfold get_transfer, put_transfer. cbn [r_peers]. destruct (decide (peer = peer')) as [<-|].
  - rewrite lookup_insert_eq. cbn. case_decide as E.
    + injection E as <-. apply lookup_insert_eq.
    + rewrite lookup_insert_ne by congruence. by destruct (r_peers r !! peer).
  - rewrite lookup_insert_ne by done. by rewrite decide_False by congruence.
Qed.

Lemma put_transfer_wf r peer id t n :
  wf r → transfer_ok (r_limits r) t → byte_room (r_limits r) peer n r →
  t_retained_bytes t = (old_bytes (get_transfer r peer id) + n)%N →
  (is_Some (get_transfer r peer id) ∨
   N.of_nat (peer_transfers r peer) < max_incomplete_transfers_per_peer (r_limits r))%N →
  wf (put_transfer r peer id t n).
Proof.
  intros Hr Ht [Hroom1 Hroom2] Hn Hslot. unfold peer_bytes, peer_transfers, get_transfer in *.
  assert (Hp : peer_ok (r_limits r)
    {| ps_transfers := <[id := t]> (ps_transfers (default RPeerState_default (r_peers r !! peer)));
       ps_retained_bytes := ps_retained_bytes (default RPeerState_default (r_peers r !! peer)) + n |}).
  { constructor; cbn.
    - apply insert_non_empty.
    - intros id' t' [[_ <-]|[_ Hl]]%lookup_insert_Some; [done|].
      destruct (r_peers r !! peer) as [s|] eqn:Hs; cbn in Hl; [|by rewrite lookup_empty in Hl].
      by eapply (po_transfers _ _ (wf_peers _ Hr _ _ Hs)).
    - destruct (r_peers r !! peer) as [s|] eqn:Hs; cbn in *.
      + rewrite (po_sum _ _ (wf_peers _ Hr _ _ Hs)).
        destruct (ps_transfers s !! id) as [t0|] eqn:Ht0; cbn in *.
        * pose proof (map_sum_update (λ _ t, t_retained_bytes t) _ id t0 t Ht0) as Hu. cbn in Hu. lia.
        * rewrite map_sum_insert by done. lia.
      + rewrite map_sum_insert by apply lookup_empty. rewrite map_sum_empty. lia.
    - destruct (r_peers r !! peer); cbn in *; lia.
    - destruct (r_peers r !! peer) as [s|] eqn:Hs; cbn in *.
      + destruct (ps_transfers s !! id) as [t0|] eqn:Ht0; cbn in *.
        * rewrite map_size_insert_Some by (by eexists). apply (po_count _ _ (wf_peers _ Hr _ _ Hs)).
        * rewrite map_size_insert_None by done. destruct Hslot as [[? ?]|]; [done|lia].
      + rewrite map_size_insert_None by apply lookup_empty. rewrite map_size_empty.
        destruct Hslot as [[? ?]|]; [done|lia]. }
  constructor; cbn [put_transfer r_limits r_peers r_total_retained_bytes]; [apply Hr| | |lia].
  - intros peer' s' [[_ <-]|[_ Hl]]%lookup_insert_Some; [done|by eapply (wf_peers _ Hr)].
  - rewrite (wf_sum _ Hr). destruct (r_peers r !! peer) as [s|] eqn:Hs; cbn [default].
    + match goal with |- _ = map_sum _ (<[_ := ?s']> _) =>
        pose proof (map_sum_update (λ _ s, ps_retained_bytes s) _ peer s s' Hs) as Hu end.
      cbn in Hu. cbn. lia.
    + rewrite map_sum_insert by done. cbn. lia.
Qed.

(** Completing a transfer leaves the state as if its earlier fragments had been dropped. *)
Lemma remove_put_transfer r peer id t n :
  wf r → t_retained_bytes t = (old_bytes (get_transfer r peer id) + n)%N →
  remove_transfer (put_transfer r peer id t n) peer id = remove_transfer r peer id.
Proof.
  intros Hr Hn. unfold remove_transfer, put_transfer, get_transfer in *.
  cbn [r_peers]. rewrite lookup_insert_eq. cbn [ps_transfers ps_retained_bytes r_limits r_total_retained_bytes].
  rewrite lookup_insert_eq. unfold saturating_sub.
  destruct (r_peers r !! peer) as [s|] eqn:Hs; cbn [from_option Datatypes.id mbind option_bind] in *.
  - destruct (ps_transfers s !! id) as [t0|] eqn:Ht0; cbn in Hn.
    + rewrite delete_insert_eq. f_equal.
      * cbn [ps_transfers]. case_bool_decide; [by rewrite delete_insert_eq|].
        rewrite insert_insert_eq.
        by replace (ps_retained_bytes s + n - t_retained_bytes t)%N
          with (ps_retained_bytes s - t_retained_bytes t0)%N by lia.
      * lia.
    + rewrite delete_insert_id by done.
      cbn [ps_transfers].
      rewrite !(bool_decide_eq_false_2 (ps_transfers s = ∅)) by apply (po_nonempty _ _ (wf_peers _ Hr _ _ Hs)).
      rewrite insert_insert_eq.
      replace (ps_retained_bytes s + n - t_retained_bytes t)%N with (ps_retained_bytes s) by lia.
      destruct s. cbn. f_equal. lia.
  - cbn in Hn. rewrite delete_insert_id by apply lookup_empty. rewrite bool_decide_eq_true_2 by done.
    rewrite delete_insert_eq, delete_id by done. destruct r; cbn. f_equal. lia.
Qed.

Lemma length_concat_frags l : len (concat (l.*2) : list byte) = frag_sum l.
Proof.
  induction l as [|[o b] l IH]; [done|]. cbn. rewrite length_app, Nat2N.inj_add. cbn in IH. lia.
Qed.

Lemma frags_elem_insert o b (l : list (N * list byte)) : bt_get o l = None → bt_insert o b l ≠ [].
Proof. intros Hn E. pose proof (length_bt_insert o b l Hn) as Hl. by rewrite E in Hl. Qed.

Lemma grow_ok lim t f now :
  frags_ok 0 (t_total_len t) (t_fragments t) → t_retained_bytes t = frag_sum (t_fragments t) →
  (t_total_len t ≤ max_logical_message_size lim)%N →
  fi_bytes f ≠ [] → (fi_offset f + len (fi_bytes f) ≤ t_total_len t)%N →
  bt_get (fi_offset f) (t_fragments t) = None →
  (∀ o b, (o, b) ∈ t_fragments t → o + len b ≤ fi_offset f ∨ fi_offset f + len (fi_bytes f) ≤ o)%N →
  (len (t_fragments t) < max_fragments_per_message lim)%N →
  let t' := grow t f now in
  (t_retained_bytes t' ≤ t_total_len t')%N ∧ t_retained_bytes t' = frag_sum (t_fragments t') ∧
  (t_retained_bytes t' ≠ t_total_len t' → transfer_ok lim t').
Proof.
  intros Hf Hs Hlog Hb He Hg Hd Hc t'.
  assert (Hf' : frags_ok 0 (t_total_len t') (t_fragments t')) by (apply frags_ok_insert; auto; lia).
  assert (Hs' : t_retained_bytes t' = frag_sum (t_fragments t')).
  { cbn. rewrite frag_sum_insert by done. lia. }
  pose proof (frags_ok_sum _ _ _ Hf'). split_and!; [lia|done|].
  intros Hne. constructor; auto; [lia|by apply frags_elem_insert|].
  cbn. rewrite length_bt_insert by done. lia.
Qed.

(** Common postcondition of one fragment. *)
Definition accept_post r (f : FragmentInput)
    (res : option (Reassembler P * N * result ReceiveOutcome FrameError)) : Prop :=
  ∃ r' ev o, res = Some (r', ev, o) ∧ wf r' ∧ r_limits r' = r_limits r ∧
    ∀ payload, o = Ok (Complete payload) → blake3_hash payload = fi_id f ∧ len payload = fi_total_len f.

Lemma finish_post r0 r peer f t now ev :
  wf r → r_limits r = r_limits r0 → fi_total_len f = t_total_len t →
  old_bytes (get_transfer r peer (fi_id f)) = t_retained_bytes t →
  (is_Some (get_transfer r peer (fi_id f)) ∨
   N.of_nat (peer_transfers r peer) < max_incomplete_transfers_per_peer (r_limits r))%N →
  byte_room (r_limits r) peer (len (fi_bytes f)) r →
  let t' := grow t f now in
  t_retained_bytes t' = frag_sum (t_fragments t') →
  (t_retained_bytes t' ≠ t_total_len t' → transfer_ok (r_limits r) t') →
  accept_post r0 f ('(r, o) ← finish r peer (fi_id f) t' (len (fi_bytes f)); Some (r, ev, o)).
Proof.
  intros Hr Hlim Htot Hold Hslot Hroom t' Hsum Hok. unfold finish, accept_post.
  assert (Hret : t_retained_bytes t' = (old_bytes (get_transfer r peer (fi_id f)) + len (fi_bytes f))%N)
    by (rewrite Hold; done).
  case_test; cbn [negb] in *.
  - eexists _, _, _. split; [done|]. split_and!; [|done|done]. apply put_transfer_wf; auto.
  - rewrite remove_put_transfer by done.
    assert (Hlen : len (concat ((t_fragments t').*2)) = fi_total_len f)
      by (rewrite length_concat_frags, <- Hsum, Htot; done).
    case_decide; eexists _, _, _; (split; [done|]); (split_and!;
      [by apply remove_transfer_wf|by rewrite remove_transfer_limits|]); [|done].
    intros p [= <-]. done.
Qed.

Lemma touch_wf r peer id t now :
  wf r → get_transfer r peer id = Some t → wf (insert_transfer r peer id (touch_transfer t now)).
Proof.
  intros Hr Hg. assert (E : insert_transfer r peer id (touch_transfer t now)
    = put_transfer r peer id (touch_transfer t now) 0).
  { unfold insert_transfer, put_transfer. by rewrite !N.add_0_r. }
  rewrite E. pose proof Hg as (s & Hs & Ht)%bind_Some. pose proof (wf_peers _ Hr _ _ Hs) as Hp.
  apply put_transfer_wf; auto.
  - destruct (po_transfers _ _ Hp _ _ Ht). by constructor.
  - unfold byte_room, peer_bytes. rewrite Hs. pose proof (po_bytes _ _ Hp). pose proof (wf_total _ Hr). lia.
  - rewrite Hg. cbn. lia.
Qed.

Lemma accept_fragment_post r peer f now ev :
  wf r → accept_post r f (accept_fragment blake3_hash r peer f now ev).
Proof.
  intros Hr. assert (Hstay : ∀ e ev', accept_post r f (Some (r, ev', Err e)))
    by (intros; eexists _, _, _; by split_and!).
  unfold accept_fragment. case_decide as Hb; [done|]. case_test; [done|]. case_test; [done|].
  unfold checked_add. case_test; [|done]. case_test; [done|].
  destruct (get_transfer r peer (fi_id f)) as [t|] eqn:Hg.
  - pose proof Hg as (s & Hs & Ht)%bind_Some.
    pose proof (po_transfers _ _ (wf_peers _ Hr _ _ Hs) _ _ Ht) as Hok.
    case_test; [done|]. destruct (bt_get (fi_offset f) (t_fragments t)) as [b|] eqn:Hget.
    + case_decide; [|done]. eexists _, _, _. split; [done|]. split_and!; [by apply touch_wf|done|done].
    + case_test; [done|]. case_test; [done|].
      destruct (make_byte_room_spec r peer (fi_id f) (len (fi_bytes f)) ev Hr)
        as (r' & ev' & res & -> & HI & _ & Hres). cbn [mbind option_bind].
      destruct HI as [Hw Hl Hg']. rewrite Hg in Hg'.
      destruct Hres as [[-> Hroom]|[-> _]]; [|by eexists _, _, _; split_and!].
      rewrite (store_existing _ _ _ _ _ Hg').
      destruct (grow_ok (r_limits r') t f now) as (_ & Hsum & Hok'); try apply Hok; auto.
      * rewrite Hl. apply Hok.
      * lia.
      * eapply overlaps_false; [apply Hok| |done]. pose proof (to_size _ _ Hok).
        pose proof (lo_logical _ (wf_limits _ Hr)). lia.
      * rewrite Hl. done.
      * apply finish_post; auto; rewrite ?Hg', ?Hl; auto.
  - destruct (make_transfer_slot_spec r peer (fi_id f) (len (fi_bytes f)) ev Hr)
      as (r1 & ev1 & res1 & -> & [Hw1 Hl1 Hg1] & Hslot & Hres1). cbn [mbind option_bind].
    destruct Hres1 as [->|[-> _]]; [|by eexists _, _, _; split_and!].
    destruct (make_byte_room_spec r1 peer (fi_id f) (len (fi_bytes f)) ev1 Hw1)
      as (r2 & ev2 & res2 & -> & [Hw2 Hl2 Hg2] & Hcnt & Hres2). cbn [mbind option_bind].
    rewrite Hl1 in *. rewrite Hg1, Hg in *. specialize (Hslot eq_refl).
    destruct Hres2 as [[-> Hroom]|[-> _]]; [|by eexists _, _, _; split_and!].
    change {| t_total_len := _ |} with (empty_transfer (fi_total_len f) now). rewrite store_new.
    destruct (grow_ok (r_limits r2) (empty_transfer (fi_total_len f) now) f now) as (_ & Hsum & Hok');
      auto; cbn; rewrite ?Hl2; try lia; [by intros ? ? ?%not_elem_of_nil|].
    apply finish_post; auto; rewrite ?Hg2, ?Hl2; auto. right. lia.
Qed.

Lemma expire_wf r now : wf r → wf (expire r now).1 ∧ r_limits (expire r now).1 = r_limits r.
Proof. intros. split; [by apply fold_remove_wf|apply fold_remove_limits]. Qed.

Lemma accept_spec r peer bytes now :
  wf r → ∃ r' rep, accept blake3_hash r peer bytes now = Some (r', rep) ∧ wf r' ∧
    r_limits r' = r_limits r ∧ rr_retained_bytes rep = retained_bytes r'.
Proof.
  intros Hr. unfold accept. destruct (expire_wf r now Hr) as [Hw Hl].
  destruct (expire r now) as [r1 ex]. cbn in Hw, Hl.
  destruct (head bytes) as [tag|]; [|eexists _, _; by split_and!].
  case_test; [case_test; eexists _, _; by split_and!|].
  do 2 (case_test; [eexists _, _; by split_and!|]).
  destruct (accept_fragment_post r1 peer (fragment_input bytes) now 0 Hw)
    as (r' & ev & o & -> & Hw' & Hl' & _). cbn [mbind option_bind].
  eexists _, _. split_and!; [done|done|congruence|done].
Qed.
End inv.
