(* ===== verification/ReassemblyComplete.v ===== *)
(** * Delivery: fragments of one message in any order reassemble to that message

    A transfer is [consistent] with a message when every retained fragment is the message's own
    bytes at that offset. Delivering further pieces keeps it so, and the piece that covers the last
    gap completes with exactly the message, whatever other transfers have to be evicted for it. *)
From stdpp Require Import gmap list sorting.
From Stdlib Require Import NArith.
From Stdlib.Strings Require Import Byte.
From S2P Require Import Prelude Bytes Btree Framing Reassembly ReassemblyInv.

(** [(o, b)] is the piece of [m] at offset [o]. *)
Definition piece_of (m : list byte) (x : N * list byte) : Prop :=
  x.2 ≠ [] ∧ (x.1 + len x.2 ≤ len m)%N ∧ x.2 = slice (N.to_nat x.1) (N.to_nat x.1 + length x.2) m.

Definition disjoint_frags (x y : N * list byte) : Prop :=
  (x.1 + len x.2 ≤ y.1 ∨ y.1 + len y.2 ≤ x.1)%N.

Definition covered (l : list (N * list byte)) (i : N) : Prop :=
  ∃ o b, (o, b) ∈ l ∧ (o ≤ i < o + len b)%N.

Lemma covered_sum c total l :
  frags_ok c total l → (∀ i, (c ≤ i < total)%N → covered l i) → (c + frag_sum l = total)%N.
Proof.
  revert c; induction l as [|[o b] l IH]; intros c; cbn.
  - intros Hc Hcov. destruct (N.eq_dec c total) as [|Hne]; [lia|].
    destruct (Hcov c) as (? & ? & ?%not_elem_of_nil & _); [lia|done].
  - intros (Hco & Hb & Hl) Hcov. pose proof (frags_ok_sum _ _ _ Hl). pose proof (len_pos b Hb).
    assert (Ho : c = o).
    { destruct (Hcov c) as (o' & b' & [[= -> ->]|Hin]%elem_of_cons & Hi); [lia|lia|].
      destruct (frags_ok_elem _ _ _ _ _ Hl Hin). lia. }
    rewrite <- (IH (o + len b)%N Hl); [lia|]. intros i Hi.
    destruct (Hcov i) as (o' & b' & [[= -> ->]|Hin]%elem_of_cons & Hi'); [lia|lia|]. by exists o', b'.
Qed.

Lemma sum_covered c total l i :
  frags_ok c total l → (c + frag_sum l = total)%N → (c ≤ i < total)%N → covered l i.
Proof.
  revert c; induction l as [|[o b] l IH]; intros c; cbn; [lia|].
  intros (Hco & Hb & Hl) Hs Hi. pose proof (frags_ok_sum _ _ _ Hl).
  destruct (N.lt_ge_cases i (o + len b)) as [Hlt|Hge].
  - exists o, b. split; [left|lia].
  - destruct (IH (o + len b)%N Hl) as (o' & b' & Hin & ?); [lia|lia|]. exists o', b'. split; [by right|done].
Qed.

(** Contiguous pieces of [m] concatenate to a suffix of [m]. *)
Lemma concat_pieces m c l :
  frags_ok c (len m) l → (c + frag_sum l = len m)%N → Forall (piece_of m) l →
  concat (l.*2) = drop (N.to_nat c) m.
Proof.
  revert c; induction l as [|[o b] l IH]; intros c; cbn.
  - intros _ Hs _. rewrite drop_ge by lia. done.
  - intros (Hco & Hb & Hl) Hs [Hp Hps]%Forall_cons. pose proof (frags_ok_sum _ _ _ Hl).
    assert (c = o) as <- by lia. rewrite (IH (c + len b)%N) by (try done; lia).
    destruct Hp as (_ & Hle & Hsl). cbn in *. rewrite Hsl at 1. unfold slice.
    replace (N.to_nat c + length b - N.to_nat c) with (length b) by lia.
    replace (N.to_nat (c + len b)) with (N.to_nat c + length b) by lia.
    rewrite <- drop_drop. apply take_drop.
Qed.

Section complete.
Context {P : Type} `{Countable P, RustOrd P}.
Context (blake3_hash : list byte → id32).
Implicit Types (r : Reassembler P) (peer : P) (id : id32) (now : N).

(** Room for the whole message [m], on its own, under the limits. *)
Record fits (lim : ReassemblyLimits) (m : list byte) (pieces : nat) : Prop := {
  fit_logical : (len m ≤ max_logical_message_size lim)%N;
  fit_peer : (len m ≤ max_reassembly_bytes_per_peer lim)%N;
  fit_total : (len m ≤ max_total_reassembly_bytes lim)%N;
  fit_slots : (0 < max_incomplete_transfers_per_peer lim)%N;
  fit_pieces : (N.of_nat pieces ≤ max_fragments_per_message lim)%N;
}.

(** When only the protected transfer is left, the peer and the total hold exactly its bytes. *)
Lemma alone_peer_bytes r peer id :
  wf r → oldest_for_peer r peer (Some id) = None →
  peer_bytes r peer = old_bytes (get_transfer r peer id) ∧
  (get_transfer r peer id = None → peer_transfers r peer = 0).
Proof.
  intros Hr Hn. pose proof (oldest_for_peer_None r peer id) as Hall.
  unfold peer_bytes, peer_transfers, get_transfer in *.
  destruct (r_peers r !! peer) as [s|] eqn:Hs; [cbn in *|done].
  pose proof (wf_peers _ Hr _ _ Hs) as Hp.
  assert (Hrest : delete id (ps_transfers s) = ∅).
  { apply map_empty. intros i. destruct (decide (id = i)) as [<-|Hne]; [apply lookup_delete_eq|].
    rewrite lookup_delete_ne by done. destruct (ps_transfers s !! i) as [t|] eqn:Hi; [|done].
    destruct Hne. symmetry. by eapply Hall. }
  rewrite (po_sum _ _ Hp). destruct (ps_transfers s !! id) as [t|] eqn:Ht; cbn.
  - split; [|done]. rewrite (map_sum_delete _ _ _ _ Ht), Hrest, map_sum_empty. lia.
  - rewrite delete_id in Hrest by done. by destruct (po_nonempty _ _ Hp).
Qed.

Lemma alone_total_bytes r peer id :
  wf r → oldest_global r (Some (peer, id)) = None →
  r_total_retained_bytes r = old_bytes (get_transfer r peer id).
Proof.
  intros Hr Hn. pose proof (oldest_global_None r (peer, id)) as Hall.
  assert (Hpn : oldest_for_peer r peer (Some id) = None).
  { destruct (oldest_for_peer r peer (Some id)) as [i|] eqn:E; [|done].
    apply oldest_for_peer_Some in E as [Hne [t Ht]]. destruct Hne.
    specialize (Hall _ _ _ Hn Ht). congruence. }
  destruct (alone_peer_bytes r peer id Hr Hpn) as [Hb Hc].
  assert (Hrest : delete peer (r_peers r) = ∅).
  { apply map_empty. intros p. destruct (decide (peer = p)) as [<-|Hne]; [apply lookup_delete_eq|].
    rewrite lookup_delete_ne by done. destruct (r_peers r !! p) as [s|] eqn:Hp; [|done].
    destruct (map_choose _ (po_nonempty _ _ (wf_peers _ Hr _ _ Hp))) as (i & t & Ht).
    destruct Hne. assert (E : get_transfer r p i = Some t) by (unfold get_transfer; by rewrite Hp).
    specialize (Hall _ _ _ Hn E). congruence. }
  rewrite (wf_sum _ Hr). rewrite <- Hb. unfold peer_bytes.
  destruct (r_peers r !! peer) as [s|] eqn:Hs.
  - rewrite (map_sum_delete _ _ _ _ Hs), Hrest, map_sum_empty. lia.
  - rewrite delete_id in Hrest by done. by rewrite Hrest.
Qed.

Lemma make_byte_room_fits r peer id n ev :
  wf r →
  (old_bytes (get_transfer r peer id) + n ≤ max_reassembly_bytes_per_peer (r_limits r))%N →
  (old_bytes (get_transfer r peer id) + n ≤ max_total_reassembly_bytes (r_limits r))%N →
  ∃ r' ev', make_byte_room r peer id n ev = Some (r', ev', Ok tt) ∧
    room_inv (r_limits r) peer id (get_transfer r peer id) r' ∧
    peer_transfers r' peer ≤ peer_transfers r peer.
Proof.
  intros Hr H1 H2. destruct (make_byte_room_spec r peer id n ev Hr)
    as (r' & ev' & res & -> & HI & Hc & Hres).
  destruct Hres as [[-> _]|[_ [[Hn Hlt]|[Hn Hlt]]]]; [by eexists _, _| |]; exfalso.
  - destruct (alone_peer_bytes r' peer id (ri_wf _ _ _ _ _ HI) Hn) as [Hb _].
    rewrite (ri_protected _ _ _ _ _ HI) in Hb. lia.
  - pose proof (alone_total_bytes r' peer id (ri_wf _ _ _ _ _ HI) Hn) as Hb.
    rewrite (ri_protected _ _ _ _ _ HI) in Hb. lia.
Qed.

Lemma make_transfer_slot_fits r peer id n ev :
  wf r → get_transfer r peer id = None →
  (n ≤ max_reassembly_bytes_per_peer (r_limits r))%N → (n ≤ max_total_reassembly_bytes (r_limits r))%N →
  (0 < max_incomplete_transfers_per_peer (r_limits r))%N →
  ∃ r' ev', make_transfer_slot r peer id n ev = Some (r', ev', Ok tt) ∧
    room_inv (r_limits r) peer id None r' ∧
    (N.of_nat (peer_transfers r' peer) < max_incomplete_transfers_per_peer (r_limits r))%N.
Proof.
  intros Hr Hg H1 H2 H3. destruct (make_transfer_slot_spec r peer id n ev Hr)
    as (r' & ev' & res & -> & HI & Hslot & Hres). rewrite Hg in HI.
  destruct Hres as [->|[_ [?|[?|[Hn Hle]]]]]; [|lia|lia|].
  - exists r', ev'. split_and!; auto.
  - exfalso. destruct (alone_peer_bytes r' peer id (ri_wf _ _ _ _ _ HI) Hn) as [_ Hc].
    rewrite Hc in Hle by apply HI. lia.
Qed.

(** *** One more piece *)

Definition msg_input (m : list byte) id (x : N * list byte) : FragmentInput :=
  {| fi_id := id; fi_total_len := len m; fi_offset := x.1; fi_bytes := x.2 |}.

(** The retained state of transfer [id] is the set of pieces [ps] of message [m], last touched at
    [t]; nothing is retained when [ps] is empty. *)
Definition holds (m : list byte) (ps : list (N * list byte)) (t : N) (o : option Transfer) : Prop :=
  match o with
  | None => ps = []
  | Some tr => ps ≠ [] ∧ t_total_len tr = len m ∧ t_last_activity tr = t ∧
      ∀ x, x ∈ t_fragments tr ↔ x ∈ ps
  end.

Lemma grow_elem (t : Transfer) f now x :
  bt_sorted (t_fragments t) → bt_get (fi_offset f) (t_fragments t) = None →
  x ∈ t_fragments (grow t f now) ↔ x = (fi_offset f, fi_bytes f) ∨ x ∈ t_fragments t.
Proof.
  intros Hs Hg. cbn. split; [apply bt_insert_elem|].
  intros [->|Hin]; [by apply bt_get_In, bt_get_insert_eq|].
  destruct x as [o b]. apply bt_get_In.
  rewrite bt_get_insert_ne; [by apply bt_In_get|].
  intros <-. apply (bt_In_get _ _ _ Hs) in Hin. congruence.
Qed.

(** What one delivered piece answers, and what is then retained. *)
Definition step_ok (m : list byte) id peer ps x now
    (res : option (Reassembler P * N * result ReceiveOutcome FrameError)) : Prop :=
  ∃ r' ev' o, res = Some (r', ev', Ok o) ∧ wf r' ∧
    ((o = Duplicate ∧ x ∈ ps ∧ holds m ps now (get_transfer r' peer id)) ∨
     (o = Pending ∧ x ∉ ps ∧ holds m (x :: ps) now (get_transfer r' peer id)) ∨
     (o = Complete m ∧ x ∉ ps ∧ get_transfer r' peer id = None ∧
      (∀ i, (i < len m)%N → covered (x :: ps) i))).

(** The last stretch, from the transfer [t] (empty or retained) the piece is added to. *)
Lemma finish_step r peer m id ps x now t ev :
  wf r → blake3_hash m = id → Forall (piece_of m) (x :: ps) → x ∉ ps →
  (∀ y, y ∈ t_fragments t ↔ y ∈ ps) → t_total_len t = len m →
  old_bytes (get_transfer r peer id) = t_retained_bytes t →
  (is_Some (get_transfer r peer id) ∨
   N.of_nat (peer_transfers r peer) < max_incomplete_transfers_per_peer (r_limits r))%N →
  byte_room (r_limits r) peer (len x.2) r →
  frags_ok 0 (len m) (t_fragments t) → t_retained_bytes t = frag_sum (t_fragments t) →
  (len m ≤ max_logical_message_size (r_limits r))%N →
  bt_get x.1 (t_fragments t) = None → (∀ y, y ∈ ps → disjoint_frags y x) →
  (len (t_fragments t) < max_fragments_per_message (r_limits r))%N →
  step_ok m id peer ps x now
    ('(r, o) ← finish blake3_hash r peer id (grow t (msg_input m id x) now) (len x.2);
     Some (r, ev, o)).
Proof.
  intros Hr Hid Hps Hx Hel Htot Hold Hslot Hroom Hf Hsum Hlog Hget Hdis Hcnt.
  apply Forall_cons in Hps as [Hpx Hps].
  destruct (grow_ok (r_limits r) t (msg_input m id x) now) as (Hle & Hsum' & Hok);
    rewrite ?Htot; auto; [apply Hpx|apply Hpx|intros o b Hin; by apply (Hdis (o, b)), Hel|].
  set (t' := grow t (msg_input m id x) now) in *.
  assert (Hel' : ∀ y, y ∈ t_fragments t' ↔ y ∈ x :: ps).
  { intros y. unfold t'. rewrite grow_elem, elem_of_cons, Hel by (eauto using frags_ok_sorted). by destruct x. }
  unfold finish. case_test.
  - eexists _, _, _. split; [done|]. split.
    + apply put_transfer_wf; auto. change (t_retained_bytes t') with (t_retained_bytes t + len x.2)%N.
      by rewrite Hold.
    + right. left. split_and!; [done..|]. rewrite get_transfer_put, decide_True by done. cbn. auto.
  - assert (Hfr : frags_ok 0 (len m) (t_fragments t')).
    { unfold t'. cbn. apply frags_ok_insert; auto; [lia|apply Hpx|apply Hpx|].
      intros o b Hin. by apply (Hdis (o, b)), Hel. }
    change (t_total_len t') with (t_total_len t) in E.
    assert (Hasm : concat ((t_fragments t').*2) = m).
    { rewrite (concat_pieces m 0); [done|done|lia|].
      apply Forall_forall. intros y Hy%Hel'. rewrite Forall_forall in Hps.
      apply elem_of_cons in Hy as [->|]; auto. }
    rewrite Hasm, decide_True by done. eexists _, _, _. split; [done|]. split.
    + rewrite remove_put_transfer; [by apply remove_transfer_wf|done|]. by rewrite Hold.
    + right. right. split_and!; [done|done|by rewrite get_transfer_remove, decide_True|]. intros i Hi.
      destruct (sum_covered 0 (len m) (t_fragments t') i) as (o & b & Hin%Hel' & Hi'); [done|lia|lia|].
      by exists o, b.
Qed.

Lemma holds_length m ps t tr lim :
  transfer_ok lim tr → holds m ps t (Some tr) → length (t_fragments tr) ≤ length ps.
Proof.
  intros Hok (_ & _ & _ & Hel). apply submseteq_length, NoDup_submseteq.
  - pose proof (frags_ok_sorted _ _ _ (to_frags _ _ Hok)) as Hs.
    clear -Hs. induction Hs as [|x l Hs IH Hf]; constructor; [|done]. intros Hin.
    rewrite Forall_forall in Hf. specialize (Hf _ Hin). by rewrite ord_ltb_irrefl in Hf.
  - intros x. apply Hel.
Qed.

Lemma not_retained m ps x (l : list (N * list byte)) :
  Forall (piece_of m) (x :: ps) → x ∉ ps → (∀ y, y ∈ ps → y = x ∨ disjoint_frags y x) →
  (∀ y, y ∈ l ↔ y ∈ ps) → bt_get x.1 l = None.
Proof.
  intros [Hpx Hps]%Forall_cons Hx Hdis Hel. destruct (bt_get x.1 l) as [b|] eqn:E; [|done].
  apply bt_get_In, Hel in E. rewrite Forall_forall in Hps. pose proof (Hps _ E) as (Hb & _ & _).
  destruct Hpx as (Hbx & _ & _). apply len_pos in Hb, Hbx. cbn in *.
  destruct (Hdis _ E) as [Heq|Hd]; [by rewrite Heq in E|]. unfold disjoint_frags in Hd. cbn in Hd. lia.
Qed.

Lemma overlaps_disjoint total l s e :
  frags_ok 0 total l → (s < e)%N → (∀ o b, (o, b) ∈ l → o + len b ≤ s ∨ e ≤ o)%N → overlaps l s e = false.
Proof.
  intros Hok Hse Hd. unfold overlaps, bt_last_below, bt_first_from. apply orb_false_iff; split.
  - destruct (last _) as [[o b]|] eqn:E; [|done].
    apply last_Some_elem_of, list_elem_of_filter in E as [E1 E2]. cbn in E1.
    unfold ord_ltb in E1. cbn in E1. apply negb_true_iff, N.leb_gt in E1.
    apply N.ltb_ge. unfold saturating_add. destruct (Hd o b E2); lia.
  - destruct (head _) as [[o b]|] eqn:E; [|done].
    apply head_Some_elem_of, list_elem_of_filter in E as [E1 E2]. cbn in E1. apply N.leb_le in E1.
    destruct (frags_ok_elem _ _ _ _ _ Hok E2) as (_ & Hb & _). apply len_pos in Hb.
    apply N.ltb_ge. destruct (Hd o b E2); lia.
Qed.

Lemma wf_transfer r peer id tr : wf r → get_transfer r peer id = Some tr → transfer_ok (r_limits r) tr.
Proof. intros Hr (s & Hs & Ht)%bind_Some. by eapply (po_transfers _ _ (wf_peers _ Hr _ _ Hs)). Qed.

(** Room for a piece beside the retained ones, which are other pieces of the same message. *)
Lemma pieces_room m l x :
  frags_ok 0 (len m) l → piece_of m x → bt_get x.1 l = None → (∀ o b, (o, b) ∈ l → disjoint_frags (o, b) x) →
  (frag_sum l + len x.2 ≤ len m)%N.
Proof.
  intros Hl (Hb & He & _) Hget Hd.
  assert (Hok : frags_ok 0 (len m) (bt_insert x.1 x.2 l)).
  { apply frags_ok_insert; [done|lia|done|done|exact Hd]. }
  apply frags_ok_sum in Hok. rewrite frag_sum_insert in Hok by done. lia.
Qed.

Lemma deliver_step r peer m id ps t0 x now ev n :
  wf r → blake3_hash m = id → fits (r_limits r) m n → length (x :: ps) ≤ n →
  Forall (piece_of m) (x :: ps) → (∀ y, y ∈ ps → y = x ∨ disjoint_frags y x) →
  holds m ps t0 (get_transfer r peer id) →
  step_ok m id peer ps x now (accept_fragment blake3_hash r peer (msg_input m id x) now ev).
Proof.
  intros Hr Hid [Hf1 Hf2 Hf3 Hf4 Hf5] Hn Hps Hdis Hh.
  pose proof Hps as [(Hb & He & Hsl) Hps']%Forall_cons. cbn [length] in Hn.
  pose proof (lo_logical _ (wf_limits _ Hr)) as Hlog.
  unfold accept_fragment. cbn [msg_input fi_bytes fi_total_len fi_offset fi_id].
  rewrite decide_False by done. rewrite (proj2 (N.ltb_ge _ _)) by done.
  rewrite (proj2 (N.eqb_neq _ _)) by lia. unfold checked_add.
  rewrite (proj2 (N.leb_le _ _)) by lia. rewrite (proj2 (N.ltb_ge _ _)) by done.
  destruct (get_transfer r peer id) as [tr|] eqn:Hg.
  - pose proof (wf_transfer _ _ _ _ Hr Hg) as Hok. pose proof (holds_length _ _ _ _ _ Hok Hh) as Hlen.
    destruct Hh as (Hne & Htot & _ & Hel). rewrite Htot, N.eqb_refl. cbn [negb].
    pose proof (to_frags _ _ Hok) as Hfr. rewrite Htot in Hfr.
    destruct (decide (x ∈ ps)) as [Hx|Hx].
    + rewrite (bt_In_get x.1 x.2); [|by eapply frags_ok_sorted|by destruct x; apply Hel].
      rewrite decide_True by done. eexists _, _, _. split; [done|]. split; [by apply touch_wf|].
      left. split_and!; [done..|]. unfold insert_transfer, get_transfer. cbn [r_peers].
      rewrite lookup_insert_eq. cbn. rewrite lookup_insert_eq. cbn. auto.
    + assert (Hget : bt_get x.1 (t_fragments tr) = None) by (by eapply not_retained).
      assert (Hd : ∀ o b, (o, b) ∈ t_fragments tr → disjoint_frags (o, b) x).
      { intros o b Hin%Hel. destruct (Hdis _ Hin) as [E|?]; [by rewrite E in Hin|done]. }
      pose proof (pieces_room _ _ _ Hfr (conj Hb (conj He Hsl)) Hget Hd) as Hroom.
      rewrite Hget, (overlaps_disjoint (len m)) by (first [exact Hd | exact Hfr | apply len_pos in Hb; lia]).
      rewrite (proj2 (N.leb_gt _ _)) by lia.
      destruct (make_byte_room_spec r peer id (len x.2) ev Hr) as (r' & ev' & res & E & HI & _ & Hres).
      destruct (make_byte_room_fits r peer id (len x.2) ev Hr) as (r'' & ev'' & E' & _);
        [rewrite Hg; cbn; rewrite (to_sum _ _ Hok); lia..|].
      rewrite E in E'. injection E' as <- <- ->. rewrite E. cbn [mbind option_bind].
      destruct HI as [Hw Hl Hg']. rewrite Hg in Hg'. destruct Hres as [[_ Hbr]|[? _]]; [|done].
      rewrite (store_existing _ _ _ (msg_input m id x) _ _ Hg'). cbn [fi_id fi_bytes msg_input].
      apply finish_step; rewrite ?Hl, ?Hg'; auto; [apply Hok| |lia].
      intros y Hy. by destruct (Hdis _ Hy) as [->|].
  - cbn in Hh. subst ps.
    destruct (make_transfer_slot_fits r peer id (len x.2) ev Hr) as (r1 & ev1 & -> & [Hw1 Hl1 Hg1] & Hslot);
      [done|lia..|]. cbn [mbind option_bind].
    destruct (make_byte_room_spec r1 peer id (len x.2) ev1 Hw1) as (r' & ev' & res & E & HI & Hc & Hres).
    destruct (make_byte_room_fits r1 peer id (len x.2) ev1 Hw1) as (r'' & ev'' & E' & _);
      [rewrite Hg1, Hl1; cbn; lia..|].
    rewrite E in E'. injection E' as <- <- ->. rewrite E. cbn [mbind option_bind].
    destruct HI as [Hw Hl Hg']. rewrite Hg1 in Hg'. rewrite Hl1 in *. destruct Hres as [[_ Hbr]|[? _]]; [|done].
    change {| t_total_len := _ |} with (empty_transfer (fi_total_len (msg_input m id x)) now).
    change id with (fi_id (msg_input m id x)) at 2.
    rewrite store_new. cbn [fi_id fi_bytes fi_total_len msg_input].
    apply finish_step; rewrite ?Hl, ?Hg'; auto; try (cbn; lia);
      [apply not_elem_of_nil|by intros ? ?%not_elem_of_nil].
Qed.

(** *** Expiry leaves an active transfer alone *)

Lemma get_transfer_fold_remove r peer id (l : list (P * id32 * Transfer)) :
  get_transfer (fold_left (λ r '(peer, id, _), remove_transfer r peer id) l r) peer id
  = if decide ((peer, id) ∈ l.*1) then None else get_transfer r peer id.
Proof.
  revert r; induction l as [|[[p i] t] l IH]; intros r; cbn [fold_left].
  - rewrite decide_False; [done|]. apply not_elem_of_nil.
  - rewrite IH, get_transfer_remove. rewrite fmap_cons. cbn [fst].
    destruct (decide ((p, i) = (peer, id))) as [->|Hne].
    + rewrite (decide_True (P := (peer, id) ∈ (peer, id) :: l.*1)) by left. by case_decide.
    + repeat case_decide; try done; rewrite elem_of_cons in *; naive_solver.
Qed.

Lemma get_transfer_expire r peer id now :
  (∀ t, get_transfer r peer id = Some t → now - t_last_activity t < reassembly_ttl (r_limits r))%N →
  get_transfer (expire r now).1 peer id = get_transfer r peer id.
Proof.
  intros Hfresh. unfold expire. cbn [fst]. rewrite get_transfer_fold_remove.
  case_decide as Hin; [|done]. apply list_elem_of_fmap in Hin as ([[p i] t] & [= <- <-] & Hin).
  apply list_elem_of_filter in Hin as [Hexp Hg%elem_all_transfers].
  apply Hfresh in Hg. unfold saturating_sub in Hexp. bool_to_prop. lia.
Qed.

(** *** Wire frames of a message *)

Definition frame_of (m : list byte) (x : N * list byte) : list byte :=
  match write_fragment (blake3_hash m) (len m) x.1 x.2 with Ok w => w | Err _ => [] end.

Lemma frame_of_parsed m x :
  length (blake3_hash m) = 32 → (len m ≤ u32_max)%N → piece_of m x →
  parsed_as (frame_of m x) (blake3_hash m) (len m) x.1 x.2.
Proof.
  intros Hid Hm (Hb & He & _). unfold frame_of.
  destruct (write_fragment (blake3_hash m) (len m) x.1 x.2) as [w|] eqn:Hw; [by apply write_fragment_parsed|].
  exfalso. revert Hw. unfold write_fragment, ok_or, u32_try_from. apply len_pos in Hb.
  rewrite !(proj2 (N.leb_le _ _)) by lia. done.
Qed.

Lemma accept_frame_progress r peer m x now :
  length (blake3_hash m) = 32 → (len m ≤ u32_max)%N → piece_of m x →
  accept blake3_hash r peer (frame_of m x) now
  = let '(r, ex) := expire r now in
    '(r, ev, o) ← accept_fragment blake3_hash r peer (msg_input m (blake3_hash m) x) now 0;
    Some (r, report r o ex ev true).
Proof.
  intros Hid Hm Hx. destruct (frame_of_parsed m x Hid Hm Hx) as [Htag Hlen Hi Ht Ho Hp].
  unfold accept. destruct (expire r now) as [r1 ex]. rewrite Htag.
  rewrite bool_decide_eq_false_2, bool_decide_eq_false_2 by naive_solver.
  rewrite (proj2 (Nat.ltb_ge _ _)) by lia. unfold fragment_input. by rewrite Hi, Ht, Ho, Hp.
Qed.

(** A receiver fed frames at given times, with the outcome of each. *)
Fixpoint receive_all r peer (l : list (list byte * N))
    : option (Reassembler P * list (result ReceiveOutcome FrameError)) :=
  match l with
  | [] => Some (r, [])
  | (w, now) :: l =>
      '(r, rep) ← accept blake3_hash r peer w now;
      '(r, os) ← receive_all r peer l;
      Some (r, outcome rep :: os)
  end.

(** Consecutive arrivals less than [ttl] apart. *)
Fixpoint paced (ttl t : N) (times : list N) : Prop :=
  match times with [] => True | now :: times => (now - t < ttl)%N ∧ paced ttl now times end.

Lemma receive_step r peer m ps t0 x now n :
  wf r → length (blake3_hash m) = 32 → (len m ≤ u32_max)%N →
  fits (r_limits r) m n → length (x :: ps) ≤ n →
  Forall (piece_of m) (x :: ps) → (∀ y, y ∈ ps → y = x ∨ disjoint_frags y x) →
  holds m ps t0 (get_transfer r peer (blake3_hash m)) →
  (now - t0 < reassembly_ttl (r_limits r))%N →
  ∃ r' rep, accept blake3_hash r peer (frame_of m x) now = Some (r', rep) ∧ r_limits r' = r_limits r ∧
    step_ok m (blake3_hash m) peer ps x now
      (match outcome rep with Ok o => Some (r', evicted_transfers rep, Ok o) | Err _ => None end).
Proof.
  intros Hr Hid Hm Hfit Hn Hps Hdis Hh Hnow.
  rewrite accept_frame_progress by (try done; by apply Forall_cons in Hps as [? _]).
  destruct (expire_wf r now Hr) as [Hw Hl].
  assert (Hg : get_transfer (expire r now).1 peer (blake3_hash m) = get_transfer r peer (blake3_hash m)).
  { apply get_transfer_expire. intros t Ht. rewrite Ht in Hh. destruct Hh as (_ & _ & -> & _). done. }
  destruct (expire r now) as [r1 ex]. cbn [fst] in *. rewrite <- Hl in Hfit. rewrite <- Hg in Hh.
  destruct (accept_fragment_post blake3_hash r1 peer (msg_input m (blake3_hash m) x) now 0 Hw)
    as (r' & ev & o & E & _ & Hl' & _).
  pose proof (deliver_step r1 peer m _ ps t0 x now 0 n Hw eq_refl Hfit Hn Hps Hdis Hh) as Hs.
  rewrite E in *. cbn [mbind option_bind]. eexists _, _. split; [done|]. split; [congruence|]. cbn.
  destruct Hs as (r2 & ev2 & o2 & [= <- <- ->] & ? & ?). by eexists _, _, _.
Qed.

Definition progress (o : result ReceiveOutcome FrameError) : Prop := o = Ok Pending ∨ o = Ok Duplicate.

Lemma receive_pieces peer m x n todo times :
  length (blake3_hash m) = 32 → (len m ≤ u32_max)%N →
  ∀ r seen t0,
  wf r → fits (r_limits r) m n → length seen + length todo ≤ n → length todo = length times →
  Forall (piece_of m) (x :: seen ++ todo) → x ∉ seen ++ todo →
  (∀ y z, y ∈ x :: seen ++ todo → z ∈ x :: seen ++ todo → y = z ∨ disjoint_frags y z) →
  holds m seen t0 (get_transfer r peer (blake3_hash m)) → paced (reassembly_ttl (r_limits r)) t0 times →
  ∃ r' outs seen', receive_all r peer (zip (frame_of m <$> todo) times) = Some (r', outs) ∧
    Forall progress outs ∧ wf r' ∧ r_limits r' = r_limits r ∧ length seen' ≤ length seen + length todo ∧
    (∀ y, y ∈ seen' ↔ y ∈ seen ++ todo) ∧
    holds m seen' (default t0 (last times)) (get_transfer r' peer (blake3_hash m)).
Proof.
  intros Hid Hm. revert times. induction todo as [|y todo IH]; intros [|now times] r seen t0;
    try done; intros Hr Hfit Hn Hlen Hps Hx Hdis Hh Hpace.
  - exists r, [], seen. rewrite app_nil_r. split_and!; auto. cbn; lia.
  - cbn in Hpace. destruct Hpace as [Hnow Hpace]. cbn [length] in *.
    destruct (receive_step r peer m seen t0 y now n) as (r1 & rep & Eacc & Hl1 & Hst); auto.
    { cbn; lia. }
    { apply Forall_forall. intros z Hz. rewrite Forall_forall in Hps. apply Hps. set_solver. }
    { intros z Hz. apply Hdis; set_solver. }
    destruct Hst as (r2 & ev & o & Eo & Hw1 & Hcase).
    destruct (outcome rep) as [o'|] eqn:Eout; [|done]. injection Eo as <- <- <-.
    assert (Hgo : ∀ seen1, (∀ z, z ∈ seen1 ↔ z ∈ y :: seen) → length seen1 ≤ S (length seen) →
      holds m seen1 now (get_transfer r1 peer (blake3_hash m)) → progress (Ok o') →
      ∃ r' outs seen', receive_all r peer (zip (frame_of m <$> y :: todo) (now :: times)) = Some (r', outs) ∧
        Forall progress outs ∧ wf r' ∧ r_limits r' = r_limits r ∧
        length seen' ≤ length seen + S (length todo) ∧ (∀ y0, y0 ∈ seen' ↔ y0 ∈ seen ++ y :: todo) ∧
        holds m seen' (default t0 (last (now :: times))) (get_transfer r' peer (blake3_hash m))).
    { intros seen1 Hel Hlen1 Hh1 Hprog.
      assert (Hsub : ∀ z, z ∈ seen1 ++ todo ↔ z ∈ seen ++ y :: todo).
      { intros z. rewrite !elem_of_app, Hel, !elem_of_cons. tauto. }
      destruct (IH times r1 seen1 now) as (r' & outs & seen' & Er & ? & ? & Hl' & Hls & Hel' & Hh'); auto.
      - by rewrite Hl1.
      - lia.
      - apply Forall_forall. intros z Hz. rewrite Forall_forall in Hps. apply Hps.
        rewrite elem_of_cons in *. rewrite <- Hsub. done.
      - by rewrite Hsub.
      - intros a b Ha Hb. apply Hdis; rewrite elem_of_cons in *; rewrite <- Hsub; done.
      - by rewrite Hl1.
      - exists r', (Ok o' :: outs), seen'. split_and!; auto.
        + rewrite fmap_cons. cbn [zip_with receive_all]. rewrite Eacc. cbn [mbind option_bind].
          rewrite Er. cbn [mbind option_bind]. by rewrite Eout.
        + congruence.
        + lia.
        + intros z. by rewrite Hel'.
        + rewrite last_cons. by destruct (last times). }
    destruct Hcase as [(-> & Hin & Hh1)|[(-> & Hin & Hh1)|(-> & _ & _ & Hcov)]].
    + apply (Hgo seen); auto; [set_solver|by right].
    + apply (Hgo (y :: seen)); auto; by left.
    + exfalso. rewrite Forall_forall in Hps. destruct (Hps x) as (Hb & He & _); [left|]. apply len_pos in Hb.
      destruct (Hcov x.1) as (o & b & Hin & Hi); [lia|].
      destruct (Hdis x (o, b)) as [->|Hd]; [set_solver..| |].
      * apply Hx. set_solver.
      * unfold disjoint_frags in Hd. cbn in Hd. lia.
Qed.
End complete.
