(* ===== verification/Missing.v ===== *)
(** * Missing-range reports ([gossip/src/framing/recovery.rs], the [Reassembler] part)

    Which byte ranges of an incomplete transfer to ask for, rate-limited per transfer and capped
    per report and per tick. *)
From stdpp Require Import gmap list sorting.
From Stdlib Require Import NArith.
From Stdlib.Strings Require Import Byte.
From S2P Require Import Prelude Bytes Btree Framing Reassembly ReassemblyInv ReassemblyComplete.

(** [n as u32] *)
Definition as_u32 (n : N) : N := n mod 4294967296.

(** The loop over the retained fragments: [inl] is the early return at the limit. *)
Fixpoint missing_loop (max_ranges : N) (fragments : list (N * list byte)) (cursor : N)
    (ranges : list (N * N)) : list (N * N) + (N * list (N * N)) :=
  match fragments with
  | [] => inr (cursor, ranges)
  | (offset, bytes) :: fragments =>
      if (cursor <? offset)%N then
        let ranges := ranges ++ [(as_u32 cursor, as_u32 (offset - cursor))] in
        if (len ranges =? max_ranges)%N then inl ranges
        else missing_loop max_ranges fragments (offset + len bytes) ranges
      else missing_loop max_ranges fragments (offset + len bytes) ranges
  end.

Definition missing_ranges_for_transfer (transfer : Transfer) (max_ranges : N) : list (N * N) :=
  if (max_ranges =? 0)%N then []
  else
    match missing_loop max_ranges (t_fragments transfer) 0 [] with
    | inl ranges => ranges
    | inr (cursor, ranges) =>
        if (cursor <? t_total_len transfer)%N
        then ranges ++ [(as_u32 cursor, as_u32 (t_total_len transfer - cursor))]
        else ranges
    end.

Definition set_last_missing (t : Transfer) (now : N) : Transfer :=
  {| t_total_len := t_total_len t; t_fragments := t_fragments t;
     t_retained_bytes := t_retained_bytes t; t_last_activity := t_last_activity t;
     t_last_missing_request := Some now |}.

Record MissingRequest (P : Type) := {
  mr_peer : P;
  mr_transfer_id : id32;
  mr_ranges : list (N * N);
}.
Arguments mr_peer {P} _.
Arguments mr_transfer_id {P} _.
Arguments mr_ranges {P} _.

Section missing.
Context {P : Type} `{Countable P, RustOrd P}.
Implicit Types (r : Reassembler P) (peer : P) (now : N).

Definition missing_ranges r peer (transfer_id : id32) (max_ranges : N) : list (N * N) :=
  if (max_ranges =? 0)%N then []
  else
    match get_transfer r peer transfer_id with
    | None => []
    | Some transfer => missing_ranges_for_transfer transfer max_ranges
    end.

(** [last_missing_request] is younger than [retry_interval] *)
Definition asked_recently (t : Transfer) now (retry_interval : N) : bool :=
  match t_last_missing_request t with
  | Some last => (saturating_sub now last <? retry_interval)%N
  | None => false
  end.

Definition missing_ranges_if_due r peer (transfer_id : id32) now (retry_interval max_ranges : N)
    : Reassembler P * list (N * N) :=
  if (max_ranges =? 0)%N then (r, [])
  else
    match get_transfer r peer transfer_id with
    | None => (r, [])
    | Some transfer =>
        if asked_recently transfer now retry_interval then (r, [])
        else
          let ranges := missing_ranges_for_transfer transfer max_ranges in
          match ranges with
          | [] => (r, ranges)
          | _ => (insert_transfer r peer transfer_id (set_last_missing transfer now), ranges)
          end
    end.

Definition key_le (a b : P * id32) : Prop := ord_leb a b = true.
#[local] Instance key_le_dec : RelDecision key_le.
Proof. intros a b. unfold key_le. apply _. Defined.

Definition idle_candidates r now (min_idle retry_interval : N) : list (P * id32) :=
  omap (λ '(peer, id, t),
    let idle := (min_idle <=? saturating_sub now (t_last_activity t))%N in
    let due := negb (asked_recently t now retry_interval) in
    if idle && due then Some (peer, id) else None) (all_transfers r).

Fixpoint poll_loop r now (max_ranges max_reports : N) (candidates : list (P * id32))
    (reports : list (MissingRequest P)) : Reassembler P * list (MissingRequest P) :=
  match candidates with
  | [] => (r, reports)
  | (peer, id) :: candidates =>
      if (max_reports <=? len reports)%N then (r, reports)
      else
        match get_transfer r peer id with
        | None => poll_loop r now max_ranges max_reports candidates reports
        | Some transfer =>
            let ranges := missing_ranges_for_transfer transfer max_ranges in
            match ranges with
            | [] => poll_loop r now max_ranges max_reports candidates reports
            | _ => poll_loop (insert_transfer r peer id (set_last_missing transfer now)) now
                     max_ranges max_reports candidates
                     (reports ++ [{| mr_peer := peer; mr_transfer_id := id; mr_ranges := ranges |}])
            end
        end
  end.

Definition poll_idle_missing r now (min_idle retry_interval max_ranges max_reports : N)
    : Reassembler P * list (MissingRequest P) :=
  if (max_ranges =? 0)%N then (r, [])
  else if (max_reports =? 0)%N then (r, [])
  else poll_loop r now max_ranges max_reports
         (merge_sort key_le (idle_candidates r now min_idle retry_interval)) [].

(** *** Reports leave everything but the retry timer as it was *)

Lemma set_last_missing_wf r peer id t now :
  wf r → get_transfer r peer id = Some t →
  wf (insert_transfer r peer id (set_last_missing t now)).
Proof.
  intros Hr Hg. assert (E : insert_transfer r peer id (set_last_missing t now)
    = put_transfer r peer id (set_last_missing t now) 0).
  { unfold insert_transfer, put_transfer. by rewrite !N.add_0_r. }
  rewrite E. pose proof Hg as (s & Hs & Ht)%bind_Some. pose proof (wf_peers _ Hr _ _ Hs) as Hp.
  apply put_transfer_wf; auto.
  - destruct (po_transfers _ _ Hp _ _ Ht). by constructor.
  - unfold byte_room, peer_bytes. rewrite Hs. pose proof (po_bytes _ _ Hp). pose proof (wf_total _ Hr). lia.
  - rewrite Hg. cbn. lia.
Qed.

Lemma missing_if_due_wf r peer id now ri max :
  wf r → wf (missing_ranges_if_due r peer id now ri max).1 ∧
    r_limits (missing_ranges_if_due r peer id now ri max).1 = r_limits r.
Proof.
  intros Hr. unfold missing_ranges_if_due. case_test; [done|].
  destruct (get_transfer r peer id) as [t|] eqn:Hg; [|done]. case_test; [done|].
  destruct (missing_ranges_for_transfer t max); [done|]. split; [by apply set_last_missing_wf|done].
Qed.

Lemma poll_loop_wf r now mr mx l reps :
  wf r → wf (poll_loop r now mr mx l reps).1 ∧ r_limits (poll_loop r now mr mx l reps).1 = r_limits r.
Proof.
  revert r reps; induction l as [|[p i] l IH]; intros r reps Hr; cbn [poll_loop]; [done|].
  case_test; [done|]. destruct (get_transfer r p i) as [t|] eqn:Hg; [|auto].
  destruct (missing_ranges_for_transfer t mr); [auto|].
  by edestruct (IH (insert_transfer r p i (set_last_missing t now))); [apply set_last_missing_wf|].
Qed.

Lemma poll_loop_bound r now mr mx l reps :
  (len reps ≤ mx)%N → (len (poll_loop r now mr mx l reps).2 ≤ mx)%N.
Proof.
  revert r reps; induction l as [|[p i] l IH]; intros r reps Hr; cbn [poll_loop]; [done|].
  case_test; [done|]. destruct (get_transfer r p i) as [t|] eqn:Hg; [|auto].
  destruct (missing_ranges_for_transfer t mr); [auto|]. apply IH. rewrite length_app. cbn. lia.
Qed.
End missing.

(** ** The reported ranges are the gaps *)

(** Reference: all gaps between the retained fragments, from [c]. *)
Fixpoint gaps (c total : N) (l : list (N * list byte)) : list (N * N) :=
  match l with
  | [] => if (c <? total)%N then [(c, total - c)%N] else []
  | (o, b) :: l => (if (c <? o)%N then [(c, o - c)%N] else []) ++ gaps (o + len b) total l
  end.

Definition in_range (i : N) (g : N * N) : Prop := (g.1 ≤ i < g.1 + g.2)%N.

Lemma gaps_exact c total l i :
  frags_ok c total l → (c ≤ i < total)%N → (Exists (in_range i) (gaps c total l) ↔ ¬ covered l i).
Proof.
  revert c; induction l as [|[o b] l IH]; intros c; cbn [gaps frags_ok].
  - intros Hc Hi. rewrite (proj2 (N.ltb_lt _ _)) by lia. split.
    + intros _ (? & ? & ?%not_elem_of_nil & _). done.
    + intros _. constructor. unfold in_range. cbn. lia.
  - intros (Hco & Hb & Hl) Hi. apply len_pos in Hb. pose proof (frags_ok_sum _ _ _ Hl) as Hsum.
    rewrite Exists_app.
    assert (Hhead : Exists (in_range i) (if (c <? o)%N then [(c, (o - c)%N)] else []) ↔ (i < o)%N).
    { case_test; rewrite ?Exists_cons, Exists_nil; unfold in_range; cbn; lia. }
    rewrite Hhead. assert (Hcov : covered ((o, b) :: l) i ↔ (o ≤ i < o + len b)%N ∨ covered l i).
    { split.
      - intros (o' & b' & [[= -> ->]|Hin]%elem_of_cons & Hi'); [by left|right; by exists o', b'].
      - intros [Hi'|(o' & b' & Hin & Hi')]; [exists o, b; split; [left|done]|exists o', b'; split; [by right|done]]. }
    rewrite Hcov. assert (Hlow : covered l i → (o + len b ≤ i)%N).
    { intros (o' & b' & Hin & Hi'). destruct (frags_ok_elem _ _ _ _ _ Hl Hin). lia. }
    assert (Hglow : Exists (in_range i) (gaps (o + len b) total l) → (o + len b ≤ i)%N).
    { clear -Hl. intros (g & Hin & Hg)%Exists_exists. unfold in_range in Hg.
      cut (o + len b ≤ g.1)%N; [lia|]. clear Hg. revert Hl Hin. generalize (o + len b)%N as d.
      induction l as [|[o' b'] l IH]; intros d Hl Hin; cbn in *.
      - case_test_in Hin; [by apply list_elem_of_singleton in Hin as ->|by apply not_elem_of_nil in Hin].
      - destruct Hl as (? & _ & Hl). apply elem_of_app in Hin as [Hin|Hin].
        + case_test_in Hin; [apply list_elem_of_singleton in Hin as ->; done|by apply not_elem_of_nil in Hin].
        + specialize (IH _ Hl Hin). lia. }
    destruct (N.lt_ge_cases i (o + len b)) as [Hlt|Hge].
    + split; [intros [?|?%Hglow]; lia || (intros [?|?%Hlow]; lia)|]. intros Hn. left.
      destruct (N.lt_ge_cases i o); [done|]. destruct Hn. left. lia.
    + rewrite (IH _ Hl) by lia. intuition lia.
Qed.

Lemma gaps_valid c e total l :
  (e ≤ c)%N → (total ≤ u32_max)%N → frags_ok c total l → validate_ranges_from e (gaps c total l) = Ok tt.
Proof.
  intros Hec Ht. revert c e Hec. induction l as [|[o b] l IH]; intros c e Hec; cbn [gaps frags_ok].
  - intros Hc. case_test; [|done]. cbn. rewrite (proj2 (N.eqb_neq _ _)) by lia.
    unfold ok_or, u32_try_from. rewrite (proj2 (N.leb_le _ _)) by lia. by rewrite (proj2 (N.ltb_ge _ _)).
  - intros (Hco & _ & Hl). pose proof (frags_ok_sum _ _ _ Hl). case_test; cbn [app].
    + cbn [validate_ranges_from]. rewrite (proj2 (N.eqb_neq _ _)) by lia.
      unfold ok_or, u32_try_from. rewrite (proj2 (N.leb_le _ _)) by lia.
      rewrite (proj2 (N.ltb_ge _ _)) by done. apply IH; [lia|done].
    + apply IH; [lia|done].
Qed.

Lemma as_u32_id n : (n ≤ u32_max)%N → as_u32 n = n.
Proof. unfold u32_max. intros. apply N.mod_small. lia. Qed.

Lemma missing_loop_spec max l c total ranges :
  (len ranges < max)%N → (total ≤ u32_max)%N → frags_ok c total l →
  match missing_loop max l c ranges with
  | inl rs => rs
  | inr (c', rs) => if (c' <? total)%N then rs ++ [(as_u32 c', as_u32 (total - c'))] else rs
  end = take (N.to_nat max) (ranges ++ gaps c total l).
Proof.
  intros Hr Ht. revert c ranges Hr. induction l as [|[o b] l IH]; intros c ranges Hr Hl;
    cbn [missing_loop gaps frags_ok] in *.
  - case_test; [|rewrite app_nil_r; rewrite take_ge by lia; done].
    rewrite !as_u32_id by lia. rewrite take_ge; [done|]. rewrite length_app. cbn. lia.
  - destruct Hl as (Hco & _ & Hl). pose proof (frags_ok_sum _ _ _ Hl).
    case_test; [|by apply IH].
    rewrite !as_u32_id by lia. rewrite length_app, Nat2N.inj_add. cbn [length].
    case_test.
    + rewrite app_assoc. rewrite take_app_length'; [done|]. rewrite length_app. cbn. lia.
    + rewrite IH by (try done; rewrite length_app; cbn; lia). rewrite <- app_assoc. done.
Qed.

Lemma missing_ranges_take t max :
  (t_total_len t ≤ u32_max)%N → frags_ok 0 (t_total_len t) (t_fragments t) →
  missing_ranges_for_transfer t max = take (N.to_nat max) (gaps 0 (t_total_len t) (t_fragments t)).
Proof.
  intros Ht Hf. unfold missing_ranges_for_transfer. case_test; [by subst|].
  pose proof (missing_loop_spec max (t_fragments t) 0 (t_total_len t) []) as Hs. cbn [app] in Hs.
  rewrite <- Hs; [|cbn; lia|done|done].
  by destruct (missing_loop _ _ _ _) as [|[]].
Qed.
