(* ===== verification/ReassemblyProps.v ===== *)
(** * What reassembly and selective recovery promise

    Safety for every input sequence, delivery for every order of arrival, exactness and rate
    limits of missing-range reports, and completion by selective retransmission. *)
From stdpp Require Import gmap list sorting.
From Stdlib Require Import NArith.
From Stdlib.Strings Require Import Byte.
From S2P Require Import Prelude Bytes Btree Framing Reassembly ReassemblyInv ReassemblyComplete Missing.

Section ops.
Context {P : Type} `{Countable P, RustOrd P}.
Context (blake3_hash : list byte → id32).
Implicit Types (r : Reassembler P) (peer : P).

(** Everything that mutates a reassembler. *)
Inductive RecvOp :=
| OpAccept (peer : P) (bytes : list byte) (now : N)
| OpExpire (now : N)
| OpMissingIfDue (peer : P) (id : id32) (now retry_interval max_ranges : N)
| OpPollIdle (now min_idle retry_interval max_ranges max_reports : N).

Definition exec_op r (op : RecvOp) : option (Reassembler P) :=
  match op with
  | OpAccept peer bytes now => fst <$> accept blake3_hash r peer bytes now
  | OpExpire now => Some (expire r now).1
  | OpMissingIfDue peer id now ri mx => Some (missing_ranges_if_due r peer id now ri mx).1
  | OpPollIdle now mi ri mx rep => Some (poll_idle_missing r now mi ri mx rep).1
  end.

Fixpoint exec_ops r (ops : list RecvOp) : option (Reassembler P) :=
  match ops with [] => Some r | op :: ops => r ← exec_op r op; exec_ops r ops end.

Lemma exec_op_wf r op : wf r → ∃ r', exec_op r op = Some r' ∧ wf r' ∧ r_limits r' = r_limits r.
Proof.
  intros Hr. destruct op as [peer bytes now|now|peer id now ri mx|now mi ri mx rep]; cbn [exec_op].
  - destruct (accept_spec blake3_hash r peer bytes now Hr) as (r1 & rep & -> & ? & ? & _). by exists r1.
  - destruct (expire_wf r now Hr). eauto.
  - destruct (missing_if_due_wf r peer id now ri mx Hr). eauto.
  - eexists. split; [done|]. unfold poll_idle_missing. do 2 (case_test; [done|]). by apply poll_loop_wf.
Qed.

Lemma exec_ops_wf r ops : wf r → ∃ r', exec_ops r ops = Some r' ∧ wf r' ∧ r_limits r' = r_limits r.
Proof.
  revert r; induction ops as [|op ops IH]; intros r Hr; cbn [exec_ops]; [by exists r|].
  destruct (exec_op_wf r op Hr) as (r1 & -> & Hw & Hl). cbn [mbind option_bind].
  destruct (IH r1 Hw) as (r' & -> & ? & ?). exists r'. split_and!; [done|done|congruence].
Qed.

(** A peer holding the pieces [seen] of [m] completes with the piece covering the last gap. *)
Lemma receive_completes peer m n todo ts x now r seen t0 :
  length (blake3_hash m) = 32 → (len m ≤ u32_max)%N →
  wf r → fits (r_limits r) m n → length seen + length todo < n → length todo = length ts →
  Forall (piece_of m) (x :: seen ++ todo) → x ∉ seen ++ todo →
  (∀ y z, y ∈ x :: seen ++ todo → z ∈ x :: seen ++ todo → y = z ∨ disjoint_frags y z) →
  (∀ i, (i < len m)%N → covered (x :: seen ++ todo) i) →
  holds m seen t0 (get_transfer r peer (blake3_hash m)) →
  paced (reassembly_ttl (r_limits r)) t0 (ts ++ [now]) →
  ∃ r' outs, receive_all blake3_hash r peer (zip (frame_of blake3_hash m <$> todo ++ [x]) (ts ++ [now]))
      = Some (r', outs ++ [Ok (Complete m)]) ∧
    Forall progress outs ∧ wf r' ∧ get_transfer r' peer (blake3_hash m) = None.
Proof.
  intros Hid Hm Hr Hfit Hn Hlen Hps Hx Hdis Hcov Hh Hpace.
  assert (Hp1 : paced (reassembly_ttl (r_limits r)) t0 ts ∧
    (now - default t0 (last ts) < reassembly_ttl (r_limits r))%N).
  { clear -Hpace. revert t0 Hpace. induction ts as [|t ts IH]; intros t0; cbn [app paced];
      [intros [? _]; done|]. intros [? [? Hl]%IH]. split; [done|]. rewrite last_cons.
    by destruct (last ts). }
  destruct Hp1 as [Hp1 Hlast].
  destruct (receive_pieces blake3_hash peer m x n todo ts Hid Hm r seen t0)
    as (r1 & outs & seen1 & E1 & Hprog & Hw1 & Hl1 & Hln & Hel & Hh1); auto; [lia|].
  destruct (receive_step blake3_hash r1 peer m seen1 (default t0 (last ts)) x now n)
    as (r2 & rep & E2 & _ & Hst); auto.
  { by rewrite Hl1. } { cbn; lia. }
  { apply Forall_cons in Hps as [? Hps]. constructor; [done|]. rewrite Forall_forall in *.
    intros y Hy%Hel. auto. }
  { intros y Hy%Hel. apply Hdis; set_solver. } { by rewrite Hl1. }
  assert (Eapp : ∀ l l' r0, receive_all blake3_hash r0 peer (l ++ l')
    = '(r0, os) ← receive_all blake3_hash r0 peer l; '(r0, os') ← receive_all blake3_hash r0 peer l'; Some (r0, os ++ os')).
  { clear. induction l as [|[w t] l IH]; intros l' r0; cbn [app receive_all mbind option_bind].
    - by destruct (receive_all _ r0 peer l') as [[? ?]|].
    - destruct (accept blake3_hash r0 peer w t) as [[r1 rep]|]; [cbn|done]. rewrite IH.
      destruct (receive_all _ r1 peer l) as [[r2 os]|]; [cbn|done].
      by destruct (receive_all _ r2 peer l') as [[? ?]|]. }
  rewrite fmap_app, zip_with_app by (rewrite length_fmap; done). rewrite Eapp, E1.
  cbn [mbind option_bind fmap list_fmap zip_with receive_all]. rewrite E2. cbn [mbind option_bind].
  destruct Hst as (r3 & ev & o & Eo & Hw2 & Hcase).
  destruct (outcome rep) as [o'|]; [|done]. injection Eo as <- <- <-.
  destruct Hcase as [(-> & Hin%Hel & _)|[(-> & Hin & Hh2)|(-> & _ & Hnone & _)]]; [done| |by exists r2, outs].
  exfalso. destruct (get_transfer r2 peer (blake3_hash m)) as [tr|] eqn:Hg; [|by apply (f_equal length) in Hh2].
  destruct Hh2 as (_ & Htot & _ & Hfr). pose proof (wf_transfer _ _ _ _ Hw2 Hg) as [Hok Hsum Hinc _ _ _].
  rewrite Htot in *. assert (0 + frag_sum (t_fragments tr) = len m)%N; [|lia].
  apply covered_sum; [done|]. intros i [_ Hi]. destruct (Hcov i Hi) as (o & b & Hin' & Hi').
  exists o, b. split; [|done]. apply Hfr. rewrite elem_of_cons in *. by rewrite Hel.
Qed.
End ops.

(** ** Cutting the reported gaps out of the message *)

Definition cut (m : list byte) (g : N * N) : N * list byte :=
  (g.1, slice (N.to_nat g.1) (N.to_nat (g.1 + g.2)) m).

Lemma gaps_shape c total l :
  frags_ok c total l →
  StronglySorted (λ g h : N * N, g.1 + g.2 ≤ h.1)%N (gaps c total l) ∧
  Forall (λ g : N * N, c ≤ g.1 ∧ 0 < g.2 ∧ g.1 + g.2 ≤ total)%N (gaps c total l).
Proof.
  revert c; induction l as [|[o b] l IH]; intros c; cbn [gaps frags_ok].
  - intros Hc. case_test; repeat constructor; cbn; lia.
  - intros (Hco & Hb & Hl). destruct (IH _ Hl) as [Hs Hf]. pose proof (frags_ok_sum _ _ _ Hl).
    case_test; cbn [app].
    + split; constructor; cbn; auto.
      * eapply Forall_impl; [done|]. cbn. lia.
      * lia.
      * eapply Forall_impl; [done|]. cbn. lia.
    + split; [done|]. eapply Forall_impl; [done|]. cbn. lia.
Qed.

Lemma length_cut m g : (g.1 + g.2 ≤ len m)%N → len (cut m g).2 = g.2.
Proof. intros. cbn. rewrite length_slice by lia. lia. Qed.

Lemma cut_piece m g : (0 < g.2)%N → (g.1 + g.2 ≤ len m)%N → piece_of m (cut m g).
Proof.
  intros H1 H2. pose proof (length_cut m g H2) as Hl. split_and!.
  - intros E. rewrite E in Hl. cbn in Hl. lia.
  - rewrite Hl. done.
  - cbn [fst snd cut] in *. f_equal. lia.
Qed.

Lemma overlap_point (x y : N * list byte) :
  x.2 ≠ [] → y.2 ≠ [] → ¬ disjoint_frags x y →
  ∃ i, (x.1 ≤ i < x.1 + len x.2)%N ∧ (y.1 ≤ i < y.1 + len y.2)%N.
Proof.
  intros Hx%len_pos Hy%len_pos Hd. exists (N.max x.1 y.1). unfold disjoint_frags in Hd. lia.
Qed.

Instance disjoint_frags_dec x y : Decision (disjoint_frags x y).
Proof. unfold disjoint_frags. apply _. Defined.

Lemma cut_gaps_disjoint m l x g :
  frags_ok 0 (len m) l → x ∈ l → g ∈ gaps 0 (len m) l → disjoint_frags (cut m g) x.
Proof.
  intros Hl Hx Hg. destruct (gaps_shape 0 (len m) l Hl) as [_ Hf]. rewrite Forall_forall in Hf.
  destruct (Hf _ Hg) as (_ & Hp & Hle). destruct x as [o b].
  destruct (frags_ok_elem _ _ _ _ _ Hl Hx) as (_ & Hb & He).
  destruct (decide (disjoint_frags (cut m g) (o, b))) as [|Hnd]; [done|].
  destruct (overlap_point (cut m g) (o, b)) as (i & Hi1 & Hi2); [apply cut_piece; lia|done|done|].
  rewrite length_cut in Hi1 by lia. cbn in Hi1, Hi2.
  assert (Hex : ¬ covered l i); [|destruct Hex; by exists o, b].
  apply (gaps_exact 0 (len m)); [done|lia|]. apply Exists_exists. by exists g.
Qed.

Lemma cut_gaps_pairwise m G :
  StronglySorted (λ g h : N * N, g.1 + g.2 ≤ h.1)%N G →
  Forall (λ g : N * N, 0 ≤ g.1 ∧ 0 < g.2 ∧ g.1 + g.2 ≤ len m)%N G →
  (∀ x y, x ∈ cut m <$> G → y ∈ cut m <$> G → x = y ∨ disjoint_frags x y) ∧ NoDup (cut m <$> G).
Proof.
  intros Hs. induction Hs as [|g G Hs IH Hg]; cbn [fmap list_fmap].
  { split; [by intros ? ? ?%not_elem_of_nil|constructor]. }
  intros [Hp Hf]%Forall_cons.
  destruct (IH Hf) as [Hd Hnd]. rewrite Forall_forall in Hg, Hf.
  assert (Hgd : ∀ x, x ∈ cut m <$> G → disjoint_frags (cut m g) x ∧ cut m g ≠ x).
  { intros x (h & -> & Hh)%list_elem_of_fmap. specialize (Hg _ Hh). specialize (Hf _ Hh). cbn in Hg, Hf.
    split; [left; rewrite length_cut by lia; cbn; lia|]. intros E. apply (f_equal fst) in E. cbn in E. lia. }
  split; [|constructor; [intros Hin; by apply (Hgd _ Hin)|done]].
  intros x y [->|Hx]%elem_of_cons [->|Hy]%elem_of_cons; auto; right; [by apply Hgd|].
  destruct (Hgd _ Hx) as [[?|?] _]; unfold disjoint_frags; auto.
Qed.

Lemma frags_pairwise c total l y z :
  frags_ok c total l → y ∈ l → z ∈ l → y = z ∨ disjoint_frags y z.
Proof.
  revert c; induction l as [|[o b] l IH]; intros c Hf Hy Hz; [by apply not_elem_of_nil in Hy|].
  destruct Hf as (? & ? & Hf). apply elem_of_cons in Hy, Hz.
  destruct Hy as [->|Hy], Hz as [->|Hz]; [by left| | |by eapply IH]; right.
  - destruct z as [o' b']. destruct (frags_ok_elem _ _ _ _ _ Hf Hz). left. cbn. lia.
  - destruct y as [o' b']. destruct (frags_ok_elem _ _ _ _ _ Hf Hy). right. cbn. lia.
Qed.

Lemma gaps_cover m l i :
  frags_ok 0 (len m) l → (i < len m)%N → covered ((cut m <$> gaps 0 (len m) l) ++ l) i.
Proof.
  intros Hf Hi. destruct (gaps_shape 0 (len m) _ Hf) as [_ Hforall].
  destruct (decide (Exists (in_range i) (gaps 0 (len m) l))) as [Hex|Hnex].
  - apply Exists_exists in Hex as (g & Hin & Hg'). exists (cut m g).1, (cut m g).2. split.
    + apply elem_of_app; left. apply list_elem_of_fmap. exists g. done.
    + rewrite Forall_forall in Hforall. destruct (Hforall _ Hin) as (_ & _ & ?).
      rewrite length_cut by done. done.
  - destruct (decide (Exists (λ x : N * list byte, x.1 ≤ i < x.1 + len x.2)%N l)) as [Hc|Hc].
    + apply Exists_exists in Hc as ([o b] & Hin & Hi'). exists o, b. split; [by apply elem_of_app; right|done].
    + destruct Hnex. apply (gaps_exact 0 (len m)); [done|lia|].
      intros (o & b & Hin & Hi'). apply Hc. apply Exists_exists. by exists (o, b).
Qed.

(** The pieces a repair sends: non-empty, pairwise disjoint, disjoint from what is held. *)
Lemma cut_gaps_pieces m l :
  frags_ok 0 (len m) l →
  let ps := cut m <$> gaps 0 (len m) l in
  Forall (piece_of m) ps ∧ NoDup ps ∧
  (∀ x y, x ∈ ps → y ∈ ps → x = y ∨ disjoint_frags x y) ∧
  (∀ x y, x ∈ ps → y ∈ l → disjoint_frags x y).
Proof.
  intros Hf ps. destruct (gaps_shape 0 (len m) _ Hf) as [Hsorted Hforall].
  destruct (cut_gaps_pairwise m _ Hsorted Hforall) as [Hpair Hnd]. split_and!; auto.
  - apply Forall_forall. intros x (g & -> & Hg')%list_elem_of_fmap. rewrite Forall_forall in Hforall.
    destruct (Hforall _ Hg') as (_ & ? & ?). by apply cut_piece.
  - intros x y (g & -> & Hg')%list_elem_of_fmap Hy. by eapply cut_gaps_disjoint.
Qed.

(** ** Properties *)

(** A stand-in for the hash in the witnesses: the first 32 bytes, padded. *)
Definition pad32 (m : list byte) : id32 := take 32 (m ++ replicate 32 x00).

Definition demo_limits : ReassemblyLimits :=
  {| max_logical_message_size := 100; max_fragments_per_message := 8;
     max_incomplete_transfers_per_peer := 2; max_reassembly_bytes_per_peer := 50;
     max_total_reassembly_bytes := 60; reassembly_ttl := 1000 |}.

Lemma demo_limits_ok : limits_ok demo_limits.
Proof. constructor; vm_compute; congruence. Defined.

(** C20. Any sequence of frames (from any peers, with any contents, at any times),
    expiries and missing-range polls runs without a panic and leaves the reassembler within every
    configured limit, with exact byte accounting and disjoint in-bounds fragments ([wf]). *)
Theorem reassembler_always_within_limits {P} `{Countable P, RustOrd P} blake3_hash lim
    (ops : list (RecvOp (P := P))) :
  limits_ok lim →
  ∃ r', exec_ops blake3_hash (for_identity lim) ops = Some r' ∧ wf r' ∧
    (retained_bytes r' ≤ max_total_reassembly_bytes lim)%N ∧
    (∀ peer, peer_bytes r' peer ≤ max_reassembly_bytes_per_peer lim ∧
             N.of_nat (peer_transfers r' peer) ≤ max_incomplete_transfers_per_peer lim)%N.
Proof.
  intros Hlim. destruct (exec_ops_wf blake3_hash (for_identity lim) ops (wf_for_identity lim Hlim))
    as (r' & E & Hw & Hl). cbn in Hl. exists r'. split_and!; auto.
  - rewrite <- Hl. apply Hw.
  - intros peer. unfold peer_bytes, peer_transfers. rewrite <- Hl.
    destruct (r_peers r' !! peer) as [s|] eqn:Hs; [|lia].
    destruct (wf_peers _ Hw _ _ Hs). done.
Qed.

Lemma reassembler_always_within_limits_witness :
  let ops := [OpAccept 7%N (frame_of pad32 [x01; x02; x03] (0%N, [x01])) 5; OpExpire 6] in
  ∃ r', exec_ops pad32 (for_identity demo_limits) ops = Some r' ∧ wf r' ∧
    (retained_bytes r' ≤ 60)%N ∧
    (∀ peer, peer_bytes r' peer ≤ 50 ∧ N.of_nat (peer_transfers r' peer) ≤ 2)%N.
Proof. apply (reassembler_always_within_limits pad32 demo_limits). apply demo_limits_ok. Defined.

(** C6. Whatever subset [seen] of a message's pieces is already held, any further
    sequence of its fragment frames (any order, duplicates allowed) that ends with the piece
    covering the last gap answers Pending or Duplicate on the way and then completes with exactly
    the message, even when other transfers must be evicted to make room. *)
Theorem fragments_complete_in_any_order {P} `{Countable P, RustOrd P} blake3_hash
    (peer : P) m n todo ts x now (r : Reassembler P) seen t0 :
  length (blake3_hash m) = 32 → (len m ≤ u32_max)%N →
  wf r → fits (r_limits r) m n → length seen + length todo < n → length todo = length ts →
  Forall (piece_of m) (x :: seen ++ todo) → x ∉ seen ++ todo →
  (∀ y z, y ∈ x :: seen ++ todo → z ∈ x :: seen ++ todo → y = z ∨ disjoint_frags y z) →
  (∀ i, (i < len m)%N → covered (x :: seen ++ todo) i) →
  holds m seen t0 (get_transfer r peer (blake3_hash m)) →
  paced (reassembly_ttl (r_limits r)) t0 (ts ++ [now]) →
  ∃ r' outs, receive_all blake3_hash r peer (zip (frame_of blake3_hash m <$> todo ++ [x]) (ts ++ [now]))
      = Some (r', outs ++ [Ok (Complete m)]) ∧
    Forall progress outs ∧ get_transfer r' peer (blake3_hash m) = None.
Proof.
  intros. edestruct (receive_completes blake3_hash peer m n todo ts x now r seen t0)
    as (r' & outs & ? & ? & _ & ?); eauto.
Qed.

Lemma fragments_complete_in_any_order_witness :
  let m := [x01; x02; x03; x04] in
  let todo := [(2%N, [x03; x04]); (2%N, [x03; x04])] in
  ∃ r' outs, receive_all pad32 (for_identity (P := N) demo_limits) 7%N
      (zip (frame_of pad32 m <$> todo ++ [(0%N, [x01; x02])]) ([10; 20] ++ [30])%N)
      = Some (r', outs ++ [Ok (Complete m)]) ∧
    Forall progress outs ∧ get_transfer r' 7%N (pad32 m) = None.
Proof.
  intros m todo. apply (fragments_complete_in_any_order pad32 7%N m 4 todo [10; 20]%N (0%N, [x01; x02]) 30
    (for_identity demo_limits) [] 0).
  - reflexivity.
  - vm_compute. discriminate.
  - apply wf_for_identity, demo_limits_ok.
  - constructor; vm_compute; congruence.
  - vm_compute. lia.
  - reflexivity.
  - repeat (apply Forall_cons; split; [split; [discriminate|split; vm_compute; congruence]|]). apply Forall_nil_2.
  - apply (bool_decide_unpack _). vm_compute. exact I.
  - intros y z Hy Hz. unfold todo in Hy, Hz. cbn [app] in Hy, Hz.
    rewrite !elem_of_cons, elem_of_nil in Hy, Hz. destruct Hy as [->|[->|[->|[]]]], Hz as [->|[->|[->|[]]]]; auto;
       right; unfold disjoint_frags; cbn; lia.
  - intros i Hi. cbn in Hi. destruct (N.lt_ge_cases i 2).
    + exists 0%N, [x01; x02]. split; [left|cbn; lia].
    + exists 2%N, [x03; x04]. split; [right; left|cbn; lia].
  - reflexivity.
  - vm_compute. auto.
Defined.

(** A report's ranges are missing bytes in ascending disjoint order within the
    limit, always encodable; and when the limit does not truncate it, a byte is reported exactly
    when no retained fragment covers it. *)
Theorem missing_ranges_exact {P} `{Countable P, RustOrd P} (r : Reassembler P) peer id t max :
  wf r → get_transfer r peer id = Some t → (t_total_len t ≤ u32_max)%N → (max ≤ u16_max)%N →
  let rs := missing_ranges r peer id max in
  (len rs ≤ max)%N ∧ is_ok (write_missing_report id rs) = true ∧
  (∀ i, Exists (in_range i) rs → (i < t_total_len t)%N ∧ ¬ covered (t_fragments t) i) ∧
  ((len (gaps 0 (t_total_len t) (t_fragments t)) ≤ max)%N → ∀ i, (i < t_total_len t)%N →
    ¬ covered (t_fragments t) i → Exists (in_range i) rs).
Proof.
  intros Hr Hg Ht Hmax rs. destruct (wf_transfer _ _ _ _ Hr Hg) as [Hf _ _ _ _ _].
  assert (Ers : rs = take (N.to_nat max) (gaps 0 (t_total_len t) (t_fragments t))).
  { unfold rs, missing_ranges. rewrite Hg. case_test; [by subst|]. by apply missing_ranges_take. }
  rewrite Ers. clear rs Ers. set (G := gaps 0 (t_total_len t) (t_fragments t)).
  assert (Hlen : (len (take (N.to_nat max) G) ≤ max)%N) by (rewrite length_take; lia).
  split_and!.
  - done.
  - unfold write_missing_report, u16_try_from, ok_or. rewrite (proj2 (N.leb_le _ _)) by lia.
    assert (Hpre : ∀ n e L, validate_ranges_from e L = Ok tt → validate_ranges_from e (take n L) = Ok tt).
    { clear. intros n e L. revert n e; induction L as [|[o l] L IH]; intros [|n] e; cbn; try done.
      unfold ok_or. case_test; [done|]. destruct (u32_try_from (o + l)); [|done].
      case_test; [done|]. apply IH. }
    unfold validate_ranges. rewrite Hpre; [done|]. apply gaps_valid; [lia|done|done].
  - intros i Hi. assert (HiG : Exists (in_range i) G).
    { apply Exists_exists in Hi as (g & Hin & Hg'). apply Exists_exists. exists g.
      split; [|done]. apply elem_of_take in Hin as (j & Hj & _). by eapply list_elem_of_lookup_2. }
    destruct (gaps_shape 0 _ _ Hf) as [_ Hs]. fold G in Hs.
    assert (Hit : (i < t_total_len t)%N).
    { apply Exists_exists in HiG as (g & Hin & Hg'). rewrite Forall_forall in Hs.
      specialize (Hs _ Hin). unfold in_range in Hg'. lia. }
    split; [done|]. apply (gaps_exact 0 (t_total_len t)); [done|lia|done].
  - intros HG i Hi Hnc. rewrite take_ge by (fold G in HG; lia).
    apply (gaps_exact 0 (t_total_len t)); [done|lia|done].
Qed.

(** The receiver of the witnesses after one fragment of a nine-byte message. *)
Definition demo_msg : list byte := [x01; x02; x03; x04; x05; x06; x07; x08; x09].
Definition demo_frame : list byte := frame_of pad32 demo_msg (3%N, [x04; x05]).
Definition demo_state : Reassembler N :=
  match accept pad32 (for_identity demo_limits) 7%N demo_frame 10 with
  | Some (r, _) => r
  | None => for_identity demo_limits
  end.
Definition demo_transfer : Transfer :=
  {| t_total_len := 9; t_fragments := [(3%N, [x04; x05])]; t_retained_bytes := 2;
     t_last_activity := 10; t_last_missing_request := None |}.

Lemma demo_state_get : get_transfer demo_state 7%N (pad32 demo_msg) = Some demo_transfer.
Proof. vm_compute. reflexivity. Defined.

Lemma demo_state_wf : wf demo_state.
Proof.
  destruct (accept_spec pad32 (for_identity demo_limits) 7%N demo_frame 10
    (wf_for_identity _ demo_limits_ok)) as (r' & rep & E & Hw & _).
  unfold demo_state. rewrite E. exact Hw.
Defined.

Lemma missing_ranges_exact_witness :
  missing_ranges demo_state 7%N (pad32 demo_msg) 8 = [(0, 3); (5, 4)]%N ∧
  let rs := missing_ranges demo_state 7%N (pad32 demo_msg) 8 in
  (len rs ≤ 8)%N ∧ is_ok (write_missing_report (pad32 demo_msg) rs) = true ∧
  (∀ i, Exists (in_range i) rs → (i < 9)%N ∧ ¬ covered [(3%N, [x04; x05])] i) ∧
  ((len (gaps 0 9 [(3%N, [x04; x05])]) ≤ 8)%N → ∀ i, (i < 9)%N →
    ¬ covered [(3%N, [x04; x05])] i → Exists (in_range i) rs).
Proof.
  split; [vm_compute; reflexivity|].
  apply (missing_ranges_exact demo_state 7%N (pad32 demo_msg) demo_transfer 8).
  - apply demo_state_wf.
  - apply demo_state_get.
  - vm_compute. discriminate.
  - vm_compute. discriminate.
Defined.

(** Once a report for a transfer is emitted at [now], neither a terminal-fragment
    trigger nor an idle poll asks for that transfer again before [retry_interval] has passed. *)
Theorem missing_report_rate_limited {P} `{Countable P, RustOrd P} (r : Reassembler P) peer id
    now now' ri max max' min_idle :
  let '(r1, rs) := missing_ranges_if_due r peer id now ri max in
  rs ≠ [] → (now' - now < ri)%N →
  missing_ranges_if_due r1 peer id now' ri max' = (r1, []) ∧
  (peer, id) ∉ idle_candidates r1 now' min_idle ri.
Proof.
  destruct (missing_ranges_if_due r peer id now ri max) as [r1 rs] eqn:E. intros Hrs Hnow.
  assert (Hg : ∃ t, get_transfer r1 peer id = Some t ∧ t_last_missing_request t = Some now).
  { revert E. unfold missing_ranges_if_due. case_test; [by intros [= <- <-]|].
    destruct (get_transfer r peer id) as [t|] eqn:Hg; [|by intros [= <- <-]].
    case_test; [by intros [= <- <-]|].
    destruct (missing_ranges_for_transfer t max); [by intros [= <- <-]|]. intros [= <- <-].
    exists (set_last_missing t now). split; [|done]. unfold get_transfer, insert_transfer. cbn [r_peers].
    rewrite lookup_insert_eq. cbn. apply lookup_insert_eq. }
  destruct Hg as (t & Hg & Hlast).
  assert (Ha : asked_recently t now' ri = true).
  { unfold asked_recently. rewrite Hlast. by apply N.ltb_lt. }
  split.
  - unfold missing_ranges_if_due. case_test; [done|]. by rewrite Hg, Ha.
  - unfold idle_candidates. intros ([[p i] t'] & Hin%elem_all_transfers & Hc)%list_elem_of_omap.
    case_test_in Hc; [|done]. injection Hc as -> ->. rewrite Hg in Hin. injection Hin as <-.
    by rewrite Ha in *.
Qed.

Lemma missing_report_rate_limited_witness :
  let '(r1, rs) := missing_ranges_if_due demo_state 7%N (pad32 demo_msg) 20 500 8 in
  rs = [(0, 3); (5, 4)]%N ∧ missing_ranges_if_due r1 7%N (pad32 demo_msg) 300 500 4 = (r1, []) ∧
  (7%N, pad32 demo_msg) ∉ idle_candidates r1 300 100 500.
Proof.
  pose proof (missing_report_rate_limited demo_state 7%N (pad32 demo_msg) 20 300 500 8 4 100) as HT.
  destruct (missing_ranges_if_due demo_state 7%N (pad32 demo_msg) 20 500 8) as [r1 rs] eqn:E.
  assert (Hrs : rs = [(0, 3); (5, 4)]%N).
  { change rs with (r1, rs).2. rewrite <- E. vm_compute. reflexivity. }
  split; [exact Hrs|]. apply HT; [rewrite Hrs; discriminate|vm_compute; reflexivity].
Defined.

(** Selective retransmission completes a transfer: when a receiver holds some pieces
    of [m] and its report is not truncated, sending back exactly the reported ranges, cut from
    [m], completes with [m] on the last of them. *)
Theorem selective_retransmission_completes {P} `{Countable P, RustOrd P} blake3_hash
    (peer : P) m (r : Reassembler P) seen t0 max ts now :
  length (blake3_hash m) = 32 → (len m ≤ u32_max)%N → wf r →
  seen ≠ [] → Forall (piece_of m) seen → holds m seen t0 (get_transfer r peer (blake3_hash m)) →
  let rs := missing_ranges r peer (blake3_hash m) max in
  (len rs < max)%N → fits (r_limits r) m (length seen + length rs) →
  length rs = S (length ts) → paced (reassembly_ttl (r_limits r)) t0 (ts ++ [now]) →
  ∃ r' outs, receive_all blake3_hash r peer
      (zip (frame_of blake3_hash m <$> (cut m <$> rs)) (ts ++ [now]))
      = Some (r', outs ++ [Ok (Complete m)]) ∧ Forall progress outs.
Proof.
  intros Hid Hm Hr Hne Hps Hh rs Hmax Hfit Hlen Hpace.
  destruct (get_transfer r peer (blake3_hash m)) as [t|] eqn:Hg; [|by cbn in Hh].
  destruct Hh as (_ & Htot & Hact & Hel).
  destruct (wf_transfer _ _ _ _ Hr Hg) as [Hf _ _ _ _ _]. rewrite Htot in Hf.
  assert (Ers : rs = gaps 0 (len m) (t_fragments t)).
  { unfold rs, missing_ranges in *. rewrite Hg in *. case_test; [lia|].
    rewrite missing_ranges_take in * by (rewrite ?Htot; done). rewrite Htot in *.
    rewrite length_take in Hmax. apply take_ge. lia. }
  pose proof (λ i, gaps_cover m _ i Hf) as Hcovall.
  destruct (cut_gaps_pieces m _ Hf) as (Hcp & Hnd & Hpair & Hgd). rewrite <- Ers in *.
  destruct (exists_last (l := cut m <$> rs)) as (todo & x & Erev).
  { intros E. apply (f_equal length) in E. rewrite length_fmap in E. cbn in E. lia. }
  rewrite Erev in *. assert (Hl : length todo = length ts).
  { apply (f_equal length) in Erev. rewrite length_fmap, length_app in Erev. cbn in Erev. lia. }
  assert (Hmem : ∀ y, y ∈ x :: seen ++ todo ↔ y ∈ todo ++ [x] ∨ y ∈ t_fragments t).
  { intros y. rewrite Hel, elem_of_cons, !elem_of_app, list_elem_of_singleton. tauto. }
  edestruct (receive_completes blake3_hash peer m (length seen + length rs) todo ts x now r seen t0)
    as (r' & outs & ? & ? & _); eauto.
  - lia.
  - apply Forall_app in Hcp as [? [? _]%Forall_cons]. constructor; [done|]. by apply Forall_app.
  - apply NoDup_app in Hnd as (_ & Hnd & _). intros [Hin|Hin]%elem_of_app; [|by apply (Hnd x Hin); left].
    destruct (Hgd x x) as [Hd|Hd]; [set_solver|by apply Hel| |]; rewrite Forall_forall in Hps;
      destruct (Hps _ Hin) as (Hb%len_pos & _); lia.
  - intros y z [Hy|Hy]%Hmem [Hz|Hz]%Hmem; auto; [right|by eapply frags_pairwise].
    destruct (Hgd _ _ Hz Hy); unfold disjoint_frags; auto.
  - intros i Hi. destruct (Hcovall i Hi) as (o & b & Hin & Hi'). exists o, b. split; [|done].
    apply Hmem. by apply elem_of_app in Hin.
  - rewrite Hg. cbn. auto.
Qed.

Lemma selective_retransmission_completes_witness :
  missing_ranges demo_state 7%N (pad32 demo_msg) 8 = [(0, 3); (5, 4)]%N ∧
  ∃ r' outs, receive_all pad32 demo_state 7%N
      (zip (frame_of pad32 demo_msg <$>
             (cut demo_msg <$> missing_ranges demo_state 7%N (pad32 demo_msg) 8)) ([20] ++ [30])%N)
      = Some (r', outs ++ [Ok (Complete demo_msg)]) ∧ Forall progress outs.
Proof.
  split; [vm_compute; reflexivity|].
  apply (selective_retransmission_completes pad32 7%N demo_msg demo_state [(3%N, [x04; x05])] 10 8 [20]%N 30).
  - reflexivity.
  - vm_compute. discriminate.
  - apply demo_state_wf.
  - discriminate.
  - repeat constructor; [discriminate|vm_compute; discriminate].
  - rewrite demo_state_get. repeat split; [discriminate|tauto..].
  - vm_compute. reflexivity.
  - constructor; vm_compute; congruence.
  - vm_compute. reflexivity.
  - vm_compute. auto.
Defined.

(** A completed payload, from the frame that completed it. *)
Lemma accept_complete_sound {P} `{Countable P, RustOrd P} blake3_hash (r : Reassembler P) peer bytes now r' rep p :
  wf r → accept blake3_hash r peer bytes now = Some (r', rep) → outcome rep = Ok (Complete p) →
  if fragment_received rep
  then fragment_metadata bytes = Some {| fm_transfer_id := frame_id bytes; fm_total_len := frame_total_len bytes;
         fm_offset := frame_offset bytes; fm_payload_len := (len bytes - N.of_nat FRAGMENT_HEADER_LEN)%N |} ∧
       blake3_hash p = frame_id bytes ∧ len p = frame_total_len bytes
  else bytes = COMPLETE_TAG :: p.
Proof.
  intros Hr. unfold accept. destruct (expire_wf r now Hr) as [Hw _].
  destruct (expire r now) as [r1 ex]. cbn [fst] in Hw.
  destruct bytes as [|tag bs]; cbn [head]; [by intros [= <- <-]|].
  case_bool_decide; [case_test; intros [= <- <-]; [done|]; subst tag;
    cbn [outcome report]; intros [= <-]; reflexivity|].
  case_bool_decide as Htag; [by intros [= <- <-]|]. subst tag.
  case_test; [by intros [= <- <-]|]. apply Nat.ltb_ge in E.
  destruct (accept_fragment_post blake3_hash r1 peer (fragment_input (FRAGMENT_TAG :: bs)) now 0 Hw)
    as (r2 & ev & o & Eacc & _ & _ & Hc). rewrite Eacc. cbn [mbind option_bind]. intros [= <- <-]. cbn [outcome report].
  intros ->. cbn [fragment_received report]. destruct (Hc p eq_refl) as [? ?]. split; [|done].
  unfold fragment_metadata. rewrite bool_decide_eq_false_2 by (cbn; naive_solver).
  destruct (length (FRAGMENT_TAG :: bs) <=? FRAGMENT_HEADER_LEN) eqn:El; [|done]. exfalso. apply Nat.leb_le in El.
  revert Eacc. unfold accept_fragment, fragment_input. cbn [fi_bytes]. rewrite drop_ge by done.
  rewrite decide_True by done. done.
Qed.

(** A payload handed up is what was sent: from a complete frame, the bytes after the
    tag; from fragments, bytes that hash to the transfer id and have the length the frame names. *)
Theorem completed_payload_matches_frame {P} `{Countable P, RustOrd P} blake3_hash
    (r : Reassembler P) peer bytes now r' rep p :
  wf r → accept blake3_hash r peer bytes now = Some (r', rep) → outcome rep = Ok (Complete p) →
  if fragment_received rep
  then blake3_hash p = frame_id bytes ∧ len p = frame_total_len bytes
  else bytes = COMPLETE_TAG :: p.
Proof.
  intros Hr Ha Ho. pose proof (accept_complete_sound blake3_hash r peer bytes now r' rep p Hr Ha Ho) as Hs.
  by destruct (fragment_received rep); [destruct Hs|].
Qed.

Lemma completed_payload_matches_frame_witness :
  let w := frame_of pad32 demo_msg (0%N, demo_msg) in
  match accept pad32 demo_state 8%N w 20 with
  | Some (r', rep) => outcome rep = Ok (Complete demo_msg) ∧ fragment_received rep = true ∧
      pad32 demo_msg = frame_id w ∧ len demo_msg = frame_total_len w
  | None => False
  end.
Proof.
  intros w. pose proof (completed_payload_matches_frame pad32 demo_state 8%N w 20) as HT.
  assert (E : (λ '(_, rep), (outcome rep, fragment_received rep)) <$> accept pad32 demo_state 8%N w 20
    = Some (Ok (Complete demo_msg), true)) by (vm_compute; reflexivity).
  destruct (accept pad32 demo_state 8%N w 20) as [[r' rep]|]; [|discriminate].
  injection E as E1 E2. specialize (HT r' rep demo_msg demo_state_wf eq_refl E1). rewrite E2 in HT.
  split; [exact E1|]. split; [exact E2|exact HT].
Defined.
