(* ===== verification/Auth.v ===== *)
(** * Datagram authentication ([gossip/src/auth.rs] and [gossip/src/auth/])

    Cluster keys, the three wire layouts (plain, MAC, AEAD), key rotation, the wire-version check
    and the typestate that orders authentication, version and replay. The primitives are
    interfaces: [Mac] is the source's own trait with the law its two backends satisfy, [Aead] the
    cipher's documented behaviour. *)
From stdpp Require Import gmap list.
From Stdlib Require Import NArith.
From Stdlib.Strings Require Import Byte.
From S2P Require Import Prelude Bytes Replay.

Definition TAG_LEN : nat := 32.
Definition KEY_LEN : nat := 32.
Definition VERSION_LEN : nat := 1.
Definition WIRE_VERSION : byte := x04.
Definition AEAD_NONCE_LEN : nat := 24.
Definition AEAD_TAG_LEN : nat := 16.

(** ** Cluster keys *)

(** [ClusterKey([u8; 32])] *)
Notation ClusterKey := (list byte) (only parsing).

Inductive ClusterKeyError :=
| WrongHexLength (n : N)
| InvalidHexDigit
| WrongByteLength (n : N).

(** [char::to_digit(16)] on an ASCII byte. *)
Definition hex_digit (b : byte) : option N :=
  let c := byte_val b in
  if (48 <=? c)%N && (c <=? 57)%N then Some (c - 48)%N
  else if (97 <=? c)%N && (c <=? 102)%N then Some (c - 87)%N
  else if (65 <=? c)%N && (c <=? 70)%N then Some (c - 55)%N
  else None.

(** Accumulating digits; the value must fit a [u8]. *)
Fixpoint radix16_digits (acc : N) (s : list byte) : option N :=
  match s with
  | [] => Some acc
  | b :: s =>
      match hex_digit b with
      | Some d => if (16 * acc + d <=? 255)%N then radix16_digits (16 * acc + d) s else None
      | None => None
      end
  end.

(** [u8::from_str_radix(s, 16)]: the standard library accepts one leading [+]. *)
Definition u8_from_str_radix16 (s : list byte) : option N :=
  match s with
  | [] => None
  | [b] => radix16_digits 0 [b]
  | b :: s' => if bool_decide (b = x2b) then radix16_digits 0 s' else radix16_digits 0 s
  end.

(** Whether [i] is a character boundary of the UTF-8 string: slicing a [str] elsewhere panics. *)
Definition is_char_boundary (s : list byte) (i : nat) : bool :=
  match s !! i with
  | None => i =? length s
  | Some b => negb ((128 <=? byte_val b)%N && (byte_val b <? 192)%N)
  end.

(** The loop over the 32 byte positions, from position [i]; [None] is the slicing panic. *)
Fixpoint from_hex_loop (n i : nat) (hex : list byte) : option (result (list byte) ClusterKeyError) :=
  match n with
  | O => Some (Ok [])
  | S n =>
      if is_char_boundary hex (i * 2) && is_char_boundary hex (i * 2 + 2) then
        match u8_from_str_radix16 (slice (i * 2) (i * 2 + 2) hex) with
        | None => Some (Err InvalidHexDigit)
        | Some v =>
            match from_hex_loop n (S i) hex with
            | Some (Ok bytes) => Some (Ok (byte_of v :: bytes))
            | r => r
            end
        end
      else None
  end.

Definition from_hex (hex : list byte) : option (result ClusterKey ClusterKeyError) :=
  if negb (length hex =? KEY_LEN * 2) then Some (Err (WrongHexLength (len hex)))
  else from_hex_loop KEY_LEN 0 hex.

Definition key_try_from (bytes : list byte) : result ClusterKey ClusterKeyError :=
  if length bytes =? KEY_LEN then Ok bytes else Err (WrongByteLength (len bytes)).

Record Keys := { primary : ClusterKey; also_accept : list ClusterKey }.
Definition keys_single (key : ClusterKey) : Keys := {| primary := key; also_accept := [] |}.
Definition keys_iter (k : Keys) : list ClusterKey := primary k :: also_accept k.

Inductive Authenticator :=
| Disabled
| Enabled (keys : Keys)
| Encrypted (keys : Keys).

(** The [encryption] cargo feature. *)
Definition with_rotation (encryption_feature : bool) (keys : option Keys) (encrypt : bool)
    : result Authenticator unit :=
  match keys, encrypt with
  | None, _ => Ok Disabled
  | Some keys, false => Ok (Enabled keys)
  | Some keys, true => if encryption_feature then Ok (Encrypted keys) else Err tt
  end.
Definition authenticator_new (encryption_feature : bool) (key : option ClusterKey) (encrypt : bool)
    : result Authenticator unit :=
  with_rotation encryption_feature (keys_single <$> key) encrypt.

Definition overhead (a : Authenticator) : nat :=
  match a with
  | Disabled => VERSION_LEN
  | Enabled _ => TAG_LEN + VERSION_LEN + REPLAY_HEADER_LEN
  | Encrypted _ => AEAD_NONCE_LEN + VERSION_LEN + REPLAY_HEADER_LEN + AEAD_TAG_LEN
  end.

(** ** Primitives *)

(** The crate's [Mac] trait: a tag authenticates exactly what it was computed over. *)
Class Mac := {
  mac_tag : ClusterKey → list byte → list byte;
  mac_verify : ClusterKey → list byte → list byte → bool;
  mac_tag_length k m : length (mac_tag k m) = TAG_LEN;
  mac_verify_spec k m t : mac_verify k m t = true ↔ t = mac_tag k m;
}.

(** [Blake3Mac]: length-checked comparison with the keyed hash. *)
Section blake3_mac.
Context (keyed_hash : list byte → list byte → list byte).
Context (keyed_hash_length : ∀ k m, length (keyed_hash k m) = TAG_LEN).

Definition blake3_tag (key message : list byte) : list byte := keyed_hash key message.
Definition blake3_verify (key message tag : list byte) : bool :=
  if negb (length tag =? TAG_LEN) then false else bool_decide (keyed_hash key message = tag).

#[refine] Instance Blake3Mac : Mac := {| mac_tag := blake3_tag; mac_verify := blake3_verify |}.
Proof.
  - intros. apply keyed_hash_length.
  - intros k m t. unfold blake3_verify, blake3_tag. case_test; cbn in *.
    + split; [done|]. intros ->. rewrite keyed_hash_length in E. done.
    + rewrite bool_decide_eq_true. split; congruence.
Defined.
End blake3_mac.

(** XChaCha20-Poly1305: ciphertext and tag under a key and nonce; decryption inverts encryption
    under the same key. *)
Class Aead := {
  aead_encrypt : ClusterKey → list byte → list byte → list byte;
  aead_decrypt : ClusterKey → list byte → list byte → option (list byte);
  aead_length k n p : length (aead_encrypt k n p) = length p + AEAD_TAG_LEN;
  aead_roundtrip k n p : aead_decrypt k n (aead_encrypt k n p) = Some p;
}.

(** ** Sealing and opening *)
Section auth.
Context `{Mac, Aead}.

Definition encode_replay_header (seq stamp : N) : list byte := to_le 8 seq ++ to_le 8 stamp.

Definition decode_replay_header (data : list byte) : option (N * N * list byte) :=
  if length data <? REPLAY_HEADER_LEN then None
  else Some (from_le (slice 0 8 data), from_le (slice 8 16 data), drop REPLAY_HEADER_LEN data).

(** [encryption::seal], the random nonce an argument. *)
Definition encryption_seal (nonce : list byte) (key : ClusterKey) (payload : list byte) : list byte :=
  nonce ++ aead_encrypt key nonce payload.

Definition encryption_open (key : ClusterKey) (datagram : list byte) : option (list byte) :=
  if length datagram <? AEAD_NONCE_LEN + AEAD_TAG_LEN then None
  else aead_decrypt key (take AEAD_NONCE_LEN datagram) (drop AEAD_NONCE_LEN datagram).

Definition seal (a : Authenticator) (nonce : list byte) (seq stamp : N) (payload : list byte)
    : list byte :=
  match a with
  | Disabled => WIRE_VERSION :: payload
  | Enabled keys =>
      let protected := encode_replay_header seq stamp ++ WIRE_VERSION :: payload in
      mac_tag (primary keys) protected ++ protected
  | Encrypted keys =>
      let plaintext := encode_replay_header seq stamp ++ WIRE_VERSION :: payload in
      encryption_seal nonce (primary keys) plaintext
  end.

(** The typestate of a received payload: [Authenticated] by [open], [Verified] only by replay. *)
Inductive PayloadState := Authenticated | Verified.
Record Payload (s : PayloadState) := { p_bytes : list byte; p_seq : N; p_stamp : N }.
Arguments p_bytes {s} _.
Arguments p_seq {s} _.
Arguments p_stamp {s} _.

Definition find_map {A B} (f : A → option B) : list A → option B :=
  fix go l := match l with [] => None | x :: l => match f x with Some y => Some y | None => go l end end.

Definition open (a : Authenticator) (datagram : list byte) : option (Payload Authenticated) :=
  match a with
  | Disabled => Some {| p_bytes := datagram; p_seq := Seq_NONE; p_stamp := Stamp_NONE |}
  | Enabled keys =>
      if length datagram <? TAG_LEN + REPLAY_HEADER_LEN then None
      else
        let tag := take TAG_LEN datagram in
        let protected := drop TAG_LEN datagram in
        if negb (existsb (λ key, mac_verify key protected tag) (keys_iter keys)) then None
        else
          '(seq, stamp, messages) ← decode_replay_header protected;
          Some {| p_bytes := messages; p_seq := seq; p_stamp := stamp |}
  | Encrypted keys =>
      plaintext ← find_map (λ key, encryption_open key datagram) (keys_iter keys);
      '(seq, stamp, messages) ← decode_replay_header plaintext;
      Some {| p_bytes := messages; p_seq := seq; p_stamp := stamp |}
  end.

(** [Err(actual)] carries the version the peer sent, [0] for an empty payload. *)
Definition check_version (p : Payload Authenticated) : result (Payload Authenticated) byte :=
  let version := default x00 (head (p_bytes p)) in
  if bool_decide (version ≠ WIRE_VERSION) then Err version
  else Ok {| p_bytes := drop VERSION_LEN (p_bytes p); p_seq := p_seq p; p_stamp := p_stamp p |}.

(** The sole step to [Verified], for the IP-keyed filter and for the signer-keyed one. *)
Definition verify_replay {K} `{Countable K} (p : Payload Authenticated)
    (filter : ReplayFilter.Filter K) (sender : K) (now : N)
    : ReplayFilter.Filter K * option (Payload Verified) :=
  let '(filter, ok) := ReplayFilter.check_and_record filter sender (p_seq p) (p_stamp p) now in
  (filter, if negb ok then None
           else Some {| p_bytes := p_bytes p; p_seq := p_seq p; p_stamp := p_stamp p |}).

(** ** Lemmas *)

Lemma length_encode_replay_header q t : length (encode_replay_header q t) = REPLAY_HEADER_LEN.
Proof. unfold encode_replay_header. by rewrite length_app, !length_to_le. Qed.

Lemma decode_encode_header q t rest :
  (q ≤ u64_max)%N → (t ≤ u64_max)%N →
  decode_replay_header (encode_replay_header q t ++ rest) = Some (q, t, rest).
Proof.
  intros Hq Ht. unfold decode_replay_header. rewrite length_app, length_encode_replay_header.
  rewrite (proj2 (Nat.ltb_ge _ _)) by lia.
  rewrite drop_app_length' by (by rewrite length_encode_replay_header).
  unfold encode_replay_header. rewrite <- app_assoc.
  rewrite slice_app_l, slice_all by (rewrite ?length_to_le; done).
  rewrite slice_app_r by (rewrite length_to_le; lia). rewrite length_to_le. cbn [Nat.sub].
  rewrite slice_app_l, slice_all by (rewrite ?length_to_le; done).
  by rewrite !from_to_le_u64.
Qed.

Lemma encode_decode_header data q t rest :
  decode_replay_header data = Some (q, t, rest) →
  data = encode_replay_header q t ++ rest ∧ (q ≤ u64_max)%N ∧ (t ≤ u64_max)%N.
Proof.
  unfold decode_replay_header. destruct (length data <? REPLAY_HEADER_LEN) eqn:E; [done|].
  apply Nat.ltb_ge in E. unfold REPLAY_HEADER_LEN in *. intros [= <- <- <-].
  assert (Hl1 : length (slice 0 8 data) = 8) by (rewrite length_slice; lia).
  assert (Hl2 : length (slice 8 16 data) = 8) by (rewrite length_slice; lia).
  split; [|split; by apply from_le_u64_bound].
  unfold encode_replay_header. rewrite !to_from_le_n by done. unfold slice. rewrite drop_0.
  change (8 - 0) with 8; change (16 - 8) with 8. rewrite take_take_drop. symmetry. apply take_drop.
Qed.

Lemma length_seal a nonce q t p :
  length nonce = AEAD_NONCE_LEN → length (seal a nonce q t p) = overhead a + length p.
Proof.
  intros Hn. destruct a as [|k|k]; unfold seal, encryption_seal, overhead; cbn [length].
  - done.
  - rewrite !length_app, mac_tag_length, length_encode_replay_header. cbn [length].
    unfold VERSION_LEN. lia.
  - rewrite length_app, aead_length, length_app, length_encode_replay_header, Hn. cbn [length].
    unfold VERSION_LEN. lia.
Qed.

Lemma open_mac_spec keys d p :
  open (Enabled keys) d = Some p ↔
  ∃ key, key ∈ keys_iter keys ∧ (p_seq p ≤ u64_max)%N ∧ (p_stamp p ≤ u64_max)%N ∧
    let protected := encode_replay_header (p_seq p) (p_stamp p) ++ p_bytes p in
    d = mac_tag key protected ++ protected.
Proof.
  unfold open. split.
  - destruct (_ <? _); [done|]. destruct (existsb _ _) eqn:Hex; cbn [negb]; [|done].
    apply existsb_exists in Hex as (key & Hin & Hv). rewrite <- list_elem_of_In in Hin.
    apply mac_verify_spec in Hv.
    destruct (decode_replay_header (drop TAG_LEN d)) as [[[q t] rest]|] eqn:Hd; [|done].
    cbn. intros [= <-]. cbn. apply encode_decode_header in Hd as (Hd & ? & ?).
    exists key. split_and!; [done..|]. rewrite <- Hd, <- Hv. symmetry. apply take_drop.
  - intros (key & Hin & Hq & Ht & ->). set (pr := encode_replay_header _ _ ++ _).
    assert (Hlen : length pr = REPLAY_HEADER_LEN + length (p_bytes p)).
    { unfold pr. by rewrite length_app, length_encode_replay_header. }
    rewrite length_app, mac_tag_length, Hlen. rewrite (proj2 (Nat.ltb_ge _ _)) by lia.
    rewrite take_app_length', drop_app_length' by (by rewrite mac_tag_length).
    rewrite (proj2 (existsb_exists _ _)).
    + cbn [negb]. unfold pr. rewrite decode_encode_header by done. cbn. by destruct p.
    + exists key. split; [by apply list_elem_of_In|]. by apply mac_verify_spec.
Qed.

Lemma check_version_spec p p' :
  check_version p = Ok p' ↔
  p_bytes p = WIRE_VERSION :: p_bytes p' ∧ p_seq p = p_seq p' ∧ p_stamp p = p_stamp p'.
Proof.
  unfold check_version. destruct p as [b q t], p' as [b' q' t']. cbn. split.
  - destruct b as [|v b]; [done|]. cbn. case_bool_decide as Hv; [done|].
    subst v. unfold VERSION_LEN. by intros [= <- <- <-].
  - intros (-> & -> & ->). cbn. rewrite bool_decide_eq_false_2 by tauto. done.
Qed.

Lemma find_map_first {A B} (f : A → option B) l x y :
  x ∈ l → f x = Some y → (∀ z, z ∈ l → f z = None ∨ f z = Some y) → find_map f l = Some y.
Proof.
  induction l as [|z l IH]; [by intros ?%not_elem_of_nil|]. cbn.
  intros [->|Hx]%elem_of_cons Hf Hall; [by rewrite Hf|].
  destruct (Hall z) as [->| ->]; [left| |done]. apply IH; auto. intros; apply Hall; by right.
Qed.

Lemma encryption_open_seal nonce key key' p :
  length nonce = AEAD_NONCE_LEN →
  encryption_open key' (encryption_seal nonce key p)
  = aead_decrypt key' nonce (aead_encrypt key nonce p).
Proof.
  intros Hn. unfold encryption_open, encryption_seal. rewrite length_app, aead_length, Hn.
  rewrite (proj2 (Nat.ltb_ge _ _)) by lia.
  by rewrite take_app_length', drop_app_length' by done.
Qed.

(** A receiver that accepts the sender's primary key. *)
Definition accepts (sender receiver : Authenticator) : Prop :=
  match sender, receiver with
  | Disabled, Disabled => True
  | Enabled k, Enabled k' | Encrypted k, Encrypted k' => primary k ∈ keys_iter k'
  | _, _ => False
  end.

(** The authenticity of the cipher at one datagram: no other accepted key decrypts it. *)
Definition other_keys_reject (sender receiver : Authenticator) (nonce : list byte) (q t : N)
    (p : list byte) : Prop :=
  match sender, receiver with
  | Encrypted k, Encrypted k' => ∀ key, key ∈ keys_iter k' → key ≠ primary k →
      aead_decrypt key nonce
        (aead_encrypt (primary k) nonce (encode_replay_header q t ++ WIRE_VERSION :: p)) = None
  | _, _ => True
  end.

Lemma open_seal s r nonce q t p :
  accepts s r → other_keys_reject s r nonce q t p → length nonce = AEAD_NONCE_LEN → (q ≤ u64_max)%N → (t ≤ u64_max)%N →
  ∃ pl, open r (seal s nonce q t p) = Some pl ∧ check_version pl = Ok
    (match s with
     | Disabled => {| p_bytes := p; p_seq := Seq_NONE; p_stamp := Stamp_NONE |}
     | _ => {| p_bytes := p; p_seq := q; p_stamp := t |}
     end).
Proof.
  intros Hacc Hrej Hn Hq Ht. destruct s as [|k|k], r as [|k'|k']; try done; cbn in Hacc.
  - eexists. split; [done|]. by apply check_version_spec.
  - exists {| p_bytes := WIRE_VERSION :: p; p_seq := q; p_stamp := t |}.
    split; [|by apply check_version_spec]. apply open_mac_spec. by exists (primary k).
  - exists {| p_bytes := WIRE_VERSION :: p; p_seq := q; p_stamp := t |}.
    split; [|by apply check_version_spec]. unfold open, seal.
    rewrite (find_map_first _ _ (primary k) (encode_replay_header q t ++ WIRE_VERSION :: p)).
    + cbn [mbind option_bind]. by rewrite decode_encode_header.
    + done.
    + rewrite encryption_open_seal by done. apply aead_roundtrip.
    + intros z Hz. rewrite encryption_open_seal by done.
      destruct (decide (z = primary k)) as [->|]; [right; apply aead_roundtrip|left; by apply Hrej].
Qed.
End auth.
Arguments p_bytes {s} _.
Arguments p_seq {s} _.
Arguments p_stamp {s} _.

(** ** Properties *)

(** Stand-ins for the witnesses: a tag that starts with the key, a cipher that appends it. *)
Definition toy_hash (key message : list byte) : list byte := take 32 (key ++ message ++ replicate 32 x00).
Lemma toy_hash_length k m : length (toy_hash k m) = TAG_LEN.
Proof. unfold toy_hash, TAG_LEN. rewrite length_take, !length_app, length_replicate. lia. Defined.
Definition toy_mac : Mac := Blake3Mac toy_hash toy_hash_length.

Definition toy_aead_tag (key : list byte) : list byte := take 16 (key ++ replicate 16 x00).
Definition toy_decrypt (key nonce c : list byte) : option (list byte) :=
  if decide (drop (length c - 16) c = toy_aead_tag key) then Some (take (length c - 16) c) else None.
#[refine] Instance toy_aead : Aead :=
  {| aead_encrypt k n p := p ++ toy_aead_tag k; aead_decrypt := toy_decrypt |}.
Proof.
  - intros. rewrite length_app. unfold toy_aead_tag, AEAD_TAG_LEN.
    rewrite length_take, length_app, length_replicate. lia.
  - intros k n p. unfold toy_decrypt.
    assert (Hl : length (p ++ toy_aead_tag k) - 16 = length p).
    { rewrite length_app. unfold toy_aead_tag. rewrite length_take, length_app, length_replicate. lia. }
    rewrite Hl, drop_app_length, take_app_length. by rewrite decide_True.
Defined.

Definition demo_key (b : byte) : list byte := replicate 32 b.
Definition demo_keys (p : byte) (also : list byte) : Keys :=
  {| primary := demo_key p; also_accept := demo_key <$> also |}.

(** Round trip under rotation: a receiver in the same mode that accepts the sender's
    primary key, in any position, recovers exactly the payload, sequence number and stamp, and the
    sealed datagram is exactly [overhead] longer. *)
Theorem auth_roundtrip_under_rotation `{Mac, Aead} s r nonce q t p :
  accepts s r → other_keys_reject s r nonce q t p → length nonce = AEAD_NONCE_LEN →
  (q ≤ u64_max)%N → (t ≤ u64_max)%N →
  length (seal s nonce q t p) = overhead s + length p ∧
  ∃ pl pl', open r (seal s nonce q t p) = Some pl ∧ check_version pl = Ok pl' ∧
    p_bytes pl' = p ∧ (s ≠ Disabled → p_seq pl' = q ∧ p_stamp pl' = t).
Proof.
  intros Hacc Hrej Hn Hq Ht. split; [by apply length_seal|].
  destruct (open_seal s r nonce q t p Hacc Hrej Hn Hq Ht) as (pl & Ho & Hc).
  eexists pl, _. split_and!; [done|done| |]; by destruct s.
Qed.

Lemma auth_roundtrip_under_rotation_witness :
  let s := Encrypted (demo_keys x01 []) in
  let r := Encrypted (demo_keys x02 [x03; x01]) in
  let nonce := replicate 24 x07 in
  @length byte (@seal toy_mac toy_aead s nonce 5 9 [x0a; x0b]) = overhead s + 2 ∧
  ∃ pl pl', @open toy_mac toy_aead r (@seal toy_mac toy_aead s nonce 5 9 [x0a; x0b]) = Some pl ∧
    check_version pl = Ok pl' ∧ p_bytes pl' = [x0a; x0b] ∧
    (s ≠ Disabled → p_seq pl' = 5%N ∧ p_stamp pl' = 9%N).
Proof.
  intros s r nonce.
  apply (@auth_roundtrip_under_rotation toy_mac toy_aead s r nonce 5 9 [x0a; x0b]).
  - change (demo_key x01 ∈ [demo_key x02; demo_key x03; demo_key x01]).
    do 2 (apply elem_of_cons; right). apply elem_of_cons. left. reflexivity.
  - intros key Hk Hne. change (key ∈ [demo_key x02; demo_key x03; demo_key x01]) in Hk.
    rewrite !elem_of_cons, elem_of_nil in Hk.
    destruct Hk as [->|[->|[->|[]]]]; [vm_compute; reflexivity|vm_compute; reflexivity|].
    exfalso. apply Hne. reflexivity.
  - reflexivity.
  - vm_compute. discriminate.
  - vm_compute. discriminate.
Defined.

(** Lower-case hexadecimal, two digits per byte. *)
Definition hex_char (d : N) : byte := byte_of (if (d <? 10)%N then 48 + d else 87 + d).
Definition to_hex (bytes : list byte) : list byte :=
  flat_map (λ b, [hex_char (byte_val b / 16); hex_char (byte_val b mod 16)]) bytes.

(** Digits of every byte, by enumeration: the pair parses back, and neither character is a UTF-8
    continuation byte. *)
Lemma hex_pair_ok b :
  let p := [hex_char (byte_val b / 16); hex_char (byte_val b mod 16)] in
  u8_from_str_radix16 p = Some (byte_val b) ∧
  Forall (λ c, (byte_val c < 128)%N) p.
Proof. destruct b; (split; [reflexivity|repeat constructor]). Qed.

Lemma length_to_hex bytes : length (to_hex bytes) = 2 * length bytes.
Proof. induction bytes as [|b bytes IH]; cbn [to_hex flat_map length app] in *; [done|]. unfold to_hex in IH. lia. Qed.

Lemma to_hex_ascii bytes : Forall (λ c, (byte_val c < 128)%N) (to_hex bytes).
Proof.
  induction bytes as [|b bytes IH]; [constructor|]. cbn [to_hex flat_map]. apply Forall_app.
  split; [apply hex_pair_ok|done].
Qed.

Lemma ascii_boundary s i :
  Forall (λ c, (byte_val c < 128)%N) s → i ≤ length s → is_char_boundary s i = true.
Proof.
  intros Hs Hi. unfold is_char_boundary. destruct (s !! i) as [b|] eqn:E.
  - apply (Forall_lookup_1 _ _ _ _ Hs) in E. rewrite (proj2 (N.leb_gt _ _)); done.
  - apply lookup_ge_None in E. apply Nat.eqb_eq. lia.
Qed.

Lemma from_hex_loop_to_hex pre bytes :
  from_hex_loop (length bytes) (length pre) (to_hex (pre ++ bytes)) = Some (Ok bytes).
Proof.
  revert pre. induction bytes as [|b bytes IH]; intros pre; [done|]. cbn [length from_hex_loop].
  assert (Hl : length (to_hex (pre ++ b :: bytes)) = 2 * length pre + (2 + 2 * length bytes)).
  { rewrite length_to_hex, length_app. cbn. lia. }
  rewrite !ascii_boundary by (first [apply to_hex_ascii | lia]). cbn [andb].
  assert (Hs : slice (length pre * 2) (length pre * 2 + 2) (to_hex (pre ++ b :: bytes))
    = [hex_char (byte_val b / 16); hex_char (byte_val b mod 16)]).
  { unfold to_hex. rewrite flat_map_app. fold (to_hex pre).
    rewrite slice_app_r by (rewrite length_to_hex; lia). rewrite length_to_hex.
    replace (length pre * 2 - 2 * length pre) with 0 by lia.
    by replace (length pre * 2 + 2 - 2 * length pre) with 2 by lia. }
  rewrite Hs, (proj1 (hex_pair_ok b)).
  replace (pre ++ b :: bytes) with ((pre ++ [b]) ++ bytes) by (by rewrite <- app_assoc).
  specialize (IH (pre ++ [b])). rewrite length_app in IH. cbn [length] in IH.
  rewrite Nat.add_1_r in IH. rewrite IH. by rewrite byte_of_val.
Qed.

(** Hex round trip: every 32-byte key is recovered from its 64 hexadecimal characters, and a
    string of any other length is refused. *)
Theorem cluster_key_hex_roundtrip key hex :
  (length key = KEY_LEN → from_hex (to_hex key) = Some (Ok key)) ∧
  (length hex ≠ 2 * KEY_LEN → from_hex hex = Some (Err (WrongHexLength (len hex)))).
Proof.
  split; intros Hl; unfold from_hex.
  - rewrite length_to_hex, Hl, Nat.mul_comm, Nat.eqb_refl. cbn [negb].
    rewrite <- Hl. apply (from_hex_loop_to_hex []).
  - rewrite (proj2 (Nat.eqb_neq _ _)) by lia. done.
Qed.

(** Two inputs the digit check does not stop: a sign is read as part of a digit pair, and a
    two-byte character across a pair boundary panics instead of returning an error. *)
Lemma from_hex_accepts_plus_sign :
  from_hex (bytes_of (43 :: 102 :: replicate 62 48)%N) = Some (Ok (x0f :: replicate 31 x00)).
Proof. vm_compute. reflexivity. Qed.

Lemma from_hex_panics_on_split_character :
  from_hex (bytes_of (48 :: 195 :: 169 :: replicate 61 48)%N) = None.
Proof. vm_compute. reflexivity. Qed.

(** C26. MAC mode admits exactly the sealings under an accepted key: a datagram opens and
    passes the version check with payload [pl] if and only if it is byte for byte what [seal]
    produces for [pl] under one of the receiver's keys. *)
Theorem mac_admits_exactly_sealed `{Mac, Aead} keys nonce d pl :
  (∃ pl0, open (Enabled keys) d = Some pl0 ∧ check_version pl0 = Ok pl) ↔
  ∃ key, key ∈ keys_iter keys ∧ (p_seq pl ≤ u64_max)%N ∧ (p_stamp pl ≤ u64_max)%N ∧
    d = seal (Enabled (keys_single key)) nonce (p_seq pl) (p_stamp pl) (p_bytes pl).
Proof.
  split.
  - intros (pl0 & (key & Hin & Hq & Ht & Hd)%open_mac_spec & (Hb & Eq & Et)%check_version_spec).
    rewrite Hb, Eq, Et in *. by exists key.
  - intros (key & Hin & Hq & Ht & Hd).
    exists {| p_bytes := WIRE_VERSION :: p_bytes pl; p_seq := p_seq pl; p_stamp := p_stamp pl |}.
    split; [apply open_mac_spec; by exists key|by apply check_version_spec].
Qed.
