(* ===== verification/Peer.v ===== *)
(** * Signed peers ([gossip/src/peer/identity.rs], [envelope.rs], [runtime.rs])

    The Ed25519 identity proof, the signed envelope around a sealed datagram, and the strict
    ingress/egress boundary that checks signature, allowlist, cluster authentication, version,
    peer cap and replay in that order. The boundary's counter and replay filter are interior
    mutable state in the source and are threaded explicitly. *)
From stdpp Require Import gmap list.
From Stdlib Require Import NArith.
From Stdlib.Strings Require Import Byte.
From S2P Require Import Prelude Bytes Replay Auth Framing Reassembly.

(** [PeerId([u8; 32])] *)
Notation PeerId := (list byte) (only parsing).

(** [ed25519_dalek]: keys are 32 bytes, signatures 64, and a signature verifies under the signer's
    own key. *)
Class Ed25519 := {
  verifying_key : list byte → list byte;
  ed_sign : list byte → list byte → list byte;
  key_valid : list byte → bool;
  verify_strict : list byte → list byte → list byte → bool;
  verifying_key_length s : length (verifying_key s) = 32;
  ed_sign_length s m : length (ed_sign s m) = 64;
  verifying_key_valid s : key_valid (verifying_key s) = true;
  verify_own_signature s m : verify_strict (verifying_key s) m (ed_sign s m) = true;
}.

(** ** Identity proofs *)

(** [b"reconcile/gossip/peer-datagram/v1\0"] *)
Definition SIGNATURE_DOMAIN : list byte :=
  bytes_of [114;101;99;111;110;99;105;108;101;47;103;111;115;115;105;112;47;112;101;101;114;45;
            100;97;116;97;103;114;97;109;47;118;49;0]%N.

Definition signed_bytes (datagram : list byte) : list byte :=
  SIGNATURE_DOMAIN ++ to_le 8 (len datagram) ++ datagram.

Record PeerProof := { claimed : PeerId; signature : list byte }.

Section peer.
Context `{Ed25519, Mac, Aead}.

(** [PeerSigner(SigningKey)], by its seed. *)
Definition peer_id (seed : list byte) : PeerId := verifying_key seed.

Definition sign_datagram (seed datagram : list byte) : PeerProof :=
  {| claimed := peer_id seed; signature := ed_sign seed (signed_bytes datagram) |}.

(** [PeerAllowlist::verify]; the result is the [VerifiedPeerId]. *)
Definition allowlist_verify (allowed : gset PeerId) (datagram : list byte) (proof : PeerProof)
    : option PeerId :=
  if bool_decide (claimed proof ∉ allowed) then None
  else if negb (key_valid (claimed proof)) then None
  else if negb (verify_strict (claimed proof) (signed_bytes datagram) (signature proof)) then None
  else Some (claimed proof).

(** ** The envelope *)

Definition IDENTITY_MAGIC : list byte := [x52; x43; x50; x45].
Definition IDENTITY_ENVELOPE_VERSION : byte := x01.
Definition IDENTITY_ENVELOPE_OVERHEAD : nat := 4 + 1 + 32 + 64 + 4.
Definition VERSION : nat := 4.
Definition ID : nat := VERSION + 1.
Definition SIGNATURE : nat := ID + 32.
Definition LENGTH : nat := SIGNATURE + 64.
Definition PAYLOAD : nat := LENGTH + 4.

Inductive EnvelopeError :=
| TooLarge
| EnvInvalidLength
| InvalidMagic
| UnsupportedVersion (v : byte)
| InvalidProof
| InnerAuthentication
| InnerVersion (v : byte).

Definition signed_contents (version : byte) (length inner : list byte) : list byte :=
  IDENTITY_MAGIC ++ [version] ++ length ++ inner.

Definition envelope_seal (signer : list byte) (inner : list byte) (max_outer_bytes : N)
    : result (list byte) EnvelopeError :=
  let? length := ok_or (u32_try_from (len inner)) TooLarge in
  let? total := ok_or (checked_add (N.of_nat IDENTITY_ENVELOPE_OVERHEAD) (len inner)) TooLarge in
  if (max_outer_bytes <? total)%N then Err TooLarge
  else
    let length := to_le 4 length in
    let proof := sign_datagram signer (signed_contents IDENTITY_ENVELOPE_VERSION length inner) in
    Ok (IDENTITY_MAGIC ++ [IDENTITY_ENVELOPE_VERSION] ++ claimed proof ++ signature proof
          ++ length ++ inner).

Record VerifiedEnvelope := { ve_peer : PeerId; ve_inner : list byte }.

Definition envelope_open (allowlist : gset PeerId) (frame : list byte) (max_outer_bytes : N)
    : result VerifiedEnvelope EnvelopeError :=
  if (max_outer_bytes <? len frame)%N then Err TooLarge
  else if length frame <? IDENTITY_ENVELOPE_OVERHEAD then Err EnvInvalidLength
  else if bool_decide (take 4 frame ≠ IDENTITY_MAGIC) then Err InvalidMagic
  else
    let version := default x00 (frame !! VERSION) in
    if bool_decide (version ≠ IDENTITY_ENVELOPE_VERSION) then Err (UnsupportedVersion version)
    else
      let length := slice LENGTH PAYLOAD frame in
      let inner := drop PAYLOAD frame in
      if bool_decide (u32_try_from (len inner) ≠ Some (from_le length)) then Err EnvInvalidLength
      else
        let proof := {| claimed := slice ID SIGNATURE frame; signature := slice SIGNATURE LENGTH frame |} in
        let? peer := ok_or (allowlist_verify allowlist (signed_contents version length inner) proof)
                       InvalidProof in
        Ok {| ve_peer := peer; ve_inner := inner |}.

Record AuthenticatedEnvelope := {
  ae_peer : PeerId;
  ae_payload : Payload Authenticated;
  has_inner_replay_header : bool;
}.

Definition authenticate (e : VerifiedEnvelope) (a : Authenticator)
    : result AuthenticatedEnvelope EnvelopeError :=
  let? payload := ok_or (open a (ve_inner e)) InnerAuthentication in
  match check_version payload with
  | Err v => Err (InnerVersion v)
  | Ok payload =>
      Ok {| ae_peer := ve_peer e; ae_payload := payload;
            has_inner_replay_header := match a with Disabled => false | _ => true end |}
  end.

Record ReplayCheckedEnvelope := { rc_peer : PeerId; rc_payload : Payload Verified }.

(** [AuthenticatedEnvelope::verify_replay], keyed by the verified signer. *)
Definition envelope_verify_replay (e : AuthenticatedEnvelope) (filter : ReplayFilter.Filter PeerId)
    (wall_now : N) : ReplayFilter.Filter PeerId * option ReplayCheckedEnvelope :=
  if negb (has_inner_replay_header e) then (filter, None)
  else
    let '(filter, r) := verify_replay (ae_payload e) filter (ae_peer e) wall_now in
    (filter, (λ payload, {| rc_peer := ae_peer e; rc_payload := payload |}) <$> r).

(** ** The boundary *)

Inductive SignedDatagramError :=
| MissingInnerAuthentication
| MtuTooSmall
| Envelope (e : EnvelopeError)
| PeerCap (current maximum : N)
| Replayed.

Record SignedDatagramBoundary := {
  b_authenticator : Authenticator;
  b_signer : list byte;
  b_allowlist : gset PeerId;
  b_counter : SenderCounter.Counter;
  b_replay : ReplayFilter.Filter PeerId;
  b_max_peers : N;
  b_mtu : N;
}.

Definition boundary_new (a : Authenticator) (signer : list byte) (allowlist : gset PeerId)
    (freshness_window max_replay_senders max_peers mtu : N)
    : result SignedDatagramBoundary SignedDatagramError :=
  match a with
  | Disabled => Err MissingInnerAuthentication
  | _ =>
      if (mtu <=? N.of_nat (IDENTITY_ENVELOPE_OVERHEAD + overhead a))%N then Err MtuTooSmall
      else Ok {|
        b_authenticator := a; b_signer := signer; b_allowlist := allowlist;
        b_counter := SenderCounter.counter_new;
        b_replay := ReplayFilter.with_max_senders (ReplayFilter.filter_new freshness_window true)
                      max_replay_senders;
        b_max_peers := max_peers; b_mtu := mtu |}
  end.

Definition local_peer (b : SignedDatagramBoundary) : PeerId := peer_id (b_signer b).

Definition payload_budget (b : SignedDatagramBoundary) : N :=
  b_mtu b - N.of_nat IDENTITY_ENVELOPE_OVERHEAD - N.of_nat (overhead (b_authenticator b)).

Definition set_counter (b : SignedDatagramBoundary) (c : SenderCounter.Counter) : SignedDatagramBoundary :=
  {| b_authenticator := b_authenticator b; b_signer := b_signer b; b_allowlist := b_allowlist b;
     b_counter := c; b_replay := b_replay b; b_max_peers := b_max_peers b; b_mtu := b_mtu b |}.
Definition set_replay (b : SignedDatagramBoundary) (f : ReplayFilter.Filter PeerId)
    : SignedDatagramBoundary :=
  {| b_authenticator := b_authenticator b; b_signer := b_signer b; b_allowlist := b_allowlist b;
     b_counter := b_counter b; b_replay := f; b_max_peers := b_max_peers b; b_mtu := b_mtu b |}.

Definition boundary_seal (b : SignedDatagramBoundary) (nonce : list byte) (now_ms : N)
    (protocol_messages : list byte)
    : SignedDatagramBoundary * result (list byte) SignedDatagramError :=
  if (payload_budget b <? len protocol_messages)%N then (b, Err (Envelope TooLarge))
  else
    let '(counter, seq) := SenderCounter.next_seq (b_counter b) in
    let '(counter, stamp) := SenderCounter.next_stamp_at counter now_ms in
    let inner := seal (b_authenticator b) nonce seq stamp protocol_messages in
    (set_counter b counter,
     match envelope_seal (b_signer b) inner (b_mtu b) with
     | Ok frame => Ok frame
     | Err e => Err (Envelope e)
     end).

Definition boundary_open (b : SignedDatagramBoundary) (datagram : list byte)
    (peer_state : PeerId → bool * N) (wall_now : N)
    : SignedDatagramBoundary * result ReplayCheckedEnvelope SignedDatagramError :=
  match envelope_open (b_allowlist b) datagram (b_mtu b) with
  | Err e => (b, Err (Envelope e))
  | Ok env =>
      match authenticate env (b_authenticator b) with
      | Err e => (b, Err (Envelope e))
      | Ok verified =>
          let '(known, count) := peer_state (ae_peer verified) in
          if negb known && (b_max_peers b <=? count)%N then (b, Err (PeerCap count (b_max_peers b)))
          else
            let '(filter, r) := envelope_verify_replay verified (b_replay b) wall_now in
            (set_replay b filter, ok_or r Replayed)
      end
  end.

(** [open_frame]: the reassembler is touched only after admission; [None] is its panic. *)
Definition open_frame (blake3_hash : list byte → list byte) `{RustOrd PeerId}
    (b : SignedDatagramBoundary) (datagram : list byte) (peer_state : PeerId → bool * N)
    (wall_now : N) (r : Reassembler PeerId) (now : N)
    : option (SignedDatagramBoundary * Reassembler PeerId
              * result (PeerId * ReceiveReport) SignedDatagramError) :=
  let '(b, res) := boundary_open b datagram peer_state wall_now in
  match res with
  | Err e => Some (b, r, Err e)
  | Ok checked =>
      '(r, report) ← accept blake3_hash r (rc_peer checked) (p_bytes (rc_payload checked)) now;
      Some (b, r, Ok (rc_peer checked, report))
  end.

Definition replay_senders (b : SignedDatagramBoundary) : N := ReplayFilter.filter_len (b_replay b).

(** ** Lemmas *)

Lemma length_envelope signer inner max frame :
  envelope_seal signer inner max = Ok frame →
  length frame = IDENTITY_ENVELOPE_OVERHEAD + length inner ∧ (len frame ≤ max)%N.
Proof.
  unfold envelope_seal, ok_or, u32_try_from, checked_add. repeat case_test; try done. intros Hf.
  assert (Hl : length frame = IDENTITY_ENVELOPE_OVERHEAD + length inner); [|split; [done|lia]].
  apply Ok_inj in Hf. subst frame. rewrite !length_app.
  cbn [length IDENTITY_MAGIC sign_datagram claimed signature].
  unfold peer_id. rewrite verifying_key_length, ed_sign_length, length_to_le.
  unfold IDENTITY_ENVELOPE_OVERHEAD. lia.
Qed.

(** The frame layout, with the fields at the offsets [envelope_open] reads. *)
Lemma envelope_fields (id sg ln inner : list byte) v :
  length id = 32 → length sg = 64 → length ln = 4 →
  let frame := IDENTITY_MAGIC ++ [v] ++ id ++ sg ++ ln ++ inner in
  take 4 frame = IDENTITY_MAGIC ∧ frame !! VERSION = Some v ∧ slice ID SIGNATURE frame = id ∧
  slice SIGNATURE LENGTH frame = sg ∧ slice LENGTH PAYLOAD frame = ln ∧ drop PAYLOAD frame = inner.
Proof.
  intros Hid Hsg Hln frame.
  assert (H5 : length (IDENTITY_MAGIC ++ [v]) = 5) by done.
  unfold frame, PAYLOAD, LENGTH, SIGNATURE, ID, VERSION. split_and!.
  - done.
  - done.
  - rewrite (app_assoc IDENTITY_MAGIC), slice_app_r, H5 by (rewrite H5; lia). cbn [Nat.add Nat.sub]. by rewrite slice_app_l, slice_all by lia.
  - rewrite (app_assoc IDENTITY_MAGIC), slice_app_r, H5 by (rewrite H5; lia). cbn [Nat.add Nat.sub]. rewrite slice_app_r, Hid by lia.
    by rewrite slice_app_l, slice_all by lia.
  - rewrite (app_assoc IDENTITY_MAGIC), slice_app_r, H5 by (rewrite H5; lia). cbn [Nat.add Nat.sub]. rewrite slice_app_r, Hid by lia.
    rewrite slice_app_r, Hsg by lia. by rewrite slice_app_l, slice_all by lia.
  - rewrite !app_assoc. rewrite drop_app_length'; [done|]. rewrite !length_app, Hid, Hsg, Hln. done.
Qed.

Lemma split_fields (frame : list byte) :
  IDENTITY_ENVELOPE_OVERHEAD ≤ length frame →
  frame = take 4 frame ++ [default x00 (frame !! VERSION)] ++ slice ID SIGNATURE frame
            ++ slice SIGNATURE LENGTH frame ++ slice LENGTH PAYLOAD frame ++ drop PAYLOAD frame.
Proof.
  unfold IDENTITY_ENVELOPE_OVERHEAD, PAYLOAD, LENGTH, SIGNATURE, ID, VERSION. intros Hl.
  assert (Hcut : ∀ i j, i ≤ j → slice i j frame ++ drop j frame = drop i frame).
  { intros i j Hij. unfold slice. replace j with (i + (j - i)) at 2 by lia. rewrite <- drop_drop.
    apply take_drop. }
  rewrite !Hcut by lia. cbn [Nat.add].
  destruct (frame !! 4) as [v|] eqn:Hv; [|apply lookup_ge_None in Hv; lia]. cbn [from_option app].
  rewrite <- (take_drop 4 frame) at 1. f_equal. by apply drop_S.
Qed.

(** A frame is accepted exactly when it is an allowlisted signer's signed frame. *)
Lemma envelope_open_spec allow frame max e :
  envelope_open allow frame max = Ok e ↔
  ∃ sg, length (ve_peer e) = 32 ∧ length sg = 64 ∧ (len frame ≤ max)%N ∧
    (len (ve_inner e) ≤ u32_max)%N ∧
    let ln := to_le 4 (len (ve_inner e)) in
    frame = IDENTITY_MAGIC ++ [IDENTITY_ENVELOPE_VERSION] ++ ve_peer e ++ sg ++ ln ++ ve_inner e ∧
    allowlist_verify allow (signed_contents IDENTITY_ENVELOPE_VERSION ln (ve_inner e))
      {| claimed := ve_peer e; signature := sg |} = Some (ve_peer e).
Proof.
  unfold envelope_open. split.
  - case_test; [done|]. destruct (length frame <? IDENTITY_ENVELOPE_OVERHEAD) eqn:El; [done|].
    apply Nat.ltb_ge in El. case_bool_decide as Hmag; [done|]. case_bool_decide as Hver; [done|].
    case_bool_decide as Hlen; [done|]. pose proof (split_fields frame El) as Hf.
    rewrite Hmag, Hver in *. unfold u32_try_from in Hlen.
    case_test_in Hlen; [|done]. injection Hlen as Hlen.
    assert (Hl4 : length (slice LENGTH PAYLOAD frame) = 4).
    { rewrite length_slice; [done|]. unfold IDENTITY_ENVELOPE_OVERHEAD, PAYLOAD, LENGTH, SIGNATURE, ID, VERSION in *. lia. }
    destruct (allowlist_verify _ _ _) as [peer|] eqn:Hv; [|done]. cbn [ok_or]. intros Hok.
    apply Ok_inj in Hok. subst e. cbn [ve_peer ve_inner].
    exists (slice SIGNATURE LENGTH frame). rewrite Hlen, to_from_le_n by done.
    assert (peer = slice ID SIGNATURE frame) as ->.
    { revert Hv. unfold allowlist_verify. repeat case_test; try done. by intros [= <-]. }
    unfold IDENTITY_ENVELOPE_OVERHEAD in *.
    split_and!; [rewrite length_slice by (unfold SIGNATURE, ID, VERSION; lia); done
      |rewrite length_slice by (unfold LENGTH, SIGNATURE, ID, VERSION; lia); done|done|lia|done|done].
  - intros (sg & Hp & Hs & Hmax & Hin & Hf & Hv).
    destruct (envelope_fields (ve_peer e) sg (to_le 4 (len (ve_inner e))) (ve_inner e)
      IDENTITY_ENVELOPE_VERSION Hp Hs (length_to_le _ _)) as (E1 & E2 & E3 & E4 & E5 & E6).
    rewrite <- Hf in *. rewrite (proj2 (N.ltb_ge _ _)) by done.
    assert (Hlf : length frame = IDENTITY_ENVELOPE_OVERHEAD + length (ve_inner e)).
    { rewrite Hf, !length_app, Hp, Hs, length_to_le. cbn. unfold IDENTITY_ENVELOPE_OVERHEAD. lia. }
    rewrite (proj2 (Nat.ltb_ge _ _)) by lia. rewrite E1, bool_decide_eq_false_2 by tauto.
    rewrite E2, E3, E4, E5, E6. cbn [from_option Datatypes.id].
    rewrite bool_decide_eq_false_2 by tauto.
    rewrite from_to_le_u32 by done. unfold u32_try_from. rewrite (proj2 (N.leb_le _ _)) by done.
    rewrite bool_decide_eq_false_2 by tauto. rewrite Hv. by destruct e.
Qed.

Lemma allowlist_verify_own allow seed m :
  peer_id seed ∈ allow → allowlist_verify allow m (sign_datagram seed m) = Some (peer_id seed).
Proof.
  intros Hin. unfold allowlist_verify, sign_datagram. cbn. rewrite bool_decide_eq_false_2 by tauto.
  unfold peer_id. by rewrite verifying_key_valid, verify_own_signature.
Qed.

Lemma envelope_open_seal allow seed inner max max' frame :
  envelope_seal seed inner max = Ok frame → (len frame ≤ max')%N → peer_id seed ∈ allow →
  envelope_open allow frame max' = Ok {| ve_peer := peer_id seed; ve_inner := inner |}.
Proof.
  intros Hs Hmax Hin. apply envelope_open_spec. cbn [ve_peer ve_inner].
  unfold envelope_seal, ok_or, u32_try_from in Hs. case_test_in Hs; [|done].
  destruct (checked_add _ _); [|done]. case_test_in Hs; [done|].
  exists (ed_sign seed (signed_bytes (signed_contents IDENTITY_ENVELOPE_VERSION (to_le 4 (len inner)) inner))).
  split_and!; [apply verifying_key_length|apply ed_sign_length|done|done| |].
  - apply Ok_inj in Hs. by subst frame.
  - by apply (allowlist_verify_own allow seed).
Qed.

(** What [boundary_new] establishes, with an MTU a [u32] length field can describe. *)
Record boundary_ok (b : SignedDatagramBoundary) : Prop := {
  bo_auth : b_authenticator b ≠ Disabled;
  bo_mtu : (N.of_nat (IDENTITY_ENVELOPE_OVERHEAD + overhead (b_authenticator b)) < b_mtu b)%N;
  bo_mtu_u32 : (b_mtu b ≤ u32_max)%N;
  bo_replay : ReplayFilter.enabled (b_replay b) = true;
}.

Lemma boundary_new_ok a signer allow fw mrs mp mtu b :
  boundary_new a signer allow fw mrs mp mtu = Ok b → (mtu ≤ u32_max)%N → boundary_ok b.
Proof.
  unfold boundary_new. destruct a; [done| |]; (case_test; [done|]); intros [= <-] Hm; by constructor.
Qed.

(** The header the next sealed datagram carries. *)
Definition next_header (b : SignedDatagramBoundary) (now_ms : N) : N * N :=
  (SenderCounter.mint (b_counter b) now_ms).2.

Lemma boundary_seal_frame b nonce now msgs :
  boundary_ok b → length nonce = AEAD_NONCE_LEN → (len msgs ≤ payload_budget b)%N →
  let inner := seal (b_authenticator b) nonce (next_header b now).1 (next_header b now).2 msgs in
  ∃ frame, boundary_seal b nonce now msgs
      = (set_counter b (SenderCounter.mint (b_counter b) now).1, Ok frame) ∧
    envelope_seal (b_signer b) inner (b_mtu b) = Ok frame ∧ (len frame ≤ b_mtu b)%N.
Proof.
  intros Hb Hn Hm inner. destruct Hb as [_ Hmtu Hu32 _].
  assert (Hl : length inner = overhead (b_authenticator b) + length msgs) by (by apply length_seal).
  unfold payload_budget in Hm.
  destruct (envelope_seal (b_signer b) inner (b_mtu b)) as [frame|e] eqn:Hs.
  - exists frame. split_and!; [|done|by apply length_envelope in Hs as [_ ?]].
    unfold boundary_seal, payload_budget. rewrite (proj2 (N.ltb_ge _ _)) by done. cbn.
    unfold inner, next_header, SenderCounter.mint in Hs. cbn in Hs. by rewrite Hs.
  - exfalso. revert Hs. unfold envelope_seal, ok_or, u32_try_from, checked_add. rewrite Hl.
    unfold u32_max, usize_max, u64_max in *. rewrite !(proj2 (N.leb_le _ _)) by lia.
    by rewrite (proj2 (N.ltb_ge _ _)) by lia.
Qed.

Lemma authenticate_sealed a a' nonce q t msgs peer :
  accepts a a' → other_keys_reject a a' nonce q t msgs → a ≠ Disabled →
  length nonce = AEAD_NONCE_LEN → (q ≤ u64_max)%N → (t ≤ u64_max)%N →
  authenticate {| ve_peer := peer; ve_inner := seal a nonce q t msgs |} a'
  = Ok {| ae_peer := peer; ae_payload := {| p_bytes := msgs; p_seq := q; p_stamp := t |};
          has_inner_replay_header := true |}.
Proof.
  intros Hacc Hrej Hd Hn Hq Ht.
  destruct (open_seal a a' nonce q t msgs Hacc Hrej Hn Hq Ht) as (pl & Ho & Hc).
  unfold authenticate. cbn [ve_inner ve_peer]. rewrite Ho. cbn [ok_or]. rewrite Hc.
  destruct a, a'; done.
Qed.
End peer.

(** ** Properties *)

(** Stand-in signature scheme for the witnesses: keys and signatures are padded prefixes. *)
Definition toy_sign (seed m : list byte) : list byte := take 64 (seed ++ m ++ replicate 64 x00).
Definition toy_vk (seed : list byte) : list byte := take 32 (seed ++ replicate 32 x00).
#[refine] Definition toy_ed25519 : Ed25519 :=
  {| verifying_key := toy_vk; ed_sign := toy_sign; key_valid _ := true;
     verify_strict k m sg := true |}.
Proof.
  all: try reflexivity.
  - intros. unfold toy_vk. rewrite length_take, length_app, length_replicate. lia.
  - intros. unfold toy_sign. rewrite length_take, !length_app, length_replicate. lia.
Defined.

Definition demo_seed (b : byte) : list byte := replicate 32 b.
Definition demo_boundary (seed : byte) (allow : list byte) : SignedDatagramBoundary :=
  {| b_authenticator := Enabled (demo_keys x01 []); b_signer := demo_seed seed;
     b_allowlist := list_to_set (demo_seed <$> allow); b_counter := SenderCounter.counter_new;
     b_replay := ReplayFilter.with_max_senders (ReplayFilter.filter_new 1000000000000 true) 16;
     b_max_peers := 4; b_mtu := 1200 |}.

Lemma demo_boundary_ok seed allow : boundary_ok (demo_boundary seed allow).
Proof. constructor; [discriminate|vm_compute; reflexivity|vm_compute; discriminate|reflexivity]. Defined.

(** Within the payload budget sealing never fails and never exceeds the MTU,
    and a receiver that allowlists the signer and accepts its cluster key recovers the messages
    under the signer's identity, unless its replay filter rejects the minted header. *)
Theorem signed_boundary_delivers `{Ed25519, Mac, Aead} S R nonce now msgs peer_state wall :
  boundary_ok S → length nonce = AEAD_NONCE_LEN → (len msgs ≤ payload_budget S)%N →
  (b_mtu S ≤ b_mtu R)%N → local_peer S ∈ b_allowlist R →
  let '(q, t) := next_header S now in
  (q ≤ u64_max)%N → (t ≤ u64_max)%N →
  accepts (b_authenticator S) (b_authenticator R) →
  other_keys_reject (b_authenticator S) (b_authenticator R) nonce q t msgs →
  (peer_state (local_peer S)).1 = true ∨ ((peer_state (local_peer S)).2 < b_max_peers R)%N →
  ∃ S' frame, boundary_seal S nonce now msgs = (S', Ok frame) ∧ (len frame ≤ b_mtu S)%N ∧
    (boundary_open R frame peer_state wall).2
    = if (ReplayFilter.check_and_record (b_replay R) (local_peer S) q t wall).2
      then Ok {| rc_peer := local_peer S;
                 rc_payload := {| p_bytes := msgs; p_seq := q; p_stamp := t |} |}
      else Err Replayed.
Proof.
  intros HS Hn Hm Hmtu Hallow. destruct (next_header S now) as [q t] eqn:Hh.
  intros Hq Ht Hacc Hrej Hps.
  destruct (boundary_seal_frame S nonce now msgs HS Hn Hm) as (frame & Hseal & Henv & Hlen).
  rewrite Hh in Henv. cbn [fst snd] in Henv. eexists _, frame. split_and!; [done|done|].
  unfold boundary_open. rewrite (envelope_open_seal _ _ _ _ _ _ Henv) by (done || lia).
  rewrite authenticate_sealed by (done || apply HS). cbn [ae_peer].
  fold (local_peer S). destruct (peer_state (local_peer S)) as [known count]. cbn [fst snd] in Hps.
  assert (Hcap : negb known && (b_max_peers R <=? count)%N = false).
  { destruct Hps as [->|Hlt]; [done|]. apply andb_false_iff. right. by apply N.leb_gt. }
  rewrite Hcap. unfold envelope_verify_replay, verify_replay. cbn [has_inner_replay_header negb ae_payload ae_peer p_seq p_stamp].
  destruct (ReplayFilter.check_and_record _ _ _ _ _) as [f r]. by destruct r.
Qed.

Lemma signed_boundary_delivers_witness :
  let S := demo_boundary x05 [] in
  let R := demo_boundary x06 [x05] in
  let nonce := replicate 24 x00 in
  ∃ S' frame, @boundary_seal toy_ed25519 toy_mac toy_aead S nonce 700 [x0a; x0b] = (S', Ok frame) ∧
    (len frame ≤ 1200)%N ∧
    (@boundary_open toy_ed25519 toy_mac toy_aead R frame (λ _, (false, 3%N)) 900).2
    = if (ReplayFilter.check_and_record (b_replay R) (@local_peer toy_ed25519 S) 1 700 900).2
      then Ok {| rc_peer := @local_peer toy_ed25519 S;
                 rc_payload := {| p_bytes := [x0a; x0b]; p_seq := 1; p_stamp := 700 |} |}
      else Err Replayed.
Proof.
  intros S R nonce.
  refine (@signed_boundary_delivers toy_ed25519 toy_mac toy_aead S R nonce 700 [x0a; x0b]
    (λ _, (false, 3%N)) 900 _ _ _ _ _ _ _ _ _ _).
  - apply demo_boundary_ok.
  - reflexivity.
  - vm_compute. discriminate.
  - vm_compute. discriminate.
  - apply (bool_decide_unpack _). vm_compute. exact I.
  - vm_compute. discriminate.
  - vm_compute. discriminate.
  - apply elem_of_cons. left. reflexivity.
  - exact I.
  - right. vm_compute. reflexivity.
Defined.

(** C17. Admission is ordered: an admitted payload comes from a frame within the MTU
    whose allowlisted signer's signature covers all of it, whose inner datagram passed cluster
    authentication and the version check, from a known peer or under the cap, and whose header the
    replay filter accepted; a frame refused before the replay check changes no state. *)
Theorem boundary_admission_ordered `{Ed25519, Mac, Aead} b d peer_state wall :
  let '(b', res) := boundary_open b d peer_state wall in
  match res with
  | Err e => e ≠ Replayed → b' = b
  | Ok rc => ∃ sg inner pl0, (len d ≤ b_mtu b)%N ∧ rc_peer rc ∈ b_allowlist b ∧
      d = IDENTITY_MAGIC ++ [IDENTITY_ENVELOPE_VERSION] ++ rc_peer rc ++ sg
            ++ to_le 4 (len inner) ++ inner ∧
      verify_strict (rc_peer rc) (signed_bytes
        (signed_contents IDENTITY_ENVELOPE_VERSION (to_le 4 (len inner)) inner)) sg = true ∧
      b_authenticator b ≠ Disabled ∧ open (b_authenticator b) inner = Some pl0 ∧
      p_bytes pl0 = WIRE_VERSION :: p_bytes (rc_payload rc) ∧
      ((peer_state (rc_peer rc)).1 = true ∨ (peer_state (rc_peer rc)).2 < b_max_peers b)%N ∧
      ReplayFilter.check_and_record (b_replay b) (rc_peer rc) (p_seq pl0) (p_stamp pl0) wall
        = (b_replay b', true)
  end.
Proof.
  unfold boundary_open.
  destruct (envelope_open (b_allowlist b) d (b_mtu b)) as [env|] eqn:Henv; [|done].
  apply envelope_open_spec in Henv as (sg & _ & _ & Hmax & _ & Hd & Hv).
  assert (Hver : ve_peer env ∈ b_allowlist b ∧ verify_strict (ve_peer env) (signed_bytes
    (signed_contents IDENTITY_ENVELOPE_VERSION (to_le 4 (len (ve_inner env))) (ve_inner env))) sg = true).
  { revert Hv. unfold allowlist_verify. cbn. case_bool_decide; [done|].
    destruct (key_valid _); [|done]. by destruct (verify_strict _ _ _). }
  unfold authenticate. destruct (open (b_authenticator b) (ve_inner env)) as [pl0|] eqn:Ho; [|done].
  cbn [ok_or]. destruct (check_version pl0) as [pl|] eqn:Hcv; [|done].
  apply check_version_spec in Hcv as (Hb & Hq & Ht). cbn [ae_peer].
  destruct (peer_state (ve_peer env)) as [known count] eqn:Hps.
  destruct (negb known && (b_max_peers b <=? count)%N) eqn:Hcap; [done|].
  unfold envelope_verify_replay, verify_replay. cbn [has_inner_replay_header ae_payload ae_peer].
  destruct (match b_authenticator b with Disabled => false | _ => true end) eqn:Hdis; cbn [negb].
  2:{ by intros ?. }
  rewrite <- Hq, <- Ht. destruct (ReplayFilter.check_and_record _ _ _ _ _) as [f r] eqn:Hrep.
  destruct r; cbn; [|by intros ?]. exists sg, (ve_inner env), pl0. rewrite Hps. cbn.
  split_and!; try done; try apply Hver.
  - by intros E; rewrite E in Hdis.
  - destruct known; [by left|right]. cbn in Hcap. bool_to_prop. done.
Qed.
