(* ===== verification/Routes.v ===== *)
(** * Route confirmation ([gossip/src/peer/routes.rs])

    A signed packet proves who sent it, not that its source address answers. The directory keeps
    confirmed routes and outstanding challenges; only the echo of a random nonce, signed by the
    challenged peer and arriving from the challenged address in time, promotes a route. The random
    challenge and the AEAD nonce are arguments. *)
From stdpp Require Import gmap list sorting.
From Stdlib Require Import NArith.
From Stdlib.Strings Require Import Byte.
From S2P Require Import Prelude Bytes Replay Auth Framing Reassembly Peer.

Definition CHALLENGE : byte := xf0.
Definition RESPONSE : byte := xf1.
Definition CONTROL_LEN : nat := 1 + 32 + 32.

Definition encode_control (kind : byte) (recipient : PeerId) (nonce : list byte) : list byte :=
  kind :: recipient ++ nonce.

Definition parse_control (bytes : list byte) : option (PeerId * list byte) :=
  if negb (length bytes =? CONTROL_LEN) then None
  else Some (slice 1 33 bytes, drop 33 bytes).

Section routes.
Context `{Ed25519, Mac, Aead}.
Context {A : Type} `{EqDecision A}.
Context (blake3_hash : list byte → list byte).

Record RoutedDatagram := { rd_destination : A; rd_bytes : list byte }.

Inductive SignedRouteReceive :=
| Framed (peer : PeerId) (report : ReceiveReport)
| Probing (peer : PeerId) (challenge : option RoutedDatagram)
| Reply (d : RoutedDatagram)
| Confirmed (peer : PeerId)
| Recovery (peer : PeerId) (control : RecoveryControl)
| Ignored.

Inductive SignedRouteError := Signed (e : SignedDatagramError) | NoConfirmedRoute.

Record ConfirmedRoute := { c_route : A; c_signer : PeerId }.
Record PendingRoute := { pd_address : A; pd_nonce : list byte; pd_issued : N }.

Record SignedPeerRoutes := {
  confirmed : gmap PeerId ConfirmedRoute;
  pending : gmap PeerId PendingRoute;
  max_peers : N;
  challenge_ttl : N;
}.

Definition routes_new (max ttl : N) : SignedPeerRoutes :=
  {| confirmed := ∅; pending := ∅; max_peers := max; challenge_ttl := ttl |}.

Definition route (s : SignedPeerRoutes) (peer : PeerId) : option A := c_route <$> confirmed s !! peer.

Definition peer_le (a b : PeerId) : Prop := ord_leb a b = true.
#[local] Instance peer_le_dec : RelDecision peer_le.
Proof. intros a b. unfold peer_le. apply _. Defined.
Definition confirmed_peers (s : SignedPeerRoutes) : list PeerId :=
  merge_sort peer_le ((λ kv, c_signer kv.2) <$> map_to_list (confirmed s)).

Definition routes_len (s : SignedPeerRoutes) : N := N.of_nat (size (confirmed s)).

Definition routes_decommission (s : SignedPeerRoutes) (peer : PeerId) : SignedPeerRoutes :=
  {| confirmed := delete peer (confirmed s); pending := delete peer (pending s);
     max_peers := max_peers s; challenge_ttl := challenge_ttl s |}.

Definition seal_to (s : SignedPeerRoutes) (b : SignedDatagramBoundary) (nonce : list byte) (wall : N)
    (peer : PeerId) (frame : list byte)
    : SignedDatagramBoundary * result RoutedDatagram SignedRouteError :=
  match route s peer with
  | None => (b, Err NoConfirmedRoute)
  | Some destination =>
      let '(b, res) := boundary_seal b nonce wall frame in
      (b, match res with
          | Ok bytes => Ok {| rd_destination := destination; rd_bytes := bytes |}
          | Err e => Err (Signed e)
          end)
  end.

Definition set_pending (s : SignedPeerRoutes) (p : gmap PeerId PendingRoute) : SignedPeerRoutes :=
  {| confirmed := confirmed s; pending := p; max_peers := max_peers s; challenge_ttl := challenge_ttl s |}.

Definition challenge_live (s : SignedPeerRoutes) (now : N) (c : PendingRoute) : bool :=
  (saturating_sub now (pd_issued c) <? challenge_ttl s)%N.

Definition start_probe (s : SignedPeerRoutes) (b : SignedDatagramBoundary)
    (nonce challenge : list byte) (wall : N) (peer : PeerId) (source : A) (now : N)
    : SignedPeerRoutes * SignedDatagramBoundary * result (option RoutedDatagram) SignedRouteError :=
  let s := set_pending s (filter (λ kv, challenge_live s now kv.2 = true) (pending s)) in
  if bool_decide (pd_address <$> pending s !! peer = Some source) then (s, b, Ok None)
  else if bool_decide (pending s !! peer = None) && bool_decide (confirmed s !! peer = None)
          && (max_peers s <=? N.of_nat (size (confirmed s)) + N.of_nat (size (pending s)))%N
  then (s, b, Ok None)
  else
    let '(b, res) := boundary_seal b nonce wall (encode_control CHALLENGE peer challenge) in
    match res with
    | Err e => (s, b, Err (Signed e))
    | Ok bytes =>
        (set_pending s (<[peer := {| pd_address := source; pd_nonce := challenge; pd_issued := now |}]>
                          (pending s)), b,
         Ok (Some {| rd_destination := source; rd_bytes := bytes |}))
    end.

Definition is_recovery_tag (tag : option byte) : bool :=
  bool_decide (tag = Some MISSING_REPORT_TAG) || bool_decide (tag = Some COMPLETION_ACK_TAG).

(** The state a reception threads: the directory, the boundary and the reassembler. *)
Record RouteState := {
  rs_routes : SignedPeerRoutes;
  rs_boundary : SignedDatagramBoundary;
  rs_reassembler : Reassembler PeerId;
}.

Definition receive (st : RouteState) (nonce challenge : list byte) (wall : N) (datagram : list byte)
    (source : A) (peer_state : PeerId → bool * N) (now : N)
    : option (RouteState * result SignedRouteReceive SignedRouteError) :=
  let s := rs_routes st in
  let r := rs_reassembler st in
  let '(b, res) := boundary_open (rs_boundary st) datagram peer_state wall in
  let st_b b := {| rs_routes := s; rs_boundary := b; rs_reassembler := r |} in
  match res with
  | Err e => Some (st_b b, Err (Signed e))
  | Ok checked =>
      let peer := rc_peer checked in
      let frame := p_bytes (rc_payload checked) in
      if bool_decide (head frame = Some CHALLENGE) then
        match parse_control frame with
        | None => Some (st_b b, Ok Ignored)
        | Some (recipient, nonce_in) =>
            if bool_decide (recipient ≠ local_peer b) then Some (st_b b, Ok Ignored)
            else
              let '(b, sealed) := boundary_seal b nonce wall (encode_control RESPONSE peer nonce_in) in
              Some (st_b b, match sealed with
                            | Ok bytes => Ok (Reply {| rd_destination := source; rd_bytes := bytes |})
                            | Err e => Err (Signed e)
                            end)
        end
      else if bool_decide (head frame = Some RESPONSE) then
        match parse_control frame with
        | None => Some (st_b b, Ok Ignored)
        | Some (recipient, nonce_in) =>
            if bool_decide (recipient ≠ local_peer b) then Some (st_b b, Ok Ignored)
            else
              let matches :=
                match pending s !! peer with
                | Some c => bool_decide (pd_address c = source) && bool_decide (pd_nonce c = nonce_in)
                            && challenge_live s now c
                | None => false
                end in
              if negb matches then Some (st_b b, Ok Ignored)
              else
                Some ({| rs_routes :=
                           {| confirmed := <[peer := {| c_route := source; c_signer := peer |}]> (confirmed s);
                              pending := delete peer (pending s);
                              max_peers := max_peers s; challenge_ttl := challenge_ttl s |};
                         rs_boundary := b; rs_reassembler := r |}, Ok (Confirmed peer))
        end
      else if bool_decide (route s peer = Some source) then
        if is_recovery_tag (head frame) then
          let max_ranges := max_missing_ranges_for_budget (payload_budget b) 0 u16_max in
          Some (st_b b, match parse_recovery_control frame max_ranges with
                        | Ok (Some control) => Ok (Recovery peer control)
                        | _ => Ok Ignored
                        end)
        else
          '(r, report) ← accept blake3_hash r peer frame now;
          Some ({| rs_routes := s; rs_boundary := b; rs_reassembler := r |}, Ok (Framed peer report))
      else
        let '(s, b, res) := start_probe s b nonce challenge wall peer source now in
        Some ({| rs_routes := s; rs_boundary := b; rs_reassembler := r |},
              match res with Ok c => Ok (Probing peer c) | Err e => Err e end)
  end.

(** ** Lemmas *)

Lemma parse_encode_control kind id nonce :
  length id = 32 → length nonce = 32 → parse_control (encode_control kind id nonce) = Some (id, nonce).
Proof.
  intros Hi Hn. unfold parse_control, encode_control. cbn [length]. rewrite length_app, Hi, Hn.
  cbn [negb Nat.eqb CONTROL_LEN Nat.add]. rewrite slice_cons, slice_app_l, slice_all by lia.
  cbn [skipn]. by rewrite drop_app_length' by done.
Qed.

Lemma size_union_bound (X Y : gset PeerId) : size (X ∪ Y) ≤ size X + size Y.
Proof. rewrite size_union_alt. apply Nat.add_le_mono_l, subseteq_size. set_solver. Qed.

(** Tracked identities: confirmed or challenged. *)
Definition tracked (s : SignedPeerRoutes) : gset PeerId := dom (confirmed s) ∪ dom (pending s).
Definition routes_bounded (s : SignedPeerRoutes) : Prop := (N.of_nat (size (tracked s)) ≤ max_peers s)%N.

Lemma tracked_mono s s' :
  tracked s' ⊆ tracked s → max_peers s' = max_peers s → routes_bounded s → routes_bounded s'.
Proof. unfold routes_bounded. intros Hsub%subseteq_size -> Hb. lia. Qed.

Lemma start_probe_bounded s b nonce ch wall peer source now :
  routes_bounded s → routes_bounded (start_probe s b nonce ch wall peer source now).1.1.
Proof.
  intros Hb. unfold start_probe.
  set (s1 := set_pending s (filter _ (pending s))).
  assert (Hs1 : routes_bounded s1).
  { apply (tracked_mono s); [|done|done]. unfold tracked. cbn.
    pose proof (dom_filter_subseteq (D := gset PeerId)
      (λ kv, challenge_live s now kv.2 = true) (pending s)). set_solver. }
  case_test; [done|]. case_test; [done|].
  destruct (boundary_seal _ _ _ _) as [b' [bytes|e]]; [|done]. cbn [fst].
  destruct (decide (peer ∈ tracked s1)) as [Hin|Hnin].
  - apply (tracked_mono s1); [|done|done]. unfold tracked in *. cbn [set_pending confirmed pending].
    rewrite dom_insert_L. set_solver.
  - unfold tracked in Hnin. rewrite not_elem_of_union, !not_elem_of_dom in Hnin. destruct Hnin as [Hc Hp].
    rewrite Hc, Hp in E0. rewrite !(bool_decide_eq_true_2 (None = None)) in E0 by done. cbn [andb] in E0.
    destruct E0 as [E0|E0]; [done|]. bool_to_prop.
    unfold routes_bounded, tracked. cbn [set_pending confirmed pending max_peers].
    rewrite dom_insert_L.
    assert (Hle : size (dom (confirmed s1) ∪ ({[peer]} ∪ dom (pending s1)) : gset PeerId)
      ≤ size (dom (confirmed s1) : gset PeerId) + (1 + size (dom (pending s1) : gset PeerId))).
    { etrans; [apply size_union_bound|]. apply Nat.add_le_mono_l. etrans; [apply size_union_bound|].
      by rewrite size_singleton. }
    rewrite !size_dom in Hle. lia.
Qed.

Lemma parse_control_inv frame k id n :
  head frame = Some k → parse_control frame = Some (id, n) → frame = encode_control k id n.
Proof.
  unfold parse_control, encode_control. destruct (negb _) eqn:E; [done|].
  destruct frame as [|k' w]; [done|]. intros [= ->] Hp. rewrite slice_cons in Hp.
  change (drop 33 (k :: w)) with (drop 32 w) in Hp.
  assert (id = slice 0 32 w ∧ n = drop 32 w) as [-> ->] by (split; congruence).
  f_equal. unfold slice. rewrite drop_0. symmetry. apply take_drop.
Qed.

Lemma boundary_open_local b d ps wall : local_peer (boundary_open b d ps wall).1 = local_peer b.
Proof.
  unfold boundary_open. destruct (envelope_open _ _ _) as [e|]; [|done].
  destruct (authenticate _ _) as [v|]; [|done]. destruct (ps (ae_peer v)) as [known count].
  case_test; [done|]. by destruct (envelope_verify_replay _ _ _).
Qed.

Lemma start_probe_route s b nonce ch wall peer source now p :
  route (start_probe s b nonce ch wall peer source now).1.1 p = route s p.
Proof.
  unfold start_probe. repeat (case_test; [done|]). by destruct (boundary_seal _ _ _ _) as [b' []].
Qed.

(** What one reception may do to the directory and to the reassembler. *)
Record receive_effect (st : RouteState) (datagram : list byte) (source : A)
    (peer_state : PeerId → bool * N) (wall now : N) (st' : RouteState)
    (res : result SignedRouteReceive SignedRouteError) : Prop := {
  re_bounded : routes_bounded (rs_routes st) → routes_bounded (rs_routes st');
  re_route : ∀ p, route (rs_routes st') p ≠ route (rs_routes st) p →
    route (rs_routes st') p = Some source ∧ res = Ok (Confirmed p) ∧
    ∃ c rc, pending (rs_routes st) !! p = Some c ∧ pd_address c = source ∧
      challenge_live (rs_routes st) now c = true ∧
      (boundary_open (rs_boundary st) datagram peer_state wall).2 = Ok rc ∧ rc_peer rc = p ∧
      p_bytes (rc_payload rc) = encode_control RESPONSE (local_peer (rs_boundary st)) (pd_nonce c);
  re_reassembler : rs_reassembler st' ≠ rs_reassembler st →
    ∃ rc, (boundary_open (rs_boundary st) datagram peer_state wall).2 = Ok rc ∧
      route (rs_routes st) (rc_peer rc) = Some source;
}.

Lemma effect_same st datagram source ps wall now st' res :
  rs_routes st' = rs_routes st → rs_reassembler st' = rs_reassembler st →
  receive_effect st datagram source ps wall now st' res.
Proof. intros Hr Hre. constructor; rewrite ?Hr, ?Hre; auto; done. Qed.

Lemma receive_effects st nonce ch wall d source ps now st' res :
  receive st nonce ch wall d source ps now = Some (st', res) →
  receive_effect st d source ps wall now st' res.
Proof.
  unfold receive. pose proof (boundary_open_local (rs_boundary st) d ps wall) as Hloc.
  destruct (boundary_open (rs_boundary st) d ps wall) as [b [rc|e]] eqn:Hopen.
  2:{ intros [= <- <-]. by apply effect_same. }
  cbn [fst] in Hloc. case_bool_decide as Hch.
  { destruct (parse_control _) as [[recipient n]|]; [|intros [= <- <-]; by apply effect_same].
    case_bool_decide; [intros [= <- <-]; by apply effect_same|].
    destruct (boundary_seal _ _ _ _) as [b' sealed]. intros [= <- <-]. by apply effect_same. }
  case_bool_decide as Hresp.
  { destruct (parse_control _) as [[recipient n]|] eqn:Hpc; [|intros [= <- <-]; by apply effect_same].
    case_bool_decide as Hrec; [intros [= <- <-]; by apply effect_same|].
    destruct (pending (rs_routes st) !! rc_peer rc) as [c|] eqn:Hpend;
      [|intros [= <- <-]; by apply effect_same].
    destruct (negb _) eqn:Hm; [intros [= <- <-]; by apply effect_same|]. bool_to_prop.
    intros [= <- <-]. constructor; cbn [rs_routes rs_reassembler]; [| |done].
    - apply tracked_mono; [|done]. unfold tracked. cbn [confirmed pending]. rewrite dom_insert_L, dom_delete_L.
      assert (rc_peer rc ∈ (dom (pending (rs_routes st)) : gset PeerId)) by (by apply elem_of_dom).
      set_solver.
    - intros p. unfold route. cbn [confirmed]. destruct (decide (p = rc_peer rc)) as [->|Hne].
      + rewrite lookup_insert_eq. intros _. split; [done|]. split; [done|]. exists c, rc.
        split_and!; [done|done|done|by rewrite Hopen|done|].
        apply parse_control_inv with (k := RESPONSE) in Hpc; [|done].
        rewrite Hpc. subst. congruence.
      + rewrite lookup_insert_ne by done. done. }
  case_bool_decide as Hroute.
  { case_test; [intros [= <- <-]; by apply effect_same|].
    destruct (accept _ _ _ _ _) as [[r' report]|]; cbn; [|done]. intros [= <- <-].
    constructor; cbn [rs_routes rs_reassembler]; auto; [done|]. intros _. exists rc. by rewrite Hopen. }
  pose proof (start_probe_bounded (rs_routes st) b nonce ch wall (rc_peer rc) source now) as Hbd.
  pose proof (start_probe_route (rs_routes st) b nonce ch wall (rc_peer rc) source now) as Hrt.
  destruct (start_probe _ _ _ _ _ _ _ _) as [[s' b'] pr]. cbn [fst] in *. intros [= <- <-].
  constructor; cbn [rs_routes rs_reassembler]; auto; [|done]. intros p Hp. by rewrite Hrt in Hp.
Qed.
End routes.
Arguments RoutedDatagram A : clear implicits.
Arguments SignedPeerRoutes A : clear implicits.
Arguments RouteState A : clear implicits.

(** ** Properties *)

Definition demo_route_state : RouteState N :=
  {| rs_routes :=
       {| confirmed := ∅;
          pending := {[ demo_seed x05 :=
            {| pd_address := 77%N; pd_nonce := replicate 32 x09; pd_issued := 100 |} ]};
          max_peers := 4; challenge_ttl := 500 |};
     rs_boundary := demo_boundary x06 [x05];
     rs_reassembler := for_identity
       {| max_logical_message_size := 100; max_fragments_per_message := 8;
          max_incomplete_transfers_per_peer := 2; max_reassembly_bytes_per_peer := 50;
          max_total_reassembly_bytes := 60; reassembly_ttl := 1000 |} |}.

(** The peer's signed answer to the outstanding challenge. *)
Definition demo_response : list byte :=
  match (@boundary_seal toy_ed25519 toy_mac toy_aead (demo_boundary x05 []) (replicate 24 x00) 700
           (encode_control RESPONSE (demo_seed x06) (replicate 32 x09))).2 with
  | Ok frame => frame
  | Err _ => []
  end.

(** C38. One reception keeps the tracked identities within [max_peers]; changes a confirmed
    route only to the source of a packet that echoes, in time, the outstanding nonce of exactly
    that signer and address; and touches the reassembler only for a signer whose confirmed route
    is that source. *)
Theorem routes_change_only_by_challenge `{Ed25519, Mac, Aead} {A} `{EqDecision A} blake3_hash
    (st : RouteState A) nonce challenge wall d source peer_state now st' res :
  receive blake3_hash st nonce challenge wall d source peer_state now = Some (st', res) →
  receive_effect st d source peer_state wall now st' res.
Proof. apply receive_effects. Qed.

Lemma routes_change_only_by_challenge_witness :
  match @receive toy_ed25519 toy_mac toy_aead N _ (λ m, m) demo_route_state (replicate 24 x00)
          (replicate 32 x0a) 900 demo_response 77%N (λ _, (false, 0%N)) 300 with
  | Some (st', res) => res = Ok (Confirmed (demo_seed x05)) ∧
      route (rs_routes st') (demo_seed x05) = Some 77%N ∧
      @receive_effect toy_ed25519 toy_mac toy_aead N demo_route_state demo_response 77%N
        (λ _, (false, 0%N)) 900 300 st' res
  | None => False
  end.
Proof.
  destruct (@receive toy_ed25519 toy_mac toy_aead N _ (λ m, m) demo_route_state (replicate 24 x00)
    (replicate 32 x0a) 900 demo_response 77%N (λ _, (false, 0%N)) 300) as [[st' res]|] eqn:E.
  - assert (E' : (λ '(st', res), (route (rs_routes st') (demo_seed x05), res)) <$> Some (st', res)
      = Some (Some 77%N, Ok (Confirmed (demo_seed x05)))) by (rewrite <- E; vm_compute; reflexivity).
    cbn in E'. injection E' as E1 E2. split; [exact E2|]. split; [exact E1|].
    exact (routes_change_only_by_challenge _ _ _ _ _ _ _ _ _ _ _ E).
  - exfalso. revert E. vm_compute. discriminate.
Defined.
