(* ===== verification/RecoveryBook.v ===== *)
(** * Sender-side selective recovery ([src/replica/recovery.rs], [config/framing.rs])

    The bounded book of payloads a capable peer may ask for again: retention with per-peer and
    global count and byte limits, a bounded number of retransmission rounds per transfer, and
    expiring capability advertisements. *)
From stdpp Require Import gmap list sorting.
From Stdlib Require Import NArith.
From Stdlib.Strings Require Import Byte.
From S2P Require Import Prelude Bytes Btree Framing.

(** [FramingConfig] *)
Record FramingConfig := {
  datagram_payload_budget : N;
  fc_max_logical_message_size : N;
  fc_max_fragments_per_message : N;
  fc_max_incomplete_transfers_per_peer : N;
  fc_max_reassembly_bytes_per_peer : N;
  fc_max_total_reassembly_bytes : N;
  fc_reassembly_ttl : N;
  selective_recovery : bool;
  max_missing_ranges_per_report : N;
  max_outbound_recovery_transfers_per_peer : N;
  max_total_outbound_recovery_transfers : N;
  max_outbound_recovery_bytes_per_peer : N;
  max_total_outbound_recovery_bytes : N;
  max_selective_recovery_rounds : N;
  recovery_ttl : N;
  recovery_capability_ttl : N;
}.

Definition seconds (n : N) : N := n * 1000000000.

Definition FramingConfig_default : FramingConfig := {|
  datagram_payload_budget := 1200;
  fc_max_logical_message_size := 8 * 1024 * 1024;
  fc_max_fragments_per_message := 8192;
  fc_max_incomplete_transfers_per_peer := 8;
  fc_max_reassembly_bytes_per_peer := 16 * 1024 * 1024;
  fc_max_total_reassembly_bytes := 64 * 1024 * 1024;
  fc_reassembly_ttl := seconds 90;
  selective_recovery := true;
  max_missing_ranges_per_report := 128;
  max_outbound_recovery_transfers_per_peer := 8;
  max_total_outbound_recovery_transfers := 64;
  max_outbound_recovery_bytes_per_peer := 16 * 1024 * 1024;
  max_total_outbound_recovery_bytes := 64 * 1024 * 1024;
  max_selective_recovery_rounds := 4;
  recovery_ttl := seconds 120;
  recovery_capability_ttl := seconds 300;
|}.

Inductive FramingConfigError :=
| DatagramPayloadBudgetTooSmall (configured minimum : N)
| DatagramPayloadBudgetTooLarge (configured maximum : N)
| LogicalMessageSizeTooLarge (configured maximum : N).

Definition framing_validate (c : FramingConfig) (auth_overhead : N) : result unit FramingConfigError :=
  let max_udp_payload := 65507%N in
  let minimum := saturating_add (saturating_add auth_overhead (N.of_nat FRAGMENT_HEADER_LEN)) 1 in
  if (datagram_payload_budget c <? minimum)%N
  then Err (DatagramPayloadBudgetTooSmall (datagram_payload_budget c) minimum)
  else if (max_udp_payload <? datagram_payload_budget c)%N
  then Err (DatagramPayloadBudgetTooLarge (datagram_payload_budget c) max_udp_payload)
  else if (u32_max <? fc_max_logical_message_size c)%N
  then Err (LogicalMessageSizeTooLarge (fc_max_logical_message_size c) u32_max)
  else Ok tt.

Definition reassembly_limits (c : FramingConfig) : ReassemblyLimits :=
  {| max_logical_message_size := fc_max_logical_message_size c;
     max_fragments_per_message := fc_max_fragments_per_message c;
     max_incomplete_transfers_per_peer := fc_max_incomplete_transfers_per_peer c;
     max_reassembly_bytes_per_peer := fc_max_reassembly_bytes_per_peer c;
     max_total_reassembly_bytes := fc_max_total_reassembly_bytes c;
     reassembly_ttl := fc_reassembly_ttl c |}.

(** [b"sr\x01"] *)
Definition SELECTIVE_RECOVERY_CAPABILITY : list byte := [x73; x72; x01].
Definition is_selective_recovery_capability (payload : list byte) : bool :=
  bool_decide (payload = SELECTIVE_RECOVERY_CAPABILITY).

Record OutboundTransfer := {
  ot_payload : list byte;
  ot_last_activity : N;
  ot_last_full_send : N;
  recovery_rounds : N;
}.

Record RetainReport := {
  rr_retained : bool;
  skip_full_send : bool;
  fallback_full_retry : bool;
  rr_expired : N;
  rr_evicted : N;
  rr_transfers : N;
  rr_bytes : N;
}.

Record ExpireReport := {
  er_transfers : N;
  er_bytes : N;
  remaining_transfers : N;
  remaining_bytes : N;
}.

Record RecoveryPayload := { rp_payload : list byte; exhausted_after_this_round : bool }.

Definition FULL_RETRY_INTERVAL : N := seconds 12.

Section book.
Context {P : Type} `{Countable P, RustOrd P}.
Notation key := (P * id32)%type.

Record RecoveryBook := {
  capabilities : gmap P N;
  outbound : gmap key OutboundTransfer;
  total_bytes : N;
}.
Implicit Types (b : RecoveryBook) (cfg : FramingConfig).

Definition book_for_identity : RecoveryBook :=
  {| capabilities := ∅; outbound := ∅; total_bytes := 0 |}.

Definition set_capabilities b (c : gmap P N) : RecoveryBook :=
  {| capabilities := c; outbound := outbound b; total_bytes := total_bytes b |}.

(** [remove]: the removed transfer, if any. *)
Definition book_remove b (k : key) : RecoveryBook * option OutboundTransfer :=
  match outbound b !! k with
  | None => (b, None)
  | Some removed =>
      ({| capabilities := capabilities b; outbound := delete k (outbound b);
          total_bytes := saturating_sub (total_bytes b) (len (ot_payload removed)) |}, Some removed)
  end.

Definition expire_capabilities b (now ttl : N) : RecoveryBook :=
  set_capabilities b (filter (λ kv, (saturating_sub now kv.2 <? ttl)%N = true) (capabilities b)).

Definition expired_keys b (now ttl : N) : list key :=
  omap (λ '(k, t), if (ttl <=? saturating_sub now (ot_last_activity t))%N then Some k else None)
    (map_to_list (outbound b)).

Definition expire_outbound b (now ttl : N) : RecoveryBook * N :=
  let expired := expired_keys b now ttl in
  (fold_left (λ b k, (book_remove b k).1) expired b, len expired).

Definition book_expire b (now : N) cfg : RecoveryBook * ExpireReport :=
  let b := expire_capabilities b now (recovery_capability_ttl cfg) in
  let before_bytes := total_bytes b in
  let '(b, expired) := expire_outbound b now (recovery_ttl cfg) in
  (b, {| er_transfers := expired; er_bytes := saturating_sub before_bytes (total_bytes b);
         remaining_transfers := N.of_nat (size (outbound b)); remaining_bytes := total_bytes b |}).

Definition record_capability b (peer : P) (now : N) cfg (max_peers : N) : RecoveryBook :=
  if negb (selective_recovery cfg) then b
  else
    let '(b, _) := book_expire b now cfg in
    if bool_decide (is_Some (capabilities b !! peer)) || (N.of_nat (size (capabilities b)) <? max_peers)%N
    then set_capabilities b (<[peer := now]> (capabilities b))
    else b.

Definition supports b (peer : P) (now : N) cfg : RecoveryBook * bool :=
  if negb (selective_recovery cfg) then (b, false)
  else
    let b := expire_capabilities b now (recovery_capability_ttl cfg) in
    (b, bool_decide (is_Some (capabilities b !! peer))).

Definition of_peer (peer : P) (k : key) : bool := bool_decide (k.1 = peer).

Definition peer_transfer_count b (peer : P) : N :=
  map_sum (λ k _, if of_peer peer k then 1 else 0)%N (outbound b).
Definition book_peer_bytes b (peer : P) : N :=
  map_sum (λ k t, if of_peer peer k then len (ot_payload t) else 0)%N (outbound b).

Definition oldest b (peer : option P) : option key :=
  (λ '(_, p, id), (p, id)) <$>
    min_of (omap (λ '(k, t),
      if match peer with None => true | Some wanted => of_peer wanted k end
      then Some (ot_last_activity t, k.1, k.2) else None) (map_to_list (outbound b))).

Definition retain_report b (retained : bool) (expired evicted : N) (skip fallback : bool) : RetainReport :=
  {| rr_retained := retained; skip_full_send := skip; fallback_full_retry := fallback;
     rr_expired := expired; rr_evicted := evicted;
     rr_transfers := N.of_nat (size (outbound b)); rr_bytes := total_bytes b |}.

(** The loop body's two early returns, nothing oldest and nothing removed, as one choice. *)
Definition pick_oldest b (peer : option P) : option key :=
  k ← oldest b peer; _ ← (book_remove b k).2; Some k.

(** One of the four eviction loops of [retain]; fuel is the number of retained transfers. *)
Definition make_room (over : RecoveryBook → bool) (peer : option P) b (evicted : N)
    : option (RecoveryBook * N * bool) :=
  evict_loop over (λ b, pick_oldest b peer) (λ b k, (book_remove b k).1) (size (outbound b)) b evicted.

(** [None]: a loop ran out of fuel. *)
Definition retain b (peer : P) (transfer_id : id32) (payload : list byte) (now : N) cfg
    : option (RecoveryBook * RetainReport) :=
  let '(b, expired) := expire_outbound b now (recovery_ttl cfg) in
  if negb (selective_recovery cfg)
     || (max_outbound_recovery_bytes_per_peer cfg <? len payload)%N
     || (max_total_outbound_recovery_bytes cfg <? len payload)%N
     || (max_outbound_recovery_transfers_per_peer cfg =? 0)%N
     || (max_total_outbound_recovery_transfers cfg =? 0)%N
  then Some (b, retain_report b false expired 0 false false)
  else
    let k := (peer, transfer_id) in
    match outbound b !! k with
    | Some existing =>
        let fallback := (FULL_RETRY_INTERVAL <=? saturating_sub now (ot_last_full_send existing))%N in
        let existing :=
          {| ot_payload := ot_payload existing; ot_last_activity := now;
             ot_last_full_send := if fallback then now else ot_last_full_send existing;
             recovery_rounds := recovery_rounds existing |} in
        let b := {| capabilities := capabilities b; outbound := <[k := existing]> (outbound b);
                    total_bytes := total_bytes b |} in
        Some (b, retain_report b true expired 0 (negb fallback) fallback)
    | None =>
        '(b, evicted, ok) ← make_room
          (λ b, (max_outbound_recovery_transfers_per_peer cfg <=? peer_transfer_count b peer)%N)
          (Some peer) b 0;
        if negb ok then Some (b, retain_report b false expired evicted false false) else
        '(b, evicted, ok) ← make_room
          (λ b, (max_total_outbound_recovery_transfers cfg <=? N.of_nat (size (outbound b)))%N)
          None b evicted;
        if negb ok then Some (b, retain_report b false expired evicted false false) else
        '(b, evicted, ok) ← make_room
          (λ b, (max_outbound_recovery_bytes_per_peer cfg
                   <? saturating_add (book_peer_bytes b peer) (len payload))%N)
          (Some peer) b evicted;
        if negb ok then Some (b, retain_report b false expired evicted false false) else
        '(b, evicted, ok) ← make_room
          (λ b, (max_total_outbound_recovery_bytes cfg
                   <? saturating_add (total_bytes b) (len payload))%N)
          None b evicted;
        if negb ok then Some (b, retain_report b false expired evicted false false) else
        let b := {| capabilities := capabilities b;
                    outbound := <[k := {| ot_payload := payload; ot_last_activity := now;
                                          ot_last_full_send := now; recovery_rounds := 0 |}]> (outbound b);
                    total_bytes := total_bytes b + len payload |} in
        Some (b, retain_report b true expired evicted false false)
    end.

Definition payload_for_report b (peer : P) (transfer_id : id32) (now : N) cfg
    : RecoveryBook * option RecoveryPayload :=
  let '(b, _) := expire_outbound b now (recovery_ttl cfg) in
  match outbound b !! (peer, transfer_id) with
  | None => (b, None)
  | Some t =>
      if (max_selective_recovery_rounds cfg <=? recovery_rounds t)%N then (b, None)
      else
        let t := {| ot_payload := ot_payload t; ot_last_activity := now;
                    ot_last_full_send := ot_last_full_send t;
                    recovery_rounds := recovery_rounds t + 1 |} in
        ({| capabilities := capabilities b; outbound := <[(peer, transfer_id) := t]> (outbound b);
            total_bytes := total_bytes b |},
         Some {| rp_payload := ot_payload t;
                 exhausted_after_this_round :=
                   (max_selective_recovery_rounds cfg <=? recovery_rounds t)%N |})
  end.

Definition book_complete b (peer : P) (transfer_id : id32) : RecoveryBook * bool :=
  let '(b, r) := book_remove b (peer, transfer_id) in (b, bool_decide (is_Some r)).
Definition book_forget b (peer : P) (transfer_id : id32) : RecoveryBook * bool :=
  let '(b, r) := book_remove b (peer, transfer_id) in (b, bool_decide (is_Some r)).
Definition occupancy b : N * N := (N.of_nat (size (outbound b)), total_bytes b).

(** ** Invariant *)

Record book_cfg_ok cfg : Prop := {
  bc_peer : (max_outbound_recovery_bytes_per_peer cfg < usize_max)%N;
  bc_total : (max_total_outbound_recovery_bytes cfg < usize_max)%N;
}.

Definition payload_sum (m : gmap key OutboundTransfer) : N := map_sum (λ _ t, len (ot_payload t)) m.

Record book_ok cfg b : Prop := {
  bk_sum : total_bytes b = payload_sum (outbound b);
  bk_total : (total_bytes b ≤ max_total_outbound_recovery_bytes cfg)%N;
  bk_size : (N.of_nat (size (outbound b)) ≤ max_total_outbound_recovery_transfers cfg)%N;
  bk_peer : ∀ peer, (peer_transfer_count b peer ≤ max_outbound_recovery_transfers_per_peer cfg ∧
                     book_peer_bytes b peer ≤ max_outbound_recovery_bytes_per_peer cfg)%N;
  bk_rounds : ∀ k t, outbound b !! k = Some t → (recovery_rounds t ≤ max_selective_recovery_rounds cfg)%N;
}.

Lemma book_ok_empty cfg : book_ok cfg book_for_identity.
Proof.
  constructor; cbn; [done|lia|rewrite map_size_empty; lia| |by intros ? ? ?%lookup_empty_Some].
  intros peer. split; apply N.le_0_l.
Qed.

Lemma book_ok_caps cfg b c : book_ok cfg b → book_ok cfg (set_capabilities b c).
Proof. intros [? ? ? Hp ?]. constructor; auto. Qed.

Lemma book_remove_ok cfg b k : book_ok cfg b → book_ok cfg (book_remove b k).1.
Proof.
  intros [Hs Ht Hn Hp Hr]. unfold book_remove. destruct (outbound b !! k) as [t|] eqn:Hk; [|by constructor].
  pose proof (map_sum_delete (λ _ t, len (ot_payload t)) _ _ _ Hk) as Hd. unfold payload_sum, saturating_sub in *.
  pose proof (map_size_delete_le (outbound b) k). cbn in Hd.
  constructor; cbn; [unfold payload_sum; lia|lia|lia| |].
  - intros peer. destruct (Hp peer). unfold peer_transfer_count, book_peer_bytes in *. cbn.
    split; (etrans; [apply map_sum_delete_le|done]).
  - intros k' t' [_ ?]%lookup_delete_Some. eauto.
Qed.

Lemma fold_remove_ok cfg b ks : book_ok cfg b → book_ok cfg (fold_left (λ b k, (book_remove b k).1) ks b).
Proof. intros. apply fold_left_inv; [done|]. intros. by apply book_remove_ok. Qed.

Lemma expire_outbound_ok cfg b now ttl : book_ok cfg b → book_ok cfg (expire_outbound b now ttl).1.
Proof. apply fold_remove_ok. Qed.

Lemma remove_capabilities b k : capabilities (book_remove b k).1 = capabilities b.
Proof. unfold book_remove. by destruct (outbound b !! k). Qed.

Lemma expire_outbound_capabilities b now ttl : capabilities (expire_outbound b now ttl).1 = capabilities b.
Proof.
  apply (fold_left_inv (λ s, capabilities s = capabilities b)); [done|].
  intros s k _ <-. apply remove_capabilities.
Qed.

Lemma expire_outbound_sub b now ttl : outbound (expire_outbound b now ttl).1 ⊆ outbound b.
Proof.
  unfold expire_outbound. cbn. apply (fold_left_inv (λ s, outbound s ⊆ outbound b)); [done|].
  intros s k _ Hs. unfold book_remove. destruct (outbound s !! k); [|done]. cbn.
  etrans; [apply delete_subseteq|done].
Qed.

Lemma oldest_Some b peer k : oldest b peer = Some k → is_Some (outbound b !! k).
Proof.
  unfold oldest. intros ([[t p] id] & Hm%min_of_elem & ->)%fmap_Some.
  apply list_elem_of_omap in Hm as ([[p' id'] tr] & Hin & Hi). cbn in Hi.
  destruct (match peer with None => _ | Some _ => _ end); [|done]. injection Hi as <- <- <-.
  apply elem_of_map_to_list in Hin. by eexists.
Qed.

Lemma pick_oldest_Some b peer k : pick_oldest b peer = Some k → is_Some (outbound b !! k).
Proof.
  unfold pick_oldest. intros (k' & Hk & Hr)%bind_Some. apply oldest_Some in Hk as Hs.
  by apply bind_Some in Hr as (? & _ & [= ->]).
Qed.

Lemma make_room_spec cfg over peer b ev :
  book_ok cfg b → ∃ b' ev' ok, make_room over peer b ev = Some (b', ev', ok) ∧ book_ok cfg b' ∧
    outbound b' ⊆ outbound b ∧ capabilities b' = capabilities b ∧ over b' = negb ok.
Proof.
  intros Hb. unfold make_room.
  set (I := λ s, book_ok cfg s ∧ outbound s ⊆ outbound b ∧ capabilities s = capabilities b).
  assert (Hstep : ∀ s x, I s → I (book_remove s x).1).
  { intros s x (Hs & Hsub & Hcap). split; [by apply book_remove_ok|]. rewrite remove_capabilities.
    split; [|done]. unfold book_remove. destruct (outbound s !! x); [|done]. cbn.
    etrans; [apply delete_subseteq|done]. }
  destruct (evict_loop_total over (λ b, pick_oldest b peer) (λ b k, (book_remove b k).1) I
    (λ s, size (outbound s))) with (fuel := size (outbound b)) (s := b) (n := ev)
    as [[[b' ev'] ok] Heq]; [|by split_and!|done|].
  { intros s x Hs Hx. split; [by apply Hstep|]. apply pick_oldest_Some in Hx as [t Ht].
    unfold book_remove. rewrite Ht. cbn. pose proof (map_size_delete_lt _ _ _ Ht). lia. }
  exists b', ev', ok. split; [done|].
  apply evict_loop_inv with (I := I) in Heq as ((? & ? & ?) & ? & _); auto.
  by split_and!.
Qed.

Lemma sub_sums b b' peer :
  outbound b' ⊆ outbound b →
  (peer_transfer_count b' peer ≤ peer_transfer_count b peer)%N ∧
  (book_peer_bytes b' peer ≤ book_peer_bytes b peer)%N ∧ size (outbound b') ≤ size (outbound b).
Proof.
  intros Hsub. split_and!; [by apply map_sum_subseteq..|].
  rewrite <- !size_dom. by apply subseteq_size, subseteq_dom.
Qed.

(** A fresh transfer fits where every loop has made room. *)
Lemma book_insert_ok cfg b peer id t :
  book_ok cfg b → outbound b !! (peer, id) = None → recovery_rounds t = 0%N →
  (peer_transfer_count b peer < max_outbound_recovery_transfers_per_peer cfg)%N →
  (N.of_nat (size (outbound b)) < max_total_outbound_recovery_transfers cfg)%N →
  (book_peer_bytes b peer + len (ot_payload t) ≤ max_outbound_recovery_bytes_per_peer cfg)%N →
  (total_bytes b + len (ot_payload t) ≤ max_total_outbound_recovery_bytes cfg)%N →
  book_ok cfg {| capabilities := capabilities b; outbound := <[(peer, id) := t]> (outbound b);
                 total_bytes := total_bytes b + len (ot_payload t) |}.
Proof.
  intros [Hs Ht Hn Hp Hr] Hk Hr0 Hc Hsz Hpb Htb. unfold payload_sum in *.
  unfold peer_transfer_count, book_peer_bytes in *.
  constructor; cbn.
  - unfold payload_sum. rewrite map_sum_insert by done. lia.
  - done.
  - rewrite map_size_insert_None by done. lia.
  - intros p. specialize (Hp p). unfold peer_transfer_count, book_peer_bytes. cbn.
    rewrite !map_sum_insert by done. unfold of_peer at 1 3. cbn [fst].
    case_bool_decide; subst; lia.
  - intros k t' [[_ <-]|[_ ?]]%lookup_insert_Some; [rewrite Hr0; lia|eauto].
Qed.

(** Refreshing a retained transfer changes no size. *)
Lemma book_update_ok cfg b k t t' :
  book_ok cfg b → outbound b !! k = Some t → ot_payload t' = ot_payload t →
  (recovery_rounds t' ≤ max_selective_recovery_rounds cfg)%N →
  book_ok cfg {| capabilities := capabilities b; outbound := <[k := t']> (outbound b);
                 total_bytes := total_bytes b |}.
Proof.
  intros [Hs Ht Hn Hp Hr] Hk Hpl Hrd.
  assert (Hsum : ∀ (f : key → OutboundTransfer → N), f k t' = f k t →
    map_sum f (<[k := t']> (outbound b)) = map_sum f (outbound b)).
  { intros f Hf. pose proof (map_sum_update f _ _ _ t' Hk). lia. }
  constructor; cbn.
  - unfold payload_sum. rewrite Hsum; [done|by rewrite Hpl].
  - done.
  - rewrite map_size_insert_Some by (by eexists). done.
  - intros p. unfold peer_transfer_count, book_peer_bytes. cbn. rewrite !Hsum; [apply Hp|by rewrite Hpl|done].
  - intros k' t'' [[_ <-]|[_ ?]]%lookup_insert_Some; [done|eauto].
Qed.

(** One eviction loop of [retain]: the failing exit is closed, the rest continues from [b']. *)
Ltac room_step H b' Hb' Hsub :=
  match type of H with
  | book_ok ?cfg ?b =>
      match goal with
      | |- context [make_room ?ov ?p b ?ev] =>
          let ok := fresh "ok" in
          destruct (make_room_spec cfg ov p b ev H) as (b' & ? & ok & -> & Hb' & Hsub & ? & ?);
          cbn [mbind option_bind]; destruct ok; cbn [negb] in *;
            [|eexists _, _; split_and!; [done|done|congruence|done]]; bool_to_prop
      end
  end.

(** The full send is skipped only for a transfer retained before, sent in full recently. *)
Lemma retain_skips cfg b peer id payload now b' rep :
  retain b peer id payload now cfg = Some (b', rep) → skip_full_send rep = true →
  ∃ t, outbound b !! (peer, id) = Some t ∧ (saturating_sub now (ot_last_full_send t) < FULL_RETRY_INTERVAL)%N ∧
    ∃ t', outbound b' !! (peer, id) = Some t' ∧ ot_payload t' = ot_payload t.
Proof.
  unfold retain. pose proof (expire_outbound_sub b now (recovery_ttl cfg)) as Hsub.
  destruct (expire_outbound b now (recovery_ttl cfg)) as [b0 expired]. cbn [fst] in Hsub. case_test; [by intros [= <- <-]|].
  destruct (outbound b0 !! (peer, id)) as [t|] eqn:Hk.
  - intros [= <- <-]. cbn. intros Hf%negb_true_iff%N.leb_gt. exists t. split_and!; [by eapply lookup_weaken|done|].
    eexists. split; [apply lookup_insert_eq|done].
  - intros ([[b1 e1] ok1] & _ & Hr)%bind_Some. destruct (negb ok1); [by injection Hr as <- <-|].
    apply bind_Some in Hr as ([[b2 e2] ok2] & _ & Hr). destruct (negb ok2); [by injection Hr as <- <-|].
    apply bind_Some in Hr as ([[b3 e3] ok3] & _ & Hr). destruct (negb ok3); [by injection Hr as <- <-|].
    apply bind_Some in Hr as ([[b4 e4] ok4] & _ & Hr). destruct (negb ok4); by injection Hr as <- <-.
Qed.

Lemma retain_spec cfg b peer id payload now :
  book_cfg_ok cfg → book_ok cfg b →
  ∃ b' rep, retain b peer id payload now cfg = Some (b', rep) ∧ book_ok cfg b' ∧
    capabilities b' = capabilities b ∧
    (rr_retained rep = true → ∃ t, outbound b' !! (peer, id) = Some t ∧
      (ot_payload t = payload ∨ ∃ t0, outbound b !! (peer, id) = Some t0 ∧ ot_payload t = ot_payload t0)).
Proof.
  intros [Hcp Hct] Hb. unfold retain. pose proof (expire_outbound_ok cfg b now (recovery_ttl cfg) Hb) as Hb0.
  pose proof (expire_outbound_sub b now (recovery_ttl cfg)) as Hsub0.
  pose proof (expire_outbound_capabilities b now (recovery_ttl cfg)) as Hcap0.
  destruct (expire_outbound b now (recovery_ttl cfg)) as [b0 expired]. cbn [fst] in *.
  case_test; [by eexists _, _|].
  destruct (outbound b0 !! (peer, id)) as [t|] eqn:Hk.
  - eexists _, _. split; [done|]. split; [|split; [done|]].
    + eapply book_update_ok; [done|done|done|]. cbn. by apply (bk_rounds _ _ Hb0 _ _ Hk).
    + intros _. eexists. split; [apply lookup_insert_eq|]. cbn. right. exists t.
      split; [by eapply lookup_weaken|done].
  - room_step Hb0 b1 Hb1 Hsub1. room_step Hb1 b2 Hb2 Hsub2.
    room_step Hb2 b3 Hb3 Hsub3. room_step Hb3 b4 Hb4 Hsub4.
    pose proof (sub_sums b1 b2 peer Hsub2) as (? & _ & _).
    pose proof (sub_sums b2 b3 peer Hsub3) as (? & _ & ?).
    pose proof (sub_sums b3 b4 peer Hsub4) as (? & ? & ?).
    unfold saturating_add in *.
    eexists _, _. split; [done|]. split; [|split; [cbn; congruence|]].
    + apply book_insert_ok; cbn; auto; try lia.
      eapply lookup_weaken_None; [|done]. eapply lookup_weaken_None; [|done].
      eapply lookup_weaken_None; [|done]. by eapply lookup_weaken_None.
    + intros _. eexists. split; [apply lookup_insert_eq|]. by left.
Qed.

Lemma payload_for_report_ok cfg b peer id now :
  book_ok cfg b → book_ok cfg (payload_for_report b peer id now cfg).1.
Proof.
  intros Hb. unfold payload_for_report. pose proof (expire_outbound_ok cfg b now (recovery_ttl cfg) Hb) as Hb0.
  destruct (expire_outbound b now (recovery_ttl cfg)) as [b0 e]. cbn [fst] in Hb0.
  destruct (outbound b0 !! (peer, id)) as [t|] eqn:Hk; [|done]. case_test; [done|].
  eapply book_update_ok; [done|done|done|]. cbn. lia.
Qed.

(** ** Sequences of operations *)

Inductive BookOp :=
| BRetain (peer : P) (id : id32) (payload : list byte) (now : N)
| BReport (peer : P) (id : id32) (now : N)
| BComplete (peer : P) (id : id32)
| BForget (peer : P) (id : id32)
| BExpire (now : N)
| BCapability (peer : P) (now : N)
| BSupports (peer : P) (now : N).

Definition book_exec cfg (max_peers : N) b (op : BookOp) : option RecoveryBook :=
  match op with
  | BRetain peer id payload now => fst <$> retain b peer id payload now cfg
  | BReport peer id now => Some (payload_for_report b peer id now cfg).1
  | BComplete peer id => Some (book_complete b peer id).1
  | BForget peer id => Some (book_forget b peer id).1
  | BExpire now => Some (book_expire b now cfg).1
  | BCapability peer now => Some (record_capability b peer now cfg max_peers)
  | BSupports peer now => Some (supports b peer now cfg).1
  end.

Fixpoint book_execs cfg (max_peers : N) b (ops : list BookOp) : option RecoveryBook :=
  match ops with [] => Some b | op :: ops => b ← book_exec cfg max_peers b op; book_execs cfg max_peers b ops end.

Definition caps_ok (max_peers : N) b : Prop := (N.of_nat (size (capabilities b)) ≤ max_peers)%N.

Lemma expire_capabilities_caps mp b now ttl : caps_ok mp b → caps_ok mp (expire_capabilities b now ttl).
Proof.
  unfold caps_ok, expire_capabilities. cbn. intros.
  pose proof (map_size_filter_le (λ kv, (saturating_sub now kv.2 <? ttl)%N = true) (capabilities b)). lia.
Qed.

Lemma book_expire_ok cfg mp b now :
  book_ok cfg b → caps_ok mp b → book_ok cfg (book_expire b now cfg).1 ∧ caps_ok mp (book_expire b now cfg).1.
Proof.
  intros Hb Hcaps. unfold book_expire. set (b1 := expire_capabilities b now (recovery_capability_ttl cfg)).
  assert (book_ok cfg b1) by (by apply book_ok_caps).
  pose proof (expire_outbound_ok cfg b1 now (recovery_ttl cfg) ltac:(done)).
  pose proof (expire_outbound_capabilities b1 now (recovery_ttl cfg)) as E.
  destruct (expire_outbound b1 now (recovery_ttl cfg)) as [b2 e]. cbn [fst] in *.
  split; [done|]. unfold caps_ok. rewrite E. by apply expire_capabilities_caps.
Qed.

Lemma book_exec_ok cfg mp b op :
  book_cfg_ok cfg → book_ok cfg b → caps_ok mp b →
  ∃ b', book_exec cfg mp b op = Some b' ∧ book_ok cfg b' ∧ caps_ok mp b'.
Proof.
  intros Hc Hb Hcaps. destruct op as [peer id payload now|peer id now|peer id|peer id|now|peer now|peer now];
    cbn [book_exec].
  - destruct (retain_spec cfg b peer id payload now Hc Hb) as (b' & rep & -> & ? & E & _).
    exists b'. split_and!; [done|done|]. unfold caps_ok. by rewrite E.
  - eexists. split_and!; [done|by apply payload_for_report_ok|]. unfold caps_ok, payload_for_report.
    pose proof (expire_outbound_capabilities b now (recovery_ttl cfg)) as E.
    destruct (expire_outbound b now (recovery_ttl cfg)) as [b0 e]. cbn [fst] in E.
    destruct (outbound b0 !! (peer, id)); [case_test|]; cbn; by rewrite E.
  - unfold book_complete. pose proof (book_remove_ok cfg b (peer, id) Hb).
    pose proof (remove_capabilities b (peer, id)) as E. destruct (book_remove b (peer, id)). cbn in *.
    eexists. split_and!; [done|done|]. unfold caps_ok. by rewrite E.
  - unfold book_forget. pose proof (book_remove_ok cfg b (peer, id) Hb).
    pose proof (remove_capabilities b (peer, id)) as E. destruct (book_remove b (peer, id)). cbn in *.
    eexists. split_and!; [done|done|]. unfold caps_ok. by rewrite E.
  - destruct (book_expire_ok cfg mp b now Hb Hcaps). eauto.
  - destruct (book_expire_ok cfg mp b now Hb Hcaps) as [Hb' Hc']. unfold record_capability.
    destruct (negb (selective_recovery cfg)); [by exists b|].
    destruct (book_expire b now cfg) as [b1 rep]. cbn [fst] in *. eexists. split; [done|].
    case_test; [|done]. split; [by apply book_ok_caps|]. unfold caps_ok in *. cbn.
    destruct E as [E|E]; bool_to_prop.
    + by rewrite map_size_insert_Some.
    + pose proof (map_size_insert_le (capabilities b1) peer now). lia.
  - unfold supports. destruct (negb (selective_recovery cfg)); [by exists b|].
    eexists. split_and!; [done|by apply book_ok_caps|by apply expire_capabilities_caps].
Qed.

(** Reports for one transfer at successive times, and what each is granted. *)
Fixpoint run_reports cfg b (peer : P) (id : id32) (nows : list N) : list (option RecoveryPayload) :=
  match nows with
  | [] => []
  | now :: nows =>
      let '(b, r) := payload_for_report b peer id now cfg in r :: run_reports cfg b peer id nows
  end.

Lemma run_reports_bound cfg b peer id nows :
  let granted := omap (λ r, r) (run_reports cfg b peer id nows) in
  match outbound b !! (peer, id) with
  | Some t => (len granted ≤ max_selective_recovery_rounds cfg - recovery_rounds t)%N ∧
      Forall (λ rp, rp_payload rp = ot_payload t) granted
  | None => granted = []
  end.
Proof.
  revert b; induction nows as [|now nows IH]; intros b; cbn [run_reports].
  - destruct (outbound b !! (peer, id)); cbn; [split; [lia|constructor]|done].
  - unfold payload_for_report. pose proof (expire_outbound_sub b now (recovery_ttl cfg)) as Hsub.
    destruct (expire_outbound b now (recovery_ttl cfg)) as [b0 e]. cbn [fst] in Hsub.
    destruct (outbound b0 !! (peer, id)) as [t|] eqn:Hk.
    + rewrite (lookup_weaken _ _ _ _ Hk Hsub). case_test; cbn [omap list_omap].
      * specialize (IH b0). by rewrite Hk in IH.
      * set (b1 := {| capabilities := _ |}). specialize (IH b1).
        assert (∃ t1, outbound b1 !! (peer, id) = Some t1 ∧ recovery_rounds t1 = (recovery_rounds t + 1)%N ∧
          ot_payload t1 = ot_payload t) as (t1 & Ht1 & Hr1 & Hp1)
          by (eexists; split; [apply lookup_insert_eq|done]).
        rewrite Ht1 in IH. destruct IH as [IH1 IH2]. rewrite Hp1 in IH2.
        split; [cbn [length]; lia|]. by constructor.
    + cbn [omap list_omap]. specialize (IH b0). rewrite Hk in IH. cbn zeta in IH. rewrite IH.
      destruct (outbound b !! (peer, id)); [split; [cbn; lia|constructor]|done].
Qed.
End book.
Arguments RecoveryBook P {_ _} : assert.

(** ** Properties *)

Definition demo_book : RecoveryBook N :=
  match retain book_for_identity 7%N (replicate 32 x01) [x0a; x0b] 100 FramingConfig_default with
  | Some (b, _) => b
  | None => book_for_identity
  end.

(** Any sequence of retentions, reports, acknowledgements, capability records and expiries
    terminates and keeps the book within every configured bound, per peer and globally, with an
    exact byte count. *)
Theorem recovery_book_always_bounded {P} `{Countable P, RustOrd P} cfg max_peers (ops : list BookOp) :
  book_cfg_ok cfg →
  ∃ b : RecoveryBook P, book_execs cfg max_peers book_for_identity ops = Some b ∧
    total_bytes b = payload_sum (outbound b) ∧
    (total_bytes b ≤ max_total_outbound_recovery_bytes cfg)%N ∧
    (N.of_nat (size (outbound b)) ≤ max_total_outbound_recovery_transfers cfg)%N ∧
    (N.of_nat (size (capabilities b)) ≤ max_peers)%N ∧
    (∀ peer, peer_transfer_count b peer ≤ max_outbound_recovery_transfers_per_peer cfg ∧
             book_peer_bytes b peer ≤ max_outbound_recovery_bytes_per_peer cfg)%N.
Proof.
  intros Hc. assert (Hgen : ∀ b : RecoveryBook P, book_ok cfg b → caps_ok max_peers b →
    ∃ b', book_execs cfg max_peers b ops = Some b' ∧ book_ok cfg b' ∧ caps_ok max_peers b').
  { induction ops as [|op ops IH]; intros b Hb Hcaps; cbn [book_execs]; [by exists b|].
    destruct (book_exec_ok cfg max_peers b op Hc Hb Hcaps) as (b1 & -> & ? & ?). cbn. by apply IH. }
  destruct (Hgen book_for_identity) as (b & ? & [] & ?); [apply book_ok_empty|apply N.le_0_l|].
  exists b. by split_and!.
Qed.

Lemma recovery_book_always_bounded_witness :
  let cfg := FramingConfig_default in
  let ops := [BCapability 7%N 1; BRetain 7%N (replicate 32 x01) [x0a; x0b] 100; BReport 7%N (replicate 32 x01) 200] in
  ∃ b : RecoveryBook N, book_execs cfg 10 book_for_identity ops = Some b ∧
    total_bytes b = payload_sum (outbound b) ∧
    (total_bytes b ≤ max_total_outbound_recovery_bytes cfg)%N ∧
    (N.of_nat (size (outbound b)) ≤ max_total_outbound_recovery_transfers cfg)%N ∧
    (N.of_nat (size (capabilities b)) ≤ 10)%N ∧
    (∀ peer, peer_transfer_count b peer ≤ max_outbound_recovery_transfers_per_peer cfg ∧
             book_peer_bytes b peer ≤ max_outbound_recovery_bytes_per_peer cfg)%N.
Proof.
  intros cfg ops. apply (recovery_book_always_bounded cfg 10 ops). constructor; vm_compute; reflexivity.
Defined.

(** Amplification is bounded: however many missing-range reports arrive for a transfer,
    at most [max_selective_recovery_rounds] of them are granted, each the payload retained. *)
Theorem recovery_rounds_bounded {P} `{Countable P, RustOrd P} cfg (b : RecoveryBook P) peer id nows :
  let granted := omap (λ r, r) (run_reports cfg b peer id nows) in
  (len granted ≤ max_selective_recovery_rounds cfg)%N ∧
  Forall (λ rp, ot_payload <$> outbound b !! (peer, id) = Some (rp_payload rp)) granted.
Proof.
  pose proof (run_reports_bound cfg b peer id nows) as Hb. cbn zeta in *.
  destruct (outbound b !! (peer, id)) as [t|].
  - destruct Hb as [Hb1 Hb2]. split; [lia|]. eapply Forall_impl; [done|]. by intros rp ->.
  - rewrite Hb. split; [cbn; lia|constructor].
Qed.
