(* ===== verification/FramedSend.v ===== *)
(** * Framed sending ([src/replica/framed_send.rs], [src/replica/recovery_send.rs])

    Packing messages into complete frames, fragmenting what does not fit, retaining fragmented
    payloads for selective recovery, and retransmitting requested ranges. The code is effectful
    (counter, recovery book, transport), so it is written in a small state monad: [s_net] holds the
    answers the transport will give to successive [send_to] calls, [s_log] the frames and wire
    datagrams handed to it. The clock reading and AEAD nonce of a datagram are functions of its
    sequence number. The pacer and the times datagrams go out are in [Pacing]. *)
From stdpp Require Import gmap list sorting.
From Stdlib Require Import NArith.
From Stdlib.Strings Require Import Byte.
From S2P Require Import Prelude Bytes Btree Replay Auth Framing.
From S2P Require Import Reassembly ReassemblyInv ReassemblyComplete Missing ReassemblyProps RecoveryBook.

Definition MAX_SENDTO_RETRIES : nat := 4.

(** [payload.chunks(n)]; fuel is the length. *)
Fixpoint chunks_fuel (fuel n : nat) (l : list byte) : list (list byte) :=
  match fuel with
  | O => []
  | S fuel => match l with [] => [] | _ => take n l :: chunks_fuel fuel n (drop n l) end
  end.
Definition chunks (n : nat) (l : list byte) : list (list byte) := chunks_fuel (length l) n l.

(** The chunks of a range starting at [o], with the offset each is sent at. *)
Fixpoint place (o cap : N) (cs : list (list byte)) : list (N * list byte) :=
  match cs with [] => [] | c :: cs => (o, c) :: place (o + cap) cap cs end.

Lemma slice_slice {A} a b lo hi (m : list A) : lo + b ≤ hi → slice a b (slice lo hi m) = slice (lo + a) (lo + b) m.
Proof.
  intros. unfold slice. rewrite skipn_firstn_comm, take_take, drop_drop. f_equal. lia.
Qed.

Lemma chunks_spec fuel n o l : (0 < n)%N → length l ≤ fuel →
  let ps := place o n (chunks_fuel fuel (N.to_nat n) l) in
  frags_ok o (o + len l) ps ∧ (o + frag_sum ps = o + len l)%N ∧
  Forall (λ x, (len x.2 ≤ n)%N ∧ (o ≤ x.1)%N ∧
               x.2 = slice (N.to_nat (x.1 - o)) (N.to_nat (x.1 - o) + length x.2) l) ps.
Proof.
  intros Hn. revert o l. induction fuel as [|fuel IH]; intros o l Hl.
  { destruct l; [|cbn in Hl; lia]. cbn. split_and!; [lia|lia|constructor]. }
  destruct l as [|b l]; [cbn; split_and!; [lia|lia|constructor]|].
  cbn [chunks_fuel place frags_ok frag_sum]. remember (b :: l) as l' eqn:El.
  assert (Hl' : 0 < length l') by (subst; cbn; lia). clear El b l.
  specialize (IH (o + n)%N (drop (N.to_nat n) l')). rewrite length_drop in IH.
  destruct IH as (Hok & Hsum & Hall); [lia|].
  assert (Htake : length (take (N.to_nat n) l') = N.to_nat n `min` length l') by apply length_take.
  destruct (decide (length l' ≤ N.to_nat n)) as [Hle|Hgt].
  - rewrite (drop_ge l') in * by lia. replace (chunks_fuel fuel (N.to_nat n) []) with (@nil (list byte)) by by destruct fuel.
    cbn [place frags_ok frag_sum]. rewrite Htake. split_and!; [lia| |lia|lia|].
    + intros E%(f_equal length). cbn in E. lia.
    + constructor; [|constructor]. cbn [fst snd]. rewrite N.sub_diag, Htake. split_and!; [lia|lia|].
      unfold slice. change (N.to_nat 0) with 0. rewrite drop_0, !take_ge by lia. done.
  - rewrite Htake, Nat.min_l by lia. rewrite N2Nat.id. split_and!; [lia| | |lia|].
    + intros E%(f_equal length). cbn in E. lia.
    + by replace (o + len l')%N with (o + n + N.of_nat (length l' - N.to_nat n))%N by lia.
    + constructor.
      * cbn [fst snd]. rewrite N.sub_diag, Htake. split_and!; [lia|lia|].
        unfold slice. change (N.to_nat 0) with 0. rewrite drop_0. f_equal. lia.
      * eapply Forall_impl; [exact Hall|]. intros [x c] (? & ? & E). cbn [fst snd] in *. split_and!; [done|lia|].
        rewrite E at 1. unfold slice. rewrite drop_drop. f_equal; [lia|]. f_equal. lia.
Qed.

(** A [SocketAddr] is an IP address of type [P] and a port. *)
Record SentFrame (P : Type) := { sf_target : P * N; sf_frame : list byte; sf_wire : list byte }.
Arguments sf_target {P} _.
Arguments sf_frame {P} _.
Arguments sf_wire {P} _.

Section send.
Context {P : Type} `{Countable P, RustOrd P} `{Mac, Aead}.
Context (blake3_hash : list byte → id32).
Context (authenticator : Authenticator) (framing : FramingConfig).
Context (wall : N → N) (nonce : N → list byte).

Record SendState := {
  s_counter : SenderCounter.Counter;
  s_book : RecoveryBook P;
  s_net : list (result N unit);
  s_log : list (SentFrame P);
}.

Definition Send (A : Type) : Type := SendState → SendState * A.
#[global] Instance Send_ret : MRet Send := λ A a s, (s, a).
#[global] Instance Send_bind : MBind Send := λ A B k m s, let '(s, a) := m s in k a s.

Definition with_book {A} (f : RecoveryBook P → RecoveryBook P * A) : Send A := λ s,
  let '(b, a) := f (s_book s) in
  ({| s_counter := s_counter s; s_book := b; s_net := s_net s; s_log := s_log s |}, a).

(** Up to [n] attempts at [transport.send_to]; an exhausted answer list refuses. *)
Fixpoint attempt (n : nat) (net : list (result N unit)) : list (result N unit) * result N unit :=
  match n with
  | O => (net, Err tt)
  | S n =>
      match net with
      | [] => (net, Err tt)
      | Ok sent :: net => (net, Ok sent)
      | Err e :: net => match n with O => (net, Err e) | _ => attempt n net end
      end
  end.

Definition send_frame_to_retry (frame : list byte) (target : P * N) : Send (result N unit) := λ s,
  let '(counter, seq) := SenderCounter.next_seq (s_counter s) in
  let '(counter, stamp) := SenderCounter.next_stamp_at counter (wall seq) in
  let wire := seal authenticator (nonce seq) seq stamp frame in
  let '(net, res) := attempt MAX_SENDTO_RETRIES (s_net s) in
  ({| s_counter := counter; s_book := s_book s; s_net := net;
      s_log := s_log s ++ [{| sf_target := target; sf_frame := frame; sf_wire := wire |}] |}, res).

Definition capacities : option (N * N) :=
  complete ← complete_payload_capacity (datagram_payload_budget framing) (N.of_nat (overhead authenticator));
  fragment ← fragment_payload_capacity (datagram_payload_budget framing) (N.of_nat (overhead authenticator));
  Some (N.min complete (fc_max_logical_message_size framing), fragment).

(** The fragment loop from chunk [index]; [None] is the [expect] on [write_fragment]. *)
Fixpoint send_fragments (id : id32) (total_len fragment_capacity : N) (peer : P * N) (index : N)
    (cs : list (list byte)) (total_sent : N) : Send (option N) :=
  match cs with
  | [] => mret (Some total_sent)
  | chunk :: cs =>
      match write_fragment id total_len (index * fragment_capacity) chunk with
      | Err _ => mret None
      | Ok frame =>
          res ← send_frame_to_retry frame peer;
          send_fragments id total_len fragment_capacity peer (index + 1) cs
            (match res with Ok sent => saturating_add total_sent sent | Err _ => total_sent end)
      end
  end.

(** [None] is a panic; the result is the bytes sent, or the transport error of a complete frame. *)
Definition send_logical_payload (peer : P * N) (payload : list byte) (now : N)
    : Send (option (result N unit)) :=
  match capacities with
  | None => mret (Some (Ok 0%N))
  | Some (complete_capacity, fragment_capacity) =>
      if (fc_max_logical_message_size framing <? len payload)%N then mret (Some (Ok 0%N))
      else if (len payload <=? complete_capacity)%N then
        res ← send_frame_to_retry (write_complete payload) peer; mret (Some res)
      else if (fragment_capacity =? 0)%N then mret (Some (Ok 0%N))
      else if (fc_max_fragments_per_message framing <? div_ceil (len payload) fragment_capacity)%N
      then mret (Some (Ok 0%N))
      else
        let id := blake3_hash payload in
        supported ← with_book (λ b, supports b peer.1 now framing);
        report ← (if supported : bool then
                    with_book (λ b, match retain b peer.1 id payload now framing with
                                    | Some (b, rep) => (b, Some (Some rep))
                                    | None => (b, None)
                                    end)
                  else mret (Some None));
        match report with
        | None => mret None
        | Some rep =>
            if match rep with
               | Some rep => rr_retained rep && skip_full_send rep
               | None => false
               end
            then mret (Some (Ok 0%N))
            else
              sent ← send_fragments id (len payload) fragment_capacity peer 0
                       (chunks (N.to_nat fragment_capacity) payload) 0;
              mret (Ok <$> sent)
        end
  end.

(** [append_capability]: the encoded advertisement, when recovery is on. *)
Definition append_capability (encoded_capability : list byte) : list byte :=
  if selective_recovery framing then encoded_capability else [].

(** The batching loop of [send_messages_paced] over encoded messages, from buffer [send_buf]. *)
Fixpoint pack_loop (peer : P * N) (now complete_capacity : N) (messages : list (list byte))
    (send_buf : list byte) : Send (list byte) :=
  match messages with
  | [] => mret send_buf
  | message :: messages =>
      let batch_len := len send_buf in
      let buf := send_buf ++ message in
      if (len buf <=? complete_capacity)%N then pack_loop peer now complete_capacity messages buf
      else
        _ ← (if (0 <? batch_len)%N then send_logical_payload peer send_buf now
             else mret (Some (Ok 0%N)));
        if (len message <=? complete_capacity)%N
        then pack_loop peer now complete_capacity messages message
        else
          _ ← send_logical_payload peer message now;
          pack_loop peer now complete_capacity messages []
  end.

Definition send_messages_paced (peer : P * N) (now : N) (encoded_capability : list byte)
    (messages : list (list byte)) : Send unit :=
  match capacities with
  | None => mret tt
  | Some (complete_capacity, _) =>
      rest ← pack_loop peer now complete_capacity messages (append_capability encoded_capability);
      match rest with
      | [] => mret tt
      | _ => _ ← send_logical_payload peer rest now; mret tt
      end
  end.

Definition send_control_batch_to (peer : P * N) (now : N) (encoded_capability : list byte)
    (messages : list (list byte)) : Send unit :=
  let send_buf := append_capability encoded_capability ++ concat messages in
  match send_buf with
  | [] => mret tt
  | _ => _ ← send_logical_payload peer send_buf now; mret tt
  end.

(** The range check of [retransmit_missing_to]. *)
Fixpoint ranges_valid_for (total previous_end : N) (ranges : list (N * N)) : bool :=
  match ranges with
  | [] => true
  | (offset, l) :: ranges =>
      match checked_add offset l with
      | None => false
      | Some e =>
          if (l =? 0)%N || (total <? e)%N || (offset <? previous_end)%N then false
          else ranges_valid_for total e ranges
      end
  end.

(** One requested range, in fragments; [false] stops the retransmission. *)
Fixpoint resend_chunks (id : id32) (total start fragment_capacity : N) (peer : P * N) (relative : N)
    (cs : list (list byte)) : Send bool :=
  match cs with
  | [] => mret true
  | chunk :: cs =>
      match write_fragment id total (start + relative * fragment_capacity) chunk with
      | Err _ => mret false
      | Ok frame =>
          res ← send_frame_to_retry frame peer;
          match res with
          | Err _ => mret false
          | Ok _ => resend_chunks id total start fragment_capacity peer (relative + 1) cs
          end
      end
  end.

Fixpoint resend_ranges (id : id32) (payload : list byte) (fragment_capacity : N) (peer : P * N)
    (ranges : list (N * N)) : Send bool :=
  match ranges with
  | [] => mret true
  | (offset, l) :: ranges =>
      let bytes := slice (N.to_nat offset) (N.to_nat (offset + l)) payload in
      ok ← resend_chunks id (len payload) offset fragment_capacity peer 0
             (chunks (N.to_nat fragment_capacity) bytes);
      if ok : bool then resend_ranges id payload fragment_capacity peer ranges else mret false
  end.

Definition retransmit_missing_to (peer : P * N) (transfer_id : id32) (ranges : list (N * N)) (now : N)
    : Send bool :=
  if negb (selective_recovery framing) then mret false
  else
    supported ← with_book (λ b, supports b peer.1 now framing);
    granted ← (if supported : bool then with_book (λ b, payload_for_report b peer.1 transfer_id now framing)
               else mret None);
    match granted with
    | None => mret false
    | Some rp =>
        let fragment_capacity :=
          default 0%N (fragment_payload_capacity (datagram_payload_budget framing)
                         (N.of_nat (overhead authenticator))) in
        if (fragment_capacity =? 0)%N then mret false
        else if negb (ranges_valid_for (len (rp_payload rp)) 0 ranges) then mret false
        else
          ok ← resend_ranges transfer_id (rp_payload rp) fragment_capacity peer ranges;
          if negb ok then mret false
          else
            _ ← (if exhausted_after_this_round rp
                 then with_book (λ b, book_forget b peer.1 transfer_id) else mret false);
            mret true
    end.

Definition complete_recovery (peer : P * N) (transfer_id : id32) : Send bool :=
  with_book (λ b, book_complete b peer.1 transfer_id).

(** [expire_recovery_state] *)
Definition expire_recovery_state (now : N) : Send ExpireReport := with_book (λ b, book_expire b now framing).

Definition send_recovery_control_to (peer : P * N) (frame : list byte) : Send (result N unit) :=
  send_frame_to_retry frame peer.

Fixpoint request_missing (port now : N) (requests : list (MissingRequest P)) : Send unit :=
  match requests with
  | [] => mret tt
  | request :: requests =>
      supported ← with_book (λ b, supports b (mr_peer request) now framing);
      _ ← (if supported : bool then
             match write_missing_report (mr_transfer_id request) (mr_ranges request) with
             | Ok frame => _ ← send_recovery_control_to (mr_peer request, port) frame; mret tt
             | Err _ => mret tt
             end
           else mret tt);
      request_missing port now requests
  end.

Definition retry_idle_incomplete (reassembler : Reassembler P) (port now : N) : Send (Reassembler P) :=
  if negb (selective_recovery framing) then mret reassembler
  else
    let limit := max_missing_ranges_for_budget (datagram_payload_budget framing)
                   (N.of_nat (overhead authenticator)) (max_missing_ranges_per_report framing) in
    let '(reassembler, _) := expire reassembler now in
    let '(reassembler, requests) :=
      poll_idle_missing reassembler now (seconds 1) (seconds 3) limit 32 in
    _ ← request_missing port now requests;
    mret reassembler.

(** ** Every datagram fits the budget, and nothing panics

    [sends m R]: from a book within its limits, [m] keeps it so, only appends datagrams no longer
    than the budget, and answers in [R]. *)
Context (Hbook : book_cfg_ok framing).
Context (Hvalid : framing_validate framing (N.of_nat (overhead authenticator)) = Ok tt).
Context (Hnonce : ∀ q, length (nonce q) = AEAD_NONCE_LEN).
Context (Hhash : ∀ m, length (blake3_hash m) = 32).

Definition in_budget (f : SentFrame P) : Prop := (len (sf_wire f) ≤ datagram_payload_budget framing)%N.

Definition sends {A} (m : Send A) (R : A → Prop) : Prop := ∀ s, book_ok framing (s_book s) →
  ∃ l, book_ok framing (s_book (m s).1) ∧ s_log (m s).1 = s_log s ++ l ∧ Forall in_budget l ∧ R (m s).2.

Lemma sends_ret {A} (a : A) (R : A → Prop) : R a → sends (mret a) R.
Proof. intros Ha s Hs. exists []. rewrite app_nil_r. by split_and!. Qed.

Lemma sends_bind {A B} (m : Send A) (k : A → Send B) R R' :
  sends m R → (∀ a, R a → sends (k a) R') → sends (m ≫= k) R'.
Proof.
  intros Hm Hk s Hs. destruct (Hm s Hs) as (l & Hs1 & El & Hl & Ha).
  unfold mbind, Send_bind. destruct (m s) as [s1 a]. cbn [fst snd] in *.
  destruct (Hk a Ha s1 Hs1) as (l' & ? & E & ? & ?). exists (l ++ l').
  rewrite E, El, app_assoc, Forall_app. by split_and!.
Qed.

Lemma sends_book {A} (f : RecoveryBook P → RecoveryBook P * A) (R : A → Prop) :
  (∀ b, book_ok framing b → book_ok framing (f b).1 ∧ R (f b).2) → sends (with_book f) R.
Proof.
  intros Hf s Hs. exists []. rewrite app_nil_r. destruct (Hf (s_book s) Hs).
  unfold with_book. destruct (f (s_book s)) as [b a]. by split_and!.
Qed.

Lemma sends_if {A} (c : bool) (m m' : Send A) R : (c = true → sends m R) → (c = false → sends m' R) →
  sends (if c then m else m') R.
Proof. destruct c; auto. Qed.

Lemma sends_supports peer now : sends (with_book (λ b, supports b peer now framing)) (λ _, True).
Proof.
  apply sends_book. intros b Hb. split; [|done]. unfold supports. case_test; [done|]. by apply book_ok_caps.
Qed.

(** The validated configuration leaves room for a byte in a fragment. *)
Lemma capacities_spec : ∃ complete fragment, capacities = Some (complete, fragment) ∧
  (complete + N.of_nat (overhead authenticator) + 1 ≤ datagram_payload_budget framing ∧
   complete ≤ fc_max_logical_message_size framing ∧ 0 < fragment ∧
   fragment + N.of_nat (overhead authenticator) + 41 = datagram_payload_budget framing)%N ∧
  fragment_payload_capacity (datagram_payload_budget framing) (N.of_nat (overhead authenticator)) = Some fragment.
Proof.
  revert Hvalid. unfold framing_validate, capacities, complete_payload_capacity, fragment_payload_capacity, checked_sub.
  unfold saturating_add, usize_max, u64_max, COMPLETE_HEADER_LEN, FRAGMENT_HEADER_LEN.
  case_test; [done|]. case_test; [done|]. case_test; [done|]. intros _.
  rewrite !(proj2 (N.leb_le _ _)) by lia. cbn [mbind option_bind]. eexists _, _. split; [done|]. split; [lia|done].
Qed.

Lemma max_message_u32 : (fc_max_logical_message_size framing ≤ u32_max)%N.
Proof. revert Hvalid. unfold framing_validate. do 3 (case_test; [done|]). done. Qed.

Lemma write_fragment_Ok id total offset chunk :
  (total ≤ u32_max)%N → (offset ≤ total)%N → length id = 32 →
  ∃ w, write_fragment id total offset chunk = Ok w ∧ len w = (41 + len chunk)%N.
Proof.
  intros Ht Ho Hid. unfold write_fragment, u32_try_from. rewrite !(proj2 (N.leb_le _ _)) by lia. cbn [ok_or].
  eexists. split; [done|]. cbn [length]. rewrite !length_app, !length_to_le, Hid. lia.
Qed.

(** [emits s s' l]: [s'] is [s] after the datagrams [l], each within the budget. *)
Definition emits (s s' : SendState) (l : list (SentFrame P)) : Prop :=
  s_book s' = s_book s ∧ s_log s' = s_log s ++ l ∧ Forall in_budget l.

Lemma emits_nil s : emits s s [].
Proof. split; [done|]. by rewrite app_nil_r. Qed.

Lemma emits_cons s s1 s2 f l : emits s s1 [f] → emits s1 s2 l → emits s s2 (f :: l).
Proof.
  intros (E1 & L1 & [F1 _]%Forall_cons) (E2 & L2 & F2). split; [congruence|]. split; [|by constructor].
  rewrite L2, L1, <- app_assoc. done.
Qed.

Lemma frame_emits frame target s :
  (N.of_nat (overhead authenticator) + len frame ≤ datagram_payload_budget framing)%N →
  ∃ s' res f, send_frame_to_retry frame target s = (s', res) ∧ emits s s' [f] ∧
    sf_frame f = frame ∧ sf_target f = target.
Proof.
  intros Hf. unfold send_frame_to_retry. destruct (SenderCounter.next_seq _) as [c q].
  destruct (SenderCounter.next_stamp_at c (wall q)) as [c' t]. destruct (attempt _ _) as [net res].
  eexists _, _, {| sf_target := target; sf_frame := frame; sf_wire := _ |}. split; [done|]. split; [|done].
  split; [done|]. split; [done|]. apply Forall_singleton. unfold in_budget. cbn. rewrite length_seal by done. lia.
Qed.

(** The frame of a piece, as [write_fragment] writes it. *)
Definition frag_wire (id : id32) (total : N) (x : N * list byte) (w : list byte) : Prop :=
  write_fragment id total x.1 x.2 = Ok w.

Lemma send_fragments_emits id total cap fcap peer cs index acc s :
  capacities = Some (cap, fcap) → (total ≤ u32_max)%N → length id = 32 →
  Forall (λ x, (len x.2 ≤ fcap)%N ∧ (x.1 ≤ total)%N) (place (index * fcap) fcap cs) →
  ∃ s' n l, send_fragments id total fcap peer index cs acc s = (s', Some n) ∧ emits s s' l ∧
    Forall2 (frag_wire id total) (place (index * fcap) fcap cs) (sf_frame <$> l) ∧
    Forall (λ f, sf_target f = peer) l.
Proof.
  intros Hcap Ht Hid. revert index acc s. induction cs as [|c cs IH]; intros index acc s; cbn [place send_fragments].
  { intros _. exists s, acc, []. split; [done|]. split; [apply emits_nil|]. by split; [apply Forall2_nil|]. }
  intros [[Hc Ho] Hcs]%Forall_cons. cbn [fst snd] in *.
  destruct capacities_spec as (? & fc & E & (_ & _ & _ & ?) & _). assert (fc = fcap) as -> by congruence.
  destruct (write_fragment_Ok id total (index * fcap) c Ht Ho Hid) as (w & Ew & Hw). rewrite Ew.
  destruct (frame_emits w peer s) as (s1 & res & f & E1 & Hem & Ef & Etg); [lia|].
  unfold mbind, Send_bind. rewrite E1. replace (index * fcap + fcap)%N with ((index + 1) * fcap)%N in * by lia.
  edestruct (IH (index + 1)%N) as (s2 & n & l & -> & Hem2 & Hfr & Htg); [done|].
  exists s2, n, (f :: l). split; [done|]. split; [by eapply emits_cons|]. split; [|by constructor].
  constructor; [by rewrite Ef|done].
Qed.

(** A range of the payload, cut in chunks at [o]. *)
Lemma chunks_placed fcap o m lo hi : (0 < fcap)%N → o = N.of_nat lo → lo ≤ hi → hi ≤ length m →
  let ps := place o fcap (chunks (N.to_nat fcap) (slice lo hi m)) in
  frags_ok o (N.of_nat hi) ps ∧ (∀ i, covered ps i ↔ (o ≤ i < N.of_nat hi)%N) ∧
  Forall (λ x, piece_of m x ∧ (len x.2 ≤ fcap)%N) ps.
Proof.
  intros Hf -> Hlo Hhi. unfold chunks.
  destruct (chunks_spec (length (slice lo hi m)) fcap (N.of_nat lo) (slice lo hi m) Hf) as (Hok & Hsum & Hall); [done|].
  rewrite length_slice in * by done. replace (N.of_nat lo + N.of_nat (hi - lo))%N with (N.of_nat hi) in * by lia.
  split; [done|]. split.
  - intros i. split.
    + intros (x & b & Hin & Hi). destruct (frags_ok_elem _ _ _ _ _ Hok Hin). lia.
    + intros Hi. by eapply sum_covered.
  - rewrite Forall_forall in *. intros [x b] Hin. destruct (Hall _ Hin) as (Hlen & Hge & Eb). cbn [fst snd] in *.
    destruct (frags_ok_elem _ _ _ _ _ Hok Hin) as (? & ? & ?). split; [|done].
    split; [done|]. cbn [fst snd]. split; [lia|]. rewrite Eb at 1. rewrite slice_slice by lia. f_equal; lia.
Qed.

Lemma emits_sends {A} (m : Send A) (R : A → Prop) :
  (∀ s, ∃ s' a l, m s = (s', a) ∧ emits s s' l ∧ R a) → sends m R.
Proof.
  intros Hm s Hs. destruct (Hm s) as (s' & a & l & -> & (E & El & Hl) & Ha). exists l. cbn. by rewrite E.
Qed.

Lemma sends_frame frame target :
  (N.of_nat (overhead authenticator) + len frame ≤ datagram_payload_budget framing)%N →
  sends (send_frame_to_retry frame target) (λ _, True).
Proof.
  intros Hf. apply emits_sends. intros s. destruct (frame_emits frame target s Hf) as (s' & res & f & ? & ? & _). eauto 6.
Qed.

(** What a full send of [payload] in fragments emits. *)
Lemma send_chunks_emits payload peer fcap cap s :
  capacities = Some (cap, fcap) → (len payload ≤ u32_max)%N →
  ∃ s' n l, send_fragments (blake3_hash payload) (len payload) fcap peer 0
      (chunks (N.to_nat fcap) payload) 0 s = (s', Some n) ∧ emits s s' l ∧
    Forall2 (frag_wire (blake3_hash payload) (len payload))
      (place 0 fcap (chunks (N.to_nat fcap) payload)) (sf_frame <$> l) ∧
    Forall (λ f, sf_target f = peer) l.
Proof.
  intros Hcap Hp. destruct capacities_spec as (cp & fc & E & (_ & _ & ? & _) & _).
  assert (fc = fcap) as -> by congruence.
  apply (send_fragments_emits (blake3_hash payload) (len payload) cap fcap peer _ 0 0 s); auto.
  destruct (chunks_placed fcap 0 payload 0 (length payload)) as (_ & _ & Hall); [done|done|lia|done|].
  rewrite slice_all in Hall by done. eapply Forall_impl; [exact Hall|]. intros y [(_ & ? & _) ?]. split; [done|lia].
Qed.

Lemma sends_logical peer payload now : sends (send_logical_payload peer payload now) is_Some.
Proof.
  unfold send_logical_payload. destruct capacities_spec as (cap & fcap & E & (? & ? & ? & ?) & _). rewrite E.
  pose proof max_message_u32. apply sends_if; intros Hbig; [by apply sends_ret|].
  apply sends_if; intros Hsmall; bool_to_prop.
  { eapply sends_bind; [apply sends_frame; cbn [write_complete length]; lia|]. intros res _. by apply sends_ret. }
  apply sends_if; intros Hz; [by apply sends_ret|]. apply sends_if; intros Hfr; [by apply sends_ret|].
  eapply sends_bind; [apply sends_supports|]. intros sup _.
  eapply (sends_bind _ _ is_Some).
  - apply sends_if; intros _; [|by apply sends_ret]. apply sends_book. intros b Hb.
    destruct (retain_spec framing b peer.1 (blake3_hash payload) payload now Hbook Hb) as (b' & rep & -> & ? & _). by split.
  - intros _ [rep ->]. apply sends_if; intros _; [by apply sends_ret|].
    eapply (sends_bind _ _ is_Some).
    + apply emits_sends. intros s.
      destruct (send_chunks_emits payload peer fcap cap s E) as (s' & n & l & ? & ? & _); [lia|]. eauto 6.
    + intros _ [n ->]. by apply sends_ret.
Qed.

Lemma sends_pack peer now cap msgs buf : sends (pack_loop peer now cap msgs buf) (λ _, True).
Proof.
  revert buf; induction msgs as [|m msgs IH]; intros buf; cbn [pack_loop]; [by apply sends_ret|].
  apply sends_if; intros _; [done|]. apply (sends_bind _ _ is_Some).
  { apply sends_if; intros _; [apply sends_logical|by apply sends_ret]. }
  intros _ _. apply sends_if; intros _; [done|]. eapply sends_bind; [apply sends_logical|]. done.
Qed.

Lemma sends_messages peer now capmsg msgs : sends (send_messages_paced peer now capmsg msgs) (λ _, True).
Proof.
  unfold send_messages_paced. destruct capacities as [[cap fcap]|]; [|by apply sends_ret].
  eapply sends_bind; [apply sends_pack|]. intros [|b rest] _; [by apply sends_ret|].
  eapply sends_bind; [apply sends_logical|]. intros _ _. by apply sends_ret.
Qed.

Lemma sends_control peer now capmsg msgs : sends (send_control_batch_to peer now capmsg msgs) (λ _, True).
Proof.
  unfold send_control_batch_to. destruct (_ ++ _); [by apply sends_ret|].
  eapply sends_bind; [apply sends_logical|]. intros _ _. by apply sends_ret.
Qed.

(** *** Retransmission *)

(** The pieces a retransmission of [ranges] sends, in order. *)
Definition range_pieces (m : list byte) (fcap : N) (ranges : list (N * N)) : list (N * list byte) :=
  concat ((λ r, place r.1 fcap (chunks (N.to_nat fcap) (slice (N.to_nat r.1) (N.to_nat (r.1 + r.2)) m))) <$> ranges).

Definition valid_range (m : list byte) (r : N * N) : Prop := (0 < r.2 ∧ r.1 + r.2 ≤ len m)%N.

Lemma ranges_valid_spec m e ranges :
  ranges_valid_for (len m) e ranges = true → Forall (valid_range m) ranges.
Proof.
  revert e; induction ranges as [|[o l] ranges IH]; intros e; cbn [ranges_valid_for]; [constructor|].
  unfold checked_add. destruct (o + l <=? usize_max)%N eqn:Ec; [|done]. case_test; [done|]. bool_to_prop.
  intros Hr. constructor; [split; cbn; lia|by eapply IH].
Qed.

Lemma range_pieces_spec m fcap ranges : (0 < fcap)%N → Forall (valid_range m) ranges →
  Forall (λ x, piece_of m x ∧ (len x.2 ≤ fcap)%N) (range_pieces m fcap ranges) ∧
  ∀ i, covered (range_pieces m fcap ranges) i ↔ Exists (in_range i) ranges.
Proof.
  clear. intros Hf Hr. induction Hr as [|[o l] ranges [? ?] Hr [IH1 IH2]]; unfold range_pieces; cbn [fmap list_fmap concat].
  { split; [constructor|]. intros i. rewrite Exists_nil. split; [|done]. by intros (? & ? & ?%not_elem_of_nil & _). }
  cbn [fst snd] in *. fold (range_pieces m fcap ranges).
  destruct (chunks_placed fcap o m (N.to_nat o) (N.to_nat (o + l))) as (_ & Hcov & Hps); [done|lia|lia|lia|].
  split; [by apply Forall_app|]. intros i. rewrite Exists_cons, <- IH2. unfold in_range at 1. cbn [fst snd].
  rewrite N2Nat.id in Hcov. rewrite <- (Hcov i). unfold covered. setoid_rewrite elem_of_app. naive_solver.
Qed.

(** The datagrams sent so far carry a prefix of the pieces, all of them when the answer is [true]. *)
Definition sent_pieces (id : id32) (total : N) (peer : P * N) (ps : list (N * list byte)) (ok : bool)
    (l : list (SentFrame P)) : Prop :=
  Forall2 (frag_wire id total) (take (length l) ps) (sf_frame <$> l) ∧
  (ok = true → length l = length ps) ∧ Forall (λ f, sf_target f = peer) l.

Lemma resend_chunks_emits id total start cap fcap peer cs rel s :
  capacities = Some (cap, fcap) → length id = 32 →
  Forall (λ x, (len x.2 ≤ fcap)%N) (place (start + rel * fcap) fcap cs) →
  ∃ s' ok l, resend_chunks id total start fcap peer rel cs s = (s', ok) ∧ emits s s' l ∧
    sent_pieces id total peer (place (start + rel * fcap) fcap cs) ok l.
Proof.
  intros Hcap Hid. revert rel s. induction cs as [|c cs IH]; intros rel s; cbn [place resend_chunks].
  { intros _. exists s, true, []. split; [done|]. split; [apply emits_nil|]. by split_and!; [apply Forall2_nil| |]. }
  intros [Hc Hcs]%Forall_cons. cbn [fst snd] in *.
  destruct capacities_spec as (? & fc & E & (_ & _ & _ & ?) & _). assert (fc = fcap) as -> by congruence.
  destruct (write_fragment id total (start + rel * fcap) c) as [w|] eqn:Ew; cycle 1.
  { exists s, false, []. split; [done|]. split; [apply emits_nil|]. by split_and!; [apply Forall2_nil| |]. }
  pose proof (length_write_fragment _ _ _ _ _ Hid Ew) as Hw. unfold FRAGMENT_HEADER_LEN in Hw.
  destruct (frame_emits w peer s) as (s1 & res & f & E1 & Hem & Ef & Etg); [lia|].
  unfold mbind, Send_bind. rewrite E1. destruct res as [n|e].
  - replace (start + rel * fcap + fcap)%N with (start + (rel + 1) * fcap)%N in * by lia.
    edestruct (IH (rel + 1)%N s1) as (s2 & ok & l & -> & Hem2 & Hfr & Hok & Htg); [done|].
    exists s2, ok, (f :: l). split; [done|]. split; [by eapply emits_cons|]. split_and!; [| |by constructor].
    + cbn. constructor; [by rewrite Ef|done].
    + intros Hk. cbn. by rewrite (Hok Hk).
  - exists s1, false, [f]. split; [done|]. split; [done|]. split_and!; [|done|by constructor].
    cbn. constructor; [by rewrite Ef|apply Forall2_nil; done].
Qed.

Lemma emits_app s s1 s2 l l' : emits s s1 l → emits s1 s2 l' → emits s s2 (l ++ l').
Proof.
  intros (E1 & L1 & F1) (E2 & L2 & F2). split; [congruence|]. rewrite Forall_app. split; [|done].
  by rewrite L2, L1, app_assoc.
Qed.

Lemma sent_pieces_app id total peer ps ps' ok l l' :
  sent_pieces id total peer ps true l → sent_pieces id total peer ps' ok l' →
  sent_pieces id total peer (ps ++ ps') ok (l ++ l').
Proof.
  intros (A1 & B1 & C1) (A2 & B2 & C2). specialize (B1 eq_refl). split_and!; [| |by apply Forall_app].
  - rewrite length_app, B1, take_app_add', fmap_app by done. apply Forall2_app; [|done].
    by rewrite B1, take_ge in A1 by lia.
  - intros Hk. rewrite !length_app, B1, B2 by done. done.
Qed.

Lemma sent_pieces_stop id total peer ps ps' l :
  sent_pieces id total peer ps false l → length l ≤ length ps →
  sent_pieces id total peer (ps ++ ps') false l.
Proof. intros (A & _ & C) Hl. split_and!; [|done|done]. by rewrite take_app_le. Qed.

Lemma sent_pieces_length id total peer ps ok l : sent_pieces id total peer ps ok l → length l ≤ length ps.
Proof. intros (A & _ & _). apply Forall2_length in A. rewrite length_take, length_fmap in A. lia. Qed.

Lemma resend_ranges_emits id m cap fcap peer ranges s :
  capacities = Some (cap, fcap) → length id = 32 → Forall (valid_range m) ranges →
  ∃ s' ok l, resend_ranges id m fcap peer ranges s = (s', ok) ∧ emits s s' l ∧
    sent_pieces id (len m) peer (range_pieces m fcap ranges) ok l.
Proof.
  intros Hcap Hid Hr. revert s. induction Hr as [|[o l] ranges [Hl Hol] Hr IH]; intros s; cbn [resend_ranges].
  { exists s, true, []. split; [done|]. split; [apply emits_nil|]. by split_and!; [apply Forall2_nil| |]. }
  cbn [fst snd] in *. destruct capacities_spec as (? & fc & E & (_ & _ & Hpos & _) & _).
  assert (fc = fcap) as -> by congruence. unfold range_pieces. cbn [fmap list_fmap concat fst snd].
  fold (range_pieces m fcap ranges).
  destruct (resend_chunks_emits id (len m) o cap fcap peer
    (chunks (N.to_nat fcap) (slice (N.to_nat o) (N.to_nat (o + l)) m)) 0 s) as (s1 & ok & l1 & E1 & He1 & Hs1); auto.
  { rewrite N.mul_0_l, N.add_0_r.
    destruct (chunks_placed fcap o m (N.to_nat o) (N.to_nat (o + l))) as (_ & _ & Hps); [done|lia|lia|lia|].
    eapply Forall_impl; [exact Hps|]. by intros y [_ ?]. }
  rewrite N.mul_0_l, N.add_0_r in Hs1. unfold mbind, Send_bind. rewrite E1. destruct ok.
  - destruct (IH s1) as (s2 & ok & l2 & E2 & He2 & Hs2). rewrite E2. eexists _, _, _. split; [done|].
    split; [by eapply emits_app|]. by apply sent_pieces_app.
  - eexists _, _, _. split; [done|]. split; [done|]. apply sent_pieces_stop; [done|]. by eapply sent_pieces_length.
Qed.

Lemma sends_retransmit peer id ranges now :
  length id = 32 → sends (retransmit_missing_to peer id ranges now) (λ _, True).
Proof.
  intros Hid. unfold retransmit_missing_to. destruct capacities_spec as (cap & fcap & E & _ & Ef). rewrite Ef.
  apply sends_if; intros _; [by apply sends_ret|]. eapply sends_bind; [apply sends_supports|]. intros sup _.
  eapply (sends_bind _ _ (λ _, True)).
  { apply sends_if; intros _; [|by apply sends_ret]. apply sends_book. intros b Hb. split; [|done].
    by apply payload_for_report_ok. }
  intros [rp|] _; [|by apply sends_ret]. cbn [from_option Datatypes.id].
  apply sends_if; intros _; [by apply sends_ret|]. apply sends_if; intros Hv; [by apply sends_ret|].
  apply negb_false_iff, ranges_valid_spec in Hv. eapply (sends_bind _ _ (λ _, True)).
  { apply emits_sends. intros s.
    destruct (resend_ranges_emits id (rp_payload rp) cap fcap peer ranges s E Hid Hv) as (s' & ok & l & ? & ? & _). eauto 6. }
  intros ok _. apply sends_if; intros _; [by apply sends_ret|]. eapply (sends_bind _ _ (λ _, True)).
  - apply sends_if; intros _; [|by apply sends_ret]. apply sends_book. intros b Hb. split; [|done].
    unfold book_forget. pose proof (book_remove_ok framing b (peer.1, id) Hb). by destruct (book_remove b _).
  - intros _ _. by apply sends_ret.
Qed.

(** *** Idle requests *)

Lemma missing_loop_len max l c ranges : (len ranges < max)%N →
  match missing_loop max l c ranges with inl rs => len rs = max | inr (_, rs) => len rs < max end%N.
Proof.
  revert c ranges; induction l as [|[o b] l IH]; intros c ranges Hr; cbn [missing_loop]; [done|].
  case_test; [|by apply IH]. case_test; [done|]. apply IH. rewrite length_app in *. cbn [length] in *. lia.
Qed.

Lemma missing_ranges_len t max : (len (missing_ranges_for_transfer t max) ≤ max)%N.
Proof.
  unfold missing_ranges_for_transfer. case_test; [apply N.le_0_l|].
  pose proof (missing_loop_len max (t_fragments t) 0 []) as Hl. cbn [length] in Hl.
  destruct (missing_loop _ _ _ _) as [rs|[c rs]]; [lia|]. case_test; rewrite ?length_app; cbn [length]; lia.
Qed.

(** Transfer ids are [[u8; 32]] *)
Definition ids_ok (r : Reassembler P) : Prop :=
  ∀ peer id t, get_transfer r peer id = Some t → length id = 32.

Definition request_ok (max : N) (q : MissingRequest P) : Prop :=
  length (mr_transfer_id q) = 32 ∧ (len (mr_ranges q) ≤ max)%N.

Lemma poll_loop_ok r now max mx l reps :
  Forall (λ k, length k.2 = 32) l → Forall (request_ok max) reps →
  Forall (request_ok max) (poll_loop r now max mx l reps).2.
Proof.
  intros Hl. revert r reps; induction Hl as [|[p i] l Hi Hl IH]; intros r reps Hreps; cbn [poll_loop]; [done|].
  case_test; [done|]. destruct (get_transfer r p i) as [t|]; [|auto].
  pose proof (missing_ranges_len t max). destruct (missing_ranges_for_transfer t max); [auto|].
  apply IH, Forall_app. split; [done|]. by apply Forall_singleton.
Qed.

Lemma poll_idle_ok r now mi ri max mx : ids_ok r → Forall (request_ok max) (poll_idle_missing r now mi ri max mx).2.
Proof.
  intros Hids. unfold poll_idle_missing. case_test; [constructor|]. case_test; [constructor|].
  apply poll_loop_ok; [|constructor]. rewrite Forall_forall. intros [p i] Hin.
  rewrite merge_sort_Permutation in Hin. unfold idle_candidates in Hin.
  apply list_elem_of_omap in Hin as ([[p' i'] t] & Hin%elem_all_transfers & Hc).
  destruct (_ && _); [|done]. injection Hc as -> ->. by eapply Hids.
Qed.

Lemma expire_ids r now : ids_ok r → ids_ok (expire r now).1.
Proof.
  intros Hids p i t. unfold expire. cbn [fst]. rewrite (get_transfer_fold_remove blake3_hash).
  case_decide; [done|]. intros Hg. by eapply Hids.
Qed.

Lemma missing_report_length id ranges w :
  length id = 32 → write_missing_report id ranges = Ok w → len w = (35 + 8 * len ranges)%N.
Proof.
  intros Hid. unfold write_missing_report, u16_try_from. case_test; cbn [ok_or]; [|done].
  destruct (validate_ranges ranges); [|done]. intros [= <-]. cbn [length].
  rewrite !length_app, length_to_le, Hid, length_encode_ranges. unfold MISSING_RANGE_LEN. lia.
Qed.

Lemma sends_report peer id ranges w :
  (len ranges ≤ max_missing_ranges_for_budget (datagram_payload_budget framing) (N.of_nat (overhead authenticator))
    (max_missing_ranges_per_report framing))%N →
  length id = 32 → write_missing_report id ranges = Ok w → sends (send_recovery_control_to peer w) (λ _, True).
Proof.
  destruct capacities_spec as (cap & fcap & _ & (_ & _ & Hpos & Hf) & _). intros Hlen Hid Ew.
  apply missing_report_length in Ew; [|done]. apply sends_frame. rewrite Ew. revert Hlen.
  unfold max_missing_ranges_for_budget, checked_sub, MISSING_REPORT_HEADER_LEN, MISSING_RANGE_LEN. case_test; [|lia]. intros Hlen.
  pose proof (N.mul_div_le (datagram_payload_budget framing - (N.of_nat (overhead authenticator) + N.of_nat 35)) (N.of_nat 8)).
  generalize dependent ((datagram_payload_budget framing - (N.of_nat (overhead authenticator) + N.of_nat 35)) / N.of_nat 8)%N.
  intros. lia.
Qed.

Lemma sends_completion_ack peer id : length id = 32 → sends (send_recovery_control_to peer (write_completion_ack id)) (λ _, True).
Proof.
  destruct capacities_spec as (cap & fcap & _ & (_ & _ & Hpos & Hf) & _). intros Hid. apply sends_frame.
  unfold write_completion_ack. cbn [length]. rewrite Hid. lia.
Qed.

Lemma sends_requests port now max qs :
  max = max_missing_ranges_for_budget (datagram_payload_budget framing) (N.of_nat (overhead authenticator))
          (max_missing_ranges_per_report framing) →
  Forall (request_ok max) qs → sends (request_missing port now qs) (λ _, True).
Proof.
  intros Hmax. induction 1 as [|q qs [Hid Hlen] Hqs IH]; cbn [request_missing]; [by apply sends_ret|].
  eapply sends_bind; [apply sends_supports|]. intros sup _. eapply (sends_bind _ _ (λ _, True)); [|done].
  apply sends_if; intros _; [|by apply sends_ret].
  destruct (write_missing_report _ _) as [w|] eqn:Ew; [|by apply sends_ret].
  eapply sends_bind; [|intros; by apply sends_ret]. rewrite Hmax in Hlen. by eapply sends_report.
Qed.

Lemma sends_idle r port now : ids_ok r → sends (retry_idle_incomplete r port now) (λ _, True).
Proof.
  intros Hids. unfold retry_idle_incomplete. apply sends_if; intros _; [by apply sends_ret|].
  pose proof (expire_ids r now Hids) as Hids'. destruct (expire r now) as [r1 ex]. cbn [fst] in Hids'.
  set (max := max_missing_ranges_for_budget _ _ _). pose proof (poll_idle_ok r1 now (seconds 1) (seconds 3) max 32 Hids') as Hq.
  destruct (poll_idle_missing _ _ _ _ _ _) as [r2 qs]. cbn [snd] in Hq.
  eapply sends_bind; [by eapply sends_requests|]. intros. by apply sends_ret.
Qed.

(** *** Any sequence of sends *)

Inductive SendOp :=
| SMessages (peer : P * N) (now : N) (encoded_capability : list byte) (messages : list (list byte))
| SControl (peer : P * N) (now : N) (encoded_capability : list byte) (messages : list (list byte))
| SRetransmit (peer : P * N) (id : id32) (ranges : list (N * N)) (now : N)
| SComplete (peer : P * N) (id : id32)
| SExpire (now : N)
| SIdle (r : Reassembler P) (port now : N).

Definition send_op (op : SendOp) : Send unit :=
  match op with
  | SMessages peer now c ms => send_messages_paced peer now c ms
  | SControl peer now c ms => send_control_batch_to peer now c ms
  | SRetransmit peer id ranges now => _ ← retransmit_missing_to peer id ranges now; mret tt
  | SComplete peer id => _ ← complete_recovery peer id; mret tt
  | SExpire now => _ ← expire_recovery_state now; mret tt
  | SIdle r port now => _ ← retry_idle_incomplete r port now; mret tt
  end.

Fixpoint send_ops (ops : list SendOp) : Send unit :=
  match ops with [] => mret tt | op :: ops => _ ← send_op op; send_ops ops end.

(** Ids are 32 bytes, as their types say. *)
Definition op_ok (op : SendOp) : Prop :=
  match op with SRetransmit _ id _ _ => length id = 32 | SIdle r _ _ => ids_ok r | _ => True end.

Lemma sends_op op : op_ok op → sends (send_op op) (λ _, True).
Proof.
  destruct op as [peer now c ms|peer now c ms|peer id ranges now|peer id|now|r port now]; cbn [op_ok send_op];
    intros Hop; [apply sends_messages|apply sends_control|..];
    (eapply (sends_bind _ _ (λ _, True)); [|intros _ _; by apply sends_ret]).
  - by apply sends_retransmit.
  - apply sends_book. intros b Hb. split; [|done]. unfold book_complete.
    pose proof (book_remove_ok framing b (peer.1, id) Hb). by destruct (book_remove b _).
  - apply sends_book. intros b Hb. split; [|done].
    by destruct (book_expire_ok framing (N.of_nat (size (capabilities b))) b now Hb (N.le_refl _)).
  - by apply sends_idle.
Qed.
End send.
