(* ===== verification/FramedSendProps.v ===== *)
(** * What framed sending guarantees

    The claims about [FramedSend]: every datagram fits the configured budget, messages are packed
    whole, what one side sends the other reassembles, and a retransmission carries exactly the
    requested bytes. *)
From stdpp Require Import gmap list sorting.
From Stdlib Require Import NArith.
From Stdlib.Strings Require Import Byte.
From S2P Require Import Prelude Bytes Btree Replay Auth Framing.
From S2P Require Import Reassembly ReassemblyInv ReassemblyComplete Missing ReassemblyProps RecoveryBook FramedSend.

Lemma frags_ok_NoDup c total l : frags_ok c total l → NoDup l.
Proof.
  revert c; induction l as [|[o b] l IH]; intros c; cbn; [constructor|]. intros (_ & Hb%len_pos & Hl).
  constructor; [|by eapply IH]. intros Hin. destruct (frags_ok_elem _ _ _ _ _ Hl Hin). lia.
Qed.

Lemma length_place o cap cs : length (place o cap cs) = length cs.
Proof. revert o; induction cs; intros o; cbn; auto. Qed.

Lemma chunks_fuel_count fuel n l : (0 < n) → length l ≤ fuel → length (chunks_fuel fuel n l) * n < length l + n.
Proof.
  intros Hn. revert l; induction fuel as [|fuel IH]; intros l Hl; [cbn; lia|]. cbn [chunks_fuel].
  destruct l as [|b l]; [cbn; lia|]. remember (b :: l) as l' eqn:El.
  assert (0 < length l') by (subst; cbn; lia). clear El b l. cbn [length].
  destruct (decide (length l' ≤ n)).
  - rewrite (drop_ge l') by lia. replace (chunks_fuel fuel n []) with (@nil (list byte)) by by destruct fuel.
    cbn. lia.
  - specialize (IH (drop n l')). rewrite length_drop in IH. lia.
Qed.

Lemma div_ceil_count k a b : (0 < b → k * b < a + b → k ≤ div_ceil a b)%N.
Proof.
  intros Hb Hk. unfold div_ceil. pose proof (N.div_mod a b ltac:(lia)) as E. pose proof (N.mod_lt a b ltac:(lia)).
  case_test; generalize dependent (a / b)%N; generalize dependent (a mod b)%N; intros; nia.
Qed.

Section receive.
Context {P : Type} `{Countable P, RustOrd P} (blake3_hash : list byte → id32).

(** Any order of the fragments of a whole message completes it. *)
Lemma pieces_in_any_order (r : Reassembler P) peer m ps ws ts t0 :
  length (blake3_hash m) = 32 → (len m ≤ u32_max)%N → wf r → fits (r_limits r) m (length ps) →
  m ≠ [] → frags_ok 0 (len m) ps → Forall (piece_of m) ps → (∀ i, (i < len m)%N → covered ps i) →
  get_transfer r peer (blake3_hash m) = None →
  ws ≡ₚ frame_of blake3_hash m <$> ps → length ws = length ts → paced (reassembly_ttl (r_limits r)) t0 ts →
  ∃ r' outs, receive_all blake3_hash r peer (zip ws ts) = Some (r', outs ++ [Ok (Complete m)]) ∧ Forall progress outs.
Proof.
  intros Hid Hm Hr Hfit Hne Hok Hps Hcov Hg Hperm Hlen Hpace.
  destruct (Permutation_map_inv _ _ Hperm) as (qs & -> & Hq).
  assert (Hqne : qs ≠ []).
  { intros ->. destruct m as [|b m]; [done|]. destruct (Hcov 0%N) as (o & c & Hin & _); [cbn; lia|].
    rewrite Hq in Hin. by apply not_elem_of_nil in Hin. }
  destruct (exists_last Hqne) as (todo & x & ->).
  assert (Htne : ts ≠ []) by (intros ->; rewrite length_fmap, length_app in Hlen; cbn in Hlen; lia).
  destruct (exists_last Htne) as (ts1 & now & ->). rewrite length_fmap, !length_app in Hlen. cbn in Hlen.
  assert (Hperm' : x :: todo ≡ₚ ps) by (rewrite Hq; apply Permutation_cons_append).
  apply Permutation_length in Hq as Hl. rewrite length_app in Hl. cbn in Hl.
  destruct (receive_completes blake3_hash peer m (length ps) todo ts1 x now r [] t0)
    as (r' & outs & E & ? & _ & _); cbn [app length]; auto; try lia.
  - by rewrite Hperm'.
  - apply frags_ok_NoDup in Hok. rewrite <- Hperm' in Hok. by apply NoDup_cons in Hok as [? _].
  - intros y z. rewrite Hperm'. by eapply frags_pairwise.
  - intros i Hi. destruct (Hcov i Hi) as (o & b & Hin & ?). exists o, b. by rewrite Hperm'.
  - by rewrite Hg.
  - exists r', outs. by split.
Qed.
End receive.

Section delivery.
Context {P : Type} `{Countable P, RustOrd P} `{Mac, Aead}.
Context (blake3_hash : list byte → id32) (authenticator : Authenticator) (framing : FramingConfig).
Context (wall : N → N) (nonce : N → list byte).
Context (Hbook : book_cfg_ok framing).
Context (Hvalid : framing_validate framing (N.of_nat (overhead authenticator)) = Ok tt).
Context (Hnonce : ∀ q, length (nonce q) = AEAD_NONCE_LEN).
Context (Hhash : ∀ m, length (blake3_hash m) = 32).
Implicit Types (peer : P * N) (s : SendState (P := P)).

Let send := send_logical_payload (P := P) blake3_hash authenticator framing wall nonce.

(** The datagrams of one send are one complete frame, or the fragments of the whole payload. *)
Definition carries (payload : list byte) (fcap : N) (l : list (SentFrame P)) : Prop :=
  sf_frame <$> l = [write_complete payload] ∨
  payload ≠ [] ∧ Forall2 (frag_wire (blake3_hash payload) (len payload))
    (place 0 fcap (chunks (N.to_nat fcap) payload)) (sf_frame <$> l).

Lemma with_book_log {A} (f : RecoveryBook P → RecoveryBook P * A) s s' a :
  with_book f s = (s', a) → s_book s' = (f (s_book s)).1 ∧ s_log s' = s_log s ∧ a = (f (s_book s)).2.
Proof. unfold with_book. destruct (f (s_book s)) as [b x]. intros [= <- <-]. done. Qed.

(** A send of [payload] is put off: it needs fragments, the peer supports selective recovery, and a
    transfer with its id was retained before and sent in full less than the retry interval ago. *)
Definition deferred (cap : N) (peer : P * N) payload (now : N) (s : SendState (P := P)) : Prop :=
  (cap < len payload)%N ∧ (supports (s_book s) peer.1 now framing).2 = true ∧
  ∃ t, outbound (s_book s) !! (peer.1, blake3_hash payload) = Some t ∧ (saturating_sub now (ot_last_full_send t) < FULL_RETRY_INTERVAL)%N.

Lemma logical_carries cap fcap peer payload now s :
  capacities authenticator framing = Some (cap, fcap) → book_ok framing (s_book s) →
  (len payload ≤ fc_max_logical_message_size framing)%N →
  (len payload ≤ cap ∨ div_ceil (len payload) fcap ≤ fc_max_fragments_per_message framing)%N →
  ∃ s' res l, send peer payload now s = (s', Some res) ∧ s_log s' = s_log s ++ l ∧
    Forall (λ f, sf_target f = peer) l ∧
    ((l = [] ∧ deferred cap peer payload now s ∧ is_Some (outbound (s_book s') !! (peer.1, blake3_hash payload))) ∨ carries payload fcap l).
Proof.
  intros Hcap Hb Hmax Hcnt. destruct (capacities_spec authenticator framing Hvalid) as (cp & fc & E & (? & ? & ? & ?) & _).
  assert (cp = cap ∧ fc = fcap) as [-> ->] by (split; congruence). pose proof (max_message_u32 _ _ Hvalid).
  unfold send, send_logical_payload. rewrite Hcap, (proj2 (N.ltb_ge _ _)) by done.
  unfold mbind, Send_bind, mret, Send_ret. case_test.
  { edestruct (frame_emits authenticator framing wall nonce Hnonce (write_complete payload) peer s)
      as (s' & res & f & -> & (_ & El & _) & Ef & Et); [cbn [write_complete length]; lia|].
    exists s', res, [f]. split; [done|]. split; [done|]. split; [by apply Forall_singleton|]. right; left. cbn. by rewrite Ef. }
  rewrite (proj2 (N.eqb_neq _ _)), (proj2 (N.ltb_ge _ _)) by lia.
  destruct (with_book _ s) as [s1 sup] eqn:E1. apply with_book_log in E1 as (Eb1 & El1 & Esup).
  assert (Eo : outbound (s_book s1) = outbound (s_book s)) by (rewrite Eb1; unfold supports; by case_test).
  assert (Hb1 : book_ok framing (s_book s1)).
  { rewrite Eb1. unfold supports. case_test; [done|]. by apply book_ok_caps. }
  match goal with |- context [ (if sup then ?a else ?b) s1 ] =>
    assert (Hr : ∃ s2 rep, (if sup then a else b) s1 = (s2, Some rep) ∧ s_log s2 = s_log s ∧
      (∀ rp, rep = Some rp → skip_full_send rp = true → deferred cap peer payload now s ∧ is_Some (outbound (s_book s2) !! (peer.1, blake3_hash payload)))) end.
  { destruct sup; [|exists s1, None; by rewrite El1].
    destruct (retain_spec framing (s_book s1) peer.1 (blake3_hash payload) payload now Hbook Hb1)
      as (b' & rep & Er & _).
    destruct (with_book _ s1) as [s2 rr] eqn:E2. apply with_book_log in E2 as (Eb2 & El2 & ->).
    rewrite Er in *. cbn [fst snd] in *. exists s2, (Some rep). split; [done|]. split; [congruence|].
    intros ? [= <-] (t & Ht & Hfull & t' & Ht' & _)%(retain_skips _ _ _ _ _ _ _ _ Er). rewrite Eo in Ht. rewrite Eb2.
    split; [|by eexists]. split_and!; [lia|done|by exists t]. }
  destruct Hr as (s2 & rep & -> & El2 & Hret). cbv beta iota. case_test.
  { exists s2, (Ok 0%N), []. rewrite app_nil_r. split_and!; [done|done|constructor|]. left. split; [done|].
    destruct rep as [rp|]; [|done]. bool_to_prop. by apply (Hret rp). }
  edestruct (send_chunks_emits blake3_hash authenticator framing wall nonce Hvalid Hnonce Hhash payload peer fcap cap s2 Hcap)
    as (s3 & n & l & -> & (_ & El3 & _) & Hfr & Htg); [lia|].
  exists s3, (Ok n), l. rewrite El3, El2. split_and!; [done|done|done|]. right; right. split; [|done].
  intros ->. cbn in *. lia.
Qed.

(** Carried payloads are received whole. *)
Lemma carried_received (r : Reassembler P) src payload cap fcap l ws ts t0 :
  capacities authenticator framing = Some (cap, fcap) →
  (len payload ≤ fc_max_logical_message_size framing)%N →
  (len payload ≤ cap ∨ div_ceil (len payload) fcap ≤ fc_max_fragments_per_message framing)%N →
  wf r → r_limits r = reassembly_limits framing →
  fits (r_limits r) payload (N.to_nat (div_ceil (len payload) fcap)) →
  get_transfer r src (blake3_hash payload) = None →
  carries payload fcap l → ws ≡ₚ sf_frame <$> l → length ws = length ts →
  paced (reassembly_ttl (r_limits r)) t0 ts →
  ∃ r' outs, receive_all blake3_hash r src (zip ws ts) = Some (r', outs ++ [Ok (Complete payload)]) ∧
    Forall progress outs.
Proof.
  intros Hcap Hmax Hcnt Hr Hlim Hfit Hg [Hc|[Hne Hf]] Hperm Hlen Hpace.
  { rewrite Hc in Hperm. apply Permutation_singleton_r in Hperm as ->. destruct ts as [|t [|]]; [done| |done].
    cbn [zip_with receive_all]. unfold accept. pose proof (expire_wf r t Hr) as [_ El]. destruct (expire r t) as [r1 ex].
    cbn [fst] in El. cbn [head write_complete]. rewrite bool_decide_eq_true_2 by done.
    rewrite (proj2 (N.ltb_ge _ _)); [|rewrite El, Hlim; unfold saturating_sub, COMPLETE_HEADER_LEN; cbn; lia].
    cbn [mbind option_bind]. exists r1, []. split; [done|constructor]. }
  destruct (capacities_spec authenticator framing Hvalid) as (cp & fc & E & (? & ? & ? & ?) & _).
  assert (fc = fcap) as -> by congruence. pose proof (max_message_u32 _ _ Hvalid).
  destruct (chunks_placed fcap 0 payload 0 (length payload)) as (Hok & Hcov & Hps); [done|done|lia|done|].
  rewrite slice_all in * by done. set (ps := place 0 fcap (chunks (N.to_nat fcap) payload)) in *.
  assert (Hwire : sf_frame <$> l = frame_of blake3_hash payload <$> ps).
  { clear -Hf. induction Hf as [|x w xs ws Hx _ IH]; [done|]. cbn. f_equal; [|done].
    unfold frame_of. by rewrite Hx. }
  apply (pieces_in_any_order blake3_hash r src payload ps ws ts t0); auto; try lia.
  - constructor; try apply Hfit. rewrite Hlim in *. destruct Hfit as [_ _ _ _ Hfit]. cbn in *.
    etransitivity; [|exact Hfit]. rewrite N2Nat.id. apply div_ceil_count; [done|]. unfold ps.
    rewrite length_place. pose proof (chunks_fuel_count (length payload) (N.to_nat fcap) payload). unfold chunks. lia.
  - eapply Forall_impl; [exact Hps|]. by intros ? [? _].
  - intros i Hi. apply Hcov. lia.
  - by rewrite <- Hwire.
Qed.

(** *** Packing *)

Fixpoint send_each peer (now : N) (payloads : list (list byte)) : Send unit :=
  match payloads with
  | [] => mret tt
  | payload :: payloads => _ ← send peer payload now; send_each peer now payloads
  end.

Lemma Send_assoc {A B C} (m : Send (P := P) A) (f : A → Send B) (g : B → Send C) s :
  ((m ≫= f) ≫= g) s = (m ≫= λ a, f a ≫= g) s.
Proof. unfold mbind, Send_bind. by destruct (m s). Qed.

Lemma Send_bind_ext {A B} (m : Send (P := P) A) (f g : A → Send B) s :
  (∀ a s, f a s = g a s) → (m ≫= f) s = (m ≫= g) s.
Proof. intros Hfg. unfold mbind, Send_bind. destruct (m s). apply Hfg. Qed.

(** A batch is within the capacity or a single message. *)
Definition batch_ok (cap : N) (g : list (list byte)) : Prop :=
  g ≠ [] ∧ ((len (concat g) ≤ cap)%N ∨ ∃ m, g = [m]).

Lemma concat_ne (g : list (list byte)) : Forall (λ m, m ≠ []) g → g ≠ [] → concat g ≠ [].
Proof. intros Hg Hne. destruct Hg as [|m g Hm _]; [done|]. by destruct m. Qed.

Lemma pack_loop_groups peer now cap msgs cur :
  Forall (λ m, m ≠ []) (cur ++ msgs) → (len (concat cur) ≤ cap)%N →
  ∃ groups, concat groups = cur ++ msgs ∧ Forall (batch_ok cap) groups ∧
    ∀ s, (pack_loop blake3_hash authenticator framing wall nonce peer now cap msgs (concat cur)
          ≫= λ rest, match rest with [] => mret tt | _ => _ ← send peer rest now; mret tt end) s
      = send_each peer now (concat (A:=byte) <$> groups) s.
Proof.
  revert cur. induction msgs as [|m msgs IH]; intros cur Hne Hcur.
  { rewrite app_nil_r in *. destruct cur as [|c cur].
    - exists []. split; [done|]. split; [constructor|]. done.
    - exists [c :: cur]. split; [apply app_nil_r|]. split; [repeat constructor; auto|]. intros s. cbn [fmap list_fmap send_each].
      pose proof (concat_ne (c :: cur) Hne ltac:(done)). cbn [pack_loop]. unfold mbind at 1, Send_bind at 1, mret at 1, Send_ret at 1.
      by destruct (concat (c :: cur)). }
  assert (Hcm : concat (cur ++ [m]) = concat cur ++ m) by (rewrite concat_app; cbn; by rewrite app_nil_r).
  apply Forall_app in Hne as Hne'. destruct Hne' as [Hc [Hm Hms]%Forall_cons].
  cbn [pack_loop]. case_test.
  { destruct (IH (cur ++ [m])) as (gs & E1 & E2 & E3); [by rewrite <- app_assoc|by rewrite Hcm|].
    exists gs. rewrite E1, <- app_assoc. split; [done|]. split; [done|]. intros s. by rewrite <- E3, Hcm. }
  assert (Hpre : ∀ gs, Forall (batch_ok cap) gs → ∃ gs', concat gs' = cur ++ concat gs ∧ Forall (batch_ok cap) gs' ∧
    ∀ s, (_ ← (if (0 <? len (concat cur))%N then send peer (concat cur) now else mret (Some (Ok 0%N)));
          send_each peer now (concat (A:=byte) <$> gs)) s = send_each peer now (concat (A:=byte) <$> gs') s).
  { intros gs Hgs. destruct cur as [|c cur]; [by exists gs|]. exists ((c :: cur) :: gs). split; [done|]. split.
    - constructor; [|done]. split; [done|by left].
    - intros s. pose proof (concat_ne _ Hc ltac:(done)) as Hn%len_pos. by rewrite (proj2 (N.ltb_lt _ _)). }
  case_test.
  - destruct (IH [m]) as (gs & E1 & E2 & E3); [by constructor|cbn; by rewrite app_nil_r|].
    destruct (Hpre gs E2) as (gs' & E1' & E2' & E3'). exists gs'. rewrite E1', E1. split_and!; [done|done|].
    intros s. rewrite <- E3', Send_assoc. apply Send_bind_ext. intros _ s1. rewrite <- E3. cbn. by rewrite app_nil_r.
  - destruct (IH []) as (gs & E1 & E2 & E3); [done|cbn; lia|].
    destruct (Hpre ([m] :: gs)) as (gs' & E1' & E2' & E3').
    { constructor; [|done]. split; [done|]. right. by exists m. }
    exists gs'. rewrite E1'. cbn [concat]. rewrite E1. split_and!; [done|done|].
    intros s. rewrite <- E3', Send_assoc. apply Send_bind_ext. intros _ s1. rewrite Send_assoc.
    cbn [fmap list_fmap send_each concat]. rewrite app_nil_r. apply Send_bind_ext. intros _ s2. by rewrite <- E3.
Qed.

(** *** Retransmission *)

Lemma payload_for_report_retained (b : RecoveryBook P) (ip : P) id now rp b' :
  payload_for_report b ip id now framing = (b', Some rp) →
  ∃ t, outbound b !! (ip, id) = Some t ∧ rp_payload rp = ot_payload t.
Proof.
  unfold payload_for_report. pose proof (expire_outbound_sub b now (recovery_ttl framing)) as Hsub.
  destruct (expire_outbound _ _ _) as [b0 e]. cbn [fst] in Hsub.
  destruct (outbound b0 !! (ip, id)) as [t|] eqn:Ht; [|done]. case_test; [done|]. intros [= <- <-].
  exists t. split; [by eapply lookup_weaken|done].
Qed.

(** The datagrams [l] carry pieces of [m] inside the requested ranges, all of them if [ok]. *)
Definition answers (id : id32) (m : list byte) (ranges : list (N * N)) (ok : bool) (l : list (SentFrame P)) : Prop :=
  ∃ ps, Forall2 (frag_wire id (len m)) ps (sf_frame <$> l) ∧ Forall (piece_of m) ps ∧
    (∀ i, covered ps i → Exists (in_range i) ranges) ∧
    (ok = true → ∀ i, Exists (in_range i) ranges → covered ps i).

Lemma sent_answers id m peer fcap ranges ok l :
  (0 < fcap)%N → Forall (valid_range m) ranges →
  sent_pieces id (len m) peer (range_pieces m fcap ranges) ok l → answers id m ranges ok l.
Proof.
  intros Hf Hr (Hw & Hk & _). destruct (range_pieces_spec m fcap ranges Hf Hr) as [Hps Hcov].
  exists (take (length l) (range_pieces m fcap ranges)). split; [done|]. split; [|split].
  - apply Forall_take. eapply Forall_impl; [exact Hps|]. by intros ? [? _].
  - intros i (o & b & Hin & Hi). apply Hcov. exists o, b. split; [|done]. by eapply elem_of_take in Hin as (? & ?%list_elem_of_lookup_2 & _).
  - intros ->. rewrite take_ge by (rewrite Hk; done). intros i. apply Hcov.
Qed.

Lemma retransmit_answers peer id ranges now s s' ok :
  length id = 32 → retransmit_missing_to authenticator framing wall nonce peer id ranges now s = (s', ok) →
  ∃ l, s_log s' = s_log s ++ l ∧
    ((l = [] ∧ ok = false) ∨
     ∃ t, outbound (s_book s) !! (peer.1, id) = Some t ∧ answers id (ot_payload t) ranges ok l).
Proof.
  intros Hid. unfold retransmit_missing_to. unfold mbind, Send_bind, mret, Send_ret.
  assert (Hno : ∀ s0, s_log s0 = s_log s → (s0, false) = (s', ok) → ∃ l, s_log s' = s_log s ++ l ∧ ((l = [] ∧ ok = false) ∨
     ∃ t, outbound (s_book s) !! (peer.1, id) = Some t ∧ answers id (ot_payload t) ranges ok l)).
  { intros s0 El [= <- <-]. exists []. rewrite app_nil_r. auto. }
  destruct (negb _); [by apply Hno|]. destruct (with_book _ s) as [s1 sup] eqn:E1.
  apply with_book_log in E1 as (Eb1 & El1 & _).
  assert (Eo : outbound (s_book s1) = outbound (s_book s)) by (rewrite Eb1; unfold supports; by case_test).
  destruct sup; [|by apply Hno]. destruct (with_book _ s1) as [s2 g] eqn:E2.
  apply with_book_log in E2 as (Eb2 & El2 & Eg). destruct g as [rp|]; [|apply Hno; congruence].
  destruct (payload_for_report (s_book s1) peer.1 id now framing) as [b2 g] eqn:Ep. cbn [fst snd] in *. subst g.
  apply payload_for_report_retained in Ep as (t & Ht & Em). rewrite Eo in Ht.
  destruct (capacities_spec authenticator framing Hvalid) as (cap & fcap & Ec & (_ & _ & Hpos & _) & ->).
  cbn [from_option Datatypes.id]. rewrite (proj2 (N.eqb_neq _ _)) by lia.
  destruct (negb (ranges_valid_for _ _ _)) eqn:Hv; [apply Hno; congruence|].
  apply negb_false_iff, ranges_valid_spec in Hv.
  destruct (resend_ranges_emits authenticator framing wall nonce Hvalid Hnonce id (rp_payload rp) cap fcap peer ranges s2 Ec Hid Hv)
    as (s3 & ok3 & l & -> & (_ & El3 & _) & Hsp).
  apply sent_answers in Hsp; [|done|done]. rewrite Em in Hsp. intros Hend.
  assert (ok = ok3 ∧ s_log s' = s_log s3) as [-> ->].
  { destruct ok3; cbn [negb] in Hend; [|by injection Hend as <- <-].
    destruct (exhausted_after_this_round rp); [|by injection Hend as <- <-].
    destruct (with_book _ s3) as [s4 x] eqn:E4. apply with_book_log in E4 as (_ & ? & _). by injection Hend as <- <-. }
  exists l. split; [congruence|]. right. by exists t.
Qed.
End delivery.

(** ** Properties *)

Definition send_start {P} `{Countable P} (net : list (result N unit)) : SendState (P := P) :=
  {| s_counter := SenderCounter.counter_new; s_book := book_for_identity; s_net := net; s_log := [] |}.

(** With a validated configuration, whatever is sent (message batches, control batches,
    retransmissions, completions, expiries, idle requests, in any order) and however the transport
    answers, every wire datagram is at most the configured payload budget. *)
Theorem every_datagram_within_budget {P} `{Countable P, RustOrd P} `{Mac, Aead} blake3_hash
    authenticator framing wall nonce (ops : list (SendOp (P := P))) net :
  book_cfg_ok framing → framing_validate framing (N.of_nat (overhead authenticator)) = Ok tt →
  (∀ q, length (nonce q) = AEAD_NONCE_LEN) → (∀ m, length (blake3_hash m) = 32) → Forall op_ok ops →
  Forall (λ f, (len (sf_wire f) ≤ datagram_payload_budget framing)%N)
    (s_log (send_ops blake3_hash authenticator framing wall nonce ops (send_start net)).1).
Proof.
  intros Hb Hv Hn Hh Hops.
  assert (Hgen : sends framing (send_ops blake3_hash authenticator framing wall nonce ops) (λ _, True)).
  { induction Hops as [|op ops Hop Hops IH]; cbn [send_ops]; [by apply sends_ret|].
    eapply sends_bind; [by apply sends_op|]. done. }
  destruct (Hgen (send_start net)) as (l & _ & -> & Hl & _); [apply book_ok_empty|done].
Qed.

Definition demo_auth : Authenticator := Encrypted (demo_keys x01 []).
Definition demo_framing : FramingConfig := {|
  datagram_payload_budget := 110; fc_max_logical_message_size := 1000; fc_max_fragments_per_message := 8;
  fc_max_incomplete_transfers_per_peer := 8; fc_max_reassembly_bytes_per_peer := 1000;
  fc_max_total_reassembly_bytes := 4000; fc_reassembly_ttl := seconds 90; selective_recovery := true;
  max_missing_ranges_per_report := 128; max_outbound_recovery_transfers_per_peer := 8;
  max_total_outbound_recovery_transfers := 64; max_outbound_recovery_bytes_per_peer := 1000;
  max_total_outbound_recovery_bytes := 4000; max_selective_recovery_rounds := 4;
  recovery_ttl := seconds 120; recovery_capability_ttl := seconds 300 |}.
Definition demo_nonce (q : N) : list byte := replicate 24 x07.
Definition demo_payload : list byte := replicate 70 x2a.

Lemma pad32_length m : length (pad32 m) = 32.
Proof. unfold pad32. rewrite length_take, length_app, length_replicate. lia. Qed.

Lemma demo_framing_book : book_cfg_ok demo_framing.
Proof. constructor; vm_compute; reflexivity. Qed.

Lemma every_datagram_within_budget_witness :
  Forall (λ f, (len (sf_wire f) ≤ 110)%N)
    (s_log (@send_ops N _ _ _ toy_mac toy_aead pad32 demo_auth demo_framing (λ q, q) demo_nonce
       [SMessages (7%N, 1%N) 0 [x09] [[x01; x02]; demo_payload]; SIdle (for_identity demo_limits) 1 5]
       (send_start [Ok 5%N; Err tt; Ok 6%N])).1).
Proof.
  apply (@every_datagram_within_budget N _ _ _ toy_mac toy_aead pad32 demo_auth demo_framing (λ q, q) demo_nonce).
  - apply demo_framing_book.
  - vm_compute. reflexivity.
  - reflexivity.
  - apply pad32_length.
  - repeat constructor. intros peer id t Hg. discriminate.
Defined.



(** Messages are batched whole and in order: sending a batch is sending, one logical
    payload at a time, the concatenations of consecutive groups of the messages (the capability
    advertisement first), no message split between payloads, and each payload within one complete
    frame unless it is a single oversized message. *)
Theorem messages_packed_whole {P} `{Countable P, RustOrd P} `{Mac, Aead} blake3_hash authenticator
    framing wall nonce cap fcap (peer : P * N) now encoded_capability messages :
  let advert := if selective_recovery framing then [encoded_capability] else [] in
  capacities authenticator framing = Some (cap, fcap) →
  Forall (λ m, m ≠ []) (advert ++ messages) → (len encoded_capability ≤ cap)%N →
  ∃ groups, concat groups = advert ++ messages ∧
    Forall (λ g, g ≠ [] ∧ ((len (concat g) ≤ cap)%N ∨ ∃ m, g = [m])) groups ∧
    ∀ s : SendState (P := P),
      send_messages_paced blake3_hash authenticator framing wall nonce peer now encoded_capability messages s
      = send_each blake3_hash authenticator framing wall nonce peer now (concat (A:=byte) <$> groups) s.
Proof.
  intros advert Hcap Hne Hlen.
  destruct (pack_loop_groups blake3_hash authenticator framing wall nonce peer now cap messages advert)
    as (gs & E1 & E2 & E3); [done| |].
  { unfold advert. destruct (selective_recovery framing); [|apply N.le_0_l]. cbn. by rewrite app_nil_r. }
  exists gs. split; [done|]. split; [done|]. intros s. rewrite <- E3. unfold send_messages_paced. rewrite Hcap.
  unfold append_capability, advert. destruct (selective_recovery framing); [|done]. cbn [concat]. by rewrite app_nil_r.
Qed.

Lemma messages_packed_whole_witness :
  let advert := if selective_recovery demo_framing then [[x09; x09]] else [] in
  let messages := [[x01; x02]; demo_payload; [x03]] in
  ∃ groups, concat groups = advert ++ messages ∧
    Forall (λ g, g ≠ [] ∧ ((len (concat g) ≤ 52)%N ∨ ∃ m, g = [m])) groups ∧
    ∀ s : SendState (P := N),
      @send_messages_paced N _ _ _ toy_mac toy_aead pad32 demo_auth demo_framing (λ q, q) demo_nonce (7%N, 1%N) 0 [x09; x09] messages s
      = @send_each N _ _ _ toy_mac toy_aead pad32 demo_auth demo_framing (λ q, q) demo_nonce (7%N, 1%N) 0 (concat (A:=byte) <$> groups) s.
Proof.
  intros advert messages.
  apply (@messages_packed_whole N _ _ _ toy_mac toy_aead pad32 demo_auth demo_framing (λ q, q) demo_nonce 52 12).
  - vm_compute. reflexivity.
  - repeat (apply Forall_cons; split; [discriminate|]). apply Forall_nil_2.
  - vm_compute. discriminate.
Defined.

(** A retransmission sends only bytes of the retained payload inside the reported
    ranges, at their own offsets, and when it answers [true] it has sent all of them. *)
Theorem retransmission_exact {P} `{Countable P, RustOrd P} `{Mac, Aead} authenticator framing wall nonce
    (peer : P * N) id ranges now (s s' : SendState (P := P)) ok :
  framing_validate framing (N.of_nat (overhead authenticator)) = Ok tt →
  (∀ q, length (nonce q) = AEAD_NONCE_LEN) → length id = 32 →
  retransmit_missing_to authenticator framing wall nonce peer id ranges now s = (s', ok) →
  ∃ l, s_log s' = s_log s ++ l ∧
    ((l = [] ∧ ok = false) ∨
     ∃ t ps, outbound (s_book s) !! (peer.1, id) = Some t ∧
       Forall2 (λ x w, write_fragment id (len (ot_payload t)) x.1 x.2 = Ok w) ps (sf_frame <$> l) ∧
       Forall (piece_of (ot_payload t)) ps ∧
       (∀ i, covered ps i → Exists (in_range i) ranges) ∧
       (ok = true → ∀ i, Exists (in_range i) ranges → covered ps i)).
Proof.
  intros Hv Hn Hid E.
  destruct (retransmit_answers authenticator framing wall nonce Hv Hn peer id ranges now s s' ok Hid E)
    as (l & El & [?|(t & Ht & ps & Hps)]); exists l; (split; [done|]); [by left|right]. by exists t, ps.
Qed.

Definition demo_sender : SendState (P := N) :=
  {| s_counter := SenderCounter.counter_new;
     s_book := {| capabilities := {[7%N := 0%N]};
                  outbound := {[(7%N, pad32 demo_payload) :=
                    {| ot_payload := demo_payload; ot_last_activity := 0; ot_last_full_send := 0; recovery_rounds := 0 |}]};
                  total_bytes := 70 |};
     s_net := [Ok 5%N; Ok 5%N; Ok 5%N]; s_log := [] |}.

Lemma retransmission_exact_witness :
  let run := @retransmit_missing_to N _ _ toy_mac toy_aead demo_auth demo_framing (λ q, q) demo_nonce (7%N, 1%N)
    (pad32 demo_payload) [(3, 20); (40, 5)]%N 1 demo_sender in
  run.2 = true ∧
  ∃ l, s_log run.1 = [] ++ l ∧
    ((l = [] ∧ true = false) ∨
     ∃ t ps, outbound (s_book demo_sender) !! (7%N, pad32 demo_payload) = Some t ∧
       Forall2 (λ x w, write_fragment (pad32 demo_payload) (len (ot_payload t)) x.1 x.2 = Ok w) ps (sf_frame <$> l) ∧
       Forall (piece_of (ot_payload t)) ps ∧
       (∀ i, covered ps i → Exists (in_range i) [(3, 20); (40, 5)]%N) ∧
       (true = true → ∀ i, Exists (in_range i) [(3, 20); (40, 5)]%N → covered ps i)).
Proof.
  intros run. assert (E : run.2 = true) by (vm_compute; reflexivity). split; [exact E|].
  apply (@retransmission_exact N _ _ _ toy_mac toy_aead demo_auth demo_framing (λ q, q) demo_nonce (7%N, 1%N)
    (pad32 demo_payload) [(3, 20); (40, 5)]%N 1 demo_sender run.1 true).
  - vm_compute. reflexivity.
  - reflexivity.
  - apply pad32_length.
  - rewrite <- E. apply surjective_pairing.
Defined.
