(* ===== verification/Admission.v ===== *)
(** * Bulk admission ([src/replica/admission.rs])

    The rate gate in front of dataset-scale dumps: suppression of repeated identical work with an
    exponential back-off, then a GCRA (generic cell rate algorithm) per source and one for the
    whole replica. [Duration::from_secs_f64(1.0 / rate)] goes through floating point, so the global
    interval is the argument [recip]. *)
From stdpp Require Import gmap list.
From Stdlib Require Import NArith.
From Stdlib.Strings Require Import Byte.
From S2P Require Import Prelude Bytes Framing RecoveryBook.

Definition PER_PEER_BULK_BURST : N := 3.
Definition PER_PEER_REFILL_INTERVAL : N := seconds 1.
Definition REPEATED_WORK_RETRY_MIN : N := seconds 1.
Definition REPEATED_WORK_RETRY_MAX : N := seconds 30.
Definition RECENT_WORK_RETENTION : N := seconds 60.

Inductive BulkAdmissionRejection := RepeatedWork | PeerRate | GlobalRate.

Inductive DumpChannel := Dated | ValueOnly.
#[export] Instance DumpChannel_eq_dec : EqDecision DumpChannel.
Proof. solve_decision. Defined.

Record RecentWork := {
  fingerprint : id32;
  retry_after : N;
  retry_delay : N;
  forget_after : N;
}.

(** [gcra_allows]; instants have no upper bound here, so [checked_add] always succeeds. *)
Definition gcra_allows (tat now interval burst : N) : bool :=
  (tat <=? now + interval * saturating_sub burst 1)%N.

Section admission.
Context {P : Type} `{Countable P}.

Record AdmissionState := {
  peers : gmap P N;
  global_tat : option N;
  recent_dated : gmap P RecentWork;
  recent_value : gmap P RecentWork;
}.

Record BulkAdmission := {
  state : AdmissionState;
  global_rate : N;
  global_interval : N;
  global_burst : N;
}.

Definition AdmissionState_default : AdmissionState :=
  {| peers := ∅; global_tat := None; recent_dated := ∅; recent_value := ∅ |}.

Definition bulk_new (recip : N → N) (rate : N) : BulkAdmission :=
  {| state := AdmissionState_default; global_rate := rate;
     global_interval := if (rate =? 0)%N then seconds 1 else recip rate;
     global_burst := N.min (saturating_mul rate PER_PEER_BULK_BURST) u32_max |}.

(** The purge at the start of [try_admit_at]. *)
Definition purge (st : AdmissionState) (now : N) : AdmissionState :=
  {| peers := filter (λ kv, (now < kv.2)%N) (peers st);
     global_tat := match global_tat st with
                   | Some tat => if (tat <=? now)%N then None else Some tat
                   | None => None
                   end;
     recent_dated := filter (λ kv, (now < forget_after kv.2)%N) (recent_dated st);
     recent_value := filter (λ kv, (now < forget_after kv.2)%N) (recent_value st) |}.

Definition recent (st : AdmissionState) (channel : DumpChannel) : gmap P RecentWork :=
  match channel with Dated => recent_dated st | ValueOnly => recent_value st end.

Definition set_recent (st : AdmissionState) (channel : DumpChannel) (m : gmap P RecentWork) : AdmissionState :=
  match channel with
  | Dated => {| peers := peers st; global_tat := global_tat st; recent_dated := m; recent_value := recent_value st |}
  | ValueOnly => {| peers := peers st; global_tat := global_tat st; recent_dated := recent_dated st; recent_value := m |}
  end.

Definition repeats (st : AdmissionState) (channel : DumpChannel) (peer : P) (fp : id32) (now : N) : bool :=
  match recent st channel !! peer with
  | Some work => bool_decide (fingerprint work = fp) && (now <? retry_after work)%N
  | None => false
  end.

Definition next_delay (st : AdmissionState) (channel : DumpChannel) (peer : P) (fp : id32) : N :=
  match recent st channel !! peer with
  | Some work => if bool_decide (fingerprint work = fp)
                 then N.min (retry_delay work * 2) REPEATED_WORK_RETRY_MAX
                 else REPEATED_WORK_RETRY_MIN
  | None => REPEATED_WORK_RETRY_MIN
  end.

Definition with_state (b : BulkAdmission) (st : AdmissionState) : BulkAdmission :=
  {| state := st; global_rate := global_rate b; global_interval := global_interval b; global_burst := global_burst b |}.

Definition try_admit_at (b : BulkAdmission) (peer : P) (channel : DumpChannel) (fp : id32) (now : N)
    : BulkAdmission * result unit BulkAdmissionRejection :=
  if (global_rate b =? 0)%N then (b, Err GlobalRate)
  else
    let st := purge (state b) now in
    if repeats st channel peer fp now then (with_state b st, Err RepeatedWork)
    else
      let peer_tat := default now (peers st !! peer) in
      if negb (gcra_allows peer_tat now PER_PEER_REFILL_INTERVAL PER_PEER_BULK_BURST)
      then (with_state b st, Err PeerRate)
      else
        let tat := default now (global_tat st) in
        if negb (gcra_allows tat now (global_interval b) (global_burst b))
        then (with_state b st, Err GlobalRate)
        else
          let delay := next_delay st channel peer fp in
          let st := {| peers := <[peer := (N.max peer_tat now + PER_PEER_REFILL_INTERVAL)%N]> (peers st);
                       global_tat := Some (N.max tat now + global_interval b)%N;
                       recent_dated := recent_dated st; recent_value := recent_value st |} in
          let work := {| fingerprint := fp; retry_after := now + delay; retry_delay := delay;
                         forget_after := now + RECENT_WORK_RETENTION |} in
          (with_state b (set_recent st channel (<[peer := work]> (recent st channel))), Ok tt).

(** A sequence of requests, with the answers. *)
Record Request := { q_peer : P; q_channel : DumpChannel; q_fp : id32; q_now : N }.

Fixpoint admit_all (b : BulkAdmission) (qs : list Request) : BulkAdmission * list (Request * bool) :=
  match qs with
  | [] => (b, [])
  | q :: qs =>
      let '(b, res) := try_admit_at b (q_peer q) (q_channel q) (q_fp q) (q_now q) in
      let '(b, l) := admit_all b qs in
      (b, (q, is_ok res) :: l)
  end.
End admission.
Arguments AdmissionState P {_ _} : assert.
Arguments BulkAdmission P {_ _} : assert.
Arguments Request : clear implicits.

(** ** Rates *)

Section rate.
Context {P : Type} `{Countable P}.
Implicit Types (b : BulkAdmission P) (q : Request P) (t : N) (st : AdmissionState P).

(** Requests arrive in time order between [t0] and [t1]. *)
Fixpoint timed (t0 t1 : N) (qs : list (Request P)) : Prop :=
  match qs with [] => True | q :: qs => (t0 ≤ q_now q ≤ t1)%N ∧ timed (q_now q) t1 qs end.

(** The rate argument, for a theoretical arrival time [tat] that grows by [interval] at each
    counted admission and is at most [burst] intervals ahead. *)
Section gcra.
Context (fixed : BulkAdmission P → Prop) (tat : BulkAdmission P → N) (interval burst : N)
  (counted : Request P * bool → bool).
Context (step : ∀ b q, fixed b →
  let '(b', res) := try_admit_at b (q_peer q) (q_channel q) (q_fp q) (q_now q) in
  fixed b' ∧
  if counted (q, is_ok res)
  then (N.max (tat b) (q_now q) + interval ≤ N.max (tat b') (q_now q) ≤ q_now q + burst * interval)%N
  else (N.max (tat b) (q_now q) ≤ N.max (tat b') (q_now q))%N).

Lemma gcra_count b t0 t1 qs : fixed b → timed t0 t1 qs →
  let k := len (filter (λ x, counted x = true) (admit_all b qs).2) in
  k = 0%N ∨ (N.max (tat b) t0 + k * interval ≤ t1 + burst * interval)%N.
Proof.
  revert b t0; induction qs as [|q qs IH]; intros b t0 Hb; cbn [timed admit_all]; [by left|]. intros [Hq Hqs].
  pose proof (step b q Hb) as Hst. destruct (try_admit_at _ _ _ _ _) as [b' res]. destruct Hst as [Hb' Hst].
  specialize (IH b' (q_now q) Hb' Hqs). destruct (admit_all b' qs) as [b2 l]. cbn [snd] in *.
  rewrite filter_cons. destruct (counted (q, is_ok res)) eqn:Hc; cbn [decide_rel decide].
  - rewrite decide_True by done. cbn [length]. right. destruct IH as [Hk|Hk]; [rewrite Nat2N.inj_succ|]; lia.
  - rewrite decide_False by done. destruct IH as [Hk|Hk]; [by left|right]. lia.
Qed.
End gcra.

Definition peer_tat (p : P) b : N := default 0%N (peers (state b) !! p).
Definition all_tat b : N := default 0%N (global_tat (state b)).

Lemma purge_peer st p now :
  N.max (default 0%N (peers (purge st now) !! p)) now = N.max (default 0%N (peers st !! p)) now ∧
  N.max (default now (peers (purge st now) !! p)) now = N.max (default 0%N (peers st !! p)) now.
Proof.
  cbn [peers purge]. rewrite map_lookup_filter. destruct (peers st !! p) as [t|]; cbn [mbind option_bind]; [|cbn; lia].
  case_guard; cbn in *; lia.
Qed.

Lemma purge_global st now :
  N.max (default 0%N (global_tat (purge st now))) now = N.max (default 0%N (global_tat st)) now ∧
  N.max (default now (global_tat (purge st now))) now = N.max (default 0%N (global_tat st)) now.
Proof. cbn [global_tat purge]. destruct (global_tat st) as [t|]; [case_test|]; cbn; lia. Qed.

Lemma set_recent_rest st c m :
  peers (set_recent st c m) = peers st ∧ global_tat (set_recent st c m) = global_tat st.
Proof. by destruct c. Qed.

(** The state after an admission. *)
Definition admitted b (peer : P) (c : DumpChannel) (fp : id32) (now : N) : BulkAdmission P :=
  let st := purge (state b) now in
  let delay := next_delay st c peer fp in
  let st' := {| peers := <[peer := (N.max (default now (peers st !! peer)) now + PER_PEER_REFILL_INTERVAL)%N]> (peers st);
                global_tat := Some (N.max (default now (global_tat st)) now + global_interval b)%N;
                recent_dated := recent_dated st; recent_value := recent_value st |} in
  with_state b (set_recent st' c (<[peer := {| fingerprint := fp; retry_after := now + delay; retry_delay := delay;
                                              forget_after := now + RECENT_WORK_RETENTION |}]> (recent st' c))).

Lemma try_admit_cases b peer c fp now b' res :
  try_admit_at b peer c fp now = (b', res) →
  (is_ok res = false ∧ (b' = b ∨ b' = with_state b (purge (state b) now))) ∨
  (res = Ok tt ∧ b' = admitted b peer c fp now ∧ repeats (purge (state b) now) c peer fp now = false ∧
   gcra_allows (default now (peers (purge (state b) now) !! peer)) now PER_PEER_REFILL_INTERVAL PER_PEER_BULK_BURST = true ∧
   gcra_allows (default now (global_tat (purge (state b) now))) now (global_interval b) (global_burst b) = true).
Proof.
  unfold try_admit_at, admitted. case_test; [intros [= <- <-]; auto|].
  destruct (repeats _ _ _ _ _) eqn:Hr; [intros [= <- <-]; auto|].
  destruct (gcra_allows _ now PER_PEER_REFILL_INTERVAL _) eqn:Hp; cbn [negb]; [|intros [= <- <-]; auto].
  destruct (gcra_allows _ now (global_interval b) _) eqn:Hg; cbn [negb]; [|intros [= <- <-]; auto].
  intros Eq. right. injection Eq as <- <-. auto.
Qed.

Lemma peer_step p b q :
  let '(b', res) := try_admit_at b (q_peer q) (q_channel q) (q_fp q) (q_now q) in
  if is_ok res && bool_decide (q_peer q = p)
  then (N.max (peer_tat p b) (q_now q) + PER_PEER_REFILL_INTERVAL ≤ N.max (peer_tat p b') (q_now q)
        ≤ q_now q + PER_PEER_BULK_BURST * PER_PEER_REFILL_INTERVAL)%N
  else (N.max (peer_tat p b) (q_now q) ≤ N.max (peer_tat p b') (q_now q))%N.
Proof.
  destruct (try_admit_at _ _ _ _ _) as [b' res] eqn:E. destruct (purge_peer (state b) p (q_now q)) as [E1 E2].
  apply try_admit_cases in E as [[-> [->| ->]]|(-> & -> & _ & Hp & _)]; cbn [andb is_ok]; [done|unfold peer_tat; cbn [state with_state]; lia|].
  unfold peer_tat in *. unfold admitted. cbn [with_state state]. rewrite (proj1 (set_recent_rest _ _ _)). cbn [peers].
  unfold gcra_allows, saturating_sub in *. change PER_PEER_BULK_BURST with 3%N in *. bool_to_prop.
  set (st := purge (state b) (q_now q)) in *. case_bool_decide as Ep.
  - rewrite Ep in *. rewrite lookup_insert_eq. cbn [default from_option Datatypes.id]. lia.
  - rewrite lookup_insert_ne by done. lia.
Qed.

Lemma global_step i n b q : (global_interval b = i ∧ global_burst b = n) → (0 < n)%N →
  let '(b', res) := try_admit_at b (q_peer q) (q_channel q) (q_fp q) (q_now q) in
  (global_interval b' = i ∧ global_burst b' = n) ∧
  if is_ok res
  then (N.max (all_tat b) (q_now q) + i ≤ N.max (all_tat b') (q_now q) ≤ q_now q + n * i)%N
  else (N.max (all_tat b) (q_now q) ≤ N.max (all_tat b') (q_now q))%N.
Proof.
  intros [<- <-] Hn. destruct (try_admit_at _ _ _ _ _) as [b' res] eqn:E.
  destruct (purge_global (state b) (q_now q)) as [E1 E2].
  apply try_admit_cases in E as [[-> [->| ->]]|(-> & -> & _ & _ & Hg)]; [done|split; [done|unfold all_tat; cbn [state with_state]; lia]|].
  split; [done|]. unfold all_tat, admitted. cbn [is_ok with_state state]. rewrite (proj2 (set_recent_rest _ _ _)).
  set (g := global_tat (purge (state b) (q_now q))) in *. unfold gcra_allows, saturating_sub in *. bool_to_prop.
  assert (global_burst b * global_interval b = global_interval b * (global_burst b - 1) + global_interval b)%N as -> by nia.
  generalize dependent (global_interval b * (global_burst b - 1))%N. intros.
  destruct g, (global_tat (state b)); cbn in *; lia.
Qed.
End rate.

(** ** Back-off of repeated work *)

Section backoff.
Context {P : Type} `{Countable P}.
Implicit Types (b : BulkAdmission P) (q : Request P) (st : AdmissionState P).

Definition about (peer : P) (c : DumpChannel) q : Prop := q_peer q = peer ∧ q_channel q = c.
#[global] Instance about_dec peer c q : Decision (about peer c q) := _.

(** The work [fp] of [peer] on channel [c] may not be retried before [t]. *)
Definition held (peer : P) (c : DumpChannel) (fp : id32) (t : N) st : Prop :=
  ∃ w, recent st c !! peer = Some w ∧ fingerprint w = fp ∧ (t ≤ retry_after w ∧ t ≤ forget_after w)%N.

Lemma held_purge peer c fp t st now : (now < t)%N → held peer c fp t st → held peer c fp t (purge st now).
Proof.
  intros Hnow (w & Hw & Hfp & Ht). exists w. split; [|done].
  destruct c; cbn [recent purge recent_dated recent_value] in *; apply map_lookup_filter_Some_2; auto; cbn; lia.
Qed.

Lemma held_repeats peer c fp t st now : (now < t)%N → held peer c fp t st → repeats st c peer fp now = true.
Proof.
  intros Hnow (w & Hw & Hfp & Ht). unfold repeats. rewrite Hw, bool_decide_eq_true_2 by done.
  rewrite (proj2 (N.ltb_lt _ _)) by lia. done.
Qed.

Lemma recent_set st c m c' : recent (set_recent st c m) c' = if decide (c = c') then m else recent st c'.
Proof. by destruct c, c'. Qed.

Lemma held_admitted peer c fp t b q :
  (q_now q < t)%N → held peer c fp t (state b) → ¬ about peer c q →
  held peer c fp t (state (admitted b (q_peer q) (q_channel q) (q_fp q) (q_now q))).
Proof.
  intros Hnow Hh%(held_purge peer c fp t (state b) (q_now q) Hnow) Hab. destruct Hh as (w & Hw & Hr).
  exists w. split; [|done]. unfold admitted. cbn [with_state state]. rewrite recent_set.
  unfold about in Hab. case_decide as Hc; [|by destruct c].
  rewrite lookup_insert_ne by naive_solver. rewrite Hc. by destruct c.
Qed.

Lemma held_rejects peer c fp t b qs :
  held peer c fp t (state b) → Forall (λ q, (q_now q < t)%N ∧ (about peer c q → q_fp q = fp)) qs →
  Forall (λ x, about peer c x.1 → x.2 = false) (admit_all b qs).2.
Proof.
  intros Hh Hqs. revert b Hh. induction Hqs as [|q qs [Hnow Hfp] Hqs IH]; intros b Hh; cbn [admit_all]; [constructor|].
  destruct (try_admit_at _ _ _ _ _) as [b' res] eqn:E.
  assert (held peer c fp t (state b') ∧ (about peer c q → is_ok res = false)) as [Hh' Hrej].
  { pose proof (held_purge peer c fp t (state b) (q_now q) Hnow Hh) as Hp.
    apply try_admit_cases in E as [[-> [->| ->]]|(-> & -> & Hrep & _)]; [done|done|].
    destruct (decide (about peer c q)) as [[Ep Ec]|Hab]; [|split; [by apply held_admitted|done]].
    rewrite Ep, Ec, (Hfp (conj Ep Ec)), (held_repeats _ _ _ t) in Hrep by done. done. }
  specialize (IH b' Hh'). destruct (admit_all b' qs) as [b2 l]. constructor; auto.
Qed.
End backoff.

(** ** Properties *)

Definition count_peer {P} `{EqDecision P} (p : P) (l : list (Request P * bool)) : N :=
  len (filter (λ x, x.2 && bool_decide (q_peer x.1 = p) = true) l).
Definition count_all {P} (l : list (Request P * bool)) : N := len (filter (λ x, x.2 = true) l).

(** From any state and for any requests that arrive in time order within [t0, t1], a
    source is admitted at most three times plus once per elapsed second, and the replica admits
    overall at most its burst plus once per elapsed interval. *)
Theorem bulk_admission_rate {P} `{Countable P} (b : BulkAdmission P) t0 t1 qs :
  timed t0 t1 qs → (0 < global_burst b)%N →
  (∀ p, count_peer p (admit_all b qs).2 * PER_PEER_REFILL_INTERVAL
        ≤ (t1 - t0) + PER_PEER_BULK_BURST * PER_PEER_REFILL_INTERVAL)%N ∧
  (count_all (admit_all b qs).2 * global_interval b ≤ (t1 - t0) + global_burst b * global_interval b)%N.
Proof.
  intros Hqs Hburst. split.
  - intros p. destruct (gcra_count (λ _, True) (peer_tat p) PER_PEER_REFILL_INTERVAL PER_PEER_BULK_BURST
      (λ x, x.2 && bool_decide (q_peer x.1 = p))) with (b := b) (t0 := t0) (t1 := t1) (qs := qs) as [Hk|Hk]; auto.
    + intros b0 q _. pose proof (peer_step p b0 q) as Hst. by destruct (try_admit_at _ _ _ _ _).
    + unfold count_peer. rewrite Hk. lia.
    + unfold count_peer. lia.
  - destruct (gcra_count (λ b0 : BulkAdmission P, global_interval b0 = global_interval b ∧ global_burst b0 = global_burst b)
      all_tat (global_interval b) (global_burst b) snd) with (b := b) (t0 := t0) (t1 := t1) (qs := qs) as [Hk|Hk]; auto.
    + intros b0 q Hf. by apply global_step.
    + unfold count_all. rewrite Hk. lia.
    + unfold count_all. generalize dependent (global_burst b * global_interval b)%N.
      generalize dependent (len (filter (λ x, x.2 = true) (admit_all b qs).2) * global_interval b)%N. intros. lia.
Qed.

Definition demo_request (p now : N) : Request N :=
  {| q_peer := p; q_channel := Dated; q_fp := [x01]; q_now := now |}.

Lemma bulk_admission_rate_witness :
  let b := bulk_new (P := N) (λ r, 1000000000 / r)%N 2 in
  let qs := [demo_request 7 10; demo_request 8 20; demo_request 7 30] in
  (∀ p, count_peer p (admit_all b qs).2 * PER_PEER_REFILL_INTERVAL
        ≤ (50 - 5) + PER_PEER_BULK_BURST * PER_PEER_REFILL_INTERVAL)%N ∧
  (count_all (admit_all b qs).2 * global_interval b ≤ (50 - 5) + global_burst b * global_interval b)%N.
Proof. intros b qs. apply (bulk_admission_rate b 5 50 qs); [vm_compute; intuition discriminate|reflexivity]. Defined.

(** Once work is admitted, the same comparison from the same source on the same
    channel is refused until its delay has passed, whatever else is requested meanwhile; the
    delay never exceeds thirty seconds and doubles at the next admission of the same work. *)
Theorem repeated_work_backs_off {P} `{Countable P} (b b' : BulkAdmission P) peer c fp now qs :
  let d := next_delay (purge (state b) now) c peer fp in
  try_admit_at b peer c fp now = (b', Ok tt) →
  Forall (λ q, (q_now q < now + d)%N ∧ (about peer c q → q_fp q = fp)) qs →
  Forall (λ x, about peer c x.1 → x.2 = false) (admit_all b' qs).2 ∧
  (d ≤ REPEATED_WORK_RETRY_MAX)%N ∧
  next_delay (state b') c peer fp = N.min (d * 2) REPEATED_WORK_RETRY_MAX.
Proof.
  intros d E Hqs. assert (Hd : (d ≤ REPEATED_WORK_RETRY_MAX)%N).
  { unfold d, next_delay. repeat case_match; try done. apply N.le_min_r. }
  apply try_admit_cases in E as [[Hf _]|(_ & -> & _)]; [done|].
  assert (Hr : recent (state (admitted b peer c fp now)) c !! peer
    = Some {| fingerprint := fp; retry_after := now + d; retry_delay := d; forget_after := now + RECENT_WORK_RETENTION |}).
  { unfold admitted. cbn [with_state state]. rewrite recent_set, decide_True by done. apply lookup_insert_eq. }
  split; [|split; [done|]].
  - apply (held_rejects peer c fp (now + d)); [|done]. eexists. split; [exact Hr|]. split; [done|]. cbn.
    change RECENT_WORK_RETENTION with (REPEATED_WORK_RETRY_MAX * 2)%N. lia.
  - unfold next_delay. rewrite Hr. cbn [fingerprint retry_delay]. by rewrite bool_decide_eq_true_2.
Qed.

Lemma repeated_work_backs_off_witness :
  let b := bulk_new (P := N) (λ r, 1000000000 / r)%N 2 in
  let b' := (try_admit_at b 7%N Dated [x01] 10).1 in
  let qs := [demo_request 7 20; demo_request 8 30; demo_request 7 1000000000] in
  Forall (λ x, about 7%N Dated x.1 → x.2 = false) (admit_all b' qs).2 ∧
  (next_delay (purge (state b) 10) Dated 7%N [x01] ≤ REPEATED_WORK_RETRY_MAX)%N ∧
  next_delay (state b') Dated 7%N [x01]
    = N.min (next_delay (purge (state b) 10) Dated 7%N [x01] * 2) REPEATED_WORK_RETRY_MAX.
Proof.
  intros b b' qs. apply (repeated_work_backs_off b b' 7%N Dated [x01] 10 qs).
  - reflexivity.
  - repeat (apply Forall_cons; split; [split; [vm_compute; reflexivity|reflexivity]|]). apply Forall_nil_2.
Defined.
