(* ===== verification/Ingress.v ===== *)
(** * The receive gate ([src/replica/inbound.rs], [src/framing.rs])

    [admit_inbound] orders authentication, wire version, peer cap and replay check; [accept_frame]
    turns an admitted application frame into the event the runtime acts on, through the bounded
    reassembler. The lazily read peer state is a function from [unit]. *)
From stdpp Require Import gmap list.
From Stdlib Require Import NArith.
From Stdlib.Strings Require Import Byte.
From S2P Require Import Prelude Bytes Btree Replay Auth Framing.
From S2P Require Import Reassembly ReassemblyInv ReassemblyComplete Missing ReassemblyProps RecoveryBook FramedSend.

(** [PeerCap] *)
Definition admits (max_peers : N) (known : bool) (current_len : N) : bool :=
  known || (current_len <? max_peers)%N.

Inductive InboundRejection :=
| Authentication
| Version (actual : byte)
| PeerCapReached (current_len max : N)
| ReplayRejected (seq stamp : N).

Section inbound.
Context {P : Type} `{Countable P} `{Mac, Aead}.

Definition admit_inbound (authenticator : Authenticator) (replay_filter : ReplayFilter.Filter P)
    (max_peers : N) (sender : P) (datagram : list byte) (peer_state : unit → bool * N) (now : N)
    : ReplayFilter.Filter P * result (Payload Verified) InboundRejection :=
  match open authenticator datagram with
  | None => (replay_filter, Err Authentication)
  | Some payload =>
      match check_version payload with
      | Err v => (replay_filter, Err (Version v))
      | Ok payload =>
          let '(known, current_len) := peer_state tt in
          if negb (admits max_peers known current_len)
          then (replay_filter, Err (PeerCapReached current_len max_peers))
          else
            let '(replay_filter, verified) := verify_replay payload replay_filter sender now in
            (replay_filter, ok_or verified (ReplayRejected (p_seq payload) (p_stamp payload)))
      end
  end.
End inbound.

Inductive FrameEvent :=
| Logical (payload : list byte) (completed_transfer : option id32)
| RequestMissing (transfer_id : id32) (ranges : list (N * N))
| EvMissing (transfer_id : id32) (ranges : list (N * N))
| EvCompleteAck (transfer_id : id32)
| EvPending.

Section frames.
Context {P : Type} `{Countable P, RustOrd P}.
Context (blake3_hash : list byte → id32).

Definition pending_fragment_event (reassembler : Reassembler P) (peer : P)
    (fragment : option FragmentMetadata) (max_missing_ranges now : N) : Reassembler P * FrameEvent :=
  match fragment with
  | Some metadata =>
      if is_terminal metadata then
        let '(reassembler, ranges) := missing_ranges_if_due reassembler peer (fm_transfer_id metadata)
          now (seconds 3) max_missing_ranges in
        match ranges with
        | [] => (reassembler, EvPending)
        | _ => (reassembler, RequestMissing (fm_transfer_id metadata) ranges)
        end
      else (reassembler, EvPending)
  | None => (reassembler, EvPending)
  end.

Definition accept_frame (reassembler : Reassembler P) (peer : P) (payload : Payload Verified)
    (max_missing_ranges now : N) : option (Reassembler P * FrameEvent) :=
  let bytes := p_bytes payload in
  match parse_recovery_control bytes max_missing_ranges with
  | Ok (Some (Framing.Missing transfer_id ranges)) => Some (reassembler, EvMissing transfer_id ranges)
  | Ok (Some (CompleteAck transfer_id)) => Some (reassembler, EvCompleteAck transfer_id)
  | Err _ => Some (reassembler, EvPending)
  | Ok None =>
      let fragment := fragment_metadata bytes in
      '(reassembler, report) ← accept blake3_hash reassembler peer bytes now;
      Some (match outcome report with
            | Ok (Complete payload) => (reassembler, Logical payload (fm_transfer_id <$> fragment))
            | Ok Pending | Ok Duplicate =>
                pending_fragment_event reassembler peer fragment max_missing_ranges now
            | Err _ => (reassembler, EvPending)
            end)
  end.

Definition expire_reassembly (reassembler : Reassembler P) (now : N) : Reassembler P :=
  (expire reassembler now).1.

(** What each event says of the frame and the state. *)
Definition event_ok (r r' : Reassembler P) (peer : P) (bytes : list byte) (max now : N) (e : FrameEvent) : Prop :=
  match e with
  | Logical p None => bytes = COMPLETE_TAG :: p
  | Logical p (Some id) => id = frame_id bytes ∧ blake3_hash p = id ∧ len p = frame_total_len bytes
  | EvMissing id ranges => parse_recovery_control bytes max = Ok (Some (Framing.Missing id ranges)) ∧ r' = r
  | EvCompleteAck id => parse_recovery_control bytes max = Ok (Some (CompleteAck id)) ∧ r' = r
  | RequestMissing id ranges =>
      ∃ t, get_transfer r' peer id = Some t ∧ t_last_missing_request t = Some now ∧
        ranges = missing_ranges_for_transfer t max ∧ ranges ≠ [] ∧
        ∃ m, fragment_metadata bytes = Some m ∧ is_terminal m = true ∧ fm_transfer_id m = id
  | EvPending => True
  end.

Lemma pending_event_ok r0 r peer bytes max now :
  wf r → let '(r', e) := pending_fragment_event r peer (fragment_metadata bytes) max now in
  wf r' ∧ r_limits r' = r_limits r ∧ event_ok r0 r' peer bytes max now e.
Proof.
  intros Hr. unfold pending_fragment_event. destruct (fragment_metadata bytes) as [m|] eqn:Hm; [|done].
  destruct (is_terminal m) eqn:Ht; [|done].
  pose proof (missing_if_due_wf r peer (fm_transfer_id m) now (seconds 3) max Hr) as [Hw Hl].
  unfold missing_ranges_if_due in *. case_test; [done|].
  destruct (get_transfer r peer (fm_transfer_id m)) as [t|] eqn:Hg; [|done]. case_test; [done|].
  destruct (missing_ranges_for_transfer t max) as [|g gs] eqn:Eg; [done|]. cbn [fst] in *. split; [done|]. split; [done|].
  exists (set_last_missing t now). split; [|split; [done|]].
  - unfold get_transfer, insert_transfer. cbn [r_peers]. rewrite lookup_insert_eq. cbn. by rewrite lookup_insert_eq.
  - split; [by rewrite <- Eg|]. split; [done|]. by exists m.
Qed.
End frames.

Lemma accept_frame_spec {P} `{Countable P, RustOrd P} blake3_hash (r : Reassembler P) peer pl max now :
  wf r →
  ∃ r' e, accept_frame blake3_hash r peer pl max now = Some (r', e) ∧ wf r' ∧ r_limits r' = r_limits r ∧
    event_ok blake3_hash r r' peer (p_bytes pl) max now e.
Proof.
  intros Hr. unfold accept_frame. destruct (parse_recovery_control (p_bytes pl) max) as [[[id rs|id]|]|] eqn:Hp;
    try by (eexists _, _; split_and!; try done; cbn).
  destruct (accept_spec blake3_hash r peer (p_bytes pl) now Hr) as (r1 & rep & Ea & Hw & Hl & _).
  rewrite Ea. cbn [mbind option_bind].
  pose proof (pending_event_ok blake3_hash r r1 peer (p_bytes pl) max now Hw) as Hpe.
  destruct (pending_fragment_event r1 peer (fragment_metadata (p_bytes pl)) max now) as [r2 e2].
  destruct Hpe as (? & ? & ?).
  destruct (outcome rep) as [[p| |]|] eqn:Ho.
  - eexists _, _. split; [done|]. split; [done|]. split; [done|].
    pose proof (accept_complete_sound blake3_hash r peer (p_bytes pl) now r1 rep p Hr Ea Ho) as Hs.
    destruct (fragment_received rep).
    + destruct Hs as (-> & ? & ?). cbn. auto.
    + rewrite Hs. done.
  - eexists _, _. split_and!; [done|done|congruence|done].
  - eexists _, _. split_and!; [done|done|congruence|done].
  - eexists _, _. by split_and!.
Qed.

(** ** Properties *)

(** A datagram is admitted exactly when it authenticates, carries this wire version,
    comes from a known source or under the cap, and passes the replay filter; the payload is the
    authenticated bytes after the version; a datagram refused earlier leaves the replay filter
    untouched, and one refused by authentication or version does not depend on the peer state. *)
Theorem inbound_admission_ordered {P} `{Countable P} `{Mac, Aead} a (f : ReplayFilter.Filter P) max sender d ps now :
  let '(f', res) := admit_inbound a f max sender d ps now in
  match res with
  | Ok pl => ∃ pl0, open a d = Some pl0 ∧ p_bytes pl0 = WIRE_VERSION :: p_bytes pl ∧
      p_seq pl = p_seq pl0 ∧ p_stamp pl = p_stamp pl0 ∧
      ((ps tt).1 = true ∨ ((ps tt).2 < max)%N) ∧
      ReplayFilter.check_and_record f sender (p_seq pl0) (p_stamp pl0) now = (f', true)
  | Err Authentication => open a d = None ∧ f' = f
  | Err (Version v) => f' = f ∧ v ≠ WIRE_VERSION ∧ ∀ ps', admit_inbound a f max sender d ps' now = (f, Err (Version v))
  | Err (PeerCapReached n m) => f' = f ∧ ps tt = (false, n) ∧ m = max ∧ (max ≤ n)%N
  | Err (ReplayRejected q t) => ReplayFilter.check_and_record f sender q t now = (f', false)
  end.
Proof.
  unfold admit_inbound. destruct (open a d) as [pl0|] eqn:Ho; [|done].
  destruct (check_version pl0) as [pl1|v] eqn:Hv.
  - apply check_version_spec in Hv as (Hb & Hq & Ht). destruct (ps tt) as [known n].
    unfold admits. destruct (known || (n <? max)%N) eqn:Hc; cbn [negb].
    + unfold verify_replay. rewrite <- Hq, <- Ht.
      destruct (ReplayFilter.check_and_record f sender (p_seq pl0) (p_stamp pl0) now) as [f' ok] eqn:Hf.
      destruct ok; cbn [negb ok_or]; [|done].
      exists pl0. cbn. split_and!; auto. apply orb_true_iff in Hc as [->|?]; [by left|right]. by bool_to_prop.
    + apply orb_false_iff in Hc as [-> ?]. bool_to_prop. done.
  - split; [done|]. split; [|done]. revert Hv. unfold check_version. case_bool_decide; [|done]. by intros [= <-].
Qed.

(** The receiver never fails on any admitted frame, stays well formed and within its
    limits, and every event it raises is justified by the frame: a payload is the frame's own or
    hashes to the transfer it completes, a request for missing bytes follows a final fragment and
    lists bytes really missing, and recovery control leaves the reassembly state alone. *)
Theorem frame_events_sound {P} `{Countable P, RustOrd P} blake3_hash (r : Reassembler P) peer pl max now :
  wf r →
  ∃ r' e, accept_frame blake3_hash r peer pl max now = Some (r', e) ∧ wf r' ∧ r_limits r' = r_limits r ∧
    event_ok blake3_hash r r' peer (p_bytes pl) max now e.
Proof. apply accept_frame_spec. Qed.

Lemma frame_events_sound_witness :
  let pl : Payload Verified := {| p_bytes := frame_of pad32 demo_msg (7%N, [x08; x09]); p_seq := 1; p_stamp := 1 |} in
  ∃ r' e, accept_frame pad32 demo_state 7%N pl 4 10000 = Some (r', e) ∧ wf r' ∧ r_limits r' = r_limits demo_state ∧
    event_ok pad32 demo_state r' 7%N (p_bytes pl) 4 10000 e.
Proof. intros pl. apply (frame_events_sound pad32 demo_state 7%N pl 4 10000). apply demo_state_wf. Defined.

(** ** Transfer ids are 32 bytes *)

Section ids.
Context {P : Type} `{Countable P, RustOrd P} (blake3_hash : list byte → id32).
Implicit Types (r : Reassembler P).

Lemma remove_ids r p i : ids_ok r → ids_ok (remove_transfer r p i).
Proof. intros Hr p' i' t. rewrite (get_transfer_remove). case_decide; [done|]. apply Hr. Qed.

Lemma insert_ids r p i t : length i = 32 → ids_ok r → ids_ok (insert_transfer r p i t).
Proof.
  intros Hi Hr p' i' t'. unfold get_transfer, insert_transfer. cbn [r_peers]. intros (st & Hst & Ht)%bind_Some.
  apply lookup_insert_Some in Hst as [[<- <-]|[_ Hst]]; [|by apply (Hr p' i' t'), bind_Some; eauto].
  cbn in Ht. apply lookup_insert_Some in Ht as [[<- _]|[_ Ht]]; [done|]. destruct (r_peers r !! p) as [st|] eqn:Hp; cbn in Ht.
  - apply (Hr p i' t'). unfold get_transfer. by rewrite Hp.
  - by rewrite lookup_empty in Ht.
Qed.

Lemma evict_ids {X} over pick rm fuel r n r' n' ok : (∀ r (x : X), ids_ok r → ids_ok (rm r x)) → ids_ok r →
  evict_loop over pick rm fuel r n = Some (r', n', ok) → ids_ok r'.
Proof. intros Hrm Hr He. refine (proj1 (evict_loop_inv over pick rm ids_ok _ fuel r n r' n' ok Hr He)). auto. Qed.

Lemma slot_ids r p i n ev r' ev' res : ids_ok r → make_transfer_slot r p i n ev = Some (r', ev', res) → ids_ok r'.
Proof.
  intros Hr. unfold make_transfer_slot. destruct (_ || _); [by intros [= <- <- <-]|].
  intros ([[r1 e1] ok] & He & [= <- <- <-])%bind_Some. eapply evict_ids; [|exact Hr|exact He]. intros ? ? ?. by apply remove_ids.
Qed.

Lemma room_ids r p i n ev r' ev' res : ids_ok r → make_byte_room r p i n ev = Some (r', ev', res) → ids_ok r'.
Proof.
  intros Hr. unfold make_byte_room. intros ([[r1 e1] ok] & He & Hs)%bind_Some.
  assert (Hr1 : ids_ok r1) by (eapply evict_ids; [|exact Hr|exact He]; intros ? ? ?; by apply remove_ids).
  destruct ok; cbn in Hs; [|by injection Hs as <- <- <-]. apply bind_Some in Hs as ([[r2 e2] ok2] & He2 & [= <- <- <-]).
  eapply evict_ids; [|exact Hr1|exact He2]. intros ? [? ?] ?. by apply remove_ids.
Qed.

Lemma store_ids r p f now r' res : length (fi_id f) = 32 → ids_ok r → store_fragment blake3_hash r p f now = Some (r', res) → ids_ok r'.
Proof.
  intros Hid Hr. unfold store_fragment. intros (st & Hst & (t & Ht & Hs)%bind_Some)%bind_Some.
  match type of Hs with context [remove_transfer ?x] => set (r1 := x) in * end.
  assert (Hr1 : ids_ok r1).
  { intros p' i' t'. unfold get_transfer, r1. cbn [r_peers]. intros (st' & Hst' & Ht')%bind_Some.
    apply lookup_insert_Some in Hst' as [[<- <-]|[_ Hst']]; [|by apply (Hr p' i' t'), bind_Some; eauto].
    cbn in Ht'. apply lookup_insert_Some in Ht' as [[<- _]|[_ Ht']]; [done|]. apply (Hr p i' t'). apply bind_Some. eauto. }
  destruct (negb _); [by injection Hs as <- <-|]. destruct (decide _); injection Hs as <- <-; by apply remove_ids.
Qed.

Lemma fragment_ids r p f now ev r' ev' res : length (fi_id f) = 32 → ids_ok r →
  accept_fragment blake3_hash r p f now ev = Some (r', ev', res) → ids_ok r'.
Proof.
  intros Hid Hr. unfold accept_fragment. destruct (decide _); [by intros [= <- _ _]|]. destruct (_ <? _)%N; [by intros [= <- _ _]|].
  destruct (_ =? _)%N; [by intros [= <- _ _]|]. destruct (checked_add _ _) as [e|]; [|by intros [= <- _ _]].
  destruct (_ <? _)%N; [by intros [= <- _ _]|]. destruct (get_transfer r p (fi_id f)) as [t|].
  - destruct (negb _); [by intros [= <- _ _]|]. destruct (bt_get _ _).
    { destruct (decide _); intros [= <- _ _]; [by apply insert_ids|done]. }
    destruct (overlaps _ _ _); [by intros [= <- _ _]|]. destruct (_ <=? _)%N; [by intros [= <- _ _]|].
    intros ([[r1 e1] [[]|err]] & Hroom & Hs)%bind_Some; apply room_ids in Hroom; try done; [|by injection Hs as <- _ _].
    apply bind_Some in Hs as ([r2 o] & Hst & [= <- _ _]). by apply store_ids in Hst.
  - intros ([[r1 e1] [[]|err]] & Hslot & Hs)%bind_Some; apply slot_ids in Hslot; try done; [|by injection Hs as <- _ _].
    apply bind_Some in Hs as ([[r2 e2] [[]|err]] & Hroom & Hs); apply room_ids in Hroom; try done; [|by injection Hs as <- _ _].
    apply bind_Some in Hs as ([r3 o] & Hst & [= <- _ _]). apply store_ids in Hst; [done..|]. by apply insert_ids.
Qed.

Lemma accept_ids r p bytes now r' rep : ids_ok r → accept blake3_hash r p bytes now = Some (r', rep) → ids_ok r'.
Proof.
  intros Hr. unfold accept. pose proof (expire_ids blake3_hash r now Hr) as Hr1. destruct (expire r now) as [r1 n]. cbn in Hr1.
  destruct (head bytes); [|by intros [= <- _]]. destruct (bool_decide _); [destruct (_ <? _)%N; by intros [= <- _]|].
  destruct (bool_decide _); [by intros [= <- _]|]. destruct (Nat.ltb_spec (length bytes) FRAGMENT_HEADER_LEN) as [|Hlen]; [by intros [= <- _]|].
  intros ([[r2 e2] o] & Hf & [= <- _])%bind_Some. apply fragment_ids in Hf; [done| |done]. unfold fragment_input, frame_id. cbn [fi_id].
  unfold FRAGMENT_HEADER_LEN in Hlen. rewrite length_slice; lia.
Qed.

Lemma frame_ids r p pl max now r' ev : ids_ok r → accept_frame blake3_hash r p pl max now = Some (r', ev) → ids_ok r'.
Proof.
  intros Hr. unfold accept_frame. destruct (parse_recovery_control (p_bytes pl) max) as [[[]|]|]; try by intros [= <- _].
  intros ([r1 rep] & Ha & Hs)%bind_Some. apply accept_ids in Ha; [|done].
  assert (Hpend : ids_ok (pending_fragment_event r1 p (fragment_metadata (p_bytes pl)) max now).1).
  { unfold pending_fragment_event. destruct (fragment_metadata _) as [m|]; [|done]. destruct (is_terminal m); [|done].
    unfold missing_ranges_if_due. destruct (_ =? _)%N; [done|]. destruct (get_transfer r1 p (fm_transfer_id m)) eqn:Hg; [|done].
    destruct (asked_recently _ _ _); [done|]. destruct (missing_ranges_for_transfer _ _); [done|]. cbn.
    apply insert_ids; [by eapply Ha|done]. }
  injection Hs as Hs. destruct (outcome rep) as [[]|]; try (by injection Hs as <- _); by rewrite Hs in Hpend.
Qed.

Lemma poll_ids r now mi ri max mx : ids_ok r → ids_ok (poll_idle_missing r now mi ri max mx).1.
Proof.
  intros Hr. unfold poll_idle_missing. destruct (_ =? _)%N; [done|]. destruct (_ =? _)%N; [done|].
  generalize (@nil (MissingRequest P)). match goal with |- context [poll_loop _ _ _ _ ?cs] => generalize cs end. intros l. revert r Hr.
  induction l as [|[p i] l IH]; intros r Hr reps; cbn [poll_loop]; [done|]. destruct (_ <=? _)%N; [done|].
  destruct (get_transfer r p i) eqn:Hg; [|by apply IH]. destruct (missing_ranges_for_transfer _ _); [by apply IH|].
  apply IH, insert_ids; [by eapply Hr|done].
Qed.
End ids.
