(* ===== verification/Journal.v ===== *)
(** * The two-generation journal ([src/replica/generation.rs], [src/persistence.rs],
      [apply_delta] of [src/snapshot/incremental.rs])

    Durable mutations are recorded in an open generation; [freeze] cuts it into one immutable
    retryable generation, [commit] retires that one after a save. A generation is saved as a
    coalesced delta that [apply_delta] replays. Entries are opaque here (type [E]); hash maps are
    finite maps folded in some order. *)
From stdpp Require Import gmap list.
From Stdlib Require Import NArith.
From S2P Require Import Prelude.

Inductive EntryDelta (E : Type) := Upsert (e : E) | PhysicalDelete.
Arguments Upsert {E} e.
Arguments PhysicalDelete {E}.

Section journal.
Context {K E P : Type} `{Countable K, Countable P}.

(** ** Persisted state and deltas *)

(** [PersistedState]; its entry vector is the map it is collected into. *)
Record PersistedState := {
  st_entries : gmap K E;
  st_members : gset P;
  st_acks : gmap K (gmap P N);
}.

Definition PersistedState_default : PersistedState := {| st_entries := ∅; st_members := ∅; st_acks := ∅ |}.

Record PersistenceDelta := {
  d_entries : gmap K (option E);
  d_members : gmap P bool;
  d_ack_key_clears : gset K;
  d_ack_peers : gmap K (gmap P (option N));
}.

(** One insert-or-remove per key, as the loops over [delta.entries] and [peer_ops] do. *)
Definition overlay {A V} `{Countable A} (ops : gmap A (option V)) (m : gmap A V) : gmap A V :=
  map_fold (λ k o m, match o with Some v => <[k := v]> m | None => delete k m end) m ops.

Definition apply_members (ops : gmap P bool) (m : gset P) : gset P :=
  map_fold (λ p (present : bool) m, if present then {[p]} ∪ m else m ∖ {[p]}) m ops.

Definition apply_acks (clears : gset K) (ops : gmap K (gmap P (option N))) (acks : gmap K (gmap P N))
    : gmap K (gmap P N) :=
  let acks := set_fold (λ k acks, delete k acks) acks clears in
  map_fold (λ k peer_ops acks,
    match acks !! k with
    | Some occupied =>
        let occupied := overlay peer_ops occupied in
        if decide (occupied = ∅) then delete k acks else <[k := occupied]> acks
    | None =>
        let added := omap (λ version, version) peer_ops in
        if decide (added = ∅) then acks else <[k := added]> acks
    end) acks ops.

Definition apply_delta (d : PersistenceDelta) (s : PersistedState) : PersistedState :=
  {| st_entries := overlay (d_entries d) (st_entries s);
     st_members := apply_members (d_members d) (st_members s);
     st_acks := apply_acks (d_ack_key_clears d) (d_ack_peers d) (st_acks s) |}.

(** ** Generations *)

Record SnapshotGeneration := {
  g_id : N;
  g_entries : gmap K (EntryDelta E);
  g_members : gmap P bool;
  g_ack_key_clears : gset K;
  g_ack_peers : gmap K (gmap P (option N));
  g_raw_changes : N;
}.

Definition SnapshotGeneration_default : SnapshotGeneration :=
  {| g_id := 0; g_entries := ∅; g_members := ∅; g_ack_key_clears := ∅; g_ack_peers := ∅; g_raw_changes := 0 |}.

Definition gen_is_empty (g : SnapshotGeneration) : bool := (g_raw_changes g =? 0)%N.

Definition persistence_delta (g : SnapshotGeneration) : PersistenceDelta :=
  {| d_entries := (λ d, match d with Upsert e => Some e | PhysicalDelete => None end) <$> g_entries g;
     d_members := g_members g; d_ack_key_clears := g_ack_key_clears g; d_ack_peers := g_ack_peers g |}.

Record GenerationState := {
  next_id : N;
  gs_open : SnapshotGeneration;
  frozen : option SnapshotGeneration;
  tracking_enabled : bool;
}.

Definition GenerationState_default : GenerationState :=
  {| next_id := 1; gs_open := SnapshotGeneration_default; frozen := None; tracking_enabled := true |}.

Definition freeze (t : GenerationState) : GenerationState * option SnapshotGeneration :=
  match frozen t with
  | Some g => (t, Some g)
  | None =>
      if gen_is_empty (gs_open t) then (t, None)
      else
        let o := gs_open t in
        let g := {| g_id := next_id t; g_entries := g_entries o; g_members := g_members o;
                    g_ack_key_clears := g_ack_key_clears o; g_ack_peers := g_ack_peers o;
                    g_raw_changes := g_raw_changes o |} in
        ({| next_id := saturating_add (next_id t) 1; gs_open := SnapshotGeneration_default;
            frozen := Some g; tracking_enabled := tracking_enabled t |}, Some g)
  end.

Definition commit (t : GenerationState) (generation_id : N) : GenerationState * bool :=
  if decide (g_id <$> frozen t = Some generation_id)
  then ({| next_id := next_id t; gs_open := gs_open t; frozen := None; tracking_enabled := tracking_enabled t |}, true)
  else (t, false).

Definition set_tracking_enabled (t : GenerationState) (enabled : bool) : GenerationState :=
  {| next_id := next_id t; gs_open := gs_open t; frozen := frozen t; tracking_enabled := enabled |}.

Definition reset_clean (t : GenerationState) : GenerationState :=
  {| next_id := next_id t; gs_open := SnapshotGeneration_default; frozen := None; tracking_enabled := true |}.

(** ** Recording *)

Definition with_open (t : GenerationState) (g : SnapshotGeneration) : GenerationState :=
  if tracking_enabled t
  then {| next_id := next_id t; gs_open := g; frozen := frozen t; tracking_enabled := tracking_enabled t |}
  else t.

Definition record_entry (t : GenerationState) (k : K) (e : E) : GenerationState :=
  let o := gs_open t in
  with_open t {| g_id := g_id o; g_entries := <[k := Upsert e]> (g_entries o); g_members := g_members o;
    g_ack_key_clears := g_ack_key_clears o; g_ack_peers := g_ack_peers o;
    g_raw_changes := saturating_add (g_raw_changes o) 1 |}.

Definition record_physical_delete (t : GenerationState) (k : K) : GenerationState :=
  let o := gs_open t in
  with_open t {| g_id := g_id o; g_entries := <[k := PhysicalDelete]> (g_entries o); g_members := g_members o;
    g_ack_key_clears := g_ack_key_clears o; g_ack_peers := g_ack_peers o;
    g_raw_changes := saturating_add (g_raw_changes o) 1 |}.

Definition record_member (t : GenerationState) (p : P) (present : bool) : GenerationState :=
  let o := gs_open t in
  with_open t {| g_id := g_id o; g_entries := g_entries o; g_members := <[p := present]> (g_members o);
    g_ack_key_clears := g_ack_key_clears o; g_ack_peers := g_ack_peers o;
    g_raw_changes := saturating_add (g_raw_changes o) 1 |}.

Definition record_ack (t : GenerationState) (k : K) (p : P) (version : option N) : GenerationState :=
  let o := gs_open t in
  with_open t {| g_id := g_id o; g_entries := g_entries o; g_members := g_members o;
    g_ack_key_clears := g_ack_key_clears o;
    g_ack_peers := <[k := <[p := version]> (default ∅ (g_ack_peers o !! k))]> (g_ack_peers o);
    g_raw_changes := saturating_add (g_raw_changes o) 1 |}.

Definition record_ack_key_clear (t : GenerationState) (k : K) : GenerationState :=
  let o := gs_open t in
  with_open t {| g_id := g_id o; g_entries := g_entries o; g_members := g_members o;
    g_ack_key_clears := {[k]} ∪ g_ack_key_clears o; g_ack_peers := delete k (g_ack_peers o);
    g_raw_changes := saturating_add (g_raw_changes o) 1 |}.
End journal.
Arguments PersistedState K E P {_ _ _ _} : assert.
Arguments PersistenceDelta K E P {_ _ _ _} : assert.
Arguments SnapshotGeneration K E P {_ _ _ _} : assert.
Arguments GenerationState K E P {_ _ _ _} : assert.

(** ** Deltas override pointwise *)

Section pointwise.
Context {K E P : Type} `{Countable K, Countable P}.
Implicit Types (s : PersistedState K E P) (d : PersistenceDelta K E P) (t : GenerationState K E P).

Lemma lookup_overlay {A V} `{Countable A} (ops : gmap A (option V)) (m : gmap A V) k :
  overlay ops m !! k = match ops !! k with Some o => o | None => m !! k end.
Proof.
  unfold overlay.
  apply (map_fold_weak_ind (λ r ops, ∀ k, r !! k = match ops !! k with Some o => o | None => m !! k end)); [done|].
  clear k. intros i o ops' r Hi IH k. destruct (decide (i = k)) as [->|].
  - rewrite lookup_insert_eq. destruct o; [by rewrite lookup_insert_eq|by rewrite lookup_delete_eq].
  - rewrite lookup_insert_ne by done. rewrite <- IH.
    destruct o; [by rewrite lookup_insert_ne|by rewrite lookup_delete_ne].
Qed.

Lemma elem_apply_members (ops : gmap P bool) (m : gset P) p :
  p ∈ apply_members ops m ↔ match ops !! p with Some b => b = true | None => p ∈ m end.
Proof.
  unfold apply_members.
  apply (map_fold_weak_ind (λ r ops, p ∈ r ↔ match ops !! p with Some b => b = true | None => p ∈ m end)); [done|].
  intros i b ops' r Hi IH. destruct (decide (i = p)) as [->|].
  - rewrite lookup_insert_eq. destruct b; set_solver.
  - rewrite lookup_insert_ne by done. destruct b; set_solver.
Qed.

(** An acknowledgement, whether or not an empty row is kept for its key. *)
Definition ack (a : gmap K (gmap P N)) (k : K) (p : P) : option N := a !! k ≫= λ row, row !! p.

Lemma clear_keys (ks : gset K) (a : gmap K (gmap P N)) k :
  set_fold (λ k a, delete k a) a ks !! k = if decide (k ∈ ks) then None else a !! k.
Proof.
  assert (Hk : (k ∈ ks → set_fold (λ k a, delete k a) a ks !! k = None) ∧
               (k ∉ ks → set_fold (λ k a, delete k a) a ks !! k = a !! k)).
  { apply (set_fold_ind_L (λ r (X : gset K), (k ∈ X → r !! k = None) ∧ (k ∉ X → r !! k = a !! k))); [set_solver|].
    intros x X r Hx [IH1 IH2]. destruct (decide (x = k)) as [->|].
    - rewrite lookup_delete_eq. set_solver.
    - rewrite lookup_delete_ne by done. set_solver. }
  case_decide; naive_solver.
Qed.

Lemma ack_rows (ops : gmap K (gmap P (option N))) (a : gmap K (gmap P N)) k p :
  ack (map_fold (λ k peer_ops acks,
    match acks !! k with
    | Some occupied =>
        let occupied := overlay peer_ops occupied in
        if decide (occupied = ∅) then delete k acks else <[k := occupied]> acks
    | None =>
        let added := omap (λ version, version) peer_ops in
        if decide (added = ∅) then acks else <[k := added]> acks
    end) a ops) k p
  = match ops !! k ≫= λ row, row !! p with Some o => o | None => ack a k p end.
Proof.
  apply (map_fold_weak_ind (λ r ops, ack r k p = match ops !! k ≫= λ row, row !! p with Some o => o | None => ack a k p end ∧
    (ops !! k = None → r !! k = a !! k))); [done|].
  intros i row ops' r Hi [IH1 IH2]. destruct (decide (i = k)) as [->|].
  - rewrite lookup_insert_eq. split; [|done]. cbn [mbind option_bind]. unfold ack in *. specialize (IH2 Hi).
    destruct (r !! k) as [occ|] eqn:Hr; cbn zeta.
    + rewrite <- IH2. cbn [mbind option_bind]. pose proof (lookup_overlay row occ p) as Hp.
      case_decide as He; [rewrite lookup_delete_eq; cbn; rewrite He in Hp; by rewrite <- Hp|].
      rewrite lookup_insert_eq. cbn. done.
    + rewrite <- IH2. cbn [mbind option_bind]. pose proof (lookup_omap (λ version : option N, version) row p) as Hp.
      case_decide as He; [rewrite Hr; rewrite He, lookup_empty in Hp|rewrite lookup_insert_eq; cbn; rewrite Hp];
        destruct (row !! p) as [[v|]|]; cbn in *; done.
  - rewrite lookup_insert_ne by done. rewrite <- IH1. unfold ack. split.
    + destruct (r !! i); cbn zeta; case_decide; by rewrite ?lookup_delete_ne, ?lookup_insert_ne by done.
    + intros Hk. rewrite <- (IH2 Hk). destruct (r !! i); cbn zeta; case_decide; by rewrite ?lookup_delete_ne, ?lookup_insert_ne by done.
Qed.

(** States are compared up to empty acknowledgement rows. *)
Definition same s s' : Prop :=
  st_entries s = st_entries s' ∧ st_members s = st_members s' ∧
  ∀ k p, ack (st_acks s) k p = ack (st_acks s') k p.

#[global] Instance state_equiv : Equiv (PersistedState K E P) := same.

#[global] Instance state_equivalence : Equivalence (≡@{PersistedState K E P}).
Proof.
  split.
  - by intros s.
  - intros s s' (? & ? & ?). by split_and!.
  - intros s s' s'' (? & ? & Ha) (? & ? & Hb). split_and!; [congruence|congruence|]. intros. by rewrite Ha.
Qed.

(** What a delta says of one acknowledgement. *)
Definition ov_ack d (k : K) (p : P) : option (option N) :=
  match d_ack_peers d !! k ≫= λ row, row !! p with
  | Some o => Some o
  | None => if decide (k ∈ d_ack_key_clears d) then Some None else None
  end.

Lemma ack_apply d s k p : ack (st_acks (apply_delta d s)) k p = default (ack (st_acks s) k p) (ov_ack d k p).
Proof.
  unfold apply_delta, apply_acks, ov_ack. cbn [st_acks]. rewrite ack_rows.
  destruct (d_ack_peers d !! k ≫= _) as [o|]; [done|]. unfold ack at 1. rewrite clear_keys. by case_decide.
Qed.

Lemma entry_apply d s k : st_entries (apply_delta d s) !! k = default (st_entries s !! k) (d_entries d !! k).
Proof. cbn. rewrite lookup_overlay. by destruct (d_entries d !! k). Qed.

Lemma member_apply d s p :
  p ∈ st_members (apply_delta d s) ↔ match d_members d !! p with Some b => b = true | None => p ∈ st_members s end.
Proof. apply elem_apply_members. Qed.

Lemma same_intro s s' :
  (∀ k, st_entries s !! k = st_entries s' !! k) → (∀ p, p ∈ st_members s ↔ p ∈ st_members s') →
  (∀ k p, ack (st_acks s) k p = ack (st_acks s') k p) → s ≡ s'.
Proof. intros. split_and!; [by apply map_eq|by apply set_eq|done]. Qed.

#[global] Instance apply_delta_proper d : Proper ((≡) ==> (≡)) (apply_delta d).
Proof.
  intros s s' (He & Hm & Ha). apply same_intro.
  - intros k. by rewrite !entry_apply, He.
  - intros p. by rewrite !member_apply, Hm.
  - intros k p. by rewrite !ack_apply, Ha.
Qed.

(** Replaying [d'] then [d], then both again, changes nothing more. *)
Lemma apply_absorb d d' s : apply_delta d (apply_delta d' (apply_delta d (apply_delta d' s))) ≡ apply_delta d (apply_delta d' s).
Proof.
  apply same_intro.
  - intros k. rewrite !entry_apply. by destruct (d_entries d !! k), (d_entries d' !! k).
  - intros p. rewrite !(member_apply d). destruct (d_members d !! p) eqn:E1; [done|].
    rewrite !(member_apply d'). destruct (d_members d' !! p) eqn:E2; [done|].
    by rewrite member_apply, E1, member_apply, E2.
  - intros k p. rewrite !ack_apply. by destruct (ov_ack d k p), (ov_ack d' k p).
Qed.

Lemma apply_idem d s : apply_delta d (apply_delta d s) ≡ apply_delta d s.
Proof.
  apply same_intro.
  - intros k. rewrite !entry_apply. by destruct (d_entries d !! k).
  - intros p. rewrite member_apply. destruct (d_members d !! p) eqn:E1; rewrite member_apply, E1; done.
  - intros k p. rewrite !ack_apply. by destruct (ov_ack d k p).
Qed.

(** ** Mutations and their records *)

Inductive Mutation :=
| MEntry (k : K) (e : E)
| MDelete (k : K)
| MMember (p : P) (present : bool)
| MAck (k : K) (p : P) (version : option N)
| MClear (k : K).

Definition set_ack (a : gmap K (gmap P N)) (k : K) (p : P) (v : option N) : gmap K (gmap P N) :=
  match v with
  | Some v => <[k := <[p := v]> (default ∅ (a !! k))]> a
  | None => match a !! k with Some row => <[k := delete p row]> a | None => a end
  end.

(** What the runtime does to its state. *)
Definition mutate (m : Mutation) s : PersistedState K E P :=
  match m with
  | MEntry k e => {| st_entries := <[k := e]> (st_entries s); st_members := st_members s; st_acks := st_acks s |}
  | MDelete k => {| st_entries := delete k (st_entries s); st_members := st_members s; st_acks := st_acks s |}
  | MMember p b => {| st_entries := st_entries s;
                      st_members := if b then {[p]} ∪ st_members s else st_members s ∖ {[p]}; st_acks := st_acks s |}
  | MAck k p v => {| st_entries := st_entries s; st_members := st_members s; st_acks := set_ack (st_acks s) k p v |}
  | MClear k => {| st_entries := st_entries s; st_members := st_members s; st_acks := delete k (st_acks s) |}
  end.

(** What it records at the same time. *)
Definition journal (m : Mutation) t : GenerationState K E P :=
  match m with
  | MEntry k e => record_entry t k e
  | MDelete k => record_physical_delete t k
  | MMember p b => record_member t p b
  | MAck k p v => record_ack t k p v
  | MClear k => record_ack_key_clear t k
  end.

Lemma ack_set_ack a k p v k' p' : ack (set_ack a k p v) k' p' = if decide (k = k' ∧ p = p') then v else ack a k' p'.
Proof.
  unfold set_ack, ack. destruct (decide (k = k')) as [<-|]; cycle 1.
  { rewrite decide_False by naive_solver. destruct v; [by rewrite lookup_insert_ne|].
    destruct (a !! k); [by rewrite lookup_insert_ne|done]. }
  destruct v as [v|]; [rewrite lookup_insert_eq; cbn|].
  - destruct (decide (p = p')) as [<-|]; [by rewrite lookup_insert_eq, decide_True by done|].
    rewrite lookup_insert_ne, decide_False by naive_solver. by destruct (a !! k).
  - destruct (a !! k) as [row|] eqn:Hr; [rewrite lookup_insert_eq|rewrite Hr; by case_decide].
    cbn. destruct (decide (p = p')) as [<-|]; [by rewrite lookup_delete_eq, decide_True by done|].
    by rewrite lookup_delete_ne, decide_False by naive_solver.
Qed.

#[global] Instance mutate_proper m : Proper ((≡) ==> (≡)) (mutate m).
Proof.
  intros s s' (He & Hm & Ha). apply same_intro; destruct m as [k e|k|p b|k p v|k]; cbn; intros; rewrite ?He, ?Hm; try done.
  - by rewrite !ack_set_ack, Ha.
  - unfold ack in *. destruct (decide (k = k0)) as [->|]; [by rewrite !lookup_delete_eq|by rewrite !lookup_delete_ne].
Qed.

Definition open_delta t : PersistenceDelta K E P := persistence_delta (gs_open t).

(** Recording is exact: one more record is one more mutation replayed. *)
Lemma record_sound m t s :
  tracking_enabled t = true →
  apply_delta (open_delta (journal m t)) s ≡ mutate m (apply_delta (open_delta t) s).
Proof.
  intros Ht. apply same_intro; destruct m as [k e|k|p b|k p v|k]; cbn [journal];
    unfold open_delta, record_entry, record_physical_delete, record_member, record_ack, record_ack_key_clear, with_open;
    rewrite Ht; cbn [gs_open mutate st_entries st_members st_acks]; try (intros; done).
  - intros k'. rewrite entry_apply. cbn [d_entries persistence_delta g_entries]. rewrite fmap_insert.
    destruct (decide (k = k')) as [<-|]; [by rewrite !lookup_insert_eq|].
    by rewrite !lookup_insert_ne, entry_apply by done.
  - intros k'. rewrite entry_apply. cbn [d_entries persistence_delta g_entries]. rewrite fmap_insert.
    destruct (decide (k = k')) as [<-|]; [by rewrite lookup_insert_eq, lookup_delete_eq|].
    by rewrite lookup_insert_ne, lookup_delete_ne, entry_apply by done.
  - intros p'. rewrite member_apply. cbn [d_members persistence_delta g_members].
    destruct (decide (p = p')) as [<-|]; [rewrite lookup_insert_eq; destruct b; set_solver|].
    rewrite lookup_insert_ne by done. pose proof (member_apply (persistence_delta (gs_open t)) s p') as Hm.
    cbn [d_members persistence_delta] in Hm. rewrite <- Hm. destruct b; set_solver.
  - intros k' p'. rewrite ack_set_ack, !ack_apply. unfold ov_ack.
    cbn [d_ack_peers d_ack_key_clears persistence_delta g_ack_peers g_ack_key_clears].
    destruct (decide (k = k')) as [<-|].
    + rewrite lookup_insert_eq. cbn [mbind option_bind]. destruct (decide (p = p')) as [<-|].
      * by rewrite lookup_insert_eq, decide_True by done.
      * rewrite lookup_insert_ne, (decide_False (P := k = k ∧ p = p')) by naive_solver.
        by destruct (g_ack_peers (gs_open t) !! k).
    + by rewrite lookup_insert_ne, (decide_False (P := k = k' ∧ p = p')) by naive_solver.
  - intros k' p'. rewrite ack_apply. unfold ov_ack.
    cbn [d_ack_peers d_ack_key_clears persistence_delta g_ack_peers g_ack_key_clears].
    destruct (decide (k = k')) as [<-|].
    + unfold ack. rewrite !lookup_delete_eq. cbn. by rewrite decide_True by (apply elem_of_union_l, elem_of_singleton; done).
    + transitivity (ack (st_acks (apply_delta (persistence_delta (gs_open t)) s)) k' p');
        [|unfold ack; by rewrite lookup_delete_ne]. rewrite ack_apply. unfold ov_ack. cbn. rewrite lookup_delete_ne by done.
      destruct (g_ack_peers (gs_open t) !! k' ≫= _); [done|]. f_equal. apply decide_ext. clear -n. set_solver.
Qed.

(** ** Tracking

    [tracks t s rt]: replaying the frozen then the open generation onto [s] gives [rt]. *)
Definition apply_opt (o : option (SnapshotGeneration K E P)) s : PersistedState K E P :=
  match o with Some g => apply_delta (persistence_delta g) s | None => s end.

Definition tracks t s rt : Prop := apply_delta (open_delta t) (apply_opt (frozen t) s) ≡ rt.

(** An open generation without raw changes is empty. *)
Definition gen_ok (g : SnapshotGeneration K E P) : Prop :=
  g_raw_changes g = 0%N → g_entries g = ∅ ∧ g_members g = ∅ ∧ g_ack_key_clears g = ∅ ∧ g_ack_peers g = ∅.

Definition tracker_ok t : Prop := tracking_enabled t = true ∧ gen_ok (gs_open t).

Lemma empty_delta (g : SnapshotGeneration K E P) s :
  g_entries g = ∅ → g_members g = ∅ → g_ack_key_clears g = ∅ → g_ack_peers g = ∅ →
  apply_delta (persistence_delta g) s ≡ s.
Proof.
  intros He Hm Hc Ha. apply same_intro.
  - intros k. rewrite entry_apply. cbn. by rewrite He, fmap_empty, lookup_empty.
  - intros p. rewrite member_apply. cbn. by rewrite Hm, lookup_empty.
  - intros k p. rewrite ack_apply. unfold ov_ack. cbn. by rewrite Ha, Hc, lookup_empty.
Qed.

Lemma saturating_succ n : saturating_add n 1 ≠ 0%N.
Proof. unfold saturating_add, usize_max, u64_max. lia. Qed.

Lemma journal_ok m t : tracker_ok t → tracker_ok (journal m t) ∧ frozen (journal m t) = frozen t.
Proof.
  intros [Ht Hg]. destruct m; cbn [journal];
    unfold record_entry, record_physical_delete, record_member, record_ack, record_ack_key_clear, with_open; rewrite Ht;
    (split; [split; [done|]|done]); intros Hz; exfalso; cbn [gs_open g_raw_changes] in Hz; by apply saturating_succ in Hz.
Qed.

Lemma journal_tracks m t s rt : tracker_ok t → tracks t s rt → tracks (journal m t) s (mutate m rt).
Proof.
  intros Hok Hs. destruct (journal_ok m t Hok) as [_ Hf]. destruct Hok as [Ht _]. unfold tracks. rewrite Hf.
  rewrite record_sound by done. by apply mutate_proper.
Qed.

Lemma freeze_ok t t' g : tracker_ok t → freeze t = (t', g) →
  tracker_ok t' ∧ frozen t' = g ∧ (∀ s rt, tracks t s rt → tracks t' s rt) ∧
  (frozen t = None → gs_open t' = SnapshotGeneration_default ∨ ∀ s, apply_delta (open_delta t') s ≡ s).
Proof.
  intros [Ht Hg]. unfold freeze. destruct (frozen t) as [g0|] eqn:Hf.
  { intros [= <- <-]. by split_and!. }
  unfold gen_is_empty. case_test.
  { intros [= <- <-]. split_and!; [done|done|done|]. intros _. right. intros s. apply Hg in E0 as (? & ? & ? & ?).
    by apply empty_delta. }
  intros [= <- <-]. split_and!; [by split|done| |by left].
  intros s rt. unfold tracks, open_delta. rewrite Hf. cbn [apply_opt frozen gs_open]. intros Hs.
  rewrite empty_delta by done. exact Hs.
Qed.

Lemma commit_ok t g : tracker_ok t → frozen t = Some g →
  (commit t (g_id g)).2 = true ∧ tracker_ok (commit t (g_id g)).1 ∧ frozen (commit t (g_id g)).1 = None ∧
  gs_open (commit t (g_id g)).1 = gs_open t.
Proof. intros Hok Hf. unfold commit. rewrite Hf. cbn [fmap option_fmap option_map]. by rewrite decide_True. Qed.
End pointwise.

(** ** What a backend promises ([trait Persistence])

    [load] answers the durable state. A save that answers [Ok] has taken effect, one that fails
    has taken effect entirely or not at all, and [Ok false] asks for a full save. [backend_ok] is
    the backend's own invariant. *)
Class Persistence (K E P B : Type) `{Countable K, Countable P} := {
  load : B → result (option (PersistedState K E P)) unit;
  save : B → PersistedState K E P → B * result unit unit;
  try_save_delta : B → option (PersistenceDelta K E P) → B * result bool unit;
  backend_ok : B → Prop;
  backend_loads b : backend_ok b → ∃ o, load b = Ok o;
  save_atomic b s b' res : backend_ok b → save b s = (b', res) →
    backend_ok b' ∧
    match res with
    | Ok _ => ∃ s', load b' = Ok (Some s') ∧ s' ≡ s
    | Err _ => load b' = load b ∨ ∃ s', load b' = Ok (Some s') ∧ s' ≡ s
    end;
  try_save_delta_atomic b d b' res : backend_ok b → try_save_delta b d = (b', res) →
    backend_ok b' ∧
    match res with
    | Ok false => load b' = load b
    | Ok true => ∃ s s', load b = Ok (Some s) ∧ load b' = Ok (Some s') ∧
                   s' ≡ match d with Some d => apply_delta d s | None => s end
    | Err _ => load b' = load b ∨ ∃ s s' dl, d = Some dl ∧ load b = Ok (Some s) ∧ load b' = Ok (Some s') ∧
                   s' ≡ apply_delta dl s
    end;
}.

(** [InMemoryPersistence] keeps the default [try_save_delta], which asks for full saves. *)
#[export] Program Instance InMemoryPersistence {K E P} `{Countable K, Countable P}
    : Persistence K E P (option (PersistedState K E P)) := {|
  load b := Ok b;
  save b s := (Some s, Ok tt);
  try_save_delta b d := (b, Ok false);
  backend_ok b := True;
|}.
Next Obligation. intros. by eexists. Qed.
Next Obligation. intros * _ [= <- <-]. split; [done|]. by eexists. Qed.
Next Obligation. intros * _ [= <- <-]. done. Qed.
