(* ===== verification/Durability.v ===== *)
(** * Durability of journalled state

    What journalling every mutation and saving frozen generations guarantees, for any runtime
    state, tracker and backend: shared by the signed replica and by the replicated map. *)
From stdpp Require Import gmap list.
From Stdlib Require Import NArith.
From S2P Require Import Prelude Journal.

Section durability.
Context {K E P B : Type} `{Countable K, Countable P} `{!Persistence K E P B}.
Implicit Types (ms : list (Mutation (K := K) (E := E) (P := P))) (g : GenerationState K E P)
  (rt d st : PersistedState K E P) (b : B).

(** ** Sequences of journalled mutations *)

Definition mutate_all ms st : PersistedState K E P := fold_left (λ st m, mutate m st) ms st.
Definition journal_all ms g : GenerationState K E P := fold_left (λ g m, journal m g) ms g.

#[global] Instance mutate_all_proper ms : Proper ((≡) ==> (≡)) (mutate_all ms).
Proof.
  unfold mutate_all. induction ms as [|m ms IH]; intros x y Hxy; cbn; [done|]. apply IH. by apply mutate_proper.
Qed.

Lemma mutate_all_app ms ms' st : mutate_all (ms ++ ms') st = mutate_all ms' (mutate_all ms st).
Proof. apply fold_left_app. Qed.

Lemma journal_all_app ms ms' g : journal_all (ms ++ ms') g = journal_all ms' (journal_all ms g).
Proof. apply fold_left_app. Qed.

Lemma tracks_proper g d rt rt' : rt ≡ rt' → tracks g d rt → tracks g d rt'.
Proof. intros Hrt Ht. unfold tracks in *. by rewrite <- Hrt. Qed.

Lemma journal_all_tracks ms g :
  tracker_ok g → tracker_ok (journal_all ms g) ∧
  ∀ d rt, tracks g d rt → tracks (journal_all ms g) d (mutate_all ms rt).
Proof.
  unfold journal_all, mutate_all. revert g; induction ms as [|m ms IH]; intros g Hg; cbn [fold_left]; [done|].
  destruct (journal_ok m g Hg) as [Hg' _]. destruct (IH _ Hg') as [? Ht]. split; [done|].
  intros d rt Hd. apply Ht. by apply journal_tracks.
Qed.

(** ** The invariant *)

(** Whatever is durable, the two generations replayed onto it give the runtime state. *)
Record durable g b rt : Prop := {
  du_tracker : tracker_ok g;
  du_some : ∃ d, tracks g d rt;
  du_backend : backend_ok b;
  du_replay : ∀ d, load b = Ok (Some d) → tracks g d rt;
}.

Lemma durable_recorded g b rt g' rt' ms :
  durable g b rt → rt' ≡ mutate_all ms rt → g' = journal_all ms g → durable g' b rt'.
Proof.
  intros [Ht [d0 Hd0] Hb Hr] Er ->. destruct (journal_all_tracks ms _ Ht) as [Ht' Hms].
  constructor; [done| |done|].
  - exists d0. eapply tracks_proper; [symmetry; exact Er|]. auto.
  - intros d Hd. eapply tracks_proper; [symmetry; exact Er|]. auto.
Qed.

#[local] Instance apply_opt_proper (o : option (SnapshotGeneration K E P)) : Proper ((≡) ==> (≡)) (apply_opt o).
Proof. intros x y Hxy. destruct o; cbn; [by apply apply_delta_proper|done]. Qed.

Lemma tracks_self g d rt : tracks g d rt → tracks g rt rt ∧ apply_delta (open_delta g) rt ≡ rt.
Proof.
  unfold tracks, apply_opt. intros Hd. destruct (frozen g) as [f|]; rewrite <- Hd; (split; [|apply apply_idem]).
  - apply apply_absorb.
  - apply apply_idem.
Qed.

Lemma tracks_saved g d d' rt :
  d' ≡ apply_opt (frozen g) d → tracks g d rt → tracks g d' rt ∧ apply_delta (open_delta g) d' ≡ rt.
Proof.
  unfold tracks. intros Hd Ht. rewrite Hd. split; [|done]. destruct (frozen g) as [f|]; cbn [apply_opt] in *; [|done].
  by rewrite apply_idem.
Qed.

(** ** Saving a generation *)

(** The backend holds a state from which the open generation alone replays to [rt]. *)
Definition settled g b rt : Prop := ∃ d, load b = Ok (Some d) ∧ apply_delta (open_delta g) d ≡ rt.

Lemma journal_all_sound ms g st : tracker_ok g →
  apply_delta (open_delta (journal_all ms g)) st ≡ mutate_all ms (apply_delta (open_delta g) st).
Proof.
  unfold journal_all, mutate_all. revert g; induction ms as [|m ms IH]; intros g Hg; cbn [fold_left]; [done|].
  destruct (journal_ok m g Hg) as [Hg' _]. rewrite IH by done. apply mutate_all_proper, record_sound, Hg.
Qed.

Lemma settled_recorded g b rt g' rt' ms :
  tracker_ok g → settled g b rt → rt' ≡ mutate_all ms rt → g' = journal_all ms g → settled g' b rt'.
Proof. intros Hg (d & Hl & Hd) Er ->. exists d. split; [done|]. by rewrite journal_all_sound, Hd, Er by done. Qed.

Lemma freeze_durable g b rt g' fz : durable g b rt → freeze g = (g', fz) →
  durable g' b rt ∧ frozen g' = fz ∧ (frozen g = None → ∀ st, apply_delta (open_delta g') st ≡ st).
Proof.
  intros [Ht [d0 Hd0] Hb Hr] Hf. destruct (freeze_ok _ _ _ Ht Hf) as (Hg & Hfz & Htr & Hempty). split_and!; [|done|].
  - constructor; [done|by eauto|done|]. auto.
  - intros Hn st. destruct (Hempty Hn) as [E1|E1]; [|done]. unfold open_delta. rewrite E1. by apply empty_delta.
Qed.

(** The frozen generation's delta is offered first. *)
Lemma delta_durable g b rt b' r :
  durable g b rt → try_save_delta b (persistence_delta <$> frozen g) = (b', r) →
  durable g b' rt ∧ (r = Ok true → settled g b' rt).
Proof.
  intros [Ht [d0 Hd0] Hb Hr] Htry. destruct (try_save_delta_atomic _ _ _ _ Hb Htry) as [Hb1 Hlaw]. destruct r as [[]|e].
  - destruct Hlaw as (d & d' & Hl & Hl' & Hd'). apply Hr in Hl.
    assert (Ha : d' ≡ apply_opt (frozen g) d) by by destruct (frozen g).
    destruct (tracks_saved g d d' rt Ha Hl) as [Hd1 Hopen]. split; [|by exists d'].
    constructor; [done|by eauto|done|]. intros d1. rewrite Hl'. by intros [= <-].
  - split; [|done]. constructor; [done|by eauto|done|]. intros d. rewrite Hlaw. auto.
  - split; [|done]. constructor; [done|by eauto|done|]. intros d Hl.
    destruct Hlaw as [E1|(d1 & d2 & dl & Efz & El & E2 & Hd2)]; [rewrite E1 in Hl; auto|].
    rewrite E2 in Hl. injection Hl as <-. apply Hr in El. apply (tracks_saved g d1 d2); [|done].
    destruct (frozen g) as [f|]; [|done]. by injection Efz as <-.
Qed.

(** The full state, when the backend declines the delta. *)
Lemma full_durable g b rt b' r :
  durable g b rt → save b rt = (b', r) →
  durable g b' rt ∧ (r = Ok tt → settled g b' rt ∧ ∃ d, load b' = Ok (Some d) ∧ d ≡ rt).
Proof.
  intros [Ht [d0 Hd0] Hb Hr] Hs. destruct (tracks_self g d0 rt Hd0) as [Hself Hself'].
  destruct (save_atomic _ _ _ _ Hb Hs) as [Hb2 Hlaw2].
  assert (Hnew : ∀ d, d ≡ rt → tracks g d rt) by (intros d Hd; unfold tracks in *; by rewrite Hd).
  destruct r as [[]|e].
  - destruct Hlaw2 as (d & Hl & Hd). split.
    + constructor; [done|by eauto|done|]. intros d1. rewrite Hl. intros [= <-]. auto.
    + intros _. split; [|by exists d]. exists d. split; [done|]. by rewrite Hd.
  - split; [|done]. constructor; [done|by eauto|done|]. intros d Hl.
    destruct Hlaw2 as [E2|(d2 & E2 & Hd2)]; rewrite E2 in Hl; [auto|]. injection Hl as <-. auto.
Qed.

(** Retiring the frozen generation once what it covers is durable. *)
Lemma commit_durable g b rt f :
  durable g b rt → frozen g = Some f → settled g b rt →
  (commit g (g_id f)).2 = true ∧ durable (commit g (g_id f)).1 b rt ∧ frozen (commit g (g_id f)).1 = None ∧
  gs_open (commit g (g_id f)).1 = gs_open g.
Proof.
  intros [Ht _ Hb _] Hf (d & Hl & Hd). destruct (commit_ok g f Ht Hf) as (? & Ht' & Hf' & Ho). split_and!; [done| |done|done].
  assert (Htr : tracks (commit g (g_id f)).1 d rt) by (unfold tracks, open_delta; rewrite Hf', Ho; exact Hd).
  constructor; [done|by eauto|done|]. intros d'. rewrite Hl. by intros [= <-].
Qed.
End durability.
