(* ===== verification/SignedCausal.v ===== *)
(** * The signed replica's causal state ([src/signed_replica.rs], [src/signed_replica/causal.rs])

    A single-writer last-writer-wins map whose tombstones carry exact-version acknowledgements
    from verified peers, journalled for incremental snapshots. Entries, their merge and digest,
    and the clock belong to other crates and are the interface [Lww]. Error texts are dropped,
    error kinds kept. *)
From stdpp Require Import gmap list.
From Stdlib Require Import NArith.
From Stdlib.Strings Require Import Byte.
From S2P Require Import Prelude Bytes Framing Peer Routes RecoveryBook Journal.

(** [lww_register]'s entries and clock, [rsos]'s digest (its limbs, as [digest(..).0]). *)
Class Lww (V S E C : Type) := {
  present : S → V → E;
  tombstone : S → E;
  stamp : E → S;
  is_tombstone : E → bool;
  merge : E → E → E;
  digest : E → list N;
  clock_now : C → C * S;
  clock_observe : C → S → C;
  clock_observe_trusted : C → S → C;
}.

Inductive IoError := PermissionDenied | InvalidInput | InvalidData | Backend.

(** [version_hash]: the digest's low limb *)
Definition version_hash {V S E C} `{Lww V S E C} (e : E) : N := default 0%N (digest e !! 0).

(** [has_collection_proof] of [src/replica/gc.rs] *)
Definition has_collection_proof : bool := false.

Section signed.
Context {K V S E C A B : Type} `{Countable K} `{Lww V S E C} `{!Persistence K E PeerId B}.
(** The serialized length of [SignedMessage::Update(key, entry)]. *)
Context (update_len : K → E → N).

Record SignedReplica := {
  sr_routes : SignedPeerRoutes A;
  sr_entries : gmap K E;
  sr_members : gset PeerId;
  sr_acks : gmap K (gmap PeerId N);
  sr_generations : GenerationState K E PeerId;
  sr_persistence : B;
  sr_clock : C;
  sr_authorities : gset PeerId;
  sr_readers : gset PeerId;
  sr_read_only : bool;
  sr_framing : FramingConfig;
  sr_payload_budget : N;
  sr_cursors : gmap PeerId (option K);
  sr_max_frames_per_tick : N;
}.

Definition set_state (s : SignedReplica) (e : gmap K E) (m : gset PeerId) (a : gmap K (gmap PeerId N))
    (g : GenerationState K E PeerId) : SignedReplica :=
  {| sr_routes := sr_routes s; sr_entries := e; sr_members := m; sr_acks := a; sr_generations := g;
     sr_persistence := sr_persistence s; sr_clock := sr_clock s; sr_authorities := sr_authorities s;
     sr_readers := sr_readers s; sr_read_only := sr_read_only s; sr_framing := sr_framing s;
     sr_payload_budget := sr_payload_budget s; sr_cursors := sr_cursors s;
     sr_max_frames_per_tick := sr_max_frames_per_tick s |}.

Definition set_clock (s : SignedReplica) (c : C) : SignedReplica :=
  {| sr_routes := sr_routes s; sr_entries := sr_entries s; sr_members := sr_members s; sr_acks := sr_acks s;
     sr_generations := sr_generations s; sr_persistence := sr_persistence s; sr_clock := c;
     sr_authorities := sr_authorities s; sr_readers := sr_readers s; sr_read_only := sr_read_only s;
     sr_framing := sr_framing s; sr_payload_budget := sr_payload_budget s; sr_cursors := sr_cursors s;
     sr_max_frames_per_tick := sr_max_frames_per_tick s |}.

Definition required_fragments (s : SignedReplica) (logical_bytes : N) : result N IoError :=
  if (fc_max_logical_message_size (sr_framing s) <? logical_bytes)%N then Err InvalidData
  else
    let budget := sr_payload_budget s in
    if (saturating_add logical_bytes (N.of_nat COMPLETE_HEADER_LEN) <=? budget)%N then Ok 1%N
    else
      let chunk := (budget - N.of_nat FRAGMENT_HEADER_LEN)%N in
      let count := div_ceil logical_bytes chunk in
      if (fc_max_fragments_per_message (sr_framing s) <? count)%N || (sr_max_frames_per_tick s <? count)%N
      then Err InvalidData
      else Ok count.

Definition ensure_entry_fits (s : SignedReplica) (key : K) (entry : E) : result unit IoError :=
  let? _ := required_fragments s (update_len key entry) in Ok tt.

Definition sr_record_entry (s : SignedReplica) (key : K) (entry : E) : SignedReplica :=
  let g := sr_generations s in
  let g := if decide (is_Some (sr_acks s !! key)) then record_ack_key_clear g key else g in
  let g := record_entry g key entry in
  set_state s (<[key := entry]> (sr_entries s)) (sr_members s) (delete key (sr_acks s)) g.

Definition insert (s : SignedReplica) (key : K) (value : V) : SignedReplica * result unit IoError :=
  if sr_read_only s then (s, Err PermissionDenied)
  else
    let '(c, now) := clock_now (sr_clock s) in
    let s := set_clock s c in
    let entry := present now value in
    match ensure_entry_fits s key entry with
    | Err e => (s, Err e)
    | Ok _ => (sr_record_entry s key entry, Ok tt)
    end.

Definition remove (s : SignedReplica) (key : K) : SignedReplica * result unit IoError :=
  if sr_read_only s then (s, Err PermissionDenied)
  else
    let '(c, now) := clock_now (sr_clock s) in
    let s := set_clock s c in
    let entry := tombstone now in
    match ensure_entry_fits s key entry with
    | Err e => (s, Err e)
    | Ok _ => (sr_record_entry s key entry, Ok tt)
    end.

Definition apply_remote_entry (s : SignedReplica) (peer : PeerId) (key : K) (remote : E)
    : SignedReplica * option N :=
  if negb (bool_decide (peer ∈ sr_authorities s)) then (s, None)
  else
    let s := set_clock s (clock_observe (sr_clock s) (stamp remote)) in
    let merged := match sr_entries s !! key with Some local => merge local remote | None => remote end in
    let changed := match sr_entries s !! key with
                   | Some local => negb (bool_decide (digest local = digest merged))
                   | None => true
                   end in
    let s := if changed then sr_record_entry s key merged else s in
    (s, entry ← sr_entries s !! key;
        if is_tombstone entry then Some (version_hash entry) else None).

Definition accept_ack (s : SignedReplica) (peer : PeerId) (key : K) (version : N) : SignedReplica :=
  if negb (bool_decide (peer ∈ sr_members s)) then s
  else
    match sr_entries s !! key with
    | None => s
    | Some entry =>
        if negb (is_tombstone entry) || negb (version_hash entry =? version)%N then s
        else
          let row := default ∅ (sr_acks s !! key) in
          let acks := <[key := <[peer := version]> row]> (sr_acks s) in
          let g := if decide (row !! peer = Some version) then sr_generations s
                   else record_ack (sr_generations s) key peer (Some version) in
          set_state s (sr_entries s) (sr_members s) acks g
    end.

Definition acknowledged_version (s : SignedReplica) (key : K) (peer : PeerId) : option N :=
  sr_acks s !! key ≫= λ acks, acks !! peer.

Definition is_tombstone_stable (s : SignedReplica) (key : K) : bool :=
  match sr_entries s !! key with
  | None => false
  | Some entry =>
      if negb (is_tombstone entry) then false
      else
        let version := version_hash entry in
        forallb (λ id, bool_decide (acknowledged_version s key id = Some version)) (elements (sr_members s))
  end.

Definition collect_candidate (s : SignedReplica) (key : K) : SignedReplica * bool :=
  if sr_read_only s || negb (is_tombstone_stable s key) then (s, false)
  else
    let g := record_physical_delete (sr_generations s) key in
    let g := if decide (is_Some (sr_acks s !! key)) then record_ack_key_clear g key else g in
    (set_state s (delete key (sr_entries s)) (sr_members s) (delete key (sr_acks s)) g, true).

Definition collect_if_stable (s : SignedReplica) (key : K) : SignedReplica * bool :=
  if negb has_collection_proof then (s, false) else collect_candidate s key.

(** The loop of [decommission] over the acknowledgement rows. *)
Definition drop_acks (peer : PeerId) (rows : list (K * gmap PeerId N))
    (a : gmap K (gmap PeerId N)) (g : GenerationState K E PeerId)
    : gmap K (gmap PeerId N) * GenerationState K E PeerId :=
  fold_left (λ '(a, g) '(key, acks),
    (<[key := delete peer acks]> a,
     if decide (is_Some (acks !! peer)) then record_ack g key peer None else g)) rows (a, g).

Definition decommission (s : SignedReplica) (peer : PeerId) : SignedReplica * bool :=
  let removed := bool_decide (peer ∈ sr_members s) in
  let g := if removed then record_member (sr_generations s) peer false else sr_generations s in
  let '(acks, g) := drop_acks peer (map_to_list (sr_acks s)) (sr_acks s) g in
  ({| sr_routes := routes_decommission (sr_routes s) peer; sr_entries := sr_entries s;
      sr_members := sr_members s ∖ {[peer]}; sr_acks := acks; sr_generations := g;
      sr_persistence := sr_persistence s; sr_clock := sr_clock s;
      sr_authorities := sr_authorities s ∖ {[peer]}; sr_readers := sr_readers s ∖ {[peer]};
      sr_read_only := sr_read_only s; sr_framing := sr_framing s; sr_payload_budget := sr_payload_budget s;
      sr_cursors := delete peer (sr_cursors s); sr_max_frames_per_tick := sr_max_frames_per_tick s |}, removed).

(** The durable part of the runtime state. *)
Definition runtime (s : SignedReplica) : PersistedState K E PeerId :=
  {| st_entries := sr_entries s; st_members := sr_members s; st_acks := sr_acks s |}.

Definition set_saved (s : SignedReplica) (g : GenerationState K E PeerId) (b : B) : SignedReplica :=
  {| sr_routes := sr_routes s; sr_entries := sr_entries s; sr_members := sr_members s; sr_acks := sr_acks s;
     sr_generations := g; sr_persistence := b; sr_clock := sr_clock s;
     sr_authorities := sr_authorities s; sr_readers := sr_readers s; sr_read_only := sr_read_only s;
     sr_framing := sr_framing s; sr_payload_budget := sr_payload_budget s; sr_cursors := sr_cursors s;
     sr_max_frames_per_tick := sr_max_frames_per_tick s |}.

(** [None] is the failed [assert!] on [commit]. *)
Definition snapshot_now (s : SignedReplica) : option (SignedReplica * result unit IoError) :=
  let '(g, frozen) := freeze (sr_generations s) in
  let '(b, r) := try_save_delta (sr_persistence s) (persistence_delta <$> frozen) in
  match r with
  | Err _ => Some (set_saved s g b, Err Backend)
  | Ok handled =>
      let '(b, r) := if handled : bool then (b, Ok tt) else save b (runtime s) in
      match r with
      | Err _ => Some (set_saved s g b, Err Backend)
      | Ok _ =>
          match frozen with
          | None => Some (set_saved s g b, Ok tt)
          | Some f =>
              let '(g, committed) := commit g (g_id f) in
              if committed then Some (set_saved s g b, Ok tt) else None
          end
      end
  end.

(** The entry loop of [new]: the clock observes every saved stamp, a repeated key is an error. *)
Fixpoint restore_entries (c : C) (m : gmap K E) (entries : list (K * E)) : C * result (gmap K E) IoError :=
  match entries with
  | [] => (c, Ok m)
  | (key, entry) :: entries =>
      let c := clock_observe_trusted c (stamp entry) in
      if decide (is_Some (m !! key)) then (c, Err InvalidData)
      else restore_entries c (<[key := entry]> m) entries
  end.

Definition roster_mismatch (read_only : bool) (authorities members : gset PeerId)
    (acks : gmap K (gmap PeerId N)) : bool :=
  if read_only then negb (bool_decide (members = ∅)) || negb (bool_decide (acks = ∅))
  else negb (bool_decide (members = authorities)).

Definition foreign_blockers (authorities members : gset PeerId) (acks : gmap K (gmap PeerId N)) : bool :=
  negb (bool_decide (members ⊆ authorities)) ||
  existsb (λ '(_, row), existsb (λ '(peer, _), negb (bool_decide (peer ∈ authorities))) (map_to_list row))
    (map_to_list acks).

(** The causal part of [new], from the loaded entries, members and acknowledgements. *)
Definition restore (authorities : gset PeerId) (read_only : bool)
    (loaded : option (list (K * E) * gset PeerId * gmap K (gmap PeerId N))) (c : C)
    : C * result (PersistedState K E PeerId * GenerationState K E PeerId) IoError :=
  let '(entries, members, acks) := default ([], ∅, ∅) loaded in
  let had_snapshot := bool_decide (is_Some loaded) in
  if had_snapshot && roster_mismatch read_only authorities members acks then (c, Err InvalidData)
  else if foreign_blockers authorities members acks then (c, Err InvalidData)
  else
    let '(c, r) := restore_entries c ∅ entries in
    match r with
    | Err e => (c, Err e)
    | Ok entries =>
        let members := if read_only then ∅ else authorities in
        let g := GenerationState_default in
        let g := if had_snapshot then g
                 else fold_left (λ g id, record_member g id true) (elements members) g in
        (c, Ok ({| st_entries := entries; st_members := members; st_acks := acks |}, g))
    end.
End signed.
Arguments SignedReplica K E C A B {_ _} : assert.
