(* ===== verification/SignedCausalProps.v ===== *)
(** * What the signed replica's causal state guarantees

    Journal discipline and durability, exactness of the acknowledgement matrix, and convergence
    of replicas that receive the same updates. *)
From stdpp Require Import gmap list.
From Stdlib Require Import NArith.
From Stdlib.Strings Require Import Byte.
From S2P Require Import Prelude Bytes Framing Peer Routes RecoveryBook Journal Durability SignedCausal.

Section causal.
Context {K V S E C A B : Type} `{Countable K} `{Lww V S E C} `{!Persistence K E PeerId B}.
Context (update_len : K → E → N).
Implicit Types (s : SignedReplica K E C A B) (m : Mutation (K := K) (E := E) (P := PeerId)).

(** ** Journal discipline: every operation records exactly the mutations it makes *)

Definition recorded s s' : Prop := ∃ ms,
  runtime s' ≡ mutate_all ms (runtime s) ∧ sr_generations s' = journal_all ms (sr_generations s) ∧
  sr_persistence s' = sr_persistence s.

Lemma recorded_same s s' :
  runtime s' ≡ runtime s → sr_generations s' = sr_generations s → sr_persistence s' = sr_persistence s → recorded s s'.
Proof. intros. by exists []. Qed.

Lemma recorded_trans s1 s2 s3 : recorded s1 s2 → recorded s2 s3 → recorded s1 s3.
Proof.
  intros (ms & E1 & G1 & P1) (ns & E2 & G2 & P2). exists (ms ++ ns). unfold mutate_all, journal_all in *.
  rewrite !fold_left_app. split_and!; [|congruence|congruence]. rewrite E2. by apply mutate_all_proper.
Qed.

Lemma record_entry_recorded s k e : recorded s (sr_record_entry s k e).
Proof.
  exists ((if decide (is_Some (sr_acks s !! k)) then [MClear k] else []) ++ [MEntry k e]).
  unfold sr_record_entry, mutate_all, journal_all. rewrite !fold_left_app. split_and!; [| |done].
  - case_decide as Hk; [done|]. apply same_intro; cbn; [done|done|]. intros k' p. unfold ack.
    destruct (decide (k = k')) as [<-|]; [|by rewrite lookup_delete_ne].
    rewrite lookup_delete_eq. destruct (sr_acks s !! k); [by destruct Hk|done].
  - by case_decide.
Qed.

Lemma set_clock_recorded s c : recorded s (set_clock s c).
Proof. by apply recorded_same. Qed.

Lemma insert_recorded s k v : recorded s (insert update_len s k v).1.
Proof.
  unfold insert. destruct (sr_read_only s); [by apply recorded_same|]. destruct (clock_now (sr_clock s)) as [c now].
  destruct (ensure_entry_fits _ _ _ _); [|apply set_clock_recorded].
  eapply recorded_trans; [apply (set_clock_recorded s c)|apply record_entry_recorded].
Qed.

Lemma remove_recorded s k : recorded s (remove update_len s k).1.
Proof.
  unfold remove. destruct (sr_read_only s); [by apply recorded_same|]. destruct (clock_now (sr_clock s)) as [c now].
  destruct (ensure_entry_fits _ _ _ _); [|apply set_clock_recorded].
  eapply recorded_trans; [apply (set_clock_recorded s c)|apply record_entry_recorded].
Qed.

Lemma remote_recorded s p k e : recorded s (apply_remote_entry s p k e).1.
Proof.
  unfold apply_remote_entry. destruct (negb _); [by apply recorded_same|]. cbn [fst].
  eapply recorded_trans; [apply (set_clock_recorded s (clock_observe (sr_clock s) (stamp e)))|].
  case_match; [apply record_entry_recorded|by apply recorded_same].
Qed.

Lemma ack_recorded s p k v : recorded s (accept_ack s p k v).
Proof.
  unfold accept_ack. destruct (negb _); [by apply recorded_same|].
  destruct (sr_entries s !! k) as [e|]; [|by apply recorded_same]. case_test; [by apply recorded_same|].
  case_decide as Hv.
  - apply recorded_same; [|done|done]. apply same_intro; cbn; [done|done|]. intros k' p'. unfold ack.
    destruct (decide (k = k')) as [<-|]; [|by rewrite lookup_insert_ne]. rewrite lookup_insert_eq. cbn.
    rewrite insert_id by done. destruct (sr_acks s !! k); [done|]. cbn in Hv. by rewrite lookup_empty in Hv.
  - by exists [MAck k p (Some v)].
Qed.

Lemma collect_recorded s k : recorded s (collect_if_stable s k).1.
Proof. by apply recorded_same. Qed.

(** The candidate, were collection allowed, also records what it removes. *)
Lemma candidate_recorded s k : recorded s (collect_candidate s k).1.
Proof.
  unfold collect_candidate. case_test; [by apply recorded_same|].
  exists (MDelete k :: if decide (is_Some (sr_acks s !! k)) then [MClear k] else []).
  unfold mutate_all, journal_all. cbn [fold_left fst]. split_and!; [| |done].
  - case_decide as Hk; [done|]. apply same_intro; cbn; [done|done|]. intros k' p. unfold ack.
    destruct (decide (k = k')) as [<-|]; [|by rewrite lookup_delete_ne].
    rewrite lookup_delete_eq. destruct (sr_acks s !! k); [by destruct Hk|done].
  - by case_decide.
Qed.

Lemma drop_acks_recorded (p : PeerId) (rows : list (K * gmap PeerId N)) (a : gmap K (gmap PeerId N))
    (g : GenerationState K E PeerId) a' g' :
  NoDup rows.*1 → (∀ k row, (k, row) ∈ rows → a !! k = Some row) →
  drop_acks p rows a g = (a', g') →
  ∃ ms, g' = journal_all ms g ∧
    ∀ e mem, mutate_all ms {| st_entries := e; st_members := mem; st_acks := a |}
             = {| st_entries := e; st_members := mem; st_acks := a' |}.
Proof.
  revert a g. induction rows as [|[k row] rows IH]; intros a g Hnd Hin; unfold drop_acks; cbn [fold_left].
  { intros [= <- <-]. by exists []. }
  cbn in Hnd. apply NoDup_cons in Hnd as [Hk Hnd].
  assert (Hrow : a !! k = Some row) by (apply Hin; left).
  intros Hd. edestruct (IH (<[k := delete p row]> a)) as (ms & -> & Hms); [done| |exact Hd|].
  { intros k' row' Hin'. rewrite lookup_insert_ne; [apply Hin; by right|]. intros <-. apply Hk.
    apply list_elem_of_fmap. by exists (k, row'). }
  exists ((if decide (is_Some (row !! p)) then [MAck k p None] else []) ++ ms).
  unfold journal_all, mutate_all in *. split.
  - rewrite fold_left_app. by case_decide.
  - intros e mem. rewrite fold_left_app, <- Hms. case_decide as Hp; cbn [fold_left mutate st_entries st_members st_acks].
    + unfold set_ack. by rewrite Hrow.
    + rewrite delete_id, insert_id; [done|done|]. by apply eq_None_not_Some.
Qed.

Lemma decommission_recorded s p : recorded s (decommission s p).1.
Proof.
  unfold decommission.
  set (g := if bool_decide (p ∈ sr_members s) then record_member (sr_generations s) p false else sr_generations s).
  destruct (drop_acks p (map_to_list (sr_acks s)) (sr_acks s) g) as [a' g'] eqn:Hd.
  apply drop_acks_recorded in Hd as (ms & -> & Hms); [|apply NoDup_fst_map_to_list|by intros k row ?%elem_of_map_to_list].
  exists ((if bool_decide (p ∈ sr_members s) then [MMember p false] else []) ++ ms). cbn [fst].
  unfold mutate_all, journal_all in *. rewrite !fold_left_app. unfold g. split_and!; [| |done].
  - unfold runtime at 2. case_bool_decide as Hp; cbn [fold_left mutate st_entries st_members st_acks]; rewrite Hms; [done|].
    apply same_intro; cbn; [done| |done]. intros x. set_solver.
  - by case_bool_decide.
Qed.

(** ** Durability *)

Definition durable_inv s : Prop := durable (sr_generations s) (sr_persistence s) (runtime s).

Lemma recorded_inv s s' : recorded s s' → durable_inv s → durable_inv s'.
Proof. intros (ms & Er & Eg & Ep) Hd. unfold durable_inv. rewrite Ep. by eapply durable_recorded. Qed.

(** The outcome of a snapshot from [s]. *)
Definition snapshot_post s (out : option (SignedReplica K E C A B * result unit IoError)) : Prop :=
  ∃ s' res, out = Some (s', res) ∧ durable_inv s' ∧ runtime s' = runtime s ∧
    (res = Ok tt → frozen (sr_generations s') = None ∧
      ∃ d, load (sr_persistence s') = Ok (Some d) ∧ (frozen (sr_generations s) = None → d ≡ runtime s)).

(** Retiring the generation [fz] of tracker [g], which the backend [b] covers. *)
Lemma retire_spec s g b fz :
  durable g b (runtime s) → frozen g = fz → settled g b (runtime s) →
  (frozen (sr_generations s) = None → ∀ st, apply_delta (open_delta g) st ≡ st) →
  snapshot_post s (match fz with
    | None => Some (set_saved s g b, Ok tt)
    | Some f => let '(g, committed) := commit g (g_id f) in
                if committed then Some (set_saved s g b, Ok tt) else None
    end).
Proof.
  intros Hd Hfz Hs Hempty. pose proof Hs as (d & Hl & Hr).
  assert (Hall : frozen (sr_generations s) = None → d ≡ runtime s) by (intros Hn; by rewrite <- Hr, (Hempty Hn)).
  destruct fz as [f|].
  - destruct (commit_durable _ _ _ _ Hd Hfz Hs) as (Hc & Hd' & Hn & _). destruct (commit g (g_id f)) as [g' c].
    cbn [fst snd] in *. subst c. eexists _, _. split; [done|]. split; [exact Hd'|]. split; [done|].
    intros _. split; [exact Hn|]. by exists d.
  - eexists _, _. split; [done|]. split; [exact Hd|]. split; [done|]. intros _. split; [exact Hfz|]. by exists d.
Qed.

Lemma failed_spec s g b : durable g b (runtime s) → snapshot_post s (Some (set_saved s g b, Err Backend)).
Proof. intros Hd. eexists _, _. split; [done|]. split; [exact Hd|]. by split. Qed.

Lemma snapshot_spec s : durable_inv s → snapshot_post s (snapshot_now s).
Proof.
  intros Hi. unfold snapshot_now. destruct (freeze (sr_generations s)) as [g fz] eqn:Hf.
  destruct (freeze_durable _ _ _ _ _ Hi Hf) as (Hg & Hfz & Hempty). rewrite <- Hfz in *.
  destruct (try_save_delta _ _) as [b r] eqn:Htry. destruct (delta_durable _ _ _ _ _ Hg Htry) as [Hd Hs].
  destruct r as [[]|e]; [by apply retire_spec; auto| |by apply failed_spec].
  destruct (save b (runtime s)) as [b2 r2] eqn:Hsave. destruct (full_durable _ _ _ _ _ Hd Hsave) as [Hd2 Hs2].
  destruct r2 as [[]|e]; [|by apply failed_spec]. apply retire_spec; auto. by apply Hs2.
Qed.

(** ** Start and operation sequences *)

(** The persisted vector of a state, as [load] hands it to [new]. *)
Definition loaded_parts (d : PersistedState K E PeerId) : list (K * E) * gset PeerId * gmap K (gmap PeerId N) :=
  (map_to_list (st_entries d), st_members d, st_acks d).

Lemma restore_entries_spec c (m : gmap K E) l :
  NoDup l.*1 → (∀ k, k ∈ l.*1 → m !! k = None) →
  ∃ c', restore_entries c m l = (c', Ok (list_to_map l ∪ m)).
Proof.
  revert c m. induction l as [|[k e] l IH]; intros c m; cbn [restore_entries fmap list_fmap fst].
  { intros _ _. exists c. cbn. by rewrite (left_id_L ∅ (∪)). }
  intros [Hk Hnd]%NoDup_cons Hm. rewrite decide_False by (rewrite Hm; [by intros [? ?]|left]).
  edestruct (IH (clock_observe_trusted c (stamp e)) (<[k := e]> m)) as (c' & ->); [done| |].
  { intros k' Hk'. rewrite lookup_insert_ne by congruence. apply Hm. by right. }
  exists c'. do 2 f_equal. cbn. rewrite <- insert_union_l, <- insert_union_r; [done|].
  by apply not_elem_of_list_to_map.
Qed.

(** A replica just constructed over a backend. *)
Definition started s : Prop := ∃ authorities read_only o c c' g,
  load (sr_persistence s) = Ok o ∧
  restore authorities read_only (loaded_parts <$> o) c = (c', Ok (runtime s, g)) ∧ sr_generations s = g.

Lemma record_members_tracks (l : list PeerId) (g : GenerationState K E PeerId) rt :
  tracker_ok g → tracks g PersistedState_default rt →
  tracker_ok (fold_left (λ g id, record_member g id true) l g) ∧
  tracks (fold_left (λ g id, record_member g id true) l g) PersistedState_default
    {| st_entries := st_entries rt; st_members := list_to_set l ∪ st_members rt; st_acks := st_acks rt |}.
Proof.
  revert g rt. induction l as [|x l IH]; intros g rt Hg Ht; cbn [fold_left].
  - split; [done|]. eapply tracks_proper; [|exact Ht]. apply same_intro; cbn; [done| |done]. intros p. set_solver.
  - destruct (journal_ok (MMember x true) g Hg) as [Hg' _]. pose proof (journal_tracks (MMember x true) g _ _ Hg Ht) as Ht'.
    destruct (IH _ _ Hg' Ht') as [? Hl]. split; [done|]. eapply tracks_proper; [|exact Hl].
    apply same_intro; cbn; [done| |done]. intros p. set_solver.
Qed.

Lemma tracker_default : tracker_ok (GenerationState_default (K := K) (E := E) (P := PeerId)).
Proof. done. Qed.

Lemma started_inv s : backend_ok (sr_persistence s) → started s → durable_inv s.
Proof.
  intros Hb (auth & ro & o & c & c' & g & Hl & Hres & Hg). unfold restore in Hres.
  destruct o as [d|]; cbn [fmap option_fmap option_map default from_option Datatypes.id loaded_parts] in Hres.
  - rewrite (bool_decide_eq_true_2 (is_Some _)) in Hres by by eexists. cbn [andb] in Hres.
    destruct (roster_mismatch _ _ _ _) eqn:Hro; [done|]. destruct (foreign_blockers _ _ _); [done|].
    edestruct (restore_entries_spec c ∅ (map_to_list (st_entries d))) as (c1 & E1);
      [apply NoDup_fst_map_to_list|by intros; apply lookup_empty|]. rewrite E1 in Hres. apply (f_equal snd) in Hres.
    apply Ok_inj in Hres. pose proof (f_equal fst Hres) as Hrt. pose proof (f_equal snd Hres) as Hg'. cbn [fst snd] in Hrt, Hg'.
    rewrite list_to_map_to_list, (right_id_L ∅ (∪)) in Hrt.
    assert (Hd : tracks (sr_generations s) d (runtime s)).
    { rewrite Hg, <- Hg', <- Hrt. unfold tracks, open_delta. rewrite empty_delta by done. cbn [apply_opt frozen GenerationState_default].
      apply same_intro; cbn; [done| |done]. intros p. unfold roster_mismatch in Hro. destruct ro.
      - apply orb_false_iff in Hro as [Hm%negb_false_iff%bool_decide_eq_true_1 _]. by rewrite Hm.
      - apply negb_false_iff, bool_decide_eq_true_1 in Hro. by rewrite Hro. }
    constructor; [rewrite Hg, <- Hg'; apply tracker_default|by exists d|done|]. intros d'. rewrite Hl. by intros [= <-].
  - rewrite bool_decide_eq_false_2 in Hres by (by intros [? ?]). cbn [andb] in Hres.
    destruct (foreign_blockers _ _ _); [done|]. cbn [restore_entries] in Hres. apply (f_equal snd) in Hres.
    apply Ok_inj in Hres. pose proof (f_equal fst Hres) as Hrt. pose proof (f_equal snd Hres) as Hg'. cbn [fst snd] in Hrt, Hg'.
    destruct (record_members_tracks (elements (if ro then ∅ else auth)) GenerationState_default PersistedState_default)
      as [Ht1 Ht2]; [apply tracker_default|unfold tracks, open_delta; by rewrite empty_delta|]. rewrite Hg' in Ht1, Ht2.
    constructor; [by rewrite Hg| |done|].
    + exists PersistedState_default. rewrite Hg, <- Hrt. eapply tracks_proper; [|exact Ht2].
      apply same_intro; cbn; [done| |done]. intros p. set_solver.
    + intros d. by rewrite Hl.
Qed.

Inductive SOp :=
| SInsert (k : K) (v : V)
| SRemove (k : K)
| SRemote (peer : PeerId) (k : K) (e : E)
| SAck (peer : PeerId) (k : K) (version : N)
| SCollect (k : K)
| SDecommission (peer : PeerId)
| SSnapshot.

Definition sexec s (op : SOp) : option (SignedReplica K E C A B) :=
  match op with
  | SInsert k v => Some (insert update_len s k v).1
  | SRemove k => Some (remove update_len s k).1
  | SRemote p k e => Some (apply_remote_entry s p k e).1
  | SAck p k v => Some (accept_ack s p k v)
  | SCollect k => Some (collect_if_stable s k).1
  | SDecommission p => Some (decommission s p).1
  | SSnapshot => fst <$> snapshot_now s
  end.

Fixpoint sexec_all s (ops : list SOp) : option (SignedReplica K E C A B) :=
  match ops with [] => Some s | op :: ops => sexec s op ≫= λ s, sexec_all s ops end.

Lemma sexec_inv s op : durable_inv s → ∃ s', sexec s op = Some s' ∧ durable_inv s'.
Proof.
  intros Hs. destruct op; cbn [sexec];
    try (eexists; split; [done|]; eapply recorded_inv; [|done];
         eauto using insert_recorded, remove_recorded, remote_recorded, ack_recorded, collect_recorded, decommission_recorded).
  destruct (snapshot_spec s Hs) as (s' & res & -> & ? & _). by exists s'.
Qed.

Lemma sexec_all_inv s ops : durable_inv s → ∃ s', sexec_all s ops = Some s' ∧ durable_inv s'.
Proof.
  revert s; induction ops as [|op ops IH]; intros s Hs; cbn [sexec_all]; [by exists s|].
  destruct (sexec_inv s op Hs) as (s1 & -> & Hs1). cbn. by apply IH.
Qed.

(** ** Exact acknowledgements *)

(** Every recorded acknowledgement is a member's, for the tombstone now held. *)
Definition acks_exact (st : PersistedState K E PeerId) : Prop :=
  ∀ k p v, ack (st_acks st) k p = Some v →
    p ∈ st_members st ∧ ∃ e, st_entries st !! k = Some e ∧ is_tombstone e = true ∧ version_hash e = v.

(** What an operation may do to the causal state. *)
Definition safe_step s s' : Prop :=
  (acks_exact (runtime s) → acks_exact (runtime s')) ∧ dom (sr_entries s) ⊆ dom (sr_entries s').

Lemma safe_same s s' : runtime s' = runtime s → safe_step s s'.
Proof. intros Hr. unfold safe_step. rewrite Hr. split; [done|]. by injection Hr as ->. Qed.

Lemma record_entry_safe s k e : safe_step s (sr_record_entry s k e).
Proof.
  split; [|cbn; rewrite dom_insert_L; set_solver]. intros Hs k' p v. cbn. unfold ack.
  destruct (decide (k = k')) as [<-|]; [by rewrite lookup_delete_eq|]. rewrite lookup_delete_ne by done.
  intros Ha%Hs. cbn in Ha. by rewrite lookup_insert_ne.
Qed.

Lemma ack_safe s p k v : safe_step s (accept_ack s p k v).
Proof.
  unfold accept_ack. case_test; [by apply safe_same|]. destruct (sr_entries s !! k) as [e|] eqn:He; [|by apply safe_same].
  case_test; [by apply safe_same|]. bool_to_prop. split; [|done]. intros Hs k' p' v'. cbn. unfold ack.
  destruct (decide (k = k')) as [<-|]; [|rewrite lookup_insert_ne by done; apply Hs].
  rewrite lookup_insert_eq. cbn. destruct (decide (p = p')) as [<-|].
  - rewrite lookup_insert_eq. intros [= <-]. split; [done|]. exists e. by split_and!.
  - rewrite lookup_insert_ne by done. intros Hrow. apply Hs. unfold ack. cbn.
    destruct (sr_acks s !! k); [done|]. cbn in Hrow. by rewrite lookup_empty in Hrow.
Qed.

Lemma drop_acks_lookup (p : PeerId) (rows : list (K * gmap PeerId N)) (a : gmap K (gmap PeerId N))
    (g : GenerationState K E PeerId) (k : K) :
  NoDup rows.*1 →
  (drop_acks p rows a g).1 !! k
  = match (list_to_map rows : gmap K (gmap PeerId N)) !! k with Some row => Some (delete p row) | None => a !! k end.
Proof.
  revert a g. induction rows as [|[k0 row] rows IH]; intros a g; [done|]. intros [Hk Hnd]%NoDup_cons.
  change (drop_acks p ((k0, row) :: rows) a g) with (drop_acks p rows (<[k0 := delete p row]> a)
    (if decide (is_Some (row !! p)) then record_ack g k0 p None else g)).
  rewrite IH by done. cbn. destruct (decide (k0 = k)) as [<-|].
  - rewrite (not_elem_of_list_to_map_1 (M := gmap K) rows k0) by done. by rewrite !lookup_insert_eq.
  - by rewrite !lookup_insert_ne.
Qed.

Lemma decommission_safe s p : safe_step s (decommission s p).1.
Proof.
  unfold decommission. destruct (drop_acks p _ _ _) as [a' g'] eqn:Hd. split; [|done]. intros Hs k p' v Ha. cbn in *.
  assert (Hl : a' !! k = delete p <$> (sr_acks s !! k)).
  { replace a' with ((a', g').1) by done. rewrite <- Hd, drop_acks_lookup by apply NoDup_fst_map_to_list.
    rewrite list_to_map_to_list. by destruct (sr_acks s !! k). }
  unfold ack in Ha. rewrite Hl in Ha. destruct (sr_acks s !! k) as [row|] eqn:Hrow; [|done]. cbn in Ha.
  destruct (decide (p = p')) as [<-|Hne]; [by rewrite lookup_delete_eq in Ha|]. rewrite lookup_delete_ne in Ha by done.
  destruct (Hs k p' v) as [? ?]; [unfold ack; cbn; by rewrite Hrow|]. split; [|done]. cbn in *. set_solver.
Qed.

Lemma safe_trans s1 s2 s3 : safe_step s1 s2 → safe_step s2 s3 → safe_step s1 s3.
Proof. intros [? ?] [? ?]. split; [auto|set_solver]. Qed.

Lemma sexec_safe s op s' : sexec s op = Some s' → safe_step s s'.
Proof.
  destruct op as [k v|k|p k e|p k v|k|p|]; cbn [sexec]; try intros [= <-].
  - unfold insert. destruct (sr_read_only s); [by apply safe_same|]. destruct (clock_now _) as [c now].
    destruct (ensure_entry_fits _ _ _ _); [|by apply safe_same].
    eapply (safe_trans _ (set_clock s c)); [by apply safe_same|apply record_entry_safe].
  - unfold remove. destruct (sr_read_only s); [by apply safe_same|]. destruct (clock_now _) as [c now].
    destruct (ensure_entry_fits _ _ _ _); [|by apply safe_same].
    eapply (safe_trans _ (set_clock s c)); [by apply safe_same|apply record_entry_safe].
  - unfold apply_remote_entry. destruct (negb _); [by apply safe_same|]. cbn [fst].
    eapply (safe_trans _ (set_clock s _)); [by apply safe_same|]. case_match; [apply record_entry_safe|by apply safe_same].
  - apply ack_safe.
  - by apply safe_same.
  - apply decommission_safe.
  - unfold snapshot_now. intros Hsn. apply safe_same. destruct (freeze _) as [g fz].
    destruct (try_save_delta _ _) as [b [[]|]]; [| |by injection Hsn as <-].
    + destruct fz; [|by injection Hsn as <-]. destruct (commit _ _) as [g' []]; [by injection Hsn as <-|done].
    + destruct (save b _) as [b' [|]]; [|by injection Hsn as <-].
      destruct fz; [|by injection Hsn as <-]. destruct (commit _ _) as [g' []]; [by injection Hsn as <-|done].
Qed.

Lemma sexec_all_safe s ops s' : sexec_all s ops = Some s' → safe_step s s'.
Proof.
  revert s; induction ops as [|op ops IH]; intros s; cbn [sexec_all]; [intros [= <-]; by apply safe_same|].
  intros (s1 & H1 & H2)%bind_Some. eapply safe_trans; [by eapply sexec_safe|by apply IH].
Qed.

(** ** Convergence *)

Fixpoint receive_updates s (l : list (PeerId * K * E)) : SignedReplica K E C A B :=
  match l with [] => s | (p, k, e) :: l => receive_updates (apply_remote_entry s p k e).1 l end.

(** The entries of [k] that a replica starting as [s] has seen once it has received [l]: its own
    and those an authority sent. *)
Definition learned s (l : list (PeerId * K * E)) (k : K) (e : E) : Prop :=
  sr_entries s !! k = Some e ∨ ∃ p, p ∈ sr_authorities s ∧ (p, k, e) ∈ l.

Section newest.
Context `{!RustOrd S} (merge_lww : ∀ x y : E, merge x y = if ord_ltb (stamp x) (stamp y) then y else x).

(** [e] is among [P] and no entry of [P] is newer. *)
Definition newest (P : E → Prop) (e : E) : Prop := P e ∧ ∀ e', P e' → ord_leb (stamp e') (stamp e) = true.

Lemma remote_entry_at s p k e k' : p ∈ sr_authorities s → (∀ x, sr_entries s !! k = Some x → digest x = digest e → x = e) →
  sr_entries (apply_remote_entry s p k e).1 !! k' =
    (if decide (k = k') then Some (match sr_entries s !! k with Some x => merge x e | None => e end) else sr_entries s !! k') ∧
  sr_authorities (apply_remote_entry s p k e).1 = sr_authorities s.
Proof.
  intros Hp Hinj. unfold apply_remote_entry. rewrite bool_decide_eq_true_2 by done. cbn [negb fst snd set_clock sr_entries].
  assert (Hput : ∀ s1 e1, sr_entries (sr_record_entry s1 k e1) !! k' = if decide (k = k') then Some e1 else sr_entries s1 !! k').
  { intros s1 e1. cbn. case_decide as Hk; [subst; by rewrite lookup_insert_eq|by rewrite lookup_insert_ne]. }
  destruct (sr_entries s !! k) as [x|] eqn:Hk; [|split; [by rewrite Hput|reflexivity]]. case_bool_decide as Hd; cbn [negb]; [|split; [by rewrite Hput|reflexivity]].
  split; [|done]. cbn. case_decide as Hkk; [subst k'|done]. rewrite Hk. f_equal. rewrite merge_lww in *. destruct (ord_ltb _ _); [by apply Hinj|done].
Qed.

(** One update replaces what was seen by its newest entry. *)
Lemma remote_entry_learned s p k e l k' : (∀ x, sr_entries s !! k = Some x → digest x = digest e → x = e) →
  (∀ e', learned (apply_remote_entry s p k e).1 l k' e' → learned s ((p, k, e) :: l) k' e') ∧
  ∀ e', learned s ((p, k, e) :: l) k' e' → ∃ e2, learned (apply_remote_entry s p k e).1 l k' e2 ∧ ord_leb (stamp e') (stamp e2) = true.
Proof.
  intros Hinj. unfold learned. destruct (decide (p ∈ sr_authorities s)) as [Hp|Hp].
  2: { unfold apply_remote_entry. rewrite bool_decide_eq_false_2 by done. cbn [negb fst]. split; intros e' He'.
       - destruct He' as [?|(q & ? & ?)]; [by left|right]. exists q. split; [done|by right].
       - exists e'. split; [|apply ord_leb_refl]. destruct He' as [?|(q & Hq & [[= -> -> ->]|?]%elem_of_cons)]; [by left|done|eauto]. }
  destruct (remote_entry_at s p k e k' Hp Hinj) as [-> ->]. split; intros e' He'.
  - case_decide as Hk; [subst k'|]; destruct He' as [He'|(q & ? & ?)]; try (right; exists q; split; [done|by right]); [|by left].
    injection He' as <-. destruct (sr_entries s !! k) as [x|]; [rewrite merge_lww; destruct (ord_ltb _ _)|];
      [|by left|]; right; exists p; (split; [done|left]).
  - assert (Hrest : (∃ q, q ∈ sr_authorities s ∧ (q, k', e') ∈ l) ∨ sr_entries s !! k' = Some e' ∨ (k' = k ∧ e' = e)).
    { destruct He' as [?|(q & ? & [[= -> -> ->]|?]%elem_of_cons)]; eauto. }
    destruct Hrest as [?|Hrest]; [exists e'; split; [by right|apply ord_leb_refl]|].
    case_decide as Hk; [subst k'|exists e'; destruct Hrest as [?|[-> _]]; [split; [by left|apply ord_leb_refl]|done]].
    eexists. split; [by left|]. destruct (sr_entries s !! k) as [x|].
    + rewrite merge_lww. destruct (ord_ltb (stamp x) (stamp e)) eqn:Hlt; destruct Hrest as [[= <-]|[_ ->]];
        first [apply ord_leb_refl|by apply ord_ltb_leb|by apply ord_ltb_false].
    + destruct Hrest as [?|[_ ->]]; [done|apply ord_leb_refl].
Qed.

Lemma received_newest s l k : (∀ k e e', learned s l k e → learned s l k e' → digest e = digest e' → e = e') →
  match sr_entries (receive_updates s l) !! k with Some e => newest (learned s l k) e | None => ∀ e, ¬ learned s l k e end.
Proof.
  revert s. induction l as [|[[p k1] e1] l IH]; intros s Hinj; cbn [receive_updates].
  { destruct (sr_entries s !! k) as [e|] eqn:Hk.
    - split; [by left|]. intros e' [He'|(? & _ & ?%not_elem_of_nil)]; [|done]. rewrite Hk in He'. injection He' as <-. apply ord_leb_refl.
    - intros e [He|(? & _ & ?%not_elem_of_nil)]; [congruence|done]. }
  destruct (decide (p ∈ sr_authorities s)) as [Hp|Hp].
  2: { assert (Hs : (apply_remote_entry s p k1 e1).1 = s) by (unfold apply_remote_entry; by rewrite bool_decide_eq_false_2).
       assert (Heq : ∀ k e, learned s ((p, k1, e1) :: l) k e ↔ learned s l k e).
       { intros k' e. unfold learned. split; (intros [?|(q & Hq & Hin)]; [by left|right; exists q; split; [done|]]); [|by right].
         apply elem_of_cons in Hin as [[= -> -> ->]|?]; [done|done]. }
       rewrite Hs. specialize (IH s). destruct (sr_entries (receive_updates s l) !! k) as [e|].
       - destruct IH as [He Hmax]; [intros k' e0 e0' ?%Heq ?%Heq; by eapply Hinj|]. split; [by apply Heq|]. intros e' ?%Heq. auto.
       - intros e ?%Heq. eapply IH; [|done]. intros k' e0 e0' ?%Heq ?%Heq. by eapply Hinj. }
  assert (H1' : ∀ x, sr_entries s !! k1 = Some x → digest x = digest e1 → x = e1).
  { intros x Hx. apply (Hinj k1); [by left|right; exists p; split; [done|left]]. }
  destruct (remote_entry_learned s p k1 e1 l k H1') as [Hsub Hcov]. specialize (IH (apply_remote_entry s p k1 e1).1).
  assert (Hinj1 : ∀ k e e', learned (apply_remote_entry s p k1 e1).1 l k e → learned (apply_remote_entry s p k1 e1).1 l k e' → digest e = digest e' → e = e').
  { intros k' e e' He He'. eapply Hinj; by eapply (remote_entry_learned s p k1 e1 l k' H1'). }
  destruct (sr_entries (receive_updates _ l) !! k) as [e|].
  - destruct (IH Hinj1) as [He Hmax]. split; [auto|]. intros e' (e2 & He2 & Hle)%Hcov. by eapply ord_leb_trans, Hmax.
  - intros e (e2 & He2 & _)%Hcov. by eapply IH.
Qed.
End newest.
End causal.

(** ** Properties *)

(** A small instance for the witnesses: an entry is twice its stamp, plus one for a tombstone. *)
#[local] Instance toy_lww : Lww N N N N := {|
  present s v := (2 * s)%N; tombstone s := (2 * s + 1)%N; stamp e := (e / 2)%N; is_tombstone := N.odd;
  merge x y := if (x / 2 <? y / 2)%N then y else x; digest e := [e]; clock_now c := (c + 1, c + 1)%N; clock_observe c s := N.max c s;
  clock_observe_trusted c s := N.max c s |}.

Definition demo_peer : PeerId := [x07].
Definition demo_signed : SignedReplica N N N N (option (PersistedState N N PeerId)) := {|
  sr_routes := routes_new 4 10; sr_entries := ∅; sr_members := {[demo_peer]}; sr_acks := ∅;
  sr_generations := record_member GenerationState_default demo_peer true; sr_persistence := None;
  sr_clock := 0%N; sr_authorities := {[demo_peer]}; sr_readers := ∅; sr_read_only := false;
  sr_framing := FramingConfig_default; sr_payload_budget := 1000; sr_cursors := ∅; sr_max_frames_per_tick := 8 |}.
Definition demo_ops : list (SOp (K := N) (V := N) (E := N)) :=
  [SInsert 1%N 5%N; SRemove 1%N; SAck demo_peer 1%N 5; SRemote demo_peer 2%N 9%N; SSnapshot; SDecommission demo_peer].

Lemma demo_signed_started : started demo_signed.
Proof. exists {[demo_peer]}, false, None, 0%N, 0%N, (record_member GenerationState_default demo_peer true). by split_and!. Qed.

(** C19. From construction on, through any operations and any snapshot failures, no
    operation panics, and whatever the backend would load, replaying the frozen and then the open
    generation onto it gives exactly the runtime state: nothing recorded is ever lost. *)
Theorem journal_never_loses_updates {K V S E C A B : Type} `{Countable K} `{Lww V S E C} `{!Persistence K E PeerId B}
    update_len (s : SignedReplica K E C A B) (ops : list (SOp (K := K) (V := V) (E := E))) :
  backend_ok (sr_persistence s) → started s →
  ∃ s', sexec_all update_len s ops = Some s' ∧
    ∀ d, load (sr_persistence s') = Ok (Some d) →
      apply_delta (open_delta (sr_generations s')) (apply_opt (frozen (sr_generations s')) d) ≡ runtime s'.
Proof.
  intros Hb Hs. destruct (sexec_all_inv update_len s ops (started_inv s Hb Hs)) as (s' & E1 & [_ _ _ Hr]).
  exists s'. by split.
Qed.

(** A snapshot after any history answers without panicking; when it answers [Ok] no
    generation is left frozen, the backend holds a state, and that state is the runtime state
    unless an earlier failed snapshot had left a generation to retry. *)
Theorem snapshot_ok_is_durable {K V S E C A B : Type} `{Countable K} `{Lww V S E C} `{!Persistence K E PeerId B}
    update_len (s s1 : SignedReplica K E C A B) (ops : list (SOp (K := K) (V := V) (E := E))) :
  backend_ok (sr_persistence s) → started s → sexec_all update_len s ops = Some s1 →
  ∃ s' res, snapshot_now s1 = Some (s', res) ∧ runtime s' = runtime s1 ∧
    (res = Ok tt → frozen (sr_generations s') = None ∧
      ∃ d, load (sr_persistence s') = Ok (Some d) ∧ (frozen (sr_generations s1) = None → d ≡ runtime s1)).
Proof.
  intros Hb Hs Hops. destruct (sexec_all_inv update_len s ops (started_inv s Hb Hs)) as (s1' & E1 & Hi).
  rewrite Hops in E1. injection E1 as <-. destruct (snapshot_spec s1 Hi) as (s' & res & ? & _ & ? & ?). by exists s', res.
Qed.

(** Acknowledgements stay exact: after any operations every recorded acknowledgement is
    from a current member for the very tombstone version held, and no key ever disappears, since
    collection stays disabled. *)
Theorem acknowledgements_exact {K V S E C A B : Type} `{Countable K} `{Lww V S E C} `{!Persistence K E PeerId B}
    update_len (s s' : SignedReplica K E C A B) (ops : list (SOp (K := K) (V := V) (E := E))) :
  acks_exact (runtime s) → sexec_all update_len s ops = Some s' →
  acks_exact (runtime s') ∧ dom (sr_entries s) ⊆ dom (sr_entries s').
Proof. intros Ha Hops. destruct (sexec_all_safe update_len s ops s' Hops). auto. Qed.


Lemma journal_never_loses_updates_witness :
  ∃ s', sexec_all (λ _ _, 10%N) demo_signed demo_ops = Some s' ∧
    ∀ d, load (sr_persistence s') = Ok (Some d) →
      apply_delta (open_delta (sr_generations s')) (apply_opt (frozen (sr_generations s')) d) ≡ runtime s'.
Proof.
  apply (journal_never_loses_updates (λ _ _, 10%N) demo_signed demo_ops); [exact I|apply demo_signed_started].
Defined.

Definition demo_after : SignedReplica N N N N (option (PersistedState N N PeerId)) :=
  default demo_signed (sexec_all (λ _ _, 10%N) demo_signed demo_ops).

Lemma demo_after_eq : sexec_all (λ _ _, 10%N) demo_signed demo_ops = Some demo_after.
Proof.
  unfold demo_after. pose proof (started_inv demo_signed I demo_signed_started) as Hi.
  by destruct (sexec_all_inv (λ _ _, 10%N) demo_signed demo_ops Hi) as (s' & -> & _).
Qed.

Lemma snapshot_ok_is_durable_witness :
  ∃ s' res, snapshot_now demo_after = Some (s', res) ∧ runtime s' = runtime demo_after ∧
    (res = Ok tt → frozen (sr_generations s') = None ∧
      ∃ d, load (sr_persistence s') = Ok (Some d) ∧ (frozen (sr_generations demo_after) = None → d ≡ runtime demo_after)).
Proof.
  apply (snapshot_ok_is_durable (λ _ _, 10%N) demo_signed demo_after demo_ops);
    [exact I|apply demo_signed_started|apply demo_after_eq].
Defined.

Lemma acknowledgements_exact_witness :
  acks_exact (runtime demo_after) ∧ dom (sr_entries demo_signed) ⊆ dom (sr_entries demo_after).
Proof.
  apply (acknowledgements_exact (λ _ _, 10%N) demo_signed demo_after demo_ops).
  - intros k p v Ha. discriminate.
  - apply demo_after_eq.
Defined.

(** One starts with a write and receives another, the other way round for its peer. *)
Definition demo_holding (e : N) : SignedReplica N N N N (option (PersistedState N N PeerId)) :=
  (apply_remote_entry demo_signed demo_peer 1%N e).1.

