(* ===== verification/SnapshotStore.v ===== *)
(** * The incremental file store ([src/snapshot.rs], [src/snapshot/incremental.rs],
      [src/snapshot/incremental/storage.rs])

    A base segment and ordered delta segments referenced by one atomically published manifest.
    The file system is a map from the store's file names to bytes. A save is the list of its
    file-system effects, so that a crash or an I/O error at any point is the execution of a
    prefix, a write possibly torn. Bodies are encoded by external serializers (arguments, with
    their round trip) and checksummed. Reads other than of a missing file succeed. *)
From stdpp Require Import gmap list.
From Stdlib Require Import NArith.
From Stdlib.Strings Require Import Byte.
From S2P Require Import Prelude Bytes Journal.

(** ** Files *)

(** The paths of one backend: [segment_file_name] is injective in kind and generation, and the
    flag is the [.tmp] suffix of [write_atomic]. *)
Inductive Path := PManifest | PBase (generation : N) | PDelta (generation : N) | PLegacy.
#[export] Instance Path_eq_dec : EqDecision Path.
Proof. solve_decision. Defined.
Definition path_code (p : Path) : N + N :=
  match p with PManifest => inl 0 | PLegacy => inl 1 | PBase g => inr (2 * g) | PDelta g => inr (2 * g + 1) end%N.
Definition path_of (c : N + N) : option Path :=
  match c with
  | inl n => Some (if (n =? 0)%N then PManifest else PLegacy)
  | inr n => Some (if N.even n then PBase (N.div2 n) else PDelta (N.div2 n))
  end.
Lemma path_of_code p : path_of (path_code p) = Some p.
Proof.
  destruct p as [|g|g|]; cbn [path_code path_of]; [done| | |done].
  - rewrite N.even_mul, N.div2_div, N.mul_comm, N.div_mul by done. done.
  - rewrite N.even_add, N.even_mul, N.div2_div, N.add_comm, N.mul_comm, N.div_add by done. done.
Qed.
#[export] Instance Path_countable : Countable Path := inj_countable path_code path_of path_of_code.

Notation FileName := (Path * bool)%type.
Definition FileName_countable : Countable FileName := _.
Notation Fs := (@gmap (Path * bool) prod_eq_dec FileName_countable (list byte)).

Inductive Effect :=
| CreateDir
| Put (f : FileName) (bytes : list byte)
| Rename (from to : FileName)
| Unlink (f : FileName)
| SyncDir.

Definition run1 (e : Effect) (fs : Fs) : Fs :=
  match e with
  | CreateDir | SyncDir => fs
  | Put f bytes => <[f := bytes]> fs
  | Rename from to => match fs !! from with Some bytes => <[to := bytes]> (delete from fs) | None => fs end
  | Unlink f => delete f fs
  end.
Definition run (es : list Effect) (fs : Fs) : Fs := fold_left (λ fs e, run1 e fs) es fs.

(** Stop before effect [k], after writing at most [n] bytes of it if it is a write. *)
Definition run_until (k n : nat) (es : list Effect) (fs : Fs) : Fs :=
  let fs := run (take k es) fs in
  match es !! k with Some (Put f bytes) => run1 (Put f (take n bytes)) fs | _ => fs end.

(** What the environment does to one save: fail at an effect, and refuse some removals. *)
Record Env := { env_fault : option (nat * nat); env_denied : gset FileName }.

Definition execute (env : Env) (es : list Effect) (fs : Fs) : Fs * result unit unit :=
  match env_fault env with
  | Some (k, n) => if k <? length es then (run_until k n es fs, Err tt) else (run es fs, Ok tt)
  | None => (run es fs, Ok tt)
  end.

Definition write_atomic (path : Path) (bytes : list byte) : list Effect :=
  [CreateDir; Put (path, true) []; Put (path, true) bytes; Rename (path, true) (path, false); SyncDir].

(** ** Formats *)

Definition FORMAT_VERSION : N := 1.
Definition PEER_ID_FORMAT_VERSION : N := 2.
Definition HEADER_LEN : nat := 8.
Definition OBJECT_CHECKSUM_LEN : nat := 32.
Definition BASE_MAGIC : list byte := [x52; x43; x4e; x42].
Definition DELTA_MAGIC : list byte := [x52; x43; x4e; x44].
Definition MANIFEST_MAGIC : list byte := [x52; x43; x4e; x4d].
Definition SNAPSHOT_MAGIC : list byte := [x52; x43; x4e; x4c].
Definition MAX_COMMITTED_DELTAS : N := 512.

Record Manifest := {
  base_generation : N;
  base_bytes : N;
  current_generation : N;
  delta_bytes : N;
}.

Definition delta_count (m : Manifest) : N := saturating_sub (current_generation m) (base_generation m).

Definition should_materialize (m : Manifest) (candidate_delta_bytes : N) : bool :=
  (MAX_COMMITTED_DELTAS <=? delta_count m)%N
  || (base_bytes m <=? saturating_add (delta_bytes m) candidate_delta_bytes)%N.

Definition validate_manifest (m : Manifest) : result unit unit :=
  if (base_generation m =? 0)%N || (current_generation m <? base_generation m)%N then Err tt
  else if (base_bytes m =? 0)%N then Err tt
  else if (base_generation m =? current_generation m)%N && negb (delta_bytes m =? 0)%N then Err tt
  else if (base_generation m <? current_generation m)%N && (delta_bytes m =? 0)%N then Err tt
  else Ok tt.

Section store.
Context {K E P : Type} `{Countable K, Countable P}.
Context (blake3_hash : list byte → list byte).
Context (ser_manifest : Manifest → list byte) (de_manifest : list byte → option Manifest).
Context (ser_base : N * PersistedState K E P → list byte) (de_base : list byte → option (N * PersistedState K E P)).
Context (ser_delta : N * N * PersistenceDelta K E P → list byte)
        (de_delta : list byte → option (N * N * PersistenceDelta K E P)).
Context (de_state : list byte → option (PersistedState K E P)).
Context (format_version : N).
Implicit Types (fs : Fs) (p q : Path) (f : FileName).

Definition encode_version (magic : list byte) (body : list byte) : list byte :=
  magic ++ to_le 4 format_version ++ body ++ blake3_hash body.

Definition decode_version {T} (de : list byte → option T) (magic : list byte) (bytes : list byte) : result T unit :=
  if length bytes <? HEADER_LEN + OBJECT_CHECKSUM_LEN then Err tt
  else if negb (bool_decide (slice 0 4 bytes = magic)) then Err tt
  else if negb (from_le (slice 4 8 bytes) =? format_version)%N then Err tt
  else
    let checksum_offset := length bytes - OBJECT_CHECKSUM_LEN in
    let body := slice HEADER_LEN checksum_offset bytes in
    if negb (bool_decide (blake3_hash body = drop checksum_offset bytes)) then Err tt
    else ok_or (de body) tt.

(** [decode_snapshot_for]: the single-file format has no checksum. *)
Definition decode_snapshot (bytes : list byte) : result (PersistedState K E P) unit :=
  if length bytes <? 8 then Err tt
  else if negb (bool_decide (slice 0 4 bytes = SNAPSHOT_MAGIC)) then Err tt
  else if negb (from_le (slice 4 8 bytes) =? format_version)%N then Err tt
  else ok_or (de_state (drop 8 bytes)) tt.

Definition read (fs : Fs) (p : Path) : option (list byte) := fs !! (p, false).

Definition read_manifest (fs : Fs) : result (option Manifest) unit :=
  match read fs PManifest with
  | None => Ok None
  | Some bytes =>
      let? manifest := decode_version de_manifest MANIFEST_MAGIC bytes in
      let? _ := validate_manifest manifest in
      Ok (Some manifest)
  end.

Definition read_segment_bytes (fs : Fs) (p : Path) (expected_bytes : option N) : result (list byte) unit :=
  let? bytes := ok_or (read fs p) tt in
  match expected_bytes with
  | Some expected => if negb (len bytes =? expected)%N then Err tt else Ok bytes
  | None => Ok bytes
  end.

(** The delta loop of [load_for], [n] generations after [generation], from the state and the
    bytes observed so far. *)
Fixpoint load_deltas (fs : Fs) (n : nat) (generation : N) (st : PersistedState K E P) (observed : N)
    : result (PersistedState K E P * N) unit :=
  match n with
  | O => Ok (st, observed)
  | S n =>
      let generation := (generation + 1)%N in
      let? bytes := read_segment_bytes fs (PDelta generation) None in
      let observed := saturating_add observed (len bytes) in
      let? (from, to, delta) := decode_version de_delta DELTA_MAGIC bytes in
      if negb (from =? saturating_sub generation 1)%N || negb (to =? generation)%N then Err tt
      else load_deltas fs n generation (apply_delta delta st) observed
  end.

Definition load_incremental (fs : Fs) : result (option (PersistedState K E P)) unit :=
  let? manifest := read_manifest fs in
  match manifest with
  | None => Ok None
  | Some manifest =>
      let? bytes := read_segment_bytes fs (PBase (base_generation manifest)) (Some (base_bytes manifest)) in
      let? (generation, st) := decode_version de_base BASE_MAGIC bytes in
      if negb (generation =? base_generation manifest)%N then Err tt
      else if (current_generation manifest =? base_generation manifest)%N then Ok (Some st)
      else
        let? (st, observed) := load_deltas fs (N.to_nat (current_generation manifest - base_generation manifest))
                                  (base_generation manifest) st 0 in
        if negb (observed =? delta_bytes manifest)%N then Err tt else Ok (Some st)
  end.

(** [FileSnapshot::load] *)
Definition load_file (fs : Fs) : result (option (PersistedState K E P)) unit :=
  let? st := load_incremental fs in
  match st with
  | Some st => Ok (Some st)
  | None => match read fs PLegacy with
            | None => Ok None
            | Some bytes => let? st := decode_snapshot bytes in Ok (Some st)
            end
  end.

(** ** Saving *)

(** [cleanup_after_full_materialization]: every other segment and the single file; refused
    removals are ignored. *)
Definition cleanup (denied : gset FileName) (fs : Fs) (keep_base_generation : N) : list Effect :=
  let stale f := match f.1 with
                 | PBase g => negb (bool_decide (f = (PBase keep_base_generation, false)))
                 | PDelta _ => true
                 | _ => false
                 end in
  let victims := filter (λ f, stale f = true) (map_to_list fs).*1 ++ [(PLegacy, false)] in
  (Unlink <$> filter (λ f, f ∉ denied) victims) ++ [SyncDir].

(** [publish_manifest_version]; [None] when validation fails. *)
Definition publish_manifest (m : Manifest) : option (list Effect) :=
  match validate_manifest m with
  | Ok _ => Some (write_atomic PManifest (encode_version MANIFEST_MAGIC (ser_manifest m)))
  | Err _ => None
  end.

Definition save_full (env : Env) (fs : Fs) (st : PersistedState K E P) : Fs * result unit unit :=
  match read_manifest fs with
  | Err _ => (fs, Err tt)
  | Ok previous =>
      if negb (format_version =? FORMAT_VERSION)%N && bool_decide (previous = None)
         && bool_decide (is_Some (read fs PLegacy))
      then (fs, Err tt)
      else
        let generation := match previous with
                          | Some m => saturating_add (current_generation m) 1
                          | None => 1%N
                          end in
        let base := encode_version BASE_MAGIC (ser_base (generation, st)) in
        let manifest := {| base_generation := generation; base_bytes := len base;
                           current_generation := generation; delta_bytes := 0 |} in
        let write := CreateDir :: write_atomic (PBase generation) base in
        match publish_manifest manifest with
        | None => (fst (execute env write fs), Err tt)
        | Some publish =>
            let write := write ++ publish in
            execute env (write ++ cleanup (env_denied env) (run write fs) generation) fs
        end
  end.

Definition try_save (env : Env) (fs : Fs) (delta : option (PersistenceDelta K E P)) : Fs * result bool unit :=
  match read_manifest fs with
  | Err _ => (fs, Err tt)
  | Ok None =>
      if negb (format_version =? FORMAT_VERSION)%N && bool_decide (is_Some (read fs PLegacy))
      then (fs, Err tt) else (fs, Ok false)
  | Ok (Some manifest) =>
      match delta with
      | None => (fs, Ok true)
      | Some delta =>
          let from_generation := current_generation manifest in
          let to_generation := saturating_add from_generation 1 in
          let encoded := encode_version DELTA_MAGIC (ser_delta (from_generation, to_generation, delta)) in
          if should_materialize manifest (len encoded) then (fs, Ok false)
          else
            let write := write_atomic (PDelta to_generation) encoded in
            let manifest := {| base_generation := base_generation manifest; base_bytes := base_bytes manifest;
                               current_generation := to_generation;
                               delta_bytes := saturating_add (delta_bytes manifest) (len encoded) |} in
            match publish_manifest manifest with
            | None => (fst (execute env write fs), Err tt)
            | Some publish =>
                let '(fs, r) := execute env (write ++ publish) fs in
                (fs, match r with Ok _ => Ok true | Err _ => Err tt end)
            end
      end
  end.

(** The store as a backend: the files, and what the environment will do to the coming saves. *)
Record FileBackend := { fb_files : Fs; fb_envs : list Env }.

Definition file_save (b : FileBackend) (st : PersistedState K E P) : FileBackend * result unit unit :=
  match fb_envs b with
  | [] => (b, Err tt)
  | env :: envs => let '(fs, r) := save_full env (fb_files b) st in ({| fb_files := fs; fb_envs := envs |}, r)
  end.

Definition file_try_save (b : FileBackend) (d : option (PersistenceDelta K E P)) : FileBackend * result bool unit :=
  match fb_envs b with
  | [] => (b, Err tt)
  | env :: envs => let '(fs, r) := try_save env (fb_files b) d in ({| fb_files := fs; fb_envs := envs |}, r)
  end.

(** ** Formats round trip *)

Context (hash_len : ∀ m, length (blake3_hash m) = 32).
Context (manifest_rt : ∀ m, de_manifest (ser_manifest m) = Some m) (base_rt : ∀ b, de_base (ser_base b) = Some b)
        (delta_rt : ∀ d, de_delta (ser_delta d) = Some d).
Context (version_u32 : (format_version ≤ u32_max)%N).

Lemma length_encode magic body : length magic = 4 → length (encode_version magic body) = 40 + length body.
Proof. intros Hm. unfold encode_version. rewrite !length_app, length_to_le, hash_len, Hm. lia. Qed.

Lemma decode_encode {T} (de : list byte → option T) magic body : length magic = 4 →
  decode_version de magic (encode_version magic body) = ok_or (de body) tt.
Proof.
  intros Hm. unfold decode_version. rewrite length_encode by done. unfold HEADER_LEN, OBJECT_CHECKSUM_LEN.
  rewrite (proj2 (Nat.ltb_ge _ _)) by lia. unfold encode_version.
  rewrite slice_app_l, slice_all, bool_decide_eq_true_2 by (done || lia). cbn [negb].
  rewrite (slice_app_r 4 8) by lia. rewrite Hm. change (4 - 4) with 0. change (8 - 4) with 4.
  rewrite slice_app_l, slice_all by (rewrite ?length_to_le; lia). rewrite from_to_le_u32 by done.
  rewrite N.eqb_refl. cbn [negb]. replace (40 + length body - 32) with (8 + length body) by lia.
  assert (E1 : slice 8 (8 + length body) (magic ++ to_le 4 format_version ++ body ++ blake3_hash body) = body).
  { rewrite slice_app_r by lia. rewrite Hm. rewrite slice_app_r by (rewrite length_to_le; lia). rewrite length_to_le.
    replace (8 - 4 - 4) with 0 by lia. replace (8 + length body - 4 - 4) with (length body) by lia.
    rewrite slice_app_l, slice_all by lia. done. }
  rewrite E1. rewrite !app_assoc, drop_app_length' by (rewrite !length_app, length_to_le, Hm; lia).
  by rewrite bool_decide_eq_true_2.
Qed.

(** ** Crash points *)

(** [Q] holds wherever the execution of [es] may stop. *)
Definition at_every_crash (es : list Effect) (fs : Fs) (Q : Fs → Prop) : Prop := ∀ k n, Q (run_until k n es fs).

Lemma run_app a b fs : run (a ++ b) fs = run b (run a fs).
Proof. apply fold_left_app. Qed.

Lemma crash_app (a b : list Effect) fs (Q : Fs → Prop) :
  at_every_crash a fs Q → at_every_crash b (run a fs) Q → at_every_crash (a ++ b) fs Q.
Proof.
  intros Ha Hb k n. destruct (decide (k < length a)) as [Hk|Hk].
  - specialize (Ha k n). unfold run_until in *. by rewrite take_app_le, lookup_app_l by lia.
  - specialize (Hb (k - length a) n). unfold run_until in *.
    rewrite take_app_ge, lookup_app_r, run_app by lia. done.
Qed.

Lemma execute_crash (env : Env) (es : list Effect) fs (Q : Fs → Prop) : at_every_crash es fs Q → Q (run es fs) → Q (execute env es fs).1.
Proof. intros Hc Hr. unfold execute. destruct (env_fault env) as [[k n]|]; [case_match|]; cbn; auto. Qed.

(** Only the files themselves matter, not the temporaries. *)
Definition reads_as (fs fs' : Fs) : Prop := ∀ p, read fs p = read fs' p.

Lemma write_atomic_run (p : Path) (bytes : list byte) (fs : Fs) : reads_as (run (write_atomic p bytes) fs) (<[(p, false) := bytes]> fs).
Proof.
  intros q. unfold run, write_atomic, read. cbn [fold_left run1]. rewrite lookup_insert_eq, insert_insert_eq.
  destruct (decide (p = q)) as [->|]; [by rewrite !lookup_insert_eq|].
  rewrite !lookup_insert_ne by congruence. rewrite lookup_delete_ne, !lookup_insert_ne by congruence. done.
Qed.

Lemma write_atomic_crash (p : Path) (bytes : list byte) (fs : Fs) (Q : Fs → Prop) :
  (∀ fs' fs'', reads_as fs' fs'' → Q fs'' → Q fs') → Q fs → Q (<[(p, false) := bytes]> fs) →
  at_every_crash (write_atomic p bytes) fs Q.
Proof.
  intros Hext Hold Hnew k n.
  assert (Htmp : ∀ b fs0, reads_as (<[(p, true) := b]> fs0) fs0).
  { intros b fs0 q. unfold read. by rewrite lookup_insert_ne by congruence. }
  destruct k as [|[|[|[|[|k]]]]]; unfold run_until; cbn [write_atomic take run fold_left lookup list_lookup run1].
  - done.
  - eapply Hext; [apply Htmp|done].
  - eapply Hext; [|exact Hold]. intros q. by rewrite !Htmp.
  - eapply Hext; [|exact Hold]. intros q. by rewrite !Htmp.
  - eapply Hext; [|exact Hnew]. apply (write_atomic_run p bytes fs).
  - rewrite firstn_nil. replace ([] !! k) with (@None Effect) by done.
    eapply Hext; [|exact Hnew]. apply (write_atomic_run p bytes fs).
Qed.

(** Effects that leave a file alone. *)
Definition spares (f : FileName) (e : Effect) : Prop :=
  match e with
  | CreateDir | SyncDir => True
  | Put g _ => g ≠ f
  | Rename g h => g ≠ f ∧ h ≠ f
  | Unlink g => g ≠ f
  end.

Lemma run1_spares f e (fs : Fs) : spares f e → run1 e fs !! f = fs !! f.
Proof.
  destruct e as [|g b|g h|g|]; cbn; intros Hf; [done|by rewrite lookup_insert_ne| |by rewrite lookup_delete_ne|done].
  destruct Hf. destruct (fs !! g); [|done]. by rewrite lookup_insert_ne, lookup_delete_ne.
Qed.

Lemma run_spares f es (fs : Fs) : Forall (spares f) es → run es fs !! f = fs !! f.
Proof.
  intros Hes. revert fs. induction Hes as [|e es He Hes IH]; intros fs; [done|]. unfold run in *. cbn.
  by rewrite IH, run1_spares.
Qed.

Lemma crash_spares f es (fs : Fs) k n : Forall (spares f) es → run_until k n es fs !! f = fs !! f.
Proof.
  intros Hes. unfold run_until. assert (Ht : run (take k es) fs !! f = fs !! f) by (apply run_spares; by apply Forall_take).
  destruct (es !! k) as [e|] eqn:He; [|done]. rewrite Forall_lookup in Hes. apply Hes in He.
  destruct e; try done. rewrite run1_spares; [done|exact He].
Qed.

Lemma cleanup_spares denied fs keep f :
  f = (PManifest, false) ∨ f = (PBase keep, false) → Forall (spares f) (cleanup denied fs keep).
Proof.
  intros Hf. unfold cleanup. apply Forall_app. split; [|by repeat constructor]. apply Forall_fmap, Forall_forall.
  intros g (_ & Hg)%list_elem_of_filter. cbn. intros ->. apply elem_of_app in Hg as [(Hs & _)%list_elem_of_filter|Hg].
  - destruct Hf as [->| ->]; cbn in Hs; [done|]. by rewrite bool_decide_eq_true_2 in Hs.
  - apply list_elem_of_singleton in Hg. subst. by destruct Hf.
Qed.

(** ** What loading depends on *)

Lemma deltas_frame fs fs' n gen st obs :
  (∀ g, (gen < g ≤ gen + N.of_nat n)%N → read fs' (PDelta g) = read fs (PDelta g)) →
  load_deltas fs' n gen st obs = load_deltas fs n gen st obs.
Proof.
  revert gen st obs. induction n as [|n IH]; intros gen st obs Hr; [done|]. cbn [load_deltas].
  unfold read_segment_bytes. rewrite Hr by lia. destruct (read fs (PDelta (gen + 1))) as [bytes|]; [|done]. cbn [ok_or].
  destruct (decode_version _ _ _) as [[[from to] d]|]; [|done]. case_test; [done|]. apply IH. intros g Hg. apply Hr. lia.
Qed.

Lemma manifest_valid fs m : read_manifest fs = Ok (Some m) →
  (0 < base_generation m ≤ current_generation m)%N ∧ (base_bytes m ≠ 0)%N ∧
  (base_generation m = current_generation m → delta_bytes m = 0%N).
Proof.
  unfold read_manifest. destruct (read fs PManifest); [|done].
  destruct (decode_version _ _ _) as [m0|]; [|done]. unfold validate_manifest.
  do 4 (case_test; [done|]). intros [= <-]. destruct E1 as [E1|E1]; bool_to_prop; lia.
Qed.

Lemma load_frame fs fs' :
  read fs' PManifest = read fs PManifest → read fs' PLegacy = read fs PLegacy →
  (∀ m, read_manifest fs = Ok (Some m) → ∀ g, (g ≤ current_generation m)%N →
    read fs' (PBase g) = read fs (PBase g) ∧ read fs' (PDelta g) = read fs (PDelta g)) →
  load_file fs' = load_file fs ∧ read_manifest fs' = read_manifest fs.
Proof.
  intros Hm Hl Hseg. assert (Em : read_manifest fs' = read_manifest fs) by (unfold read_manifest; by rewrite Hm).
  split; [|done]. unfold load_file, load_incremental. rewrite Em, Hl.
  destruct (read_manifest fs) as [[m|]|] eqn:E1; [|done|done]. specialize (Hseg m eq_refl).
  destruct (manifest_valid fs m E1) as ([_ Hle] & _ & _). unfold read_segment_bytes.
  rewrite (proj1 (Hseg _ Hle)). destruct (read fs (PBase (base_generation m))) as [bytes|]; [|done]. cbn [ok_or].
  case_test; [done|]. destruct (decode_version _ _ _) as [[gen st]|]; [|done]. case_test; [done|]. case_test; [done|].
  rewrite (deltas_frame fs fs'); [done|]. intros g Hg. apply Hseg. lia.
Qed.

Lemma reads_as_load fs fs' : reads_as fs fs' → load_file fs = load_file fs' ∧ read_manifest fs = read_manifest fs'.
Proof. intros Hr. apply load_frame; [apply Hr|apply Hr|]. intros. split; apply Hr. Qed.

(** A base named by the manifest with no deltas is what loads. *)
Definition base_manifest (generation : N) (st : PersistedState K E P) : Manifest :=
  {| base_generation := generation; base_bytes := len (encode_version BASE_MAGIC (ser_base (generation, st)));
     current_generation := generation; delta_bytes := 0 |}.

Lemma base_manifest_valid generation st : (0 < generation)%N → validate_manifest (base_manifest generation st) = Ok tt.
Proof.
  intros Hg. unfold validate_manifest, base_manifest. cbn [base_generation current_generation base_bytes delta_bytes].
  rewrite length_encode by done. rewrite (proj2 (N.eqb_neq generation 0)), (proj2 (N.ltb_ge generation generation)) by lia.
  cbn [orb]. rewrite (proj2 (N.eqb_neq _ 0)) by lia. by rewrite N.eqb_refl.
Qed.

Lemma read_manifest_encoded fs m :
  validate_manifest m = Ok tt →
  read fs PManifest = Some (encode_version MANIFEST_MAGIC (ser_manifest m)) →
  read_manifest fs = Ok (Some m).
Proof.
  intros Hv Hm. unfold read_manifest. rewrite Hm, decode_encode by done. rewrite manifest_rt. cbn [ok_or]. by rewrite Hv.
Qed.

Lemma load_base fs generation st : (0 < generation)%N →
  read fs PManifest = Some (encode_version MANIFEST_MAGIC (ser_manifest (base_manifest generation st))) →
  read fs (PBase generation) = Some (encode_version BASE_MAGIC (ser_base (generation, st))) →
  load_file fs = Ok (Some st) ∧ read_manifest fs = Ok (Some (base_manifest generation st)).
Proof.
  intros Hg Hm Hb. pose proof (read_manifest_encoded fs _ (base_manifest_valid generation st Hg) Hm) as Em. split; [|done].
  unfold load_file, load_incremental. rewrite Em. unfold read_segment_bytes.
  cbn [base_manifest base_generation current_generation]. rewrite Hb. cbn [ok_or base_bytes base_manifest].
  rewrite N.eqb_refl. cbn [negb]. rewrite decode_encode, base_rt by done. cbn [ok_or]. by rewrite !N.eqb_refl.
Qed.

(** ** Saves are atomic *)

Definition cur fs : N := match read_manifest fs with Ok (Some m) => current_generation m | _ => 0%N end.

(** A file system after a save that may or may not have taken effect. *)
Definition unchanged fs fs' : Prop := load_file fs' = load_file fs ∧ read_manifest fs' = read_manifest fs.
Definition replaced fs fs' (st : PersistedState K E P) : Prop :=
  load_file fs' = Ok (Some st) ∧ ∃ m, read_manifest fs' = Ok (Some m) ∧ current_generation m = (cur fs + 1)%N.

Lemma unchanged_ext fs fs' fs'' : reads_as fs' fs'' → unchanged fs fs'' → unchanged fs fs'.
Proof. intros [E1 E2]%reads_as_load [? ?]. split; congruence. Qed.

Lemma replaced_ext fs fs' fs'' st : reads_as fs' fs'' → replaced fs fs'' st → replaced fs fs' st.
Proof. intros [E1 E2]%reads_as_load [? ?]. split; [congruence|]. by rewrite E2. Qed.

(** Writing a segment beyond the current generation is invisible. *)
Lemma write_segment_unchanged fs p bytes :
  p = PBase (cur fs + 1) ∨ p = PDelta (cur fs + 1) → unchanged fs (<[(p, false) := bytes]> fs).
Proof.
  intros Hp. assert (Hne : ∀ q, q ≠ p → read (<[(p, false) := bytes]> fs) q = read fs q)
    by (intros q Hq; unfold read; by rewrite lookup_insert_ne by congruence).
  apply load_frame; [apply Hne|apply Hne|]; [by destruct Hp as [->| ->]|by destruct Hp as [->| ->]|].
  intros m Hm g Hg. unfold cur in Hp. rewrite Hm in Hp.
  split; apply Hne; destruct Hp as [->| ->]; intros [= ?]; lia.
Qed.

(** The two writes and what follows, at every crash point. *)
Lemma publish_crash fs fs1 p bytes mbytes rest (Q : Fs → Prop) st :
  (∀ fs0, unchanged fs fs0 → Q fs0) → (∀ fs0, replaced fs fs0 st → Q fs0) →
  p = PBase (cur fs + 1) ∨ p = PDelta (cur fs + 1) →
  reads_as fs1 fs →
  replaced fs (<[(PManifest, false) := mbytes]> (<[(p, false) := bytes]> fs)) st →
  at_every_crash rest (run (write_atomic PManifest mbytes) (run (write_atomic p bytes) fs1)) Q →
  at_every_crash (write_atomic p bytes ++ write_atomic PManifest mbytes ++ rest) fs1 Q.
Proof.
  intros Hun Hre Hp H1 Hm Hrest.
  assert (Hins : ∀ q b fs0 fs0', reads_as fs0 fs0' → reads_as (<[(q, false) := b]> fs0) (<[(q, false) := b]> fs0')).
  { intros q b fs0 fs0' Hr q'. specialize (Hr q'). unfold read in *. destruct (decide (q = q')) as [->|].
    - by rewrite !lookup_insert_eq.
    - by rewrite !lookup_insert_ne by congruence. }
  set (either fs0 := unchanged fs fs0 ∨ replaced fs fs0 st).
  assert (Hext : ∀ fs' fs'', reads_as fs' fs'' → either fs'' → either fs').
  { intros fs' fs'' Hr [?|?]; [left; by eapply unchanged_ext|right; by eapply replaced_ext]. }
  assert (HQ : ∀ fs0, either fs0 → Q fs0) by (intros fs0 [?|?]; auto).
  assert (Hseg : either (<[(p, false) := bytes]> fs1)).
  { eapply Hext; [by apply Hins|]. left. by apply write_segment_unchanged. }
  assert (Hrun : reads_as (run (write_atomic p bytes) fs1) (<[(p, false) := bytes]> fs)).
  { intros q. rewrite write_atomic_run. by apply Hins. }
  apply crash_app; [|apply crash_app; [|done]]; intros k n; apply HQ.
  - apply (write_atomic_crash p bytes fs1 either); [done| |done]. eapply Hext; [done|]. by left.
  - apply (write_atomic_crash PManifest mbytes _ either); [done| |].
    + eapply Hext; [exact Hrun|]. left. by apply write_segment_unchanged.
    + eapply Hext; [by apply Hins|]. by right.
Qed.

Lemma crash_cons e es fs (Q : Fs → Prop) : (e = CreateDir ∨ e = SyncDir) → Q fs →
  at_every_crash es fs Q → at_every_crash (e :: es) fs Q.
Proof. intros He Hq Hes [|k] n; [by destruct He as [->| ->]|]. specialize (Hes k n). by destruct He as [->| ->]. Qed.

Lemma publish_run fs p bytes mbytes :
  reads_as (run (CreateDir :: write_atomic p bytes ++ write_atomic PManifest mbytes) fs)
    (<[(PManifest, false) := mbytes]> (<[(p, false) := bytes]> fs)).
Proof.
  change (run (CreateDir :: write_atomic p bytes ++ write_atomic PManifest mbytes) fs)
    with (run (write_atomic p bytes ++ write_atomic PManifest mbytes) fs).
  intros q. rewrite run_app, write_atomic_run. unfold read. destruct (decide (q = PManifest)) as [->|].
  - by rewrite !lookup_insert_eq.
  - rewrite !(lookup_insert_ne _ (PManifest, false)) by congruence. apply (write_atomic_run p bytes fs q).
Qed.

Lemma executed (env : Env) es fs fs' r (Q R : Fs → Prop) :
  execute env es fs = (fs', r) → at_every_crash es fs Q → R (run es fs) →
  match r with Ok _ => R fs' | Err _ => Q fs' end.
Proof.
  unfold execute. intros Hx Hc Hr. destruct (env_fault env) as [[k n]|]; [case_match|]; injection Hx as <- <-; auto.
Qed.

Lemma save_full_atomic env fs st fs' r :
  (cur fs < usize_max)%N → save_full env fs st = (fs', r) →
  match r with Ok _ => replaced fs fs' st | Err _ => unchanged fs fs' ∨ replaced fs fs' st end.
Proof.
  intros Hcur. unfold save_full.
  destruct (read_manifest fs) as [prev|] eqn:Hm; [|intros [= <- <-]; by left].
  destruct (negb (format_version =? FORMAT_VERSION)%N && _ && _); [intros [= <- <-]; by left|].
  set (gen := match prev with Some m => _ | None => _ end).
  assert (Hgen : gen = (cur fs + 1)%N).
  { unfold gen, cur in *. rewrite Hm in *. destruct prev; [|done]. unfold saturating_add. lia. }
  clearbody gen. subst gen. fold (base_manifest (cur fs + 1) st). set (base := encode_version BASE_MAGIC _).
  unfold publish_manifest. rewrite base_manifest_valid by lia. set (mb := encode_version MANIFEST_MAGIC _).
  assert (Hafter : ∀ fs0, read fs0 PManifest = Some mb → read fs0 (PBase (cur fs + 1)) = Some base → replaced fs fs0 st).
  { intros fs0 H1 H2. destruct (load_base fs0 (cur fs + 1) st) as [? ?]; [lia|done|done|]. split; [done|]. by eexists. }
  set (write := (CreateDir :: _) ++ _).
  assert (Hwrite : reads_as (run write fs) (<[(PManifest, false) := mb]> (<[(PBase (cur fs + 1), false) := base]> fs)))
    by apply publish_run.
  assert (Hclean : ∀ k n, replaced fs (run_until k n (cleanup (env_denied env) (run write fs) (cur fs + 1)) (run write fs)) st).
  { pose proof (Hwrite PManifest) as W1. pose proof (Hwrite (PBase (cur fs + 1))) as W2. unfold read in W1, W2.
    intros k n. apply Hafter; unfold read; rewrite crash_spares by (apply cleanup_spares; auto).
    - by rewrite W1, lookup_insert_eq.
    - by rewrite W2, lookup_insert_ne, lookup_insert_eq by congruence. }
  intros Hx. eapply (executed env _ fs fs' r (λ fs0, unchanged fs fs0 ∨ replaced fs fs0 st) (λ fs0, replaced fs fs0 st) Hx).
  - set (cl := cleanup _ _ _) in *.
    assert (Eall : write ++ cl = CreateDir :: write_atomic (PBase (cur fs + 1)) base ++ write_atomic PManifest mb ++ cl)
      by (unfold write; by rewrite <- app_assoc).
    rewrite Eall. apply crash_cons; [by left|by left|].
    eapply (publish_crash fs fs _ base mb _ _ st); [by left|by right|by left|done| |].
    + apply Hafter; unfold read; [by rewrite lookup_insert_eq|by rewrite lookup_insert_ne, lookup_insert_eq by congruence].
    + intros k n. right. rewrite <- run_app. apply Hclean.
  - rewrite run_app. specialize (Hclean (length (cleanup (env_denied env) (run write fs) (cur fs + 1))) 0).
    unfold run_until in Hclean. rewrite take_ge, lookup_ge_None_2 in Hclean by lia. exact Hclean.
Qed.

Lemma load_deltas_snoc fs n gen st obs st' obs' d bytes :
  load_deltas fs n gen st obs = Ok (st', obs') →
  read fs (PDelta (gen + N.of_nat n + 1)) = Some bytes →
  decode_version de_delta DELTA_MAGIC bytes = Ok (gen + N.of_nat n, gen + N.of_nat n + 1, d)%N →
  load_deltas fs (n + 1) gen st obs = Ok (apply_delta d st', saturating_add obs' (len bytes)).
Proof.
  revert gen st obs. induction n as [|n IH]; intros gen st obs; cbn [load_deltas Nat.add].
  - intros [= <- <-]. rewrite N.add_0_r. intros Hr Hd. unfold read_segment_bytes. rewrite Hr. cbn [ok_or]. rewrite Hd.
    unfold saturating_sub. replace (gen + 1 - 1)%N with gen by lia. by rewrite !N.eqb_refl.
  - destruct (read_segment_bytes fs (PDelta (gen + 1)) None) as [b0|]; [|done].
    destruct (decode_version de_delta DELTA_MAGIC b0) as [[[from to] d0]|]; [|done]. case_test; [done|].
    replace (gen + N.of_nat (S n))%N with (gen + 1 + N.of_nat n)%N by lia. apply IH.
Qed.

Definition next_manifest (m : Manifest) (bytes : N) : Manifest :=
  {| base_generation := base_generation m; base_bytes := base_bytes m;
     current_generation := current_generation m + 1; delta_bytes := saturating_add (delta_bytes m) bytes |}.

Lemma load_next fs m st d fs2 :
  read_manifest fs = Ok (Some m) → load_file fs = Ok (Some st) →
  let bytes := encode_version DELTA_MAGIC (ser_delta (current_generation m, (current_generation m + 1)%N, d)) in
  let m' := next_manifest m (len bytes) in
  validate_manifest m' = Ok tt →
  fs2 = <[(PManifest, false) := encode_version MANIFEST_MAGIC (ser_manifest m')]>
          (<[(PDelta (current_generation m + 1), false) := bytes]> fs) →
  load_file fs2 = Ok (Some (apply_delta d st)) ∧ read_manifest fs2 = Ok (Some m').
Proof.
  intros Hm Hl bytes m' Hv E2. destruct (manifest_valid fs m Hm) as ([Hpos Hle] & _ & Hz).
  assert (Hr : ∀ q, q ≠ PManifest → q ≠ PDelta (current_generation m + 1) → read fs2 q = read fs q).
  { intros q Hq1 Hq2. unfold read. rewrite E2, !lookup_insert_ne by congruence. done. }
  assert (Hm2 : read_manifest fs2 = Ok (Some m')).
  { apply read_manifest_encoded; [done|]. unfold read. by rewrite E2, lookup_insert_eq. }
  split; [|done]. revert Hl. unfold load_file, load_incremental. rewrite Hm, Hm2.
  change (base_generation m') with (base_generation m). change (base_bytes m') with (base_bytes m).
  unfold read_segment_bytes. rewrite (Hr (PBase _)) by done.
  destruct (read fs (PBase (base_generation m))) as [bb|]; [|done]. cbn [ok_or]. case_test; [done|].
  destruct (decode_version de_base BASE_MAGIC bb) as [[g0 st0]|]; [|done]. case_test; [done|].
  change (current_generation m') with (current_generation m + 1)%N.
  rewrite (proj2 (N.eqb_neq (current_generation m + 1) _)) by lia.
  set (n := N.to_nat (current_generation m - base_generation m)).
  assert (Hn : (base_generation m + N.of_nat n)%N = current_generation m) by lia.
  intros Hl. assert (Hds : load_deltas fs n (base_generation m) st0 0 = Ok (st, delta_bytes m)).
  { destruct (current_generation m =? base_generation m)%N eqn:Ec; bool_to_prop.
    - injection Hl as <-. replace n with 0 by lia. cbn. by rewrite Hz by done.
    - destruct (load_deltas fs n (base_generation m) st0 0) as [[st1 obs]|]; [|done].
      destruct (obs =? delta_bytes m)%N eqn:Eo; [|done]. bool_to_prop. by injection Hl as <-; subst. }
  assert (Hds2 : load_deltas fs2 n (base_generation m) st0 0 = Ok (st, delta_bytes m)).
  { rewrite (deltas_frame fs fs2); [done|]. intros g Hg. apply Hr; [done|]. intros [= ?]. lia. }
  replace (N.to_nat (current_generation m + 1 - base_generation m)) with (n + 1) by lia.
  rewrite (load_deltas_snoc fs2 n (base_generation m) st0 0 st (delta_bytes m) d bytes Hds2).
  - cbn [negb delta_bytes next_manifest m']. by rewrite N.eqb_refl.
  - rewrite Hn. unfold read. by rewrite E2, lookup_insert_ne, lookup_insert_eq by congruence.
  - rewrite Hn. unfold bytes. rewrite decode_encode, delta_rt by done. done.
Qed.

Lemma next_manifest_valid fs m bytes : read_manifest fs = Ok (Some m) → (0 < bytes)%N →
  validate_manifest (next_manifest m bytes) = Ok tt.
Proof.
  intros Hm Hb. destruct (manifest_valid fs m Hm) as ([? ?] & ? & _). unfold validate_manifest.
  cbn [base_generation current_generation base_bytes delta_bytes next_manifest].
  rewrite (proj2 (N.eqb_neq (base_generation m) 0)), (proj2 (N.ltb_ge _ _)) by lia. cbn [orb].
  rewrite (proj2 (N.eqb_neq (base_bytes m) 0)) by lia. rewrite (proj2 (N.eqb_neq (base_generation m) _)) by lia.
  cbn [andb]. rewrite (proj2 (N.eqb_neq _ 0)); [by rewrite andb_false_r|].
  unfold saturating_add, usize_max, u64_max. lia.
Qed.

Lemma manifest_loads fs m o : read_manifest fs = Ok (Some m) → load_file fs = Ok o → ∃ st, o = Some st.
Proof.
  intros Hm. unfold load_file, load_incremental. rewrite Hm. destruct (read_segment_bytes _ _ _); [|done].
  destruct (decode_version _ _ _) as [[g st]|]; [|done]. case_test; [done|]. case_test; [intros [= <-]; eauto|].
  destruct (load_deltas _ _ _ _ _) as [[st' obs]|]; [|done]. case_test; [done|]. intros [= <-]. eauto.
Qed.

Lemma try_save_atomic env fs d fs' r o :
  (cur fs < usize_max)%N → load_file fs = Ok o → try_save env fs d = (fs', r) →
  match r with
  | Ok false => fs' = fs
  | Ok true => ∃ st, load_file fs = Ok (Some st) ∧
      match d with Some d => replaced fs fs' (apply_delta d st) | None => fs' = fs end
  | Err _ => unchanged fs fs' ∨ ∃ st dl, d = Some dl ∧ load_file fs = Ok (Some st) ∧ replaced fs fs' (apply_delta dl st)
  end.
Proof.
  intros Hcur Hl. unfold try_save. destruct (read_manifest fs) as [[m|]|] eqn:Hm; [|case_test|];
    [|intros [= <- <-]; by left|by intros [= <- <-]|intros [= <- <-]; by left].
  destruct (manifest_loads fs m o Hm Hl) as [st ->].
  destruct d as [d|]; [|intros [= <- <-]; by exists st].
  assert (Ec : cur fs = current_generation m) by (unfold cur; by rewrite Hm).
  replace (saturating_add (current_generation m) 1) with (current_generation m + 1)%N by (unfold saturating_add; lia).
  set (bytes := encode_version DELTA_MAGIC _). case_test; [by intros [= <- <-]|].
  fold (next_manifest m (len bytes)). unfold publish_manifest.
  assert (Hv : validate_manifest (next_manifest m (len bytes)) = Ok tt).
  { eapply next_manifest_valid; [done|]. unfold bytes. rewrite length_encode by done. lia. }
  rewrite Hv. set (mb := encode_version MANIFEST_MAGIC _).
  assert (Hre : replaced fs (<[(PManifest, false) := mb]> (<[(PDelta (current_generation m + 1), false) := bytes]> fs)) (apply_delta d st)).
  { edestruct (load_next fs m st d) as [? ?]; [done|done|exact Hv|reflexivity|]. split; [done|].
    eexists. split; [done|]. by rewrite Ec. }
  destruct (execute env _ fs) as [fs1 r1] eqn:Hx. intros [= <- <-].
  pose proof (executed env _ fs fs1 r1 (λ fs0, unchanged fs fs0 ∨ replaced fs fs0 (apply_delta d st))
    (λ fs0, replaced fs fs0 (apply_delta d st)) Hx) as Hres.
  assert (Hfinal : match r1 with Ok _ => replaced fs fs1 (apply_delta d st)
                   | Err _ => unchanged fs fs1 ∨ replaced fs fs1 (apply_delta d st) end).
  { apply Hres.
    - rewrite <- (app_nil_r (write_atomic PManifest mb)).
      eapply (publish_crash fs fs _ bytes mb [] _ (apply_delta d st)); [by left|by right|right; by rewrite Ec|done|done|].
      intros k n. right. unfold run_until. rewrite take_nil, lookup_nil. cbn [run fold_left].
      eapply replaced_ext; [|exact Hre]. pose proof (publish_run fs (PDelta (current_generation m + 1)) bytes mb) as Hp.
      unfold run in Hp. cbn [fold_left run1] in Hp. rewrite fold_left_app in Hp. exact Hp.
    - eapply replaced_ext; [|exact Hre]. apply (publish_run fs (PDelta (current_generation m + 1)) bytes mb). }
  destruct r1; [by exists st|]. destruct Hfinal; [by left|]. right. by exists st, d.
Qed.

(** ** The backend contract *)

Definition file_ok (b : FileBackend) : Prop :=
  (∃ o, load_file (fb_files b) = Ok o) ∧ (cur (fb_files b) + N.of_nat (length (fb_envs b)) < usize_max)%N.

Lemma file_ok_unchanged fs fs' env envs :
  file_ok {| fb_files := fs; fb_envs := env :: envs |} → unchanged fs fs' → file_ok {| fb_files := fs'; fb_envs := envs |}.
Proof.
  intros [[o Ho] Hc] [El Em]. split; cbn in *; [exists o; congruence|]. unfold cur in *. rewrite Em. lia.
Qed.

Lemma file_ok_replaced fs fs' env envs st :
  file_ok {| fb_files := fs; fb_envs := env :: envs |} → replaced fs fs' st → file_ok {| fb_files := fs'; fb_envs := envs |}.
Proof.
  intros [_ Hc] [El (m & Em & Hm)]. split; cbn in *; [by eexists|]. unfold cur at 1. rewrite Em. lia.
Qed.

#[refine] Definition file_persistence : Persistence K E P FileBackend := {|
  load b := load_file (fb_files b);
  save := file_save;
  try_save_delta := file_try_save;
  backend_ok := file_ok;
|}.
Proof.
  - by intros b [? _].
  - intros [fs [|env envs]] st b' res Hb; unfold file_save; cbn [fb_files fb_envs]; [intros [= <- <-]; by split; [|left]|].
    destruct (save_full env fs st) as [fs' r] eqn:Hs. intros [= <- <-].
    apply save_full_atomic in Hs; [|destruct Hb as [_ Hc]; cbn in Hc; lia].
    destruct r as [[]|[]]; [|destruct Hs as [Hs|Hs]]; (split; [by eauto using file_ok_unchanged, file_ok_replaced|]);
      [destruct Hs as [? _]; eauto|left; apply Hs|right; destruct Hs as [? _]; eauto].
  - intros [fs [|env envs]] d b' res Hb; unfold file_try_save; cbn [fb_files fb_envs]; [intros [= <- <-]; by split; [|left]|].
    destruct (try_save env fs d) as [fs' r] eqn:Hs. intros [= <- <-]. destruct Hb as [[o Ho] Hc] eqn:Hbe.
    eapply try_save_atomic in Hs; [|cbn in Hc; lia|exact Ho].
    assert (Hsame : file_ok {| fb_files := fs; fb_envs := envs |}) by (eapply file_ok_unchanged; [exact Hb|by split]).
    destruct r as [[]|[]].
    + destruct Hs as (st & Hst & Hd). destruct d as [d|]; [|subst fs'; split; [done|by exists st, st]].
      split; [by eapply file_ok_replaced|]. destruct Hd as [Hd _]. by exists st, (apply_delta d st).
    + subst fs'. by split.
    + destruct Hs as [Hs|(st & dl & -> & Hst & Hs)]; [split; [by eapply file_ok_unchanged|left; apply Hs]|].
      split; [by eapply file_ok_replaced|]. right. exists st, (apply_delta dl st), dl. by destruct Hs as [? _].
Defined.
End store.
