(* ===== verification/SnapshotProps.v ===== *)
(** * What snapshots guarantee

    Crash atomicity of the file store, the signed replica over it, and what a save that fails
    after taking effect leads to. *)
From stdpp Require Import gmap list.
From Stdlib Require Import NArith.
From Stdlib.Strings Require Import Byte.
From S2P Require Import Prelude Bytes Framing Peer Routes.
From S2P Require Import RecoveryBook ReassemblyProps Journal Durability SignedCausal SignedCausalProps SnapshotStore.

Section properties.
Context {K E P : Type} `{Countable K, Countable P}.
Context (blake3_hash : list byte → list byte).
Context (ser_manifest : Manifest → list byte) (de_manifest : list byte → option Manifest).
Context (ser_base : N * PersistedState K E P → list byte) (de_base : list byte → option (N * PersistedState K E P)).
Context (ser_delta : N * N * PersistenceDelta K E P → list byte)
        (de_delta : list byte → option (N * N * PersistenceDelta K E P)).
Context (de_state : list byte → option (PersistedState K E P)).
Context (format_version : N).
Context (hash_len : ∀ m, length (blake3_hash m) = 32).
Context (manifest_rt : ∀ m, de_manifest (ser_manifest m) = Some m) (base_rt : ∀ b, de_base (ser_base b) = Some b)
        (delta_rt : ∀ d, de_delta (ser_delta d) = Some d).
Context (version_u32 : (format_version ≤ u32_max)%N).

Let loadf := load_file blake3_hash de_manifest de_base de_delta de_state format_version.

(** A full save is atomic at every crash point and I/O failure: afterwards the store loads
    what it loaded before or the saved state, never an error or a mixture, and exactly the saved
    state when the save answers [Ok]. *)
Theorem full_save_atomic env (fs fs' : Fs) st r :
  (cur blake3_hash de_manifest format_version fs < usize_max)%N →
  save_full blake3_hash ser_manifest de_manifest ser_base format_version env fs st = (fs', r) →
  match r with
  | Ok _ => loadf fs' = Ok (Some st)
  | Err _ => loadf fs' = loadf fs ∨ loadf fs' = Ok (Some st)
  end.
Proof.
  intros Hc Hs. eapply (save_full_atomic _ _ _ _ de_base de_delta de_state) in Hs; [|done..].
  destruct r; [apply Hs|]. destruct Hs as [Hs|Hs]; [left|right]; apply Hs.
Qed.

(** A delta save is atomic likewise: the store goes on loading the state it loaded, or
    that state with the delta replayed; [Ok true] means the latter, [Ok false] leaves every file
    as it was. *)
Theorem delta_save_atomic env (fs fs' : Fs) st d r :
  (cur blake3_hash de_manifest format_version fs < usize_max)%N → loadf fs = Ok (Some st) →
  try_save blake3_hash ser_manifest de_manifest ser_delta format_version env fs (Some d) = (fs', r) →
  match r with
  | Ok true => loadf fs' = Ok (Some (apply_delta d st))
  | Ok false => fs' = fs
  | Err _ => loadf fs' = Ok (Some st) ∨ loadf fs' = Ok (Some (apply_delta d st))
  end.
Proof.
  intros Hc Hl Hs. eapply (try_save_atomic _ _ _ de_base _ de_delta de_state) in Hs; [|done..].
  unfold loadf in *. destruct r as [[]|].
  - destruct Hs as (st' & Hst & Hs & _). rewrite Hl in Hst. injection Hst as <-. done.
  - done.
  - destruct Hs as [[Hs _]|(st' & dl & [= <-] & Hst & Hs & _)]; [left; congruence|right].
    rewrite Hl in Hst. by injection Hst as <-.
Qed.
End properties.

(** ** The signed replica over the file store *)

Section file_backed.
Context {K V S E C A : Type} `{Countable K} `{Lww V S E C}.
Context (blake3_hash : list byte → list byte).
Context (ser_manifest : Manifest → list byte) (de_manifest : list byte → option Manifest).
Context (ser_base : N * PersistedState K E PeerId → list byte) (de_base : list byte → option (N * PersistedState K E PeerId)).
Context (ser_delta : N * N * PersistenceDelta K E PeerId → list byte)
        (de_delta : list byte → option (N * N * PersistenceDelta K E PeerId)).
Context (de_state : list byte → option (PersistedState K E PeerId)).
Context (format_version : N).
Context (hash_len : ∀ m, length (blake3_hash m) = 32).
Context (manifest_rt : ∀ m, de_manifest (ser_manifest m) = Some m) (base_rt : ∀ b, de_base (ser_base b) = Some b)
        (delta_rt : ∀ d, de_delta (ser_delta d) = Some d).
Context (version_u32 : (format_version ≤ u32_max)%N).

#[local] Instance on_disk : Persistence K E PeerId FileBackend :=
  file_persistence blake3_hash ser_manifest de_manifest ser_base de_base ser_delta de_delta de_state format_version
    hash_len manifest_rt base_rt delta_rt version_u32.

(** C7. A signed replica on the file store, whichever of its saves crash or fail: no operation
    panics, the directory always loads, replaying the journalled generations onto what it loads
    gives the runtime state, and after a snapshot that answers [Ok] with none left to retry a
    restart loads the runtime state itself. *)
Theorem file_backed_replica_recovers update_len (s : SignedReplica K E C A FileBackend) (ops : list (SOp (K := K) (V := V) (E := E))) :
  backend_ok (sr_persistence s) → started s →
  let loads s := load_file blake3_hash de_manifest de_base de_delta de_state format_version (fb_files (sr_persistence s)) in
  ∃ s', sexec_all update_len s ops = Some s' ∧
    (∃ o, loads s' = Ok o) ∧
    (∀ d, loads s' = Ok (Some d) →
      apply_delta (open_delta (sr_generations s')) (apply_opt (frozen (sr_generations s')) d) ≡ runtime s') ∧
    (∀ s'', frozen (sr_generations s') = None → snapshot_now s' = Some (s'', Ok tt) →
      ∃ d, loads s'' = Ok (Some d) ∧ d ≡ runtime s').
Proof.
  intros Hb Hs loads. destruct (sexec_all_inv update_len s ops (started_inv s Hb Hs)) as (s' & E1 & Hi).
  exists s'. split; [done|]. split; [apply (backend_loads _ (du_backend _ _ _ Hi))|]. split; [apply (du_replay _ _ _ Hi)|].
  intros s'' Hn Hsnap. destruct (snapshot_spec s' Hi) as (s2 & res & Hs2 & _ & _ & Hok). rewrite Hsnap in Hs2.
  injection Hs2 as <- <-. destruct (Hok eq_refl) as (_ & d & Hl & Hd). exists d. split; [exact Hl|auto].
Qed.
End file_backed.

(** Serializers for the witnesses: a value's number, in unary. *)
Definition toy_ser {T} `{Countable T} (x : T) : list byte := replicate (Pos.to_nat (encode x)) x00.
Definition toy_de {T} `{Countable T} (l : list byte) : option T := decode (Pos.of_nat (length l)).

Lemma toy_rt {T} `{Countable T} (x : T) : toy_de (toy_ser x) = Some x.
Proof. unfold toy_de, toy_ser. by rewrite length_replicate, Pos2Nat.id, countable.decode_encode. Qed.

Definition manifest_tuple (m : Manifest) : N * N * (N * N) :=
  ((base_generation m, base_bytes m), (current_generation m, delta_bytes m)).
Definition tuple_manifest (t : N * N * (N * N)) : Manifest :=
  {| base_generation := t.1.1; base_bytes := t.1.2; current_generation := t.2.1; delta_bytes := t.2.2 |}.
Definition toy_ser_manifest (m : Manifest) : list byte := toy_ser (manifest_tuple m).
Definition toy_de_manifest (l : list byte) : option Manifest := tuple_manifest <$> toy_de l.
Lemma toy_manifest_rt m : toy_de_manifest (toy_ser_manifest m) = Some m.
Proof. unfold toy_de_manifest, toy_ser_manifest. rewrite toy_rt. by destruct m. Qed.

Definition state_tuple (s : PersistedState N N PeerId) : gmap N N * gset PeerId * gmap N (gmap PeerId N) :=
  (st_entries s, st_members s, st_acks s).
Definition tuple_state (t : gmap N N * gset PeerId * gmap N (gmap PeerId N)) : PersistedState N N PeerId :=
  {| st_entries := t.1.1; st_members := t.1.2; st_acks := t.2 |}.
Definition toy_ser_base (b : N * PersistedState N N PeerId) : list byte := toy_ser (b.1, state_tuple b.2).
Definition toy_de_base (l : list byte) : option (N * PersistedState N N PeerId) :=
  (λ t, (t.1, tuple_state t.2)) <$> toy_de l.
Lemma toy_base_rt b : toy_de_base (toy_ser_base b) = Some b.
Proof. unfold toy_de_base, toy_ser_base. rewrite toy_rt. by destruct b as [g []]. Qed.

Definition delta_tuple (d : PersistenceDelta N N PeerId)
    : gmap N (option N) * gmap PeerId bool * (gset N * gmap N (gmap PeerId (option N))) :=
  ((d_entries d, d_members d), (d_ack_key_clears d, d_ack_peers d)).
Definition tuple_delta (t : gmap N (option N) * gmap PeerId bool * (gset N * gmap N (gmap PeerId (option N))))
    : PersistenceDelta N N PeerId :=
  {| d_entries := t.1.1; d_members := t.1.2; d_ack_key_clears := t.2.1; d_ack_peers := t.2.2 |}.
Definition toy_ser_delta (d : N * N * PersistenceDelta N N PeerId) : list byte := toy_ser (d.1, delta_tuple d.2).
Definition toy_de_delta (l : list byte) : option (N * N * PersistenceDelta N N PeerId) :=
  (λ t, (t.1, tuple_delta t.2)) <$> toy_de l.
Lemma toy_delta_rt d : toy_de_delta (toy_ser_delta d) = Some d.
Proof. unfold toy_de_delta, toy_ser_delta. rewrite toy_rt. by destruct d as [? []]. Qed.

Definition flat_hash (_ : list byte) : list byte := replicate 32 x00.
Definition no_state (_ : list byte) : option (PersistedState N N PeerId) := None.
Definition toy_load := load_file flat_hash toy_de_manifest toy_de_base toy_de_delta no_state FORMAT_VERSION.
Definition toy_cur := cur flat_hash toy_de_manifest FORMAT_VERSION.

Lemma flat_hash_len m : length (flat_hash m) = 32.
Proof. done. Qed.

Lemma toy_version : (FORMAT_VERSION ≤ u32_max)%N.
Proof. done. Qed.

(** A directory that holds one base snapshot. *)
Definition demo_base_state : PersistedState N N PeerId := {| st_entries := {[1%N := 4%N]}; st_members := {[demo_peer]}; st_acks := ∅ |}.
Definition demo_fs : Fs :=
  <[(PBase 1, false) := encode_version flat_hash FORMAT_VERSION BASE_MAGIC (toy_ser_base (1%N, demo_base_state))]>
    {[(PManifest, false) := encode_version flat_hash FORMAT_VERSION MANIFEST_MAGIC
        (toy_ser_manifest (base_manifest flat_hash toy_ser_base FORMAT_VERSION 1 demo_base_state))]}.

Lemma demo_fs_loads : toy_load demo_fs = Ok (Some demo_base_state) ∧ (toy_cur demo_fs < usize_max)%N.
Proof.
  unfold toy_load, toy_cur, cur.
  edestruct (load_base flat_hash toy_ser_manifest toy_de_manifest toy_ser_base toy_de_base toy_de_delta no_state FORMAT_VERSION
    flat_hash_len toy_manifest_rt toy_base_rt toy_version demo_fs 1 demo_base_state) as [El Em]; [lia|reflexivity|reflexivity|].
  rewrite Em. split; [exact El|]. cbn [current_generation base_manifest]. unfold usize_max, u64_max. lia.
Qed.

#[local] Existing Instance toy_lww.

Definition demo_file_signed : SignedReplica N N N N FileBackend := {|
  sr_routes := routes_new 4 10; sr_entries := {[1%N := 4%N]}; sr_members := {[demo_peer]}; sr_acks := ∅;
  sr_generations := GenerationState_default;
  sr_persistence := {| fb_files := demo_fs; fb_envs := [{| env_denied := ∅; env_fault := Some (3, 1) |}] |};
  sr_clock := 2%N; sr_authorities := {[demo_peer]}; sr_readers := ∅; sr_read_only := false;
  sr_framing := FramingConfig_default; sr_payload_budget := 1000; sr_cursors := ∅; sr_max_frames_per_tick := 8 |}.

Definition toy_disk : Persistence N N PeerId FileBackend :=
  on_disk flat_hash toy_ser_manifest toy_de_manifest toy_ser_base toy_de_base toy_ser_delta toy_de_delta no_state FORMAT_VERSION
    flat_hash_len toy_manifest_rt toy_base_rt toy_delta_rt toy_version.

Lemma demo_file_ok : backend_ok (Persistence := toy_disk) (sr_persistence demo_file_signed).
Proof.
  destruct demo_fs_loads as [Hl Hc]. split; [by eexists|]. change (fb_files (sr_persistence demo_file_signed)) with demo_fs.
  change (length (fb_envs (sr_persistence demo_file_signed))) with 1. unfold cur.
  edestruct (load_base flat_hash toy_ser_manifest toy_de_manifest toy_ser_base toy_de_base toy_de_delta no_state FORMAT_VERSION
    flat_hash_len toy_manifest_rt toy_base_rt toy_version demo_fs 1 demo_base_state) as [_ Em]; [lia|reflexivity|reflexivity|].
  rewrite Em. cbn [current_generation base_manifest]. unfold usize_max, u64_max. lia.
Qed.

Lemma demo_file_started : started (Persistence0 := toy_disk) demo_file_signed.
Proof.
  exists {[demo_peer]}, false, (Some demo_base_state), 0%N, 2%N, GenerationState_default. split; [apply demo_fs_loads|].
  split; [|done]. change (runtime demo_file_signed) with demo_base_state. reflexivity.
Qed.

Definition demo_env : Env := {| env_fault := Some (7, 1); env_denied := ∅ |}.
Definition demo_delta : PersistenceDelta N N PeerId :=
  {| d_entries := {[2%N := Some 6%N]}; d_members := ∅; d_ack_key_clears := ∅; d_ack_peers := ∅ |}.

Lemma full_save_atomic_witness :
  let '(fs', r) := save_full flat_hash toy_ser_manifest toy_de_manifest toy_ser_base FORMAT_VERSION demo_env demo_fs demo_base_state in
  match r with
  | Ok _ => toy_load fs' = Ok (Some demo_base_state)
  | Err _ => toy_load fs' = toy_load demo_fs ∨ toy_load fs' = Ok (Some demo_base_state)
  end.
Proof.
  destruct (save_full _ _ _ _ _ _ _ _) as [fs' r] eqn:Hs.
  apply (full_save_atomic flat_hash toy_ser_manifest toy_de_manifest toy_ser_base toy_de_base toy_de_delta no_state
    FORMAT_VERSION flat_hash_len toy_manifest_rt toy_base_rt toy_version demo_env demo_fs fs' demo_base_state r);
    [apply demo_fs_loads|exact Hs].
Defined.

Lemma delta_save_atomic_witness :
  let '(fs', r) := try_save flat_hash toy_ser_manifest toy_de_manifest toy_ser_delta FORMAT_VERSION demo_env demo_fs (Some demo_delta) in
  match r with
  | Ok true => toy_load fs' = Ok (Some (apply_delta demo_delta demo_base_state))
  | Ok false => fs' = demo_fs
  | Err _ => toy_load fs' = Ok (Some demo_base_state) ∨ toy_load fs' = Ok (Some (apply_delta demo_delta demo_base_state))
  end.
Proof.
  destruct (try_save _ _ _ _ _ _ _ _) as [fs' r] eqn:Hs.
  apply (delta_save_atomic flat_hash toy_ser_manifest toy_de_manifest toy_de_base toy_ser_delta toy_de_delta no_state
    FORMAT_VERSION flat_hash_len toy_manifest_rt toy_delta_rt toy_version demo_env demo_fs fs' demo_base_state demo_delta r);
    [apply demo_fs_loads|apply demo_fs_loads|exact Hs].
Defined.

Lemma file_backed_replica_recovers_witness :
  ∃ s', sexec_all (Persistence0 := toy_disk) (λ _ _, 10%N) demo_file_signed demo_ops = Some s' ∧
    ∃ o, toy_load (fb_files (sr_persistence s')) = Ok o.
Proof.
  destruct (file_backed_replica_recovers flat_hash toy_ser_manifest toy_de_manifest toy_ser_base toy_de_base toy_ser_delta
    toy_de_delta no_state FORMAT_VERSION flat_hash_len toy_manifest_rt toy_base_rt toy_delta_rt toy_version
    (λ _ _, 10%N) demo_file_signed demo_ops demo_file_ok demo_file_started) as (s' & Hops & Ho & _).
  exists s'. split; [exact Hops|exact Ho].
Defined.

(** ** Retrying a failed snapshot

    A backend that keeps its contract and answers as scripted; [Fails b] took effect iff [b]. *)
Inductive Answer := Done | Declined | Fails (took_effect : bool).
Definition Scripted : Type := option (PersistedState N N PeerId) * list Answer.

Definition scripted_save (b : Scripted) (st : PersistedState N N PeerId) : Scripted * result unit unit :=
  match b with
  | (_, (Done | Declined) :: l) => ((Some st, l), Ok tt)
  | (_, Fails true :: l) => ((Some st, l), Err tt)
  | (o, Fails false :: l) => ((o, l), Err tt)
  | (_, []) => (b, Err tt)
  end.

Definition scripted_try (b : Scripted) (d : option (PersistenceDelta N N PeerId)) : Scripted * result bool unit :=
  let next st := match d with Some d => apply_delta d st | None => st end in
  match b with
  | (Some st, Done :: l) => ((Some (next st), l), Ok true)
  | (o, (Done | Declined) :: l) => ((o, l), Ok false)
  | (Some st, Fails true :: l) => ((Some (next st), l), Err tt)
  | (o, Fails _ :: l) => ((o, l), Err tt)
  | (_, []) => (b, Err tt)
  end.

#[local] Program Instance scripted : Persistence N N PeerId Scripted := {|
  load b := Ok b.1; save := scripted_save; try_save_delta := scripted_try; backend_ok b := True |}.
Next Obligation. intros b _. by exists b.1. Qed.
Next Obligation.
  intros [o [|[| |[]] l]] st b' res _; cbn; intros [= <- <-]; (split; [done|]); cbn; eauto.
Qed.
Next Obligation.
  intros [[o|] [|[| |[]] l]] [d|] b' res _; cbn; intros [= <- <-]; (split; [done|]); cbn; eauto 10.
Qed.

Definition scripted_signed (l : list Answer) : SignedReplica N N N N Scripted := {|
  sr_routes := routes_new 4 10; sr_entries := {[1%N := 4%N]}; sr_members := {[demo_peer]}; sr_acks := ∅;
  sr_generations := GenerationState_default; sr_persistence := (Some demo_base_state, l);
  sr_clock := 2%N; sr_authorities := {[demo_peer]}; sr_readers := ∅; sr_read_only := false;
  sr_framing := FramingConfig_default; sr_payload_budget := 1000; sr_cursors := ∅; sr_max_frames_per_tick := 8 |}.

Definition scripted_run (l : list Answer) (ops : list (SOp (K := N) (V := N) (E := N))) : SignedReplica N N N N Scripted :=
  default (scripted_signed l) (sexec_all (λ _ _, 10%N) (scripted_signed l) ops).

(** What a snapshot answers and the entries durable after it. *)
Definition snapshot_outcome (s : SignedReplica N N N N Scripted) : option (result unit IoError * option (gmap N N)) :=
  match snapshot_now s with
  | Some (s', r) => Some (r, option_map st_entries (fst (sr_persistence s')))
  | None => None
  end.

(** After one failed snapshot the next one only retries the frozen generation: it answers [Ok]
    while an insert that completed before the call is not durable. *)
Example retried_snapshot_omits_later_updates :
  let s := scripted_run [Fails false; Done] [SInsert 1%N 0%N; SSnapshot; SInsert 2%N 0%N] in
  snapshot_outcome s = Some (Ok tt, Some {[1%N := 6%N]}) ∧ sr_entries s = {[1%N := 6%N; 2%N := 8%N]}.
Proof. split; vm_compute; reflexivity. Qed.

(** A full save that takes effect but answers an error leaves the older generation frozen; the
    retry replays it over the newer state, and the directory then holds, with [Ok], a state the
    replica was never in. *)
Example retried_delta_regresses_full_save :
  let ops := [SInsert 1%N 0%N; SSnapshot; SInsert 1%N 0%N; SInsert 2%N 0%N; SSnapshot] in
  let s := scripted_run [Fails false; Declined; Fails true; Done] in
  let mixed : gmap N N := {[1%N := 6%N; 2%N := 10%N]} in
  st_entries <$> (sr_persistence (s ops)).1 = Some {[1%N := 8%N; 2%N := 10%N]} ∧
  snapshot_outcome (s ops) = Some (Ok tt, Some mixed) ∧
  forallb (λ n, negb (bool_decide (sr_entries (s (take n ops)) = mixed))) (seq 0 6) = true.
Proof. split_and!; vm_compute; reflexivity. Qed.
