(* ===== verification/Messages.v ===== *)
(** * Protocol messages ([enum Message] in [src/replica.rs], [gossip/src/bincode.rs], the decoder of
      [src/replica/dispatch.rs])

    A logical payload is a stream of encoded messages. [deserialize], [bincode]'s decoder of one
    message, and the range aggregates of [rbsr] are arguments. *)
From stdpp Require Import list.
From Stdlib Require Import NArith.
From Stdlib.Strings Require Import Byte.
From S2P Require Import Prelude Bytes RecoveryBook.

Inductive Message (A K E St : Type) :=
| EntryFingerprint (range : A)
| EntryUpdate (update : K * E)
| TombstoneAck (ack : K * N)
| StateFingerprint (range : A)
| StateUpdate (update : K * St)
| ConvergenceAck
| Reserved6 (payload : list byte).
Arguments EntryFingerprint {A K E St} range.
Arguments EntryUpdate {A K E St} update.
Arguments TombstoneAck {A K E St} ack.
Arguments StateFingerprint {A K E St} range.
Arguments StateUpdate {A K E St} update.
Arguments ConvergenceAck {A K E St}.
Arguments Reserved6 {A K E St} payload.

Definition BUFFER_SIZE : N := 65507.
Definition MAX_MESSAGES_PER_DATAGRAM : N := BUFFER_SIZE.

(** ** [gossip::bincode] *)

(** [bincode]'s errors, as far as [decode_stream] tells them apart. *)
Inductive DeserializeError := UnexpectedEof | Malformed.

Section stream.
Context {T : Type} (serialize : T → list byte) (deserialize : list byte → result (T * list byte) DeserializeError).

(** [room] is [max_items - out.len()]. *)
Fixpoint decode_loop (room : nat) (bytes : list byte) : result (list T) DeserializeError :=
  match room with
  | O => Ok []
  | S room =>
      match deserialize bytes with
      | Ok (value, rest) => let? out := decode_loop room rest in Ok (value :: out)
      | Err UnexpectedEof => Ok []
      | Err err => Err err
      end
  end.

Definition decode_stream (bytes : list byte) (max_items : N) : result (list T) DeserializeError :=
  decode_loop (N.to_nat max_items) bytes.

Lemma decode_stream_bounded bytes max out : decode_stream bytes max = Ok out → (len out ≤ max)%N.
Proof.
  unfold decode_stream. intros Hd. cut (length out ≤ N.to_nat max); [lia|].
  revert bytes out Hd. induction (N.to_nat max) as [|n IH]; intros bytes out; cbn; [by intros [= <-]|].
  destruct (deserialize bytes) as [[v rest]|[]]; [|by intros [= <-]; cbn; lia|done].
  destruct (decode_loop n rest) eqn:Hl; [|done]. intros [= <-]. cbn. apply IH in Hl. lia.
Qed.

Context (deserialize_serialize : ∀ v rest, deserialize (serialize v ++ rest) = Ok (v, rest)).

(** Any strict prefix of an encoded message ends the stream, the empty one included. *)
Lemma decode_stream_prefix vs tail max : deserialize tail = Err UnexpectedEof →
  decode_stream (concat (serialize <$> vs) ++ tail) max = Ok (take (N.to_nat max) vs).
Proof.
  intros Ht. unfold decode_stream. generalize (N.to_nat max) as n. induction vs as [|v vs IH]; intros [|n]; cbn [decode_loop]; try done.
  - cbn. by rewrite Ht.
  - cbn [fmap list_fmap concat]. rewrite <- (assoc_L (++)), deserialize_serialize, IH. done.
Qed.
End stream.

(** ** [decode_datagram] *)

Section datagram.
Context {A K E St : Type} (deserialize : list byte → result (Message A K E St * list byte) DeserializeError).

Record DecodedDatagram := {
  dated_ranges : list A;
  dated_updates : list (K * E);
  tombstone_acks : list (K * N);
  saw_convergence_ack : bool;
  selective_recovery_capability : bool;
  value_ranges : list A;
}.

Definition spoke_dated (b : DecodedDatagram) : bool :=
  negb (bool_decide (dated_ranges b = [])) || negb (bool_decide (dated_updates b = []))
  || negb (bool_decide (tombstone_acks b = [])) || saw_convergence_ack b.

Definition empty_datagram : DecodedDatagram :=
  {| dated_ranges := []; dated_updates := []; tombstone_acks := []; saw_convergence_ack := false;
     selective_recovery_capability := false; value_ranges := [] |}.

Definition push_message (b : DecodedDatagram) (message : Message A K E St) : DecodedDatagram :=
  let '(Build_DecodedDatagram ranges updates acks converged capable values) := b in
  match message with
  | EntryFingerprint segment => Build_DecodedDatagram (ranges ++ [segment]) updates acks converged capable values
  | EntryUpdate update => Build_DecodedDatagram ranges (updates ++ [update]) acks converged capable values
  | TombstoneAck ack => Build_DecodedDatagram ranges updates (acks ++ [ack]) converged capable values
  | StateFingerprint segment => Build_DecodedDatagram ranges updates acks converged capable (values ++ [segment])
  | StateUpdate _ => b
  | ConvergenceAck => Build_DecodedDatagram ranges updates acks true capable values
  | Reserved6 payload =>
      if is_selective_recovery_capability payload
      then Build_DecodedDatagram ranges updates acks converged true values else b
  end.

Definition decode_datagram (payload : list byte) : option DecodedDatagram :=
  match decode_stream deserialize payload MAX_MESSAGES_PER_DATAGRAM with
  | Ok messages => Some (fold_left push_message messages empty_datagram)
  | Err _ => None
  end.
End datagram.
Arguments DecodedDatagram : clear implicits.
