(* ===== verification/Replica.v ===== *)
(** * The replica's dated state ([src/replica/write.rs], [dispatch.rs], [gc.rs], [membership.rs],
      [run.rs], [src/replicated_map/mutate.rs], [persistence.rs])

    The map of dated entries with its value-only projection and tombstone index, the causal
    membership and acknowledgements, the snapshot journal and the change counter. Each definition
    is one critical section of the code: what it does while it holds the mutation boundary and the
    write lock. [FingerprintTreeMap] is used as a finite map. Hooks are user code that runs
    between critical sections; a remote batch is therefore two definitions, [plan_updates] and
    [commit_updates]. *)
From stdpp Require Import gmap list.
From Stdlib Require Import NArith.
From S2P Require Import Prelude Journal Durability SignedCausal.

(** The parts of [lww_register]'s entries and stamps that only the replica reads. *)
Class EntryState (V S E St : Type) := {
  state : E → St;
  project : E → St;
  value : E → option V;
  value_mut : (V → V) → E → E;
  set_stamp : E → S → E;
  state_digest : St → list N;
  physical_millis : S → N;
}.

Section replica.
Context {K V S E C St P B : Type} `{Countable K, Countable P} `{Lww V S E C} `{!EntryState V S E St}
  `{!RustOrd S} `{!EqDecision S} `{!Persistence K E P B}.

Record Replica := {
  rp_map : gmap K E;
  rp_projection : gmap K St;
  rp_live_tombstones : gset K;
  rp_members : gset P;
  rp_tombstone_acks : gmap K (gmap P N);
  rp_generations : GenerationState K E P;
  rp_changes : N;
  rp_collision_reported : bool;
}.

Definition replica_new : Replica :=
  {| rp_map := ∅; rp_projection := ∅; rp_live_tombstones := ∅; rp_members := ∅; rp_tombstone_acks := ∅;
     rp_generations := GenerationState_default; rp_changes := 0; rp_collision_reported := false |}.

(** ** Counting changes: [fetch_add] wraps *)

Definition set_changes (r : Replica) (n : N) : Replica :=
  {| rp_map := rp_map r; rp_projection := rp_projection r; rp_live_tombstones := rp_live_tombstones r;
     rp_members := rp_members r; rp_tombstone_acks := rp_tombstone_acks r; rp_generations := rp_generations r;
     rp_changes := n; rp_collision_reported := rp_collision_reported r |}.

Definition record_changes (r : Replica) (n : N) : Replica := set_changes r (wrapping_add64 (rp_changes r) n).
Definition retire_change_count (r : Replica) (counted : N) : Replica :=
  set_changes r (saturating_sub (rp_changes r) counted).

(** ** Local writes *)

Definition map_insert (r : Replica) (key : K) (v : E) : Replica * option E :=
  ({| rp_map := <[key := v]> (rp_map r);
      rp_projection := <[key := project v]> (rp_projection r);
      rp_live_tombstones := if is_tombstone v then {[key]} ∪ rp_live_tombstones r else rp_live_tombstones r ∖ {[key]};
      rp_members := rp_members r; rp_tombstone_acks := rp_tombstone_acks r;
      rp_generations := Journal.record_entry (rp_generations r) key v;
      rp_changes := rp_changes r; rp_collision_reported := rp_collision_reported r |}, rp_map r !! key).

Definition just_insert (r : Replica) (key : K) (v : E) : Replica * option E :=
  let '(r, ret) := map_insert r key v in (record_changes r 1, ret).

Definition just_insert_bulk (r : Replica) (key_values : list (K * E)) : Replica :=
  record_changes (fold_left (λ r '(key, v), (map_insert r key v).1) key_values r) (len key_values).

(** The stores of [get_mut] and [mutate_live_checked] after an in-place edit to [e]. *)
Definition store_mutated (r : Replica) (key : K) (e : E) : Replica :=
  record_changes
    {| rp_map := <[key := e]> (rp_map r); rp_projection := <[key := project e]> (rp_projection r);
       rp_live_tombstones := rp_live_tombstones r; rp_members := rp_members r;
       rp_tombstone_acks := rp_tombstone_acks r; rp_generations := Journal.record_entry (rp_generations r) key e;
       rp_changes := rp_changes r; rp_collision_reported := rp_collision_reported r |} 1.

(** [get_mut] from its stamp [now] on; the answer is what it broadcasts. *)
Definition get_mut (r : Replica) (now : S) (key : K) (callback : V → V) : Replica * option E :=
  match rp_map r !! key with
  | Some entry =>
      let entry := set_stamp (value_mut callback entry) now in
      (store_mutated r key entry, Some entry)
  | None => (r, None)
  end.

Definition mutate_live_checked {Er} (r : Replica) (now : S) (key : K) (callback : V → V) (validate : V → result unit Er)
    : option (Replica * result (option E) Er) :=
  match rp_map r !! key with
  | Some entry =>
      match value entry with
      | Some _ =>
          let entry := set_stamp (value_mut callback entry) now in
          v ← value entry;
          Some (match validate v with Ok _ => (store_mutated r key entry, Ok (Some entry)) | Err err => (r, Err err) end)
      | None => Some (r, Ok None)
      end
  | None => Some (r, Ok None)
  end.

(** ** Acknowledgements *)

Definition set_acks (r : Replica) (acks : gmap K (gmap P N)) (g : GenerationState K E P) : Replica :=
  {| rp_map := rp_map r; rp_projection := rp_projection r; rp_live_tombstones := rp_live_tombstones r;
     rp_members := rp_members r; rp_tombstone_acks := acks; rp_generations := g;
     rp_changes := rp_changes r; rp_collision_reported := rp_collision_reported r |}.

(** One turn of the loop of [record_tombstone_acks], which counts what it changed. *)
Definition record_tombstone_ack (peer : P) (st : Replica * N) (ack : K * N) : Replica * N :=
  let '(r, changed) := st in
  let '(key, version) := ack in
  if match rp_map r !! key with Some v => is_tombstone v | None => false end then
    let row := default ∅ (rp_tombstone_acks r !! key) in
    let acks := <[key := <[peer := version]> row]> (rp_tombstone_acks r) in
    if decide (row !! peer = Some version) then (set_acks r acks (rp_generations r), changed)
    else (set_acks r acks (Journal.record_ack (rp_generations r) key peer (Some version)), (changed + 1)%N)
  else (r, changed).

Definition record_tombstone_acks (r : Replica) (acks : list (K * N)) (peer : P) : Replica :=
  match acks with
  | [] => r
  | _ => let '(r, changed) := fold_left (record_tombstone_ack peer) acks (r, 0%N) in record_changes r changed
  end.

Definition all_members_acknowledged (members : gset P) (tombstone_acks : gmap K (gmap P N)) (key : K) (version : N) : bool :=
  if decide (members = ∅) then true
  else match tombstone_acks !! key with
       | None => false
       | Some key_acks => forallb (λ peer, bool_decide (key_acks !! peer = Some version)) (elements members)
       end.

Definition replica_tombstone_stable (r : Replica) (key : K) (version : N) : bool :=
  all_members_acknowledged (rp_members r) (rp_tombstone_acks r) key version.

Definition has_pending_tombstone_acks (r : Replica) (peer : P) : bool :=
  existsb (λ key, match rp_map r !! key with
                  | None => false
                  | Some entry => negb (bool_decide (
                      rp_tombstone_acks r !! key ≫= (λ row, row !! peer) = Some (version_hash entry)))
                  end) (elements (rp_live_tombstones r)).

(** ** Collection

    [now_ms] is the wall clock in milliseconds, if not before the epoch; [retention] is in
    nanoseconds. *)

Definition gc_candidate (r : Replica) (key : K) (expected : S) (now_ms : option N) (retention : N) : Replica * option E :=
  match rp_map r !! key with
  | None => (r, None)
  | Some entry =>
      if negb (is_tombstone entry) || negb (bool_decide (stamp entry = expected)) then (r, None)
      else
        match now_ms with
        | None => (r, None)
        | Some now_ms =>
            let expires := (physical_millis (stamp entry) + retention / 1000000)%N in
            if (now_ms <=? expires)%N || negb (replica_tombstone_stable r key (version_hash entry)) then (r, None)
            else
              let g := Journal.record_physical_delete (rp_generations r) key in
              let had_acks := bool_decide (is_Some (rp_tombstone_acks r !! key)) in
              (record_changes
                 {| rp_map := delete key (rp_map r); rp_projection := delete key (rp_projection r);
                    rp_live_tombstones := rp_live_tombstones r ∖ {[key]}; rp_members := rp_members r;
                    rp_tombstone_acks := delete key (rp_tombstone_acks r);
                    rp_generations := if had_acks then Journal.record_ack_key_clear g key else g;
                    rp_changes := rp_changes r; rp_collision_reported := rp_collision_reported r |}
                 (1 + if had_acks then 1 else 0)%N, Some entry)
        end
  end.

Definition gc_collect (r : Replica) (key : K) (expected : S) (now_ms : option N) (retention : N)
    : Replica * option E :=
  if negb has_collection_proof then (r, None) else gc_candidate r key expected now_ms retention.

(** ** Membership *)

Definition set_members (r : Replica) (members : gset P) (acks : gmap K (gmap P N)) (g : GenerationState K E P) : Replica :=
  {| rp_map := rp_map r; rp_projection := rp_projection r; rp_live_tombstones := rp_live_tombstones r;
     rp_members := members; rp_tombstone_acks := acks; rp_generations := g;
     rp_changes := rp_changes r; rp_collision_reported := rp_collision_reported r |}.

(** The end of the receive loop for a sender that spoke the dated channel. *)
Definition admit_member (r : Replica) (sender : P) : Replica :=
  if decide (sender ∈ rp_members r) then r
  else record_changes (set_members r ({[sender]} ∪ rp_members r) (rp_tombstone_acks r)
                         (Journal.record_member (rp_generations r) sender true)) 1.

(** The loop of [decommission_peer] over the acknowledgement rows. *)
Definition forget_acks (peer : P) (rows : list (K * gmap P N)) (st : gmap K (gmap P N) * GenerationState K E P * N)
    : gmap K (gmap P N) * GenerationState K E P * N :=
  fold_left (λ '(acks, g, changed) '(key, key_acks),
    (<[key := delete peer key_acks]> acks,
     if decide (is_Some (key_acks !! peer)) then Journal.record_ack g key peer None else g,
     if decide (is_Some (key_acks !! peer)) then (changed + 1)%N else changed)) rows st.

Definition decommission_peer (r : Replica) (peer : P) : Replica :=
  let removed := bool_decide (peer ∈ rp_members r) in
  let g := if removed then Journal.record_member (rp_generations r) peer false else rp_generations r in
  let '(acks, g, changed) :=
    forget_acks peer (map_to_list (rp_tombstone_acks r)) (rp_tombstone_acks r, g, if removed then 1%N else 0%N) in
  record_changes (set_members r (rp_members r ∖ {[peer]}) acks g) changed.

(** ** Remote updates *)

(** The pass of [apply_dated_updates] under the read snapshot: what may change the state, and the
    acknowledgements of tombstones at least as new. *)
Fixpoint plan_updates (m : gmap K E) (c : C) (updates : list (K * E)) : C * list (K * E) * list (K * N) :=
  match updates with
  | [] => (c, [], [])
  | (k, remote) :: updates =>
      let '(c, to_apply, acks) := plan_updates m (clock_observe c (stamp remote)) updates in
      match m !! k with
      | Some local =>
          if ord_ltb (stamp local) (stamp remote) then (c, (k, remote) :: to_apply, acks)
          else if is_tombstone local then (c, to_apply, (k, version_hash local) :: acks)
          else (c, to_apply, acks)
      | None => (c, (k, remote) :: to_apply, acks)
      end
  end.

Definition is_node_id_collision (local remote : E) : bool :=
  bool_decide (stamp local = stamp remote)
  && negb (bool_decide (state_digest (state local) = state_digest (state remote))).

Definition report_collision (r : Replica) : Replica :=
  {| rp_map := rp_map r; rp_projection := rp_projection r; rp_live_tombstones := rp_live_tombstones r;
     rp_members := rp_members r; rp_tombstone_acks := rp_tombstone_acks r; rp_generations := rp_generations r;
     rp_changes := rp_changes r; rp_collision_reported := true |}.

(** One turn of the loop under the write lock. *)
Definition apply_update (st : Replica * list (K * N)) (update : K * E) : Replica * list (K * N) :=
  let '(r, acks) := st in
  let '(k, v) := update in
  let r := match rp_map r !! k with
           | Some local => if is_node_id_collision local v then report_collision r else r
           | None => r
           end in
  let merged := match rp_map r !! k with Some local => merge local v | None => v end in
  ((map_insert r k merged).1, acks ++ if is_tombstone merged then [(k, version_hash merged)] else []).

Definition commit_updates (r : Replica) (to_apply : list (K * E)) (acks : list (K * N)) : Replica * list (K * N) :=
  match to_apply with
  | [] => (r, acks)
  | _ => let '(r, acks) := fold_left apply_update to_apply (r, acks) in (record_changes r (len to_apply), acks)
  end.

(** [apply_dated_updates] with [meanwhile] the effect of the hooks and of the other tasks between
    the two passes; the answer is the acknowledgements to send. *)
Definition apply_dated_updates (r : Replica) (c : C) (updates : list (K * E)) (meanwhile : Replica → Replica)
    : Replica * C * list (K * N) :=
  match updates with
  | [] => (r, c, [])
  | _ =>
      let '(c, to_apply, acks) := plan_updates (rp_map r) c updates in
      let '(r, acks) := commit_updates (meanwhile r) to_apply acks in
      (r, c, acks)
  end.

(** ** Snapshots and restart *)

Definition replica_runtime (r : Replica) : PersistedState K E P :=
  {| st_entries := rp_map r; st_members := rp_members r; st_acks := rp_tombstone_acks r |}.

Definition set_generations (r : Replica) (g : GenerationState K E P) : Replica :=
  set_members r (rp_members r) (rp_tombstone_acks r) g.

(** The end of a successful save: the changes and the generation it covers are retired; [None] is
    the assertion of [snapshot_inner] failing. *)
Definition retire_generation (r : Replica) (frozen_generation : option (SnapshotGeneration K E P)) : option Replica :=
  let counted := match frozen_generation with Some generation => g_raw_changes generation | None => 0%N end in
  let r := retire_change_count r counted in
  match frozen_generation with
  | None => Some r
  | Some generation =>
      let '(g, committed) := commit (rp_generations r) (g_id generation) in
      if committed then Some (set_generations r g) else None
  end.

(** [snapshot_inner], with [before_cut] and [during_save] what other tasks do before the state is
    collected and while it is saved. *)
Definition snapshot_inner (r : Replica) (b : B) (before_cut during_save : Replica → Replica)
    : option (Replica * B * result unit unit) :=
  let '(g, frozen_generation) := freeze (rp_generations r) in
  let r := set_generations r g in
  let '(b, handled) := try_save_delta b (persistence_delta <$> frozen_generation) in
  let '(r, b, save_result) :=
    match handled with
    | Ok true => (r, b, Ok tt)
    | Ok false =>
        let r := before_cut r in
        let '(b, save_result) := save b (replica_runtime r) in (r, b, save_result)
    | Err e => (r, b, Err e)
    end in
  let r := during_save r in
  match save_result with
  | Ok _ => r ← retire_generation r frozen_generation; Some (r, b, Ok tt)
  | Err e => Some (r, b, Err e)
  end.

(** [with_persistence] once the state is loaded; [loaded] lists its entries. *)
Definition install_loaded (r : Replica) (c : C) (loaded : option (list (K * E) * gset P * gmap K (gmap P N)))
    : Replica * C :=
  match loaded with
  | None => (r, c)
  | Some (entries, members, acks) =>
      let r := set_members r members acks (set_tracking_enabled (rp_generations r) false) in
      let c := fold_left (λ c '(_, entry), clock_observe_trusted c (stamp entry)) entries c in
      let r := just_insert_bulk r entries in
      let r := set_generations r (reset_clean (rp_generations r)) in
      (retire_change_count r (rp_changes r), c)
  end.
End replica.
Arguments Replica K E St P {_ _ _ _} : assert.
