(* ===== verification/Samples.v ===== *)
(** * Concrete entries

    A register with numeric stamps, on which the witnesses of the replica's theorems evaluate. *)
From stdpp Require Import gmap.
From Stdlib Require Import NArith.
From S2P Require Import Prelude SignedCausal Replica.

(** An entry is twice its stamp, plus one for a tombstone. *)
Definition small_lww : Lww N N N N := {|
  present s v := (2 * s)%N; tombstone s := (2 * s + 1)%N; stamp e := (e / 2)%N; is_tombstone := N.odd;
  merge x y := if (x / 2 <? y / 2)%N then y else x; digest e := [e]; clock_now c := (c + 1, c + 1)%N;
  clock_observe c s := N.max c s; clock_observe_trusted c s := N.max c s |}.
Definition small_state : EntryState N N N bool := {|
  state := N.odd; project := N.odd; value e := if N.odd e then None else Some 0%N; value_mut f e := e;
  set_stamp e s := (2 * s + N.b2n (N.odd e))%N; state_digest b := [N.b2n b]; physical_millis s := s |}.

#[local] Existing Instances small_lww small_state.

Lemma small_stamped (e s : N) : is_tombstone (set_stamp (V := N) (St := bool) e s) = is_tombstone e.
Proof. cbn [is_tombstone small_lww set_stamp small_state]. rewrite N.odd_add, N.odd_mul. cbn. by destruct (N.odd e). Qed.

Lemma small_merge (x y : N) : merge x y = if ord_ltb (stamp x) (stamp y) then y else x.
Proof. cbn [merge stamp small_lww]. unfold ord_ltb. cbn [ord_leb N_ord]. by rewrite N.ltb_antisym. Qed.
