(* ===== verification/ReplicaInv.v ===== *)
(** * The replica's indexes, journal and counter agree with its map

    Every critical section keeps the projection and the tombstone index in step with the map,
    journals exactly the mutations it makes and counts each of them once. *)
From stdpp Require Import gmap list relations.
From Stdlib Require Import NArith.
From S2P Require Import Prelude Journal Durability SignedCausal Replica.

(** ** Counting journalled changes *)

Section pending.
Context {K E P : Type} `{Countable K, Countable P}.
Implicit Types (g : GenerationState K E P) (ms : list (Mutation (K := K) (E := E) (P := P))).

(** The raw changes journalled and not yet retired. *)
Definition pending_changes g : N :=
  (g_raw_changes (gs_open g) + match frozen g with Some f => g_raw_changes f | None => 0 end)%N.

Lemma raw_journal m g : tracking_enabled g = true →
  g_raw_changes (gs_open (journal m g)) = saturating_add (g_raw_changes (gs_open g)) 1 ∧ frozen (journal m g) = frozen g.
Proof.
  intros Ht. destruct m; cbn [journal];
    unfold record_entry, record_physical_delete, record_member, record_ack, record_ack_key_clear, with_open; by rewrite Ht.
Qed.

Lemma pending_journal_all ms g : tracker_ok g →
  (pending_changes g ≤ pending_changes (journal_all ms g))%N ∨ (usize_max ≤ pending_changes (journal_all ms g))%N.
Proof.
  unfold journal_all. revert g; induction ms as [|m ms IH]; intros g Hg; cbn [fold_left]; [left; lia|].
  destruct (journal_ok m g Hg) as [Hg' _]. destruct (raw_journal m g (proj1 Hg)) as [Hr Hf].
  assert (Hm : (pending_changes g ≤ pending_changes (journal m g))%N ∨ (usize_max ≤ pending_changes (journal m g))%N).
  { unfold pending_changes. rewrite Hr, Hf. unfold saturating_add. lia. }
  destruct (IH _ Hg'), Hm; [left|right|right|right]; lia.
Qed.

Lemma pending_journal_all_eq ms g : tracker_ok g → (pending_changes (journal_all ms g) < usize_max)%N →
  pending_changes (journal_all ms g) = (pending_changes g + len ms)%N.
Proof.
  unfold journal_all. revert g; induction ms as [|m ms IH]; intros g Hg Hlt; cbn [fold_left length]; [lia|].
  destruct (journal_ok m g Hg) as [Hg' _]. destruct (raw_journal m g (proj1 Hg)) as [Hr Hf]. cbn [fold_left] in Hlt.
  pose proof (IH _ Hg' Hlt) as Heq. pose proof (pending_journal_all ms _ Hg') as Hmono. unfold journal_all in Hmono.
  rewrite Heq in *. unfold pending_changes in *. rewrite Hr, Hf in *. unfold saturating_add in *. lia.
Qed.
End pending.

Lemma wrapping_add64_assoc x a b : wrapping_add64 (wrapping_add64 x a) b = wrapping_add64 x (a + b).
Proof. unfold wrapping_add64. rewrite N.Div0.add_mod_idemp_l. f_equal. lia. Qed.

Section replica_inv.
Context {K V S E C St P B : Type} `{Countable K, Countable P} `{Lww V S E C} `{!EntryState V S E St}
  `{!RustOrd S} `{!EqDecision S} `{!Persistence K E P B}.
Implicit Types (r : Replica K E St P) (ms : list (Mutation (K := K) (E := E) (P := P))).

(** ** The index of tombstones and the projection *)

Record indexed r : Prop := {
  ix_projection : rp_projection r = project <$> rp_map r;
  ix_tombstones : ∀ k, k ∈ rp_live_tombstones r ↔ ∃ e, rp_map r !! k = Some e ∧ is_tombstone e = true;
}.

(** [r'] is [r] with entry [e] stored at [k] in the map, the projection and the index. *)
Lemma indexed_insert r r' k e :
  indexed r → rp_map r' = <[k := e]> (rp_map r) → rp_projection r' = <[k := project e]> (rp_projection r) →
  rp_live_tombstones r' = (if is_tombstone e then {[k]} ∪ rp_live_tombstones r else rp_live_tombstones r ∖ {[k]}) →
  indexed r'.
Proof.
  intros [Hp Ht] Em Ep Et. constructor; [by rewrite Ep, Em, Hp, fmap_insert|]. intros k'. rewrite Em, Et.
  destruct (decide (k = k')) as [<-|Hne].
  - rewrite lookup_insert_eq. destruct (is_tombstone e) eqn:He; split; intros Hk.
    + by exists e.
    + set_solver.
    + set_solver.
    + destruct Hk as (? & [= <-] & ?). congruence.
  - rewrite lookup_insert_ne by done. rewrite <- Ht. destruct (is_tombstone e); set_solver.
Qed.

Lemma indexed_delete r r' k :
  indexed r → rp_map r' = delete k (rp_map r) → rp_projection r' = delete k (rp_projection r) →
  rp_live_tombstones r' = rp_live_tombstones r ∖ {[k]} → indexed r'.
Proof.
  intros [Hp Ht] Em Ep Et. constructor; [by rewrite Ep, Em, Hp, fmap_delete|]. intros k'. rewrite Em, Et.
  destruct (decide (k = k')) as [<-|Hne].
  - rewrite lookup_delete_eq. split; [set_solver|]. by intros (? & ? & _).
  - rewrite lookup_delete_ne by done. rewrite <- Ht. set_solver.
Qed.

Lemma indexed_same r r' :
  indexed r → rp_map r' = rp_map r → rp_projection r' = rp_projection r →
  rp_live_tombstones r' = rp_live_tombstones r → indexed r'.
Proof. intros [Hp Ht] Em Ep Et. constructor; [congruence|]. intros k. rewrite Et, Em. apply Ht. Qed.

(** ** What a critical section journals *)

Definition records ms r r' : Prop :=
  replica_runtime r' ≡ mutate_all ms (replica_runtime r) ∧ rp_generations r' = journal_all ms (rp_generations r).

Lemma records_nil r : records [] r r.
Proof. by split. Qed.

Lemma records_trans ms ms' r1 r2 r3 : records ms r1 r2 → records ms' r2 r3 → records (ms ++ ms') r1 r3.
Proof.
  intros [E1 G1] [E2 G2]. split; [|rewrite journal_all_app; congruence].
  rewrite mutate_all_app, E2. by apply mutate_all_proper.
Qed.

Lemma records_one m r r' :
  replica_runtime r' ≡ mutate m (replica_runtime r) → rp_generations r' = journal m (rp_generations r) → records [m] r r'.
Proof. by split. Qed.

(** A step: it journals what it changes, counts it, and keeps the indexes. *)
Definition logged r r' : Prop :=
  (∃ ms, records ms r r' ∧ rp_changes r' = wrapping_add64 (rp_changes r) (len ms)) ∧ (indexed r → indexed r').

Lemma logged_refl r : (rp_changes r < u64_modulus)%N → logged r r.
Proof.
  intros Hc. split; [|done]. exists []. split; [apply records_nil|]. unfold wrapping_add64. cbn.
  by rewrite N.add_0_r, N.mod_small.
Qed.

Lemma logged_trans r1 r2 r3 : logged r1 r2 → logged r2 r3 → logged r1 r3.
Proof.
  intros [(ms & R1 & C1) I1] [(ms' & R2 & C2) I2]. split; [|auto]. exists (ms ++ ms'). split; [by eapply records_trans|].
  rewrite C2, C1, wrapping_add64_assoc, length_app. f_equal. lia.
Qed.

(** Counting [n] changes after journalling [n]. *)
Lemma logged_counted ms r r' n :
  records ms r r' → rp_changes r' = rp_changes r → n = len ms → (indexed r → indexed r') → logged r (record_changes r' n).
Proof.
  intros [R G] Hc -> Hi. split.
  - exists ms. split; [by split|]. cbn. by rewrite Hc.
  - intros Hr. eapply indexed_same; [by apply Hi|done..].
Qed.

(** ** The critical sections *)

Lemma map_insert_records r k v :
  records [MEntry k v] r (map_insert r k v).1 ∧ rp_changes (map_insert r k v).1 = rp_changes r ∧
  (indexed r → indexed (map_insert r k v).1).
Proof. split_and!; [by apply records_one|done|]. intros Hr. by eapply indexed_insert. Qed.

Lemma just_insert_logged r k v : logged r (just_insert r k v).1.
Proof.
  destruct (map_insert_records r k v) as (R & Hc & Hi). unfold just_insert. destruct (map_insert r k v) as [r' ret].
  by eapply logged_counted.
Qed.

Lemma insert_fold_records l r :
  ∃ ms, let r' := fold_left (λ r '(key, v), (map_insert r key v).1) l r in
    records ms r r' ∧ rp_changes r' = rp_changes r ∧ (indexed r → indexed r') ∧ length ms = length l.
Proof.
  revert r. induction l as [|[k v] l IH]; intros r; cbn [fold_left].
  { exists []. split_and!; [apply records_nil|done|done|done]. }
  destruct (map_insert_records r k v) as (R & Hc & Hi). destruct (IH (map_insert r k v).1) as (ms & R' & Hc' & Hi' & Hl).
  exists ([MEntry k v] ++ ms). split_and!; [by eapply records_trans|congruence|auto|]. rewrite length_app, Hl. done.
Qed.

Lemma just_insert_bulk_logged r l : logged r (just_insert_bulk r l).
Proof.
  unfold just_insert_bulk. destruct (insert_fold_records l r) as (ms & R & Hc & Hi & Hl).
  eapply logged_counted; [done|done|by rewrite Hl|done].
Qed.

Lemma store_mutated_logged r k e e' : rp_map r !! k = Some e → is_tombstone e' = is_tombstone e → logged r (store_mutated r k e').
Proof.
  intros Hk He. unfold store_mutated. eapply (logged_counted [MEntry k e']); [by apply records_one|done|done|].
  intros Hr. eapply (indexed_insert r _ k e'); [done|done|done|]. cbn [rp_live_tombstones]. destruct Hr as [_ Ht].
  specialize (Ht k). destruct (is_tombstone e') eqn:Ht'.
  - apply set_eq. intros k'. assert (k ∈ rp_live_tombstones r) by (apply Ht; exists e; split; congruence). set_solver.
  - apply set_eq. intros k'. assert (k ∉ rp_live_tombstones r); [|set_solver]. rewrite Ht. intros (? & ? & ?). congruence.
Qed.

(** In-place edits keep an entry live or dead. *)
Context (tombstone_stamped : ∀ (e : E) (s : S), is_tombstone (set_stamp (V := V) (St := St) e s) = is_tombstone e)
        (tombstone_edited : ∀ f (e : E), is_tombstone (value_mut (S := S) (St := St) f e) = is_tombstone e).

Lemma get_mut_logged r now k f : (rp_changes r < u64_modulus)%N → logged r (get_mut r now k f).1.
Proof.
  intros Hc. unfold get_mut. destruct (rp_map r !! k) as [e|] eqn:Hk; [|by apply logged_refl].
  eapply store_mutated_logged; [done|]. by rewrite tombstone_stamped, tombstone_edited.
Qed.

Lemma mutate_live_logged {Er} r now k f (validate : V → result unit Er) r' res :
  (rp_changes r < u64_modulus)%N → mutate_live_checked r now k f validate = Some (r', res) → logged r r'.
Proof.
  intros Hc. unfold mutate_live_checked.
  destruct (rp_map r !! k) as [e|] eqn:Hk; [|intros [= <- <-]; by apply logged_refl].
  destruct (value e); [|intros [= <- <-]; by apply logged_refl]. destruct (value (set_stamp _ _)); cbn; [|done].
  destruct (validate _); intros [= <- <-]; [|by apply logged_refl].
  eapply store_mutated_logged; [done|]. by rewrite tombstone_stamped, tombstone_edited.
Qed.

(** A loop body that journals what it counts. *)
Definition tallies (st st' : Replica K E St P * N) : Prop :=
  ∃ ms, records ms st.1 st'.1 ∧ rp_changes st'.1 = rp_changes st.1 ∧ (indexed st.1 → indexed st'.1) ∧
    st'.2 = (st.2 + len ms)%N.

Lemma tallies_fold {A} (f : Replica K E St P * N → A → Replica K E St P * N) l st :
  (∀ st a, tallies st (f st a)) → tallies st (fold_left f l st).
Proof.
  intros Hf. revert st. induction l as [|a l IH]; intros st; cbn [fold_left].
  { exists []. split_and!; [apply records_nil|done|done|cbn; lia]. }
  destruct (Hf st a) as (ms & R & Hc & Hi & Hn), (IH (f st a)) as (ms' & R' & Hc' & Hi' & Hn').
  exists (ms ++ ms'). split_and!; [by eapply records_trans|congruence|auto|]. rewrite Hn', Hn, length_app. lia.
Qed.

Lemma ack_tallies peer st a : tallies st (record_tombstone_ack peer st a).
Proof.
  destruct st as [r n], a as [k v]. unfold record_tombstone_ack.
  assert (Hsame : tallies (r, n) (r, n)) by (exists []; split_and!; [apply records_nil|done|done|cbn; lia]).
  destruct (match rp_map r !! k with Some e => is_tombstone e | None => false end); [|done].
  case_decide as Hrow.
  - replace (<[k := _]> (rp_tombstone_acks r)) with (rp_tombstone_acks r); [by destruct r|].
    destruct (rp_tombstone_acks r !! k) as [m|] eqn:Hm; cbn in *; [|by rewrite lookup_empty in Hrow].
    rewrite (insert_id m) by done. by rewrite insert_id.
  - exists [MAck k peer (Some v)]. split_and!; [by apply records_one|done| |cbn; lia].
    intros Hr. by eapply indexed_same.
Qed.

Lemma record_tombstone_acks_logged r acks peer : (rp_changes r < u64_modulus)%N → logged r (record_tombstone_acks r acks peer).
Proof.
  intros Hc. unfold record_tombstone_acks. destruct acks as [|a acks]; [by apply logged_refl|].
  destruct (tallies_fold (record_tombstone_ack peer) (a :: acks) (r, 0%N) (ack_tallies peer)) as (ms & R & Hc' & Hi & Hn).
  destruct (fold_left _ _ _) as [r' changed]. cbn [fst snd] in *. eapply logged_counted; [done|done|lia|done].
Qed.

Lemma gc_candidate_logged r k expected now retention :
  (rp_changes r < u64_modulus)%N → logged r (gc_candidate r k expected now retention).1.
Proof.
  intros Hc. unfold gc_candidate. destruct (rp_map r !! k) as [e|] eqn:Hk; [|by apply logged_refl].
  case_test; [by apply logged_refl|]. destruct now as [now|]; [|by apply logged_refl].
  case_test; [by apply logged_refl|]. cbn [fst].
  case_bool_decide as Ha.
  - eapply (logged_counted [MDelete k; MClear k]); [by split|done|done|]. intros Hr. by eapply (indexed_delete r _ k).
  - eapply (logged_counted [MDelete k]); [|done|done|].
    + split; [|done]. apply same_intro; [done|done|]. intros k' p. cbn. rewrite delete_id; [done|]. by apply eq_None_not_Some.
    + intros Hr. by eapply (indexed_delete r _ k).
Qed.

Lemma admit_member_logged r p : (rp_changes r < u64_modulus)%N → logged r (admit_member r p).
Proof.
  intros Hc. unfold admit_member. case_decide; [by apply logged_refl|].
  eapply (logged_counted [MMember p true]); [by apply records_one|done|done|]. intros Hr. by eapply indexed_same.
Qed.

Lemma forget_acks_records p rows acks g n acks' g' n' :
  NoDup rows.*1 → (∀ k row, (k, row) ∈ rows → acks !! k = Some row) →
  forget_acks p rows (acks, g, n) = (acks', g', n') →
  ∃ ms, g' = journal_all ms g ∧ n' = (n + len ms)%N ∧
    ∀ e mem, mutate_all ms {| st_entries := e; st_members := mem; st_acks := acks |}
             = {| st_entries := e; st_members := mem; st_acks := acks' |} :> PersistedState K E P.
Proof.
  revert acks g n. induction rows as [|[k row] rows IH]; intros acks g n Hnd Hin; unfold forget_acks; cbn [fold_left].
  { intros [= <- <- <-]. exists []. split_and!; [done|cbn; lia|done]. }
  cbn in Hnd. apply NoDup_cons in Hnd as [Hk Hnd].
  assert (Hrow : acks !! k = Some row) by (apply Hin; left).
  intros Hd. edestruct (IH (<[k := delete p row]> acks)) as (ms & -> & -> & Hms); [done| |exact Hd|].
  { intros k' row' Hin'. rewrite lookup_insert_ne; [apply Hin; by right|]. intros <-. apply Hk.
    apply list_elem_of_fmap. by exists (k, row'). }
  exists ((if decide (is_Some (row !! p)) then [MAck k p None] else []) ++ ms). split_and!.
  - rewrite journal_all_app. by case_decide.
  - case_decide; rewrite length_app; cbn [length]; lia.
  - intros e mem. rewrite mutate_all_app, <- Hms. f_equal. case_decide as Hp; unfold mutate_all; cbn [fold_left mutate st_entries st_members st_acks].
    + unfold set_ack. by rewrite Hrow.
    + rewrite delete_id, insert_id; [done|done|]. by apply eq_None_not_Some.
Qed.

Lemma decommission_peer_logged r p : logged r (decommission_peer r p).
Proof.
  unfold decommission_peer. set (removed := bool_decide (p ∈ rp_members r)).
  destruct (forget_acks p _ _) as [[acks g] n] eqn:Hf.
  destruct (forget_acks_records _ _ _ _ _ _ _ _ (NoDup_fst_map_to_list _) (λ k row, proj1 (elem_of_map_to_list _ k row)) Hf)
    as (ms & Eg & -> & Hms).
  eapply (logged_counted ((if removed then [MMember p false] else []) ++ ms)).
  - split; [|subst g; rewrite journal_all_app; cbn; by destruct removed].
    rewrite mutate_all_app. unfold replica_runtime at 2, removed. case_bool_decide as Hp.
    + unfold mutate_all at 2. cbn [fold_left mutate st_entries st_members st_acks]. by rewrite Hms.
    + unfold mutate_all at 2. cbn [fold_left]. rewrite Hms. apply same_intro; [done| |done].
      intros p'. cbn. set_solver.
  - done.
  - rewrite length_app. destruct removed; cbn [length]; lia.
  - intros Hr. by eapply indexed_same.
Qed.


Lemma apply_fold_records l st :
  ∃ ms, let st' := fold_left apply_update l st in
    records ms st.1 st'.1 ∧ rp_changes st'.1 = rp_changes st.1 ∧ (indexed st.1 → indexed st'.1) ∧ length ms = length l.
Proof.
  revert st. induction l as [|[k v] l IH]; intros [r acks]; cbn [fold_left fst].
  { exists []. split_and!; [apply records_nil|done|done|done]. }
  destruct (IH (apply_update (r, acks) (k, v))) as (ms & R & Hc & Hi & Hl).
  assert (Hstep : ∃ m, records [m] r (apply_update (r, acks) (k, v)).1 ∧
    rp_changes (apply_update (r, acks) (k, v)).1 = rp_changes r ∧ (indexed r → indexed (apply_update (r, acks) (k, v)).1)).
  { unfold apply_update. cbn [fst]. set (r1 := match rp_map r !! k with Some _ => _ | None => r end).
    assert (Hsame : replica_runtime r1 = replica_runtime r ∧ rp_generations r1 = rp_generations r ∧
      rp_changes r1 = rp_changes r ∧ (indexed r → indexed r1)).
    { unfold r1. destruct (rp_map r !! k); [|done]. destruct (is_node_id_collision _ _); [|done].
      split_and!; [done|done|done|]. intros Hr. by eapply indexed_same. }
    destruct Hsame as (Er & Eg & Ec & Ei). destruct (map_insert_records r1 k (match rp_map r1 !! k with Some local => merge local v | None => v end))
      as ([R1 G1] & C1 & I1). rewrite Er, Eg in *. eexists. split_and!; [by split|congruence|auto]. }
  destruct Hstep as (m & R1 & C1 & I1). exists ([m] ++ ms).
  split_and!; [by eapply records_trans|congruence|auto|]. rewrite length_app, Hl. done.
Qed.

Lemma commit_updates_logged r l acks : (rp_changes r < u64_modulus)%N → logged r (commit_updates r l acks).1.
Proof.
  intros Hc. unfold commit_updates. destruct l as [|u l]; [by apply logged_refl|].
  destruct (apply_fold_records (u :: l) (r, acks)) as (ms & R & Hc' & Hi & Hl).
  destruct (fold_left _ _ _) as [r' acks']. cbn [fst] in *. eapply logged_counted; [done|done|by rewrite Hl|done].
Qed.

(** ** Steps and histories *)

(** One critical section by any task. Fewer than [usize::MAX] changes wait for a snapshot. *)
Inductive critical : Replica K E St P → Replica K E St P → Prop :=
| crit_insert r k v : critical r (just_insert r k v).1
| crit_bulk r l : critical r (just_insert_bulk r l)
| crit_get_mut r now k f : critical r (get_mut r now k f).1
| crit_mutate {Er} r now k f (validate : V → result unit Er) r' res : mutate_live_checked r now k f validate = Some (r', res) → critical r r'
| crit_acks r acks peer : critical r (record_tombstone_acks r acks peer)
| crit_collect r k expected now retention : critical r (gc_candidate r k expected now retention).1
| crit_member r p : critical r (admit_member r p)
| crit_decommission r p : critical r (decommission_peer r p)
| crit_updates r to_apply acks : critical r (commit_updates r to_apply acks).1.

Definition few_pending r : Prop := (pending_changes (rp_generations r) < usize_max)%N.
Definition task r r' : Prop := critical r r' ∧ few_pending r'.

Lemma critical_logged r r' : (rp_changes r < u64_modulus)%N → critical r r' → logged r r'.
Proof.
  intros Hc Hs. destruct Hs; eauto using just_insert_logged, just_insert_bulk_logged, get_mut_logged, mutate_live_logged,
    record_tombstone_acks_logged, gc_candidate_logged, admit_member_logged, decommission_peer_logged, commit_updates_logged.
Qed.

(** Everything that holds between critical sections. *)
Record consistent r (b : B) : Prop := {
  co_indexed : indexed r;
  co_counter : rp_changes r = pending_changes (rp_generations r);
  co_few : few_pending r;
  co_durable : durable (rp_generations r) b (replica_runtime r);
}.

Lemma pending_lt_modulus (n : N) : (n < usize_max)%N → (n < u64_modulus)%N.
Proof. unfold usize_max, u64_max, u64_modulus. lia. Qed.

Lemma consistent_logged r r' b : consistent r b → logged r r' → few_pending r' → consistent r' b.
Proof.
  intros [Hi Hn Hf Hd] [(ms & [R G] & Hc) Hi'] Hf'. constructor; [auto| |done|by eapply durable_recorded].
  unfold few_pending in *. rewrite G in *. rewrite pending_journal_all_eq in Hf' |- * by (apply Hd || done).
  rewrite Hc, Hn. unfold wrapping_add64. apply N.mod_small, pending_lt_modulus. lia.
Qed.

Lemma consistent_tasks r r' b : consistent r b → rtc task r r' → consistent r' b ∧ ∃ ms, records ms r r'.
Proof.
  intros Hr Hs. revert Hr. induction Hs as [r|r1 r2 r3 [Hc Hf] Hs IH]; intros Hr; [split; [done|exists []; apply records_nil]|].
  assert (Hl : logged r1 r2).
  { apply critical_logged; [|done]. rewrite (co_counter _ _ Hr). apply pending_lt_modulus, Hr. }
  destruct (IH (consistent_logged _ _ _ Hr Hl Hf)) as [? [ms' Hms']]. split; [done|].
  destruct Hl as [(ms & R & _) _]. exists (ms ++ ms'). by eapply records_trans.
Qed.

(** ** Snapshots *)

Lemma frozen_journal_all ms (g : GenerationState K E P) : tracker_ok g → frozen (journal_all ms g) = frozen g.
Proof.
  unfold journal_all. revert g; induction ms as [|m ms IH]; intros g Hg; cbn [fold_left]; [done|].
  destruct (journal_ok m g Hg) as [Hg' Hf]. by rewrite IH.
Qed.

Lemma freeze_pending (g g' : GenerationState K E P) fz : freeze g = (g', fz) → pending_changes g' = pending_changes g.
Proof.
  unfold freeze, pending_changes. destruct (frozen g) as [f|] eqn:Hf; [intros [= <- _]; by rewrite Hf|].
  case_test; intros [= <- _]; [by rewrite Hf|]. cbn. lia.
Qed.

Lemma set_generations_consistent r g b :
  consistent r b → pending_changes g = pending_changes (rp_generations r) → durable g b (replica_runtime r) →
  consistent (set_generations r g) b.
Proof.
  intros [Hi Hn Hf Hd] Hp Hd'. constructor; [by eapply indexed_same|cbn; congruence| |done].
  unfold few_pending in *. cbn. congruence.
Qed.

Lemma consistent_backend r b b' : consistent r b → durable (rp_generations r) b' (replica_runtime r) → consistent r b'.
Proof. intros [Hi Hn Hf Hd] Hd'. by constructor. Qed.

(** Retiring the frozen generation once the backend covers it. *)
Lemma retire_consistent r b :
  consistent r b → settled (rp_generations r) b (replica_runtime r) →
  ∃ r', retire_generation r (frozen (rp_generations r)) = Some r' ∧ consistent r' b ∧ frozen (rp_generations r') = None ∧
    settled (rp_generations r') b (replica_runtime r').
Proof.
  intros [Hi Hn Hf Hd] Hs. unfold retire_generation. destruct (frozen (rp_generations r)) as [f|] eqn:Hfz.
  - cbn [rp_generations retire_change_count set_changes].
    destruct (commit_durable _ _ _ _ Hd Hfz Hs) as (Hc & Hd' & Hfr & Ho). destruct (commit _ _) as [g c]. cbn [fst snd] in *.
    subst c. eexists. split; [done|].
    assert (Hp : saturating_sub (rp_changes r) (g_raw_changes f) = pending_changes g ∧
      (pending_changes g ≤ pending_changes (rp_generations r))%N).
    { rewrite Hn. unfold pending_changes, saturating_sub. rewrite Hfz, Hfr, Ho. lia. }
    split; [|split; [done|]].
    + constructor; [by eapply indexed_same|apply Hp| |exact Hd']. unfold few_pending in *. cbn. lia.
    + destruct Hs as (d & ? & ?). exists d. split; [done|]. unfold open_delta in *. cbn. by rewrite Ho.
  - eexists. split; [done|]. split; [|done]. constructor; [by eapply indexed_same| |done|done].
    cbn. unfold saturating_sub. lia.
Qed.

(** Other tasks between the save and the retirement change nothing to that. *)
Lemma finish_consistent r r' b :
  consistent r b → settled (rp_generations r) b (replica_runtime r) → rtc task r r' →
  ∃ r2, retire_generation r' (frozen (rp_generations r)) = Some r2 ∧ consistent r2 b ∧ frozen (rp_generations r2) = None ∧
    settled (rp_generations r2) b (replica_runtime r2).
Proof.
  intros Hr Hs Htasks. destruct (consistent_tasks _ _ _ Hr Htasks) as [Hr' (ms & R & G)].
  assert (Hg : tracker_ok (rp_generations r)) by apply Hr.
  rewrite <- (frozen_journal_all ms (rp_generations r)) by done. rewrite <- G.
  apply retire_consistent; [done|]. by eapply settled_recorded.
Qed.

Lemma snapshot_consistent r b before_cut during_save :
  consistent r b → (∀ r, rtc task r (before_cut r)) → (∀ r, rtc task r (during_save r)) →
  ∃ r' b' res, snapshot_inner r b before_cut during_save = Some (r', b', res) ∧ consistent r' b' ∧
    (res = Ok tt → frozen (rp_generations r') = None ∧ settled (rp_generations r') b' (replica_runtime r')).
Proof.
  intros Hr Hbc Hds. unfold snapshot_inner. destruct (freeze (rp_generations r)) as [g fz] eqn:Hf.
  destruct (freeze_durable _ _ _ _ _ (co_durable _ _ Hr) Hf) as (Hg & Hfz & _).
  pose proof (set_generations_consistent _ _ _ Hr (freeze_pending _ _ _ Hf) Hg) as Hr1. set (r1 := set_generations r g) in *.
  change g with (rp_generations r1) in Hfz. clearbody r1. rewrite <- Hfz.
  destruct (try_save_delta b _) as [b1 handled] eqn:Htry.
  destruct (delta_durable _ _ _ _ _ (co_durable _ _ Hr1) Htry) as [Hd1 Hs1].
  pose proof (consistent_backend _ _ _ Hr1 Hd1) as Hr2. destruct handled as [[]|e].
  - destruct (finish_consistent r1 (during_save r1) b1) as (r' & E1 & ? & ? & ?); [done|by apply Hs1|done|].
    cbn zeta iota. rewrite E1. by exists r', b1, (Ok tt).
  - destruct (save b1 (replica_runtime (before_cut r1))) as [b2 res] eqn:Hsave.
    destruct (consistent_tasks _ _ _ Hr2 (Hbc r1)) as [Hr3 (ms & R & G)].
    destruct (full_durable _ _ _ _ _ (co_durable _ _ Hr3) Hsave) as [Hd3 Hs3].
    pose proof (consistent_backend _ _ _ Hr3 Hd3) as Hr4. destruct res as [[]|e].
    + destruct (finish_consistent (before_cut r1) (during_save (before_cut r1)) b2) as (r' & E1 & ? & ? & ?);
        [done|by apply Hs3|done|]. rewrite G, frozen_journal_all in E1 by apply Hr2.
      cbn zeta iota. rewrite E1. by exists r', b2, (Ok tt).
    + eexists _, _, _. split; [done|]. split; [|done]. by apply (consistent_tasks _ _ _ Hr4 (Hds _)).
  - eexists _, _, _. split; [done|]. split; [|done]. by apply (consistent_tasks _ _ _ Hr2 (Hds _)).
Qed.
End replica_inv.
