(* ===== verification/ReplicaProps.v ===== *)
(** * What the replica's dated state guarantees

    Consistency of everything derived from the map under any interleaving of tasks and snapshots,
    and convergence of replicas whose remote batches overlap. *)
From stdpp Require Import gmap list relations.
From Stdlib Require Import NArith.
From S2P Require Import Prelude Journal Durability SignedCausal Replica ReplicaInv Samples.

Section start.
Context {K V S E C St P B : Type} `{Countable K, Countable P} `{Lww V S E C} `{!EntryState V S E St}
  `{!RustOrd S} `{!EqDecision S} `{!Persistence K E P B}.
Implicit Types (r : Replica K E St P).

(** ** Start *)

Definition saved_parts (d : PersistedState K E P) : list (K * E) * gset P * gmap K (gmap P N) :=
  (map_to_list (st_entries d), st_members d, st_acks d).

(** A replica just constructed over a backend. *)
Definition installed r (b : B) : Prop := ∃ o c,
  load b = Ok o ∧ (install_loaded (replica_new : Replica K E St P) c (saved_parts <$> o)).1 = r.

Lemma insert_fold_map (l : list (K * E)) r : NoDup l.*1 →
  let r' := fold_left (λ r '(key, v), (map_insert r key v).1) l r in
  rp_map r' = list_to_map l ∪ rp_map r ∧ rp_members r' = rp_members r ∧ rp_tombstone_acks r' = rp_tombstone_acks r.
Proof.
  revert r. induction l as [|[k e] l IH]; intros r Hnd; cbn [fold_left].
  { split; [|done]. cbn. by rewrite (left_id_L ∅ (∪)). }
  cbn in Hnd. apply NoDup_cons in Hnd as [Hk Hnd]. destruct (IH (map_insert r k e).1 Hnd) as (-> & -> & ->).
  split; [|done]. cbn. rewrite <- insert_union_l, <- insert_union_r; [done|]. by apply not_elem_of_list_to_map.
Qed.

Lemma indexed_new : indexed (replica_new : Replica K E St P).
Proof. constructor; cbn; [by rewrite fmap_empty|]. intros k. rewrite lookup_empty. split; [set_solver|]. by intros (? & ? & _). Qed.

Lemma installed_consistent r b : backend_ok b → installed r b → consistent r b.
Proof.
  intros Hb (o & c & Hl & <-). destruct o as [d|]; cbn [fmap option_fmap option_map saved_parts install_loaded fst].
  - set (r1 := set_members _ _ _ _). set (l := map_to_list (st_entries d)).
    destruct (insert_fold_map l r1 (NoDup_fst_map_to_list _)) as (Em & Emem & Eack).
    destruct (insert_fold_records l r1) as (ms & _ & _ & Hi & _).
    assert (Ert : ∀ r, rp_map r = list_to_map l ∪ rp_map r1 → rp_members r = rp_members r1 →
      rp_tombstone_acks r = rp_tombstone_acks r1 → replica_runtime r = d).
    { intros r Hm Hmem Hack. unfold replica_runtime. rewrite Hm, Hmem, Hack. unfold r1, l. cbn.
      rewrite list_to_map_to_list, (right_id_L ∅ (∪)). by destruct d. }
    constructor.
    + eapply indexed_same; [apply Hi|done|done|done]. eapply indexed_same; [apply indexed_new|done..].
    + cbn [rp_changes retire_change_count set_changes]. unfold saturating_sub. by rewrite N.sub_diag.
    + change (0 < usize_max)%N. done.
    + assert (Htr : ∀ g, gs_open g = SnapshotGeneration_default → frozen g = None → tracks g d (d : PersistedState K E P)).
      { intros g Ho Hf. unfold tracks, open_delta. rewrite Ho, Hf. by apply empty_delta. }
      rewrite (Ert _) by done. constructor; [done|exists d; by apply Htr|done|]. intros d'. rewrite Hl. intros [= <-]. by apply Htr.
  - constructor; [apply indexed_new|done|done|].
    constructor; [done| |done|].
    + exists PersistedState_default. unfold tracks, open_delta. by apply empty_delta.
    + intros d. by rewrite Hl.
Qed.
End start.

(** Histories: tasks and snapshots in any order, other tasks running during a snapshot. *)
Section histories.
Context {K V S E C St P B : Type} `{Countable K, Countable P} `{Lww V S E C} `{!EntryState V S E St}
  `{!RustOrd S} `{!EqDecision S} `{!Persistence K E P B}.

Definition between_tasks (f : Replica K E St P → Replica K E St P) : Prop := ∀ r, rtc task r (f r).

Inductive history : Replica K E St P → B → Prop :=
| history_start r b : backend_ok b → installed r b → history r b
| history_task r r' b : history r b → task r r' → history r' b
| history_snapshot r b before_cut during_save r' b' res :
    history r b → between_tasks before_cut → between_tasks during_save →
    snapshot_inner r b before_cut during_save = Some (r', b', res) → history r' b'.

Context (tombstone_stamped : ∀ (e : E) (s : S), is_tombstone (set_stamp (V := V) (St := St) e s) = is_tombstone e)
        (tombstone_edited : ∀ f (e : E), is_tombstone (value_mut (S := S) (St := St) f e) = is_tombstone e).

Lemma history_consistent r b : history r b → consistent r b.
Proof.
  induction 1 as [r b Hb Hi|r r' b _ IH Ht|r b bc ds r' b' res _ IH Hbc Hds Hs]; [by apply installed_consistent| |].
  - by apply (consistent_tasks tombstone_stamped tombstone_edited r r' b IH), rtc_once.
  - destruct (snapshot_consistent tombstone_stamped tombstone_edited _ _ _ _ IH Hbc Hds) as (? & ? & ? & E1 & ? & _).
    rewrite Hs in E1. by injection E1 as -> -> ->.
Qed.

(** C9. After any history of writes, remote batches, acknowledgements, membership changes,
    collections and snapshots, failed ones included, with other tasks running inside them: the
    projection and the tombstone index are those of the map, the change counter is the number of
    journalled changes not yet retired, whatever the backend loads replays to the runtime state,
    and the next snapshot cannot panic and leaves nothing frozen when it answers [Ok]. *)
Theorem replica_always_consistent r b before_cut during_save :
  history r b → between_tasks before_cut → between_tasks during_save →
  rp_projection r = project <$> rp_map r ∧
  (∀ k, k ∈ rp_live_tombstones r ↔ ∃ e, rp_map r !! k = Some e ∧ is_tombstone e = true) ∧
  rp_changes r = pending_changes (rp_generations r) ∧
  (∀ d, load b = Ok (Some d) →
    apply_delta (open_delta (rp_generations r)) (apply_opt (frozen (rp_generations r)) d) ≡ replica_runtime r) ∧
  ∃ r' b' res, snapshot_inner r b before_cut during_save = Some (r', b', res) ∧
    (res = Ok tt → frozen (rp_generations r') = None ∧
      ∃ d, load b' = Ok (Some d) ∧ apply_delta (open_delta (rp_generations r')) d ≡ replica_runtime r').
Proof.
  intros Hh Hbc Hds. pose proof (history_consistent r b Hh) as Hc. destruct Hc as [[Hp Ht] Hn _ Hd].
  split_and!; [done|done|done|apply Hd|].
  destruct (snapshot_consistent tombstone_stamped tombstone_edited _ _ _ _ (history_consistent r b Hh) Hbc Hds)
    as (r' & b' & res & E1 & _ & Hok). by exists r', b', res.
Qed.
End histories.

(** ** Overlapping remote batches *)

Section convergence.
Context {K V S E C St P : Type} `{Countable K, Countable P} `{Lww V S E C} `{!EntryState V S E St}
  `{!RustOrd S} `{!EqDecision S}.
Implicit Types (r : Replica K E St P) (D l : list (K * E)) (pool : list (list (K * E))).

Definition at_most (e e' : E) : Prop := ord_leb (stamp e) (stamp e') = true.

(** Each register of [m'] is an entry of [m] or of [l], at least as new as all of them. *)
Definition joins (m m' : gmap K E) l : Prop :=
  (∀ k e, m' !! k = Some e → m !! k = Some e ∨ (k, e) ∈ l) ∧
  (∀ k e, m !! k = Some e ∨ (k, e) ∈ l → ∃ e', m' !! k = Some e' ∧ at_most e e').

(** [D] the entries received or written since [r0], [pool] the batches planned and not yet committed.
    Another critical section may write entries [written], none of them older than what it replaces;
    it collects no tombstone. *)
Inductive receiving (r0 : Replica K E St P) : list (K * E) → Replica K E St P → list (list (K * E)) → Prop :=
| receiving_start : receiving r0 [] r0 []
| receiving_plan D r pool c updates c' to_apply acks :
    receiving r0 D r pool → plan_updates (rp_map r) c updates = (c', to_apply, acks) →
    receiving r0 (updates ++ D) r (to_apply :: pool)
| receiving_commit D r pool pool' to_apply acks :
    receiving r0 D r (pool ++ to_apply :: pool') → receiving r0 D (commit_updates r to_apply acks).1 (pool ++ pool')
| receiving_local D r pool r' written :
    receiving r0 D r pool → critical r r' → joins (rp_map r) (rp_map r') written → receiving r0 (written ++ D) r' pool.

(** Last writer wins; the first argument keeps a tie. *)
Context (merge_lww : ∀ x y : E, merge x y = if ord_ltb (stamp x) (stamp y) then y else x).

#[local] Instance at_most_refl : Reflexive at_most.
Proof. intros e. unfold at_most. auto with reconcile. Qed.
#[local] Instance at_most_trans : Transitive at_most.
Proof. intros x y z. apply ord_leb_trans. Qed.

Lemma merge_upper x y : at_most x (merge x y) ∧ at_most y (merge x y) ∧ (merge x y = x ∨ merge x y = y).
Proof.
  rewrite merge_lww. destruct (ord_ltb (stamp x) (stamp y)) eqn:Hxy.
  - split_and!; [by apply ord_ltb_leb|done|by right].
  - split_and!; [done|by apply ord_ltb_false|by left].
Qed.

Lemma plan_spec m c l c' to_apply acks : plan_updates m c l = (c', to_apply, acks) →
  (∀ u, u ∈ to_apply → u ∈ l) ∧
  ∀ k e, (k, e) ∈ l → (k, e) ∈ to_apply ∨ ∃ local, m !! k = Some local ∧ at_most e local.
Proof.
  revert c c' to_apply acks. induction l as [|[k e] l IH]; intros c c' to_apply acks; cbn [plan_updates].
  { intros [= <- <- <-]. split; [done|]. by intros ? ? ?%not_elem_of_nil. }
  destruct (plan_updates m _ l) as [[c1 ta] ak] eqn:Hp. destruct (IH _ _ _ _ Hp) as [Hsub Hcov].
  assert (Hkeep : (∀ u, u ∈ (k, e) :: ta → u ∈ (k, e) :: l) ∧
    ∀ k' e', (k', e') ∈ (k, e) :: l → (k', e') ∈ (k, e) :: ta ∨ ∃ local, m !! k' = Some local ∧ at_most e' local).
  { split; [intros u [->|Hu]%elem_of_cons; [left|right; auto]|]. intros k' e' [[= -> ->]|Hin]%elem_of_cons; [left; left|].
    destruct (Hcov _ _ Hin); [left; by right|by right]. }
  destruct (m !! k) as [local|] eqn:Hk; [|intros [= <- <- <-]; exact Hkeep].
  destruct (ord_ltb (stamp local) (stamp e)) eqn:Hlt; [intros [= <- <- <-]; exact Hkeep|].
  apply ord_ltb_false in Hlt. intros Heq. assert (ta = to_apply) as -> by (destruct (is_tombstone local); congruence).
  split; [intros u Hu; right; auto|]. intros k' e' [[= -> ->]|Hin]%elem_of_cons; [right; by exists local|auto].
Qed.

Lemma apply_update_map r acks k v :
  rp_map (apply_update (r, acks) (k, v)).1 =
  <[k := match rp_map r !! k with Some local => merge local v | None => v end]> (rp_map r).
Proof.
  unfold apply_update. cbn [fst]. destruct (rp_map r !! k) as [local|] eqn:Hk; [destruct (is_node_id_collision local v)|];
    cbn; by rewrite Hk.
Qed.

Lemma joins_one (m : gmap K E) k v : joins m (<[k := match m !! k with Some local => merge local v | None => v end]> m) [(k, v)].
Proof.
  set (e := match m !! k with Some local => merge local v | None => v end).
  assert (He : (m !! k = Some e ∨ e = v) ∧ at_most v e ∧ ∀ e', m !! k = Some e' → at_most e' e).
  { unfold e. destruct (m !! k) as [local|]; [|split_and!; [by right|done|done]].
    destruct (merge_upper local v) as (U1 & U2 & Uor). split_and!; [|exact U2|intros ? [= <-]; exact U1].
    destruct Uor as [->| ->]; auto. }
  destruct He as (Hor & Hv & Hold). split; intros k' e' Hin.
  - destruct (decide (k = k')) as [<-|]; [|rewrite lookup_insert_ne in Hin by done; by left].
    rewrite lookup_insert_eq in Hin. injection Hin as <-. destruct Hor as [?| ->]; [by left|right; left].
  - destruct (decide (k = k')) as [<-|Hne].
    + exists e. rewrite lookup_insert_eq. split; [done|]. destruct Hin as [?|[= ->]%list_elem_of_singleton]; [auto|done].
    + destruct Hin as [?|[= ->]%list_elem_of_singleton]; [|done]. exists e'. by rewrite lookup_insert_ne.
Qed.

Lemma joins_cons m1 m2 m3 u l : joins m1 m2 [u] → joins m2 m3 l → joins m1 m3 (u :: l).
Proof.
  intros [A1 A2] [B1 B2]. split; intros k e Hin.
  - destruct (B1 k e Hin) as [Hm|?]; [|right; by right]. destruct (A1 k e Hm) as [?|Hu]; [by left|].
    right. apply list_elem_of_singleton in Hu as ->. left.
  - assert (Hor : (∃ e', m2 !! k = Some e' ∧ at_most e e') ∨ (k, e) ∈ l).
    { destruct Hin as [?|[<-|?]%elem_of_cons]; [left; by apply A2; left|left; apply A2; right; left|by right]. }
    destruct Hor as [(e' & Hm & Hle)|?]; [|by apply B2; right].
    destruct (B2 k e' (or_introl Hm)) as (e'' & ? & ?). exists e''. split; [done|]. by transitivity e'.
Qed.

Lemma apply_fold_joins l (st : Replica K E St P * list (K * N)) : joins (rp_map st.1) (rp_map (fold_left apply_update l st).1) l.
Proof.
  revert st. induction l as [|[k v] l IH]; intros [r acks]; cbn [fold_left fst].
  { split; intros k e Hin; [by left|]. destruct Hin as [?|?%not_elem_of_nil]; [by exists e|done]. }
  eapply joins_cons; [|apply IH]. rewrite apply_update_map. apply joins_one.
Qed.

Lemma commit_joins r l acks : joins (rp_map r) (rp_map (commit_updates r l acks).1) l.
Proof.
  pose proof (apply_fold_joins l (r, acks)) as Hj. unfold commit_updates. destruct l as [|u l]; [exact Hj|].
  by destruct (fold_left apply_update (u :: l) (r, acks)).
Qed.

(** An update or an initial entry. *)
Definition known r0 D (k : K) (e : E) : Prop := (k, e) ∈ D ∨ rp_map r0 !! k = Some e.

Lemma receiving_inv r0 D r pool : receiving r0 D r pool →
  (∀ k e, rp_map r !! k = Some e → known r0 D k e) ∧
  (∀ l u, l ∈ pool → u ∈ l → u ∈ D) ∧
  (∀ k e, known r0 D k e → (∃ e', rp_map r !! k = Some e' ∧ at_most e e') ∨
    ∃ l e', l ∈ pool ∧ (k, e') ∈ l ∧ at_most e e').
Proof.
  induction 1 as [|D r pool c us c' ta acks _ (I1 & I2 & I3) Hp|D r pool pool' l acks _ (I1 & I2 & I3)|D r pool r' written _ IH _ Hj].
  - split_and!; [by right|by intros ? ? ?%not_elem_of_nil|]. intros k e [?%not_elem_of_nil|?]; [done|]. left. by exists e.
  - destruct (plan_spec _ _ _ _ _ _ Hp) as [Hsub Hcov]. split_and!.
    + intros k e He. destruct (I1 k e He); [left; by apply elem_of_app; right|by right].
    + intros l u [->|Hl]%elem_of_cons Hu; apply elem_of_app; [left; auto|right; eauto].
    + intros k e Hk. assert (Hcase : (k, e) ∈ us ∨ known r0 D k e).
      { destruct Hk as [[?|?]%elem_of_app|?]; [by left|right; by left|right; by right]. }
      destruct Hcase as [Hu|Hk']; [destruct (Hcov _ _ Hu) as [?|?]; [right|by left]|].
      * exists ta, e. split_and!; [left|done|done].
      * destruct (I3 _ _ Hk') as [?|(l & e' & ? & ? & ?)]; [by left|right]. exists l, e'. split_and!; [by right|done|done].
  - destruct (commit_joins r l acks) as [J1 J2]. split_and!.
    + intros k e He. destruct (J1 k e He) as [?|?]; [auto|left]. eapply I2; [|done]. apply elem_of_app. right; left.
    + intros l' u Hl'. apply I2. apply elem_of_app in Hl' as [?|?]; apply elem_of_app; [by left|right; by right].
    + intros k e Hk. assert (Hlift : ∀ e', rp_map r !! k = Some e' ∨ (k, e') ∈ l → at_most e e' →
        ∃ e2, rp_map (commit_updates r l acks).1 !! k = Some e2 ∧ at_most e e2).
      { intros e' He' Hle. destruct (J2 k e' He') as (e2 & ? & ?). exists e2. split; [done|]. by transitivity e'. }
      destruct (I3 k e Hk) as [(e' & ? & ?)|(l' & e' & Hl' & ? & ?)]; [left; eauto|].
      apply elem_of_app in Hl' as [?|[->|?]%elem_of_cons]; [right|left; eauto|right];
        exists l', e'; (split; [apply elem_of_app; by auto|done]).
  - destruct IH as (I1 & I2 & I3). destruct Hj as [J1 J2]. split_and!.
    + intros k e He. destruct (J1 k e He) as [Hm|?]; [|left; apply elem_of_app; by left]. destruct (I1 k e Hm); [left; apply elem_of_app; by right|by right].
    + intros l u Hl Hu. apply elem_of_app. right. eauto.
    + intros k e Hk. assert (Hlift : ∀ e', rp_map r !! k = Some e' ∨ (k, e') ∈ written → at_most e e' → ∃ e2, rp_map r' !! k = Some e2 ∧ at_most e e2).
      { intros e' He' Hle. destruct (J2 k e' He') as (e2 & ? & ?). exists e2. split; [done|]. by transitivity e'. }
      assert (Hcase : (k, e) ∈ written ∨ known r0 D k e) by (destruct Hk as [[?|?]%elem_of_app|?]; [by left|right; by left|right; by right]).
      destruct Hcase as [?|Hk']; [left; by apply (Hlift e); [right|]|].
      destruct (I3 _ _ Hk') as [(e' & ? & ?)|?]; [left; by eauto|by right].
Qed.

(** A local write at least as new as the entry it replaces. *)
Lemma insert_joins r k v : (∀ e, rp_map r !! k = Some e → at_most e v) → joins (rp_map r) (rp_map (just_insert r k v).1) [(k, v)].
Proof.
  intros Hv. assert (Hm : rp_map (just_insert r k v).1 = <[k := v]> (rp_map r)) by done. rewrite Hm. split; intros k' e Hin.
  - destruct (decide (k = k')) as [<-|]; [|rewrite lookup_insert_ne in Hin by done; by left].
    rewrite lookup_insert_eq in Hin. injection Hin as <-. right. left.
  - destruct (decide (k = k')) as [<-|Hne].
    + exists v. rewrite lookup_insert_eq. split; [done|]. destruct Hin as [?|[= ->]%list_elem_of_singleton]; [auto|done].
    + destruct Hin as [?|[= ->]%list_elem_of_singleton]; [|done]. exists e. by rewrite lookup_insert_ne.
Qed.

Lemma received_winner r0 D r k e : receiving r0 D r [] → rp_map r !! k = Some e →
  known r0 D k e ∧ ∀ e', known r0 D k e' → at_most e' e.
Proof.
  intros (I1 & _ & I3)%receiving_inv He. split; [auto|]. intros e' Hk.
  destruct (I3 k e' Hk) as [(e2 & ? & ?)|(l & ? & ?%not_elem_of_nil & _)]; [congruence|done].
Qed.

(** C4. Replicas converge although batches are planned on one snapshot of the map and
    committed on another: two replicas with the same initial registers that receive or write the
    same entries, split into batches, ordered, repeated and interleaved in any way, end with the same
    registers once every batch is committed, each the newest entry of its key. Other critical
    sections may run in between as long as what they write is at least as new as what it replaces and
    no tombstone is collected; and two entries of one key with the same stamp must be equal: node ids
    do not collide. *)
Theorem overlapping_batches_converge r0 r0' D D' r r' :
  receiving r0 D r [] → receiving r0' D' r' [] → rp_map r0 = rp_map r0' → (∀ u, u ∈ D ↔ u ∈ D') →
  (∀ k e e', known r0 D k e → known r0 D k e' → stamp e = stamp e' → e = e') →
  rp_map r = rp_map r' ∧ ∀ k e, rp_map r !! k = Some e → known r0 D k e ∧ ∀ e', known r0 D k e' → at_most e' e.
Proof.
  intros Hr Hr' H0' HD Huniq. split; [|intros k e; by apply received_winner].
  assert (Hkn : ∀ k e, known r0 D k e ↔ known r0' D' k e) by (intros k e; unfold known; by rewrite HD, H0').
  apply map_eq. intros k. destruct (rp_map r !! k) as [e|] eqn:He, (rp_map r' !! k) as [e'|] eqn:He'; [| | |done].
  - destruct (received_winner _ _ _ _ _ Hr He) as [Hk Hmax], (received_winner _ _ _ _ _ Hr' He') as [Hk' Hmax'].
    f_equal. apply (Huniq k); [done|by apply Hkn|]. apply ord_leb_antisym; [by apply Hmax', Hkn|by apply Hmax, Hkn].
  - destruct (received_winner _ _ _ _ _ Hr He) as [Hk _]. apply Hkn in Hk.
    destruct (receiving_inv _ _ _ _ Hr') as (_ & _ & I3).
    destruct (I3 k e Hk) as [(? & ? & _)|(? & ? & ?%not_elem_of_nil & _)]; [congruence|done].
  - destruct (received_winner _ _ _ _ _ Hr' He') as [Hk _]. apply Hkn in Hk.
    destruct (receiving_inv _ _ _ _ Hr) as (_ & _ & I3).
    destruct (I3 k e' Hk) as [(? & ? & _)|(? & ? & ?%not_elem_of_nil & _)]; [congruence|done].
Qed.
End convergence.

(** ** Concrete replicas *)

#[local] Existing Instances small_lww small_state.

Definition small_replica : Replica N N bool N := (just_insert replica_new 1%N 4%N).1.

Lemma small_history : history (small_replica : Replica N N bool N) (None : option (PersistedState N N N)).
Proof.
  apply (history_task replica_new); [apply history_start; [done|]|].
  - by exists None, 0%N.
  - split; [apply crit_insert|]. unfold few_pending. vm_compute. reflexivity.
Qed.

Lemma replica_always_consistent_witness :
  rp_projection small_replica = N.odd <$> rp_map small_replica ∧ rp_changes small_replica = 1%N ∧
  ∃ r' b' res, snapshot_inner small_replica (None : option (PersistedState N N N)) id id = Some (r', b', res) ∧
    (res = Ok tt → frozen (rp_generations r') = None).
Proof.
  assert (Hid : between_tasks (id : Replica N N bool N → _)) by (intros r; apply rtc_refl).
  destruct (replica_always_consistent small_stamped (λ f e, eq_refl) small_replica (None : option (PersistedState N N N)) id id
    small_history Hid Hid) as (Hp & _ & Hc & _ & r' & b' & res & Hs & Hok).
  split; [exact Hp|]. split; [rewrite Hc; vm_compute; reflexivity|]. exists r', b', res. split; [exact Hs|]. intros Hr.
  by apply Hok in Hr as [? _].
Defined.

(** Two updates of one key in two overlapping batches, a local write of another key between them;
    and both keys received in one batch, the other way round. *)
Lemma overlapping_batches_converge_witness :
  let r0 : Replica N N bool N := replica_new in
  let r := (commit_updates (just_insert (commit_updates r0 [(1, 9)%N] []).1 2%N 6%N).1 [(1, 4)%N] []).1 in
  let r' := (commit_updates r0 [(1, 4); (2, 6); (1, 9)]%N []).1 in
  rp_map r = rp_map r'.
Proof.
  intros r0 r r'.
  apply (overlapping_batches_converge small_merge r0 r0 [(2, 6); (1, 9); (1, 4)]%N [(1, 4); (2, 6); (1, 9)]%N r r').
  - apply (receiving_commit _ _ _ [] []). apply (receiving_local r0 [(1, 9); (1, 4)]%N (commit_updates r0 [(1, 9)%N] []).1 [[(1, 4)%N]] _ [(2, 6)%N]).
    + apply (receiving_commit _ _ _ [] [[(1, 4)%N]]).
      eapply (receiving_plan _ [(1, 4)%N] _ _ 0%N [(1, 9)%N]); [|reflexivity].
      eapply (receiving_plan _ [] _ _ 0%N [(1, 4)%N]); [apply receiving_start|reflexivity].
    + apply crit_insert.
    + apply insert_joins. intros e. vm_compute. discriminate.
  - apply (receiving_commit _ _ _ [] []).
    eapply (receiving_plan _ [] _ _ 0%N [(1, 4); (2, 6); (1, 9)]%N); [apply receiving_start|reflexivity].
  - reflexivity.
  - intros u. rewrite !elem_of_cons. tauto.
  - intros k e e' [Hd|Hr] [Hd'|Hr']; [|discriminate..]. rewrite !elem_of_cons in Hd, Hd'.
    destruct Hd as [[= -> ->]|[[= -> ->]|[[= -> ->]|?%not_elem_of_nil]]], Hd' as [[= ->]|[[= ->]|[[= ->]|?%not_elem_of_nil]]]; done.
Defined.
