(* ===== verification/Dumps.v ===== *)
(** * Bulk dumps ([src/replica/pending_dump.rs], [pacing.rs], [dump.rs])

    The ranges a comparison found different are enumerated and sent by one detached task per peer,
    a bounded number of them at a time; what is found while no slot is free is stashed as a union
    of ranges. The panics on bound shapes the protocol never produces are [None]. The trees'
    ordered enumeration [range] is an argument. *)
From stdpp Require Import gmap list sorting relations.
From Stdlib Require Import NArith.
From S2P Require Import Prelude Bytes Framing RecoveryBook Admission Messages.

(** ** Ranges *)

Inductive Bound (K : Type) := Included (k : K) | Excluded (k : K) | Unbounded.
Arguments Included {K} k.
Arguments Excluded {K} k.
Arguments Unbounded {K}.

#[export] Instance Bound_eq_dec {K} `{EqDecision K} : EqDecision (Bound K).
Proof. solve_decision. Defined.

Notation EnumerationRange K := (Bound K * Bound K)%type.

Section ranges.
Context {K : Type} `{!RustOrd K}.
Implicit Types (r : EnumerationRange K) (l : list (EnumerationRange K)).

(** [RangeBounds::contains] *)
Definition above (start : Bound K) (k : K) : bool :=
  match start with Included a => ord_leb a k | Excluded a => ord_ltb a k | Unbounded => true end.
Definition below (stop : Bound K) (k : K) : bool :=
  match stop with Included b => ord_leb k b | Excluded b => ord_ltb k b | Unbounded => true end.
Definition in_range (k : K) r : bool := above r.1 k && below r.2 k.

Definition ord_cmp (a b : K) : comparison := if ord_ltb a b then Lt else if ord_ltb b a then Gt else Eq.

Definition cmp_start_bound (lhs rhs : Bound K) : option comparison :=
  match lhs, rhs with
  | Unbounded, Unbounded => Some Eq
  | Unbounded, Included _ => Some Lt
  | Included _, Unbounded => Some Gt
  | Included lhs, Included rhs => Some (ord_cmp lhs rhs)
  | Excluded _, _ | _, Excluded _ => None
  end.

Definition cmp_end_bound (lhs rhs : Bound K) : option comparison :=
  match lhs, rhs with
  | Unbounded, Unbounded => Some Eq
  | Unbounded, Excluded _ => Some Gt
  | Excluded _, Unbounded => Some Lt
  | Excluded lhs, Excluded rhs => Some (ord_cmp lhs rhs)
  | Included _, _ | _, Included _ => None
  end.

Definition ranges_overlap_or_touch (left_end right_start : Bound K) : option bool :=
  match left_end, right_start with
  | Unbounded, _ | _, Unbounded => Some true
  | Excluded lhs, Included rhs => Some (ord_leb rhs lhs)
  | _, _ => None
  end.

(** [sort_by] is a stable sort; on two elements or more it compares every one of them, so it
    panics exactly when some comparison can. *)
Definition starts_before r r' : bool :=
  match cmp_start_bound r.1 r'.1 with Some Gt => false | _ => true end.

Fixpoint insert_sorted r l : list (EnumerationRange K) :=
  match l with
  | [] => [r]
  | r' :: l => if starts_before r r' then r :: r' :: l else r' :: insert_sorted r l
  end.

Definition sort_by_start l : option (list (EnumerationRange K)) :=
  if forallb (λ r, match r.1 with Excluded _ => false | _ => true end) l
  then Some (foldr insert_sorted [] l) else None.

(** The loop of [coalesce_ranges]; [last] is [coalesced.last_mut()]. *)
Fixpoint coalesce_loop (last : EnumerationRange K) l : option (list (EnumerationRange K)) :=
  match l with
  | [] => Some [last]
  | (start, stop) :: l =>
      touch ← ranges_overlap_or_touch last.2 start;
      if (touch : bool) then
        c ← cmp_end_bound last.2 stop;
        coalesce_loop (last.1, match c with Lt => stop | _ => last.2 end) l
      else l ← coalesce_loop (start, stop) l; Some (last :: l)
  end.

Definition coalesce_ranges l : option (list (EnumerationRange K)) :=
  match l with
  | [] | [_] => Some l
  | _ => l ← sort_by_start l; match l with [] => Some [] | r :: l => coalesce_loop r l end
  end.

(** ** The union of ranges *)

Definition half_open r : Prop :=
  match r.1 with Excluded _ => False | _ => True end ∧ match r.2 with Included _ => False | _ => True end.

Definition covers l (k : K) : Prop := ∃ r, r ∈ l ∧ in_range k r = true.

(** [r] ends strictly below the start of [r']. *)
Definition apart r r' : Prop := ∃ a b, r.2 = Excluded a ∧ r'.1 = Included b ∧ ord_ltb a b = true.

Lemma apart_disjoint r r' k : apart r r' → in_range k r = true → in_range k r' = true → False.
Proof.
  intros (a & b & Ha & Hb & Hab) [_ Hk]%andb_prop [Hk' _]%andb_prop. rewrite Ha in Hk. rewrite Hb in Hk'.
  pose proof (ord_ltb_leb_trans _ _ _ Hab Hk') as Hak. apply ord_ltb_leb in Hk. unfold ord_ltb in Hak.
  by rewrite Hk in Hak.
Qed.

Lemma covers_perm l l' k : l ≡ₚ l' → covers l k ↔ covers l' k.
Proof. intros Hp. unfold covers. by setoid_rewrite Hp. Qed.

Lemma covers_cons r l k : covers (r :: l) k ↔ in_range k r = true ∨ covers l k.
Proof. unfold covers. setoid_rewrite elem_of_cons. naive_solver. Qed.

Lemma insert_sorted_perm r l : insert_sorted r l ≡ₚ r :: l.
Proof. induction l as [|r' l IH]; cbn; [done|]. destruct (starts_before r r'); [done|]. rewrite IH. apply Permutation_swap. Qed.

Lemma ord_cmp_leb (a b : K) : match ord_cmp a b with Gt => false | _ => true end = ord_leb a b.
Proof.
  unfold ord_cmp. destruct (ord_ltb a b) eqn:Hab; [symmetry; by apply ord_ltb_leb|].
  destruct (ord_ltb b a) eqn:Hba; unfold ord_ltb in Hba; by destruct (ord_leb a b).
Qed.

Lemma starts_before_total r r' : starts_before r r' = false → starts_before r' r = true.
Proof.
  unfold starts_before. destruct r.1 as [a|a|], r'.1 as [b|b|]; cbn; try done.
  rewrite !ord_cmp_leb. destruct (ord_leb_total a b); congruence.
Qed.

Lemma starts_before_trans r1 r2 r3 : half_open r2 →
  starts_before r1 r2 = true → starts_before r2 r3 = true → starts_before r1 r3 = true.
Proof.
  unfold half_open, starts_before. destruct r1.1 as [a|a|], r2.1 as [b|b|], r3.1 as [c|c|]; cbn; try tauto; try done.
  rewrite !ord_cmp_leb. intros _. apply ord_leb_trans.
Qed.

Lemma sort_by_start_spec l : Forall half_open l →
  ∃ l', sort_by_start l = Some l' ∧ l' ≡ₚ l ∧ StronglySorted (λ r r', starts_before r r' = true) l'.
Proof.
  intros Hl. unfold sort_by_start. rewrite (proj2 (forallb_forall _ _)).
  2:{ intros r Hr%list_elem_of_In. rewrite Forall_forall in Hl. destruct (Hl _ Hr) as [Hs _]. by destruct r.1. }
  eexists. split; [done|]. induction Hl as [|r l Hr Hl [IHp IHs]]; cbn; [split; [done|constructor]|].
  split; [by rewrite insert_sorted_perm, IHp|].
  assert (Hho : Forall half_open (foldr insert_sorted [] l)) by (by rewrite IHp).
  clear IHp Hl. induction IHs as [|r' l' IHs IH Hr']; cbn; [repeat constructor|].
  inversion Hho as [|? ? Hh Hho']; subst. destruct (starts_before r r') eqn:Hrr.
  - constructor; [by constructor|]. constructor; [done|]. eapply Forall_impl; [exact Hr'|].
    intros r2. by apply starts_before_trans.
  - constructor; [by apply IH|]. rewrite insert_sorted_perm. constructor; [by apply starts_before_total|done].
Qed.

(** ** Merging a range into one it overlaps or touches *)

Lemma starts_before_above r r' k : half_open r → half_open r' → starts_before r r' = true → above r'.1 k = true → above r.1 k = true.
Proof.
  unfold half_open, starts_before. destruct r.1 as [a|a|], r'.1 as [b|b|]; cbn; try tauto; try done.
  rewrite ord_cmp_leb. intros _ _. apply ord_leb_trans.
Qed.

Lemma touch_above stop start k : ranges_overlap_or_touch stop start = Some true → below stop k = false → above start k = true.
Proof.
  destruct stop as [b|b|], start as [a|a|]; cbn; try done. intros [= Hab] Hk%ord_ltb_false. by apply (ord_leb_trans a b k).
Qed.

Lemma ord_ltb_trans (a b c : K) : ord_ltb a b = true → ord_ltb b c = true → ord_ltb a c = true.
Proof. intros Hab Hbc. eapply ord_ltb_leb_trans; [exact Hab|by apply ord_ltb_leb]. Qed.

Lemma cmp_end_below b b' c k : cmp_end_bound b b' = Some c →
  (c = Lt → below b k = true → below b' k = true) ∧ (c ≠ Lt → below b' k = true → below b k = true).
Proof.
  destruct b as [x|x|], b' as [y|y|]; cbn; try done; intros [= <-]; try (split; congruence || done).
  unfold ord_cmp. destruct (ord_ltb x y) eqn:Hxy.
  - split; [|done]. intros _ Hk. by apply (ord_ltb_trans k x y).
  - apply ord_ltb_false in Hxy. split; [by destruct (ord_ltb y x)|]. intros _ Hk. by apply (ord_ltb_leb_trans k y x).
Qed.

Lemma merge_covers last start stop c k : half_open last → half_open (start, stop) →
  starts_before last (start, stop) = true → ranges_overlap_or_touch last.2 start = Some true →
  cmp_end_bound last.2 stop = Some c →
  in_range k (last.1, match c with Lt => stop | _ => last.2 end) = in_range k last || in_range k (start, stop).
Proof.
  intros Hl Hr Hs Ht Hc. pose proof (starts_before_above _ _ k Hl Hr Hs) as Ha. pose proof (touch_above _ _ k Ht) as Hb.
  destruct (cmp_end_below _ _ _ k Hc) as [Hlt Hge]. unfold in_range. cbn [fst snd] in *.
  destruct c, (above last.1 k), (below last.2 k), (above start k), (below stop k); cbn; try done;
    first [by specialize (Hlt eq_refl eq_refl) | by specialize (Hge ltac:(done) eq_refl)
          | by specialize (Ha eq_refl) | by specialize (Hb eq_refl)].
Qed.

Lemma start_apart last start stop r' : half_open r' → ranges_overlap_or_touch last.2 start = Some false →
  starts_before (start, stop) r' = true → apart last r'.
Proof.
  unfold apart, half_open, starts_before. destruct last.2 as [e|e|], start as [s|s|]; cbn; try done.
  intros [Hr _] [= Hse]. destruct r'.1 as [b|b|]; try done. cbn. rewrite ord_cmp_leb. intros Hsb. exists e, b.
  split_and!; [done..|]. eapply ord_ltb_leb_trans; [|exact Hsb]. unfold ord_ltb. by rewrite Hse.
Qed.

Lemma coalesce_loop_spec last l : half_open last → Forall half_open l →
  StronglySorted (λ r r', starts_before r r' = true) (last :: l) →
  ∃ l', coalesce_loop last l = Some l' ∧ Forall half_open l' ∧ StronglySorted apart l' ∧
    (∀ k, covers l' k ↔ covers (last :: l) k) ∧ ∀ r, r ∈ l' → starts_before last r = true.
Proof.
  revert last. induction l as [|[start stop] l IH]; intros last Hlast Hl Hs; cbn [coalesce_loop].
  - eexists. split_and!; [done|by constructor|repeat constructor|done|]. intros r ->%list_elem_of_singleton.
    unfold starts_before. destruct last.1; cbn; [|done..]. by rewrite ord_cmp_leb, ord_leb_refl.
  - inversion Hl as [|? ? Hr Hl']; subst. inversion Hs as [|? ? Hs' Hall]; subst. inversion Hall as [|? ? Hfirst Hall']; subst.
    destruct (ranges_overlap_or_touch last.2 start) as [[]|] eqn:Ht; cbn.
    + destruct (cmp_end_bound last.2 stop) as [c|] eqn:Hc.
      2:{ destruct Hlast as [_ H1], Hr as [_ H2]. by destruct last.2, stop. }
      cbn. destruct (IH (last.1, match c with Lt => stop | _ => last.2 end)) as (l' & -> & Hh & Ha & Hcov & Hst).
      * destruct Hlast as [? ?], Hr as [? ?]. split; [done|]. by destruct c.
      * done.
      * inversion Hs'; subst. by constructor.
      * eexists. split_and!; [done..| |done]. intros k. rewrite Hcov, !covers_cons, (merge_covers last start stop c k) by done.
        destruct (in_range k last), (in_range k (start, stop)); cbn; intuition congruence.
    + destruct (IH (start, stop)) as (l' & -> & Hh & Ha & Hcov & Hst); [done..|]. cbn. eexists. split_and!; [done|by constructor| | |].
      * constructor; [done|]. apply Forall_forall. intros r' Hr'. rewrite Forall_forall in Hh. eapply start_apart; eauto.
      * intros k. by rewrite (covers_cons last), Hcov, (covers_cons last).
      * intros r [->|Hr']%elem_of_cons; [unfold starts_before; destruct last.1; cbn; [by rewrite ord_cmp_leb, ord_leb_refl|done..]|].
        apply (starts_before_trans _ (start, stop)); auto.
    + destruct Hlast as [_ H1], Hr as [H2 _]. by destruct last.2, start.
Qed.

(** Coalescing never panics on the protocol's ranges, keeps their union and leaves them apart. *)
Lemma coalesce_ranges_spec l : Forall half_open l →
  ∃ l', coalesce_ranges l = Some l' ∧ Forall half_open l' ∧ StronglySorted apart l' ∧ ∀ k, covers l' k ↔ covers l k.
Proof.
  intros Hl. unfold coalesce_ranges. destruct (sort_by_start_spec l Hl) as (l2 & Hs & Hp & Hss).
  assert (Hl2 : Forall half_open l2) by (by rewrite Hp).
  destruct l as [|r [|r' l]]; [exists []; split_and!; [done..|constructor|done]|exists [r]; split_and!; [done..|repeat constructor|done]|].
  rewrite Hs. cbn. destruct l2 as [|r2 l2]; [by apply Permutation_nil_cons in Hp|].
  inversion Hl2; subst. destruct (coalesce_loop_spec r2 l2) as (l' & -> & Hh & Ha & Hc & _); [done..|].
  exists l'. split_and!; [done..|]. intros k. rewrite Hc. by apply covers_perm.
Qed.
End ranges.

(** ** Slots, stashes and tasks *)

Section dumps.
Context {A P K E St Ag : Type} `{Countable A, Countable P, Countable K} `{!RustOrd K} (ip : A → P).
(** the trees' [range] *)
Context (entries_in : gmap K E → EnumerationRange K → list (K * E))
        (states_in : gmap K St → EnumerationRange K → list (K * St)).
Context (max_concurrent_bulk_dumps : N).

Record Dumps := {
  bulk_in_flight : gset A;
  bulk_dumps_in_flight : N;
  pending_dumps : gmap A (list (EnumerationRange K));
  pending_value_dumps : gmap A (list (EnumerationRange K));
  bulk_admission : BulkAdmission P;
}.
Implicit Types (d : Dumps).

Definition set_slots d (peers : gset A) (n : N) : Dumps :=
  {| bulk_in_flight := peers; bulk_dumps_in_flight := n; pending_dumps := pending_dumps d;
     pending_value_dumps := pending_value_dumps d; bulk_admission := bulk_admission d |}.

Definition stash_of d (channel : DumpChannel) : gmap A (list (EnumerationRange K)) :=
  match channel with Dated => pending_dumps d | ValueOnly => pending_value_dumps d end.

Definition set_stash d (channel : DumpChannel) (stash : gmap A (list (EnumerationRange K))) : Dumps :=
  {| bulk_in_flight := bulk_in_flight d; bulk_dumps_in_flight := bulk_dumps_in_flight d;
     pending_dumps := match channel with Dated => stash | ValueOnly => pending_dumps d end;
     pending_value_dumps := match channel with Dated => pending_value_dumps d | ValueOnly => stash end;
     bulk_admission := bulk_admission d |}.

Definition set_admission d (b : BulkAdmission P) : Dumps :=
  {| bulk_in_flight := bulk_in_flight d; bulk_dumps_in_flight := bulk_dumps_in_flight d;
     pending_dumps := pending_dumps d; pending_value_dumps := pending_value_dumps d; bulk_admission := b |}.

Definition stash_pending_dump d (channel : DumpChannel) (peer : A) (ranges : list (EnumerationRange K)) : option Dumps :=
  ranges ← coalesce_ranges (default [] (stash_of d channel !! peer) ++ ranges);
  Some (set_stash d channel (<[peer := ranges]> (stash_of d channel))).

Definition take_pending_dump d (channel : DumpChannel) (peer : A) (ranges : list (EnumerationRange K))
    : option (Dumps * list (EnumerationRange K)) :=
  pending ← coalesce_ranges (default [] (stash_of d channel !! peer) ++ ranges);
  Some (set_stash d channel (delete peer (stash_of d channel)), pending).

Definition try_claim_dump_slot d (peer : A) : Dumps * bool :=
  if decide (peer ∈ bulk_in_flight d) then (d, false)
  else
    let d := set_slots d ({[peer]} ∪ bulk_in_flight d) (bulk_dumps_in_flight d) in
    if (bulk_dumps_in_flight d <? max_concurrent_bulk_dumps)%N
    then (set_slots d (bulk_in_flight d) (bulk_dumps_in_flight d + 1)%N, true)
    else (set_slots d (bulk_in_flight d ∖ {[peer]}) (bulk_dumps_in_flight d), false).

(** [Drop for BulkDumpCountGuard]: [fetch_sub] wraps. *)
Definition drop_count_guard d : Dumps :=
  set_slots d (bulk_in_flight d) (wrapping_add64 (bulk_dumps_in_flight d) u64_max).
(** [Drop for BulkInFlightGuard] *)
Definition drop_peer_guard d (peer : A) : Dumps := set_slots d (bulk_in_flight d ∖ {[peer]}) (bulk_dumps_in_flight d).
Definition release_slot d (peer : A) : Dumps := drop_peer_guard (drop_count_guard d) peer.

(** A detached task: [Sending] a batch; [Leaving] its loop with both guards; [Uncounted] once the
    count guard, declared last, is dropped. *)
Inductive DumpPhase := Sending (messages : list (Message Ag K E St)) | Leaving | Uncounted.
Record DumpTask := { dt_peer : A; dt_channel : DumpChannel; dt_phase : DumpPhase }.

(** What a batch holds: the dated entries of the map, or the states of its projection. *)
Definition entry_updates (m : gmap K E) (ranges : list (EnumerationRange K)) : list (Message Ag K E St) :=
  range ← ranges; EntryUpdate <$> entries_in m range.
Definition state_updates (p : gmap K St) (ranges : list (EnumerationRange K)) : list (Message Ag K E St) :=
  range ← ranges; StateUpdate <$> states_in p range.

(** [start_dated_dump] and [start_value_dump] up to their channel and enumeration [updates_of]. *)
Definition start_dump d (channel : DumpChannel) (updates_of : list (EnumerationRange K) → list (Message Ag K E St))
    (differences : list (EnumerationRange K)) (peer : A) (comparison_fingerprint : id32) (now : N)
    : option (Dumps * option DumpTask) :=
  let '(d, claimed) := try_claim_dump_slot d peer in
  if negb claimed then d ← stash_pending_dump d channel peer differences; Some (d, None)
  else
    let '(b, admitted) := try_admit_at (bulk_admission d) (ip peer) channel comparison_fingerprint now in
    let d := set_admission d b in
    match admitted with
    | Err _ => Some (release_slot d peer, None)
    | Ok _ =>
        '(d, differences) ← take_pending_dump d channel peer differences;
        match updates_of differences with
        | [] => Some (release_slot d peer, None)
        | updates => Some (d, Some {| dt_peer := peer; dt_channel := channel; dt_phase := Sending updates |})
        end
    end.

Definition start_dated_dump d (m : gmap K E) := start_dump d Dated (entry_updates m).
Definition start_value_dump d (p : gmap K St) := start_dump d ValueOnly (state_updates p).

(** One turn of the loop of [spawn_paced_send] once the batch is sent. *)
Definition drain_stash d (m : gmap K E) (p : gmap K St) (t : DumpTask) : Dumps * DumpTask :=
  let stash := stash_of d (dt_channel t) in
  let removed := stash !! dt_peer t in
  let d := set_stash d (dt_channel t) (delete (dt_peer t) stash) in
  let phase :=
    match removed with
    | Some ((_ :: _) as ranges) =>
        match match dt_channel t with Dated => entry_updates m ranges | ValueOnly => state_updates p ranges end with
        | [] => Leaving
        | messages => Sending messages
        end
    | _ => Leaving
    end in
  (d, {| dt_peer := dt_peer t; dt_channel := dt_channel t; dt_phase := phase |}).

Definition with_phase (t : DumpTask) (ph : DumpPhase) : DumpTask :=
  {| dt_peer := dt_peer t; dt_channel := dt_channel t; dt_phase := ph |}.

(** The replica's tasks over any sequence of maps: comparisons arriving with the half-open ranges
    [rbsr] emits, batches sent, tasks aborted, and the two guards dropped one after the other. *)
Inductive dump_step : Dumps * list DumpTask → Dumps * list DumpTask → Prop :=
| step_dated d ts m differences peer fp now d' t :
    Forall half_open differences → start_dated_dump d m differences peer fp now = Some (d', t) →
    dump_step (d, ts) (d', ts ++ option_list t)
| step_value d ts p differences peer fp now d' t :
    Forall half_open differences → start_value_dump d p differences peer fp now = Some (d', t) →
    dump_step (d, ts) (d', ts ++ option_list t)
| step_sent d ts t ts' m p messages d' t' :
    dt_phase t = Sending messages → drain_stash d m p t = (d', t') → dump_step (d, ts ++ t :: ts') (d', ts ++ t' :: ts')
| step_aborted d ts t ts' messages :
    dt_phase t = Sending messages → dump_step (d, ts ++ t :: ts') (d, ts ++ with_phase t Leaving :: ts')
| step_uncount d ts t ts' :
    dt_phase t = Leaving → dump_step (d, ts ++ t :: ts') (drop_count_guard d, ts ++ with_phase t Uncounted :: ts')
| step_finish d ts t ts' :
    dt_phase t = Uncounted → dump_step (d, ts ++ t :: ts') (drop_peer_guard d (dt_peer t), ts ++ ts').

Definition dumps_new (b : BulkAdmission P) : Dumps :=
  {| bulk_in_flight := ∅; bulk_dumps_in_flight := 0; pending_dumps := ∅; pending_value_dumps := ∅; bulk_admission := b |}.

Lemma claim_keeps d peer : let d' := (try_claim_dump_slot d peer).1 in
  pending_dumps d' = pending_dumps d ∧ pending_value_dumps d' = pending_value_dumps d ∧ bulk_admission d' = bulk_admission d.
Proof. unfold try_claim_dump_slot. case_decide; [done|]. by case_test. Qed.

Lemma dump_claim_refused d peer : (try_claim_dump_slot d peer).2 = false → (try_claim_dump_slot d peer).1 = d.
Proof.
  unfold try_claim_dump_slot. case_decide as Hp; [done|]. case_test; [done|]. intros _. destruct d as [s n pd pv b]. unfold set_slots. cbn in *. f_equal. set_solver.
Qed.

(** *** Slots *)

Definition counted (t : DumpTask) : bool := match dt_phase t with Uncounted => false | _ => true end.

Record slots_exact d (ts : list DumpTask) : Prop := {
  se_peers : NoDup (dt_peer <$> ts);
  se_in_flight : ∀ peer, peer ∈ bulk_in_flight d ↔ peer ∈ dt_peer <$> ts;
  se_count : bulk_dumps_in_flight d = len (filter (λ t, counted t = true) ts);
  se_budget : (bulk_dumps_in_flight d ≤ max_concurrent_bulk_dumps)%N;
}.

Lemma fetch_sub_succ n : (n < u64_max)%N → wrapping_add64 (n + 1) u64_max = n.
Proof.
  intros Hn. unfold wrapping_add64, u64_max, u64_modulus in *.
  replace (n + 1 + 18446744073709551615)%N with (n + 1 * 18446744073709551616)%N by lia.
  rewrite N.Div0.mod_add. apply N.mod_small. lia.
Qed.

(** A slot claimed and released again leaves no trace. *)
Lemma dump_claim_release d peer b : (max_concurrent_bulk_dumps ≤ u64_max)%N → (try_claim_dump_slot d peer).2 = true →
  release_slot (set_admission (try_claim_dump_slot d peer).1 b) peer = set_admission d b.
Proof.
  intros Hmax. unfold try_claim_dump_slot. case_decide as Hp; [done|]. destruct d as [s n pd pv a]. cbn in *.
  destruct (N.ltb_spec n max_concurrent_bulk_dumps) as [Hlt|]; [|done]. intros _.
  unfold release_slot, drop_peer_guard, drop_count_guard, set_slots, set_admission. cbn. rewrite fetch_sub_succ by lia. f_equal. set_solver.
Qed.

(** A dump either leaves the slots as they were or holds one more. *)
Lemma start_dump_slots d channel updates_of differences peer fp now d' t :
  (max_concurrent_bulk_dumps ≤ u64_max)%N →
  start_dump d channel updates_of differences peer fp now = Some (d', t) →
  (t = None ∧ (∀ a, a ∈ bulk_in_flight d' ↔ a ∈ bulk_in_flight d) ∧ bulk_dumps_in_flight d' = bulk_dumps_in_flight d) ∨
  (∃ messages, t = Some {| dt_peer := peer; dt_channel := channel; dt_phase := Sending messages |} ∧
     peer ∉ bulk_in_flight d ∧ (∀ a, a ∈ bulk_in_flight d' ↔ a = peer ∨ a ∈ bulk_in_flight d) ∧
     bulk_dumps_in_flight d' = (bulk_dumps_in_flight d + 1)%N ∧ (bulk_dumps_in_flight d < max_concurrent_bulk_dumps)%N).
Proof.
  intros Hmax. unfold start_dump, try_claim_dump_slot, stash_pending_dump. case_decide as Hin; cbn.
  { destruct (coalesce_ranges _); [|done]. intros [= <- <-]. left. done. }
  case_test; cbn.
  2:{ destruct (coalesce_ranges _); [|done]. intros [= <- <-]. left. cbn. split_and!; [done| |done]. set_solver. }
  destruct (try_admit_at _ _ _ _ _) as [b [|]]; cbn.
  - unfold take_pending_dump. destruct (coalesce_ranges _) as [pending|]; [|done]. cbn.
    destruct (updates_of pending) as [|u us]; intros [= <- <-].
    + left. cbn. split_and!; [done|set_solver|]. apply fetch_sub_succ. lia.
    + right. exists (u :: us). cbn. split_and!; [done..|set_solver|done|lia].
  - intros [= <- <-]. left. cbn. split_and!; [done|set_solver|]. apply fetch_sub_succ. lia.
Qed.

Definition count_of (t : DumpTask) : N := if counted t then 1 else 0.

Lemma count_split (ts ts' : list DumpTask) t :
  len (filter (λ t, counted t = true) (ts ++ t :: ts')) =
  (len (filter (λ t, counted t = true) (ts ++ ts')) + count_of t)%N.
Proof.
  unfold count_of. rewrite !filter_app, filter_cons, !length_app. destruct (counted t); cbn; [rewrite decide_True by done|rewrite decide_False by done]; cbn; lia.
Qed.

(** A task that changes phase keeps its peer mark. *)
Lemma phase_slots d d' ts t t' ts' :
  slots_exact d (ts ++ t :: ts') → dt_peer t' = dt_peer t → bulk_in_flight d' = bulk_in_flight d →
  (bulk_dumps_in_flight d' + count_of t = bulk_dumps_in_flight d + count_of t')%N → (count_of t' ≤ count_of t)%N →
  slots_exact d' (ts ++ t' :: ts').
Proof.
  intros [Hnd Hin Hc Hb] Hp Hf Hn Hle. rewrite count_split in Hc.
  assert (Hpeers : dt_peer <$> ts ++ t' :: ts' = dt_peer <$> ts ++ t :: ts') by (by rewrite !fmap_app, !fmap_cons, Hp).
  constructor; [by rewrite Hpeers|intros a; by rewrite Hf, Hpeers|rewrite count_split; lia|lia].
Qed.

Lemma finish_slots d ts t ts' : slots_exact d (ts ++ t :: ts') → dt_phase t = Uncounted →
  slots_exact (drop_peer_guard d (dt_peer t)) (ts ++ ts').
Proof.
  intros [Hnd Hin Hc Hb] Hp. rewrite count_split in Hc. replace (count_of t) with 0%N in Hc by (unfold count_of, counted; by rewrite Hp).
  rewrite N.add_0_r in Hc.
  assert (Hperm : dt_peer <$> ts ++ t :: ts' ≡ₚ dt_peer t :: (dt_peer <$> ts ++ ts')) by (by rewrite <- Permutation_middle).
  rewrite Hperm in Hnd. apply NoDup_cons in Hnd as [Hnew Hnd]. constructor; [done| |exact Hc|exact Hb].
  intros a. cbn [bulk_in_flight drop_peer_guard set_slots].
  rewrite elem_of_difference, elem_of_singleton, Hin, Hperm, elem_of_cons. split; [tauto|].
  intros Ha. split; [by right|]. by intros ->.
Qed.

Lemma start_slots d ts channel updates_of differences peer fp now d' t : (max_concurrent_bulk_dumps ≤ u64_max)%N →
  start_dump d channel updates_of differences peer fp now = Some (d', t) → slots_exact d ts →
  slots_exact d' (ts ++ option_list t).
Proof.
  intros Hmax Hs [Hnd Hin Hc Hb].
  destruct (start_dump_slots _ _ _ _ _ _ _ _ _ Hmax Hs) as [(-> & Hf & Hn)|(ms & -> & Hnew & Hf & Hn & Hlt)].
  - cbn. rewrite app_nil_r. constructor; [done|intros a; by rewrite Hf|congruence|by rewrite Hn].
  - change (option_list (Some ?x)) with [x].
    assert (Hperm : dt_peer <$> ts ++ [{| dt_peer := peer; dt_channel := channel; dt_phase := Sending ms |}] ≡ₚ peer :: (dt_peer <$> ts))
      by (rewrite fmap_app; apply Permutation_app_comm).
    constructor; [|intros a; by rewrite Hf, Hin, Hperm, elem_of_cons|rewrite Hn, Hc; rewrite count_split, app_nil_r; done|lia].
    rewrite Hperm. apply NoDup_cons. by rewrite <- Hin.
Qed.

Lemma drain_counted d m p t : count_of (drain_stash d m p t).2 = 1%N.
Proof. unfold drain_stash, count_of, counted. cbn. by repeat case_match. Qed.

Lemma dump_step_slots x y : (max_concurrent_bulk_dumps ≤ u64_max)%N →
  dump_step x y → slots_exact x.1 x.2 → slots_exact y.1 y.2.
Proof.
  intros Hmax [d ts m ? ? ? ? d' t _ Hs|d ts p ? ? ? ? d' t _ Hs|d ts t ts' m p ms d' t' Hp Hd|d ts t ts' ms Hp|d ts t ts' Hp|d ts t ts' Hp] Hx;
    cbn [fst snd] in *.
  - by apply (start_slots _ _ _ _ _ _ _ _ _ _ Hmax Hs).
  - by apply (start_slots _ _ _ _ _ _ _ _ _ _ Hmax Hs).
  - assert (Ht : count_of t = 1%N) by (unfold count_of, counted; by rewrite Hp). pose proof (drain_counted d m p t) as Ht'.
    rewrite Hd in Ht'. unfold drain_stash in Hd. injection Hd as <- <-. eapply phase_slots; [exact Hx|done..| |]; cbn in *; lia.
  - eapply phase_slots; [exact Hx|done..| |]; unfold count_of, counted; rewrite Hp; cbn; lia.
  - pose proof (se_count _ _ Hx) as Hc. rewrite count_split in Hc. unfold count_of, counted in Hc. rewrite Hp in Hc.
    pose proof (se_budget _ _ Hx). eapply phase_slots; [exact Hx|done..| |]; unfold count_of, counted; rewrite Hp; cbn; [|lia].
    rewrite Hc, fetch_sub_succ by lia. lia.
  - by apply finish_slots.
Qed.

(** The concurrency limits of bulk dumps hold after any interleaving of comparisons, sends,
    stashed work, aborted tasks and guards dropped one at a time: at most one task per peer, a peer
    marked in flight exactly while its task lives, the counter exactly the tasks still counted and
    within the budget, and a slot claimed exactly when the peer has no task and the budget has
    room. *)
Theorem dump_slots_exact b d ts : (max_concurrent_bulk_dumps ≤ u64_max)%N →
  rtc dump_step (dumps_new b, []) (d, ts) →
  NoDup (dt_peer <$> ts) ∧ (∀ peer, peer ∈ bulk_in_flight d ↔ peer ∈ dt_peer <$> ts) ∧
  bulk_dumps_in_flight d = len (filter (λ t, counted t = true) ts) ∧
  (bulk_dumps_in_flight d ≤ max_concurrent_bulk_dumps)%N ∧
  ∀ peer, (try_claim_dump_slot d peer).2 = true ↔
    peer ∉ dt_peer <$> ts ∧ (len (filter (λ t, counted t = true) ts) < max_concurrent_bulk_dumps)%N.
Proof.
  intros Hmax Hr. assert (Hs : slots_exact d ts).
  { apply (rtc_preserved (λ x, slots_exact x.1 x.2) _ _ (d, ts) (λ x y Hx Hxy, dump_step_slots x y Hmax Hxy Hx) Hr).
    constructor; cbn; [constructor|set_solver|done|lia]. }
  destruct Hs as [Hnd Hin Hc Hb]. split_and!; [done..|]. intros peer. unfold try_claim_dump_slot.
  rewrite <- Hc, <- Hin. case_decide; cbn; [naive_solver|]. case_test; naive_solver lia.
Qed.

(** *** Ranges *)

Definition stash_ok d : Prop := ∀ channel peer l,
  stash_of d channel !! peer = Some l → Forall half_open l ∧ StronglySorted apart l.

Lemma stash_half_open d channel peer differences : stash_ok d → Forall half_open differences →
  Forall half_open (default [] (stash_of d channel !! peer) ++ differences).
Proof.
  intros Hok Hd. apply Forall_app. split; [|done].
  destruct (stash_of d channel !! peer) eqn:Hs; cbn; [by apply Hok in Hs as []|constructor].
Qed.

Lemma set_stash_ok d channel stash : stash_ok d →
  (∀ peer l, stash !! peer = Some l → Forall half_open l ∧ StronglySorted apart l) → stash_ok (set_stash d channel stash).
Proof.
  intros Hok Hs channel' peer l. specialize (Hok channel' peer l). destruct channel, channel'; cbn in *; first [exact Hok | apply Hs].
Qed.

Lemma delete_stash_ok d channel peer : stash_ok d → stash_ok (set_stash d channel (delete peer (stash_of d channel))).
Proof. intros Hok. apply set_stash_ok; [done|]. intros a l [_ Hl]%lookup_delete_Some. by apply (Hok channel a). Qed.

Lemma same_stash_ok d d' : stash_ok d → pending_dumps d' = pending_dumps d → pending_value_dumps d' = pending_value_dumps d → stash_ok d'.
Proof. intros Hok H1' H2' [] peer l; cbn; rewrite ?H1', ?H2'; [apply (Hok Dated)|apply (Hok ValueOnly)]. Qed.

(** Starting a dump never panics, and this is what it does with the differences. *)
Lemma start_dump_spec d channel updates_of differences peer fp now : stash_ok d → Forall half_open differences →
  ∃ d' t l, start_dump d channel updates_of differences peer fp now = Some (d', t) ∧ stash_ok d' ∧ StronglySorted apart l ∧
    (∀ k, covers l k ↔ covers (default [] (stash_of d channel !! peer)) k ∨ covers differences k) ∧
    ((try_claim_dump_slot d peer).2 = false → t = None ∧ d' = set_stash d channel (<[peer := l]> (stash_of d channel))) ∧
    ((try_claim_dump_slot d peer).2 = true →
      match (try_admit_at (bulk_admission d) (ip peer) channel fp now).2 with
      | Ok _ => stash_of d' channel !! peer = None ∧
          t = match updates_of l with [] => None
              | messages => Some {| dt_peer := peer; dt_channel := channel; dt_phase := Sending messages |} end
      | Err _ => t = None ∧ ((max_concurrent_bulk_dumps ≤ u64_max)%N → d' = set_admission d (try_admit_at (bulk_admission d) (ip peer) channel fp now).1)
      end).
Proof.
  intros Hok Hd.
  destruct (coalesce_ranges_spec _ (stash_half_open d channel peer _ Hok Hd)) as (l & Hl & Hh & Ha & Hc).
  assert (Hcov : ∀ k, covers l k ↔ covers (default [] (stash_of d channel !! peer)) k ∨ covers differences k).
  { intros k. rewrite Hc. unfold covers. setoid_rewrite elem_of_app. naive_solver. }
  unfold start_dump. pose proof (claim_keeps d peer) as (Hs1 & Hs2 & Hadm).
  pose proof (dump_claim_refused d peer) as Href. pose proof (λ b Hm, dump_claim_release d peer b Hm) as Hrel. destruct (try_claim_dump_slot d peer) as [d1 []]; cbn in *.
  - assert (Hok1 : ∀ b, stash_ok (set_admission d1 b)) by (intros b; by apply (same_stash_ok d)).
    rewrite Hadm. destruct (try_admit_at (bulk_admission d) (ip peer) channel fp now) as [b [|]]; cbn.
    + unfold take_pending_dump. assert (Hst : stash_of (set_admission d1 b) channel = stash_of d channel) by (by destruct channel).
      rewrite Hst, Hl. cbn. set (d2 := set_stash _ _ _).
      assert (Hnone : stash_of d2 channel !! peer = None) by (unfold d2; destruct channel; cbn; apply lookup_delete_eq).
      assert (Hok2 : stash_ok d2) by (unfold d2; rewrite <- Hst; by apply delete_stash_ok).
      destruct (updates_of l) eqn:Hu; eexists _, _, l; (split_and!; [done|by apply (same_stash_ok d2)|done..|]);
        intros _; rewrite Hu; (split; [exact Hnone|done]).
    + eexists _, _, l. split_and!; [done|by apply (same_stash_ok (set_admission d1 b))|done..|]. intros _. split; [done|].
      intros Hm. by apply Hrel.
  - assert (Hst : stash_of d1 channel = stash_of d channel) by (by destruct channel).
    unfold stash_pending_dump. rewrite Hst, Hl. cbn. eexists _, _, l. split_and!; [done| |done..| |done].
    + apply set_stash_ok; [by apply (same_stash_ok d)|]. intros a l'.
      intros [[_ <-]|[_ Hl']]%lookup_insert_Some; [done|by apply (Hok channel a)].
    + intros _. split; [done|]. by rewrite Href.
Qed.

Lemma dump_step_stash x y : dump_step x y → stash_ok x.1 → stash_ok y.1.
Proof.
  intros [d ts m ? ? ? ? d' t Hho Hs|d ts p ? ? ? ? d' t Hho Hs|d ts t ts' m p ms d' t' Hp Hd|d ts t ts' ms Hp|d ts t ts' Hp|d ts t ts' Hp] Hx;
    cbn [fst snd] in *.
  - edestruct (start_dump_spec d Dated) as (? & ? & ? & Hs' & ? & _); [done..|]. unfold start_dated_dump in Hs. rewrite Hs in Hs'. by injection Hs' as <- <-.
  - edestruct (start_dump_spec d ValueOnly) as (? & ? & ? & Hs' & ? & _); [done..|]. unfold start_value_dump in Hs. rewrite Hs in Hs'. by injection Hs' as <- <-.
  - injection Hd as <- _. by apply delete_stash_ok.
  - done.
  - by apply (same_stash_ok d).
  - by apply (same_stash_ok d).
Qed.

Lemma dumps_new_stash b : stash_ok (dumps_new b).
Proof. intros [] peer l; cbn; by rewrite lookup_empty. Qed.

(** *** What is sent *)

Context (entries_in_spec : ∀ m r k e, (k, e) ∈ entries_in m r ↔ m !! k = Some e ∧ in_range k r = true)
        (entries_in_nodup : ∀ m r, NoDup (entries_in m r)).

Lemma entry_updates_elem m l u :
  u ∈ entry_updates m l ↔ ∃ k e, u = EntryUpdate (k, e) ∧ m !! k = Some e ∧ covers l k.
Proof.
  unfold entry_updates. rewrite list_elem_of_bind. setoid_rewrite list_elem_of_fmap. unfold covers. split.
  - intros (r & ([k e] & -> & [Hm Hr]%entries_in_spec) & Hl). eauto 10.
  - intros (k & e & -> & Hm & r & Hl & Hr). exists r. split; [|done]. exists (k, e). by rewrite entries_in_spec.
Qed.

Lemma entry_updates_nodup m l : StronglySorted apart l → NoDup (entry_updates m l).
Proof.
  induction 1 as [|r l Hs IH Ha]; [constructor|]. unfold entry_updates. cbn. fold (entry_updates m l). apply NoDup_app.
  split_and!; [apply NoDup_fmap; [intros ? ? ?; congruence|done]| |done].
  intros u Hu. apply list_elem_of_fmap in Hu as ([k e] & -> & [_ Hr]%entries_in_spec).
  intros (k' & e' & [= <- <-] & _ & r' & Hr' & Hin)%entry_updates_elem. rewrite Forall_forall in Ha.
  by apply (apart_disjoint r r' k (Ha _ Hr')).
Qed.

(** C21. What a dated dump makes of a comparison's differences, in any reachable state of the dump
    machinery: it does not panic; without a free slot nothing changes but the peer's stash, which then
    holds exactly the union of what was stashed and the new ranges, as disjoint ranges; with a slot
    and admission, the batch carries exactly the entries of the map in that union, each once, and the
    stash is consumed; with a slot and no admission the differences are dropped and nothing changes
    but the admission state: slots, counter and stashes are as they were. *)
Theorem dump_covers_differences b d ts m differences peer fp now : (max_concurrent_bulk_dumps ≤ u64_max)%N →
  rtc dump_step (dumps_new b, []) (d, ts) → Forall half_open differences →
  let owed k := covers (default [] (pending_dumps d !! peer)) k ∨ covers differences k in
  ∃ d' t, start_dated_dump d m differences peer fp now = Some (d', t) ∧
    ((try_claim_dump_slot d peer).2 = false → t = None ∧
      ∃ l, d' = set_stash d Dated (<[peer := l]> (pending_dumps d)) ∧ StronglySorted apart l ∧ ∀ k, covers l k ↔ owed k) ∧
    ((try_claim_dump_slot d peer).2 = true →
      match (try_admit_at (bulk_admission d) (ip peer) Dated fp now).2 with
      | Ok _ => pending_dumps d' !! peer = None ∧ ∃ messages, NoDup messages ∧
          (∀ u, u ∈ messages ↔ ∃ k e, u = EntryUpdate (k, e) ∧ m !! k = Some e ∧ owed k) ∧
          t = match messages with [] => None
              | _ => Some {| dt_peer := peer; dt_channel := Dated; dt_phase := Sending messages |} end
      | Err _ => t = None ∧ d' = set_admission d (try_admit_at (bulk_admission d) (ip peer) Dated fp now).1
      end).
Proof.
  intros Hmax Hr Hd owed.
  assert (Hok : stash_ok d) by apply (rtc_preserved (λ x, stash_ok x.1) _ _ (d, ts) (λ x y Hx Hxy, dump_step_stash x y Hxy Hx) Hr (dumps_new_stash b)).
  destruct (start_dump_spec d Dated (entry_updates m) differences peer fp now Hok Hd)
    as (d' & t & l & Hs & _ & Ha & Hc & Hno & Hyes).
  exists d', t. split; [exact Hs|]. split.
  - intros Hcl. destruct (Hno Hcl) as [-> ?]. split; [done|]. by exists l.
  - intros Hcl. specialize (Hyes Hcl). destruct (try_admit_at _ _ _ _ _).2; [|by destruct Hyes; auto]. destruct Hyes as [Hn Ht]. split; [exact Hn|].
    exists (entry_updates m l). split_and!; [by apply entry_updates_nodup| |by destruct (entry_updates m l)].
    intros u. rewrite entry_updates_elem. by setoid_rewrite Hc.
Qed.
End dumps.

Arguments Dumps A P K {_ _ _ _} : assert.

(** ** Concrete dumps *)

Definition small_range (m : gmap N N) (r : EnumerationRange N) : list (N * N) :=
  filter (λ kv, in_range kv.1 r = true) (map_to_list m).

Lemma small_range_spec m r k e : (k, e) ∈ small_range m r ↔ m !! k = Some e ∧ in_range k r = true.
Proof. unfold small_range. rewrite list_elem_of_filter, elem_of_map_to_list. cbn. tauto. Qed.

Lemma small_range_nodup m r : NoDup (small_range m r).
Proof. apply NoDup_filter, NoDup_map_to_list. Qed.

Definition small_admission : BulkAdmission N := bulk_new (λ _, 0%N) 1.
Definition small_fp : id32 := replicate 32 Byte.x00.
Definition small_map : gmap N N := {[1%N := 10%N; 5%N := 50%N]}.
Definition busy : Dumps N N N * list (DumpTask (A := N) (K := N) (E := N) (St := N) (Ag := unit)) :=
  match start_dated_dump id small_range 1 (dumps_new small_admission) small_map [(Unbounded, Unbounded)] 7%N small_fp 0 with
  | Some (d, t) => (d, option_list t)
  | None => (dumps_new small_admission, [])
  end.

Lemma busy_reachable : rtc (dump_step (Ag := unit) id small_range small_range 1) (dumps_new small_admission, []) busy.
Proof.
  unfold busy. destruct (start_dated_dump _ _ _ _ _ _ _ _ _) as [[d t]|] eqn:Hs; [|apply rtc_refl].
  apply rtc_once. refine (step_dated _ _ _ _ _ [] _ _ _ _ _ _ _ _ Hs). by repeat constructor.
Qed.

(** A second comparison of a busy peer. *)
Lemma dump_slots_exact_witness : (bulk_dumps_in_flight busy.1 ≤ 1)%N ∧ (try_claim_dump_slot 1 busy.1 7%N).2 = false.
Proof.
  destruct (dump_slots_exact (Ag := unit) id small_range small_range 1 small_admission busy.1 busy.2) as (_ & _ & _ & Hb & Hc);
    [done|rewrite <- surjective_pairing; exact busy_reachable|].
  split; [exact Hb|]. apply not_true_is_false. intros Hcl. apply Hc in Hcl as [_ Hlt]. vm_compute in Hlt. discriminate.
Defined.

Lemma dump_covers_differences_witness :
  ∃ d' t, start_dated_dump (Ag := unit) (St := N) id small_range 1 busy.1 small_map [(Included 2, Excluded 9); (Unbounded, Excluded 4)]%N 7%N small_fp 0
    = Some (d', t) ∧ t = None ∧ ∃ l, pending_dumps d' !! 7%N = Some l ∧ StronglySorted apart l.
Proof.
  destruct (dump_covers_differences (Ag := unit) id small_range small_range 1 small_range_spec small_range_nodup small_admission busy.1 busy.2
    small_map [(Included 2, Excluded 9); (Unbounded, Excluded 4)]%N 7%N small_fp 0) as (d' & t & Hs & Hno & _).
  - vm_compute. discriminate.
  - rewrite <- surjective_pairing. exact busy_reachable.
  - by repeat constructor.
  - exists d', t. split; [exact Hs|]. destruct Hno as [-> (l & Hl & Ha & _)]; [vm_compute; reflexivity|]. split; [done|]. exists l.
    split; [rewrite Hl; apply lookup_insert_eq|exact Ha].
Defined.

(** Work found between a task's last look at the stash and the release of its slot is stashed and
    stays there with no task left, every slot free. *)
Lemma stash_outlives_task : ∃ d l, rtc (dump_step (Ag := unit) id small_range small_range 1) (dumps_new small_admission, []) (d, []) ∧
  pending_dumps d !! 7%N = Some (l : list (EnumerationRange N)) ∧ l ≠ [] ∧ bulk_dumps_in_flight d = 0%N.
Proof.
  eexists _, _. split; [|split; [|split]].
  - etransitivity; [exact busy_reachable|].
    eapply rtc_l; [eapply (step_sent _ _ _ _ _ [] _ [] small_map ∅); reflexivity|].
    eapply rtc_l; [eapply (step_dated _ _ _ _ _ _ small_map [(Unbounded, Unbounded)] 7%N small_fp 0); [by repeat constructor|reflexivity]|].
    eapply rtc_l; [eapply (step_uncount _ _ _ _ _ [] _ []); reflexivity|].
    eapply rtc_l; [eapply (step_finish _ _ _ _ _ [] _ []); reflexivity|]. apply rtc_refl.
  - vm_compute. reflexivity.
  - done.
  - vm_compute. reflexivity.
Qed.
