(* ===== verification/TimeoutWheel.v ===== *)
(** * The timeout wheel ([src/timeout_wheel.rs])

    Tombstones by the instant they were deleted at, in an ordered map of buckets with a reverse
    index. Instants are [chrono]'s, counted from its earliest one; adding a duration past its
    latest one, [datetime_max], panics ([None]). *)
From stdpp Require Import gmap list sorting.
From Stdlib Require Import NArith.
From S2P Require Import Prelude Btree RecoveryBook.

Section wheel.
Context {T : Type} `{Countable T} (datetime_max : N).

Record TimeoutWheel := {
  tw_wheel : list (N * gset T);
  tw_map : gmap T N;
  tw_timeout : N;
}.
Implicit Types (w : TimeoutWheel) (b : list (N * gset T)).

Definition DEFAULT_TIMEOUT : N := seconds 60.
Definition wheel_new : TimeoutWheel := {| tw_wheel := []; tw_map := ∅; tw_timeout := DEFAULT_TIMEOUT |}.

Definition set_timeout w (timeout : N) : TimeoutWheel :=
  {| tw_wheel := tw_wheel w; tw_map := tw_map w; tw_timeout := timeout |}.

(** Both [insert] and [remove] clear the slot of [e] at [instant] and drop an emptied bucket. *)
Definition clear_slot b (instant : N) (e : T) : list (N * gset T) :=
  match bt_get instant b with
  | Some bucket =>
      let bucket := bucket ∖ {[e]} in
      if decide (bucket = ∅) then bt_remove instant b else bt_insert instant bucket b
  | None => b
  end.

Definition wheel_insert w (e : T) (instant : N) : TimeoutWheel :=
  let b := match tw_map w !! e with Some old_instant => clear_slot (tw_wheel w) old_instant e | None => tw_wheel w end in
  {| tw_wheel := bt_insert instant ({[e]} ∪ default ∅ (bt_get instant b)) b;
     tw_map := <[e := instant]> (tw_map w); tw_timeout := tw_timeout w |}.

Definition wheel_remove w (value : T) : TimeoutWheel * option T :=
  match tw_map w !! value with
  | None => (w, None)
  | Some instant =>
      ({| tw_wheel := clear_slot (tw_wheel w) instant value; tw_map := delete value (tw_map w);
          tw_timeout := tw_timeout w |}, Some value)
  end.

(** [take_while] over the buckets in order. *)
Fixpoint expired_buckets b (timeout now : N) : option (list T) :=
  match b with
  | [] => Some []
  | (instant, values) :: b =>
      if (instant + timeout <=? datetime_max)%N then
        if (instant + timeout <? now)%N then l ← expired_buckets b timeout now; Some (elements values ++ l) else Some []
      else None
  end.

Definition expired w (now : N) : option (list T) := expired_buckets (tw_wheel w) (tw_timeout w) now.

(** ** Well-formed wheels *)

Definition in_bucket b (i : N) (e : T) : Prop := ∃ s, bt_get i b = Some s ∧ e ∈ s.
Definition no_empty b : Prop := ∀ i s, bt_get i b = Some s → s ≠ ∅.

Record wheel_ok w : Prop := {
  wo_sorted : bt_sorted (tw_wheel w);
  wo_nonempty : no_empty (tw_wheel w);
  wo_index i e : in_bucket (tw_wheel w) i e ↔ tw_map w !! e = Some i;
}.

Lemma in_bucket_insert b i s j x : in_bucket (bt_insert i s b) j x ↔ (j = i ∧ x ∈ s) ∨ (j ≠ i ∧ in_bucket b j x).
Proof.
  unfold in_bucket. destruct (decide (j = i)) as [->|Hne].
  - setoid_rewrite bt_get_insert_eq. naive_solver.
  - setoid_rewrite (bt_get_insert_ne i j s b (not_eq_sym Hne)). naive_solver.
Qed.

Lemma clear_slot_spec b i e : bt_sorted b → no_empty b →
  bt_sorted (clear_slot b i e) ∧ no_empty (clear_slot b i e) ∧
  ∀ j x, in_bucket (clear_slot b i e) j x ↔ in_bucket b j x ∧ ¬ (j = i ∧ x = e).
Proof.
  intros Hs Hn. unfold clear_slot. destruct (bt_get i b) as [s|] eqn:Hi.
  2:{ split_and!; [done..|]. intros j x. split; [|tauto]. intros Hx. split; [done|]. intros [-> ->].
      destruct Hx as (s & Hg & _). congruence. }
  case_decide as He.
  - split_and!; [by apply bt_remove_sorted| |].
    + intros j s' Hj. destruct (decide (j = i)) as [->|Hne]; [by rewrite bt_get_remove_eq in Hj|].
      rewrite bt_get_remove_ne in Hj by done. by apply (Hn j).
    + intros j x. unfold in_bucket. destruct (decide (j = i)) as [->|Hne].
      * rewrite bt_get_remove_eq, Hi by done. split; [by intros (? & ? & _)|]. intros [(s' & [= <-] & Hx) Hxe]. set_solver.
      * rewrite bt_get_remove_ne by done. naive_solver.
  - split_and!; [by apply bt_insert_sorted| |].
    + intros j s'. destruct (decide (j = i)) as [->|Hne]; [rewrite bt_get_insert_eq; by intros [= <-]|].
      rewrite bt_get_insert_ne by done. by apply Hn.
    + intros j x. rewrite in_bucket_insert. unfold in_bucket. destruct (decide (j = i)) as [->|Hne]; [|naive_solver].
      rewrite Hi. set_solver.
Qed.

Lemma wheel_new_ok : wheel_ok wheel_new.
Proof. constructor; cbn; [constructor|done|]. intros i e. rewrite lookup_empty. split; [by intros (? & ? & _)|done]. Qed.

Lemma wheel_insert_ok w e i : wheel_ok w → wheel_ok (wheel_insert w e i).
Proof.
  intros [Hs Hn Hi]. unfold wheel_insert. set (b := match tw_map w !! e with Some _ => _ | None => _ end).
  assert (Hb : bt_sorted b ∧ no_empty b ∧ ∀ j x, in_bucket b j x ↔ tw_map w !! x = Some j ∧ x ≠ e).
  { unfold b. destruct (tw_map w !! e) as [o|] eqn:He.
    - destruct (clear_slot_spec (tw_wheel w) o e Hs Hn) as (? & ? & Hc). split_and!; [done..|].
      intros j x. rewrite Hc, Hi. split; [|naive_solver]. intros [Hx Hne]. split; [done|]. intros ->. apply Hne. split; [congruence|done].
    - split_and!; [done..|]. intros j x. rewrite Hi. split; [|tauto]. intros Hx. split; [done|]. intros ->. congruence. }
  destruct Hb as (Hs' & Hn' & Hb). constructor; cbn.
  - by apply bt_insert_sorted.
  - intros j s. destruct (decide (j = i)) as [->|Hne]; [rewrite bt_get_insert_eq; intros [= <-]; set_solver|].
    rewrite bt_get_insert_ne by done. by apply Hn'.
  - intros j x. rewrite in_bucket_insert, elem_of_union, elem_of_singleton, Hb, lookup_insert_Some.
    assert (Hd : x ∈ default ∅ (bt_get i b) ↔ in_bucket b i x).
    { unfold in_bucket. destruct (bt_get i b); cbn; set_solver. }
    rewrite Hd, Hb. destruct (decide (j = i)) as [->|], (decide (x = e)) as [->|]; naive_solver.
Qed.

Lemma wheel_remove_ok w e : wheel_ok w → wheel_ok (wheel_remove w e).1.
Proof.
  intros [Hs Hn Hi]. unfold wheel_remove. destruct (tw_map w !! e) as [o|] eqn:He; [|done].
  destruct (clear_slot_spec (tw_wheel w) o e Hs Hn) as (? & ? & Hc). constructor; cbn; [done..|].
  intros j x. rewrite Hc, Hi, lookup_delete_Some. split; [|naive_solver]. intros [Hx Hne]. split; [|done].
  intros ->. apply Hne. split; [congruence|done].
Qed.

Lemma expired_buckets_spec b timeout now : bt_sorted b →
  (∀ i s, (i, s) ∈ b → (i + timeout ≤ datetime_max)%N) → (∀ i j s s' e, (i, s) ∈ b → (j, s') ∈ b → e ∈ s → e ∈ s' → i = j) →
  ∃ l, expired_buckets b timeout now = Some l ∧ NoDup l ∧
    ∀ e, e ∈ l ↔ ∃ i s, (i, s) ∈ b ∧ e ∈ s ∧ (i + timeout < now)%N.
Proof.
  intros Hs Hm Hu. induction Hs as [|[i s] b Hs IH Hf]; cbn.
  { eexists. split_and!; [done|constructor|]. set_solver. }
  rewrite (proj2 (N.leb_le _ _)) by (apply (Hm i s); left). destruct (N.ltb_spec (i + timeout) now) as [Hlt|Hge].
  - destruct IH as (l & -> & Hnd & Hl); [intros j t ?; apply (Hm j t); by right|
      intros j k s' t e ? ? ? ?; apply (Hu j k s' t e); (done || by right)|]. cbn. eexists. split_and!; [done| |].
    + apply NoDup_app. split_and!; [apply NoDup_elements| |done]. intros e He%elem_of_elements (j & t & Hj & Het & _)%Hl.
      assert (i = j) as <- by (apply (Hu i j s t e); [left|by right|done..]).
      rewrite Forall_forall in Hf. specialize (Hf _ Hj). cbn in Hf. by rewrite ord_ltb_irrefl in Hf.
    + intros e. rewrite elem_of_app, elem_of_elements, Hl. setoid_rewrite elem_of_cons. naive_solver.
  - eexists. split_and!; [done|constructor|]. intros e. split; [by intros ?%not_elem_of_nil|].
    intros (j & t & [[= -> ->]|Hj]%elem_of_cons & _ & Hlt); [lia|]. rewrite Forall_forall in Hf. specialize (Hf _ Hj). cbn in Hf.
    apply ord_ltb_leb in Hf. cbn in Hf. apply N.leb_le in Hf. lia.
Qed.

(** ** Any sequence of calls *)

Inductive wheel_op := OpInsert (e : T) (instant : N) | OpRemove (e : T) | OpTimeout (timeout : N).

Definition wheel_run w (op : wheel_op) : TimeoutWheel :=
  match op with
  | OpInsert e i => wheel_insert w e i
  | OpRemove e => (wheel_remove w e).1
  | OpTimeout t => set_timeout w t
  end.

(** What the calls mean: the last instant each value was inserted at. *)
Definition tracked (m : gmap T N) (op : wheel_op) : gmap T N :=
  match op with OpInsert e i => <[e := i]> m | OpRemove e => delete e m | OpTimeout _ => m end.

Lemma wheel_run_ok ops w : wheel_ok w →
  wheel_ok (fold_left wheel_run ops w) ∧ tw_map (fold_left wheel_run ops w) = fold_left tracked ops (tw_map w).
Proof.
  revert w. induction ops as [|op ops IH]; intros w Hw; cbn; [done|].
  assert (Hop : wheel_ok (wheel_run w op) ∧ tw_map (wheel_run w op) = tracked (tw_map w) op).
  { destruct op as [e i|e|t]; cbn; split; [by apply wheel_insert_ok|done|by apply wheel_remove_ok| |by destruct Hw|done].
    unfold wheel_remove. destruct (tw_map w !! e) eqn:He; [done|]. by rewrite delete_id. }
  destruct Hop as [Hok <-]. by apply IH.
Qed.

(** What [expired] answers on a well-formed wheel. *)
Lemma expired_exact w now : wheel_ok w → (∀ e i, tw_map w !! e = Some i → (i + tw_timeout w ≤ datetime_max)%N) →
  ∃ l, expired w now = Some l ∧ NoDup l ∧ ∀ e, e ∈ l ↔ ∃ i, tw_map w !! e = Some i ∧ (i + tw_timeout w < now)%N.
Proof.
  intros [Hs Hn Hi] Hmax.
  assert (Hbk : ∀ i s e, (i, s) ∈ tw_wheel w → e ∈ s → tw_map w !! e = Some i).
  { intros i s e Hin He. apply Hi. exists s. split; [by apply bt_In_get|done]. }
  destruct (expired_buckets_spec (tw_wheel w) (tw_timeout w) now Hs) as (l & Hl & Hnd & Hel).
  - intros i s Hin. destruct (set_choose_or_empty s) as [[e He]|He]; [by apply (Hmax e), (Hbk i s)|].
    exfalso. apply (Hn i s); [by apply bt_In_get|by apply leibniz_equiv].
  - intros i j s t e Hin Hjn He He'. pose proof (Hbk _ _ _ Hin He). pose proof (Hbk _ _ _ Hjn He'). congruence.
  - exists l. split_and!; [done..|]. intros e. rewrite Hel. split.
    + intros (i & s & Hin & He & Hlt). exists i. split; [by apply (Hbk i s)|done].
    + intros (i & He & Hlt). apply Hi in He as (s & Hg & He). exists i, s. split; [by apply bt_get_In|done].
Qed.

(** The wheel is the map from values to the instant of their last insertion: after any
    sequence of insertions, removals and timeout changes, removing a value answers it exactly when
    it is tracked, and [expired] returns, without panicking while the deadlines are representable,
    each tracked value whose deadline has passed, once, and nothing else. *)
Theorem timeout_wheel_exact ops now :
  let w := fold_left wheel_run ops wheel_new in
  let m := fold_left tracked ops ∅ in
  (∀ e i, m !! e = Some i → (i + tw_timeout w ≤ datetime_max)%N) →
  (∀ e, (wheel_remove w e).2 = (λ _, e) <$> m !! e) ∧
  ∃ l, expired w now = Some l ∧ NoDup l ∧ ∀ e, e ∈ l ↔ ∃ i, m !! e = Some i ∧ (i + tw_timeout w < now)%N.
Proof.
  intros w m Hmax. destruct (wheel_run_ok ops wheel_new wheel_new_ok) as [Hok Hm]. fold w in Hok, Hm.
  cbn [tw_map wheel_new] in Hm. fold m in Hm. rewrite <- Hm in Hmax |- *. split; [|by apply expired_exact].
  intros e. unfold wheel_remove. by destruct (tw_map w !! e).
Qed.
End wheel.

Lemma timeout_wheel_exact_witness :
  let w := fold_left wheel_run [OpInsert 1 5; OpInsert 2 5; OpInsert 1 9; OpTimeout 3; OpRemove 2; OpInsert 3 20]%N wheel_new in
  (wheel_remove w 2%N).2 = None ∧ ∃ l, expired 1000 w 13%N = Some l ∧ NoDup l ∧ 1%N ∈ l.
Proof.
  destruct (timeout_wheel_exact 1000 [OpInsert 1 5; OpInsert 2 5; OpInsert 1 9; OpTimeout 3; OpRemove 2; OpInsert 3 20]%N 13)
    as (Hr & l & Hl & Hnd & Hel).
  - intros e i. cbn. rewrite lookup_insert_Some. intros [[_ <-]|[_ [_ He]%lookup_delete_Some]]; [done|].
    apply lookup_insert_Some in He as [[_ <-]|[_ He]]; [done|]. apply lookup_insert_Some in He as [[_ <-]|[_ He]]; [done|].
    apply lookup_insert_Some in He as [[_ <-]|[_ He]]; done.
  - split; [rewrite Hr; reflexivity|]. exists l. split; [exact Hl|]. split; [exact Hnd|]. apply Hel. exists 9%N. split; reflexivity.
Defined.
