(* ===== verification/Repair.v ===== *)
(** * Repair retries ([src/replica/repair.rs]) and acknowledgement resends
      ([resend_held_tombstone_acks] in [src/replica/reconciliation.rs])

    A comparison that goes unanswered is retried a bounded number of times; the acknowledgements of
    held tombstones are resent in rotation, as many per round as a byte budget allows. *)
From stdpp Require Import gmap list sorting.
From Stdlib Require Import NArith.
From Stdlib.Strings Require Import Byte.
From S2P Require Import Prelude Bytes SignedCausal Messages Replica Samples.

(** ** Pending repairs *)

Definition MAX_REPAIR_ATTEMPTS : N := 4.

Record PendingRepair := { deadline : N; attempts : N }.

Section repairs.
Context {P : Type} `{Countable P}.
Implicit Types (pending : gmap P PendingRepair).

Definition note_pending_repair pending (peer : P) (now interval : N) : gmap P PendingRepair :=
  match pending !! peer with
  | Some _ => pending
  | None => <[peer := {| deadline := now + interval; attempts := 0 |}]> pending
  end.

(** The receive loop on a complete payload. *)
Definition clear_repair pending (peer : P) : gmap P PendingRepair := delete peer pending.

(** The closure of [retain]: the entry kept, and whether its peer is due. *)
Definition retry_entry (now interval : N) (repair : PendingRepair) : option PendingRepair * bool :=
  if (now <? deadline repair)%N then (Some repair, false)
  else
    let attempts := (attempts repair + 1)%N in
    if (MAX_REPAIR_ATTEMPTS <? attempts)%N then (None, false)
    else (Some {| deadline := now + interval; attempts := attempts |}, true).

Definition retry_due_repairs pending (now interval : N) : gmap P PendingRepair * list P :=
  (omap (λ repair, (retry_entry now interval repair).1) pending,
   (filter (λ kv, (retry_entry now interval kv.2).2 = true) (map_to_list pending)).*1).

(** *** Any sequence of events *)

Inductive repair_event := RNote (peer : P) (now interval : N) | RReply (peer : P) | RTick (now interval : N).

Definition repair_step (st : gmap P PendingRepair * list P) (ev : repair_event) : gmap P PendingRepair * list P :=
  let '(pending, sent) := st in
  match ev with
  | RNote peer now interval => (note_pending_repair pending peer now interval, sent)
  | RReply peer => (clear_repair pending peer, sent)
  | RTick now interval => let '(pending, due) := retry_due_repairs pending now interval in (pending, sent ++ due)
  end.

Definition times (peer : P) (l : list P) : N := len (filter (λ p, p = peer) l).
Definition notes_peer (peer : P) (ev : repair_event) : bool :=
  match ev with RNote p _ _ => bool_decide (p = peer) | _ => false end.
Fixpoint notes (peer : P) (evs : list repair_event) : N :=
  match evs with [] => 0 | ev :: evs => (if notes_peer peer ev then 1 else 0) + notes peer evs end.

(** The retries an entry may still send. *)
Definition remaining pending (peer : P) : N :=
  match pending !! peer with Some repair => MAX_REPAIR_ATTEMPTS - attempts repair | None => 0 end.

Lemma due_times pending peer now interval :
  times peer (retry_due_repairs pending now interval).2 =
  match pending !! peer with Some repair => if (retry_entry now interval repair).2 then 1%N else 0%N | None => 0%N end.
Proof.
  unfold times, retry_due_repairs. cbn [snd]. set (l := (filter _ _).*1).
  assert (Hnd : NoDup l).
  { apply NoDup_fmap_2_strong; [|apply NoDup_filter, NoDup_map_to_list].
    intros [p r] [p' r'] [_ Hr%elem_of_map_to_list]%list_elem_of_filter [_ Hr'%elem_of_map_to_list]%list_elem_of_filter. cbn. congruence. }
  assert (Hl : peer ∈ l ↔ ∃ repair, pending !! peer = Some repair ∧ (retry_entry now interval repair).2 = true).
  { unfold l. rewrite list_elem_of_fmap. setoid_rewrite list_elem_of_filter. split.
    - intros ([p r] & -> & Hr & Hin%elem_of_map_to_list). by exists r.
    - intros (r & Hp & Hr). exists (peer, r). by rewrite elem_of_map_to_list. }
  clearbody l. assert (Hcount : length (filter (λ p, p = peer) l) = if decide (peer ∈ l) then 1 else 0).
  { clear Hl. induction Hnd as [|p l Hp Hnd IH]; [by rewrite decide_False by set_solver|]. rewrite filter_cons.
    destruct (decide (p = peer)) as [->|Hne]; cbn; rewrite IH.
    - rewrite (decide_False (P := peer ∈ l)), (decide_True (P := peer ∈ peer :: l)) by (done || left). done.
    - destruct (decide (peer ∈ l)); [rewrite decide_True by (by right)|rewrite decide_False by set_solver]; done. }
  rewrite Hcount. destruct (pending !! peer) as [r|] eqn:Hr.
  - destruct ((retry_entry now interval r).2) eqn:Hd; [rewrite decide_True by (apply Hl; eauto)|
      rewrite decide_False by (rewrite Hl; intros (? & [= <-] & ?); congruence)]; done.
  - rewrite decide_False by (rewrite Hl; by intros (? & ? & _)). done.
Qed.

Lemma repair_step_remaining pending sent ev peer :
  let st := repair_step (pending, sent) ev in
  (times peer st.2 + remaining st.1 peer ≤ times peer sent + remaining pending peer + MAX_REPAIR_ATTEMPTS * notes peer [ev])%N.
Proof.
  unfold MAX_REPAIR_ATTEMPTS. destruct ev as [p now interval|p|now interval]; cbn.
  - unfold note_pending_repair, remaining, MAX_REPAIR_ATTEMPTS.
    destruct (pending !! p) eqn:Hp; [lia|]. destruct (decide (p = peer)) as [->|Hne].
    + rewrite bool_decide_true, lookup_insert_eq, Hp by done. cbn. lia.
    + rewrite lookup_insert_ne by done. lia.
  - unfold remaining, clear_repair. destruct (decide (p = peer)) as [->|Hne]; [rewrite lookup_delete_eq|rewrite lookup_delete_ne by done]; lia.
  - pose proof (due_times pending peer now interval) as Hd. cbn [retry_due_repairs snd] in *. unfold times in *.
    rewrite filter_app, length_app. unfold remaining. rewrite lookup_omap. destruct (pending !! peer) as [r|] eqn:Hr; cbn in *; [|lia].
    unfold retry_entry, MAX_REPAIR_ATTEMPTS in *. destruct (now <? deadline r)%N; cbn in *; [lia|].
    destruct (N.ltb_spec 4 (attempts r + 1)); cbn in *; lia.
Qed.

Lemma repair_run_remaining evs pending sent peer :
  let st := fold_left repair_step evs (pending, sent) in
  (times peer st.2 + remaining st.1 peer ≤ times peer sent + remaining pending peer + MAX_REPAIR_ATTEMPTS * notes peer evs)%N.
Proof.
  revert pending sent. induction evs as [|ev evs IH]; intros pending sent; cbn [fold_left]; [cbn; lia|].
  pose proof (repair_step_remaining pending sent ev peer) as Hs. destruct (repair_step (pending, sent) ev) as [pending' sent'].
  specialize (IH pending' sent'). cbn in *. lia.
Qed.

(** The retries of one unanswered comparison, one interval after the other. *)
Fixpoint unanswered pending (now interval : N) (ticks : nat) : gmap P PendingRepair * list P :=
  match ticks with
  | O => (pending, [])
  | S ticks =>
      let '(pending, due) := retry_due_repairs pending now interval in
      let '(pending, sent) := unanswered pending (now + interval) interval ticks in (pending, due ++ sent)
  end.

Lemma unanswered_entry pending peer now interval r ticks :
  pending !! peer = Some r → (deadline r ≤ now)%N → (attempts r ≤ MAX_REPAIR_ATTEMPTS)%N →
  times peer (unanswered pending now interval ticks).2 = N.min (N.of_nat ticks) (MAX_REPAIR_ATTEMPTS - attempts r) ∧
  ((MAX_REPAIR_ATTEMPTS - attempts r < N.of_nat ticks)%N → (unanswered pending now interval ticks).1 !! peer = None).
Proof.
  revert pending now r. induction ticks as [|ticks IH]; intros pending now r Hr Hd Ha; cbn [unanswered].
  { unfold times. cbn. split; lia. }
  assert (Hnone : ∀ pending' now', pending' !! peer = None →
    times peer (unanswered pending' now' interval ticks).2 = 0%N ∧ (unanswered pending' now' interval ticks).1 !! peer = None).
  { clear. induction ticks as [|ticks IH]; intros pending' now' Hn; cbn; [done|].
    pose proof (due_times pending' peer now' interval) as Ht. rewrite Hn in Ht. cbn in Ht.
    destruct (IH (omap (λ repair, (retry_entry now' interval repair).1) pending') (now' + interval)%N) as [IH1 IH2]; [by rewrite lookup_omap, Hn|].
    destruct (unanswered _ _ _ ticks). cbn in *. unfold times in *. rewrite filter_app, length_app. split; [lia|done]. }
  pose proof (due_times pending peer now interval) as Ht. rewrite Hr in Ht.
  assert (Hl : (retry_due_repairs pending now interval).1 !! peer = (retry_entry now interval r).1).
  { unfold retry_due_repairs. cbn. by rewrite lookup_omap, Hr. }
  destruct (retry_due_repairs pending now interval) as [pending1 due]. cbn [fst snd] in *.
  unfold retry_entry in *. rewrite (proj2 (N.ltb_ge now (deadline r))) in * by done.
  unfold MAX_REPAIR_ATTEMPTS in *. destruct (N.ltb_spec 4 (attempts r + 1)); cbn in *.
  - destruct (Hnone pending1 (now + interval)%N Hl) as [Hs Hf]. destruct (unanswered pending1 _ _ _). cbn in *.
    unfold times in *. rewrite filter_app, length_app. split; [lia|done].
  - destruct (IH pending1 (now + interval)%N _ Hl) as [Hs Hf]; [cbn; lia|cbn; lia|]. destruct (unanswered pending1 _ _ _). cbn in *.
    unfold times in *. rewrite filter_app, length_app. split; [lia|]. intros Hlt. apply Hf. lia.
Qed.
Lemma repair_run_attempts evs (st : gmap P PendingRepair * list P) :
  (∀ p r, st.1 !! p = Some r → (attempts r ≤ MAX_REPAIR_ATTEMPTS)%N) →
  ∀ p r, (fold_left repair_step evs st).1 !! p = Some r → (attempts r ≤ MAX_REPAIR_ATTEMPTS)%N.
Proof.
  intros Hst. apply fold_left_inv; [done|]. clear. intros [pending sent] ev _ Hst p r.
  destruct ev as [q now interval|q|now interval]; cbn in *.
  - unfold note_pending_repair. destruct (pending !! q) eqn:Hq; [apply Hst|].
    intros [[_ <-]|[_ Hr]]%lookup_insert_Some; [cbn; lia|by apply (Hst p)].
  - unfold clear_repair. intros [_ Hr]%lookup_delete_Some. by apply (Hst p).
  - rewrite lookup_omap. intros (r0 & Hr0 & Hr)%bind_Some. revert Hr. unfold retry_entry, MAX_REPAIR_ATTEMPTS in *.
    destruct (now <? deadline r0)%N; cbn; [intros [= <-]; by apply (Hst p)|].
    destruct (N.ltb_spec 4 (attempts r0 + 1)); cbn; [done|]. intros [= <-]. cbn. lia.
Qed.

(** Repair traffic is bounded, and an unanswered comparison is retried: whatever the order
    of notes, replies and timer ticks, a peer is sent at most four retries per comparison it owes
    an answer to; and once one is due, with no reply, every tick an interval apart retries it until
    the four are used, after which the entry is gone. *)
Theorem repairs_bounded_and_retried (evs : list repair_event) peer now interval ticks :
  let st := fold_left repair_step evs (∅, []) in
  (times peer st.2 ≤ MAX_REPAIR_ATTEMPTS * notes peer evs)%N ∧
  ∀ r, st.1 !! peer = Some r → (deadline r ≤ now)%N →
    times peer (unanswered st.1 now interval ticks).2 = N.min (N.of_nat ticks) (MAX_REPAIR_ATTEMPTS - attempts r) ∧
    ((MAX_REPAIR_ATTEMPTS - attempts r < N.of_nat ticks)%N → (unanswered st.1 now interval ticks).1 !! peer = None).
Proof.
  intros st. split.
  - pose proof (repair_run_remaining evs ∅ [] peer) as Hr. unfold remaining in Hr at 2. rewrite lookup_empty in Hr.
    unfold st. change (times peer []) with 0%N in Hr. cbn in *. lia.
  - intros r Hr Hd. apply unanswered_entry; [done..|]. refine (repair_run_attempts evs (∅, []) _ peer r Hr).
    intros p r0. cbn. by rewrite lookup_empty.
Qed.
End repairs.

(** ** Resending the acknowledgements of held tombstones *)

Definition TOMBSTONE_ACK_RESEND_BYTE_BUDGET : N := 8 * 1024.

Section resend.
Context {K V S E C : Type} `{Countable K} `{!RustOrd K} `{Lww V S E C} (encode_ack : K → N → list byte).
Implicit Types (keys : list K) (m : gmap K E).

(** [sort_unstable] on distinct keys *)
Fixpoint insert_key (k : K) keys : list K :=
  match keys with
  | [] => [k]
  | k' :: keys => if ord_leb k k' then k :: k' :: keys else k' :: insert_key k keys
  end.
Definition sort_keys keys : list K := foldr insert_key [] keys.

(** [binary_search] on sorted distinct keys: [Ok] the index, or [Err] where to insert. *)
Definition binary_search keys (k : K) : result nat nat :=
  let index := length (filter (λ k', ord_ltb k' k = true) keys) in
  if decide (keys !! index = Some k) then Ok index else Err index.

Definition resend_start keys (cursor : option K) : nat :=
  match cursor with
  | None => 0
  | Some next => match binary_search keys next with Ok index => index | Err index => index mod length keys end
  end.

(** The loop: the buffer, the next cursor and what was appended. *)
Fixpoint resend_loop m (budget : N) keys (send_buf : list byte) : list byte * option K * list (K * N) :=
  match keys with
  | [] => (send_buf, None, [])
  | key :: keys =>
      if (budget <=? len send_buf)%N then (send_buf, Some key, [])
      else match m !! key with
           | Some v =>
               if is_tombstone v then
                 let '(send_buf, next, acks) := resend_loop m budget keys (send_buf ++ encode_ack key (version_hash v)) in
                 (send_buf, next, (key, version_hash v) :: acks)
               else resend_loop m budget keys send_buf
           | None => resend_loop m budget keys send_buf
           end
  end.

Definition resend_held_tombstone_acks (live : gset K) m (cursor : option K) (send_buf : list byte)
    : list byte * option K * list (K * N) :=
  match elements live with
  | [] => (send_buf, None, [])
  | keys =>
      let keys := sort_keys keys in
      let start := resend_start keys cursor in
      resend_loop m (len send_buf + TOMBSTONE_ACK_RESEND_BYTE_BUDGET)%N (drop start keys ++ take start keys) send_buf
  end.

(** Consecutive rounds over unchanged tombstones, each with the buffer it appends to. *)
Fixpoint resend_rounds (live : gset K) m (cursor : option K) (buffers : list (list byte)) : list (list (K * N)) :=
  match buffers with
  | [] => []
  | buffer :: buffers =>
      let '(_, cursor, acks) := resend_held_tombstone_acks live m cursor buffer in
      acks :: resend_rounds live m cursor buffers
  end.

(** *** One round covers a prefix of the rotation *)

Lemma resend_loop_prefix m budget keys buf : let '(_, next, acks) := resend_loop m budget keys buf in
  ∃ j, next = keys !! j ∧ (next = None → j = length keys) ∧ ((len buf < budget)%N → keys ≠ [] → 0 < j) ∧
    (∀ k v, k ∈ take j keys → m !! k = Some v → is_tombstone v = true → (k, version_hash v) ∈ acks).
Proof.
  revert buf. induction keys as [|key keys IH]; intros buf; cbn [resend_loop].
  { exists 0. split_and!; [done..|]. by intros k v ?%not_elem_of_nil. }
  destruct (N.leb_spec budget (len buf)) as [Hle|Hlt].
  { exists 0. split_and!; [done|done|lia|]. by intros k v ?%not_elem_of_nil. }
  assert (Hstep : ∀ r : list byte * option K * list (K * N), (let '(_, next, acks) := r in
    ∃ j, next = keys !! j ∧ (next = None → j = length keys) ∧
      (∀ k v, k ∈ take j keys → m !! k = Some v → is_tombstone v = true → (k, version_hash v) ∈ acks)) →
    ∀ extra, (∀ v, m !! key = Some v → is_tombstone v = true → (key, version_hash v) ∈ extra) →
    ∃ j, r.1.2 = (key :: keys) !! j ∧ (r.1.2 = None → j = length (key :: keys)) ∧
      ((len buf < budget)%N → key :: keys ≠ [] → 0 < j) ∧
      (∀ k v, k ∈ take j (key :: keys) → m !! k = Some v → is_tombstone v = true → (k, version_hash v) ∈ extra ++ r.2)).
  { intros [[b next] acks] (j & Hj & Hend & Hacks) extra Hx. exists (Datatypes.S j). cbn in *. split_and!; [done|naive_solver|lia|].
    intros k v [->|Hk]%elem_of_cons Hv Ht; apply elem_of_app; [left|right]; eauto. }
  destruct (m !! key) as [v|] eqn:Hv; [destruct (is_tombstone v) eqn:Ht|].
  - specialize (IH (buf ++ encode_ack key (version_hash v))). destruct (resend_loop m budget keys _) as [[b next] acks].
    destruct (Hstep (b, next, acks)) with (extra := [(key, version_hash v)]) as (j & ?); [naive_solver| |by exists j].
    intros v' [= <-] _. left.
  - specialize (IH buf). destruct (resend_loop m budget keys _) as [[b next] acks].
    destruct (Hstep (b, next, acks)) with (extra := [] : list (K * N)) as (j & ?); [naive_solver| |by exists j].
    intros v' [= <-]. congruence.
  - specialize (IH buf). destruct (resend_loop m budget keys _) as [[b next] acks].
    destruct (Hstep (b, next, acks)) with (extra := [] : list (K * N)) as (j & ?); [naive_solver|done|by exists j].
Qed.

(** *** The rotation *)

Definition ascending keys : Prop := StronglySorted (λ a b, ord_ltb a b = true) keys.
Definition rotation (start : nat) keys : list K := drop start keys ++ take start keys.

Lemma insert_key_perm k keys : insert_key k keys ≡ₚ k :: keys.
Proof. induction keys as [|k' keys IH]; cbn; [done|]. destruct (ord_leb k k'); [done|]. rewrite IH. apply Permutation_swap. Qed.

Lemma sort_keys_spec keys : NoDup keys → ascending (sort_keys keys) ∧ sort_keys keys ≡ₚ keys.
Proof.
  induction 1 as [|k keys Hk Hnd [IHs IHp]]; [split; [constructor|done]|].
  change (sort_keys (k :: keys)) with (insert_key k (sort_keys keys)). split; [|by rewrite insert_key_perm, IHp].
  rewrite <- IHp in Hk. clear Hnd IHp. unfold ascending in *. induction IHs as [|k' l Hs IH Hf]; cbn; [repeat constructor|].
  destruct (ord_leb k k') eqn:Hle.
  - constructor; [by constructor|]. assert (Hlt : ord_ltb k k' = true).
    { unfold ord_ltb. apply negb_true_iff, not_true_is_false. intros Hge. apply Hk. rewrite (ord_leb_antisym k k') by done. left. }
    constructor; [done|]. eapply Forall_impl; [exact Hf|]. intros x Hx. eapply ord_leb_ltb_trans; [exact Hle|exact Hx].
  - constructor; [apply IH; set_solver|]. rewrite insert_key_perm. constructor; [|done]. unfold ord_ltb. by rewrite Hle.
Qed.

Lemma ascending_index keys i k : ascending keys → keys !! i = Some k →
  length (filter (λ k', ord_ltb k' k = true) keys) = i.
Proof.
  intros Hs. revert i. induction Hs as [|k' keys Hs IH Hf]; intros i; [by rewrite lookup_nil|]. rewrite filter_cons.
  destruct i as [|i]; cbn [lookup list_lookup].
  - intros [= ->]. rewrite decide_False by (by rewrite ord_ltb_irrefl).
    destruct (filter _ keys) as [|x l] eqn:Hx; [done|]. exfalso.
    assert (x ∈ filter (λ k', ord_ltb k' k = true) keys) as [Hlt Hin]%list_elem_of_filter by (rewrite Hx; left).
    rewrite Forall_forall in Hf. pose proof (ord_ltb_leb_trans _ _ _ (Hf _ Hin) (ord_ltb_leb _ _ Hlt)) as Hc. by rewrite ord_ltb_irrefl in Hc.
  - intros Hi. rewrite Forall_forall in Hf. rewrite decide_True by (apply Hf; by eapply list_elem_of_lookup_2). cbn. by rewrite (IH i).
Qed.

Lemma resend_start_index keys i k : ascending keys → keys !! i = Some k → resend_start keys (Some k) = i.
Proof. intros Hs Hi. unfold resend_start, binary_search. rewrite (ascending_index keys i k Hs Hi). by rewrite decide_True. Qed.

Lemma resend_start_lt keys cursor : ascending keys → keys ≠ [] → resend_start keys cursor < length keys.
Proof.
  intros Hs Hne. assert (0 < length keys) by (by destruct keys; cbn; [|lia]). unfold resend_start, binary_search.
  destruct cursor as [k|]; [|done]. case_decide as Hk; [by eapply lookup_lt_Some|]. apply Nat.mod_upper_bound. lia.
Qed.

(** Resuming at the key where a round stopped rotates the rotation. *)
Lemma rotation_resume keys start j k : ascending keys → start ≤ length keys → rotation start keys !! j = Some k →
  rotation (resend_start keys (Some k)) keys = drop j (rotation start keys) ++ take j (rotation start keys).
Proof.
  intros Hs Hst Hj. unfold rotation in *. pose proof (lookup_lt_Some _ _ _ Hj) as Hlt. rewrite length_app, length_drop, length_take in Hlt.
  destruct (decide (j < length keys - start)) as [Hin|Hout].
  - rewrite lookup_app_l, lookup_drop in Hj by (rewrite length_drop; lia). rewrite (resend_start_index keys (start + j) k Hs Hj).
    rewrite drop_app_le, take_app_le, drop_drop by (rewrite length_drop; lia). rewrite <- (assoc_L (++)). f_equal.
    by rewrite take_take_drop.
  - rewrite lookup_app_r, length_drop in Hj by (rewrite length_drop; lia). set (i := j - (length keys - start)) in *.
    rewrite lookup_take_lt in Hj by lia. rewrite (resend_start_index keys i k Hs Hj).
    rewrite drop_app_ge, take_app_ge, length_drop by (rewrite length_drop; lia). fold i. rewrite take_take, Nat.min_l by lia.
    rewrite (assoc_L (++)). f_equal. rewrite <- (take_drop start keys) at 1. rewrite drop_app_le by (rewrite length_take; lia). done.
Qed.

Lemma resend_rounds_cover (live : gset K) m cursor buffers d k v :
  let keys := sort_keys (elements live) in
  rotation (resend_start keys cursor) keys !! d = Some k → d < length buffers →
  m !! k = Some v → is_tombstone v = true → (k, version_hash v) ∈ concat (resend_rounds live m cursor buffers).
Proof.
  intros keys Hd Hlen Hv Ht. destruct (sort_keys_spec (elements live) (NoDup_elements _)) as [Hs Hp]. fold keys in Hs, Hp.
  revert cursor d Hd Hlen. induction buffers as [|buffer buffers IH]; intros cursor d Hd Hlen; cbn in Hlen; [lia|].
  cbn [resend_rounds]. set (rot := rotation (resend_start keys cursor) keys) in *.
  assert (Hne : keys ≠ []).
  { intros Hnil. unfold rot, rotation in Hd. rewrite Hnil, take_nil, drop_nil in Hd. done. }
  assert (Hround : resend_held_tombstone_acks live m cursor buffer
    = resend_loop m (len buffer + TOMBSTONE_ACK_RESEND_BYTE_BUDGET)%N rot buffer).
  { unfold resend_held_tombstone_acks. destruct (elements live) eqn:He; [by apply symmetry, Permutation_nil_r in Hp|].
    unfold rot, rotation, keys. done. }
  rewrite Hround. pose proof (resend_loop_prefix m (len buffer + TOMBSTONE_ACK_RESEND_BYTE_BUDGET)%N rot buffer) as Hl.
  destruct (resend_loop _ _ _ _) as [[b next] acks]. destruct Hl as (j & Hj & _ & Hpos & Hacks). cbn [concat]. apply elem_of_app.
  assert (0 < j) as Hj0. { apply Hpos; [change TOMBSTONE_ACK_RESEND_BYTE_BUDGET with 8192%N; lia|]. intros Hnil. by rewrite Hnil in Hd. }
  destruct (decide (d < j)) as [Hin|Hout].
  { left. apply (Hacks k v); [|done..]. eapply list_elem_of_lookup_2. by rewrite lookup_take_lt. }
  right. pose proof (lookup_lt_Some _ _ _ Hd) as Hdl. destruct (lookup_lt_is_Some_2 rot j) as [key Hkey]; [lia|].
  rewrite Hkey in Hj. subst next. apply (IH (Some key) (d - j)); [|lia].
  rewrite (rotation_resume keys (resend_start keys cursor) j key Hs) by (done || (apply Nat.lt_le_incl, resend_start_lt; done)).
  fold rot. rewrite lookup_app_l, lookup_drop by (rewrite length_drop; lia). by replace (j + (d - j)) with d by lia.
Qed.

(** C28. No held tombstone starves: over as many consecutive rounds as there are held
    tombstones, whatever the cursor they start from and the datagrams they append to, each one is
    acknowledged with its current version in at least one round. *)
Theorem tombstone_acks_all_resent (live : gset K) m cursor buffers k v :
  size live ≤ length buffers → k ∈ live → m !! k = Some v → is_tombstone v = true →
  (k, version_hash v) ∈ concat (resend_rounds live m cursor buffers).
Proof.
  intros Hsz Hk Hv Ht. destruct (sort_keys_spec (elements live) (NoDup_elements _)) as [_ Hp].
  set (keys := sort_keys (elements live)) in *. set (rot := rotation (resend_start keys cursor) keys).
  assert (Hrot : rot ≡ₚ elements live).
  { rewrite <- Hp. unfold rot, rotation. rewrite Permutation_app_comm. by rewrite take_drop. }
  assert (k ∈ rot) as [d Hd]%list_elem_of_lookup by (by rewrite Hrot, elem_of_elements).
  apply (resend_rounds_cover live m cursor buffers d k v); [exact Hd| |done..].
  apply lookup_lt_Some in Hd. rewrite (Permutation_length Hrot) in Hd. change (size live) with (length (elements live)) in Hsz. lia.
Qed.
End resend.

(** ** Witnesses *)

Lemma repairs_bounded_and_retried_witness :
  let evs := [RNote 7 0 10; RTick 5 10; RTick 12 10; RNote 7 13 10]%N in
  let st := fold_left repair_step evs (∅, []) in
  (times 7%N st.2 ≤ 8)%N ∧ times 7%N (unanswered st.1 30 10 9).2 = 3%N ∧ (unanswered st.1 30 10 9).1 !! 7%N = None.
Proof.
  destruct (repairs_bounded_and_retried [RNote 7 0 10; RTick 5 10; RTick 12 10; RNote 7 13 10]%N 7%N 30 10 9) as [Hb Hu].
  split; [exact Hb|]. destruct (Hu {| deadline := 22; attempts := 1 |}) as [Ht Hn]; [reflexivity|cbn; lia|].
  split; [rewrite Ht; reflexivity|]. apply Hn. reflexivity.
Defined.

#[local] Existing Instance small_lww.

(** Each round has room for one acknowledgement only. *)
Lemma tombstone_acks_all_resent_witness :
  (2%N, version_hash 5%N) ∈ concat (resend_rounds (V := N) (S := N) (C := N) (λ _ _, replicate (N.to_nat 8192) x00) ({[1; 2; 3]}%N : gset N)
    {[1%N := 3%N; 2%N := 5%N; 3%N := 8%N]} (Some 3%N) [[]; []; []]).
Proof.
  apply (tombstone_acks_all_resent (λ _ _, replicate (N.to_nat 8192) x00) ({[1; 2; 3]}%N : gset N) {[1%N := 3%N; 2%N := 5%N; 3%N := 8%N]}
    (Some 3%N) [[]; []; []] 2%N 5%N); [vm_compute; lia|set_solver|reflexivity|reflexivity].
Defined.
