(* ===== verification/Engine.v ===== *)
(** * The receive path ([src/replica/run.rs], [src/replica/dispatch.rs])

    One datagram from the socket to the replica: admission, reassembly, recovery control, decoding
    and the handlers of the decoded batch, with what they send. [rbsr]'s comparison round over a
    tree, its random generator, [bincode] and the keyed hash of a comparison are arguments. One
    reading of the monotonic clock stands for those of one datagram; [meanwhile] is what the hooks
    do between the two passes over a batch of updates. *)
From stdpp Require Import gmap list.
From Stdlib Require Import NArith.
From Stdlib.Strings Require Import Byte.
From S2P Require Import Prelude Bytes Replay Auth Framing Reassembly Missing RecoveryBook FramedSend Admission Ingress.
From S2P Require Import Journal SignedCausal Messages Replica Dumps Repair.

Section engine.
Context {K V S E C St P Ag R : Type} `{Countable K, Countable P} `{Lww V S E C} `{!EntryState V S E St}.
Context `{!RustOrd K, !RustOrd S, !RustOrd P} `{!EqDecision S} `{Mac, Aead}.
Notation Msg := (Message Ag K E St).
Notation Addr := (P * N)%type.
(** external code *)
Context (blake3_hash : list byte → id32) (wall : N → N) (nonce : N → list byte).
Context (encode : Msg → list byte) (deserialize : list byte → result (Msg * list byte) DeserializeError).
Context (entries_in : gmap K E → EnumerationRange K → list (K * E)) (states_in : gmap K St → EnumerationRange K → list (K * St)).
Context (dated_round : gmap K E → list Ag → R → list Ag * list (EnumerationRange K) * R)
        (value_round : gmap K St → list Ag → R → list Ag * list (EnumerationRange K) * R)
        (comparison_fingerprint : list Ag → id32).
(** configuration *)
Context (authenticator : Authenticator) (framing : FramingConfig).
Context (max_peers max_concurrent_bulk_dumps repair_interval : N).

Record Engine := {
  en_replica : Replica K E St P;
  en_clock : C;
  en_replay : ReplayFilter.Filter P;
  en_reassembler : Reassembler P;
  en_send : SendState (P := P);
  en_dumps : Dumps Addr P K;
  en_tasks : list (DumpTask (A := Addr) (K := K) (E := E) (St := St) (Ag := Ag));
  en_repairs : gmap P PendingRepair;
  en_receiving : gmap P N;
  en_peers : gmap P N;
  en_rng : R;
}.
Implicit Types (e : Engine).

Definition set_replica e (r : Replica K E St P) (c : C) : Engine :=
  {| en_replica := r; en_clock := c; en_replay := en_replay e; en_reassembler := en_reassembler e;
     en_send := en_send e; en_dumps := en_dumps e; en_tasks := en_tasks e; en_repairs := en_repairs e;
     en_receiving := en_receiving e; en_peers := en_peers e; en_rng := en_rng e |}.
Definition set_inbound e (f : ReplayFilter.Filter P) (ra : Reassembler P) : Engine :=
  {| en_replica := en_replica e; en_clock := en_clock e; en_replay := f; en_reassembler := ra;
     en_send := en_send e; en_dumps := en_dumps e; en_tasks := en_tasks e; en_repairs := en_repairs e;
     en_receiving := en_receiving e; en_peers := en_peers e; en_rng := en_rng e |}.
Definition set_dump e (d : Dumps Addr P K) ts : Engine :=
  {| en_replica := en_replica e; en_clock := en_clock e; en_replay := en_replay e; en_reassembler := en_reassembler e;
     en_send := en_send e; en_dumps := d; en_tasks := ts; en_repairs := en_repairs e;
     en_receiving := en_receiving e; en_peers := en_peers e; en_rng := en_rng e |}.
Definition set_contacts e (repairs : gmap P PendingRepair) (receiving peers : gmap P N) : Engine :=
  {| en_replica := en_replica e; en_clock := en_clock e; en_replay := en_replay e; en_reassembler := en_reassembler e;
     en_send := en_send e; en_dumps := en_dumps e; en_tasks := en_tasks e; en_repairs := repairs;
     en_receiving := receiving; en_peers := peers; en_rng := en_rng e |}.
Definition set_rng e (rng : R) : Engine :=
  {| en_replica := en_replica e; en_clock := en_clock e; en_replay := en_replay e; en_reassembler := en_reassembler e;
     en_send := en_send e; en_dumps := en_dumps e; en_tasks := en_tasks e; en_repairs := en_repairs e;
     en_receiving := en_receiving e; en_peers := en_peers e; en_rng := rng |}.
(** Run a send, keeping its effects. *)
Definition run_send {A} e (m : SendState (P := P) → SendState (P := P) * A) : Engine * A :=
  let '(s, a) := m (en_send e) in
  ({| en_replica := en_replica e; en_clock := en_clock e; en_replay := en_replay e; en_reassembler := en_reassembler e;
      en_send := s; en_dumps := en_dumps e; en_tasks := en_tasks e; en_repairs := en_repairs e;
      en_receiving := en_receiving e; en_peers := en_peers e; en_rng := en_rng e |}, a).

(** ** Handlers of a decoded batch *)

Definition encoded_capability : list byte := encode (Reserved6 SELECTIVE_RECOVERY_CAPABILITY).

Definition send_to e (peer : Addr) (now : N) (messages : list Msg) : Engine :=
  (run_send e (send_messages_paced blake3_hash authenticator framing wall nonce peer now encoded_capability (encode <$> messages))).1.
Definition send_control_to e (peer : Addr) (now : N) (messages : list Msg) : Engine :=
  (run_send e (send_control_batch_to blake3_hash authenticator framing wall nonce peer now encoded_capability (encode <$> messages))).1.

Definition handle_dated_comparison e (in_comparison : list Ag) (peer : Addr) (now : N) : option Engine :=
  match in_comparison with
  | [] => Some e
  | _ =>
      let fp := comparison_fingerprint in_comparison in
      let '(out_comparison, differences, rng) := dated_round (rp_map (en_replica e)) in_comparison (en_rng e) in
      let e := set_rng e rng in
      let e := match out_comparison with [] => e | _ => send_control_to e peer now (EntryFingerprint <$> out_comparison) end in
      e ← match differences with
          | [] => Some e
          | _ => '(d, t) ← start_dated_dump fst entries_in max_concurrent_bulk_dumps (en_dumps e) (rp_map (en_replica e))
                             differences peer fp now;
                 Some (set_dump e d (en_tasks e ++ option_list t))
          end;
      Some (match out_comparison, differences with [], [] => send_to e peer now [ConvergenceAck] | _, _ => e end)
  end.

Definition handle_updates e (updates : list (K * E)) (peer : Addr) (now : N)
    (meanwhile : Replica K E St P → Replica K E St P) : Engine :=
  match updates with
  | [] => e
  | _ =>
      let e := set_contacts e (note_pending_repair (en_repairs e) peer.1 now repair_interval)
                 (<[peer.1 := now]> (en_receiving e)) (en_peers e) in
      let '(r, c, acks) := apply_dated_updates (en_replica e) (en_clock e) updates meanwhile in
      let e := set_replica e r c in
      match acks with [] => e | _ => send_to e peer now (TombstoneAck <$> acks) end
  end.

Definition handle_value_comparison e (in_comparison : list Ag) (peer : Addr) (now : N) : option Engine :=
  match in_comparison with
  | [] => Some e
  | _ =>
      let fp := comparison_fingerprint in_comparison in
      let '(out_comparison, differences, rng) := value_round (rp_projection (en_replica e)) in_comparison (en_rng e) in
      let e := set_rng e rng in
      let e := match out_comparison with [] => e | _ => send_control_to e peer now (StateFingerprint <$> out_comparison) end in
      match differences with
      | [] => Some e
      | _ => '(d, t) ← start_value_dump fst states_in max_concurrent_bulk_dumps (en_dumps e) (rp_projection (en_replica e))
                         differences peer fp now;
             Some (set_dump e d (en_tasks e ++ option_list t))
      end
  end.

(** The answer is whether the sender spoke the dated channel. *)
Definition handle_messages e (payload : list byte) (peer : Addr) (now : N)
    (meanwhile : Replica K E St P → Replica K E St P) : option (Engine * bool) :=
  match decode_datagram deserialize payload with
  | None => Some (e, false)
  | Some batch =>
      let e := if selective_recovery_capability batch
               then (run_send e (with_book (λ b, (record_capability b peer.1 now framing max_peers, tt)))).1 else e in
      let e := set_replica e (record_tombstone_acks (en_replica e) (tombstone_acks batch) peer.1) (en_clock e) in
      e ← handle_dated_comparison e (dated_ranges batch) peer now;
      let e := handle_updates e (dated_updates batch) peer now meanwhile in
      e ← handle_value_comparison e (value_ranges batch) peer now;
      Some (e, spoke_dated batch)
  end.

(** The end of the receive loop, for a complete payload. *)
Definition receive_payload e (payload : list byte) (peer : Addr) (now : N)
    (meanwhile : Replica K E St P → Replica K E St P) : option Engine :=
  let e := set_contacts e (clear_repair (en_repairs e) peer.1) (en_receiving e) (en_peers e) in
  '(e, dated) ← handle_messages e payload peer now meanwhile;
  Some (if (dated : bool) then
          let e := set_contacts e (en_repairs e) (en_receiving e) (<[peer.1 := now]> (en_peers e)) in
          set_replica e (admit_member (en_replica e) peer.1) (en_clock e)
        else e).

(** ** One datagram of [recv_loop]; [now_ms] is the wall clock read by the replay check *)

Definition peer_supports e (peer : Addr) (now : N) : Engine * bool :=
  run_send e (with_book (λ b, supports b peer.1 now framing)).

Definition handle_frame_event e (ev : FrameEvent) (peer : Addr) (now : N)
    (meanwhile : Replica K E St P → Replica K E St P) : option Engine :=
  match ev with
  | Logical payload completed_transfer =>
      let e := match completed_transfer with
               | Some transfer_id =>
                   let '(e, supported) := peer_supports e peer now in
                   if supported then
                     (run_send e (send_recovery_control_to authenticator wall nonce peer (write_completion_ack transfer_id))).1
                   else e
               | None => e
               end in
      receive_payload e payload peer now meanwhile
  | RequestMissing transfer_id ranges =>
      let '(e, supported) := peer_supports e peer now in
      Some (if supported then
              match write_missing_report transfer_id ranges with
              | Ok frame => (run_send e (send_recovery_control_to authenticator wall nonce peer frame)).1
              | Err _ => e
              end
            else e)
  | EvMissing transfer_id ranges =>
      Some (run_send e (retransmit_missing_to authenticator framing wall nonce peer transfer_id ranges now)).1
  | EvCompleteAck transfer_id => Some (run_send e (complete_recovery peer transfer_id)).1
  | EvPending => Some e
  end.

Definition max_missing_ranges : N :=
  max_missing_ranges_for_budget (datagram_payload_budget framing) (N.of_nat (overhead authenticator))
    (max_missing_ranges_per_report framing).

Definition recv_datagram e (datagram : list byte) (peer : Addr) (now_ms now : N)
    (meanwhile : Replica K E St P → Replica K E St P) : option Engine :=
  if (BUFFER_SIZE <? len datagram)%N then Some e
  else
    let '(f, admitted) :=
      admit_inbound authenticator (en_replay e) max_peers peer.1 datagram
        (λ _, (bool_decide (peer.1 ∈ rp_members (en_replica e)), N.of_nat (size (rp_members (en_replica e))))) now_ms in
    match admitted with
    | Err _ => Some (set_inbound e f (en_reassembler e))
    | Ok payload =>
        '(ra, ev) ← accept_frame blake3_hash (en_reassembler e) peer.1 payload max_missing_ranges now;
        handle_frame_event (set_inbound e f ra) ev peer now meanwhile
    end.
End engine.
