(* ===== verification/EngineProps.v ===== *)
(** * What the receive path guarantees

    No datagram makes the receive loop panic or breaks an invariant of a component it goes through,
    everything it does to the replica is a sequence of the replica's critical sections, and only an
    admitted, complete payload with a dated message does anything to it. *)
From stdpp Require Import gmap list relations.
From Stdlib Require Import NArith.
From Stdlib.Strings Require Import Byte.
From S2P Require Import Prelude Bytes Replay Auth Framing Reassembly ReassemblyInv Missing ReassemblyProps.
From S2P Require Import RecoveryBook FramedSend FramedSendProps Admission Ingress.
From S2P Require Import Journal SignedCausal Messages Replica Samples ReplicaInv ReplicaProps Dumps Repair Engine.

Section engine.
Context {K V S E C St P Ag R : Type} `{Countable K, Countable P} `{Lww V S E C} `{!EntryState V S E St}.
Context `{!RustOrd K, !RustOrd S, !RustOrd P} `{!EqDecision S} `{Mac, Aead}.
Notation Msg := (Message Ag K E St).
Notation Addr := (P * N)%type.
Notation Eng := (Engine (K := K) (E := E) (C := C) (St := St) (P := P) (Ag := Ag) (R := R)).
Context (blake3_hash : list byte → id32) (wall : N → N) (nonce : N → list byte).
Context (encode : Msg → list byte) (deserialize : list byte → result (Msg * list byte) DeserializeError).
Context (entries_in : gmap K E → EnumerationRange K → list (K * E)) (states_in : gmap K St → EnumerationRange K → list (K * St)).
Context (dated_round : gmap K E → list Ag → R → list Ag * list (EnumerationRange K) * R)
        (value_round : gmap K St → list Ag → R → list Ag * list (EnumerationRange K) * R)
        (comparison_fingerprint : list Ag → id32).
Context (authenticator : Authenticator) (framing : FramingConfig).
Context (max_peers max_concurrent_bulk_dumps repair_interval : N).
Notation handle_updates := (handle_updates blake3_hash wall nonce encode authenticator framing repair_interval).
Notation handle_messages := (handle_messages blake3_hash wall nonce encode deserialize entries_in states_in dated_round value_round
  comparison_fingerprint authenticator framing max_peers max_concurrent_bulk_dumps repair_interval).
Notation handle_dated_comparison := (handle_dated_comparison blake3_hash wall nonce encode entries_in dated_round
  comparison_fingerprint authenticator framing max_concurrent_bulk_dumps).
Notation handle_value_comparison := (handle_value_comparison blake3_hash wall nonce encode states_in value_round
  comparison_fingerprint authenticator framing max_concurrent_bulk_dumps).
Notation receive_payload := (receive_payload blake3_hash wall nonce encode deserialize entries_in states_in dated_round value_round
  comparison_fingerprint authenticator framing max_peers max_concurrent_bulk_dumps repair_interval).
Notation handle_frame_event := (handle_frame_event blake3_hash wall nonce encode deserialize entries_in states_in dated_round value_round
  comparison_fingerprint authenticator framing max_peers max_concurrent_bulk_dumps repair_interval).
Notation recv_datagram := (recv_datagram blake3_hash wall nonce encode deserialize entries_in states_in dated_round value_round
  comparison_fingerprint authenticator framing max_peers max_concurrent_bulk_dumps repair_interval).
Implicit Types (e : Eng).

(** ** Who touches the dated state *)

(** [e'] has the dated state, the clock and the contacts of [e]. *)
Definition same_dated e e' : Prop :=
  en_replica e' = en_replica e ∧ en_clock e' = en_clock e ∧ en_peers e' = en_peers e.

Lemma same_dated_trans e1 e2 e3 : same_dated e1 e2 → same_dated e2 e3 → same_dated e1 e3.
Proof. unfold same_dated. intros (-> & -> & ->) (-> & -> & ->). done. Qed.

Lemma run_send_dated {A} e (m : SendState (P := P) → SendState (P := P) * A) : same_dated e (run_send e m).1.
Proof. unfold run_send. by destruct (m (en_send e)). Qed.

Lemma value_comparison_dated e l peer now e' : handle_value_comparison e l peer now = Some e' → same_dated e e'.
Proof.
  unfold Engine.handle_value_comparison. destruct l as [|a l]; [by intros [= <-]|].
  destruct (value_round _ _ _) as [[out differences] rng].
  set (e1 := match out with [] => _ | _ => _ end).
  assert (same_dated e e1) by (unfold e1; destruct out; [done|apply (same_dated_trans _ (set_rng e rng)); [done|apply run_send_dated]]).
  destruct differences; [by intros [= <-]|]. destruct (start_value_dump _ _ _ _ _ _ _ _ _) as [[d t]|]; [|done]. by intros [= <-].
Qed.

Lemma admit_member_in (r : Replica K E St P) p : p ∈ rp_members (admit_member r p).
Proof. unfold admit_member. destruct (decide (p ∈ rp_members r)) as [Hp|Hp]; [exact Hp|]. cbn. set_solver. Qed.

(** A batch with no dated message leaves the dated state alone. *)
Lemma handle_messages_dated e payload peer now meanwhile e' :
  handle_messages e payload peer now meanwhile = Some (e', false) → same_dated e e'.
Proof.
  unfold Engine.handle_messages. destruct (decode_datagram deserialize payload) as [batch|]; [|by intros [= <-]].
  set (e1 := if selective_recovery_capability batch then _ else e).
  assert (H1e : same_dated e e1) by (unfold e1; destruct (selective_recovery_capability batch); [apply run_send_dated|done]).
  clearbody e1. intros (e2 & Hd & (e3 & Hv & [= <- Hspoke])%bind_Some)%bind_Some. unfold spoke_dated in Hspoke.
  destruct (dated_ranges batch); [|done]. destruct (dated_updates batch); [|done]. destruct (tombstone_acks batch); [|done].
  injection Hd as <-. apply value_comparison_dated in Hv. eapply same_dated_trans; [exact H1e|]. by eapply same_dated_trans.
Qed.

(** C11. The dated state, the clock and the gossip contacts change only by a datagram that
    authenticates, passes the version, peer-cap and replay checks, completes a logical payload, and
    carries at least one dated message: read replicas, recovery control, fragments and refused or
    malformed datagrams cannot touch them, nor join the membership. *)
Theorem dated_state_guarded e datagram peer now_ms now meanwhile e' :
  recv_datagram e datagram peer now_ms now meanwhile = Some e' →
  (en_replica e' = en_replica e ∧ en_clock e' = en_clock e ∧ en_peers e' = en_peers e) ∨
  ∃ f payload ra message transfer batch,
    admit_inbound authenticator (en_replay e) max_peers peer.1 datagram
      (λ _, (bool_decide (peer.1 ∈ rp_members (en_replica e)), N.of_nat (size (rp_members (en_replica e))))) now_ms
      = (f, Ok payload) ∧
    accept_frame blake3_hash (en_reassembler e) peer.1 payload (max_missing_ranges authenticator framing) now = Some (ra, Logical message transfer) ∧
    decode_datagram deserialize message = Some batch ∧ spoke_dated batch = true ∧ peer.1 ∈ rp_members (en_replica e').
Proof.
  unfold Engine.recv_datagram. destruct (_ <? _)%N; [intros [= <-]; by left|].
  destruct (admit_inbound _ _ _ _ _ _ _) as [f [payload|err]] eqn:Ha; [|intros [= <-]; by left].
  intros ([ra ev] & Hf & Hev)%bind_Some. set (e1 := set_inbound e f ra) in *. assert (H1e : same_dated e e1) by done. clearbody e1.
  destruct ev as [message transfer|id ranges|id ranges|id|]; cbn [Engine.handle_frame_event] in Hev.
  - revert Hev. set (e2 := match transfer with Some _ => _ | None => _ end). intros Hev.
    assert (H2e : same_dated e e2).
    { apply (same_dated_trans _ e1); [done|]. unfold e2. destruct transfer as [id|]; [|done].
      pose proof (run_send_dated e1 (with_book (λ b, supports b peer.1 now framing))) as Hs. unfold peer_supports.
      destruct (run_send e1 _) as [e3 []]; [|done]. eapply same_dated_trans; [exact Hs|]. apply run_send_dated. }
    clearbody e2. unfold Engine.receive_payload in Hev. apply bind_Some in Hev as ([e3 dated] & Hm & Hev).
    destruct dated; injection Hev as <-.
    + right. exists f, payload, ra, message, transfer. revert Hm. unfold Engine.handle_messages.
      destruct (decode_datagram deserialize message) as [batch|]; [|done].
      intros (? & _ & (? & _ & [= _ Hspoke])%bind_Some)%bind_Some. exists batch. split_and!; [done..|].
      apply admit_member_in.
    + left. apply (same_dated_trans _ e2); [done|]. by apply handle_messages_dated in Hm.
  - left. pose proof (run_send_dated e1 (with_book (λ b, supports b peer.1 now framing))) as Hs. unfold peer_supports in Hev.
    destruct (run_send e1 _) as [e3 []]; injection Hev as <-; eapply same_dated_trans; try exact H1e; [|done].
    destruct (write_missing_report id ranges); [|done]. eapply same_dated_trans; [exact Hs|]. apply run_send_dated.
  - injection Hev as <-. left. eapply same_dated_trans; [exact H1e|]. apply run_send_dated.
  - injection Hev as <-. left. eapply same_dated_trans; [exact H1e|]. apply run_send_dated.
  - injection Hev as <-. by left.
Qed.

(** ** Well-formed engines *)

Context (Hbook : book_cfg_ok framing) (Hvalid : framing_validate framing (N.of_nat (overhead authenticator)) = Ok tt).
Context (Hnonce : ∀ q, length (nonce q) = AEAD_NONCE_LEN) (Hhash : ∀ m, length (blake3_hash m) = 32).
Context (Hdumps : (max_concurrent_bulk_dumps ≤ u64_max)%N).
(** [rbsr] emits half-open ranges. *)
Context (dated_half_open : ∀ m l rng, Forall half_open (dated_round m l rng).1.2)
        (value_half_open : ∀ m l rng, Forall half_open (value_round m l rng).1.2).

Record engine_ok e : Prop := {
  eo_reassembler : wf (en_reassembler e);
  eo_ids : ids_ok (en_reassembler e);
  eo_book : book_ok framing (s_book (en_send e));
  eo_budget : Forall (in_budget framing) (s_log (en_send e));
  eo_stash : stash_ok (en_dumps e);
  eo_slots : slots_exact max_concurrent_bulk_dumps (en_dumps e) (en_tasks e);
}.

(** A step that leaves the engine well formed and works on the replica by critical sections. *)
Definition sound_step e e' : Prop := engine_ok e → engine_ok e' ∧ rtc critical (en_replica e) (en_replica e').

Lemma sound_refl e : sound_step e e.
Proof. intros Hok. split; [done|apply rtc_refl]. Qed.
Lemma sound_trans e1 e2 e3 : sound_step e1 e2 → sound_step e2 e3 → sound_step e1 e3.
Proof. intros H12 H23 Hok. destruct (H12 Hok) as [Hok2 ?]. destruct (H23 Hok2) as [? ?]. split; [done|]. by etransitivity. Qed.

Lemma run_send_sound {A} e (m : SendState (P := P) → SendState (P := P) * A) R' : sends framing m R' → sound_step e (run_send e m).1.
Proof.
  intros Hm [Hr Hi Hb Hl Hst Hsl]. destruct (Hm (en_send e) Hb) as (l & Hb' & Hlog & Hl' & _). unfold run_send.
  destruct (m (en_send e)) as [s a]. cbn in *. split; [|apply rtc_refl]. constructor; cbn; [done..| |done|done].
  rewrite Hlog. by apply Forall_app.
Qed.

Lemma set_contacts_sound e a b c : sound_step e (set_contacts e a b c).
Proof. intros [Hr Hi Hb Hl Hst Hsl]. split; [by constructor|apply rtc_refl]. Qed.
Lemma set_rng_sound e rng : sound_step e (set_rng e rng).
Proof. intros [Hr Hi Hb Hl Hst Hsl]. split; [by constructor|apply rtc_refl]. Qed.
Lemma set_replica_sound e r c : rtc critical (en_replica e) r → sound_step e (set_replica e r c).
Proof. intros Hrtc [Hr Hi Hb Hl Hst Hsl]. split; [by constructor|done]. Qed.

Lemma send_to_sound e peer now ms : sound_step e (send_to blake3_hash wall nonce encode authenticator framing e peer now ms).
Proof. unfold send_to. eapply run_send_sound. by apply sends_messages. Qed.
Lemma send_control_sound e peer now ms : sound_step e (send_control_to blake3_hash wall nonce encode authenticator framing e peer now ms).
Proof. unfold send_control_to. eapply run_send_sound. by apply sends_control. Qed.

(** A dump started by a comparison. *)
Lemma dump_sound e channel updates_of differences peer fp now : engine_ok e → Forall half_open differences →
  ∃ d t, start_dump fst max_concurrent_bulk_dumps (en_dumps e) channel updates_of differences peer fp now = Some (d, t) ∧
    engine_ok (set_dump e d (en_tasks e ++ option_list t)).
Proof.
  intros [Hr Hi Hb Hl Hst Hsl] Hd. destruct (start_dump_spec fst max_concurrent_bulk_dumps (en_dumps e) channel updates_of differences peer fp now Hst Hd)
    as (d & t & l & Hs & Hst' & _). exists d, t. split; [exact Hs|]. constructor; [done..|].
  by apply (start_slots fst max_concurrent_bulk_dumps (en_dumps e) (en_tasks e) channel updates_of differences peer fp now).
Qed.

Lemma dated_comparison_sound e l peer now : engine_ok e →
  ∃ e', handle_dated_comparison e l peer now = Some e' ∧ engine_ok e' ∧ en_replica e' = en_replica e.
Proof.
  intros Hok. unfold Engine.handle_dated_comparison. destruct l as [|a l]; [by exists e|]. set (fp := comparison_fingerprint _).
  pose proof (dated_half_open (rp_map (en_replica e)) (a :: l) (en_rng e)) as Hho.
  destruct (dated_round _ _ _) as [[out differences] rng]. cbn in Hho. set (e1 := match out with [] => _ | _ => _ end).
  assert (Hok1 : engine_ok e1 ∧ en_replica e1 = en_replica e).
  { destruct (set_rng_sound e rng Hok) as [Hok' _]. unfold e1. destruct out; [done|].
    split; [by apply send_control_sound|exact (proj1 (run_send_dated _ _))]. }
  clearbody e1. destruct Hok1 as [Hok1 Hr1].
  assert (Hd : ∃ e2, match differences with [] => Some e1 | _ => '(d, t) ← start_dated_dump fst entries_in max_concurrent_bulk_dumps
      (en_dumps e1) (rp_map (en_replica e1)) differences peer fp now; Some (set_dump e1 d (en_tasks e1 ++ option_list t)) end = Some e2 ∧
    engine_ok e2 ∧ en_replica e2 = en_replica e).
  { destruct differences as [|r differences]; [by exists e1|].
    destruct (dump_sound e1 Dated (entry_updates entries_in (rp_map (en_replica e1))) (r :: differences) peer fp now Hok1 Hho) as (d & t & Hs & Hok2).
    unfold start_dated_dump. rewrite Hs. cbn. by eexists. }
  destruct Hd as (e2 & -> & Hok2 & Hr2). cbn. eexists. split; [done|].
  destruct out, differences; cbn; try done. split; [by apply send_to_sound|]. rewrite <- Hr2. exact (proj1 (run_send_dated _ _)).
Qed.

Lemma value_comparison_sound e l peer now : engine_ok e →
  ∃ e', handle_value_comparison e l peer now = Some e' ∧ engine_ok e' ∧ en_replica e' = en_replica e.
Proof.
  intros Hok. unfold Engine.handle_value_comparison. destruct l as [|a l]; [by exists e|]. set (fp := comparison_fingerprint _).
  pose proof (value_half_open (rp_projection (en_replica e)) (a :: l) (en_rng e)) as Hho.
  destruct (value_round _ _ _) as [[out differences] rng]. cbn in Hho. set (e1 := match out with [] => _ | _ => _ end).
  assert (Hok1 : engine_ok e1 ∧ en_replica e1 = en_replica e).
  { destruct (set_rng_sound e rng Hok) as [Hok' _]. unfold e1. destruct out; [done|].
    split; [by apply send_control_sound|exact (proj1 (run_send_dated _ _))]. }
  clearbody e1. destruct Hok1 as [Hok1 Hr1]. destruct differences as [|r differences]; [by exists e1|].
  destruct (dump_sound e1 ValueOnly (state_updates states_in (rp_projection (en_replica e1))) (r :: differences) peer fp now Hok1 Hho)
    as (d & t & Hs & Hok2). unfold start_value_dump. rewrite Hs. cbn. by eexists.
Qed.

Lemma updates_sound e l peer now meanwhile : (∀ r, rtc critical r (meanwhile r)) →
  sound_step e (handle_updates e l peer now meanwhile).
Proof.
  intros Hmw. unfold Engine.handle_updates. destruct l as [|u l]; [apply sound_refl|].
  set (e1 := set_contacts _ _ _ _). assert (Hc : rtc critical (en_replica e1) (apply_dated_updates (en_replica e1) (en_clock e1) (u :: l) meanwhile).1.1).
  { unfold apply_dated_updates. destruct (plan_updates _ _ _) as [[c to_apply] acks].
    pose proof (crit_updates (meanwhile (en_replica e1)) to_apply acks) as Hcrit.
    destruct (commit_updates _ to_apply acks) as [r' acks']. eapply rtc_r; [apply Hmw|exact Hcrit]. }
  apply (sound_trans _ e1); [apply set_contacts_sound|]. destruct (apply_dated_updates _ _ _ _) as [[r c] acks]. cbn in Hc.
  apply (sound_trans _ (set_replica e1 r c)); [by apply set_replica_sound|]. destruct acks; [apply sound_refl|apply send_to_sound].
Qed.

Lemma capability_sends (peer : P) now : sends framing (with_book (λ b, (record_capability b peer now framing max_peers, tt))) (λ _, True).
Proof.
  apply sends_book. intros b Hb. split; [|done]. cbn. unfold record_capability. destruct (negb (selective_recovery framing)); [done|].
  destruct (book_expire_ok framing (N.of_nat (size (capabilities b))) b now Hb (N.le_refl _)) as [Hb' _].
  destruct (book_expire b now framing) as [b1 rep]. cbn in Hb'. case_match; [by apply book_ok_caps|done].
Qed.

Lemma messages_sound e payload peer now meanwhile : (∀ r, rtc critical r (meanwhile r)) → engine_ok e →
  ∃ e' dated, handle_messages e payload peer now meanwhile = Some (e', dated) ∧ engine_ok e' ∧ rtc critical (en_replica e) (en_replica e').
Proof.
  intros Hmw Hok. unfold Engine.handle_messages. destruct (decode_datagram deserialize payload) as [batch|].
  2:{ eexists _, _. split_and!; [done..|apply rtc_refl]. }
  set (e1 := if selective_recovery_capability batch then _ else e).
  assert (H1e : sound_step e e1).
  { unfold e1. destruct (selective_recovery_capability batch); [|apply sound_refl]. eapply run_send_sound. apply capability_sends. }
  clearbody e1. set (e2 := set_replica e1 _ _).
  assert (H2e : sound_step e1 e2) by (apply set_replica_sound, rtc_once, crit_acks).
  destruct (sound_trans _ _ _ H1e H2e Hok) as [Hok2 Hr2].
  destruct (dated_comparison_sound e2 (dated_ranges batch) peer now Hok2) as (e3 & -> & Hok3 & Hr3). cbn.
  destruct (updates_sound e3 (dated_updates batch) peer now meanwhile Hmw Hok3) as [Hok4 Hr4].
  destruct (value_comparison_sound _ (value_ranges batch) peer now Hok4) as (e5 & -> & Hok5 & Hr5). cbn.
  eexists _, _. split_and!; [done..|]. rewrite Hr5. etransitivity; [exact Hr2|]. by rewrite <- Hr3.
Qed.

Lemma payload_sound e payload peer now meanwhile : (∀ r, rtc critical r (meanwhile r)) → engine_ok e →
  ∃ e', receive_payload e payload peer now meanwhile = Some e' ∧ engine_ok e' ∧ rtc critical (en_replica e) (en_replica e').
Proof.
  intros Hmw Hok. unfold Engine.receive_payload. set (e1 := set_contacts _ _ _ _).
  destruct (set_contacts_sound e (clear_repair (en_repairs e) peer.1) (en_receiving e) (en_peers e) Hok) as [Hok1 _]. fold e1 in Hok1.
  destruct (messages_sound e1 payload peer now meanwhile Hmw Hok1) as (e2 & dated & -> & Hok2 & Hr2). cbn.
  eexists. split; [done|]. destruct dated; [|done]. set (e3 := set_contacts _ _ _ _).
  destruct (set_replica_sound e3 (admit_member (en_replica e3) peer.1) (en_clock e3)) as [Hok4 Hr4].
  - apply rtc_once, crit_member.
  - by apply set_contacts_sound.
  - split; [done|]. etransitivity; [exact Hr2|exact Hr4].
Qed.

Lemma supports_sound e peer now : sound_step e (peer_supports framing e peer now).1.
Proof. eapply run_send_sound. apply sends_supports. Qed.

(** What the frame parser guarantees of the ids and ranges of an event. *)
Definition event_sized (ev : FrameEvent) : Prop :=
  match ev with
  | Logical _ (Some id) | EvMissing id _ => length id = 32
  | RequestMissing id ranges => length id = 32 ∧ (len ranges ≤ max_missing_ranges authenticator framing)%N
  | _ => True
  end.

Lemma event_ok_sized (r r' : Reassembler P) peer bytes now ev :
  event_ok blake3_hash r r' peer bytes (max_missing_ranges authenticator framing) now ev → event_sized ev.
Proof.
  destruct ev as [message [id|]|id ranges|id ranges|id|]; cbn; [by intros (-> & <- & _)|done| |by intros [(? & _)%parse_missing_inv _]|done|done].
  intros (t & _ & _ & -> & _ & m & Hm & _ & <-). split; [|apply missing_ranges_len]. revert Hm. unfold fragment_metadata.
  destruct (_ || _) eqn:Hc; [done|]. intros [= <-]. cbn [fm_transfer_id]. apply orb_false_iff in Hc as [_ Hlen]. apply Nat.leb_gt in Hlen.
  unfold FRAGMENT_HEADER_LEN in Hlen. unfold frame_id. rewrite length_slice; lia.
Qed.

Lemma event_sound e ev peer now meanwhile : (∀ r, rtc critical r (meanwhile r)) → event_sized ev → engine_ok e →
  ∃ e', handle_frame_event e ev peer now meanwhile = Some e' ∧ engine_ok e' ∧ rtc critical (en_replica e) (en_replica e').
Proof.
  intros Hmw Hev Hok. assert (Hmsg : ∀ e1 payload, sound_step e e1 →
    ∃ e', receive_payload e1 payload peer now meanwhile = Some e' ∧ engine_ok e' ∧ rtc critical (en_replica e) (en_replica e')).
  { intros e1 payload He1. destruct (He1 Hok) as [Hok1 Hr1].
    destruct (payload_sound e1 payload peer now meanwhile Hmw Hok1) as (e' & -> & ? & ?). eexists. split_and!; [done..|]. by etransitivity. }
  pose proof (supports_sound e peer now) as Hsup.
  destruct ev as [message transfer|id ranges|id ranges|id|]; cbn [Engine.handle_frame_event].
  - apply Hmsg. destruct transfer as [id|]; [|apply sound_refl]. destruct (peer_supports framing e peer now) as [e1 []]; [|done].
    eapply sound_trans; [exact Hsup|]. eapply run_send_sound. by eapply sends_completion_ack.
  - destruct (peer_supports framing e peer now) as [e1 supported]. eexists. split; [done|]. cbn in Hsup.
    destruct supported; [|by apply Hsup]. destruct (write_missing_report id ranges) as [frame|] eqn:Hw; [|by apply Hsup].
    destruct Hev as [Hid Hlen]. refine (sound_trans _ _ _ Hsup _ Hok). eapply run_send_sound. by eapply sends_report.
  - eexists. split; [done|]. refine (run_send_sound _ _ _ _ Hok). by eapply sends_retransmit.
  - eexists. split; [done|]. refine (run_send_sound _ _ (λ _, True) _ Hok). apply sends_book. intros b Hb. split; [|done].
    unfold book_complete. pose proof (book_remove_ok framing b (peer.1, id) Hb). by destruct (book_remove b _).
  - eexists. split_and!; [done..|apply rtc_refl].
Qed.

(** No datagram makes the receive loop panic or corrupts a component. *)
Lemma datagram_sound e datagram peer now_ms now meanwhile :
  (∀ r, rtc critical r (meanwhile r)) → engine_ok e →
  ∃ e', recv_datagram e datagram peer now_ms now meanwhile = Some e' ∧ engine_ok e' ∧
    rtc critical (en_replica e) (en_replica e').
Proof.
  intros Hmw Hok. unfold Engine.recv_datagram. destruct (_ <? _)%N; [by exists e; split_and!; [..|apply rtc_refl]|].
  assert (Hin : ∀ f ra, wf ra → ids_ok ra → engine_ok (set_inbound e f ra)) by (intros f ra ? ?; destruct Hok; by constructor).
  destruct (admit_inbound _ _ _ _ _ _ _) as [f [payload|err]].
  - destruct (accept_frame_spec blake3_hash (en_reassembler e) peer.1 payload (max_missing_ranges authenticator framing) now (eo_reassembler e Hok))
      as (ra & ev & Hf & Hra & _ & Hev). pose proof (frame_ids _ _ _ _ _ _ _ _ (eo_ids e Hok) Hf) as Hids. rewrite Hf. cbn.
    apply (event_sound (set_inbound e f ra) ev peer now meanwhile Hmw); [by eapply event_ok_sized|by apply Hin].
  - eexists. split_and!; [done|apply Hin; apply Hok|apply rtc_refl].
Qed.

(** ** What a gossiped batch does *)

Definition entry_update (message : Msg) : option (K * E) := match message with EntryUpdate u => Some u | _ => None end.

Lemma push_updates ms (b : DecodedDatagram Ag K E) :
  dated_updates (fold_left push_message ms b) = dated_updates b ++ omap entry_update ms.
Proof.
  revert b. induction ms as [|m ms IH]; intros b; cbn [fold_left omap list_omap]; [by rewrite app_nil_r|]. rewrite IH.
  destruct b, m; cbn; rewrite <- ?(assoc_L (++)); try done. by destruct (is_selective_recovery_capability _).
Qed.

(** The messages of the dated channel. *)
Definition dated_message (message : Msg) : bool :=
  match message with EntryFingerprint _ | EntryUpdate _ | TombstoneAck _ | ConvergenceAck => true | StateFingerprint _ | StateUpdate _ | Reserved6 _ => false end.

Lemma push_spoke ms (b : DecodedDatagram Ag K E) : spoke_dated (fold_left push_message ms b) = spoke_dated b || existsb dated_message ms.
Proof.
  revert b. induction ms as [|m ms IH]; intros b; cbn [fold_left existsb]; [by rewrite orb_false_r|]. rewrite IH, orb_assoc. f_equal.
  assert (Hsnoc : ∀ {X} (l : list X) x, bool_decide (l ++ [x] = []) = false) by (intros; apply bool_decide_eq_false_2; by intros [_ ?]%app_eq_nil).
  destruct b, m; cbn; unfold spoke_dated; cbn; rewrite ?Hsnoc; cbn; rewrite ?orb_true_r, ?orb_false_r; try done. by destruct (is_selective_recovery_capability _).
Qed.

Context (merge_lww : ∀ x y : E, merge x y = if ord_ltb (stamp x) (stamp y) then y else x).

Lemma updates_join e l peer now : joins (rp_map (en_replica e)) (rp_map (en_replica (handle_updates e l peer now id))) l.
Proof.
  assert (Hrefl : joins (rp_map (en_replica e)) (rp_map (en_replica e)) []).
  { split; [by left|]. intros k v [Hv|?%not_elem_of_nil]; [|done]. exists v. split; [done|]. apply ord_leb_refl. }
  unfold Engine.handle_updates. destruct l as [|u l]; [exact Hrefl|]. set (e1 := set_contacts _ _ _ _).
  assert (Hj : joins (rp_map (en_replica e)) (rp_map (apply_dated_updates (en_replica e1) (en_clock e1) (u :: l) id).1.1) (u :: l)).
  { unfold apply_dated_updates. destruct (plan_updates _ _ _) as [[c to_apply] acks] eqn:Hp. apply plan_spec in Hp as [Hsub Hcov].
    pose proof (commit_joins merge_lww (en_replica e1) to_apply acks) as [Hj1 Hj2]. unfold id at 1.
    destruct (commit_updates (en_replica e1) to_apply acks) as [r' acks']. cbn in *. split.
    - intros k v Hv. destruct (Hj1 k v Hv); [by left|right; auto].
    - intros k v [Hv|Hv]; [by apply Hj2; left|]. destruct (Hcov k v Hv) as [Hin|(local & Hl & Hle)]; [by apply Hj2; right|].
      destruct (Hj2 k local (or_introl Hl)) as (v' & Hv' & Hle'). exists v'. split; [done|]. by eapply ord_leb_trans. }
  destruct (apply_dated_updates _ _ _ _) as [[r c] acks]. cbn in Hj. destruct acks; [exact Hj|].
  unfold send_to. rewrite (proj1 (run_send_dated _ _)). exact Hj.
Qed.

(** Updates leave the membership alone. *)
Lemma updates_members e l peer now : rp_members (en_replica (handle_updates e l peer now id)) = rp_members (en_replica e).
Proof.
  unfold Engine.handle_updates. destruct l as [|u l]; [done|]. set (e1 := set_contacts _ _ _ _).
  assert (Hf : ∀ l (st : Replica K E St P * list (K * N)), rp_members (fold_left apply_update l st).1 = rp_members st.1).
  { clear. intros l. induction l as [|[k v] l IH]; intros [r acks]; cbn [fold_left]; [done|]. rewrite IH. cbn.
    destruct (rp_map r !! k) as [local|]; [|done]. by destruct (is_node_id_collision local v). }
  assert (Hm : rp_members (apply_dated_updates (en_replica e1) (en_clock e1) (u :: l) id).1.1 = rp_members (en_replica e)).
  { unfold apply_dated_updates. destruct (plan_updates _ _ _) as [[c to_apply] acks]. unfold commit_updates, id.
    destruct to_apply as [|x to_apply]; [done|]. specialize (Hf (x :: to_apply) (en_replica e1, acks)). by destruct (fold_left _ _ _). }
  destruct (apply_dated_updates _ _ _ _) as [[r c] acks]. cbn in Hm. destruct acks; [exact Hm|].
  unfold send_to. rewrite (proj1 (run_send_dated _ _)). exact Hm.
Qed.

Lemma acks_keep (r : Replica K E St P) acks p :
  rp_map (record_tombstone_acks r acks p) = rp_map r ∧ rp_members (record_tombstone_acks r acks p) = rp_members r.
Proof.
  unfold record_tombstone_acks. destruct acks as [|a acks]; [done|].
  assert (Hf : ∀ l (st : Replica K E St P * N), rp_map (fold_left (record_tombstone_ack p) l st).1 = rp_map st.1 ∧
    rp_members (fold_left (record_tombstone_ack p) l st).1 = rp_members st.1).
  { intros l. induction l as [|[k v] l IH]; intros [r0 n]; cbn [fold_left]; [done|]. destruct (IH (record_tombstone_ack p (r0, n) (k, v))) as [-> ->]. unfold record_tombstone_ack.
    destruct (match rp_map r0 !! k with Some _ => _ | None => _ end); [|done]. by destruct (decide _). }
  specialize (Hf (a :: acks) (r, 0%N)). destruct (fold_left _ _ _). exact Hf.
Qed.

Lemma admit_keeps_map (r : Replica K E St P) p : rp_map (admit_member r p) = rp_map r.
Proof. unfold admit_member. by destruct (decide _). Qed.

Lemma receive_joins e payload peer now e' batch : engine_ok e → decode_datagram deserialize payload = Some batch →
  receive_payload e payload peer now id = Some e' →
  joins (rp_map (en_replica e)) (rp_map (en_replica e')) (dated_updates batch) ∧
  rp_members (en_replica e') = (if spoke_dated batch then {[peer.1]} ∪ rp_members (en_replica e) else rp_members (en_replica e)).
Proof.
  intros Hok Hb. unfold Engine.receive_payload, Engine.handle_messages. rewrite Hb. set (e1 := set_contacts _ _ _ _).
  destruct (set_contacts_sound e (clear_repair (en_repairs e) peer.1) (en_receiving e) (en_peers e) Hok) as [Hok1 _]. fold e1 in Hok1.
  set (e2 := if selective_recovery_capability batch then _ else e1).
  assert (H2e : sound_step e1 e2 ∧ en_replica e2 = en_replica e1).
  { unfold e2. destruct (selective_recovery_capability batch); [|split; [apply sound_refl|done]].
    split; [eapply run_send_sound; apply capability_sends|exact (proj1 (run_send_dated _ _))]. }
  destruct H2e as [H2e Hr2]. set (e3 := set_replica e2 _ _). assert (Hok3 : engine_ok e3).
  { apply (set_replica_sound e2); [apply rtc_once, crit_acks|by apply H2e]. }
  destruct (dated_comparison_sound e3 (dated_ranges batch) peer now Hok3) as (e4 & -> & Hok4 & Hr4). cbn [mbind option_bind].
  pose proof (updates_join e4 (dated_updates batch) peer now) as Hj. pose proof (updates_members e4 (dated_updates batch) peer now) as Hmem.
  destruct (updates_sound e4 (dated_updates batch) peer now id (λ r, rtc_refl _ r) Hok4) as [Hok5 _].
  destruct (value_comparison_sound _ (value_ranges batch) peer now Hok5) as (e6 & -> & _ & Hr6). cbn [mbind option_bind].
  destruct (acks_keep (en_replica e2) (tombstone_acks batch) peer.1) as [Hkm Hkp]. rewrite Hr2 in Hkm, Hkp.
  rewrite <- Hr6, Hr4 in Hj, Hmem. unfold e3 in Hj, Hmem. cbn in Hj, Hmem. rewrite Hr2, Hkm in Hj. rewrite Hr2, Hkp in Hmem.
  intros [= <-]. destruct (spoke_dated batch); [|done]. cbn. rewrite admit_keeps_map. split; [exact Hj|].
  unfold admit_member. cbn. destruct (decide _) as [Hin|]; cbn; rewrite Hmem; [|done]. rewrite Hmem in Hin. set_solver.
Qed.

Context (deserialize_encode : ∀ m rest, deserialize (encode m ++ rest) = Ok (m, rest)) (deserialize_nil : deserialize [] = Err UnexpectedEof).

(** C10. A gossiped batch takes effect as one join: an admitted datagram that carries at most
    [MAX_MESSAGES_PER_DATAGRAM] messages in one frame leaves the replica with, for each key, the newest
    of its entry and the updates the batch carries for it, and nothing from elsewhere, and its sender is added
    to the members exactly when one of the messages is of the dated channel. Other tasks that run
    inside the handler are left out here. *)
Theorem gossiped_batch_joins e datagram peer now_ms now f payload messages :
  engine_ok e → (len datagram ≤ BUFFER_SIZE)%N → (len messages ≤ MAX_MESSAGES_PER_DATAGRAM)%N →
  admit_inbound authenticator (en_replay e) max_peers peer.1 datagram
    (λ _, (bool_decide (peer.1 ∈ rp_members (en_replica e)), N.of_nat (size (rp_members (en_replica e))))) now_ms
    = (f, Ok payload) →
  p_bytes payload = write_complete (concat (encode <$> messages)) →
  (len (concat (encode <$> messages)) ≤ max_logical_message_size (r_limits (en_reassembler e)))%N →
  ∃ e', recv_datagram e datagram peer now_ms now id = Some e' ∧
    joins (rp_map (en_replica e)) (rp_map (en_replica e')) (omap entry_update messages) ∧
    rp_members (en_replica e') =
      (if existsb dated_message messages then {[peer.1]} ∪ rp_members (en_replica e) else rp_members (en_replica e)).
Proof.
  intros Hok Hsize Hms Ha Hp Hmax. unfold Engine.recv_datagram. rewrite (proj2 (N.ltb_ge _ _)) by done. rewrite Ha.
  set (body := concat (encode <$> messages)) in *.
  assert (Hf : ∃ ra, accept_frame blake3_hash (en_reassembler e) peer.1 payload (max_missing_ranges authenticator framing) now
    = Some (ra, Logical body None) ∧ wf ra).
  { destruct (accept_frame_spec blake3_hash (en_reassembler e) peer.1 payload (max_missing_ranges authenticator framing) now (eo_reassembler e Hok))
      as (ra & ev & Hacc & Hra & _). exists ra. split; [|done]. rewrite Hacc. revert Hacc. unfold accept_frame, accept. rewrite Hp.
    assert (Hlim : r_limits (expire (en_reassembler e) now).1 = r_limits (en_reassembler e)).
    { exact (proj2 (expire_wf (en_reassembler e) now (eo_reassembler e Hok))). }
    change (parse_recovery_control (write_complete body) (max_missing_ranges authenticator framing))
      with (@Ok (option RecoveryControl) RecoveryControlError None). cbn [head write_complete mbind option_bind].
    destruct (expire (en_reassembler e) now) as [r0 n0]. cbn [fst] in Hlim. rewrite Hlim, bool_decide_true by done.
    rewrite (proj2 (N.ltb_ge (max_logical_message_size (r_limits (en_reassembler e))) _))
      by (unfold saturating_sub, COMPLETE_HEADER_LEN, write_complete; cbn [length]; lia).
    cbn. rewrite ?drop_0. by intros [= _ <-]. }
  destruct Hf as (ra & Hf & Hra). pose proof (frame_ids _ _ _ _ _ _ _ _ (eo_ids e Hok) Hf) as Hids. rewrite Hf.
  cbn [mbind option_bind Engine.handle_frame_event].
  assert (Hok1 : engine_ok (set_inbound e f ra)) by (destruct Hok; by constructor).
  destruct (payload_sound (set_inbound e f ra) body peer now id (λ r, rtc_refl _ r) Hok1) as (e' & Hr & _ & _).
  exists e'. split; [exact Hr|].
  assert (Hd : decode_datagram deserialize body = Some (fold_left push_message messages empty_datagram)).
  { unfold decode_datagram. rewrite <- (app_nil_r body). unfold body.
    rewrite (decode_stream_prefix encode deserialize deserialize_encode messages [] _ deserialize_nil). rewrite take_ge; [done|lia]. }
  destruct (receive_joins _ body peer now e' _ Hok1 Hd Hr) as [Hj Hm]. rewrite push_updates in Hj. rewrite push_spoke in Hm. by split.
Qed.
End engine.

#[export] Hint Resolve sound_refl set_contacts_sound set_rng_sound set_replica_sound rtc_once crit_decommission : reconcile.

(** ** A concrete engine *)

#[local] Existing Instances small_lww small_state toy_mac toy_aead.

(** A self-delimiting code: the bits of the message's number, then a stop byte. *)
Notation SmallMsg := (Message unit N N bool).

#[local] Instance byte_countable : Countable byte.
Proof. refine (inj_countable Byte.to_N Byte.of_N _). apply Byte.of_to_N. Defined.

Definition msg_sum (m : SmallMsg) : unit + (N * N) + (N * N) + unit + (N * bool) + unit + list byte :=
  match m with
  | EntryFingerprint a => inl (inl (inl (inl (inl (inl a)))))
  | EntryUpdate u => inl (inl (inl (inl (inl (inr u)))))
  | TombstoneAck u => inl (inl (inl (inl (inr u))))
  | StateFingerprint a => inl (inl (inl (inr a)))
  | StateUpdate u => inl (inl (inr u))
  | ConvergenceAck => inl (inr tt)
  | Reserved6 p => inr p
  end.
Definition sum_msg (x : unit + (N * N) + (N * N) + unit + (N * bool) + unit + list byte) : SmallMsg :=
  match x with
  | inl (inl (inl (inl (inl (inl a))))) => EntryFingerprint a
  | inl (inl (inl (inl (inl (inr u))))) => EntryUpdate u
  | inl (inl (inl (inl (inr u)))) => TombstoneAck u
  | inl (inl (inl (inr a))) => StateFingerprint a
  | inl (inl (inr u)) => StateUpdate u
  | inl (inr _) => ConvergenceAck
  | inr p => Reserved6 p
  end.

Lemma sum_msg_sum m : sum_msg (msg_sum m) = m.
Proof. by destruct m. Qed.

Fixpoint bits (p : positive) : list byte := match p with xH => [x02] | xO p => x00 :: bits p | xI p => x01 :: bits p end.
Fixpoint unbits (l : list byte) : option (positive * list byte) :=
  match l with
  | x00 :: l => '(p, rest) ← unbits l; Some (xO p, rest)
  | x01 :: l => '(p, rest) ← unbits l; Some (xI p, rest)
  | x02 :: l => Some (xH, l)
  | _ => None
  end.

Lemma unbits_bits p rest : unbits (bits p ++ rest) = Some (p, rest).
Proof. induction p as [p IH|p IH|]; cbn; [by rewrite IH..|done]. Qed.

Definition small_encode (m : SmallMsg) : list byte := bits (countable.encode (msg_sum m)).
Definition small_deserialize (l : list byte) : result (SmallMsg * list byte) DeserializeError :=
  match l with
  | [] => Err UnexpectedEof
  | _ => match unbits l with
         | Some (p, rest) => match countable.decode p with Some x => Ok (sum_msg x, rest) | None => Err Malformed end
         | None => Err Malformed
         end
  end.

Lemma small_roundtrip m rest : small_deserialize (small_encode m ++ rest) = Ok (m, rest).
Proof.
  unfold small_deserialize, small_encode. destruct (bits _ ++ rest) eqn:Hl.
  - apply app_eq_nil in Hl as [Hl _]. by destruct (countable.encode (msg_sum m)).
  - rewrite <- Hl, unbits_bits, countable.decode_encode, sum_msg_sum. done.
Qed.

Definition small_round {X : Type} (m : gmap N X) (l : list unit) (rng : unit) : list unit * list (EnumerationRange N) * unit :=
  (l, [(Unbounded, Excluded 9%N)], rng).

Lemma small_round_half_open {X} (m : gmap N X) l rng : Forall half_open (small_round m l rng).1.2.
Proof. by repeat constructor. Qed.

Definition small_states (m : gmap N bool) (r : EnumerationRange N) : list (N * bool) :=
  filter (λ kv, in_range kv.1 r = true) (map_to_list m).

Definition small_engine : Engine (K := N) (E := N) (C := N) (St := bool) (P := N) (Ag := unit) (R := unit) :=
  {| en_replica := small_replica; en_clock := 9%N; en_replay := ReplayFilter.filter_new (seconds 30) false; en_reassembler := for_identity demo_limits;
     en_send := send_start [Ok 5%N; Ok 5%N]; en_dumps := dumps_new small_admission; en_tasks := []; en_repairs := ∅;
     en_receiving := ∅; en_peers := ∅; en_rng := tt |}.

Lemma small_engine_ok : engine_ok demo_framing 1 small_engine.
Proof.
  constructor; [apply wf_for_identity, demo_limits_ok|intros ? ? ?; discriminate|apply book_ok_empty|constructor|apply dumps_new_stash|].
  constructor; cbn; [constructor|set_solver|done|lia].
Qed.

Notation small_recv := (recv_datagram pad32 (λ q, q) demo_nonce small_encode small_deserialize small_range small_states
  small_round small_round (λ _, small_fp) Disabled demo_framing 4 1 (seconds 1)).

Definition small_datagram : list byte :=
  seal Disabled [] 0 0 (write_complete (concat (small_encode <$> [EntryUpdate (1, 9)%N; TombstoneAck (1, 5)%N; EntryFingerprint tt]))).

Lemma dated_state_guarded_witness :
  ∃ e', small_recv small_engine [x63] (7%N, 1%N) 0 0 id = Some e' ∧ en_replica e' = small_replica.
Proof.
  destruct (small_recv small_engine [x63] (7%N, 1%N) 0 0 id) as [e'|] eqn:Hr; [|discriminate]. exists e'. split; [done|].
  destruct (dated_state_guarded (P := N) pad32 (λ q, q) demo_nonce small_encode small_deserialize small_range small_states small_round small_round
    (λ _, small_fp) Disabled demo_framing 4 1 (seconds 1) small_engine [x63] (7%N, 1%N) 0 0 id e' Hr)
    as [[He _]|(f & payload & ra & message & transfer & batch & Ha & _)]; [exact He|]. vm_compute in Ha. discriminate.
Defined.

Lemma gossiped_batch_joins_witness :
  ∃ e', small_recv small_engine small_datagram (7%N, 1%N) 0 0 id = Some e' ∧ (∃ v, rp_map (en_replica e') !! 1%N = Some v ∧ at_most 9%N v) ∧
    7%N ∈ rp_members (en_replica e').
Proof.
  destruct (admit_inbound Disabled (en_replay small_engine) 4 7%N small_datagram
    (λ _, (bool_decide (7%N ∈ rp_members (en_replica small_engine)), N.of_nat (size (rp_members (en_replica small_engine))))) 0)
    as [f [payload|]] eqn:Ha; [|vm_compute in Ha; discriminate].
  destruct (gossiped_batch_joins (Ag := unit) (P := N) pad32 (λ q, q) demo_nonce small_encode small_deserialize small_range small_states small_round small_round
    (λ _, small_fp) Disabled demo_framing 4 1 (seconds 1) demo_framing_book ltac:(vm_compute; reflexivity) (λ _, eq_refl) pad32_length
    ltac:(vm_compute; discriminate) small_round_half_open small_round_half_open small_merge small_roundtrip eq_refl
    small_engine small_datagram (7%N, 1%N) 0 0 f payload [EntryUpdate (1, 9)%N; TombstoneAck (1, 5)%N; EntryFingerprint tt])
    as (e' & Hr & [_ Hj] & Hm).
  - apply small_engine_ok.
  - vm_compute. discriminate.
  - vm_compute. discriminate.
  - exact Ha.
  - vm_compute in Ha. injection Ha as _ <-. vm_compute. reflexivity.
  - vm_compute. discriminate.
  - exists e'. split; [exact Hr|]. split; [apply Hj; right; left|]. rewrite Hm. cbn [existsb dated_message orb]. apply elem_of_union_l, elem_of_singleton. reflexivity.
Defined.
