(* ===== verification/Writes.v ===== *)
(** * Writes and their broadcast ([src/replica/write.rs], [coalesce.rs], [src/replicated_map/write.rs],
      [mutate.rs], [backpressure.rs], [value_size.rs])

    The public write operations: stamp, store, and hand the update to a detached broadcast task,
    directly or through the coalescing buffer, within the budget of concurrent broadcasts. A
    broadcast task is the list of peers it still has to send to. Hooks are user code and not
    modelled here; [encoded_size] is the length [bincode] gives a value. *)
From stdpp Require Import gmap list relations.
From Stdlib Require Import NArith.
From S2P Require Import Prelude RecoveryBook Journal SignedCausal Messages Replica Samples ReplicaInv ReplicaProps Dumps Repair.

Definition PEER_EXPIRATION : N := seconds 60.

(** ** Coalescing *)

Section coalescing.
Context {K V S E C : Type} `{Countable K} `{Lww V S E C} `{!RustOrd S}.
Implicit Types (pending : gmap K E) (kvs : list (K * E)).

Definition coalesce_one pending (kv : K * E) : gmap K E :=
  <[kv.1 := match pending !! kv.1 with Some existing => merge existing kv.2 | None => kv.2 end]> pending.

(** [queue_broadcast]: the buffer, whether a flush is scheduled, and what is broadcast now. *)
Definition queue_updates pending (window : N) kvs : gmap K E * bool * option (list (K * E)) :=
  match kvs with
  | [] => (pending, false, None)
  | _ =>
      if (window =? 0)%N then (pending, false, Some kvs)
      else (fold_left coalesce_one kvs pending, bool_decide (pending = ∅), None)
  end.

(** The flush task once it has slept. *)
Definition flush_updates pending : gmap K E * option (list (K * E)) :=
  (∅, match map_to_list pending with [] => None | batch => Some batch end).

(** *** Any sequence of writes, window changes and flushes

    The state is the buffer, the number of flush tasks sleeping and the batches handed to
    [broadcast], which may skip them. *)
Inductive coalesce_event := CQueue (window : N) (kvs : list (K * E)) | CFlush.
Notation CState := (gmap K E * nat * list (list (K * E)))%type.

Definition coalesce_step (st : CState) (ev : coalesce_event) : CState :=
  let '(pending, flushes, batches) := st in
  match ev with
  | CQueue window kvs =>
      let '(pending, scheduled, now) := queue_updates pending window kvs in
      (pending, if (scheduled : bool) then Datatypes.S flushes else flushes, batches ++ option_list now)
  | CFlush =>
      match flushes with
      | O => st
      | Datatypes.S flushes => let '(pending, now) := flush_updates pending in (pending, flushes, batches ++ option_list now)
      end
  end.

Definition queued (evs : list coalesce_event) : list (K * E) :=
  ev ← evs; match ev with CQueue _ kvs => kvs | CFlush => [] end.

Context (merge_lww : ∀ x y : E, merge x y = if ord_ltb (stamp x) (stamp y) then y else x).

Lemma merge_newest (x y : E) : at_most x (merge x y) ∧ at_most y (merge x y).
Proof. destruct (merge_upper merge_lww x y) as (? & ? & _). done. Qed.

Lemma coalesce_one_covers pending k v k' v' :
  (k', v') = (k, v) ∨ pending !! k' = Some v' → ∃ e, coalesce_one pending (k, v) !! k' = Some e ∧ at_most v' e.
Proof.
  unfold coalesce_one. cbn. intros [[= -> ->]|Hk].
  - rewrite lookup_insert_eq. eexists. split; [done|]. destruct (pending !! k); [apply merge_newest|apply ord_leb_refl].
  - destruct (decide (k = k')) as [->|Hne].
    + rewrite lookup_insert_eq, Hk. eexists. split; [done|]. apply merge_newest.
    + rewrite lookup_insert_ne by done. exists v'. split; [done|apply ord_leb_refl].
Qed.

Lemma coalesce_fold_covers kvs pending k v :
  (k, v) ∈ kvs ∨ pending !! k = Some v → ∃ e, fold_left coalesce_one kvs pending !! k = Some e ∧ at_most v e.
Proof.
  revert pending v. induction kvs as [|[k' v'] kvs IH]; intros pending v; cbn [fold_left].
  { intros [?%not_elem_of_nil|Hk]; [done|]. exists v. split; [done|apply ord_leb_refl]. }
  intros Hk. assert (Hc : (k, v) ∈ kvs ∨ ((k, v) = (k', v') ∨ pending !! k = Some v)) by (rewrite elem_of_cons in Hk; tauto).
  destruct Hc as [Hin|Hc]; [by apply IH; left|]. destruct (coalesce_one_covers pending k' v' k v Hc) as (e & He & Hle).
  destruct (IH _ e (or_intror He)) as (e' & He' & Hle'). exists e'. split; [done|]. by eapply ord_leb_trans.
Qed.

Lemma coalesce_fold_nonempty kvs pending : kvs ≠ [] → fold_left coalesce_one kvs pending ≠ ∅.
Proof.
  destruct kvs as [|[k v] kvs]; [done|]. intros _ He. destruct (coalesce_fold_covers ((k, v) :: kvs) pending k v) as (e & Hl & _);
    [by left; left|]. by rewrite He, lookup_empty in Hl.
Qed.

(** [v] has been handed on, or waits in the buffer, superseded at most by a newer write. *)
Definition delivered (st : CState) (k : K) (v : E) : Prop :=
  (∃ batch e, batch ∈ st.2 ∧ (k, e) ∈ batch ∧ at_most v e) ∨ (∃ e, st.1.1 !! k = Some e ∧ at_most v e).

Lemma flush_covers pending k e : pending !! k = Some e → ∃ batch, (flush_updates pending).2 = Some batch ∧ (k, e) ∈ batch.
Proof.
  intros Hk%elem_of_map_to_list. unfold flush_updates. cbn. destruct (map_to_list pending); [by apply not_elem_of_nil in Hk|]. eauto.
Qed.

Lemma coalesce_step_inv st ev : (st.1.2 = if decide (st.1.1 = ∅) then 0 else 1) →
  let st' := coalesce_step st ev in
  (st'.1.2 = if decide (st'.1.1 = ∅) then 0 else 1) ∧
  ∀ k v, delivered st k v ∨ (k, v) ∈ queued [ev] → delivered st' k v.
Proof.
  destruct st as [[pending flushes] batches]. cbn [fst snd]. intros ->. destruct ev as [window kvs|]; cbn [coalesce_step].
  - unfold queued. cbn. rewrite app_nil_r. unfold queue_updates. destruct kvs as [|kv kvs].
    { cbn. rewrite app_nil_r. split; [done|]. intros k v [Hd|?%not_elem_of_nil]; done. }
    remember (kv :: kvs) as l eqn:El. destruct (window =? 0)%N; cbn [fst snd option_list].
    + split; [done|]. intros k v [[(b & e & Hb & He)|He]|Hin].
      * left. exists b, e. cbn. rewrite elem_of_app. tauto.
      * by right.
      * left. exists l, v. cbn. rewrite elem_of_app. split; [right; left|]. split; [done|apply ord_leb_refl].
    + rewrite (decide_False (P := fold_left coalesce_one l pending = ∅)) by (apply coalesce_fold_nonempty; by subst). split; [by case_bool_decide; case_decide|].
      cbn. rewrite app_nil_r. intros k v [[(b & e & Hb & He & Hle)|(e & He & Hle)]|Hin].
      * left. by exists b, e.
      * right. destruct (coalesce_fold_covers l pending k e (or_intror He)) as (e' & ? & ?). exists e'. split; [done|]. by eapply ord_leb_trans.
      * right. apply coalesce_fold_covers. by left.
  - destruct (decide (pending = ∅)) as [->|Hne]; cbn.
    { split; [done|]. intros k v [Hd|?%not_elem_of_nil]; done. }
    split; [done|]. intros k v [[(b & e & Hb & He)|(e & He & Hle)]|?%not_elem_of_nil]; [| |done].
    + left. exists b, e. cbn. rewrite elem_of_app. tauto.
    + left. destruct (flush_covers pending k e He) as (batch & Hf & Hin). cbn in Hf. rewrite Hf. exists batch, e. cbn.
      rewrite elem_of_app. split; [right; left|done].
Qed.

(** The flush that is scheduled hands on all the buffer holds. *)
Lemma flush_hands_on st k v : (st.1.2 = if decide (st.1.1 = ∅) then 0 else 1) → delivered st k v →
  ∃ batch e, batch ∈ (coalesce_step st CFlush).2 ∧ (k, e) ∈ batch ∧ at_most v e.
Proof.
  destruct st as [[pending flushes] batches]. cbn [fst snd]. intros Hf [(b & e & Hb & He)|(e & He & Hle)]; cbn [fst snd] in *.
  - exists b, e. split; [|done]. destruct flushes; cbn; [done|]. apply elem_of_app. by left.
  - rewrite decide_False in Hf by (intros ->; by rewrite lookup_empty in He). subst flushes. cbn.
    destruct (flush_covers pending k e He) as (batch & Hf & Hb). cbn in Hf. rewrite Hf. exists batch, e. rewrite elem_of_app.
    split; [right; left|done].
Qed.
End coalescing.

(** ** The store *)

Record ValueTooLarge := { encoded : N; limit : N }.
Inductive WriteRejected := TooLarge (err : ValueTooLarge) | Backpressure (in_flight max_in_flight : N).

Section store.
Context {K V S E C St P : Type} `{Countable K, Countable P} `{Lww V S E C} `{!EntryState V S E St}.
Context `{!RustOrd K, !RustOrd S} `{!EqDecision S}.
Context (encoded_size : V → N) (max_concurrent_broadcasts : N) (max_value_size : option N).

Record BroadcastTask := { bt_updates : list (K * E); bt_peers : list P }.

(** The shared state the write paths use; [ws_window] is [coalesce_window]. *)
Record Store := {
  ws_replica : Replica K E St P;
  ws_clock : C;
  ws_peers : gmap P N;
  ws_in_flight : N;
  ws_tasks : list BroadcastTask;
  ws_pending : gmap K E;
  ws_flushes : nat;
  ws_window : N;
}.
Implicit Types (s : Store).

Definition set_state s (r : Replica K E St P) (c : C) : Store :=
  {| ws_replica := r; ws_clock := c; ws_peers := ws_peers s; ws_in_flight := ws_in_flight s; ws_tasks := ws_tasks s;
     ws_pending := ws_pending s; ws_flushes := ws_flushes s; ws_window := ws_window s |}.
Definition set_egress s (peers : gmap P N) (n : N) (ts : list BroadcastTask) : Store :=
  {| ws_replica := ws_replica s; ws_clock := ws_clock s; ws_peers := peers; ws_in_flight := n; ws_tasks := ts;
     ws_pending := ws_pending s; ws_flushes := ws_flushes s; ws_window := ws_window s |}.
Definition set_pending s (pending : gmap K E) (flushes : nat) : Store :=
  {| ws_replica := ws_replica s; ws_clock := ws_clock s; ws_peers := ws_peers s; ws_in_flight := ws_in_flight s;
     ws_tasks := ws_tasks s; ws_pending := pending; ws_flushes := flushes; ws_window := ws_window s |}.

(** *** Broadcast *)

Definition get_peers (peers : gmap P N) (now : N) : gmap P N * list P :=
  let peers := filter (λ kv, (saturating_sub now kv.2 < PEER_EXPIRATION)%N) peers in (peers, (map_to_list peers).*1).

Definition try_claim_broadcast_slot s : Store * bool :=
  if (ws_in_flight s <? max_concurrent_broadcasts)%N
  then (set_egress s (ws_peers s) (ws_in_flight s + 1) (ws_tasks s), true) else (s, false).

(** [Drop for BroadcastCountGuard] *)
Definition drop_broadcast_guard s : Store :=
  set_egress s (ws_peers s) (wrapping_add64 (ws_in_flight s) u64_max) (ws_tasks s).

Definition spawn_broadcast s (updates : list (K * E)) (now : N) : Store :=
  let '(peers, targets) := get_peers (ws_peers s) now in
  set_egress s peers (ws_in_flight s) (ws_tasks s ++ [{| bt_updates := updates; bt_peers := targets |}]).

Definition broadcast s (updates : list (K * E)) (now : N) : Store :=
  let '(s, claimed) := try_claim_broadcast_slot s in if (claimed : bool) then spawn_broadcast s updates now else s.

Definition queue_broadcast s (key_values : list (K * E)) (now : N) : Store :=
  let '(pending, scheduled, batch) := queue_updates (ws_pending s) (ws_window s) key_values in
  let s := set_pending s pending (if (scheduled : bool) then Datatypes.S (ws_flushes s) else ws_flushes s) in
  match batch with Some messages => broadcast s messages now | None => s end.

(** The body of [spawn_coalesce_flush]. *)
Definition run_flush s (now : N) : Store :=
  let '(pending, batch) := flush_updates (ws_pending s) in
  let s := set_pending s pending (Nat.pred (ws_flushes s)) in
  match batch with Some messages => broadcast s messages now | None => s end.

(** *** [Replica]'s writes *)

Definition engine_insert s (key : K) (value : E) (now : N) : Store * option E :=
  let '(r, ret) := just_insert (ws_replica s) key value in
  (queue_broadcast (set_state s r (ws_clock s)) [(key, value)] now, ret).

Definition engine_insert_bulk s (key_values : list (K * E)) (now : N) : Store :=
  queue_broadcast (set_state s (just_insert_bulk (ws_replica s) key_values) (ws_clock s)) key_values now.

Definition engine_try_insert s (key : K) (value : E) (now : N) : Store * option (option E) :=
  let '(s, claimed) := try_claim_broadcast_slot s in
  if (claimed : bool) then
    let '(r, ret) := just_insert (ws_replica s) key value in
    (spawn_broadcast (set_state s r (ws_clock s)) [(key, value)] now, Some ret)
  else (s, None).

(** *** [ReplicatedMap]'s writes *)

Definition clock_tick s : Store * S := let '(c, t) := clock_now (ws_clock s) in (set_state s (ws_replica s) c, t).

Definition check_value_size (v : V) : result unit ValueTooLarge :=
  match max_value_size with
  | None => Ok tt
  | Some max => if (max <? encoded_size v)%N then Err {| encoded := encoded_size v; limit := max |} else Ok tt
  end.

Definition store_insert s (key : K) (v : V) (now : N) : Store * option V :=
  let '(s, t) := clock_tick s in
  let '(s, ret) := engine_insert s key (present t v) now in (s, ret ≫= value).

Definition store_remove s (key : K) (now : N) : Store * option V :=
  let '(s, t) := clock_tick s in
  let '(s, ret) := engine_insert s key (tombstone t) now in (s, ret ≫= value).

(** A fresh stamp for each element of a bulk write, in order. *)
Fixpoint stamp_all {X} (entry : S → X → K * E) s (l : list X) : Store * list (K * E) :=
  match l with
  | [] => (s, [])
  | x :: l => let '(s, t) := clock_tick s in let '(s, kvs) := stamp_all entry s l in (s, entry t x :: kvs)
  end.

Definition store_insert_bulk s (key_values : list (K * V)) (now : N) : Store :=
  let '(s, kvs) := stamp_all (λ t '(k, v), (k, present t v)) s key_values in engine_insert_bulk s kvs now.

Definition load_bulk s (key_values : list (K * V)) : Store :=
  let '(s, kvs) := stamp_all (λ t '(k, v), (k, present t v)) s key_values in
  set_state s (just_insert_bulk (ws_replica s) kvs) (ws_clock s).

Definition remove_bulk s (keys : list K) (now : N) : Store :=
  let '(s, kvs) := stamp_all (λ t k, (k, tombstone t)) s keys in engine_insert_bulk s kvs now.

Definition try_insert s (key : K) (v : V) (now : N) : Store * result (option V) WriteRejected :=
  match check_value_size v with
  | Err err => (s, Err (TooLarge err))
  | Ok _ =>
      let '(s, t) := clock_tick s in
      let '(s, ret) := engine_try_insert s key (present t v) now in
      (s, match ret with
          | Some ret => Ok (ret ≫= value)
          | None => Err (Backpressure (ws_in_flight s) max_concurrent_broadcasts)
          end)
  end.

Definition store_get_mut s (key : K) (callback : V → V) (now : N) : Store :=
  let '(s, t) := clock_tick s in
  let '(r, updated) := get_mut (ws_replica s) t key callback in
  let s := set_state s r (ws_clock s) in
  match updated with Some entry => queue_broadcast s [(key, entry)] now | None => s end.

(** [None] is the [expect]s of the mutation. *)
Definition mutate_live s (key : K) (callback : V → V) (now : N) : option (Store * bool) :=
  let '(s, t) := clock_tick s in
  '(r, res) ← mutate_live_checked (Er := ValueTooLarge) (ws_replica s) t key callback (λ _, Ok tt);
  let s := set_state s r (ws_clock s) in
  match res with
  | Ok (Some entry) => Some (queue_broadcast s [(key, entry)] now, true)
  | Ok None => Some (s, false)
  | Err _ => None
  end.

Definition update := mutate_live.

Definition try_update s (key : K) (f : V → V) (now : N) : option (Store * result bool WriteRejected) :=
  let '(s, claimed) := try_claim_broadcast_slot s in
  if negb claimed then Some (s, Err (Backpressure (ws_in_flight s) max_concurrent_broadcasts))
  else
    let '(s, t) := clock_tick s in
    '(r, res) ← mutate_live_checked (ws_replica s) t key f check_value_size;
    let s := set_state s r (ws_clock s) in
    Some (match res with
          | Ok (Some entry) => (spawn_broadcast s [(key, entry)] now, Ok true)
          | Ok None => (drop_broadcast_guard s, Ok false)
          | Err err => (drop_broadcast_guard s, Err (TooLarge err))
          end).

Definition upsert s (key : K) (default : V) (f : V → V) (now : N) : option Store :=
  '(s, live) ← mutate_live s key f now;
  Some (if (live : bool) then s else (store_insert s key default now).1).

Definition get_live s (key : K) : option V := rp_map (ws_replica s) !! key ≫= value.

(** [f ()] is [v]. *)
Definition get_or_insert_with s (key : K) (v : V) (now : N) : Store * V :=
  match get_live s key with
  | Some value => (s, value)
  | None => ((store_insert s key v now).1, v)
  end.

(** In the order of the tree. *)
Definition live_keys_where s (select : K → V → bool) : list K :=
  filter (λ k, match get_live s k with Some v => select k v | None => false end = true)
    (sort_keys (map_to_list (rp_map (ws_replica s))).*1).

Definition remove_selected s (keys : list K) (now : N) : Store :=
  match keys with [] => s | _ => remove_bulk s keys now end.
Definition store_clear s (now : N) : Store := remove_selected s (live_keys_where s (λ _ _, true)) now.
Definition store_retain s (keep : K → V → bool) (now : N) : Store :=
  remove_selected s (live_keys_where s (λ k v, negb (keep k v))) now.
Definition delete_range s (range : EnumerationRange K) (now : N) : Store :=
  remove_selected s (live_keys_where s (λ k _, in_range k range)) now.

(** *** Coalescing and the budget of broadcasts

    Writes queued, flushes that have slept, and everything else the store goes through, which leaves
    the buffer alone. The log has each batch handed to [broadcast], the broadcasts in flight at
    that moment, and the tasks it spawned. *)
Inductive EgressEvent := EgQueue (kvs : list (K * E)) (now : N) | EgFlush (now : N) | EgOther (s : Store).
Notation HandedOn := (list (K * E) * N * list BroadcastTask)%type.

Definition handed_on s s' (batch : option (list (K * E))) : list HandedOn :=
  match batch with Some b => [(b, ws_in_flight s, drop (length (ws_tasks s)) (ws_tasks s'))] | None => [] end.

Definition egress_step (st : Store * list HandedOn) (ev : EgressEvent) : Store * list HandedOn :=
  let '(s, log) := st in
  match ev with
  | EgQueue kvs now =>
      let s' := queue_broadcast s kvs now in (s', log ++ handed_on s s' (queue_updates (ws_pending s) (ws_window s) kvs).2)
  | EgFlush now =>
      match ws_flushes s with
      | O => st
      | _ => let s' := run_flush s now in (s', log ++ handed_on s s' (flush_updates (ws_pending s)).2)
      end
  | EgOther s' => (set_pending s' (ws_pending s) (ws_flushes s), log)
  end.

Definition egress_queued (evs : list EgressEvent) : list (K * E) := ev ← evs; match ev with EgQueue kvs _ => kvs | _ => [] end.

(** *** Egress and the replica, through any interleaving

    [store_env] is everything else that runs: remote batches, membership, clock observations,
    contacts, window changes. *)
Inductive store_step : Store → Store → Prop :=
| st_insert s k v now : store_step s (store_insert s k v now).1
| st_remove s k now : store_step s (store_remove s k now).1
| st_insert_bulk s kvs now : store_step s (store_insert_bulk s kvs now)
| st_load_bulk s kvs : store_step s (load_bulk s kvs)
| st_remove_bulk s ks now : store_step s (remove_bulk s ks now)
| st_try_insert s k v now : store_step s (try_insert s k v now).1
| st_get_mut s k f now : store_step s (store_get_mut s k f now)
| st_update s k f now s' live : mutate_live s k f now = Some (s', live) → store_step s s'
| st_try_update s k f now s' res : try_update s k f now = Some (s', res) → store_step s s'
| st_upsert s k v f now s' : upsert s k v f now = Some s' → store_step s s'
| st_get_or_insert s k v now : store_step s (get_or_insert_with s k v now).1
| st_selected s keys now : store_step s (remove_selected s keys now)
| st_flush s now : ws_flushes s ≠ 0 → store_step s (run_flush s now)
| st_sent s ts t p ps ts' : ws_tasks s = ts ++ t :: ts' → bt_peers t = p :: ps →
    store_step s (set_egress s (ws_peers s) (ws_in_flight s) (ts ++ {| bt_updates := bt_updates t; bt_peers := ps |} :: ts'))
| st_ended s ts t ts' : ws_tasks s = ts ++ t :: ts' →
    store_step s (set_egress (drop_broadcast_guard s) (ws_peers s) (ws_in_flight (drop_broadcast_guard s)) (ts ++ ts'))
| st_env s r c peers window : rtc critical (ws_replica s) r →
    store_step s {| ws_replica := r; ws_clock := c; ws_peers := peers; ws_in_flight := ws_in_flight s; ws_tasks := ws_tasks s;
                    ws_pending := ws_pending s; ws_flushes := ws_flushes s; ws_window := window |}.

(** The counter is exact, and a flush is scheduled exactly while the buffer holds something. *)
Record egress_ok s : Prop := {
  eg_count : ws_in_flight s = len (ws_tasks s);
  eg_budget : (ws_in_flight s ≤ max_concurrent_broadcasts)%N;
  eg_flush : ws_flushes s = if decide (ws_pending s = ∅) then 0 else 1;
}.

Context (Hbudget : (max_concurrent_broadcasts ≤ u64_max)%N)
        (merge_lww : ∀ x y : E, merge x y = if ord_ltb (stamp x) (stamp y) then y else x).

Lemma broadcast_buffer s b now : ws_pending (broadcast s b now) = ws_pending s ∧ ws_flushes (broadcast s b now) = ws_flushes s.
Proof. unfold broadcast, try_claim_broadcast_slot. destruct (_ <? _)%N; [|done]. unfold spawn_broadcast. by destruct (get_peers _ _). Qed.

(** A batch is spawned exactly when the budget has room. *)
Lemma broadcast_spawns s b now :
  if (ws_in_flight s <? max_concurrent_broadcasts)%N
  then drop (length (ws_tasks s)) (ws_tasks (broadcast s b now)) = [{| bt_updates := b; bt_peers := (get_peers (ws_peers s) now).2 |}]
  else ws_tasks (broadcast s b now) = ws_tasks s.
Proof.
  unfold broadcast, try_claim_broadcast_slot. destruct (_ <? _)%N; [|done]. unfold spawn_broadcast. cbn [ws_peers set_egress].
  destruct (get_peers _ _). cbn. apply drop_app_length.
Qed.

(** [egress_step] is [coalesce_step] on the buffer, and every batch handed on meets the budget. *)
Definition coalesced (st : Store * list HandedOn) : gmap K E * nat * list (list (K * E)) :=
  (ws_pending st.1, ws_flushes st.1, (λ x : HandedOn, x.1.1) <$> st.2).

Definition within_budget (x : HandedOn) : Prop :=
  let '(b, in_flight, spawned) := x in
  if (in_flight <? max_concurrent_broadcasts)%N then ∃ peers, spawned = [{| bt_updates := b; bt_peers := peers |}] else spawned = [].

Lemma handed_budget s s1 b now : ws_in_flight s1 = ws_in_flight s → ws_tasks s1 = ws_tasks s →
  within_budget (b, ws_in_flight s, drop (length (ws_tasks s)) (ws_tasks (broadcast s1 b now))).
Proof.
  intros Hi Ht. pose proof (broadcast_spawns s1 b now) as Hs. rewrite Hi, Ht in Hs. unfold within_budget. destruct (_ <? _)%N; [by eexists|].
  rewrite Hs. apply drop_all.
Qed.

Lemma egress_step_coalesces st ev :
  coalesced (egress_step st ev) = match ev with
                                  | EgQueue kvs _ => coalesce_step (coalesced st) (CQueue (ws_window st.1) kvs)
                                  | EgFlush _ => coalesce_step (coalesced st) CFlush
                                  | EgOther _ => coalesced st
                                  end.
Proof.
  destruct st as [s log]. unfold coalesced. destruct ev as [kvs now|now|s']; cbn [egress_step fst snd coalesce_step]; [| |done].
  - unfold queue_broadcast. destruct (queue_updates _ _ kvs) as [[pending scheduled] [b|]]; cbn [fst snd handed_on option_list].
    + set (s1 := set_pending s _ _). destruct (broadcast_buffer s1 b now) as [-> ->]. by rewrite fmap_app.
    + by rewrite fmap_app.
  - destruct (ws_flushes s) as [|n] eqn:Hf; cbn [fst snd]; [by rewrite Hf|]. unfold run_flush. rewrite Hf. unfold flush_updates. cbn [fst snd].
    destruct (map_to_list (ws_pending s)); cbn [handed_on option_list fst snd].
    + by rewrite !app_nil_r.
    + set (s1 := set_pending s _ _). destruct (broadcast_buffer s1 (p :: l) now) as [-> ->]. by rewrite fmap_app.
Qed.

Lemma egress_step_budget st ev : Forall within_budget st.2 → Forall within_budget (egress_step st ev).2.
Proof.
  destruct st as [s log]. cbn [snd]. intros Hlog. destruct ev as [kvs now|now|s']; cbn [egress_step snd]; [| |done].
  - apply Forall_app. split; [done|]. unfold queue_broadcast. destruct (queue_updates _ _ kvs) as [[pending scheduled] [b|]]; cbn [snd handed_on]; [|constructor].
    apply Forall_singleton. by apply (handed_budget s (set_pending s _ _)).
  - destruct (ws_flushes s); [done|]. cbn [snd]. apply Forall_app. split; [done|]. unfold run_flush, flush_updates. cbn [snd].
    destruct (map_to_list (ws_pending s)); cbn [handed_on]; [constructor|]. apply Forall_singleton. by apply (handed_budget s (set_pending s _ _)).
Qed.

Lemma egress_run_inv s0 evs : ws_pending s0 = ∅ → ws_flushes s0 = 0 →
  let st := fold_left egress_step evs (s0, []) in
  (ws_flushes st.1 = if decide (ws_pending st.1 = ∅) then 0 else 1) ∧ Forall within_budget st.2 ∧
  ∀ k v, (k, v) ∈ egress_queued evs → delivered (coalesced st) k v.
Proof.
  intros Hp Hf. induction evs as [|ev evs IH] using rev_ind; [cbn; rewrite Hp, Hf; split_and!; [done|constructor|by intros k v ?%not_elem_of_nil]|].
  rewrite fold_left_app. cbn [fold_left]. destruct IH as (IHf & IHb & IHd). set (st := fold_left egress_step evs (s0, [])) in *. clearbody st.
  pose proof (egress_step_coalesces st ev) as Hc. split_and!; [|by apply egress_step_budget|].
  - change (ws_flushes (egress_step st ev).1) with (coalesced (egress_step st ev)).1.2. change (ws_pending (egress_step st ev).1) with (coalesced (egress_step st ev)).1.1.
    rewrite Hc. destruct ev; [| |done]; by apply (coalesce_step_inv merge_lww (coalesced st)).
  - intros k v Hin. unfold egress_queued in Hin. rewrite bind_app, elem_of_app in Hin. cbn in Hin. rewrite app_nil_r in Hin. rewrite Hc.
    destruct ev as [kvs now|now|s']; [| |destruct Hin as [?|?%not_elem_of_nil]; [by apply IHd|done]];
      (apply (coalesce_step_inv merge_lww (coalesced st) _ IHf); unfold queued; cbn; rewrite ?app_nil_r; destruct Hin as [?|Hin]; [left; by apply IHd|]).
    + by right.
    + by apply not_elem_of_nil in Hin.
Qed.

(** C27. Coalescing loses no write: whatever the windows, the writes, the flushes that have run and
    the rest of the store's life, exactly one flush is scheduled while the buffer holds anything and
    none otherwise; every queued write has been handed to [broadcast] or is in the buffer, superseded
    at most by a newer write of its key; and once the scheduled flush has run every queued write has
    been handed to [broadcast]. What is handed on is sent by a task of its own when fewer than
    [max_concurrent_broadcasts] are in flight, and skipped otherwise. *)
Theorem coalescing_loses_no_write s0 (evs : list EgressEvent) now : ws_pending s0 = ∅ → ws_flushes s0 = 0 →
  let st := fold_left egress_step evs (s0, []) in
  (ws_flushes st.1 = if decide (ws_pending st.1 = ∅) then 0 else 1) ∧
  (∀ k v, (k, v) ∈ egress_queued evs →
    (∃ x e, x ∈ st.2 ∧ (k, e) ∈ x.1.1 ∧ at_most v e) ∨ (∃ e, ws_pending st.1 !! k = Some e ∧ at_most v e)) ∧
  (∀ k v, (k, v) ∈ egress_queued evs → ∃ x e, x ∈ (egress_step st (EgFlush now)).2 ∧ (k, e) ∈ x.1.1 ∧ at_most v e) ∧
  (∀ b in_flight spawned, (b, in_flight, spawned) ∈ (egress_step st (EgFlush now)).2 →
    if (in_flight <? max_concurrent_broadcasts)%N then ∃ peers, spawned = [{| bt_updates := b; bt_peers := peers |}] else spawned = []).
Proof.
  intros Hp Hf st. destruct (egress_run_inv s0 evs Hp Hf) as (Hfl & Hb & Hd). fold st in Hfl, Hb, Hd. clearbody st.
  assert (Hlog : ∀ st' k v, (∃ batch e, batch ∈ (coalesced st').2 ∧ (k, e) ∈ batch ∧ at_most v e) → ∃ x e, x ∈ st'.2 ∧ (k, e) ∈ x.1.1 ∧ at_most v e).
  { intros st' k v (batch & e & (x & -> & Hx)%list_elem_of_fmap & He). by exists x, e. }
  split_and!; [done| | |].
  - intros k v Hin. destruct (Hd k v Hin) as [Hl|Hl]; [left; by apply Hlog|by right].
  - intros k v Hin. apply Hlog. rewrite egress_step_coalesces. apply flush_hands_on; auto.
  - intros b in_flight spawned Hx. pose proof (egress_step_budget st (EgFlush now) Hb) as Hall. rewrite Forall_forall in Hall. by apply (Hall _ Hx).
Qed.

Definition fine s s' : Prop := (egress_ok s → egress_ok s') ∧ rtc critical (ws_replica s) (ws_replica s').

Lemma fine_trans s1 s2 s3 : fine s1 s2 → fine s2 s3 → fine s1 s3.
Proof. intros [H12 R12] [H23 R23]. split; [auto|]. by etransitivity. Qed.
Lemma fine_refl s : fine s s.
Proof. split; [done|apply rtc_refl]. Qed.
Lemma fine_state s r c : rtc critical (ws_replica s) r → fine s (set_state s r c).
Proof. intros Hr. split; [|done]. intros [Hc Hb Hf]. by constructor. Qed.
Lemma fine_tick s : fine s (clock_tick s).1.
Proof. unfold clock_tick. destruct (clock_now _). apply fine_state, rtc_refl. Qed.

Lemma claim_spawn_fine s s1 updates now : try_claim_broadcast_slot s = (s1, true) → fine s (spawn_broadcast s1 updates now).
Proof.
  unfold try_claim_broadcast_slot. destruct (N.ltb_spec (ws_in_flight s) max_concurrent_broadcasts); [|done]. intros [= <-].
  split; [|apply rtc_refl]. intros [Hc Hb Hf]. constructor; cbn; [rewrite length_app; cbn; lia|lia|done].
Qed.

Lemma broadcast_fine s updates now : fine s (broadcast s updates now).
Proof.
  unfold broadcast. pose proof (claim_spawn_fine s) as Hf. unfold try_claim_broadcast_slot in *.
  destruct (ws_in_flight s <? max_concurrent_broadcasts)%N; [by apply Hf|apply fine_refl].
Qed.

Lemma queue_fine s kvs now : fine s (queue_broadcast s kvs now).
Proof.
  unfold queue_broadcast, queue_updates. destruct kvs as [|kv kvs]; [split; [|apply rtc_refl]; intros [Hc Hb Hf]; by constructor|].
  destruct (ws_window s =? 0)%N.
  - refine (fine_trans _ (set_pending s _ _) _ _ (broadcast_fine _ _ _)). split; [|apply rtc_refl]. intros [Hc Hb Hf]. by constructor.
  - split; [|apply rtc_refl]. intros [Hc Hb Hf]. constructor; [done..|]. cbn. rewrite Hf.
    rewrite (decide_False (P := fold_left _ _ _ = ∅)) by (by apply (coalesce_fold_nonempty merge_lww (kv :: kvs))).
    by case_bool_decide; case_decide.
Qed.

Lemma flush_fine s now : fine s (run_flush s now).
Proof.
  unfold run_flush, flush_updates. set (s1 := set_pending s ∅ _). assert (Hs1 : fine s s1).
  { split; [|apply rtc_refl]. intros [Hc Hb Hf]. constructor; [done..|]. cbn. rewrite Hf. by case_decide. }
  destruct (map_to_list (ws_pending s)); [exact Hs1|]. eapply fine_trans; [exact Hs1|apply broadcast_fine].
Qed.

Lemma engine_insert_fine s k v now : fine s (engine_insert s k v now).1.
Proof.
  unfold engine_insert. pose proof (crit_insert (ws_replica s) k v) as Hc. destruct (just_insert (ws_replica s) k v) as [r ret]. cbn in *.
  eapply fine_trans; [by apply (fine_state s r (ws_clock s)), rtc_once|apply queue_fine].
Qed.

Lemma engine_bulk_fine s kvs now : fine s (engine_insert_bulk s kvs now).
Proof.
  unfold engine_insert_bulk. eapply fine_trans; [|apply queue_fine]. apply fine_state, rtc_once, crit_bulk.
Qed.

Lemma stamp_all_fine {X} entry s (l : list X) : fine s (stamp_all entry s l).1.
Proof.
  revert s. induction l as [|x l IH]; intros s; cbn; [apply fine_refl|]. pose proof (fine_tick s) as Ht. destruct (clock_tick s) as [s1 t].
  specialize (IH s1). destruct (stamp_all entry s1 l) as [s2 kvs]. cbn in *. by eapply fine_trans.
Qed.

Lemma insert_fine s k v now : fine s (store_insert s k v now).1.
Proof.
  unfold store_insert. pose proof (fine_tick s) as Ht. destruct (clock_tick s) as [s1 t].
  pose proof (engine_insert_fine s1 k (present t v) now) as He. destruct (engine_insert s1 k _ now) as [s2 ret]. by eapply fine_trans.
Qed.

Lemma remove_bulk_fine s ks now : fine s (remove_bulk s ks now).
Proof.
  unfold remove_bulk. pose proof (stamp_all_fine (λ t k, (k, tombstone t)) s ks) as Ht. destruct (stamp_all _ s ks) as [s1 kvs].
  eapply fine_trans; [exact Ht|apply engine_bulk_fine].
Qed.

(** A claimed slot given back leaves no trace. *)
Lemma claim_release s s1 r c : try_claim_broadcast_slot s = (s1, true) → drop_broadcast_guard (set_state s1 r c) = set_state s r c.
Proof.
  unfold try_claim_broadcast_slot. destruct (N.ltb_spec (ws_in_flight s) max_concurrent_broadcasts); [|done]. intros [= <-].
  unfold drop_broadcast_guard, set_egress, set_state. cbn. f_equal. apply fetch_sub_succ. lia.
Qed.

Lemma engine_try_insert_fine s k v now : fine s (engine_try_insert s k v now).1.
Proof.
  unfold engine_try_insert. destruct (try_claim_broadcast_slot s) as [s1 claimed] eqn:Hc.
  destruct claimed; [|unfold try_claim_broadcast_slot in Hc; destruct (_ <? _)%N; [done|]; injection Hc as <-; apply fine_refl].
  pose proof (crit_insert (ws_replica s) k v) as Hcr.
  assert (Hr : ws_replica s1 = ws_replica s) by (unfold try_claim_broadcast_slot in Hc; destruct (_ <? _)%N; by injection Hc as <-).
  rewrite Hr. destruct (just_insert (ws_replica s) k v) as [r ret]. cbn in *.
  assert (Hc' : try_claim_broadcast_slot (set_state s r (ws_clock s)) = (set_state s1 r (ws_clock s1), true)).
  { unfold try_claim_broadcast_slot in *. cbn. destruct (_ <? _)%N; [|done]. by injection Hc as <-. }
  apply (fine_trans _ (set_state s r (ws_clock s))); [by apply fine_state, rtc_once|exact (claim_spawn_fine _ _ _ _ Hc')].
Qed.

Lemma try_insert_fine s k v now : fine s (try_insert s k v now).1.
Proof.
  unfold try_insert. destruct (check_value_size v); [|apply fine_refl]. pose proof (fine_tick s) as Ht. destruct (clock_tick s) as [s1 t].
  pose proof (engine_try_insert_fine s1 k (present t v) now) as He. destruct (engine_try_insert s1 k _ now) as [s2 ret]. by eapply fine_trans.
Qed.

Lemma get_mut_fine s k f now : fine s (store_get_mut s k f now).
Proof.
  unfold store_get_mut. pose proof (fine_tick s) as Ht. destruct (clock_tick s) as [s1 t]. pose proof (crit_get_mut (ws_replica s1) t k f) as Hc.
  destruct (get_mut (ws_replica s1) t k f) as [r updated]. eapply fine_trans; [exact Ht|].
  eapply fine_trans; [by apply (fine_state s1 r (ws_clock s1)), rtc_once|]. destruct updated; [apply queue_fine|apply fine_refl].
Qed.

Lemma mutate_live_fine s k f now s' live : mutate_live s k f now = Some (s', live) → fine s s'.
Proof.
  unfold mutate_live. pose proof (fine_tick s) as Ht. destruct (clock_tick s) as [s1 t].
  intros ([r res] & Hm & Hs)%bind_Some. eapply fine_trans; [exact Ht|].
  eapply fine_trans; [apply (fine_state s1 r (ws_clock s1)), rtc_once; by eapply crit_mutate|].
  destruct res as [[entry|]|]; [|by injection Hs as <- _; apply fine_refl|done]. injection Hs as <- _. apply queue_fine.
Qed.

Lemma try_update_fine s k f now s' res : try_update s k f now = Some (s', res) → fine s s'.
Proof.
  unfold try_update. destruct (try_claim_broadcast_slot s) as [s1 claimed] eqn:Hc. destruct claimed; cbn [negb].
  2:{ intros [= <- _]. unfold try_claim_broadcast_slot in Hc. destruct (_ <? _)%N; [done|]. injection Hc as <-. apply fine_refl. }
  assert (Hclaim : s1 = set_egress s (ws_peers s) (ws_in_flight s + 1) (ws_tasks s) ∧ (ws_in_flight s < max_concurrent_broadcasts)%N).
  { unfold try_claim_broadcast_slot in Hc. destruct (N.ltb_spec (ws_in_flight s) max_concurrent_broadcasts); [|done]. by injection Hc as <-. }
  unfold clock_tick. destruct (clock_now (ws_clock s1)) as [c t]. intros ([r res'] & Hm & Hs)%bind_Some.
  assert (Hr : rtc critical (ws_replica s) r).
  { apply rtc_once. destruct Hclaim as [-> _]. by eapply crit_mutate. }
  assert (Hc' : try_claim_broadcast_slot (set_state s r c) = (set_state s1 r c, true)).
  { unfold try_claim_broadcast_slot. cbn. rewrite (proj2 (N.ltb_lt _ _)) by apply Hclaim. by destruct Hclaim as [-> _]. }
  pose proof (claim_release s s1 r c Hc) as Hrel. cbn in Hs.
  destruct res' as [[entry|]|]; injection Hs as <- _; apply (fine_trans _ (set_state s r c)); try (by apply fine_state).
  - exact (claim_spawn_fine _ _ _ _ Hc').
  - change (set_state (set_state s1 (ws_replica s1) c) r c) with (set_state s1 r c). rewrite Hrel. apply fine_refl.
  - change (set_state (set_state s1 (ws_replica s1) c) r c) with (set_state s1 r c). rewrite Hrel. apply fine_refl.
Qed.

Lemma store_step_fine s s' : store_step s s' → fine s s'.
Proof.
  destruct 1 as [s k v now|s k now|s kvs now|s kvs|s ks now|s k v now|s k f now|s k f now s' live Hm|s k f now s' res Hm
    |s k v f now s' Hu|s k v now|s keys now|s now Hf|s ts t p ps ts' Ht Hp|s ts t ts' Ht|s r c peers window Hr].
  - apply insert_fine.
  - unfold store_remove. pose proof (fine_tick s) as Ht. destruct (clock_tick s) as [s1 t].
    pose proof (engine_insert_fine s1 k (tombstone t) now) as He. destruct (engine_insert s1 k _ now) as [s2 ret]. by eapply fine_trans.
  - unfold store_insert_bulk. pose proof (stamp_all_fine (λ t '(k, v), (k, present t v)) s kvs) as Ht.
    destruct (stamp_all _ s kvs) as [s1 l]. eapply fine_trans; [exact Ht|apply engine_bulk_fine].
  - unfold load_bulk. pose proof (stamp_all_fine (λ t '(k, v), (k, present t v)) s kvs) as Ht.
    destruct (stamp_all _ s kvs) as [s1 l]. eapply fine_trans; [exact Ht|]. apply fine_state, rtc_once, crit_bulk.
  - apply remove_bulk_fine.
  - apply try_insert_fine.
  - apply get_mut_fine.
  - by eapply mutate_live_fine.
  - by eapply try_update_fine.
  - unfold upsert in Hu. apply bind_Some in Hu as ([s1 live] & Hm & [= <-]). apply mutate_live_fine in Hm.
    destruct live; [done|]. eapply fine_trans; [exact Hm|apply insert_fine].
  - unfold get_or_insert_with. destruct (get_live s k); [apply fine_refl|apply insert_fine].
  - unfold remove_selected. destruct keys; [apply fine_refl|apply remove_bulk_fine].
  - apply flush_fine.
  - split; [|apply rtc_refl]. intros [Hc Hb Hfl]. constructor; cbn; [|done..]. rewrite Hc, Ht, !length_app. done.
  - split; [|apply rtc_refl]. intros [Hc Hb Hfl]. rewrite Ht, length_app in Hc. cbn in Hc.
    assert (Hn : wrapping_add64 (ws_in_flight s) u64_max = len (ts ++ ts')).
    { rewrite length_app, Hc. replace (N.of_nat (length ts + Datatypes.S (length ts'))) with (N.of_nat (length ts + length ts') + 1)%N by lia.
      apply fetch_sub_succ. lia. }
    constructor; cbn; [done|rewrite Hn, length_app; lia|done].
  - split; [|done]. intros [Hc Hb Hfl]. by constructor.
Qed.

(** C30. Every public write is a sequence of the replica's critical sections, and egress stays
    exact, after any interleaving of writes, flushes, broadcast tasks and everything else: the
    in-flight counter is the number of broadcast tasks and within the budget, one flush is
    scheduled exactly while the coalescing buffer holds something, and the replica has only gone
    through critical sections. *)
Theorem writes_keep_egress_exact s s' :
  egress_ok s → rtc store_step s s' →
  ws_in_flight s' = len (ws_tasks s') ∧ (ws_in_flight s' ≤ max_concurrent_broadcasts)%N ∧
  (ws_flushes s' = if decide (ws_pending s' = ∅) then 0 else 1) ∧ rtc critical (ws_replica s) (ws_replica s').
Proof.
  intros Hok Hr. assert (Hf : fine s s').
  { clear Hok. induction Hr as [s|s1 s2 s3 H12 _ IH]; [apply fine_refl|]. eapply fine_trans; [by apply store_step_fine|exact IH]. }
  destruct Hf as [He Hrep]. destruct (He Hok). done.
Qed.

Definition rejected s (err : WriteRejected) (v : V) : Prop :=
  match err with
  | TooLarge e => encoded e = encoded_size v ∧ max_value_size = Some (limit e) ∧ (limit e < encoded e)%N
  | Backpressure n m => n = ws_in_flight s ∧ m = max_concurrent_broadcasts ∧ (m ≤ n)%N
  end.

Lemma too_large v err : check_value_size v = Err err → ∀ s, rejected s (TooLarge err) v.
Proof.
  unfold check_value_size, rejected. destruct max_value_size as [max|]; [|done]. destruct (N.ltb_spec max (encoded_size v)); [|done].
  intros [= <-] s. done.
Qed.

(** C29. A fallible write is all or nothing: a rejected [try_insert] or [try_update] leaves the
    whole store as it was but for the clock, with a reason that is true of it; an accepted
    [try_insert] has stored its entry and spawned a broadcast of exactly it to every live peer. *)
Theorem fallible_writes_all_or_nothing s key v f now :
  (let '(s', res) := try_insert s key v now in
   match res with
   | Err err => s' = set_state s (ws_replica s) (ws_clock s') ∧ rejected s err v
   | Ok ret => ret = get_live s key ∧ ∃ t, rp_map (ws_replica s') !! key = Some (present t v) ∧
       ws_tasks s' = ws_tasks s ++ [{| bt_updates := [(key, present t v)]; bt_peers := (get_peers (ws_peers s) now).2 |}]
   end) ∧
  ∀ s' res, try_update s key f now = Some (s', res) →
    match res with
    | Err err => s' = set_state s (ws_replica s) (ws_clock s') ∧ ∃ v', rejected s err v'
    | Ok false => s' = set_state s (ws_replica s) (ws_clock s') ∧ get_live s key = None
    | Ok true => ∃ entry, rp_map (ws_replica s') !! key = Some entry ∧
        ws_tasks s' = ws_tasks s ++ [{| bt_updates := [(key, entry)]; bt_peers := (get_peers (ws_peers s) now).2 |}]
    end.
Proof.
  split.
  - unfold try_insert. destruct (check_value_size v) as [|err] eqn:Hv; [|split; [by destruct s|by apply too_large]].
    unfold clock_tick. destruct (clock_now (ws_clock s)) as [c t]. unfold engine_try_insert, try_claim_broadcast_slot. cbn.
    destruct (N.ltb_spec (ws_in_flight s) max_concurrent_broadcasts); [|done]. cbn. split; [done|]. exists t. split; [|done].
    by rewrite lookup_insert_eq.
  - intros s' res. unfold try_update. destruct (try_claim_broadcast_slot s) as [s1 claimed] eqn:Hc.
    destruct claimed; cbn [negb].
    2:{ unfold try_claim_broadcast_slot in Hc. destruct (N.ltb_spec (ws_in_flight s) max_concurrent_broadcasts); [done|].
        injection Hc as <-. intros [= <- <-]. split; [by destruct s|]. exists v. done. }
    unfold clock_tick. destruct (clock_now (ws_clock s1)) as [c t]. intros ([r res'] & Hm & Hs)%bind_Some.
    pose proof (claim_release s s1 (ws_replica s) c Hc) as Hrel.
    assert (Hs1 : s1 = set_egress s (ws_peers s) (ws_in_flight s + 1) (ws_tasks s)).
    { unfold try_claim_broadcast_slot in Hc. destruct (_ <? _)%N; [|done]. by injection Hc as <-. }
    subst s1. cbn in Hm, Hs, Hrel. unfold mutate_live_checked in Hm. unfold get_live.
    destruct (rp_map (ws_replica s) !! key) as [entry|] eqn:Hk; cbn [mbind option_bind].
    2:{ injection Hm as <- <-. injection Hs as <- <-. split; [exact Hrel|done]. }
    destruct (value entry) as [v0|] eqn:Hv0; [|injection Hm as <- <-; injection Hs as <- <-; split; [exact Hrel|done]].
    apply bind_Some in Hm as (v' & Hv' & Hm). destruct (check_value_size v') as [|err] eqn:Hcv.
    + injection Hm as <- <-. injection Hs as <- <-. eexists. split; [apply lookup_insert_eq|done].
    + injection Hm as <- <-. injection Hs as <- <-. split; [exact Hrel|]. exists v'. by apply too_large.
Qed.
End store.

(** ** A concrete store *)

#[local] Existing Instances small_lww small_state.

Definition small_store (in_flight : N) : Store (K := N) (E := N) (C := N) (St := bool) (P := N) :=
  {| ws_replica := small_replica; ws_clock := 9%N; ws_peers := {[7%N := 0%N]}; ws_in_flight := in_flight;
     ws_tasks := []; ws_pending := ∅; ws_flushes := 0; ws_window := 0 |}.

(** Two writes of one key and a flush at the budget, which is skipped; then a write sent at once. *)
Definition demo_egress : list (EgressEvent (K := N) (E := N) (C := N) (St := bool) (P := N)) :=
  let coalescing := {| (small_store 1) with ws_window := 5 |} in
  [EgOther coalescing; EgQueue [(1, 4); (2, 6)]%N 10; EgQueue [(1, 8)]%N 11; EgFlush 12; EgOther (small_store 0); EgQueue [(3, 2)]%N 13].

Lemma coalescing_loses_no_write_witness :
  let st := fold_left (egress_step 1) demo_egress (small_store 0, []) in
  ws_flushes st.1 = 0 ∧ (length <$> st.2.*2) = [0; 1] ∧
  ∃ x e, x ∈ (egress_step 1 st (EgFlush 20)).2 ∧ (1%N, e) ∈ x.1.1 ∧ at_most 4%N e.
Proof.
  destruct (coalescing_loses_no_write (V := N) 1 small_merge (small_store 0) demo_egress 20 eq_refl eq_refl) as (_ & _ & Hd & _).
  split; [vm_compute; reflexivity|]. split; [vm_compute; reflexivity|]. apply Hd. left.
Defined.

Lemma small_budget : (1 ≤ u64_max)%N.
Proof. unfold u64_max. lia. Qed.

Lemma writes_keep_egress_exact_witness :
  let s' := (store_insert (V := N) 1 (store_remove (V := N) 1 (small_store 0) 1%N 5).1 2%N 3%N 6).1 in
  ws_in_flight s' = len (ws_tasks s') ∧ rtc critical small_replica (ws_replica s').
Proof.
  intros s'. destruct (writes_keep_egress_exact (V := N) (λ _, 3%N) 1 None small_budget small_merge (small_store 0) s')
    as (Hn & _ & _ & Hr).
  - constructor; [reflexivity|cbn; lia|reflexivity].
  - apply (rtc_l _ _ (store_remove (V := N) 1 (small_store 0) 1%N 5).1); [apply st_remove|]. unfold s'. apply rtc_once, st_insert.
  - split; [exact Hn|exact Hr].
Defined.

(** A full budget, and an update that grows past the limit. *)
Lemma fallible_writes_all_or_nothing_witness :
  (let '(s', res) := try_insert (V := N) (λ v, v) 1 (Some 4%N) (small_store 1) 1%N 3%N 0 in
   ∃ err, res = Err err ∧ ws_replica s' = small_replica) ∧
  ∃ s' err, try_update (V := N) (λ v, v) 1 (Some 4%N) (small_store 1) 1%N (λ v, v) 0 = Some (s', Err err) ∧ ws_replica s' = small_replica.
Proof.
  destruct (fallible_writes_all_or_nothing (V := N) (λ v, v) 1 (Some 4%N) small_budget (small_store 1) 1%N 3%N (λ v, v) 0)
    as [Hi Hu]. split.
  - destruct (try_insert _ _ _ _ _ _ _) as [s' res] eqn:Ht. destruct res as [ret|err]; [vm_compute in Ht; discriminate|].
    destruct Hi as [-> _]. exists err. split; reflexivity.
  - specialize (Hu _ _ eq_refl). cbn in Hu. destruct Hu as [Hu _]. eexists _, _. split; [reflexivity|]. by rewrite Hu.
Defined.
