(* ===== verification/Round.v ===== *)
(** * Reconciliation rounds and timers ([src/replica/reconciliation.rs], [repair.rs], [membership.rs],
      [run.rs], [gossip/src/gen_ip.rs])

    The topology a node declares, the peers a round contacts, the datagram it sends them, and the
    periodic tasks beside the receive loop. Networks and their membership test, [rbsr]'s initial
    ranges, the discovery probe and the shuffle are arguments. *)
From stdpp Require Import gmap list.
From Stdlib Require Import NArith.
From Stdlib.Strings Require Import Byte.
From S2P Require Import Prelude Bytes Replay Auth Framing Reassembly Missing RecoveryBook FramedSend Ingress.
From S2P Require Import SignedCausal Messages Replica Dumps Repair Engine Writes.

(** ** Topology *)

Definition MAX_NETS : nat := 8.

Section topology.
Context {P Net : Type} `{EqDecision Net} (contains : Net → P → bool) (host_net : P → Net).

Definition net_of (nets : list Net) (addr : P) : option Net := find (λ net, contains net addr) nets.

Definition derive_local_net (nets : list Net) (listen_addr : P) : Net :=
  match net_of nets listen_addr with Some net => net | None => host_net listen_addr end.

Record Topology := {
  tp_nets : list Net;
  tp_local : Net;
  tp_listen : P;
  tp_remote_interval : N;
  tp_remote_fanout : nat;
}.
Implicit Types (t : Topology).

Definition with_nets t (nets : list Net) : Topology :=
  {| tp_nets := nets; tp_local := derive_local_net nets (tp_listen t); tp_listen := tp_listen t;
     tp_remote_interval := tp_remote_interval t; tp_remote_fanout := tp_remote_fanout t |}.

(** [None] is [ConfigError::TooManyNets]. The call as a whole: its two writes, of [local_net] and
    of [nets], are separate steps in [Nets.overlapping_step]. *)
Definition set_nets t (nets : list Net) : option Topology :=
  if length nets <=? MAX_NETS then Some (with_nets t nets) else None.

Definition add_net t (net : Net) : Topology * bool :=
  if decide (net ∈ tp_nets t) then (t, true)
  else if MAX_NETS <=? length (tp_nets t) then (t, false)
  else (with_nets t (tp_nets t ++ [net]), true).

Definition remove_net t (net : Net) : Topology * bool :=
  let nets := filter (λ n, n ≠ net) (tp_nets t) in
  if length nets =? length (tp_nets t) then (t, false) else (with_nets t nets, true).

(** ** The peers of a round *)

Context `{Countable P} {R : Type} (shuffle : R → list P → list P * R).

(** [iter().position] *)
Fixpoint position (l : list Net) (addr : P) : option nat :=
  match l with
  | [] => None
  | net :: l => if contains net addr then Some 0 else Datatypes.S <$> position l addr
  end.

Definition bucket_of t (addr : P) : option nat := position (filter (λ n, n ≠ tp_local t) (tp_nets t)) addr.

(** The remote peers by bucket; [None] is the bucket of no declared network. *)
Definition buckets t (known : list P) : gmap (option nat) (list P) :=
  fold_left (λ m addr, if contains (tp_local t) addr then m
                       else <[bucket_of t addr := default [] (m !! bucket_of t addr) ++ [addr]]> m) known ∅.

(** A bounded random subset of each bucket. *)
Fixpoint sample_buckets (rng : R) (fanout : nat) (bs : list (option nat * list P)) : R * list P :=
  match bs with
  | [] => (rng, [])
  | (_, peers) :: bs =>
      let '(peers, rng) := shuffle rng peers in
      let '(rng, rest) := sample_buckets rng fanout bs in (rng, take fanout peers ++ rest)
  end.

Definition live_entry_count (total_entries tombstones : N) : N := saturating_sub total_entries tombstones.

Definition still_receiving_bulk (last_received : option N) (now repair_interval : N) : bool :=
  match last_received with Some last => (saturating_sub now last <? repair_interval)%N | None => false end.

(** The targets of round number [round]. *)
Definition round_targets t (round : N) (rng : R) (discovered known : list P) (receiving : gmap P N)
    (now repair_interval : N) : R * gset P :=
  let local := filter (λ addr, contains (tp_local t) addr = true) known in
  let do_remote := (round mod (N.max (tp_remote_interval t) 1) =? 0)%N in
  let '(rng, remote) := if do_remote then sample_buckets rng (tp_remote_fanout t) (map_to_list (buckets t known)) else (rng, []) in
  (rng, filter (λ addr, still_receiving_bulk (receiving !! addr) now repair_interval = false)
          (list_to_set (discovered ++ local ++ remote))).
End topology.
Arguments Topology : clear implicits.

(** ** The round *)

Section round.
Context {K V S E C St P Ag R Net : Type} `{Countable K, Countable P} `{Lww V S E C} `{!EntryState V S E St}.
Context `{!RustOrd K, !RustOrd S, !RustOrd P} `{!EqDecision S} `{Mac, Aead} `{EqDecision Net}.
Notation Msg := (Message Ag K E St).
Notation Eng := (Engine (K := K) (E := E) (C := C) (St := St) (P := P) (Ag := Ag) (R := R)).
Context (blake3_hash : list byte → id32) (wall : N → N) (nonce : N → list byte) (encode : Msg → list byte).
Context (entries_in : gmap K E → EnumerationRange K → list (K * E)) (states_in : gmap K St → EnumerationRange K → list (K * St)).
Context (initial_ranges : gmap K E → list Ag) (contains : Net → P → bool) (shuffle : R → list P → list P * R).
Context (authenticator : Authenticator) (framing : FramingConfig) (repair_interval port : N).
Implicit Types (e : Eng).

(** [send_to_retry]: a logical payload sent with a recovery book of its own. *)
Definition send_to_retry (target : P * N) (payload : list byte) (now : N) (s : SendState (P := P))
    : SendState (P := P) * option (result N unit) :=
  let '(s', res) := send_logical_payload blake3_hash authenticator framing wall nonce target payload now
    {| s_counter := s_counter s; s_book := book_for_identity; s_net := s_net s; s_log := s_log s |} in
  ({| s_counter := s_counter s'; s_book := s_book s; s_net := s_net s'; s_log := s_log s' |}, res).

(** The encoded whole-store comparison. *)
Definition comparison_payload (m : gmap K E) : list byte :=
  concat ((λ segment, encode (EntryFingerprint segment)) <$> initial_ranges m)
  ++ append_capability framing (encoded_capability encode).

(** What a replica keeps from one round to the next. *)
Record RoundState := { rd_round : N; rd_last : option N; rd_cursor : option K; rd_topology : Topology P Net }.

(** The loop over the targets: the send, then the repair it expects an answer by. *)
Definition contact_all e (targets : list P) (payload : list byte) (now : N) : Eng :=
  fold_left (λ e peer,
    let e := (run_send e (send_to_retry (peer, port) payload now)).1 in
    set_contacts e (note_pending_repair (en_repairs e) peer now repair_interval) (en_receiving e) (en_peers e)) targets e.

Definition start_reconciliation e (rd : RoundState) (discovered : list P) (now : N) : Eng * RoundState :=
  let payload := comparison_payload (rp_map (en_replica e)) in
  let '(peers, known) := get_peers (en_peers e) now in
  let '(rng, targets) := round_targets contains shuffle (rd_topology rd) (rd_round rd) (en_rng e) discovered known
                           (en_receiving e) now repair_interval in
  let '(payload, cursor, _) := resend_held_tombstone_acks (λ k version, encode (TombstoneAck (k, version)))
                                 (rp_live_tombstones (en_replica e)) (rp_map (en_replica e)) (rd_cursor rd) payload in
  let e := set_rng (set_contacts e (en_repairs e) (en_receiving e) peers) rng in
  (contact_all e (elements targets) payload now,
   {| rd_round := ((rd_round rd + 1) mod (u32_max + 1))%N; rd_last := Some now; rd_cursor := cursor; rd_topology := rd_topology rd |}).

(** The idle branch of [recv_loop]. *)
Definition recv_idle e (rd : RoundState) (discovered : list P) (now : N) : Eng * RoundState :=
  let e := set_inbound e (en_replay e) (expire_reassembly (en_reassembler e) now) in
  let e := (run_send e (expire_recovery_state framing now)).1 in
  start_reconciliation e rd discovered now.

(** One tick of [repair_periodically]. *)
Definition repair_tick e (now : N) : Eng :=
  let '(repairs, due) := retry_due_repairs (en_repairs e) now repair_interval in
  let e := set_contacts e repairs (en_receiving e) (en_peers e) in
  fold_left (λ e peer, (run_send e (send_to_retry (peer, port) (comparison_payload (rp_map (en_replica e))) now)).1) due e.

(** One tick of [retry_incomplete_periodically]. *)
Definition recovery_tick e (now : N) : Eng :=
  let '(e, ra) := run_send e (retry_idle_incomplete authenticator framing wall nonce (en_reassembler e) port now) in
  set_inbound e (en_replay e) ra.

(** [decommission_peer]: out of the membership, the acknowledgements and the gossip contacts. *)
Definition engine_decommission e (peer : P) : Eng :=
  set_contacts (set_replica e (decommission_peer (en_replica e) peer) (en_clock e)) (en_repairs e) (en_receiving e) (delete peer (en_peers e)).

Definition seed_peer e (peer : P) (now : N) : Eng :=
  set_contacts e (en_repairs e) (en_receiving e) (<[peer := now]> (en_peers e)).

(** One turn of the loop in [spawn_paced_send]'s task [t]: send the batch, then drain the stash. *)
Definition dump_turn e (t : DumpTask (A := P * N) (Ag := Ag) (K := K) (E := E) (St := St)) (messages : list Msg) (now : N) : Eng * DumpTask :=
  let e := send_to blake3_hash wall nonce encode authenticator framing e (dt_peer t) now messages in
  let '(d, t) := drain_stash entries_in states_in (en_dumps e) (rp_map (en_replica e)) (rp_projection (en_replica e)) t in
  (set_dump e d (en_tasks e), t).

(** One turn of the loop in [spawn_broadcast]'s task: send the updates to a peer, then watch for its
    reply. *)
Definition broadcast_turn e (peer : P) (updates : list (K * E)) (now : N) : Eng :=
  let e := send_to blake3_hash wall nonce encode authenticator framing e (peer, port) now (EntryUpdate <$> updates) in
  set_contacts e (note_pending_repair (en_repairs e) peer now repair_interval) (en_receiving e) (en_peers e).
End round.
