(* ===== verification/RunProps.v ===== *)
(** * What rounds and timers guarantee

    Which peers a round contacts, and the whole replica driven by datagrams, timers and dump tasks
    in any order. *)
From stdpp Require Import gmap list relations.
From Stdlib Require Import NArith.
From Stdlib.Strings Require Import Byte.
From S2P Require Import Prelude Bytes Btree Replay Auth Framing Reassembly ReassemblyInv ReassemblyComplete Missing ReassemblyProps.
From S2P Require Import RecoveryBook FramedSend FramedSendProps Ingress SignedCausal Messages Replica Samples ReplicaInv ReplicaProps.
From S2P Require Import Dumps Repair Engine EngineProps Writes Round.

(** ** The peers of a round *)

Section targets.
Context {P Net R : Type} `{EqDecision Net} `{Countable P} (contains : Net → P → bool) (shuffle : R → list P → list P * R).
Implicit Types (t : Topology P Net).

(** The known remote peers of bucket [b]. *)
Definition in_bucket_of t (b : option nat) (addr : P) : Prop :=
  contains (tp_local t) addr = false ∧ bucket_of contains t addr = b.
#[local] Instance in_bucket_of_dec t b addr : Decision (in_bucket_of t b addr).
Proof. unfold in_bucket_of. apply _. Defined.

Lemma buckets_lookup t known b :
  default [] (buckets contains t known !! b) = filter (in_bucket_of t b) known ∧
  (buckets contains t known !! b = None → filter (in_bucket_of t b) known = []).
Proof.
  unfold buckets. set (f := λ (m : gmap (option nat) (list P)) addr, _).
  assert (Hgen : ∀ (m : gmap (option nat) (list P)), default [] (fold_left f known m !! b) = default [] (m !! b) ++ filter (in_bucket_of t b) known).
  { induction known as [|a known IH]; intros m; cbn [fold_left]; [by rewrite app_nil_r|]. rewrite IH, filter_cons. unfold f.
    destruct (contains (tp_local t) a) eqn:Hl.
    { rewrite decide_False; [done|]. unfold in_bucket_of. intros [? _]. congruence. }
    destruct (decide (bucket_of contains t a = b)) as [Hb|Hb].
    - rewrite (decide_True (P := in_bucket_of t b a)) by done. rewrite Hb, lookup_insert_eq. cbn. by rewrite <- (assoc_L (++)).
    - rewrite (decide_False (P := in_bucket_of t b a)) by (intros [_ ?]; done). by rewrite lookup_insert_ne. }
  specialize (Hgen ∅). rewrite lookup_empty in Hgen. split; [exact Hgen|]. intros Hn. by rewrite Hn in Hgen.
Qed.

Context (shuffle_perm : ∀ rng l, (shuffle rng l).1 ≡ₚ l).

Lemma sample_buckets_spec rng fanout bs : let l := (sample_buckets shuffle rng fanout bs).2 in
  (∀ a, a ∈ l → ∃ b peers, (b, peers) ∈ bs ∧ a ∈ peers) ∧
  (∀ b peers, (b, peers) ∈ bs → ∃ chosen rest, chosen ++ rest ≡ₚ peers ∧ length chosen = fanout `min` length peers ∧ ∀ a, a ∈ chosen → a ∈ l).
Proof.
  revert rng. induction bs as [|[b peers] bs IH]; intros rng; cbn [sample_buckets].
  { cbn. split; [by intros a ?%not_elem_of_nil|by intros b peers ?%not_elem_of_nil]. }
  pose proof (shuffle_perm rng peers) as Hp. destruct (shuffle rng peers) as [l rng1]. cbn in Hp. specialize (IH rng1).
  destruct (sample_buckets shuffle rng1 fanout bs) as [rng2 rest]. cbn in *. destruct IH as [IH1 IH2]. split.
  - intros a [Ha|Ha]%elem_of_app; [|destruct (IH1 a Ha) as (b' & ps & ? & ?); exists b', ps; split; [by right|done]].
    exists b, peers. split; [left|]. rewrite <- Hp. rewrite <- (take_drop fanout l). apply elem_of_app. by left.
  - intros b' ps [[= -> ->]|Hin]%elem_of_cons.
    + exists (take fanout l), (drop fanout l). rewrite take_drop, length_take, (Permutation_length Hp). split_and!; [done..|].
      intros a Ha. apply elem_of_app. by left.
    + destruct (IH2 b' ps Hin) as (ch & re & ? & ? & Hch). exists ch, re. split_and!; [done..|]. intros a Ha. apply elem_of_app. right. auto.
Qed.

(** A round contacts whom it should: only discovered or known peers, never one whose bulk
    transfer may still be arriving; every known local peer otherwise, in every round; and in a
    cross-network round, of the remote peers of each declared network, and of those of none, a
    subset of the configured size or all of them, so that no topology orphans a known peer. *)
Theorem round_contacts_whom_it_should t round rng discovered known receiving now interval :
  let targets := (round_targets contains shuffle t round rng discovered known receiving now interval).2 in
  let quiet a := still_receiving_bulk (receiving !! a) now interval = false in
  (∀ a, a ∈ targets → quiet a ∧ (a ∈ discovered ∨ a ∈ known)) ∧
  (∀ a, a ∈ known → contains (tp_local t) a = true → quiet a → a ∈ targets) ∧
  ((round mod N.max (tp_remote_interval t) 1 = 0)%N → ∀ b, ∃ chosen rest,
    chosen ++ rest ≡ₚ filter (in_bucket_of t b) known ∧
    length chosen = tp_remote_fanout t `min` length (filter (in_bucket_of t b) known) ∧
    ∀ a, a ∈ chosen → quiet a → a ∈ targets).
Proof.
  unfold round_targets. set (remote := if (_ =? 0)%N then _ else _).
  assert (Hremote : ∀ a, a ∈ remote.2 → a ∈ known).
  { unfold remote. destruct (_ =? 0)%N; [|by intros a ?%not_elem_of_nil].
    intros a (b & peers & Hin%elem_of_map_to_list & Ha)%(sample_buckets_spec _ _ _).
    destruct (buckets_lookup t known b) as [Hb _]. rewrite Hin in Hb. cbn in Hb. rewrite Hb in Ha. by apply list_elem_of_filter in Ha as [_ ?]. }
  assert (Hsample : (round mod N.max (tp_remote_interval t) 1 = 0)%N →
    remote = sample_buckets shuffle rng (tp_remote_fanout t) (map_to_list (buckets contains t known))).
  { intros H0'. unfold remote. by rewrite H0'. }
  clearbody remote. destruct remote as [rng' remote]. cbn in *. split_and!.
  - intros a [Hq Ha]%elem_of_filter. split; [done|]. rewrite elem_of_list_to_set, !elem_of_app, list_elem_of_filter in Ha. naive_solver.
  - intros a Ha Hl Hq. apply elem_of_filter. split; [done|]. rewrite elem_of_list_to_set, !elem_of_app, list_elem_of_filter. tauto.
  - intros H0' b. specialize (Hsample H0'). destruct (buckets_lookup t known b) as [Hb Hnone].
    destruct (buckets contains t known !! b) as [peers|] eqn:Hp; cbn in Hb.
    + destruct (sample_buckets_spec rng (tp_remote_fanout t) (map_to_list (buckets contains t known))) as [_ Hs].
      rewrite <- Hsample in Hs. destruct (Hs b peers) as (ch & re & Hperm & Hlen & Hch); [by apply elem_of_map_to_list|].
      rewrite <- Hb. exists ch, re. split_and!; [done..|]. intros a Ha Hq. apply elem_of_filter. split; [done|].
      rewrite elem_of_list_to_set, !elem_of_app. right. right. by apply Hch.
    + exists [], []. rewrite (Hnone eq_refl). cbn. rewrite Nat.min_0_r. split_and!; [done..|]. by intros a ?%not_elem_of_nil.
Qed.
End targets.

(** ** The running replica *)

Section run.
Context {K V S E C St P Ag R Net : Type} `{Countable K, Countable P} `{Lww V S E C} `{!EntryState V S E St}.
Context `{!RustOrd K, !RustOrd S, !RustOrd P} `{!EqDecision S} `{Mac, Aead} `{EqDecision Net}.
Notation Msg := (Message Ag K E St).
Notation Eng := (Engine (K := K) (E := E) (C := C) (St := St) (P := P) (Ag := Ag) (R := R)).
Context (blake3_hash : list byte → id32) (wall : N → N) (nonce : N → list byte).
Context (encode : Msg → list byte) (deserialize : list byte → result (Msg * list byte) DeserializeError).
Context (entries_in : gmap K E → EnumerationRange K → list (K * E)) (states_in : gmap K St → EnumerationRange K → list (K * St)).
Context (dated_round : gmap K E → list Ag → R → list Ag * list (EnumerationRange K) * R)
        (value_round : gmap K St → list Ag → R → list Ag * list (EnumerationRange K) * R)
        (comparison_fingerprint : list Ag → id32).
Context (initial_ranges : gmap K E → list Ag) (contains : Net → P → bool) (shuffle : R → list P → list P * R).
Context (authenticator : Authenticator) (framing : FramingConfig).
Context (max_peers max_concurrent_bulk_dumps repair_interval port : N).
Notation recv_datagram := (recv_datagram blake3_hash wall nonce encode deserialize entries_in states_in dated_round value_round
  comparison_fingerprint authenticator framing max_peers max_concurrent_bulk_dumps repair_interval).
Notation recv_idle := (recv_idle blake3_hash wall nonce encode initial_ranges contains shuffle authenticator framing repair_interval port).
Notation repair_tick := (repair_tick blake3_hash wall nonce encode initial_ranges authenticator framing repair_interval port).
Notation recovery_tick := (recovery_tick wall nonce authenticator framing port).
Notation dump_turn := (dump_turn blake3_hash wall nonce encode entries_in states_in authenticator framing).
Notation broadcast_turn := (broadcast_turn blake3_hash wall nonce encode authenticator framing repair_interval port).
Implicit Types (e : Eng).

(** What can happen to a running replica: a datagram, with other tasks' critical sections inside
    the handling of its updates; an idle timeout; a tick of the repair or of the recovery timer; a
    critical section of a local writer; a broadcast task sending its updates to its next peer; a peer
    seeded or decommissioned; and a dump task sending its next batch, being aborted, or dropping its
    guards one at a time. *)
Inductive engine_step : Eng * RoundState → Eng * RoundState → Prop :=
| es_datagram e rd datagram peer now_ms now meanwhile e' :
    (∀ r, rtc critical r (meanwhile r)) → recv_datagram e datagram peer now_ms now meanwhile = Some e' → engine_step (e, rd) (e', rd)
| es_idle e rd discovered now : engine_step (e, rd) (recv_idle e rd discovered now)
| es_repair e rd now : engine_step (e, rd) (repair_tick e now, rd)
| es_recovery e rd now : engine_step (e, rd) (recovery_tick e now, rd)
| es_local e rd r c : critical (en_replica e) r → engine_step (e, rd) (set_replica e r c, rd)
| es_broadcast e rd peer updates now : engine_step (e, rd) (broadcast_turn e peer updates now, rd)
| es_decommission e rd peer : engine_step (e, rd) (engine_decommission e peer, rd)
| es_seed e rd peer now : engine_step (e, rd) (seed_peer e peer now, rd)
| es_dump e rd ts t ts' messages now e' t' :
    en_tasks e = ts ++ t :: ts' → dt_phase t = Sending messages → dump_turn e t messages now = (e', t') →
    engine_step (e, rd) (set_dump e' (en_dumps e') (ts ++ t' :: ts'), rd)
| es_abort e rd ts t ts' messages :
    en_tasks e = ts ++ t :: ts' → dt_phase t = Sending messages →
    engine_step (e, rd) (set_dump e (en_dumps e) (ts ++ with_phase t Leaving :: ts'), rd)
| es_uncount e rd ts t ts' :
    en_tasks e = ts ++ t :: ts' → dt_phase t = Leaving →
    engine_step (e, rd) (set_dump e (drop_count_guard (en_dumps e)) (ts ++ with_phase t Uncounted :: ts'), rd)
| es_finish e rd ts t ts' :
    en_tasks e = ts ++ t :: ts' → dt_phase t = Uncounted →
    engine_step (e, rd) (set_dump e (drop_peer_guard (en_dumps e) (dt_peer t)) (ts ++ ts'), rd).

Context (Hbook : book_cfg_ok framing) (Hvalid : framing_validate framing (N.of_nat (overhead authenticator)) = Ok tt).
Context (Hnonce : ∀ q, length (nonce q) = AEAD_NONCE_LEN) (Hhash : ∀ m, length (blake3_hash m) = 32).
Context (Hdumps : (max_concurrent_bulk_dumps ≤ u64_max)%N).
Context (dated_half_open : ∀ m l rng, Forall half_open (dated_round m l rng).1.2)
        (value_half_open : ∀ m l rng, Forall half_open (value_round m l rng).1.2).
Notation sound := (sound_step framing max_concurrent_bulk_dumps).

Lemma retry_sends target payload now : sends framing (send_to_retry (P := P) blake3_hash wall nonce authenticator framing target payload now) (λ _, True).
Proof.
  intros s Hs. unfold send_to_retry.
  destruct (sends_logical blake3_hash authenticator framing wall nonce Hbook Hvalid Hnonce Hhash target payload now
    {| s_counter := s_counter s; s_book := book_for_identity; s_net := s_net s; s_log := s_log s |}) as (l & _ & Hl & Hb & _);
    [apply book_ok_empty|]. destruct (send_logical_payload _ _ _ _ _ _ _ _ _) as [s' res]. by exists l.
Qed.

Lemma contact_all_sound (targets : list P) payload now e :
  sound e (contact_all blake3_hash wall nonce authenticator framing repair_interval port e targets payload now).
Proof.
  unfold contact_all. revert e. induction targets as [|p targets IH]; intros e; cbn [fold_left]; [apply sound_refl|].
  eapply sound_trans; [|apply IH]. eapply sound_trans; [|apply set_contacts_sound]. eapply run_send_sound, retry_sends.
Qed.

Lemma inbound_sound e f ra : (wf (en_reassembler e) → wf ra) → (ids_ok (en_reassembler e) → ids_ok ra) → sound e (set_inbound e f ra).
Proof. intros Hw Hi [? ? ? ? ? ?]. split; [constructor; auto|apply rtc_refl]. Qed.

Lemma idle_sound e (rd : RoundState) discovered now : sound e (recv_idle e rd discovered now).1.
Proof.
  unfold Round.recv_idle. set (e1 := set_inbound e _ _). set (e2 := (run_send e1 _).1).
  assert (He1 : sound e e1) by (apply inbound_sound; [apply expire_wf|by apply (expire_ids blake3_hash)]).
  assert (He2 : sound e1 e2).
  { eapply (run_send_sound _ _ e1 _ (λ _, True)), sends_book. intros b Hb. split; [|done].
    apply (book_expire_ok framing (N.of_nat (size (capabilities b))) b now Hb (N.le_refl _)). }
  eapply sound_trans; [exact He1|]. eapply sound_trans; [exact He2|]. clearbody e2. unfold start_reconciliation.
  destruct (get_peers _ _) as [peers known]. destruct (round_targets _ _ _ _ _ _ _ _ _ _) as [rng targets].
  destruct (resend_held_tombstone_acks _ _ _ _ _) as [[payload cursor] ?]. cbn [fst].
  eapply sound_trans; [|apply contact_all_sound]. eapply sound_trans; [apply set_contacts_sound|apply set_rng_sound].
Qed.

Lemma repair_sound e now : sound e (repair_tick e now).
Proof.
  unfold Round.repair_tick. destruct (retry_due_repairs _ _ _) as [repairs due].
  eapply sound_trans; [apply (set_contacts_sound _ _ e repairs (en_receiving e) (en_peers e))|].
  generalize (set_contacts e repairs (en_receiving e) (en_peers e)).
  induction due as [|p due IH]; intros e1; cbn [fold_left]; [apply sound_refl|]. eapply sound_trans; [|apply IH].
  eapply run_send_sound, retry_sends.
Qed.

Lemma idle_retry_keeps (r : Reassembler P) now (s : SendState (P := P)) : let r' := (retry_idle_incomplete authenticator framing wall nonce r port now s).2 in
  (wf r → wf r') ∧ (ids_ok r → ids_ok r').
Proof.
  unfold retry_idle_incomplete. destruct (negb _); [done|]. destruct (expire r now) as [r1 n] eqn:He. set (m := max_missing_ranges_for_budget _ _ _).
  pose proof (expire_wf r now) as Hw. pose proof (expire_ids blake3_hash r now) as Hi. rewrite He in Hw, Hi. cbn [fst] in Hw, Hi.
  pose proof (poll_ids r1 now (seconds 1) (seconds 3) m 32) as Hpi.
  assert (Hpw : wf r1 → wf (poll_idle_missing r1 now (seconds 1) (seconds 3) m 32).1).
  { intros Hr. unfold poll_idle_missing. do 2 (case_test; [done|]). by apply poll_loop_wf. }
  destruct (poll_idle_missing _ _ _ _ _ _) as [r2 qs]. unfold mbind, Send_bind. destruct (request_missing _ _ _ _ _ _ _ _) as [s' []].
  cbn in *. split; [intros Hr; apply Hpw, Hw, Hr|auto].
Qed.

Lemma recovery_sound e now : sound e (recovery_tick e now).
Proof.
  intros Hok. unfold Round.recovery_tick. pose proof (idle_retry_keeps (en_reassembler e) now (en_send e)) as [Hw Hi].
  set (m := retry_idle_incomplete authenticator framing wall nonce (en_reassembler e) port now) in *.
  assert (Hs : sound e (run_send e m).1) by (eapply run_send_sound, sends_idle; try done; apply Hok).
  assert (Hra : en_reassembler (run_send e m).1 = en_reassembler e ∧ (run_send e m).2 = (m (en_send e)).2)
    by (unfold run_send; by destruct (m (en_send e))).
  destruct (run_send e m) as [e1 ra]. cbn [fst snd] in *. destruct Hra as [Hr1 ->].
  refine (sound_trans _ _ _ _ _ Hs (inbound_sound e1 _ _ _ _) Hok); by rewrite Hr1.
Qed.

(** Dump tasks move by the steps of the dump scheduler. *)
Lemma tasks_sound e d ts : dump_step fst entries_in states_in max_concurrent_bulk_dumps (en_dumps e, en_tasks e) (d, ts) → sound e (set_dump e d ts).
Proof.
  intros Hst [? ? ? ? Hs Hx]. split; [|apply rtc_refl]. constructor; [done..| |].
  - by apply (dump_step_stash fst entries_in states_in max_concurrent_bulk_dumps _ _ Hst).
  - by apply (dump_step_slots fst entries_in states_in max_concurrent_bulk_dumps _ _ Hdumps Hst).
Qed.

Lemma turn_sound e ts t ts' messages now e' t' : en_tasks e = ts ++ t :: ts' → dt_phase t = Sending messages →
  dump_turn e t messages now = (e', t') → sound e (set_dump e' (en_dumps e') (ts ++ t' :: ts')).
Proof.
  intros Hts Hp. unfold Round.dump_turn. set (e1 := send_to _ _ _ _ _ _ e _ _ _).
  assert (He1 : sound e e1) by (by apply send_to_sound).
  assert (Ht1 : en_tasks e1 = en_tasks e) by (unfold e1, send_to, run_send; by destruct (send_messages_paced _ _ _ _ _ _ _ _ _ _)).
  clearbody e1. destruct (drain_stash _ _ _ _ _ t) as [d t1] eqn:Hd. intros [= <- <-].
  eapply sound_trans; [exact He1|]. refine (tasks_sound e1 d _ _). rewrite Ht1, Hts. by eapply step_sent.
Qed.

Lemma engine_step_sound x y : engine_step x y → sound x.1 y.1.
Proof.
  intros [e rd datagram peer now_ms now meanwhile e' Hmw Hr|e rd discovered now|e rd now|e rd now|e rd r c Hc|
    e rd peer updates now|e rd peer|e rd peer now|e rd ts t ts' ms now e' t' Hts Hp Ht|e rd ts t ts' ms Hts Hp|e rd ts t ts' Hts Hp|e rd ts t ts' Hts Hp]; cbn [fst].
  - intros Hok. edestruct (datagram_sound blake3_hash wall nonce encode deserialize entries_in states_in dated_round value_round
      comparison_fingerprint authenticator framing max_peers max_concurrent_bulk_dumps repair_interval) as (e1 & Hr1 & ? & ?); [done..|].
    rewrite Hr in Hr1. by injection Hr1 as <-.
  - apply idle_sound.
  - apply repair_sound.
  - apply recovery_sound.
  - eauto with reconcile.
  - unfold Round.broadcast_turn. eapply sound_trans; [by apply send_to_sound|apply set_contacts_sound].
  - eapply sound_trans; [|apply set_contacts_sound]. eauto with reconcile.
  - eauto with reconcile.
  - by eapply turn_sound.
  - apply tasks_sound. rewrite Hts. by eapply step_aborted.
  - apply tasks_sound. rewrite Hts. by eapply step_uncount.
  - apply tasks_sound. rewrite Hts. by eapply step_finish.
Qed.

Lemma run_sound e rd e' rd' : rtc engine_step (e, rd) (e', rd') → sound e e'.
Proof.
  change e with (e, rd).1 at 2. change e' with (e', rd').1 at 2. generalize (e, rd), (e', rd').
  induction 1 as [x|x y z Hxy _ IH]; [apply sound_refl|]. eapply sound_trans; [by apply engine_step_sound|exact IH].
Qed.

(** C2. A running replica is always well formed: from a well-formed engine, after any sequence
    of datagrams of any bytes, idle rounds, repair and recovery timers, local writes, membership changes and dump tasks,
    the reassembler and the retained transfers are within their limits, every frame sent fits the
    datagram budget, dump slots are exact and stashed ranges half-open and disjoint; the replica has
    only gone through its critical sections; and the next datagram, whatever it is, cannot make the
    receive loop panic. *)
Theorem running_engine_sound e rd e' rd' : engine_ok framing max_concurrent_bulk_dumps e →
  rtc engine_step (e, rd) (e', rd') →
  engine_ok framing max_concurrent_bulk_dumps e' ∧ rtc critical (en_replica e) (en_replica e') ∧
  ∀ datagram peer now_ms now meanwhile, (∀ r, rtc critical r (meanwhile r)) →
    is_Some (recv_datagram e' datagram peer now_ms now meanwhile).
Proof.
  intros Hok Hs%run_sound. destruct (Hs Hok) as [Hok' Hc]. split_and!; [done..|]. intros datagram peer now_ms now meanwhile Hmw.
  edestruct (datagram_sound blake3_hash wall nonce encode deserialize entries_in states_in dated_round value_round
    comparison_fingerprint authenticator framing max_peers max_concurrent_bulk_dumps repair_interval) as (e1 & Hr1 & _); [done..|]. by exists e1.
Qed.
End run.

(** ** A concrete network *)

#[local] Existing Instances small_lww small_state toy_mac toy_aead.

(** Network [n] holds the addresses [10 n .. 10 n + 9]. *)
Definition small_contains (net addr : N) : bool := (addr / 10 =? net)%N.
Definition small_shuffle (rng : unit) (l : list N) : list N * unit := (rev l, rng).
Definition small_topology : Topology N N :=
  {| tp_nets := [1; 2]%N; tp_local := 1%N; tp_listen := 10%N; tp_remote_interval := 3; tp_remote_fanout := 1 |}.
Definition small_start : RoundState (K := N) (P := N) (Net := N) :=
  {| rd_round := 0; rd_last := None; rd_cursor := None; rd_topology := small_topology |}.

Lemma small_shuffle_perm rng l : (small_shuffle rng l).1 ≡ₚ l.
Proof. symmetry. apply Permutation_rev. Qed.

(** Round 3: both local peers but the one still sending, and one of the two peers of network 2. *)
Lemma round_contacts_whom_it_should_witness :
  let targets := (round_targets small_contains small_shuffle small_topology 3 tt [] [11; 12; 21; 22]%N {[12%N := 5%N]} 6 2).2 in
  11%N ∈ targets ∧ 12%N ∉ targets ∧ (21%N ∈ targets ∨ 22%N ∈ targets).
Proof.
  destruct (round_contacts_whom_it_should small_contains small_shuffle small_shuffle_perm small_topology 3 tt [] [11; 12; 21; 22]%N
    {[12%N := 5%N]} 6 2) as (Hsub & Hlocal & Hremote). split_and!.
  - apply Hlocal; [set_solver|done|done].
  - intros [Hq _]%Hsub. vm_compute in Hq. discriminate.
  - destruct (Hremote eq_refl (Some 0)) as (ch & re & Hp & Hlen & Hch). vm_compute in Hlen.
    change (filter _ _) with [21; 22]%N in Hp. destruct ch as [|a [|b ch]]; [discriminate| |discriminate].
    assert (Ha : a ∈ [21; 22]%N) by (rewrite <- Hp; left).
    apply elem_of_cons in Ha as [->|Ha%list_elem_of_singleton]; [left|subst a; right]; (apply Hch; [left|reflexivity]).
Defined.

Notation small_run := (engine_step pad32 (λ q, q) demo_nonce small_encode small_deserialize small_range small_states
  small_round small_round (λ _, small_fp) (λ _, [tt]) small_contains small_shuffle Disabled demo_framing 4 1 (seconds 1) 1%N).

(** An idle round, a datagram, and the recovery timer. *)
Lemma running_engine_sound_witness : ∃ e rd, rtc small_run (small_engine, small_start) (e, rd) ∧ engine_ok demo_framing 1 e.
Proof.
  destruct (Round.recv_idle pad32 (λ q, q) demo_nonce small_encode (λ _, [tt]) small_contains small_shuffle Disabled demo_framing (seconds 1) 1
    small_engine small_start [11%N] 0) as [e1 rd1] eqn:H1.
  destruct (small_recv e1 small_datagram (7%N, 1%N) 0 0 id) as [e2|] eqn:H2; [|vm_compute in H1; injection H1 as <- <-; vm_compute in H2; discriminate].
  set (e3 := Round.recovery_tick (λ q, q) demo_nonce Disabled demo_framing 1 e2 5).
  assert (Hr : rtc small_run (small_engine, small_start) (e3, rd1)).
  { apply (rtc_l _ _ (e1, rd1)); [rewrite <- H1; apply es_idle|]. eapply rtc_l; [eapply es_datagram; [intros r; apply (rtc_refl critical r)|exact H2]|].
    apply rtc_once, es_recovery. }
  exists e3, rd1. split; [exact Hr|].
  destruct (running_engine_sound (P := N) (Ag := unit) pad32 (λ q, q) demo_nonce small_encode small_deserialize small_range small_states small_round small_round
    (λ _, small_fp) (λ _, [tt]) small_contains small_shuffle Disabled demo_framing 4 1 (seconds 1) 1 demo_framing_book ltac:(vm_compute; reflexivity)
    (λ _, eq_refl) pad32_length ltac:(vm_compute; discriminate) small_round_half_open small_round_half_open
    small_engine small_start e3 rd1 small_engine_ok Hr) as [Hok _]. exact Hok.
Defined.
