(* ===== verification/RunLimits.v ===== *)
(** * The limits of a running replica ([src/replica/run.rs], [src/replica/inbound.rs])

    The reassembler's limits and the capacity of the replay filter are set at construction. No step of
    the running replica changes them, and the filter never remembers more senders than its
    capacity: only the receive gate, the idle branch and the recovery timer touch the two, and each
    keeps the configured bounds. *)
From stdpp Require Import gmap list relations.
From Stdlib Require Import NArith.
From Stdlib.Strings Require Import Byte.
From S2P Require Import Prelude Bytes Replay Auth Framing Reassembly ReassemblyInv Missing RecoveryBook FramedSend FramedSendProps Admission Ingress.
From S2P Require Import ReassemblyProps Journal SignedCausal Messages Replica Samples ReplicaInv Dumps Repair Engine EngineProps Writes Round RunProps.

Section limits.
Context {K V S E C St P Ag R Net : Type} `{Countable K, Countable P} `{Lww V S E C} `{!EntryState V S E St}.
Context `{!RustOrd K, !RustOrd S, !RustOrd P} `{!EqDecision S} `{Mac, Aead} `{EqDecision Net}.
Notation Msg := (Message Ag K E St).
Notation Eng := (Engine (K := K) (E := E) (C := C) (St := St) (P := P) (Ag := Ag) (R := R)).
Context (blake3_hash : list byte → id32) (wall : N → N) (nonce : N → list byte).
Context (encode : Msg → list byte) (deserialize : list byte → result (Msg * list byte) DeserializeError).
Context (entries_in : gmap K E → EnumerationRange K → list (K * E)) (states_in : gmap K St → EnumerationRange K → list (K * St)).
Context (dated_round : gmap K E → list Ag → R → list Ag * list (EnumerationRange K) * R)
        (value_round : gmap K St → list Ag → R → list Ag * list (EnumerationRange K) * R)
        (comparison_fingerprint : list Ag → id32).
Context (initial_ranges : gmap K E → list Ag) (contains : Net → P → bool) (shuffle : R → list P → list P * R).
Context (authenticator : Authenticator) (framing : FramingConfig).
Context (max_peers max_concurrent_bulk_dumps repair_interval port : N).
Notation handle_updates := (handle_updates blake3_hash wall nonce encode authenticator framing repair_interval).
Notation handle_messages := (handle_messages blake3_hash wall nonce encode deserialize entries_in states_in dated_round value_round
  comparison_fingerprint authenticator framing max_peers max_concurrent_bulk_dumps repair_interval).
Notation handle_dated_comparison := (handle_dated_comparison blake3_hash wall nonce encode entries_in dated_round
  comparison_fingerprint authenticator framing max_concurrent_bulk_dumps).
Notation handle_value_comparison := (handle_value_comparison blake3_hash wall nonce encode states_in value_round
  comparison_fingerprint authenticator framing max_concurrent_bulk_dumps).
Notation receive_payload := (receive_payload blake3_hash wall nonce encode deserialize entries_in states_in dated_round value_round
  comparison_fingerprint authenticator framing max_peers max_concurrent_bulk_dumps repair_interval).
Notation handle_frame_event := (handle_frame_event blake3_hash wall nonce encode deserialize entries_in states_in dated_round value_round
  comparison_fingerprint authenticator framing max_peers max_concurrent_bulk_dumps repair_interval).
Notation recv_datagram := (recv_datagram blake3_hash wall nonce encode deserialize entries_in states_in dated_round value_round
  comparison_fingerprint authenticator framing max_peers max_concurrent_bulk_dumps repair_interval).
Notation running := (engine_step blake3_hash wall nonce encode deserialize entries_in states_in dated_round value_round
  comparison_fingerprint initial_ranges contains shuffle authenticator framing max_peers max_concurrent_bulk_dumps repair_interval port).
Implicit Types (e : Eng).

(** ** Steps that leave the receive gate alone *)

Definition same_inbound e e' : Prop := en_replay e' = en_replay e ∧ en_reassembler e' = en_reassembler e.

Lemma same_inbound_trans e1 e2 e3 : same_inbound e1 e2 → same_inbound e2 e3 → same_inbound e1 e3.
Proof. unfold same_inbound. intros (-> & ->) (-> & ->). done. Qed.

Lemma run_send_inbound {A} e (m : SendState (P := P) → SendState (P := P) * A) : same_inbound e (run_send e m).1.
Proof. unfold run_send. by destruct (m (en_send e)). Qed.

Lemma dated_comparison_inbound e l peer now e' : handle_dated_comparison e l peer now = Some e' → same_inbound e e'.
Proof.
  unfold Engine.handle_dated_comparison. destruct l as [|a l]; [by intros [= <-]|].
  destruct (dated_round _ _ _) as [[out differences] rng]. set (e1 := match out with [] => _ | _ => _ end).
  assert (H1e : same_inbound e e1) by (unfold e1; destruct out; [done|apply (same_inbound_trans _ (set_rng e rng)); [done|apply run_send_inbound]]).
  clearbody e1. intros (e2 & Hd & [= <-])%bind_Some.
  assert (H2e : same_inbound e e2).
  { destruct differences; [by injection Hd as <-|]. destruct (start_dated_dump _ _ _ _ _ _ _ _ _) as [[d t]|]; [|done]. by injection Hd as <-. }
  destruct out, differences; try done. eapply same_inbound_trans; [exact H2e|apply run_send_inbound].
Qed.

Lemma value_comparison_inbound e l peer now e' : handle_value_comparison e l peer now = Some e' → same_inbound e e'.
Proof.
  unfold Engine.handle_value_comparison. destruct l as [|a l]; [by intros [= <-]|].
  destruct (value_round _ _ _) as [[out differences] rng]. set (e1 := match out with [] => _ | _ => _ end).
  assert (same_inbound e e1) by (unfold e1; destruct out; [done|apply (same_inbound_trans _ (set_rng e rng)); [done|apply run_send_inbound]]).
  destruct differences; [by intros [= <-]|]. destruct (start_value_dump _ _ _ _ _ _ _ _ _) as [[d t]|]; [|done]. by intros [= <-].
Qed.

Lemma updates_inbound e l peer now meanwhile : same_inbound e (handle_updates e l peer now meanwhile).
Proof.
  unfold Engine.handle_updates. destruct l as [|u l]; [done|]. destruct (apply_dated_updates _ _ _ _) as [[r c] acks].
  destruct acks; [done|]. eapply same_inbound_trans; [|apply run_send_inbound]. done.
Qed.

Lemma payload_inbound e payload peer now meanwhile e' : receive_payload e payload peer now meanwhile = Some e' → same_inbound e e'.
Proof.
  unfold Engine.receive_payload, Engine.handle_messages. intros ([e1 dated] & Hm & [= <-])%bind_Some.
  assert (H1e : same_inbound e e1); [|destruct dated; exact H1e].
  set (e0 := set_contacts e _ _ _) in Hm. change (same_inbound e0 e1). clearbody e0. clear e.
  destruct (decode_datagram deserialize payload) as [batch|]; [|by injection Hm as <- <-].
  set (e2 := if selective_recovery_capability batch then _ else e0) in Hm.
  assert (H2e : same_inbound e0 e2) by (unfold e2; destruct (selective_recovery_capability batch); [apply run_send_inbound|done]).
  clearbody e2. apply bind_Some in Hm as (e3 & Hd%dated_comparison_inbound & (e4 & Hv%value_comparison_inbound & [= <- _])%bind_Some).
  eapply same_inbound_trans; [exact H2e|]. eapply same_inbound_trans; [exact Hd|]. eapply same_inbound_trans; [apply updates_inbound|exact Hv].
Qed.

Lemma supports_inbound e peer now : same_inbound e (peer_supports framing e peer now).1.
Proof. apply run_send_inbound. Qed.

Lemma event_inbound e ev peer now meanwhile e' : handle_frame_event e ev peer now meanwhile = Some e' → same_inbound e e'.
Proof.
  pose proof (supports_inbound e peer now) as Hs.
  destruct ev as [message transfer|id ranges|id ranges|id|]; cbn [Engine.handle_frame_event].
  - intros Hp%payload_inbound. eapply same_inbound_trans; [|exact Hp]. destruct transfer as [id|]; [|done].
    destruct (peer_supports framing e peer now) as [e1 []]; [|done]. eapply same_inbound_trans; [exact Hs|apply run_send_inbound].
  - destruct (peer_supports framing e peer now) as [e1 []]; intros [= <-]; [|done].
    destruct (write_missing_report id ranges); [|done]. eapply same_inbound_trans; [exact Hs|apply run_send_inbound].
  - intros [= <-]. apply run_send_inbound.
  - intros [= <-]. apply run_send_inbound.
  - by intros [= <-].
Qed.

Lemma sends_inbound (f : Eng → P → Eng) l e : (∀ e1 p, same_inbound e1 (f e1 p)) → same_inbound e (fold_left f l e).
Proof.
  intros Hf. revert e. induction l as [|p l IH]; intros e; cbn [fold_left]; [done|]. eapply same_inbound_trans; [apply Hf|apply IH].
Qed.

(** ** The configured bounds *)

(** The reassembler works with the limits [limits], and the replay filter, with its freshness
    window [window], remembers at most [senders] senders. *)
Record inbound_within (limits : ReassemblyLimits) (window senders : N) e : Prop := {
  iw_limits : r_limits (en_reassembler e) = limits;
  iw_window : ReplayFilter.freshness_window (en_replay e) = window;
  iw_max : ReplayFilter.max_senders (en_replay e) = senders;
  iw_len : (ReplayFilter.filter_len (en_replay e) ≤ senders)%N;
}.

Lemma same_inbound_within limits window senders e e' : same_inbound e e' → inbound_within limits window senders e → inbound_within limits window senders e'.
Proof. intros [Hf Hr] [? ? ? ?]. by constructor; rewrite ?Hf, ?Hr. Qed.

Lemma reassembler_within limits window senders e ra : r_limits ra = r_limits (en_reassembler e) →
  inbound_within limits window senders e → inbound_within limits window senders (set_inbound e (en_replay e) ra).
Proof. intros Hl [? ? ? ?]. by constructor; cbn; rewrite ?Hl. Qed.

(** The replay check keeps the filter's window and capacity, and stays within it. *)
Lemma admit_within (a : Authenticator) (fl fl' : ReplayFilter.Filter P) cap sender datagram peer_state now res :
  admit_inbound a fl cap sender datagram peer_state now = (fl', res) →
  ReplayFilter.freshness_window fl' = ReplayFilter.freshness_window fl ∧ ReplayFilter.max_senders fl' = ReplayFilter.max_senders fl ∧
  ((ReplayFilter.filter_len fl ≤ ReplayFilter.max_senders fl)%N → (ReplayFilter.filter_len fl' ≤ ReplayFilter.max_senders fl)%N).
Proof.
  unfold admit_inbound. destruct (open a datagram) as [pl|]; [|by intros [= <- <-]]. destruct (check_version pl) as [pl'|]; [|by intros [= <- <-]].
  destruct (peer_state tt) as [known n]. destruct (negb _); [by intros [= <- <-]|]. unfold verify_replay, ReplayFilter.check_and_record.
  destruct (negb _); [by intros [= <- <-]|]. unfold ReplayFilter.check_and_record_at.
  pose proof (ReplayFilter.check_and_record_sender_size (ReplayFilter.peers fl) sender (p_seq pl') (p_stamp pl') now
    (ReplayFilter.freshness_window fl) (ReplayFilter.max_senders fl)) as Hsz.
  destruct (ReplayFilter.check_and_record_sender _ _ _ _ _ _ _) as [m r]. intros [= <- <-]. done.
Qed.

Lemma datagram_within limits window senders e datagram peer now_ms now meanwhile e' : wf (en_reassembler e) →
  recv_datagram e datagram peer now_ms now meanwhile = Some e' → inbound_within limits window senders e → inbound_within limits window senders e'.
Proof.
  intros Hw. unfold Engine.recv_datagram. destruct (_ <? _)%N; [by intros [= <-]|].
  destruct (admit_inbound _ _ _ _ _ _ _) as [fl [payload|err]] eqn:Ha; apply admit_within in Ha as (Hfw & Hfm & Hfl).
  - intros ([ra ev] & Hf & Hev%event_inbound)%bind_Some [? ? Hm ?]. eapply same_inbound_within; [exact Hev|].
    destruct (accept_frame_spec blake3_hash (en_reassembler e) peer.1 payload (max_missing_ranges authenticator framing) now Hw)
      as (ra' & ev' & Hf' & _ & Hl & _). rewrite Hf in Hf'. injection Hf' as <- <-.
    constructor; cbn; [congruence..|]. rewrite <- Hm. apply Hfl. by rewrite Hm.
  - intros [= <-] [? ? Hm ?]. constructor; cbn; [congruence..|]. rewrite <- Hm. apply Hfl. by rewrite Hm.
Qed.

(** At the peer cap a stranger's datagram is dropped before the replay check. *)
Lemma stranger_refused e datagram peer now_ms now meanwhile e' :
  peer.1 ∉ rp_members (en_replica e) → (max_peers ≤ N.of_nat (size (rp_members (en_replica e))))%N →
  recv_datagram e datagram peer now_ms now meanwhile = Some e' →
  en_replica e' = en_replica e ∧ en_replay e' = en_replay e ∧ en_reassembler e' = en_reassembler e.
Proof.
  intros Hp Hcap. unfold Engine.recv_datagram. destruct (_ <? _)%N; [by intros [= <-]|]. unfold admit_inbound.
  destruct (open authenticator datagram) as [pl|]; [|by intros [= <-]]. destruct (check_version pl) as [pl'|]; [|by intros [= <-]].
  rewrite bool_decide_eq_false_2 by done. unfold admits. rewrite (proj2 (N.ltb_ge _ _)) by done. cbn. by intros [= <-].
Qed.

Lemma idle_within limits window senders e (rd : RoundState (K := K) (P := P) (Net := Net)) discovered now : wf (en_reassembler e) → inbound_within limits window senders e →
  inbound_within limits window senders
    (recv_idle blake3_hash wall nonce encode initial_ranges contains shuffle authenticator framing repair_interval port e rd discovered now).1.
Proof.
  intros Hw Hin. unfold Round.recv_idle. pose proof (reassembler_within limits window senders e (expire_reassembly (en_reassembler e) now)) as H1e.
  set (e1 := set_inbound e _ _) in *. unfold start_reconciliation. destruct (get_peers _ _) as [peers known].
  destruct (round_targets _ _ _ _ _ _ _ _ _ _) as [rng targets]. destruct (resend_held_tombstone_acks _ _ _ _ _) as [[payload cursor] ?]. cbn [fst].
  apply (same_inbound_within _ _ _ e1); [|apply H1e; [apply (expire_wf _ _ Hw)|done]].
  eapply same_inbound_trans; [apply (run_send_inbound e1 (expire_recovery_state framing now))|].
  eapply same_inbound_trans; [|apply sends_inbound]; [done|]. intros e2 p.
  eapply same_inbound_trans; [apply (run_send_inbound e2 (send_to_retry blake3_hash wall nonce authenticator framing (p, port) payload now))|done].
Qed.

Lemma retry_idle_limits (r : Reassembler P) now (s : SendState (P := P)) : wf r →
  r_limits (retry_idle_incomplete authenticator framing wall nonce r port now s).2 = r_limits r.
Proof.
  intros Hr. unfold retry_idle_incomplete. destruct (negb _); [done|]. destruct (expire r now) as [r1 n] eqn:He. set (m := max_missing_ranges_for_budget _ _ _).
  pose proof (expire_wf r now Hr) as [Hw Hl]. rewrite He in Hw, Hl. cbn [fst] in Hw, Hl.
  assert (Hpl : r_limits (poll_idle_missing r1 now (seconds 1) (seconds 3) m 32).1 = r_limits r1).
  { unfold poll_idle_missing. do 2 (case_test; [done|]). by apply poll_loop_wf. }
  destruct (poll_idle_missing _ _ _ _ _ _) as [r2 qs]. unfold mbind, Send_bind. destruct (request_missing _ _ _ _ _ _ _ _) as [s' []].
  cbn in *. congruence.
Qed.

Lemma recovery_within limits window senders e now : wf (en_reassembler e) → inbound_within limits window senders e →
  inbound_within limits window senders (recovery_tick wall nonce authenticator framing port e now).
Proof.
  intros Hw Hin. unfold Round.recovery_tick. set (m := retry_idle_incomplete _ _ _ _ _ _ _).
  pose proof (retry_idle_limits (en_reassembler e) now (en_send e) Hw) as Hl. pose proof (run_send_inbound e m) as Hs.
  assert (Hra : (run_send e m).2 = (m (en_send e)).2) by (unfold run_send; by destruct (m (en_send e))).
  destruct (run_send e m) as [e1 ra]. cbn [fst snd] in *. rewrite Hra. apply reassembler_within; [|by eapply same_inbound_within].
  unfold m. rewrite Hl. symmetry. f_equal. apply Hs.
Qed.

Lemma engine_step_within limits window senders x y : running x y → wf (en_reassembler x.1) → inbound_within limits window senders x.1 → inbound_within limits window senders y.1.
Proof.
  intros [e rd datagram peer now_ms now meanwhile e' Hmw Hr|e rd discovered now|e rd now|e rd now|e rd r c Hc|
    e rd peer updates now|e rd peer|e rd peer now|e rd ts t ts' ms now e' t' Hts Hp Ht|e rd ts t ts' ms Hts Hp|e rd ts t ts' Hts Hp|e rd ts t ts' Hts Hp] Hw; cbn [fst] in *.
  - by eapply datagram_within.
  - by apply idle_within.
  - apply same_inbound_within. unfold Round.repair_tick. destruct (retry_due_repairs _ _ _) as [repairs due].
    eapply same_inbound_trans; [|apply sends_inbound; intros e1 p; apply run_send_inbound]. done.
  - by apply recovery_within.
  - by apply same_inbound_within.
  - apply same_inbound_within. exact (run_send_inbound e (send_messages_paced blake3_hash authenticator framing wall nonce (peer, port) now
      (encoded_capability encode) (encode <$> (EntryUpdate <$> updates)))).
  - by apply same_inbound_within.
  - by apply same_inbound_within.
  - revert Ht. unfold Round.dump_turn, send_to.
    pose proof (run_send_inbound e (send_messages_paced blake3_hash authenticator framing wall nonce (dt_peer t) now (encoded_capability encode) (encode <$> ms))) as Hs.
    destruct (drain_stash _ _ _ _ _ t) as [d t1]. intros [= <- <-]. by apply same_inbound_within.
  - by apply same_inbound_within.
  - by apply same_inbound_within.
  - by apply same_inbound_within.
Qed.

Context (Hbook : book_cfg_ok framing) (Hvalid : framing_validate framing (N.of_nat (overhead authenticator)) = Ok tt).
Context (Hnonce : ∀ q, length (nonce q) = AEAD_NONCE_LEN) (Hhash : ∀ m, length (blake3_hash m) = 32).
Context (Hdumps : (max_concurrent_bulk_dumps ≤ u64_max)%N).
Context (dated_half_open : ∀ m l rng, Forall half_open (dated_round m l rng).1.2)
        (value_half_open : ∀ m l rng, Forall half_open (value_round m l rng).1.2).

(** However long the replica runs. *)
Lemma run_within limits window senders e rd e' rd' : engine_ok framing max_concurrent_bulk_dumps e → rtc running (e, rd) (e', rd') →
  inbound_within limits window senders e → inbound_within limits window senders e'.
Proof.
  change e with (e, rd).1 at 1 3. change e' with (e', rd').1 at 2. generalize (e, rd), (e', rd').
  intros x y Hok Hrun. revert Hok. induction Hrun as [x|x y z Hxy _ IH]; intros Hok Hin; [done|].
  apply IH; [|by eapply engine_step_within; [exact Hxy|apply Hok|]].
  eapply engine_step_sound in Hxy; [|done..]. by apply Hxy.
Qed.
End limits.
