(* ===== verification/Startup.v ===== *)
(** * Starting from a backend ([src/replicated_map/persistence.rs])

    [with_persistence] retries a failing load with exponential backoff and installs what it loads;
    [collect_persisted_state] reads the whole map back in chunks, resuming after the last key of
    each. The backend's successive [load]s are a function of the call number, the ordered map the
    list of its entries. Sleeps are in milliseconds. *)
From stdpp Require Import gmap list sorting.
From Stdlib Require Import NArith.
From S2P Require Import Prelude Journal SignedCausal Replica Samples ReplicaInv ReplicaProps.

(** ** The load *)

Definition LOAD_RETRY_ATTEMPTS : N := 5.
Definition LOAD_RETRY_BASE_DELAY : N := 100.

(** [None] is an overflow of the [u32] arithmetic. *)
Definition backoff_delay (attempt : N) : option N :=
  if (attempt =? 0)%N then None
  else let factor := (2 ^ (attempt - 1))%N in
    if (factor <=? u32_max)%N then Some (LOAD_RETRY_BASE_DELAY * factor)%N else None.

Inductive PersistenceLoadError := Corrupt (err : IoError) | RetriesExhausted (err : IoError).

Section load.
Context {D : Type} (load : N → result D IoError).

(** The load loop: what it answers, the number of loads, the time slept. *)
Fixpoint load_loop (fuel : nat) (attempt slept : N) : option (result D PersistenceLoadError * N * N) :=
  match fuel with
  | 0 => None
  | Datatypes.S fuel =>
      match load attempt with
      | Ok state => Some (Ok state, (attempt + 1)%N, slept)
      | Err InvalidData => Some (Err (Corrupt InvalidData), (attempt + 1)%N, slept)
      | Err err =>
          if (attempt + 1 <? LOAD_RETRY_ATTEMPTS)%N then
            delay ← backoff_delay (attempt + 1); load_loop fuel (attempt + 1) (slept + delay)
          else Some (Err (RetriesExhausted err), (attempt + 1)%N, slept)
      end
  end.

Definition transient (res : result D IoError) : Prop := ∃ err, res = Err err ∧ err ≠ InvalidData.

(** What a load that was number [n] decides. *)
Definition load_outcome (n : N) (out : result D PersistenceLoadError) : Prop :=
  match load (n - 1) with
  | Ok state => out = Ok state
  | Err InvalidData => out = Err (Corrupt InvalidData)
  | Err err => n = LOAD_RETRY_ATTEMPTS ∧ out = Err (RetriesExhausted err)
  end.

Lemma load_loop_spec fuel attempt slept :
  (attempt < LOAD_RETRY_ATTEMPTS)%N → N.to_nat (LOAD_RETRY_ATTEMPTS - attempt) ≤ fuel →
  slept = (LOAD_RETRY_BASE_DELAY * (2 ^ attempt - 1))%N → (∀ i, (i < attempt)%N → transient (load i)) →
  ∃ out n, load_loop fuel attempt slept = Some (out, n, (LOAD_RETRY_BASE_DELAY * (2 ^ (n - 1) - 1))%N) ∧
    (0 < n ≤ LOAD_RETRY_ATTEMPTS)%N ∧ (∀ i, (i + 1 < n)%N → transient (load i)) ∧ load_outcome n out.
Proof.
  revert attempt slept. induction fuel as [|fuel IH]; intros attempt slept Hlt Hfuel Hslept Htr; unfold LOAD_RETRY_ATTEMPTS in *; [lia|].
  cbn [load_loop]. assert (Hstop : ∀ out, load_outcome (attempt + 1) out →
    ∃ out' n, Some (out, (attempt + 1)%N, slept) = Some (out', n, (LOAD_RETRY_BASE_DELAY * (2 ^ (n - 1) - 1))%N) ∧
      (0 < n ≤ 5)%N ∧ (∀ i, (i + 1 < n)%N → transient (load i)) ∧ load_outcome n out').
  { intros out Hout. exists out, (attempt + 1)%N. rewrite N.add_sub, <- Hslept. split_and!; [done|lia|lia| |done]. intros i Hi. apply Htr. lia. }
  unfold load_outcome in Hstop. rewrite N.add_sub in Hstop. destruct (load attempt) as [state|err] eqn:Hload; [by apply Hstop|].
  assert (Hstep : err ≠ InvalidData → ∃ out n, (if (attempt + 1 <? 5)%N then delay ← backoff_delay (attempt + 1); load_loop fuel (attempt + 1) (slept + delay)
      else Some (Err (RetriesExhausted err), (attempt + 1)%N, slept)) = Some (out, n, (LOAD_RETRY_BASE_DELAY * (2 ^ (n - 1) - 1))%N) ∧
    (0 < n ≤ 5)%N ∧ (∀ i, (i + 1 < n)%N → transient (load i)) ∧ load_outcome n out).
  { intros Herr. destruct (N.ltb_spec (attempt + 1) 5) as [Hmore|Hlast]; [|apply Hstop; by destruct err; try (split; [unfold LOAD_RETRY_ATTEMPTS; lia|])].
    assert (Hpow : (2 ^ attempt ≤ 2 ^ 4)%N) by (apply N.pow_le_mono_r; lia). change (2 ^ 4)%N with 16%N in Hpow.
    assert (Hpos : (1 ≤ 2 ^ attempt)%N) by (apply (N.pow_le_mono_r 2 0); lia).
    unfold backoff_delay. rewrite (proj2 (N.eqb_neq (attempt + 1) 0)) by lia. rewrite N.add_sub.
    rewrite (proj2 (N.leb_le _ u32_max)) by (unfold u32_max; lia). cbn [mbind option_bind].
    apply IH; [unfold LOAD_RETRY_ATTEMPTS; lia|unfold LOAD_RETRY_ATTEMPTS; lia| |].
    - rewrite Hslept, (N.add_1_r attempt), N.pow_succ_r'. unfold LOAD_RETRY_BASE_DELAY. lia.
    - intros i Hi. destruct (decide (i = attempt)) as [->|]; [by exists err|]. apply Htr. lia. }
  destruct err; try (by apply Hstep). by apply Hstop.
Qed.
End load.

(** ** Reading the map back in chunks *)

Definition SNAPSHOT_CHUNK_SIZE : nat := N.to_nat 4096.

Section collect.
Context {K V S E C St P : Type} `{Countable K, Countable P} `{Lww V S E C} `{!EntryState V S E St} `{!RustOrd K, !RustOrd S} `{!EqDecision S}.
Implicit Types (l : list (K * E)) (m : gmap K E) (r : Replica K E St P).

Definition entry_le (x y : K * E) : Prop := ord_leb x.1 y.1 = true.
#[local] Instance entry_le_dec : RelDecision entry_le.
Proof. intros a b. unfold entry_le. apply _. Defined.
#[local] Instance entry_le_trans : Transitive entry_le.
Proof. intros a b c. apply ord_leb_trans. Qed.
#[local] Instance entry_le_total : Total entry_le.
Proof. intros a b. apply ord_leb_total. Qed.

(** The entries of the ordered map, in key order. *)
Definition ordered_entries m : list (K * E) := merge_sort entry_le (map_to_list m).

(** [guard.range(..)], or the range after [last]. *)
Definition range_after l (cursor : option K) : list (K * E) :=
  match cursor with None => l | Some last => filter (λ kv, ord_ltb last kv.1 = true) l end.

Fixpoint collect_loop (size fuel : nat) l (cursor : option K) (entries : list (K * E)) : option (list (K * E)) :=
  match fuel with
  | 0 => None
  | Datatypes.S fuel =>
      let chunk := take size (range_after l cursor) in
      match last chunk with
      | None => Some entries
      | Some (last_key, _) => collect_loop size fuel l (Some last_key) (entries ++ chunk)
      end
  end.

Definition collect_persisted_state r : option (list (K * E) * gset P * gmap K (gmap P N)) :=
  entries ← collect_loop SNAPSHOT_CHUNK_SIZE (Datatypes.S (size (rp_map r))) (ordered_entries (rp_map r)) None [];
  Some (entries, rp_members r, rp_tombstone_acks r).

Definition entry_lt (x y : K * E) : Prop := ord_ltb x.1 y.1 = true.

Lemma filter_none {A} (Q : A → Prop) `{∀ x, Decision (Q x)} (l : list A) : (∀ x, x ∈ l → ¬ Q x) → filter Q l = [].
Proof. induction l as [|x l IH]; intros Hl; [done|]. rewrite filter_cons_False by (apply Hl; left). apply IH. intros y Hy. apply Hl. by right. Qed.
Lemma filter_all {A} (Q : A → Prop) `{∀ x, Decision (Q x)} (l : list A) : (∀ x, x ∈ l → Q x) → filter Q l = l.
Proof. induction l as [|x l IH]; intros Hl; [done|]. rewrite filter_cons_True by (apply Hl; left). f_equal. apply IH. intros y Hy. apply Hl. by right. Qed.

Lemma range_after_last l l' k e : StronglySorted entry_lt (l ++ (k, e) :: l') → range_after (l ++ (k, e) :: l') (Some k) = l'.
Proof.
  intros Hs. cbn [range_after]. apply StronglySorted_app in Hs as (Hbefore & _ & Hs). apply StronglySorted_inv in Hs as [_ Hafter].
  rewrite filter_app, filter_cons_False by (cbn; by rewrite ord_ltb_irrefl). rewrite filter_none, filter_all; [done| |].
  - intros x Hx. rewrite Forall_forall in Hafter. by apply Hafter.
  - intros x Hx Hlt. assert (Hxk : entry_lt x (k, e)) by (apply Hbefore; [done|left]). unfold entry_lt in Hxk. cbn in Hxk.
    pose proof (ord_ltb_leb _ _ Hlt) as Hle. unfold ord_ltb in Hxk. by rewrite Hle in Hxk.
Qed.

Lemma collect_loop_spec size fuel l entries rest cursor : 0 < size → length rest < fuel → StronglySorted entry_lt l →
  l = entries ++ rest → range_after l cursor = rest → collect_loop size fuel l cursor entries = Some l.
Proof.
  intros Hsize. revert entries rest cursor. induction fuel as [|fuel IH]; intros entries rest cursor Hfuel Hs Hl Hr; [lia|].
  cbn [collect_loop]. rewrite Hr. destruct (last (take size rest)) as [[k e]|] eqn:Hlast.
  - apply last_Some in Hlast as [front Hfront].
    assert (Hrest : rest = front ++ (k, e) :: drop size rest) by (rewrite <- (take_drop size rest) at 1; by rewrite Hfront, <- (assoc_L (++))).
    rewrite Hfront. apply (IH _ (drop size rest)); [|done| |].
    + rewrite length_drop. assert (rest ≠ []) by (intros ->; by destruct front). destruct rest; cbn [length] in *; [done|lia].
    + rewrite <- !(assoc_L (++)). cbn. by rewrite <- Hrest.
    + rewrite Hrest, (assoc_L (++)) in Hl. rewrite Hl in Hs |- *. by apply range_after_last.
  - apply last_None in Hlast. destruct rest; [by rewrite Hl, app_nil_r|]. destruct size; [lia|done].
Qed.

Lemma ordered_perm m : ordered_entries m ≡ₚ map_to_list m.
Proof. apply merge_sort_Permutation. Qed.

Lemma ordered_sorted m : StronglySorted entry_lt (ordered_entries m).
Proof.
  pose proof (StronglySorted_merge_sort entry_le (map_to_list m)) as Hs. fold (ordered_entries m) in Hs.
  assert (Hnd : NoDup (ordered_entries m).*1) by (rewrite ordered_perm; apply NoDup_fst_map_to_list).
  induction Hs as [|[k e] l Hs IH Hle]; constructor; cbn in Hnd; apply NoDup_cons in Hnd as [Hk Hnd]; [auto|].
  apply Forall_forall. intros [k' e'] Hin. rewrite Forall_forall in Hle. specialize (Hle _ Hin). unfold entry_le in Hle. cbn in Hle.
  unfold entry_lt, ord_ltb. cbn. apply negb_true_iff. apply not_true_is_false. intros Hge. apply Hk.
  rewrite (ord_leb_antisym _ _ Hle Hge). apply list_elem_of_fmap. by exists (k', e').
Qed.

Lemma collect_exact r : collect_persisted_state r = Some (ordered_entries (rp_map r), rp_members r, rp_tombstone_acks r).
Proof.
  unfold collect_persisted_state. rewrite (collect_loop_spec _ _ _ [] (ordered_entries (rp_map r))); [done| | | |done|done].
  - unfold SNAPSHOT_CHUNK_SIZE. lia.
  - rewrite (Permutation_length (ordered_perm _)), length_map_to_list. lia.
  - apply ordered_sorted.
Qed.
End collect.

(** ** Construction over a backend *)

Section startup.
Context {K V S E C St P : Type} `{Countable K, Countable P} `{Lww V S E C} `{!EntryState V S E St} `{!RustOrd K, !RustOrd S} `{!EqDecision S}.
Notation Saved := (list (K * E) * gset P * gmap K (gmap P N))%type.
Implicit Types (r : Replica K E St P) (load : N → result (option Saved) IoError).

(** [with_persistence], with the number of loads and the time slept. *)
Definition with_persistence r (c : C) load : option (result (Replica K E St P * C) PersistenceLoadError * N * N) :=
  '(loaded, loads, slept) ← load_loop load (N.to_nat LOAD_RETRY_ATTEMPTS) 0 0;
  Some (match loaded with Ok state => Ok (install_loaded r c state) | Err err => Err err end, loads, slept).

(** C40. Starting over a backend always ends: after at most five loads and less than two seconds
    of sleep, every load before the last having failed transiently; the answer is the last load's
    (its state installed, corruption reported at once and never retried, a transient failure only
    when the attempts are exhausted), and a failed start installs nothing. *)
Theorem start_terminates r c load : ∃ out n slept,
  with_persistence r c load = Some (out, n, slept) ∧ (1 ≤ n ≤ LOAD_RETRY_ATTEMPTS)%N ∧
  slept = (LOAD_RETRY_BASE_DELAY * (2 ^ (n - 1) - 1))%N ∧ (slept < 2000)%N ∧
  (∀ i, (i + 1 < n)%N → transient (load i)) ∧
  match load (n - 1)%N with
  | Ok state => out = Ok (install_loaded r c state)
  | Err InvalidData => out = Err (Corrupt InvalidData)
  | Err err => n = LOAD_RETRY_ATTEMPTS ∧ out = Err (RetriesExhausted err)
  end.
Proof.
  unfold with_persistence. destruct (load_loop_spec load (N.to_nat LOAD_RETRY_ATTEMPTS) 0 0) as (out & n & -> & Hn & Htr & Hout);
    [done..|intros i Hi; lia|]. cbn [mbind option_bind]. eexists _, n, _. split_and!; [done|lia|apply Hn|done| |done|].
  - assert (Hp : (2 ^ (n - 1) ≤ 2 ^ 4)%N) by (apply N.pow_le_mono_r; unfold LOAD_RETRY_ATTEMPTS in Hn; lia).
    change (2 ^ 4)%N with 16%N in Hp. unfold LOAD_RETRY_BASE_DELAY. lia.
  - unfold load_outcome in Hout. destruct (load (n - 1)%N) as [state|[]]; naive_solver.
Qed.

(** C25. A restart gives the saved state back: reading the map in chunks ends and takes every
    entry once, in key order, however many chunks it needs; and a fresh replica that starts over a
    backend returning that state, after up to four transient failures, has the map, membership and
    acknowledgements of the replica that was saved, its projection and tombstone index those of the
    map, and no change left to persist. *)
Theorem restart_restores_state r c load saved n :
  collect_persisted_state r = Some saved → (n < LOAD_RETRY_ATTEMPTS)%N →
  (∀ i, (i < n)%N → transient (load i)) → load n = Ok (Some saved) →
  saved.1.1 = ordered_entries (rp_map r) ∧ NoDup saved.1.1.*1 ∧
  ∃ r' c' slept, with_persistence (replica_new : Replica K E St P) c load = Some (Ok (r', c'), (n + 1)%N, slept) ∧
    replica_runtime r' = replica_runtime r ∧ rp_projection r' = project <$> rp_map r ∧
    (∀ k, k ∈ rp_live_tombstones r' ↔ ∃ e, rp_map r !! k = Some e ∧ is_tombstone e = true) ∧ rp_changes r' = 0%N.
Proof.
  rewrite collect_exact. intros [= <-] Hn Htr Hload. cbn [fst].
  assert (Hnd : NoDup (ordered_entries (rp_map r)).*1) by (rewrite ordered_perm; apply NoDup_fst_map_to_list).
  split_and!; [done..|]. unfold with_persistence.
  destruct (load_loop_spec load (N.to_nat LOAD_RETRY_ATTEMPTS) 0 0) as (out & m & -> & Hm & Htr' & Hout); [done..|intros i Hi; lia|].
  assert (m = n + 1)%N as ->.
  { destruct (N.lt_trichotomy m (n + 1)) as [Hlt|[->|Hgt]]; [|done|].
    - exfalso. destruct (Htr (m - 1)%N) as (err & He & Hne); [lia|]. unfold load_outcome in Hout. rewrite He in Hout. destruct err; try done; lia.
    - destruct (Htr' n) as (err & He & _); [lia|]. congruence. }
  unfold load_outcome in Hout. rewrite N.add_sub, Hload in Hout. subst out. cbn [mbind option_bind].
  destruct (install_loaded _ _ _) as [r' c'] eqn:Hi. eexists r', c', _. split; [done|]. revert Hi. cbn [install_loaded].
  set (r1 := set_members _ _ _ _). intros [= <- _].
  destruct (insert_fold_map (ordered_entries (rp_map r)) r1 Hnd) as (Em & Emem & Eack).
  destruct (insert_fold_records (ordered_entries (rp_map r)) r1) as (ms & _ & _ & Hidx & _).
  assert (Hmap : list_to_map (ordered_entries (rp_map r)) = rp_map r)
    by (rewrite (list_to_map_proper _ (map_to_list (rp_map r)) Hnd (ordered_perm _)); apply list_to_map_to_list).
  rewrite Hmap in Em. change (rp_map r1) with (∅ : gmap K E) in Em. rewrite (right_id_L ∅ (∪)) in Em.
  assert (Hix : indexed (fold_left (λ r '(key, v), (map_insert r key v).1) (ordered_entries (rp_map r)) r1)).
  { apply Hidx. eapply indexed_same; [apply indexed_new|done..]. }
  destruct Hix as [Hp Ht]. rewrite Em in Hp, Ht. split_and!; [|exact Hp|exact Ht|].
  - unfold replica_runtime. cbn [just_insert_bulk record_changes retire_change_count set_generations set_changes set_members rp_map rp_members rp_tombstone_acks].
    by rewrite Em, Emem, Eack.
  - cbn [retire_change_count set_changes rp_changes]. unfold saturating_sub. by rewrite N.sub_diag.
Qed.
End startup.

(** ** A concrete restart *)

#[local] Existing Instances small_lww small_state.

Definition saved_replica : Replica N N bool N := (just_insert (just_insert replica_new 1%N 4%N).1 2%N 7%N).1.
Definition flaky (saved : list (N * N) * gset N * gmap N (gmap N N)) (i : N) : result (option (list (N * N) * gset N * gmap N (gmap N N))) IoError :=
  if (i <? 2)%N then Err Backend else Ok (Some saved).

(** Two transient failures, then the saved state. *)
Lemma restart_restores_state_witness : ∃ r' c' slept,
  with_persistence (V := N) (replica_new : Replica N N bool N) 0%N (flaky ([(1, 4); (2, 7)]%N, ∅, ∅)) = Some (Ok (r', c'), 3%N, slept) ∧
  rp_map r' = {[1%N := 4%N; 2%N := 7%N]}.
Proof.
  destruct (restart_restores_state (V := N) saved_replica 0%N (flaky ([(1, 4); (2, 7)]%N, ∅, ∅)) ([(1, 4); (2, 7)]%N, ∅, ∅) 2)
    as (_ & _ & r' & c' & slept & Hw & Hr & _).
  - vm_compute. reflexivity.
  - done.
  - intros i Hi. unfold flaky. rewrite (proj2 (N.ltb_lt _ _) Hi). by exists Backend.
  - done.
  - exists r', c', slept. split; [exact Hw|]. apply (f_equal st_entries) in Hr. cbn [replica_runtime st_entries] in Hr. by rewrite Hr.
Defined.
