(* ===== verification/Reads.v ===== *)
(** * Reading a map ([src/replicated_map/read.rs])

    Reads of one snapshot of the ordered map, whose entries may be tombstones. The value of an entry
    is [lww_register]'s; [Live] is what it documents of it, for dated entries and for bare states. *)
From stdpp Require Import gmap list sorting.
From Stdlib Require Import NArith.
From S2P Require Import Prelude Dumps Startup.

Class Live (X V : Type) := {
  as_value : X → option V;
  dead : X → bool;
  dead_spec x : dead x = true ↔ as_value x = None;
}.

Section reads.
Context {K X V : Type} `{Countable K} `{!RustOrd K} `{!Live X V}.
Implicit Types (m : gmap K X).

Definition get_cloned m (k : K) : option V := m !! k ≫= as_value.

Definition contains_key m (k : K) : bool := match m !! k with Some x => negb (dead x) | None => false end.

Definition live_len m : N := len (filter (λ kx, dead kx.2 = false) (ordered_entries m)).

Definition is_empty m : bool := negb (existsb (λ kx, negb (dead kx.2)) (ordered_entries m)).

(** [None] is the failed [expect]. *)
Definition first_key_value m : option (option (K * V)) :=
  match find (λ kx, negb (dead kx.2)) (ordered_entries m) with
  | Some (k, x) => v ← as_value x; Some (Some (k, v))
  | None => Some None
  end.

(** [None] is [select] out of range. *)
Fixpoint last_loop m (index : nat) : option (option (K * V)) :=
  match index with
  | 0 => Some None
  | S index =>
      key ← (ordered_entries m).*1 !! index;
      match get_cloned m key with Some v => Some (Some (key, v)) | None => last_loop m index end
  end.
Definition last_key_value m : option (option (K * V)) := last_loop m (size m).

Definition for_each {A} (f : A → K → V → A) m (a : A) : A :=
  fold_left (λ a kx, match as_value kx.2 with Some v => f a kx.1 v | None => a end) (ordered_entries m) a.

Definition entries_between m (range : EnumerationRange K) : list (K * X) := filter (λ kx, in_range kx.1 range = true) (ordered_entries m).
Definition for_each_in_range {A} (f : A → K → V → A) m (range : EnumerationRange K) (a : A) : A :=
  fold_left (λ a kx, match as_value kx.2 with Some v => f a kx.1 v | None => a end) (entries_between m range) a.

Definition live_entry (kx : K * X) : option (K * V) := (λ v, (kx.1, v)) <$> as_value kx.2.
Definition to_vec m : list (K * V) := omap live_entry (ordered_entries m).
Definition range_to_vec m (range : EnumerationRange K) : list (K * V) := omap live_entry (entries_between m range).
Definition keys m : list K := omap (λ kx, (λ _, kx.1) <$> as_value kx.2) (ordered_entries m).
Definition values m : list V := omap (λ kx, as_value kx.2) (ordered_entries m).

(** ** They agree *)

Lemma ordered_elem m k x : (k, x) ∈ ordered_entries m ↔ m !! k = Some x.
Proof. rewrite ordered_perm. apply elem_of_map_to_list. Qed.

Lemma live_of kx : negb (dead kx.2) = true ↔ is_Some (live_entry kx).
Proof.
  pose proof (dead_spec kx.2) as Hs. unfold live_entry. destruct (as_value kx.2) as [v|], (dead kx.2); cbn; naive_solver.
Qed.

Lemma fold_live {A} (f : A → K → V → A) l a :
  fold_left (λ a kx, match as_value kx.2 with Some v => f a kx.1 v | None => a end) l a = fold_left (λ a kv, f a kv.1 kv.2) (omap live_entry l) a.
Proof.
  revert a. induction l as [|kx l IH]; intros a; cbn; [done|]. unfold live_entry at 1. destruct (as_value kx.2); cbn; by rewrite IH.
Qed.

Lemma filter_omap_len l : len (filter (λ kx : K * X, dead kx.2 = false) l) = len (omap live_entry l).
Proof.
  induction l as [|kx l IH]; [done|]. rewrite filter_cons. cbn [omap list_omap].
  pose proof (live_of kx) as Hl. destruct (decide _) as [Hd|Hd].
  - destruct (proj1 Hl) as [y ->]; [by rewrite Hd|]. cbn [length]. lia.
  - destruct (live_entry kx); [|done]. exfalso. apply Hd. by apply negb_true_iff, Hl.
Qed.

Lemma find_live l : find (λ kx, negb (dead kx.2)) l ≫= live_entry = head (omap live_entry l) ∧
  (find (λ kx, negb (dead kx.2)) l = None → omap live_entry l = []).
Proof.
  induction l as [|kx l IH]; [done|]. cbn [find omap list_omap]. pose proof (live_of kx) as Hl. destruct (negb (dead kx.2)).
  - destruct (proj1 Hl) as [y Hy]; [done|]. cbn. rewrite Hy. done.
  - destruct (live_entry kx) as [y|]; [|exact IH]. exfalso. assert (false = true) by (apply Hl; eauto). done.
Qed.

Lemma last_loop_spec m index : index ≤ size m → last_loop m index = Some (last (omap live_entry (take index (ordered_entries m)))).
Proof.
  induction index as [|index IH]; intros Hle; [done|]. cbn [last_loop].
  destruct (lookup_lt_is_Some_2 (ordered_entries m) index) as [[k x] Hkx].
  { rewrite (Permutation_length (ordered_perm m)), length_map_to_list. lia. }
  rewrite list_lookup_fmap, Hkx. cbn [fmap option_fmap option_map mbind option_bind fst].
  rewrite (take_S_r _ _ _ Hkx), omap_app. unfold get_cloned.
  rewrite (proj1 (ordered_elem m k x)) by (by eapply list_elem_of_lookup_2). cbn. unfold live_entry at 2. cbn.
  destruct (as_value x) as [v|]; cbn; [by rewrite last_snoc|]. rewrite app_nil_r. apply IH. lia.
Qed.

Lemma omap_filter (Q : K → Prop) `{∀ k, Decision (Q k)} (l : list (K * X)) :
  omap live_entry (filter (λ kx, Q kx.1) l) = filter (λ kv, Q kv.1) (omap live_entry l).
Proof.
  induction l as [|[k x] l IH]; [done|].
  assert (Hom : ∀ l', omap live_entry ((k, x) :: l') = option_list (live_entry (k, x)) ++ omap live_entry l')
    by (intros l'; cbn [omap list_omap]; by destruct (live_entry (k, x))).
  rewrite Hom, filter_app, <- IH, filter_cons. cbn [fst].
  assert (Hlive : ∀ y, live_entry (k, x) = Some y → y.1 = k) by (unfold live_entry; intros y; cbn; by destruct (as_value x); intros [= <-]).
  destruct (decide (Q k)) as [Hk|Hk].
  - rewrite Hom. f_equal. destruct (live_entry (k, x)) as [y|]; [|done]. cbn. rewrite decide_True; [done|]. by rewrite (Hlive y).
  - destruct (live_entry (k, x)) as [y|]; [|done]. cbn. rewrite decide_False; [done|]. by rewrite (Hlive y).
Qed.

Lemma to_vec_sorted m : StronglySorted (λ x y : K * V, ord_ltb x.1 y.1 = true) (to_vec m).
Proof.
  unfold to_vec. induction (ordered_sorted m) as [|[k x] l Hs IH Hall]; [constructor|]. cbn [omap list_omap]. unfold live_entry at 1. cbn.
  destruct (as_value x) as [v|]; cbn; [|done]. constructor; [done|]. apply Forall_forall. intros [k' v'] Hin.
  apply list_elem_of_omap in Hin as ([k1 x1] & Hin & Hl). unfold live_entry in Hl. cbn in Hl. destruct (as_value x1); [|done].
  injection Hl as <- _. rewrite Forall_forall in Hall. exact (Hall _ Hin).
Qed.

Lemma to_vec_elem m k v : (k, v) ∈ to_vec m ↔ get_cloned m k = Some v.
Proof.
  unfold to_vec, get_cloned. rewrite list_elem_of_omap. split.
  - intros ([k' e] & Hin%ordered_elem & Hl). unfold live_entry in Hl. cbn in Hl. destruct (as_value e) eqn:Hv; [|done].
    injection Hl as -> ->. by rewrite Hin.
  - intros (e & He & Hv)%bind_Some. exists (k, e). split; [by apply ordered_elem|]. unfold live_entry. cbn. by rewrite Hv.
Qed.

Lemma contains_elem m k : contains_key m k = true ↔ k ∈ (to_vec m).*1.
Proof.
  rewrite list_elem_of_fmap. unfold contains_key. split.
  - destruct (m !! k) as [e|] eqn:He; [|done]. intros [[k' v] Hy]%(live_of (k, e)). unfold live_entry in Hy. cbn in Hy.
    destruct (as_value e) as [v'|] eqn:Hv; [|done]. exists (k, v'). split; [done|]. apply to_vec_elem. unfold get_cloned. by rewrite He.
  - intros ([k' v] & Hk & Hin%to_vec_elem). cbn in Hk. subst k'. apply bind_Some in Hin as (e & -> & Hv).
    apply (live_of (k, e)). unfold live_entry. cbn. rewrite Hv. by eexists.
Qed.

Lemma is_empty_spec m : is_empty m = true ↔ to_vec m = [].
Proof.
  unfold is_empty, to_vec. induction (ordered_entries m) as [|kx l IH]; [done|]. cbn [existsb omap list_omap]. pose proof (live_of kx) as Hl.
  destruct (negb (dead kx.2)); cbn [orb].
  - destruct (proj1 Hl eq_refl) as [y ->]. cbn. naive_solver.
  - destruct (live_entry kx) as [y|]; [|exact IH]. exfalso. assert (false = true) by (apply Hl; by eexists). done.
Qed.

Lemma first_spec m : first_key_value m = Some (head (to_vec m)).
Proof.
  unfold first_key_value, to_vec. destruct (find_live (ordered_entries m)) as [Hf Hn].
  destruct (find _ _) as [[k x]|] eqn:Hx; [|by rewrite Hn]. apply find_some in Hx as [_ [y Hy]%(live_of (k, x))].
  rewrite <- Hf. cbn [mbind option_bind]. rewrite Hy. unfold live_entry in Hy. cbn in *. destruct (as_value x); [|done]. cbn in *. congruence.
Qed.

Lemma keys_spec m : keys m = (to_vec m).*1 ∧ values m = (to_vec m).*2.
Proof.
  unfold keys, values, to_vec. split; (induction (ordered_entries m) as [|kx l IH]; [done|]); cbn [omap list_omap]; rewrite IH;
    replace (live_entry kx) with ((λ v, (kx.1, v)) <$> as_value kx.2) by done; by destruct (as_value kx.2).
Qed.

(** All reads describe the same list of live entries: it is in strict key order and holds
    exactly the keys that [get] answers for; length, emptiness, membership, first, last, keys,
    values, scans and range reads are those of that list, and none of them panics. *)
Theorem reads_agree m : let v := to_vec m in
  StronglySorted (λ x y : K * V, ord_ltb x.1 y.1 = true) v ∧
  (∀ k x, (k, x) ∈ v ↔ get_cloned m k = Some x) ∧
  (∀ k, contains_key m k = true ↔ k ∈ v.*1) ∧
  live_len m = len v ∧ (is_empty m = true ↔ v = []) ∧
  first_key_value m = Some (head v) ∧ last_key_value m = Some (last v) ∧
  keys m = v.*1 ∧ values m = v.*2 ∧
  (∀ range, range_to_vec m range = filter (λ kv, in_range kv.1 range = true) v) ∧
  (∀ A (f : A → K → V → A) a, for_each f m a = fold_left (λ a kv, f a kv.1 kv.2) v a) ∧
  (∀ A (f : A → K → V → A) range a, for_each_in_range f m range a = fold_left (λ a kv, f a kv.1 kv.2) (range_to_vec m range) a).
Proof.
  split_and!; [apply to_vec_sorted|apply to_vec_elem|apply contains_elem|apply filter_omap_len|apply is_empty_spec|apply first_spec| |apply keys_spec..
    |intros range; exact (omap_filter (λ k, in_range k range = true) (ordered_entries m))|intros A f a; apply fold_live|intros A f range a; apply fold_live].
  unfold last_key_value. rewrite last_loop_spec by done. rewrite take_ge; [done|]. by rewrite (Permutation_length (ordered_perm m)), length_map_to_list.
Qed.
End reads.
