(* ===== verification/ReadReplica.v ===== *)
(** * Read replicas ([src/read_replica_map/])

    A value-only mirror of the dated store: the same admission, reassembly and recovery as the
    dated engine, updates integrated by overwriting, rounds against the known peers and one random
    address. [rbsr], [bincode] and the random address are arguments; a datagram's handling reads the
    clock once. *)
From stdpp Require Import gmap list.
From Stdlib Require Import NArith.
From Stdlib.Strings Require Import Byte.
From S2P Require Import Prelude Bytes Replay Auth Framing Reassembly Missing RecoveryBook FramedSend Ingress.
From S2P Require Import Messages Dumps Engine Writes Round Startup Reads.

Section read_replica.
Context {K V E St P Ag R Net : Type} `{Countable K, Countable P} `{!RustOrd K, !RustOrd P} `{Mac, Aead} `{!Live St V}.
Notation Msg := (Message Ag K E St).
Notation Addr := (P * N)%type.
(** external code *)
Context (blake3_hash : list byte → id32) (wall : N → N) (nonce : N → list byte).
Context (encode : Msg → list byte) (deserialize : list byte → result (Msg * list byte) DeserializeError).
Context (initial_ranges : gmap K St → list Ag).
Context (value_round : gmap K St → list Ag → R → list Ag * list (EnumerationRange K) * R).
Context (contains : Net → P → bool) (gen_ip : R → Net → P * R) (loopback : Net).
(** configuration *)
Context (authenticator : Authenticator) (framing : FramingConfig) (max_peers port : N).

Record ReadReplicaMap := {
  rr_tree : gmap K St;
  rr_net : Net;
  rr_rng : R;
  rr_peers : gmap P N;
  rr_replay : ReplayFilter.Filter P;
  rr_reassembler : Reassembler P;
  rr_send : SendState (P := P);
  rr_round : N;
  rr_last_round_at : option N;
}.
Implicit Types (rr : ReadReplicaMap).

Definition rr_set_tree rr (tree : gmap K St) (rng : R) : ReadReplicaMap :=
  {| rr_tree := tree; rr_net := rr_net rr; rr_rng := rng; rr_peers := rr_peers rr; rr_replay := rr_replay rr;
     rr_reassembler := rr_reassembler rr; rr_send := rr_send rr; rr_round := rr_round rr; rr_last_round_at := rr_last_round_at rr |}.
Definition rr_set_inbound rr (f : ReplayFilter.Filter P) (ra : Reassembler P) : ReadReplicaMap :=
  {| rr_tree := rr_tree rr; rr_net := rr_net rr; rr_rng := rr_rng rr; rr_peers := rr_peers rr; rr_replay := f;
     rr_reassembler := ra; rr_send := rr_send rr; rr_round := rr_round rr; rr_last_round_at := rr_last_round_at rr |}.
Definition rr_set_peers rr (peers : gmap P N) : ReadReplicaMap :=
  {| rr_tree := rr_tree rr; rr_net := rr_net rr; rr_rng := rr_rng rr; rr_peers := peers; rr_replay := rr_replay rr;
     rr_reassembler := rr_reassembler rr; rr_send := rr_send rr; rr_round := rr_round rr; rr_last_round_at := rr_last_round_at rr |}.
Definition rr_run_send {A} rr (m : SendState (P := P) → SendState (P := P) * A) : ReadReplicaMap * A :=
  let '(s, a) := m (rr_send rr) in
  ({| rr_tree := rr_tree rr; rr_net := rr_net rr; rr_rng := rr_rng rr; rr_peers := rr_peers rr; rr_replay := rr_replay rr;
      rr_reassembler := rr_reassembler rr; rr_send := s; rr_round := rr_round rr; rr_last_round_at := rr_last_round_at rr |}, a).

(** ** Construction and membership *)

(** [build], once the configuration is validated. *)
Definition rr_build (nets : list Net) (listen_addr : P) (rng : R) (freshness_window : N) (auth_enabled : bool) (max_senders : N)
    (s : SendState (P := P)) : ReadReplicaMap :=
  {| rr_tree := ∅;
     rr_net := match net_of contains nets listen_addr with
               | Some net => net
               | None => match head nets with Some net => net | None => loopback end
               end;
     rr_rng := rng; rr_peers := ∅;
     rr_replay := ReplayFilter.with_max_senders (ReplayFilter.filter_new freshness_window auth_enabled) max_senders;
     rr_reassembler := for_identity (reassembly_limits framing);
     rr_send := s; rr_round := 0; rr_last_round_at := None |}.

Definition rr_seed_peer rr (peer : P) (now : N) : ReadReplicaMap := rr_set_peers rr (<[peer := now]> (rr_peers rr)).
Definition rr_peers_known rr (now : N) : ReadReplicaMap * list P :=
  let '(peers, known) := get_peers (rr_peers rr) now in (rr_set_peers rr peers, known).

(** ** Updates *)

Definition integrate (tree : gmap K St) (updates : list (K * St)) : gmap K St :=
  match updates with [] => tree | _ => fold_left (λ tree '(k, state), <[k := state]> tree) updates tree end.

(** The loop over decoded messages: the send state, the ranges and the updates it collects. *)
Definition rr_push_message (peer : Addr) (now : N) (st : SendState (P := P) * list Ag * list (K * St)) (message : Msg)
    : SendState (P := P) * list Ag * list (K * St) :=
  let '(s, ranges, updates) := st in
  match message with
  | StateFingerprint segment => (s, ranges ++ [segment], updates)
  | StateUpdate update => (s, ranges, updates ++ [update])
  | EntryFingerprint _ | EntryUpdate _ | TombstoneAck _ | ConvergenceAck => (s, ranges, updates)
  | Reserved6 payload =>
      if is_selective_recovery_capability payload
      then ((with_book (λ b, (record_capability b peer.1 now framing max_peers, tt)) s).1, ranges, updates)
      else (s, ranges, updates)
  end.

Definition rr_handle_messages rr (payload : list byte) (peer : Addr) (now : N) : ReadReplicaMap :=
  match decode_stream deserialize payload MAX_MESSAGES_PER_DATAGRAM with
  | Err _ => rr
  | Ok messages =>
      let '(s, ranges, updates) := fold_left (rr_push_message peer now) messages (rr_send rr, [], []) in
      let rr := (rr_run_send rr (λ _, (s, tt))).1 in
      let rr := rr_set_tree rr (integrate (rr_tree rr) updates) (rr_rng rr) in
      match ranges with
      | [] => rr
      | _ =>
          let '(out_comparison, _, rng) := value_round (rr_tree rr) ranges (rr_rng rr) in
          let rr := rr_set_tree rr (rr_tree rr) rng in
          match out_comparison with
          | [] => rr
          | _ => (rr_run_send rr (send_control_batch_to blake3_hash authenticator framing wall nonce peer now (encoded_capability encode)
                                    (encode <$> (StateFingerprint <$> out_comparison)))).1
          end
      end
  end.

(** ** The receive loop *)

(** What an accepted frame makes the loop send, and the payload it goes on with. *)
Definition frame_responses (ev : FrameEvent) (peer : Addr) (now : N) : SendState (P := P) → SendState (P := P) * option (list byte) := λ s,
  match ev with
  | Logical payload completed_transfer =>
      let s := match completed_transfer with
               | Some transfer_id =>
                   let '(s, supported) := with_book (λ b, supports b peer.1 now framing) s in
                   if supported then (send_recovery_control_to authenticator wall nonce peer (write_completion_ack transfer_id) s).1 else s
               | None => s
               end in
      (s, Some payload)
  | RequestMissing transfer_id ranges =>
      let '(s, supported) := with_book (λ b, supports b peer.1 now framing) s in
      (if supported then
         match write_missing_report transfer_id ranges with
         | Ok frame => (send_recovery_control_to authenticator wall nonce peer frame s).1
         | Err _ => s
         end
       else s, None)
  | EvMissing transfer_id ranges => ((retransmit_missing_to authenticator framing wall nonce peer transfer_id ranges now s).1, None)
  | EvCompleteAck transfer_id => ((complete_recovery peer transfer_id s).1, None)
  | EvPending => (s, None)
  end.

(** [None] is a panic of the reassembler. *)
Definition rr_recv_datagram rr (datagram : list byte) (peer : Addr) (now_ms now : N) : option ReadReplicaMap :=
  if (BUFFER_SIZE <? len datagram)%N then Some rr
  else
    let '(f, admitted) :=
      admit_inbound authenticator (rr_replay rr) max_peers peer.1 datagram
        (λ _, (bool_decide (is_Some (rr_peers rr !! peer.1)), N.of_nat (size (rr_peers rr)))) now_ms in
    match admitted with
    | Err _ => Some (rr_set_inbound rr f (rr_reassembler rr))
    | Ok payload =>
        '(ra, ev) ← accept_frame blake3_hash (rr_reassembler rr) peer.1 payload (max_missing_ranges authenticator framing) now;
        let '(rr, logical) := rr_run_send (rr_set_inbound rr f ra) (frame_responses ev peer now) in
        Some (match logical with
              | Some payload => let rr := rr_handle_messages rr payload peer now in rr_set_peers rr (<[peer.1 := now]> (rr_peers rr))
              | None => rr
              end)
    end.

(** ** Rounds and timers *)

Definition rr_round_payload (tree : gmap K St) : list byte :=
  concat ((λ segment, encode (StateFingerprint segment)) <$> initial_ranges tree) ++ append_capability framing (encoded_capability encode).

Definition rr_start_reconciliation rr (now : N) : ReadReplicaMap :=
  let payload := rr_round_payload (rr_tree rr) in
  let '(peers, known) := get_peers (rr_peers rr) now in
  let '(addr, rng) := gen_ip (rr_rng rr) (rr_net rr) in
  let rr := {| rr_tree := rr_tree rr; rr_net := rr_net rr; rr_rng := rng; rr_peers := peers; rr_replay := rr_replay rr;
               rr_reassembler := rr_reassembler rr; rr_send := rr_send rr;
               rr_round := ((rr_round rr + 1) mod (u64_max + 1))%N; rr_last_round_at := Some now |} in
  fold_left (λ rr peer, (rr_run_send rr (send_to_retry blake3_hash wall nonce authenticator framing (peer, port) payload now)).1)
    (known ++ [addr]) rr.

Definition rr_recv_idle rr (now : N) : ReadReplicaMap :=
  let rr := rr_set_inbound rr (rr_replay rr) (expire_reassembly (rr_reassembler rr) now) in
  let rr := (rr_run_send rr (expire_recovery_state framing now)).1 in
  rr_start_reconciliation rr now.

Definition rr_recovery_tick rr (now : N) : ReadReplicaMap :=
  let '(rr, ra) := rr_run_send rr (retry_idle_incomplete authenticator framing wall nonce (rr_reassembler rr) port now) in
  rr_set_inbound rr (rr_replay rr) ra.

(** ** Reads *)

Definition rr_get_cloned rr (k : K) : option V := get_cloned (rr_tree rr) k.
Definition rr_contains_key rr (k : K) : bool := contains_key (V := V) (rr_tree rr) k.
Definition rr_len rr : N := live_len (V := V) (rr_tree rr).
Definition rr_is_empty rr : bool := is_empty (V := V) (rr_tree rr).
Definition rr_first_key_value rr : option (option (K * V)) := first_key_value (rr_tree rr).
Definition rr_last_key_value rr : option (option (K * V)) := last_key_value (rr_tree rr).
Definition rr_to_vec rr : list (K * V) := to_vec (rr_tree rr).
Definition rr_range_to_vec rr (range : EnumerationRange K) : list (K * V) := range_to_vec (rr_tree rr) range.
Definition rr_keys rr : list K := keys (V := V) (rr_tree rr).
Definition rr_values rr : list V := values (rr_tree rr).
End read_replica.
