(* ===== verification/ReadReplicaProps.v ===== *)
(** * What read replicas guarantee

    A running read replica never panics or breaks a limit, its tree is what it received and nothing
    else, it mirrors a quiet dated peer, and it never touches a dated peer's state. *)
From stdpp Require Import gmap list relations.
From Stdlib Require Import NArith.
From Stdlib.Strings Require Import Byte.
From S2P Require Import Prelude Bytes Replay Auth Framing Reassembly ReassemblyInv Missing ReassemblyProps.
From S2P Require Import RecoveryBook FramedSend FramedSendProps Ingress SignedCausal Messages Replica Samples ReplicaInv ReplicaProps.
From S2P Require Import Dumps Engine EngineProps Writes Round RunProps Startup Reads ReadReplica.

(** ** Overwriting *)

Section integrate.
Context {K St : Type} `{Countable K}.
Implicit Types (tree p : gmap K St) (l : list (K * St)).

Lemma integrate_cons tree u l : integrate tree (u :: l) = integrate (<[u.1 := u.2]> tree) l.
Proof. destruct u as [k s]. cbn. by destruct l. Qed.

Lemma integrate_app tree l l' : integrate tree (l ++ l') = integrate (integrate tree l) l'.
Proof.
  revert tree. induction l as [|u l IH]; intros tree; [done|]. cbn [app]. by rewrite !integrate_cons, IH.
Qed.

(** Every key holds its last update, or what it held. *)
Lemma integrate_lookup tree l k :
  (integrate tree l !! k = tree !! k ∧ k ∉ l.*1) ∨ ∃ s, (k, s) ∈ l ∧ integrate tree l !! k = Some s.
Proof.
  revert tree. induction l as [|[k' s'] l IH]; intros tree; [left; split; [done|apply not_elem_of_nil]|].
  rewrite integrate_cons. cbn [fst snd fmap list_fmap].
  destruct (IH (<[k' := s']> tree)) as [[-> Hk]|(s & Hin & ->)]; [|right; exists s; split; [by right|done]].
  destruct (decide (k' = k)) as [->|Hne].
  - right. exists s'. rewrite lookup_insert_eq. split; [left|done].
  - left. rewrite lookup_insert_ne by done. split; [done|]. rewrite elem_of_cons. naive_solver.
Qed.

Lemma integrate_mirrors tree p l : (∀ k s, (k, s) ∈ l → p !! k = Some s) →
  (∀ k, tree !! k = p !! k ∨ ∃ s, (k, s) ∈ l) → integrate tree l = p.
Proof.
  intros Hp Hall. apply map_eq. intros k. destruct (integrate_lookup tree l k) as [[-> Hk]|(s & Hin & ->)]; [|by rewrite (Hp k s)].
  destruct (Hall k) as [|[s Hin]]; [done|]. exfalso. apply Hk, list_elem_of_fmap. by exists (k, s).
Qed.
End integrate.

(** ** The running read replica *)

Section read_run.
Context {K V E St P Ag R Net : Type} `{Countable K, Countable P} `{!RustOrd K, !RustOrd P} `{Mac, Aead}.
Notation Msg := (Message Ag K E St).
Notation Addr := (P * N)%type.
Context (blake3_hash : list byte → id32) (wall : N → N) (nonce : N → list byte).
Context (encode : Msg → list byte) (deserialize : list byte → result (Msg * list byte) DeserializeError).
Context (initial_ranges : gmap K St → list Ag) (value_round : gmap K St → list Ag → R → list Ag * list (EnumerationRange K) * R).
Context (gen_ip : R → Net → P * R) (authenticator : Authenticator) (framing : FramingConfig) (max_peers port : N).
Notation RR := (ReadReplicaMap (K := K) (St := St) (P := P) (R := R) (Net := Net)).
Notation rr_handle_messages := (rr_handle_messages blake3_hash wall nonce encode deserialize value_round authenticator framing max_peers).
Notation rr_recv_datagram := (rr_recv_datagram blake3_hash wall nonce encode deserialize value_round authenticator framing max_peers).
Notation rr_recv_idle := (rr_recv_idle blake3_hash wall nonce encode initial_ranges gen_ip authenticator framing port).
Notation rr_recovery_tick := (rr_recovery_tick wall nonce authenticator framing port).
Implicit Types (rr : RR).

Definition state_update (message : Msg) : option (K * St) := match message with StateUpdate u => Some u | _ => None end.

(** The updates a complete payload carries. *)
Definition payload_updates (payload : list byte) : list (K * St) :=
  match decode_stream deserialize payload MAX_MESSAGES_PER_DATAGRAM with Ok messages => omap state_update messages | Err _ => [] end.

(** The updates a datagram delivers: those of the payload it is or completes, if it is admitted. *)
Definition datagram_updates rr (datagram : list byte) (peer : Addr) (now_ms now : N) : list (K * St) :=
  match (admit_inbound authenticator (rr_replay rr) max_peers peer.1 datagram
          (λ _, (bool_decide (is_Some (rr_peers rr !! peer.1)), N.of_nat (size (rr_peers rr)))) now_ms).2 with
  | Ok payload =>
      match accept_frame blake3_hash (rr_reassembler rr) peer.1 payload (max_missing_ranges authenticator framing) now with
      | Some (_, Logical message _) => if (BUFFER_SIZE <? len datagram)%N then [] else payload_updates message
      | _ => []
      end
  | Err _ => []
  end.

(** [read_run rr l rr']: a run that receives the updates [l], in this order. *)
Inductive read_run rr : list (K * St) → RR → Prop :=
| read_start : read_run rr [] rr
| read_datagram l rr1 datagram peer now_ms now rr2 : read_run rr l rr1 →
    rr_recv_datagram rr1 datagram peer now_ms now = Some rr2 → read_run rr (l ++ datagram_updates rr1 datagram peer now_ms now) rr2
| read_idle l rr1 now : read_run rr l rr1 → read_run rr l (rr_recv_idle rr1 now)
| read_recovery l rr1 now : read_run rr l rr1 → read_run rr l (rr_recovery_tick rr1 now)
| read_seed l rr1 peer now : read_run rr l rr1 → read_run rr l (rr_seed_peer rr1 peer now).

(** *** The tree *)

Lemma run_send_tree {A} rr (m : SendState (P := P) → SendState (P := P) * A) : rr_tree (rr_run_send rr m).1 = rr_tree rr.
Proof. unfold rr_run_send. by destruct (m (rr_send rr)). Qed.

Lemma push_collects (peer : Addr) now ms st : let '(_, _, updates) := fold_left (rr_push_message framing max_peers peer now) ms st in
  updates = st.2 ++ omap state_update ms.
Proof.
  revert st. induction ms as [|m ms IH]; intros [[s ranges] updates]; cbn [fold_left omap list_omap]; [by rewrite app_nil_r|].
  specialize (IH (rr_push_message framing max_peers peer now (s, ranges, updates) m)).
  destruct (fold_left _ ms _) as [[s' ranges'] updates']. rewrite IH. destruct m; cbn; rewrite <- ?(assoc_L (++)); try done.
  by destruct (is_selective_recovery_capability _).
Qed.

Lemma handle_tree rr payload peer now : rr_tree (rr_handle_messages rr payload peer now) = integrate (rr_tree rr) (payload_updates payload).
Proof.
  unfold ReadReplica.rr_handle_messages, payload_updates. destruct (decode_stream _ _ _) as [ms|]; [|done].
  pose proof (push_collects peer now ms (rr_send rr, [], [])) as Hc. destruct (fold_left _ ms _) as [[s ranges] updates]. cbn in Hc.
  subst updates. destruct ranges as [|a ranges]; [by destruct rr|]. destruct (value_round _ _ _) as [[out d] rng].
  destruct out; [by destruct rr|]. rewrite run_send_tree. by destruct rr.
Qed.

Lemma datagram_tree rr datagram peer now_ms now rr' : rr_recv_datagram rr datagram peer now_ms now = Some rr' →
  rr_tree rr' = integrate (rr_tree rr) (datagram_updates rr datagram peer now_ms now).
Proof.
  unfold ReadReplica.rr_recv_datagram, datagram_updates. set (look := λ _ : (), _). destruct (BUFFER_SIZE <? len datagram)%N.
  { intros [= <-]. destruct (admit_inbound _ _ _ _ _ _ _).2; [|done]. by destruct (accept_frame _ _ _ _ _ _) as [[? []]|]. }
  destruct (admit_inbound _ _ _ _ _ _ _) as [f [payload|]]; cbn [snd]; [|by intros [= <-]].
  destruct (accept_frame _ _ _ _ _ _) as [[ra ev]|]; [|done]. cbn [mbind option_bind].
  pose proof (run_send_tree (rr_set_inbound rr f ra) (frame_responses wall nonce authenticator framing ev peer now)) as Ht.
  assert (Hl : (rr_run_send (rr_set_inbound rr f ra) (frame_responses wall nonce authenticator framing ev peer now)).2
    = match ev with Logical message _ => Some message | _ => None end).
  { unfold rr_run_send. destruct ev as [? []| | | |]; cbn; repeat case_match; simplify_eq; done. }
  destruct (rr_run_send _ _) as [rr1 logical]. cbn in Ht, Hl. subst logical. intros [= <-].
  destruct ev; cbn; try done. change (rr_tree (rr_set_peers ?x _)) with (rr_tree x). rewrite handle_tree. by rewrite Ht.
Qed.

(** *** Well-formedness *)

Context (Hbook : book_cfg_ok framing) (Hvalid : framing_validate framing (N.of_nat (overhead authenticator)) = Ok tt).
Context (Hnonce : ∀ q, length (nonce q) = AEAD_NONCE_LEN) (Hhash : ∀ m, length (blake3_hash m) = 32).

Record read_ok rr : Prop := {
  ro_reassembler : wf (rr_reassembler rr);
  ro_ids : ids_ok (rr_reassembler rr);
  ro_book : book_ok framing (s_book (rr_send rr));
  ro_budget : Forall (in_budget framing) (s_log (rr_send rr));
}.

Lemma read_send {A} rr (m : SendState (P := P) → SendState (P := P) * A) R' : sends framing m R' → read_ok rr → read_ok (rr_run_send rr m).1.
Proof.
  intros Hm [Hr Hi Hb Hl]. destruct (Hm (rr_send rr) Hb) as (l & Hb' & Hlog & Hl' & _). unfold rr_run_send.
  destruct (m (rr_send rr)) as [s a]. cbn in *. constructor; cbn; [done..|]. rewrite Hlog. by apply Forall_app.
Qed.

Lemma sends_ext {A} (m m' : SendState (P := P) → SendState (P := P) * A) R' : (∀ s, m s = m' s) → sends framing m' R' → sends framing m R'.
Proof. intros He Hm s Hs. rewrite He. by apply Hm. Qed.

Lemma responses_send ev (peer : Addr) now : event_sized authenticator framing ev →
  sends framing (frame_responses wall nonce authenticator framing ev peer now) (λ _, True).
Proof.
  intros Hev. destruct ev as [message [id|]|id ranges|id ranges|id|]; cbn [event_sized] in Hev.
  - eapply (sends_ext _ (supported ← with_book (λ b, supports b peer.1 now framing);
      _ ← (if supported : bool then send_recovery_control_to authenticator wall nonce peer (write_completion_ack id) else mret (Err tt));
      mret (Some message))).
    { intros s. unfold mbind, Send_bind, frame_responses. destruct (with_book _ s) as [s1 []]; [|done]. by destruct (send_recovery_control_to _ _ _ _ _ s1). }
    eapply sends_bind; [apply sends_supports|]. intros sup _. eapply (sends_bind _ _ _ (λ _, True)); [|intros; by apply sends_ret].
    apply sends_if; intros _; [by eapply sends_completion_ack|by apply sends_ret].
  - by apply sends_ret.
  - eapply (sends_ext _ (supported ← with_book (λ b, supports b peer.1 now framing);
      _ ← (if supported : bool then match write_missing_report id ranges with
           | Ok frame => send_recovery_control_to authenticator wall nonce peer frame | Err _ => mret (Err tt) end else mret (Err tt));
      mret None)).
    { intros s. unfold mbind, Send_bind, frame_responses. destruct (with_book _ s) as [s1 []]; [|done]. destruct (write_missing_report id ranges); [|done].
      by destruct (send_recovery_control_to _ _ _ _ _ s1). }
    eapply sends_bind; [apply sends_supports|]. intros sup _. eapply (sends_bind _ _ _ (λ _, True)); [|intros; by apply sends_ret].
    apply sends_if; intros _; [|by apply sends_ret]. destruct (write_missing_report id ranges) as [frame|] eqn:Hw; [|by apply sends_ret].
    destruct Hev. by eapply sends_report.
  - eapply (sends_ext _ (_ ← retransmit_missing_to authenticator framing wall nonce peer id ranges now; mret None)).
    { intros s. unfold mbind, Send_bind, frame_responses. by destruct (retransmit_missing_to _ _ _ _ _ _ _ _ s). }
    eapply sends_bind; [by eapply sends_retransmit|]. intros. by apply sends_ret.
  - eapply (sends_ext _ (_ ← complete_recovery peer id; mret None)).
    { intros s. unfold mbind, Send_bind, frame_responses. by destruct (complete_recovery _ _ s). }
    eapply (sends_bind _ _ _ (λ _, True)); [|intros; by apply sends_ret]. apply sends_book. intros b Hb. split; [|done].
    unfold book_complete. pose proof (book_remove_ok framing b (peer.1, id) Hb). by destruct (book_remove b _).
  - by apply sends_ret.
Qed.

Lemma push_send (peer : Addr) now (ms : list Msg) st : book_ok framing (s_book st.1.1) → let st' := fold_left (rr_push_message framing max_peers peer now) ms (st : SendState * list Ag * list (K * St)) in
  book_ok framing (s_book st'.1.1) ∧ s_log st'.1.1 = s_log st.1.1.
Proof.
  revert st. induction ms as [|m ms IH]; intros [[s ranges] updates] Hs; [done|]. cbn [fold_left].
  assert (Hstep : let st' := rr_push_message framing max_peers peer now (s, ranges, updates) m in book_ok framing (s_book st'.1.1) ∧ s_log st'.1.1 = s_log s).
  { destruct m; try done. cbn. destruct (is_selective_recovery_capability _); [|done].
    destruct (capability_sends framing max_peers peer.1 now s Hs) as (l & Hb & _ & _). split; [exact Hb|done]. }
  destruct Hstep as [Hb Hl]. destruct (IH _ Hb) as [Hb' Hl']. split; [exact Hb'|]. by rewrite Hl', Hl.
Qed.

Lemma handle_ok rr payload peer now : read_ok rr → read_ok (rr_handle_messages rr payload peer now).
Proof.
  intros Hok. unfold ReadReplica.rr_handle_messages. destruct (decode_stream _ _ _) as [ms|]; [|done].
  destruct (push_send peer now ms (rr_send rr, [], []) (ro_book rr Hok)) as [Hb Hl]. destruct (fold_left _ ms _) as [[s ranges] updates]. cbn in Hb, Hl.
  assert (Hok1 : ∀ tree rng, read_ok (rr_set_tree (rr_run_send rr (λ _, (s, tt))).1 tree rng)).
  { intros tree rng. destruct Hok as [? ? ? Hlog]. constructor; cbn; [done..|]. by rewrite Hl. }
  destruct ranges as [|a ranges]; [apply Hok1|]. destruct (value_round _ _ _) as [[out d] rng]. destruct out; [apply Hok1|].
  eapply read_send; [by apply sends_control|]. apply Hok1.
Qed.

Lemma read_datagram_ok rr datagram peer now_ms now : read_ok rr → ∃ rr', rr_recv_datagram rr datagram peer now_ms now = Some rr' ∧ read_ok rr'.
Proof.
  intros Hok. unfold ReadReplica.rr_recv_datagram. destruct (_ <? _)%N; [by exists rr|].
  assert (Hin : ∀ f ra, wf ra → ids_ok ra → read_ok (rr_set_inbound rr f ra)) by (intros f ra ? ?; destruct Hok; by constructor).
  destruct (admit_inbound _ _ _ _ _ _ _) as [f [payload|err]]; [|eexists; split; [done|apply Hin; apply Hok]].
  destruct (accept_frame_spec blake3_hash (rr_reassembler rr) peer.1 payload (max_missing_ranges authenticator framing) now (ro_reassembler rr Hok))
    as (ra & ev & Hf & Hra & _ & Hev). pose proof (frame_ids _ _ _ _ _ _ _ _ (ro_ids rr Hok) Hf) as Hids. rewrite Hf. cbn [mbind option_bind].
  assert (Hok1 : read_ok (rr_run_send (rr_set_inbound rr f ra) (frame_responses wall nonce authenticator framing ev peer now)).1).
  { eapply read_send; [apply responses_send|by apply Hin]. by eapply event_ok_sized. }
  destruct (rr_run_send _ _) as [rr1 logical]. cbn in Hok1. eexists. split; [done|]. destruct logical; [|done].
  destruct (handle_ok rr1 l peer now Hok1). by constructor.
Qed.

Lemma contacts_keep payload now (l : list P) rr :
  let rr' := fold_left (λ rr peer, (rr_run_send rr (send_to_retry blake3_hash wall nonce authenticator framing (peer, port) payload now)).1) l rr in
  rr_tree rr' = rr_tree rr ∧ (read_ok rr → read_ok rr').
Proof.
  revert rr. induction l as [|p l IH]; intros rr; [done|]. cbn [fold_left].
  destruct (IH (rr_run_send rr (send_to_retry blake3_hash wall nonce authenticator framing (p, port) payload now)).1) as [Ht Hok].
  split; [by rewrite Ht, run_send_tree|]. intros Hrr. apply Hok. eapply read_send; [|done]. by apply retry_sends.
Qed.

Lemma idle_keeps rr now : rr_tree (rr_recv_idle rr now) = rr_tree rr ∧ (read_ok rr → read_ok (rr_recv_idle rr now)).
Proof.
  unfold ReadReplica.rr_recv_idle. set (rr1 := rr_set_inbound rr _ _). set (rr2 := (rr_run_send rr1 _).1).
  assert (Ht2 : rr_tree rr2 = rr_tree rr) by (unfold rr2; by rewrite run_send_tree).
  assert (Hok2 : read_ok rr → read_ok rr2).
  { intros Hok. eapply (read_send rr1 _ (λ _, True)).
    - apply sends_book. intros b Hb. split; [|done]. apply (book_expire_ok framing (N.of_nat (size (capabilities b))) b now Hb (N.le_refl _)).
    - destruct Hok; constructor; [by apply expire_wf|by apply (expire_ids blake3_hash)|done..]. }
  clearbody rr2. unfold rr_start_reconciliation. destruct (get_peers _ _) as [peers known]. destruct (gen_ip _ _) as [addr rng].
  match goal with |- context [fold_left _ ?l ?x] => destruct (contacts_keep (rr_round_payload encode initial_ranges framing (rr_tree rr2)) now l x) as [Ht Hok] end.
  split; [by rewrite Ht|]. intros Hrr. apply Hok. destruct (Hok2 Hrr). by constructor.
Qed.

Lemma recovery_ok rr now : read_ok rr → read_ok (rr_recovery_tick rr now).
Proof.
  intros Hok. unfold ReadReplica.rr_recovery_tick.
  destruct (idle_retry_keeps blake3_hash wall nonce authenticator framing port (rr_reassembler rr) now (rr_send rr)) as [Hw Hi].
  set (m := retry_idle_incomplete authenticator framing wall nonce (rr_reassembler rr) port now) in *.
  assert (Hs : read_ok (rr_run_send rr m).1) by (eapply read_send; [eapply sends_idle; try done; apply Hok|done]).
  assert (Hra : (rr_run_send rr m).2 = (m (rr_send rr)).2) by (unfold rr_run_send; by destruct (m (rr_send rr))).
  destruct (rr_run_send rr m) as [rr1 ra]. cbn in *. subst ra. destruct Hs. constructor; [apply Hw, Hok|apply Hi, Hok|done..].
Qed.

Lemma recovery_tree rr now : rr_tree (rr_recovery_tick rr now) = rr_tree rr.
Proof. unfold ReadReplica.rr_recovery_tick, rr_run_send. by destruct (retry_idle_incomplete _ _ _ _ _ _ _ _). Qed.

(** C37. A read replica mirrors the dated store: after any run of datagrams, rounds, timers and
    seeds from a well-formed read replica, nothing panicked and every limit holds; its tree is its
    first tree overwritten by exactly the value-only updates of the admitted, complete payloads it
    received, in order, whatever else they carried; and when these updates are a quiet dated peer's
    and cover the keys on which they differed, however split, repeated or reordered, the tree is the
    peer's projection. *)
Theorem read_replica_mirrors rr updates rr' : read_ok rr → read_run rr updates rr' →
  read_ok rr' ∧ rr_tree rr' = integrate (rr_tree rr) updates ∧
  (∀ datagram peer now_ms now, is_Some (rr_recv_datagram rr' datagram peer now_ms now)) ∧
  ∀ projection : gmap K St, (∀ k s, (k, s) ∈ updates → projection !! k = Some s) →
    (∀ k, rr_tree rr !! k = projection !! k ∨ ∃ s, (k, s) ∈ updates) → rr_tree rr' = projection.
Proof.
  intros Hok Hrun. assert (Hinv : read_ok rr' ∧ rr_tree rr' = integrate (rr_tree rr) updates).
  { induction Hrun as [|l rr1 datagram peer now_ms now rr2 _ [Hok1 Ht] Hr|l rr1 now _ [Hok1 Ht]|l rr1 now _ [Hok1 Ht]|l rr1 peer now _ [Hok1 Ht]].
    - done.
    - destruct (read_datagram_ok rr1 datagram peer now_ms now Hok1) as (rr3 & Hr3 & Hok3). rewrite Hr in Hr3. injection Hr3 as <-.
      split; [done|]. by rewrite (datagram_tree _ _ _ _ _ _ Hr), integrate_app, Ht.
    - destruct (idle_keeps rr1 now) as [Hti Hoki]. split; [by apply Hoki|]. by rewrite Hti.
    - split; [by apply recovery_ok|]. by rewrite recovery_tree.
    - split; [|done]. destruct Hok1. by constructor. }
  destruct Hinv as [Hok' Ht]. split_and!; [done..| |].
  - intros datagram peer now_ms now. destruct (read_datagram_ok rr' datagram peer now_ms now Hok') as (rr2 & -> & _). by eexists.
  - intros p Hp Hall. rewrite Ht. by apply integrate_mirrors.
Qed.
End read_run.

(** ** A read replica and a dated peer *)

Section value_only.
Context {K V S E C St P Ag R : Type} `{Countable K, Countable P} `{Lww V S E C} `{!EntryState V S E St}.
Context `{!RustOrd K, !RustOrd S, !RustOrd P} `{!EqDecision S} `{Mac, Aead}.
Notation Msg := (Message Ag K E St).
Notation Eng := (Engine (K := K) (E := E) (C := C) (St := St) (P := P) (Ag := Ag) (R := R)).
Context (blake3_hash : list byte → id32) (wall : N → N) (nonce : N → list byte).
Context (encode : Msg → list byte) (deserialize : list byte → result (Msg * list byte) DeserializeError).
Context (entries_in : gmap K E → EnumerationRange K → list (K * E)) (states_in : gmap K St → EnumerationRange K → list (K * St)).
Context (dated_round : gmap K E → list Ag → R → list Ag * list (EnumerationRange K) * R)
        (value_round : gmap K St → list Ag → R → list Ag * list (EnumerationRange K) * R)
        (comparison_fingerprint : list Ag → id32) (initial_ranges : gmap K St → list Ag).
Context (authenticator : Authenticator) (framing : FramingConfig).
Context (max_peers max_concurrent_bulk_dumps repair_interval : N).
Notation receive_payload := (receive_payload blake3_hash wall nonce encode deserialize entries_in states_in dated_round value_round
  comparison_fingerprint authenticator framing max_peers max_concurrent_bulk_dumps repair_interval).
Context (deserialize_encode : ∀ m rest, deserialize (encode m ++ rest) = Ok (m, rest)) (deserialize_nil : deserialize [] = Err UnexpectedEof).

Definition value_only (message : Msg) : Prop :=
  match message with StateFingerprint _ | StateUpdate _ | Reserved6 _ => True | _ => False end.

Lemma push_value_only ms (b : DecodedDatagram Ag K E) : Forall value_only ms → spoke_dated (fold_left push_message ms b) = spoke_dated b.
Proof.
  intros Hms. revert b. induction Hms as [|m ms Hm _ IH]; intros b; [done|]. cbn [fold_left]. rewrite IH. destruct b, m; try done.
  cbn. by destruct (is_selective_recovery_capability _).
Qed.

Lemma value_only_harmless (e : Eng) ms peer now meanwhile e' : Forall value_only ms →
  receive_payload e (concat (encode <$> ms)) peer now meanwhile = Some e' → same_dated e e'.
Proof.
  intros Hms. unfold Engine.receive_payload. set (e1 := set_contacts _ _ _ _).
  assert (Hdec : decode_datagram deserialize (concat (encode <$> ms)) = Some (fold_left push_message (take (N.to_nat MAX_MESSAGES_PER_DATAGRAM) ms) empty_datagram)).
  { unfold decode_datagram. rewrite <- (app_nil_r (concat _)). by rewrite (decode_stream_prefix encode deserialize deserialize_encode). }
  intros ([e2 dated] & Hh & Hs)%bind_Some. destruct dated.
  - revert Hh. unfold handle_messages. rewrite Hdec. intros (? & _ & (? & _ & [= _ Hd])%bind_Some)%bind_Some.
    rewrite push_value_only in Hd by (by apply Forall_take). done.
  - injection Hs as <-. apply handle_messages_dated in Hh. exact Hh.
Qed.

(** A read replica's round never touches a dated peer: whatever it holds, its comparison
    leaves the peer's map, membership, acknowledgements, clock and gossip contacts as they were, so
    that a read replica can neither write nor hold back the collection of a tombstone. *)
Theorem read_replica_never_gates (e : Eng) (tree : gmap K St) peer now meanwhile e' :
  receive_payload e (rr_round_payload encode initial_ranges framing tree) peer now meanwhile = Some e' →
  en_replica e' = en_replica e ∧ en_clock e' = en_clock e ∧ en_peers e' = en_peers e.
Proof.
  set (ms := (StateFingerprint <$> initial_ranges tree) ++ (if selective_recovery framing then [Reserved6 SELECTIVE_RECOVERY_CAPABILITY] else []) : list Msg).
  assert (Hp : rr_round_payload encode initial_ranges framing tree = concat (encode <$> ms)).
  { unfold rr_round_payload, ms, append_capability, encoded_capability. rewrite fmap_app, concat_app, <- list_fmap_compose. f_equal.
    destruct (selective_recovery framing); [|done]. cbn. by rewrite app_nil_r. }
  rewrite Hp. apply value_only_harmless. apply Forall_app. split; [by apply Forall_fmap, Forall_true|]. destruct (selective_recovery framing); by repeat constructor.
Qed.
End value_only.

(** ** A concrete read replica *)

#[local] Existing Instances small_lww small_state toy_mac toy_aead.

Definition small_reader : ReadReplicaMap (K := N) (St := bool) (P := N) (R := unit) (Net := N) :=
  {| rr_tree := ∅; rr_net := 1%N; rr_rng := tt; rr_peers := ∅; rr_replay := ReplayFilter.filter_new (seconds 30) false;
     rr_reassembler := for_identity demo_limits; rr_send := send_start [Ok 5%N; Ok 5%N]; rr_round := 0; rr_last_round_at := None |}.

Definition small_states_datagram : list byte :=
  seal Disabled [] 0 0 (write_complete (concat (small_encode <$> [StateUpdate (1%N, true); EntryUpdate (1, 9)%N; StateUpdate (2%N, false)]))).

Notation small_read := (ReadReplica.rr_recv_datagram pad32 (λ q, q) demo_nonce small_encode small_deserialize small_round Disabled demo_framing 4).

(** An empty read replica and a peer that holds a tombstone and a value. *)
Lemma read_replica_mirrors_witness : ∃ rr, small_read small_reader small_states_datagram (7%N, 1%N) 0 0 = Some rr ∧
  rr_tree rr = {[1%N := true; 2%N := false]}.
Proof.
  destruct (small_read small_reader small_states_datagram (7%N, 1%N) 0 0) as [rr|] eqn:Hr; [|vm_compute in Hr; discriminate].
  exists rr. split; [done|].
  destruct (read_replica_mirrors (E := N) (P := N) (Net := N) pad32 (λ q, q) demo_nonce small_encode small_deserialize (λ _, [tt]) small_round
    (λ rng net, (11%N, rng)) Disabled demo_framing 4 1 demo_framing_book ltac:(vm_compute; reflexivity) (λ _, eq_refl) pad32_length
    small_reader [(1%N, true); (2%N, false)] rr) as (_ & _ & _ & Hm).
  - constructor; [apply wf_for_identity, demo_limits_ok|intros ? ? ?; discriminate|apply book_ok_empty|constructor].
  - assert (Hu : [(1%N, true); (2%N, false)] = [] ++ datagram_updates pad32 small_deserialize Disabled demo_framing 4 small_reader
      small_states_datagram (7%N, 1%N) 0 0) by (vm_compute; reflexivity).
    rewrite Hu. eapply read_datagram; [apply read_start|exact Hr].
  - apply Hm.
    + intros k s. rewrite !elem_of_cons. intros [[= -> ->]|[[= -> ->]|?%not_elem_of_nil]]; done.
    + intros k. destruct (decide (k = 1%N)) as [->|]; [right; exists true; left|].
      destruct (decide (k = 2%N)) as [->|]; [right; exists false; right; left|]. left. cbn [rr_tree small_reader].
      by rewrite lookup_empty, lookup_insert_ne, lookup_singleton_ne by done.
Defined.

Lemma read_replica_never_gates_witness : ∃ e',
  Engine.receive_payload pad32 (λ q, q) demo_nonce small_encode small_deserialize small_range small_states small_round small_round
    (λ _, small_fp) Disabled demo_framing 4 1 (seconds 1) small_engine (rr_round_payload small_encode (λ _, [tt]) demo_framing ∅) (7%N, 1%N) 0 id = Some e' ∧
  en_replica e' = small_replica.
Proof.
  destruct (Engine.receive_payload pad32 (λ q, q) demo_nonce small_encode small_deserialize small_range small_states small_round small_round
    (λ _, small_fp) Disabled demo_framing 4 1 (seconds 1) small_engine (rr_round_payload small_encode (λ _, [tt]) demo_framing ∅) (7%N, 1%N) 0 id)
    as [e'|] eqn:Hr; [|vm_compute in Hr; discriminate]. exists e'. split; [done|].
  exact (proj1 (read_replica_never_gates (P := N) pad32 (λ q, q) demo_nonce small_encode small_deserialize small_range small_states small_round small_round
    (λ _, small_fp) (λ _, [tt]) Disabled demo_framing 4 1 (seconds 1) small_roundtrip eq_refl small_engine ∅ (7%N, 1%N) 0 id e' Hr)).
Defined.
