(* ===== verification/SignedNetwork.v ===== *)
(** * The signed replica's message exchange ([src/signed_replica/network.rs], [network/send.rs],
      [network/receive.rs])

    The actor that composes the signed boundary, the confirmed routes, the reassembler, the recovery
    book and the causal state: receiving a datagram, and one reconciliation tick. Every operation
    threads the whole actor and may fail with an [io::Error] after part of its effects; [None] is a
    panic. The message serializer, BLAKE3, the AEAD nonces, the challenges and the wall clock, by
    number of use, are arguments. *)
From stdpp Require Import gmap list.
From Stdlib Require Import NArith.
From Stdlib.Strings Require Import Byte.
From S2P Require Import Prelude Bytes Replay Auth Framing Reassembly Missing Peer Routes RecoveryBook FramedSend.
From S2P Require Import Journal SignedCausal Startup.

Inductive SignedMessage (K E : Type) :=
| Hello
| Update (key : K) (entry : E)
| Ack (key : K) (version : N).
Arguments Hello {K E}.
Arguments Update {K E} key entry.
Arguments Ack {K E} key version.

Section network.
Context {K V S E C A B : Type} `{Countable K} `{Lww V S E C} `{!Persistence K E PeerId B} `{!RustOrd K} `{EqDecision A}.
Context `{Ed25519, Mac, Aead}.
(** external code *)
Context (blake3_hash : list byte → id32) (nonce challenge : N → list byte) (wall : N → N).
Context (serialize : SignedMessage K E → result (list byte) IoError) (deserialize : list byte → option (SignedMessage K E)).

Record SignedNode := {
  sn_replica : SignedReplica K E C A B;
  sn_boundary : SignedDatagramBoundary;
  sn_reassembler : Reassembler PeerId;
  sn_recovery : RecoveryBook PeerId;
  sn_next_peer_index : N;
  sn_max_peer_cap : N;
  sn_draws : N;
}.
Implicit Types (n : SignedNode).

(** An operation of the actor. *)
Definition Act (X : Type) : Type := SignedNode → option (SignedNode * result X IoError).
#[local] Instance Act_ret : MRet Act := λ X x n, Some (n, Ok x).
#[local] Instance Act_bind : MBind Act := λ X Y k m n,
  '(n, res) ← m n; match res with Ok x => k x n | Err e => Some (n, Err e) end.
Definition fail {X} (e : IoError) : Act X := λ n, Some (n, Err e).
Definition gets {X} (f : SignedNode → X) : Act X := λ n, Some (n, Ok (f n)).

Definition set_replica n (r : SignedReplica K E C A B) : SignedNode :=
  {| sn_replica := r; sn_boundary := sn_boundary n; sn_reassembler := sn_reassembler n; sn_recovery := sn_recovery n;
     sn_next_peer_index := sn_next_peer_index n; sn_max_peer_cap := sn_max_peer_cap n; sn_draws := sn_draws n |}.
Definition set_boundary n (b : SignedDatagramBoundary) : SignedNode :=
  {| sn_replica := sn_replica n; sn_boundary := b; sn_reassembler := sn_reassembler n; sn_recovery := sn_recovery n;
     sn_next_peer_index := sn_next_peer_index n; sn_max_peer_cap := sn_max_peer_cap n; sn_draws := (sn_draws n + 1)%N |}.
Definition set_reassembler n (ra : Reassembler PeerId) : SignedNode :=
  {| sn_replica := sn_replica n; sn_boundary := sn_boundary n; sn_reassembler := ra; sn_recovery := sn_recovery n;
     sn_next_peer_index := sn_next_peer_index n; sn_max_peer_cap := sn_max_peer_cap n; sn_draws := sn_draws n |}.
Definition set_recovery n (b : RecoveryBook PeerId) : SignedNode :=
  {| sn_replica := sn_replica n; sn_boundary := sn_boundary n; sn_reassembler := sn_reassembler n; sn_recovery := b;
     sn_next_peer_index := sn_next_peer_index n; sn_max_peer_cap := sn_max_peer_cap n; sn_draws := sn_draws n |}.
Definition set_index n (i : N) : SignedNode :=
  {| sn_replica := sn_replica n; sn_boundary := sn_boundary n; sn_reassembler := sn_reassembler n; sn_recovery := sn_recovery n;
     sn_next_peer_index := i; sn_max_peer_cap := sn_max_peer_cap n; sn_draws := sn_draws n |}.
Definition set_routes (r : SignedReplica K E C A B) (routes : SignedPeerRoutes A) (cursors : gmap PeerId (option K)) : SignedReplica K E C A B :=
  {| sr_routes := routes; sr_entries := sr_entries r; sr_members := sr_members r; sr_acks := sr_acks r;
     sr_generations := sr_generations r; sr_persistence := sr_persistence r; sr_clock := sr_clock r;
     sr_authorities := sr_authorities r; sr_readers := sr_readers r; sr_read_only := sr_read_only r;
     sr_framing := sr_framing r; sr_payload_budget := sr_payload_budget r; sr_cursors := cursors;
     sr_max_frames_per_tick := sr_max_frames_per_tick r |}.

(** ** Sending *)

Definition routed_frame (peer : PeerId) (frame : list byte) : Act (RoutedDatagram A) := λ n,
  let '(b, res) := seal_to (sr_routes (sn_replica n)) (sn_boundary n) (nonce (sn_draws n)) (wall (sn_draws n)) peer frame in
  Some (set_boundary n b, match res with Ok d => Ok d | Err _ => Err InvalidData end).

(** [serialize(..)?] *)
Definition encode (message : SignedMessage K E) : Act (list byte) :=
  match serialize message with Ok bytes => mret bytes | Err e => fail e end.

Definition seal_here (frame : list byte) : Act (list byte) := λ n,
  let '(b, res) := boundary_seal (sn_boundary n) (nonce (sn_draws n)) (wall (sn_draws n)) frame in
  Some (set_boundary n b, match res with Ok bytes => Ok bytes | Err _ => Err InvalidData end).

Definition probe (endpoint : A) : Act (RoutedDatagram A) :=
  message ← encode Hello;
  bytes ← seal_here (write_complete message);
  mret {| rd_destination := endpoint; rd_bytes := bytes |}.

(** The fragment loop of [send_encoded], from the [index]th chunk on. *)
Fixpoint fragment_frames (peer : PeerId) (id : id32) (total chunk index : N) (slices : list (list byte)) : Act (list (RoutedDatagram A)) :=
  match slices with
  | [] => mret []
  | slice :: slices =>
      match write_fragment id total (index * chunk) slice with
      | Err _ => fail InvalidData
      | Ok frame =>
          d ← routed_frame peer frame;
          rest ← fragment_frames peer id total chunk (index + 1) slices;
          mret (d :: rest)
      end
  end.

Definition retain_transfer (peer : PeerId) (bytes : list byte) (now : N) : Act unit := λ n,
  '(b, _) ← retain (sn_recovery n) peer (blake3_hash bytes) bytes now (sr_framing (sn_replica n));
  Some (set_recovery n b, Ok tt).

Definition send_encoded (peer : PeerId) (bytes : list byte) (now : N) : Act (list (RoutedDatagram A)) :=
  required ← gets (λ n, required_fragments (sn_replica n) (len bytes));
  match required with
  | Err e => fail e
  | Ok count =>
      if (count =? 1)%N then d ← routed_frame peer (write_complete bytes); mret [d]
      else
        budget ← gets (λ n, payload_budget (sn_boundary n));
        let chunk := (budget - N.of_nat FRAGMENT_HEADER_LEN)%N in
        selective ← gets (λ n, selective_recovery (sr_framing (sn_replica n)));
        _ ← (if selective : bool then retain_transfer peer bytes now else mret tt);
        fragment_frames peer (blake3_hash bytes) (len bytes) chunk 0 (chunks (N.to_nat chunk) bytes)
  end.

Definition send_message (peer : PeerId) (message : SignedMessage K E) (now : N) : Act (list (RoutedDatagram A)) :=
  bytes ← encode message;
  send_encoded peer bytes now.

(** The request loop of [retry_missing], [sent] requests so far. *)
Fixpoint missing_frames (limit sent : N) (requests : list (MissingRequest PeerId)) : Act (list (RoutedDatagram A)) :=
  match requests with
  | [] => mret []
  | request :: requests =>
      known ← gets (λ n, bool_decide (is_Some (route (sr_routes (sn_replica n)) (mr_peer request))));
      if negb known then missing_frames limit sent requests
      else
        match write_missing_report (mr_transfer_id request) (mr_ranges request) with
        | Err _ => fail InvalidData
        | Ok frame =>
            d ← routed_frame (mr_peer request) frame;
            if (limit <=? sent + 1)%N then mret [d]
            else rest ← missing_frames limit (sent + 1) requests; mret (d :: rest)
        end
  end.

Definition poll_requests (now : N) : Act (list (MissingRequest PeerId)) := λ n,
  let max_ranges := max_missing_ranges_for_budget (payload_budget (sn_boundary n)) 0
                      (max_missing_ranges_per_report (sr_framing (sn_replica n))) in
  let '(ra, requests) := poll_idle_missing (sn_reassembler n) now (seconds 2) (seconds 3) max_ranges 16 in
  Some (set_reassembler n ra, Ok requests).

Definition retry_missing (now : N) : Act (list (RoutedDatagram A)) :=
  selective ← gets (λ n, selective_recovery (sr_framing (sn_replica n)));
  if negb selective then mret []
  else
    requests ← poll_requests now;
    limit ← gets (λ n, sr_max_frames_per_tick (sn_replica n));
    missing_frames limit 0 requests.

(** The frames of [resend_missing]: every chunk of every range with bytes left, up to [limit]. *)
Fixpoint resend_pieces (bytes : list byte) (chunk : N) (ranges : list (N * N)) : list (N * list byte) :=
  match ranges with
  | [] => []
  | (offset, length) :: ranges =>
      let stop := N.min (saturating_add offset length) (len bytes) in
      (if (stop <=? offset)%N then []
       else place offset chunk (chunks (N.to_nat chunk) (slice (N.to_nat offset) (N.to_nat stop) bytes)))
      ++ resend_pieces bytes chunk ranges
  end.
Fixpoint resend_frames (peer : PeerId) (id : id32) (total limit sent : N) (pieces : list (N * list byte)) : Act (list (RoutedDatagram A)) :=
  match pieces with
  | [] => mret []
  | (offset, piece) :: pieces =>
      match write_fragment id total offset piece with
      | Err _ => fail InvalidData
      | Ok frame =>
          d ← routed_frame peer frame;
          if (limit <=? sent + 1)%N then mret [d]
          else rest ← resend_frames peer id total limit (sent + 1) pieces; mret (d :: rest)
      end
  end.

Definition grant (peer : PeerId) (id : id32) (now : N) : Act (option RecoveryPayload) := λ n,
  let '(b, transfer) := payload_for_report (sn_recovery n) peer id now (sr_framing (sn_replica n)) in
  Some (set_recovery n b, Ok transfer).

Definition resend_missing (peer : PeerId) (id : id32) (ranges : list (N * N)) (now : N) : Act (list (RoutedDatagram A)) :=
  transfer ← grant peer id now;
  match transfer with
  | None => mret []
  | Some transfer =>
      let bytes := rp_payload transfer in
      budget ← gets (λ n, payload_budget (sn_boundary n));
      limit ← gets (λ n, sr_max_frames_per_tick (sn_replica n));
      resend_frames peer id (len bytes) limit 0 (resend_pieces bytes (budget - N.of_nat FRAGMENT_HEADER_LEN)%N ranges)
  end.

(** ** One reconciliation tick *)

(** The entry after the cursor in key order, or the first one. *)
Definition next_entry (entries : list (K * E)) (cursor : option K) : option (K * E) :=
  match find (λ ke, match cursor with Some last => ord_ltb last ke.1 | None => true end) entries with
  | Some ke => Some ke
  | None => head entries
  end.

Definition rotate_left {X} (i : nat) (l : list X) : list X := drop i l ++ take i l.

Definition set_cursor (peer : PeerId) (key : K) : Act unit := λ n,
  Some (set_replica n (set_routes (sn_replica n) (sr_routes (sn_replica n)) (<[peer := Some key]> (sr_cursors (sn_replica n)))), Ok tt).

(** The loop over the rotated peers, with the datagrams so far. *)
Fixpoint serve_peers (now : N) (peers : list PeerId) (outgoing : list (RoutedDatagram A)) : Act (list (RoutedDatagram A)) :=
  match peers with
  | [] => mret outgoing
  | peer :: peers =>
      next ← gets (λ n, next_entry (ordered_entries (sr_entries (sn_replica n))) (mjoin (sr_cursors (sn_replica n) !! peer)));
      match next with
      | None => mret outgoing
      | Some (key, entry) =>
          encoded ← encode (Update key entry);
          required ← gets (λ n, required_fragments (sn_replica n) (len encoded));
          match required with
          | Err e => fail e
          | Ok frames =>
              limit ← gets (λ n, sr_max_frames_per_tick (sn_replica n));
              if (limit <? saturating_add (len outgoing) frames)%N then mret outgoing
              else
                sent ← send_encoded peer encoded now;
                _ ← set_cursor peer key;
                serve_peers now peers (outgoing ++ sent)
          end
      end
  end.

Definition expire_all (now : N) : Act unit := λ n,
  let n := set_reassembler n (expire (sn_reassembler n) now).1 in
  Some (set_recovery n (book_expire (sn_recovery n) now (sr_framing (sn_replica n))).1, Ok tt).
Definition advance_index : Act unit := λ n, Some (set_index n (wrapping_add64 (sn_next_peer_index n) 1), Ok tt).

Definition reconcile (now : N) : Act (list (RoutedDatagram A)) :=
  _ ← expire_all now;
  outgoing ← retry_missing now;
  read_only ← gets (λ n, sr_read_only (sn_replica n));
  if read_only : bool then mret outgoing
  else
    limit ← gets (λ n, sr_max_frames_per_tick (sn_replica n));
    if (limit <=? len outgoing)%N then mret outgoing
    else
      peers ← gets (λ n, confirmed_peers (sr_routes (sn_replica n)));
      entries ← gets (λ n, sr_entries (sn_replica n));
      if bool_decide (peers = []) || bool_decide (entries = ∅) then mret outgoing
      else
        index ← gets sn_next_peer_index;
        _ ← advance_index;
        serve_peers now (rotate_left (N.to_nat (index mod len peers)) peers) outgoing.

(** ** Receiving *)

Definition handle_verified_message (peer : PeerId) (message : SignedMessage K E) (now : N) : Act (option (list (RoutedDatagram A))) :=
  match message with
  | Hello => mret None
  | Update key entry =>
      authority ← gets (λ n, bool_decide (peer ∈ sr_authorities (sn_replica n)));
      if negb authority then mret None
      else
        ack_version ← (λ n, let '(r, v) := apply_remote_entry (sn_replica n) peer key entry in Some (set_replica n r, Ok v));
        read_only ← gets (λ n, sr_read_only (sn_replica n));
        if read_only : bool then mret None
        else
          match ack_version with
          | Some version => reply ← send_message peer (Ack key version) now; mret (Some reply)
          | None => mret None
          end
  | Ack key version => λ n, Some (set_replica n (accept_ack (sn_replica n) peer key version), Ok None)
  end.

(** The route layer on this actor's parts; [inl] is a rejected packet. *)
Definition route_receive (source : A) (datagram : list byte) (now : N) : Act (() + SignedRouteReceive (A := A)) := λ n,
  let r := sn_replica n in
  let peer_state peer := if bool_decide (peer ∈ sr_authorities r) || bool_decide (peer ∈ sr_readers r)
                         then (true, N.of_nat (size (sr_members r))) else (false, sn_max_peer_cap n) in
  '(st, res) ← receive blake3_hash {| rs_routes := sr_routes r; rs_boundary := sn_boundary n; rs_reassembler := sn_reassembler n |}
                 (nonce (sn_draws n)) (challenge (sn_draws n)) (wall (sn_draws n)) datagram source peer_state now;
  let n := set_reassembler (set_boundary (set_replica n (set_routes r (rs_routes st) (sr_cursors r))) (rs_boundary st)) (rs_reassembler st) in
  Some (n, Ok (match res with Ok inbound => inr inbound | Err _ => inl () end)).

Definition receive_message (peer : PeerId) (report : ReceiveReport) (now : N) : Act (list (RoutedDatagram A)) :=
  match outcome report with
  | Ok (Complete bytes) =>
      match deserialize bytes with
      | None => mret []
      | Some message =>
          responses ← (if fragment_received report
                       then d ← routed_frame peer (write_completion_ack (blake3_hash bytes)); mret [d] else mret []);
          reply ← handle_verified_message peer message now;
          mret (responses ++ default [] reply)
      end
  | _ => mret []
  end.

Definition node_receive (source : A) (datagram : list byte) (now : N) : Act (list (RoutedDatagram A)) :=
  result ← route_receive source datagram now;
  match result with
  | inl _ | inr Ignored => mret []
  | inr (Probing _ challenge) => mret (option_list challenge)
  | inr (Reply response) => mret [response]
  | inr (Confirmed peer) => λ n,
      Some (set_recovery n (record_capability (sn_recovery n) peer now (sr_framing (sn_replica n)) (sn_max_peer_cap n)), Ok [])
  | inr (Recovery peer (Framing.Missing transfer_id ranges)) => resend_missing peer transfer_id ranges now
  | inr (Recovery peer (CompleteAck transfer_id)) => λ n, Some (set_recovery n (book_complete (sn_recovery n) peer transfer_id).1, Ok [])
  | inr (Framed peer report) => receive_message peer report now
  end.
End network.
