(* ===== verification/SignedNetworkProps.v ===== *)
(** * What the signed exchange guarantees

    Only a signed, routed, complete message of a provisioned authority or member touches the causal
    state; a tick stays within its frame budget and sends only along confirmed routes; and ticks
    visit every entry. *)
From stdpp Require Import gmap list sorting.
From Stdlib Require Import NArith.
From Stdlib.Strings Require Import Byte.
From S2P Require Import Prelude Bytes Replay Auth Framing Reassembly Missing Peer Routes RecoveryBook FramedSend FramedSendProps.
From S2P Require Import ReassemblyProps Journal SignedCausal SignedCausalProps Startup SignedNetwork.

Section props.
Context {K V S E C A B : Type} `{Countable K} `{Lww V S E C} `{!Persistence K E PeerId B} `{!RustOrd K} `{EqDecision A}.
Context `{Ed25519, Mac, Aead}.
Context (blake3_hash : list byte → id32) (nonce challenge : N → list byte) (wall : N → N).
Context (serialize : SignedMessage K E → result (list byte) IoError) (deserialize : list byte → option (SignedMessage K E)).
Notation Node := (SignedNode (K := K) (E := E) (C := C) (A := A) (B := B)).
Notation Act := (Act (K := K) (E := E) (C := C) (A := A) (B := B)).
Notation node_receive := (node_receive blake3_hash nonce challenge wall serialize deserialize).
Notation reconcile := (reconcile blake3_hash nonce wall serialize).
Notation send_encoded := (send_encoded blake3_hash nonce wall).
Notation routed_frame := (routed_frame nonce wall).
Implicit Types (n : Node).
#[local] Existing Instances Act_ret Act_bind.

(** ** Sending leaves the replica alone *)

(** [post m P]: whenever [m] returns, [P] relates the states and its answer. *)
Definition post {X} (m : Act X) (P : Node → Node → result X IoError → Prop) : Prop :=
  ∀ n n' res, m n = Some (n', res) → P n n' res.

Definition same_replica (n n' : Node) : Prop := (sn_replica n', sn_next_peer_index n') = (sn_replica n, sn_next_peer_index n).
Definition keeps {X} (m : Act X) : Prop := post m (λ n n' _, same_replica n n').

Lemma keeps_ret {X} (x : X) : keeps (mret x).
Proof. by intros n n' res [= <- <-]. Qed.
Lemma keeps_fail {X} e : keeps (fail e : Act X).
Proof. by intros n n' res [= <- <-]. Qed.
Lemma keeps_gets {X} (f : Node → X) : keeps (gets f).
Proof. by intros n n' res [= <- <-]. Qed.
Lemma keeps_bind {X Y} (m : Act X) (k : X → Act Y) : keeps m → (∀ x, keeps (k x)) → keeps (m ≫= k).
Proof.
  intros Hm Hk n n' res. unfold mbind, Act_bind. intros ([n1 [x|e]] & Hm1%Hm & Hs)%bind_Some; [|by injection Hs as <- <-].
  apply Hk in Hs. unfold same_replica in *. congruence.
Qed.

Lemma keeps_encode message : keeps (encode serialize message).
Proof. unfold encode. destruct (serialize message); [apply keeps_ret|apply keeps_fail]. Qed.

Lemma keeps_routed peer frame : keeps (routed_frame peer frame).
Proof. intros n n' res. unfold SignedNetwork.routed_frame. destruct (seal_to _ _ _ _ _ _) as [b r]. by intros [= <- <-]. Qed.

Lemma keeps_fragments peer id total chunk index slices : keeps (fragment_frames nonce wall peer id total chunk index slices).
Proof.
  revert index. induction slices as [|s slices IH]; intros index; cbn [fragment_frames]; [apply keeps_ret|].
  destruct (write_fragment _ _ _ _); [|apply keeps_fail]. apply keeps_bind; [apply keeps_routed|]. intros d.
  apply keeps_bind; [apply IH|]. intros. apply keeps_ret.
Qed.

Lemma keeps_send peer bytes now : keeps (send_encoded peer bytes now).
Proof.
  unfold SignedNetwork.send_encoded. apply keeps_bind; [apply keeps_gets|]. intros [count|e]; [|apply keeps_fail].
  destruct (_ =? _)%N; [apply keeps_bind; [apply keeps_routed|intros; apply keeps_ret]|].
  apply keeps_bind; [apply keeps_gets|]. intros budget. apply keeps_bind; [apply keeps_gets|]. intros selective.
  apply keeps_bind; [|intros; apply keeps_fragments]. destruct selective; [|apply keeps_ret].
  intros n n' res. unfold retain_transfer. by intros ([b r] & _ & [= <- <-])%bind_Some.
Qed.

Lemma keeps_missing limit sent requests : keeps (missing_frames nonce wall limit sent requests).
Proof.
  revert sent. induction requests as [|q requests IH]; intros sent; cbn [missing_frames]; [apply keeps_ret|].
  apply keeps_bind; [apply keeps_gets|]. intros known. destruct (negb known); [apply IH|].
  destruct (write_missing_report _ _); [|apply keeps_fail]. apply keeps_bind; [apply keeps_routed|]. intros d.
  destruct (_ <=? _)%N; [apply keeps_ret|]. apply keeps_bind; [apply IH|]. intros. apply keeps_ret.
Qed.

Lemma keeps_retry now : keeps (retry_missing nonce wall now).
Proof.
  unfold retry_missing. apply keeps_bind; [apply keeps_gets|]. intros selective. destruct (negb selective); [apply keeps_ret|].
  apply keeps_bind.
  { intros n n' res. unfold poll_requests. destruct (poll_idle_missing _ _ _ _ _ _). by intros [= <- <-]. }
  intros requests. apply keeps_bind; [apply keeps_gets|]. intros. apply keeps_missing.
Qed.

Lemma keeps_resend peer id ranges now : keeps (resend_missing nonce wall peer id ranges now).
Proof.
  unfold resend_missing. apply keeps_bind.
  { intros n n' res. unfold grant. destruct (payload_for_report _ _ _ _ _). by intros [= <- <-]. }
  intros [transfer|]; [|apply keeps_ret]. apply keeps_bind; [apply keeps_gets|]. intros budget. apply keeps_bind; [apply keeps_gets|]. intros limit.
  generalize (resend_pieces (rp_payload transfer) (budget - N.of_nat FRAGMENT_HEADER_LEN) ranges) as pieces. generalize 0%N as sent.
  intros sent pieces. revert sent. induction pieces as [|[o p] pieces IH]; intros sent; cbn [resend_frames]; [apply keeps_ret|].
  destruct (write_fragment _ _ _ _); [|apply keeps_fail]. apply keeps_bind; [apply keeps_routed|]. intros d.
  destruct (_ <=? _)%N; [apply keeps_ret|]. apply keeps_bind; [apply IH|]. intros. apply keeps_ret.
Qed.

(** ** Receiving *)

(** Everything of the replica but its routes is as before. *)
Definition routes_only (r r' : SignedReplica K E C A B) : Prop := r' = set_routes r (sr_routes r') (sr_cursors r).

Definition peer_view (n : Node) (peer : PeerId) : bool * N :=
  if bool_decide (peer ∈ sr_authorities (sn_replica n)) || bool_decide (peer ∈ sr_readers (sn_replica n))
  then (true, N.of_nat (size (sr_members (sn_replica n)))) else (false, sn_max_peer_cap n).

(** [datagram] is signed, fresh and from the confirmed route of [peer], and completes [message]. *)
Definition delivers (n : Node) (source : A) (datagram : list byte) (now : N) (peer : PeerId) (message : SignedMessage K E) : Prop :=
  ∃ rc ra report bytes,
    (boundary_open (sn_boundary n) datagram (peer_view n) (wall (sn_draws n))).2 = Ok rc ∧ rc_peer rc = peer ∧
    route (sr_routes (sn_replica n)) peer = Some source ∧
    accept blake3_hash (sn_reassembler n) peer (p_bytes (rc_payload rc)) now = Some (ra, report) ∧
    outcome report = Ok (Complete bytes) ∧ deserialize bytes = Some message.

(** What [message] of [peer] does to the replica. *)
Definition message_effect (r : SignedReplica K E C A B) (peer : PeerId) (message : SignedMessage K E) (r' : SignedReplica K E C A B) : Prop :=
  match message with
  | Hello => False
  | Update key entry => peer ∈ sr_authorities r ∧ r' = (apply_remote_entry r peer key entry).1
  | Ack key version => peer ∈ sr_members r ∧ r' = accept_ack r peer key version
  end.

Lemma route_framed (st : RouteState A) non ch w d source ps now st' peer report :
  receive blake3_hash st non ch w d source ps now = Some (st', Ok (Framed peer report)) →
  rs_routes st' = rs_routes st ∧ ∃ rc ra, (boundary_open (rs_boundary st) d ps w).2 = Ok rc ∧ rc_peer rc = peer ∧ route (rs_routes st) peer = Some source ∧
    accept blake3_hash (rs_reassembler st) peer (p_bytes (rc_payload rc)) now = Some (ra, report).
Proof.
  unfold receive. destruct (boundary_open (rs_boundary st) d ps w) as [b [rc|e]]; [|done].
  case_bool_decide.
  { destruct (parse_control _) as [[? ?]|]; [|done]. case_bool_decide; [done|]. by destruct (boundary_seal _ _ _ _) as [? []]. }
  case_bool_decide.
  { destruct (parse_control _) as [[? ?]|]; [|done]. case_bool_decide; [done|]. by destruct (negb _). }
  case_bool_decide as Hr; [|by destruct (start_probe _ _ _ _ _ _ _ _) as [[? ?] []]].
  destruct (is_recovery_tag _); [by destruct (parse_recovery_control _ _) as [[]|]|].
  intros ([ra rep'] & Ha & [= <- <- <-])%bind_Some. split; [done|]. by exists rc, ra.
Qed.

Lemma set_routes_id (r : SignedReplica K E C A B) : set_routes r (sr_routes r) (sr_cursors r) = r.
Proof. by destruct r. Qed.

Lemma routes_only_refl (r : SignedReplica K E C A B) : routes_only r r.
Proof. unfold routes_only. by rewrite set_routes_id. Qed.

(** Splitting a sequence of operations. *)
Lemma bind_inv {X Y} (m : Act X) (k : X → Act Y) n n' res :
  (m ≫= k) n = Some (n', res) →
  (∃ n1 x, m n = Some (n1, Ok x) ∧ k x n1 = Some (n', res)) ∨ (∃ e, m n = Some (n', Err e) ∧ res = Err e).
Proof.
  unfold mbind, Act_bind. intros ([n1 [x|e]] & Hm & Hs)%bind_Some; [left; eauto|]. injection Hs as <- <-. eauto.
Qed.

Lemma handle_effect peer message now n n' res :
  handle_verified_message blake3_hash nonce wall serialize peer message now n = Some (n', res) →
  same_replica n n' ∨ message_effect (sn_replica n) peer message (sn_replica n').
Proof.
  unfold handle_verified_message, same_replica. destruct message as [|key entry|key version].
  - intros [= <- <-]. by left.
  - intros [(n1 & authority & [= <- <-] & Hk)|(e & ? & ->)]%bind_inv; [|done]. case_bool_decide as Hp; [|injection Hk as <- <-; by left].
    cbn [negb] in Hk. apply bind_inv in Hk as [(n1 & ack & Hap & Hk)|(e & Hap & ->)];
      destruct (apply_remote_entry _ _ _ _) as [r v] eqn:Hr; [|done]. injection Hap as <- <-. right. cbn. rewrite Hr. split; [done|].
    apply bind_inv in Hk as [(n1 & ro & [= <- <-] & Hk)|(e & ? & ->)]; [|done].
    cbn [sn_replica set_replica] in Hk. destruct (sr_read_only r); [by injection Hk as <- <-|].
    destruct v as [version|]; [|by injection Hk as <- <-].
    apply (keeps_bind (send_message _ _ _ _ _ _ _) (λ reply, mret (Some reply))) in Hk; [by injection Hk| |intros; apply keeps_ret].
    apply keeps_bind; [apply keeps_encode|intros; apply keeps_send].
  - intros [= <- <-]. cbn. destruct (decide (peer ∈ sr_members (sn_replica n))); [by right|]. left. unfold accept_ack. by rewrite bool_decide_eq_false_2.
Qed.

Lemma message_received peer report now n n' res :
  receive_message blake3_hash nonce wall serialize deserialize peer report now n = Some (n', res) →
  same_replica n n' ∨ ∃ bytes message, outcome report = Ok (Complete bytes) ∧ deserialize bytes = Some message ∧
    message_effect (sn_replica n) peer message (sn_replica n').
Proof.
  unfold receive_message. destruct (outcome report) as [[bytes| |]|] eqn:Ho; try (intros [= <- <-]; by left).
  destruct (deserialize bytes) as [message|] eqn:Hd; [|intros [= <- <-]; by left].
  set (first := if fragment_received report then _ else _). assert (Hf : keeps first).
  { unfold first. destruct (fragment_received report); [|apply keeps_ret]. apply keeps_bind; [apply keeps_routed|intros; apply keeps_ret]. }
  intros [(n1 & responses & Hf1%Hf & Hk)|(e & Hf1%Hf & ->)]%bind_inv; [|by left].
  unfold same_replica in *. injection Hf1 as Hr1 Hi1. rewrite <- Hr1, <- Hi1.
  apply bind_inv in Hk as [(n2 & reply & Hh%handle_effect & [= <- <-])|(e & Hh%handle_effect & ->)]; destruct Hh; eauto 8.
Qed.

Lemma node_receive_effect source datagram now n n' res :
  node_receive source datagram now n = Some (n', res) →
  routes_only (sn_replica n) (sn_replica n') ∨
  ∃ peer message, delivers n source datagram now peer message ∧ message_effect (sn_replica n) peer message (sn_replica n').
Proof.
  unfold SignedNetwork.node_receive. intros [(n1 & result & Hroute & Hk)|(e & Hroute & ->)]%bind_inv;
    unfold route_receive in Hroute; apply bind_Some in Hroute as ([st r1] & Hr & Heq); [|done]. injection Heq as <- <-.
  set (n1 := set_reassembler _ _) in *.
  assert (Hro : ∀ m, same_replica n1 m → routes_only (sn_replica n) (sn_replica m)) by (intros m [= -> _]; done).
  destruct r1 as [inbound|e]; [|injection Hk as <- <-; by left].
  destruct inbound as [peer report|peer ch|d|peer|peer [id ranges|id]|]; try (injection Hk as <- <-; left; by apply Hro).
  - apply route_framed in Hr as (Hrs & rc & ra & Hopen & Hp & Hrt & Hacc). cbn [rs_routes rs_boundary rs_reassembler] in *.
    apply message_received in Hk as [Hs|(bytes & message & Ho & Hd & He)]; [left; by apply Hro|right].
    exists peer, message. split; [by exists rc, ra, report, bytes|]. revert He. unfold n1. cbn. by rewrite Hrs, set_routes_id.
  - apply keeps_resend in Hk. left. by apply Hro.
Qed.

(** ** Bounded work *)

(** Whatever [m] returns from [n] satisfies [Q]. *)
Definition yields {X} (n : Node) (m : Act X) (Q : Node → X → Prop) : Prop := ∀ n' x, m n = Some (n', Ok x) → Q n' x.

Lemma yields_bind {X Y} n (m : Act X) (k : X → Act Y) Q :
  yields n m (λ n1 x, yields n1 (k x) Q) → yields n (m ≫= k) Q.
Proof. intros Hm n' y [(n1 & x & Hm1%Hm & Hk)|(e & _ & ?)]%bind_inv; [by apply Hm1|done]. Qed.
Lemma yields_ret {X} n (x : X) Q : Q n x → yields n (mret x) Q.
Proof. by intros HQ n' y [= <- <-]. Qed.
Lemma yields_gets {X Y} n (f : Node → X) (k : X → Act Y) Q : yields n (k (f n)) Q → yields n (gets f ≫= k) Q.
Proof. intros HQ. apply yields_bind. by intros n' y [= <- <-]. Qed.
Lemma yields_fail {X} n e Q : yields n (fail e : Act X) Q.
Proof. done. Qed.
Lemma yields_mono {X} n (m : Act X) (Q R : Node → X → Prop) : yields n m Q → (∀ n' x, Q n' x → R n' x) → yields n m R.
Proof. intros HQ HR n' x Hm. by apply HR, HQ. Qed.

(** What the sending operations read and never change. *)
Definition env (n : Node) :=
  (sr_routes (sn_replica n), sr_framing (sn_replica n), sr_payload_budget (sn_replica n),
   sr_max_frames_per_tick (sn_replica n), payload_budget (sn_boundary n)).

(** What the constructor checks. *)
Record node_ok (n : Node) : Prop := {
  no_budget : sr_payload_budget (sn_replica n) = payload_budget (sn_boundary n);
  no_fragment : (N.of_nat FRAGMENT_HEADER_LEN < payload_budget (sn_boundary n))%N;
  no_limit : (1 ≤ sr_max_frames_per_tick (sn_replica n) ≤ 8192)%N;
}.

Definition sent_to (n : Node) (peer : PeerId) (d : RoutedDatagram A) : Prop :=
  route (sr_routes (sn_replica n)) peer = Some (rd_destination d).

Lemma env_ok n n' : env n' = env n → node_ok n → node_ok n'.
Proof. intros He [Hb Hf Hl]. unfold env in He. simplify_eq. constructor; congruence. Qed.
Lemma env_sent n n' peer d : env n' = env n → sent_to n' peer d → sent_to n peer d.
Proof. unfold env, sent_to. intros He. simplify_eq. congruence. Qed.

Lemma seal_budget b non w frame : payload_budget (boundary_seal b non w frame).1 = payload_budget b.
Proof.
  unfold boundary_seal. destruct (_ <? _)%N; [done|]. destruct (SenderCounter.next_seq _) as [c q].
  by destruct (SenderCounter.next_stamp_at c w).
Qed.

Lemma yields_routed n peer frame : yields n (routed_frame peer frame) (λ n' d, env n' = env n ∧ sent_to n peer d).
Proof.
  intros n' d. unfold SignedNetwork.routed_frame, seal_to, sent_to.
  destruct (route _ peer) as [dest|]; [|done]. pose proof (seal_budget (sn_boundary n) (nonce (sn_draws n)) (wall (sn_draws n)) frame) as Hb.
  destruct (boundary_seal _ _ _ _) as [b [bytes|e]]; intros [= <- <-]. unfold env. cbn in *. by rewrite Hb.
Qed.

(** [l] are datagrams to [peer], at most [count] of them, and the environment is as before. *)
Definition batch (n : Node) (peer : PeerId) (count : N) (n' : Node) (l : list (RoutedDatagram A)) : Prop :=
  env n' = env n ∧ (len l ≤ count)%N ∧ Forall (sent_to n peer) l.

Lemma batch_nil n peer count : batch n peer count n [].
Proof. split_and!; [done|cbn [length]; lia|constructor]. Qed.
Lemma batch_one n n1 peer count d : env n1 = env n → sent_to n peer d → (1 ≤ count)%N → batch n peer count n1 [d].
Proof. intros He Hd Hc. split_and!; [done|cbn [length]; lia|auto]. Qed.
Lemma batch_cons n n1 n' peer count d l :
  env n1 = env n → sent_to n peer d → (1 ≤ count)%N → batch n1 peer (count - 1) n' l → batch n peer count n' (d :: l).
Proof.
  intros He Hd Hc (He' & Hlen & Hl). split_and!; [congruence| |].
  - cbn [length]. lia.
  - constructor; [done|]. eapply Forall_impl; [exact Hl|]. intros x. by apply env_sent.
Qed.

Lemma yields_fragments n peer id total chunk index slices :
  yields n (fragment_frames nonce wall peer id total chunk index slices) (batch n peer (N.of_nat (length slices))).
Proof.
  revert n index. induction slices as [|s slices IH]; intros n index; cbn [fragment_frames]; [apply yields_ret, batch_nil|].
  destruct (write_fragment _ _ _ _); [|apply yields_fail]. apply yields_bind. eapply yields_mono; [apply yields_routed|].
  intros n1 d [He Hd]. apply yields_bind. eapply yields_mono; [apply IH|]. intros n2 l Hl. apply yields_ret.
  apply (batch_cons n n1); [done..|cbn [length]; lia|]. by replace (N.of_nat (length (s :: slices)) - 1)%N with (N.of_nat (length slices)) by (cbn [length]; lia).
Qed.

Lemma chunks_count (chunk : N) (bytes : list byte) : (0 < chunk)%N → (len (chunks (N.to_nat chunk) bytes) ≤ div_ceil (len bytes) chunk)%N.
Proof.
  intros Hc. apply div_ceil_count; [done|]. pose proof (chunks_fuel_count (length bytes) (N.to_nat chunk) bytes ltac:(lia) ltac:(lia)) as Hk.
  unfold chunks. lia.
Qed.

(** A payload goes out in at most as many datagrams as [required_fragments] counts. *)
Lemma yields_send n peer bytes now count :
  node_ok n → required_fragments (sn_replica n) (len bytes) = Ok count →
  yields n (send_encoded peer bytes now) (batch n peer count).
Proof.
  intros Hok Hreq. apply yields_gets. rewrite Hreq. destruct (N.eqb_spec count 1) as [->|Hne].
  { apply yields_bind. eapply yields_mono; [apply yields_routed|]. intros n1 d [He Hd]. apply yields_ret. by apply batch_one. }
  do 2 apply yields_gets. apply yields_bind.
  apply (yields_mono _ _ (λ n1 _, env n1 = env n)).
  { destruct (selective_recovery _); [|by apply yields_ret]. intros n' []. unfold retain_transfer. intros ([b r] & _ & [= <-])%bind_Some. done. }
  intros n1 [] He. eapply yields_mono; [apply yields_fragments|]. intros n2 l (He' & Hlen & Hl).
  split_and!; [congruence| |eapply Forall_impl; [exact Hl|]; intros x; by apply env_sent].
  etransitivity; [exact Hlen|]. etransitivity; [apply chunks_count; pose proof (no_fragment _ Hok); lia|].
  revert Hreq. unfold required_fragments. rewrite (no_budget _ Hok). destruct (_ <? _)%N; [done|]. destruct (_ <=? _)%N; [congruence|].
  destruct (_ || _); [done|]. by intros [= <-].
Qed.

Lemma required_limit (r : SignedReplica K E C A B) length count :
  (1 ≤ sr_max_frames_per_tick r)%N → required_fragments r length = Ok count → (count ≤ sr_max_frames_per_tick r)%N.
Proof.
  intros Hl. unfold required_fragments. destruct (_ <? _)%N; [done|]. destruct (_ <=? _)%N; [intros [= <-]; done|].
  destruct (_ || _) eqn:Hc; [done|]. intros [= <-]. bool_to_prop. lia.
Qed.

(** Datagrams to confirmed routes, at most [count] of them. *)
Definition on_route (n : Node) (d : RoutedDatagram A) : Prop := ∃ peer, sent_to n peer d.
Definition spread (n : Node) (count : N) (n' : Node) (l : list (RoutedDatagram A)) : Prop :=
  env n' = env n ∧ (len l ≤ count)%N ∧ Forall (on_route n) l.

Lemma env_route n n' l : env n' = env n → Forall (on_route n') l → Forall (on_route n) l.
Proof. intros He Hl. eapply Forall_impl; [exact Hl|]. intros d [p Hp]. exists p. by eapply env_sent. Qed.

Lemma yields_missing n limit sent requests :
  (sent < limit)%N → yields n (missing_frames nonce wall limit sent requests) (spread n (limit - sent)).
Proof.
  revert n sent. induction requests as [|q requests IH]; intros n sent Hs; cbn [missing_frames].
  { apply yields_ret. split_and!; [done|cbn [length]; lia|constructor]. }
  apply yields_gets. destruct (negb _); [by apply IH|]. destruct (write_missing_report _ _) as [frame|]; [|apply yields_fail].
  apply yields_bind. eapply yields_mono; [apply yields_routed|]. intros n1 d [He Hd]. assert (Hr : on_route n d) by (by exists (mr_peer q)).
  destruct (N.leb_spec limit (sent + 1)).
  { apply yields_ret. split_and!; [done|cbn [length]; lia|auto]. }
  apply yields_bind. eapply yields_mono; [apply IH; lia|]. intros n2 l (He' & Hlen & Hl). apply yields_ret.
  split_and!; [congruence|cbn [length]; lia|]. constructor; [done|]. by eapply env_route.
Qed.

Lemma yields_retry n now : node_ok n → yields n (retry_missing nonce wall now) (spread n (sr_max_frames_per_tick (sn_replica n))).
Proof.
  intros Hok. apply yields_gets. destruct (negb _).
  { apply yields_ret. split_and!; [done|cbn [length]; lia|constructor]. }
  apply yields_bind. intros n1 requests. unfold poll_requests. destruct (poll_idle_missing _ _ _ _ _ _) as [ra q]. intros [= <- <-].
  apply yields_gets. eapply yields_mono; [apply yields_missing|].
  - pose proof (no_limit _ Hok). cbn. lia.
  - intros n2 l (He & Hlen & Hl). split_and!; [done| |exact Hl]. cbn in Hlen. lia.
Qed.

Lemma yields_resend_frames n peer id total limit sent pieces :
  (sent < limit)%N → yields n (resend_frames nonce wall peer id total limit sent pieces) (batch n peer (limit - sent)).
Proof.
  revert n sent. induction pieces as [|[o piece] pieces IH]; intros n sent Hs; cbn [resend_frames]; [apply yields_ret, batch_nil|].
  destruct (write_fragment _ _ _ _) as [frame|]; [|apply yields_fail].
  apply yields_bind. eapply yields_mono; [apply yields_routed|]. intros n1 d [He Hd].
  destruct (N.leb_spec limit (sent + 1)); [apply yields_ret, batch_one; auto; lia|].
  apply yields_bind. eapply yields_mono; [apply IH; lia|]. intros n2 l Hl. apply yields_ret.
  apply (batch_cons n n1); [done..|lia|]. by replace (limit - sent - 1)%N with (limit - (sent + 1))%N by lia.
Qed.

Lemma yields_resend n peer id ranges now :
  node_ok n → yields n (resend_missing nonce wall peer id ranges now) (batch n peer (sr_max_frames_per_tick (sn_replica n))).
Proof.
  intros Hok. apply yields_bind. intros n1 transfer. unfold grant. destruct (payload_for_report _ _ _ _ _) as [b t]. intros [= <- <-].
  destruct t as [t|]; [|apply yields_ret; split_and!; [done|cbn [length]; lia|constructor]]. do 2 apply yields_gets.
  eapply yields_mono; [apply yields_resend_frames; pose proof (no_limit _ Hok); cbn; lia|].
  intros n2 l (He & Hlen & Hl). split_and!; [done| |done]. cbn in Hlen. lia.
Qed.

Lemma yields_encode {Y} n message (k : list byte → Act Y) Q :
  (∀ bytes, yields n (k bytes) Q) → yields n (encode serialize message ≫= k) Q.
Proof.
  intros Hk. apply yields_bind. unfold encode. destruct (serialize message) as [bytes|e]; [by apply yields_ret|apply yields_fail].
Qed.

Lemma yields_serve n0 n now peers outgoing :
  node_ok n → spread n0 (sr_max_frames_per_tick (sn_replica n)) n outgoing →
  yields n (serve_peers blake3_hash nonce wall serialize now peers outgoing) (spread n0 (sr_max_frames_per_tick (sn_replica n))).
Proof.
  revert n outgoing. induction peers as [|peer peers IH]; intros n outgoing Hok Hout; cbn [serve_peers]; [by apply yields_ret|].
  apply yields_gets. destruct (next_entry _ _) as [[key entry]|]; [|by apply yields_ret].
  apply yields_encode. intros encoded. apply yields_gets. destruct (required_fragments _ _) as [frames|e] eqn:Hreq; [|apply yields_fail].
  apply yields_gets. destruct (N.ltb_spec (sr_max_frames_per_tick (sn_replica n)) (saturating_add (len outgoing) frames)) as [|Hle]; [by apply yields_ret|].
  apply yields_bind. eapply yields_mono; [by apply yields_send|]. intros n1 l (He & Hlen & Hl).
  apply yields_bind. intros n2 [] Hset. pose proof (no_limit _ Hok) as Hlim.
  assert (He2 : env n2 = env n) by (by injection Hset as <-). clear Hset.
  assert (Hlim1 : sr_max_frames_per_tick (sn_replica n2) = sr_max_frames_per_tick (sn_replica n)) by (unfold env in He2; congruence).
  rewrite <- Hlim1. destruct Hout as (He0 & Hlen0 & Hl0).
  apply IH; [by apply (env_ok n)|]. split_and!; [congruence| |].
  - rewrite length_app, Hlim1. assert (8192 < usize_max)%N by (vm_compute; reflexivity). unfold saturating_add in Hle. lia.
  - apply Forall_app. split; [done|]. apply (env_route n0 n); [congruence|]. eapply Forall_impl; [exact Hl|]. intros d Hd. by exists peer.
Qed.

Lemma yields_reconcile n now :
  node_ok n → yields n (reconcile now) (spread n (sr_max_frames_per_tick (sn_replica n))).
Proof.
  intros Hok. apply yields_bind. intros n1 [] [= <-]. set (n1 := set_recovery _ _).
  assert (Hok1 : node_ok n1) by (by apply (env_ok n)).
  apply yields_bind. eapply yields_mono; [by apply yields_retry|]. intros n2 out Hout.
  assert (Hs : spread n (sr_max_frames_per_tick (sn_replica n)) n2 out) by exact Hout.
  assert (He : env n2 = env n) by apply Hs. assert (Hlim : sr_max_frames_per_tick (sn_replica n2) = sr_max_frames_per_tick (sn_replica n)) by (unfold env in He; congruence).
  apply yields_gets. destruct (sr_read_only _); [by apply yields_ret|]. apply yields_gets.
  destruct (_ <=? _)%N; [by apply yields_ret|]. do 2 apply yields_gets. destruct (_ || _); [by apply yields_ret|].
  apply yields_gets, yields_bind. intros n3 [] [= <-]. rewrite <- Hlim in Hs |- *.
  apply (yields_serve n (set_index n2 _)); [by apply (env_ok n)|exact Hs].
Qed.

Lemma open_budget b d ps w : payload_budget (boundary_open b d ps w).1 = payload_budget b.
Proof.
  unfold boundary_open. destruct (envelope_open _ _ _) as [e|]; [|done].
  destruct (authenticate _ _) as [v|]; [|done]. destruct (ps (ae_peer v)) as [known count].
  destruct (_ && _); [done|]. by destruct (envelope_verify_replay _ _ _).
Qed.

Lemma probe_answers (s : SignedPeerRoutes A) b non ch w peer source now :
  let '(_, b', res) := start_probe s b non ch w peer source now in
  payload_budget b' = payload_budget b ∧ ∀ d, res = Ok (Some d) → rd_destination d = source.
Proof.
  unfold start_probe. case_bool_decide; [done|]. destruct (_ && _); [done|].
  pose proof (seal_budget b non w (encode_control CHALLENGE peer ch)) as Hb.
  destruct (boundary_seal _ _ _ _) as [b' [bytes|e]]; cbn in *; split; try done. by intros d [= <-].
Qed.

(** Whatever the route layer answers goes to the source it heard. *)
Definition answers_to (st : RouteState A) (source : A) (inbound : SignedRouteReceive (A := A)) : Prop :=
  match inbound with
  | Framed peer _ | Recovery peer _ => route (rs_routes st) peer = Some source
  | Probing _ challenge => ∀ d, challenge = Some d → rd_destination d = source
  | Reply d => rd_destination d = source
  | Confirmed _ | Ignored => True
  end.

Lemma route_answers (st : RouteState A) non ch w d source ps now st' res :
  receive blake3_hash st non ch w d source ps now = Some (st', res) →
  payload_budget (rs_boundary st') = payload_budget (rs_boundary st) ∧ ∀ inbound, res = Ok inbound → answers_to st' source inbound.
Proof.
  unfold receive. pose proof (open_budget (rs_boundary st) d ps w) as Hb.
  destruct (boundary_open (rs_boundary st) d ps w) as [b [rc|e]]; cbn [fst] in Hb; [|by intros [= <- <-]].
  case_bool_decide.
  { destruct (parse_control _) as [[recipient non_in]|]; [|intros [= <- <-]; split; [done|by intros ? [= <-]]].
    case_bool_decide; [intros [= <- <-]; split; [done|by intros ? [= <-]]|].
    pose proof (seal_budget b non w (encode_control RESPONSE (rc_peer rc) non_in)) as Hs.
    destruct (boundary_seal _ _ _ _) as [b' [bytes|e]]; intros [= <- <-]; cbn in *; (split; [congruence|]); by intros ? [= <-]. }
  case_bool_decide.
  { destruct (parse_control _) as [[? ?]|]; [|intros [= <- <-]; split; [done|by intros ? [= <-]]].
    case_bool_decide; [|destruct (negb _)]; intros [= <- <-]; (split; [done|]); by intros ? [= <-]. }
  case_bool_decide as Hr.
  { destruct (is_recovery_tag _).
    - destruct (parse_recovery_control _ _) as [[control|]|]; intros [= <- <-]; (split; [done|]); by intros ? [= <-].
    - intros ([ra rep'] & Ha & [= <- <-])%bind_Some. split; [done|]. by intros ? [= <-]. }
  pose proof (probe_answers (rs_routes st) b non ch w (rc_peer rc) source now) as Hp.
  destruct (start_probe _ _ _ _ _ _ _ _) as [[s' b'] [c|e]]; intros [= <- <-]; destruct Hp as [Hp Hd]; cbn; (split; [congruence|]); [|done].
  intros ? [= <-]. intros x ->. by apply Hd.
Qed.

(** Answers to [source], at most [count] of them. *)
Definition replies (source : A) (count : N) (l : list (RoutedDatagram A)) : Prop :=
  (len l ≤ count)%N ∧ Forall (λ d, rd_destination d = source) l.

Lemma batch_replies n peer source count n' l :
  route (sr_routes (sn_replica n)) peer = Some source → batch n peer count n' l → replies source count l.
Proof.
  intros Hr (_ & Hlen & Hl). split; [done|]. eapply Forall_impl; [exact Hl|]. intros d Hd. unfold sent_to in Hd. congruence.
Qed.

Lemma apply_remote_env (r : SignedReplica K E C A B) peer key entry :
  let r' := (apply_remote_entry r peer key entry).1 in
  sr_routes r' = sr_routes r ∧ sr_framing r' = sr_framing r ∧ sr_payload_budget r' = sr_payload_budget r ∧
  sr_max_frames_per_tick r' = sr_max_frames_per_tick r.
Proof.
  unfold apply_remote_entry. destruct (negb _); [done|]. cbn [fst].
  by destruct (match sr_entries _ !! key with Some _ => _ | None => _ end).
Qed.

Lemma yields_handle n peer source message now :
  node_ok n → route (sr_routes (sn_replica n)) peer = Some source →
  yields n (handle_verified_message blake3_hash nonce wall serialize peer message now)
    (λ _ reply, replies source (sr_max_frames_per_tick (sn_replica n)) (default [] reply)).
Proof.
  intros Hok Hr. assert (Hnil : replies source (sr_max_frames_per_tick (sn_replica n)) []) by (split; [cbn [length]; lia|constructor]).
  destruct message as [|key entry|key version]; cbn [handle_verified_message]; [by apply yields_ret| |by intros n' reply [= <- <-]].
  apply yields_gets. destruct (negb _); [by apply yields_ret|]. apply yields_bind. intros n1 v.
  destruct (apply_remote_env (sn_replica n) peer key entry) as (Er & Ef & Eb & El).
  destruct (apply_remote_entry _ _ _ _) as [r v']. cbn [fst] in *. intros [= <- <-].
  assert (He : env (set_replica n r) = env n) by (unfold env; cbn; congruence).
  apply yields_gets. destruct (sr_read_only _); [by apply yields_ret|]. destruct v' as [version|]; [|by apply yields_ret].
  apply yields_bind. apply yields_encode. intros bytes.
  destruct (required_fragments (sn_replica (set_replica n r)) (len bytes)) as [count|e] eqn:Hreq.
  - pose proof (env_ok _ _ He Hok) as Hok'. eapply yields_mono; [by apply yields_send|]. intros n2 l Hl. apply yields_ret. cbn [default from_option].
    apply (batch_replies _ _ source) in Hl as [Hlen Hl]; [|cbn; congruence]. split; [|done].
    apply required_limit in Hreq; [|apply (no_limit _ Hok')]. cbn in Hreq. cbn. lia.
  - apply yields_gets. rewrite Hreq. apply yields_fail.
Qed.

Lemma yields_message n peer source report now :
  node_ok n → route (sr_routes (sn_replica n)) peer = Some source →
  yields n (receive_message blake3_hash nonce wall serialize deserialize peer report now)
    (λ _ l, replies source (sr_max_frames_per_tick (sn_replica n) + 1) l).
Proof.
  intros Hok Hr. unfold receive_message.
  destruct (outcome report) as [[bytes| |]|]; try (apply yields_ret; split; [cbn [length]; lia|constructor]).
  destruct (deserialize bytes) as [message|]; [|apply yields_ret; split; [cbn [length]; lia|constructor]].
  apply yields_bind, (yields_mono _ _ (batch n peer 1)).
  { destruct (fragment_received report); [|apply yields_ret, batch_nil].
    apply yields_bind. eapply yields_mono; [apply yields_routed|]. intros n1 d [He Hd]. apply yields_ret. by apply batch_one. }
  intros n1 responses Hb. assert (He : env n1 = env n) by apply Hb. apply (batch_replies _ _ source) in Hb as [Hlen Hl]; [|done].
  assert (Hr1 : route (sr_routes (sn_replica n1)) peer = Some source) by (unfold env in He; congruence).
  apply yields_bind. eapply yields_mono; [apply (yields_handle _ _ source); [by apply (env_ok n)|done]|].
  intros n2 reply [Hlen' Hl']. apply yields_ret. split; [|by apply Forall_app].
  assert (sr_max_frames_per_tick (sn_replica n1) = sr_max_frames_per_tick (sn_replica n)) by (unfold env in He; congruence).
  rewrite length_app. lia.
Qed.

Lemma yields_receive n source datagram now :
  node_ok n → yields n (node_receive source datagram now) (λ _ l, replies source (sr_max_frames_per_tick (sn_replica n) + 1) l).
Proof.
  intros Hok. apply yields_bind. intros n1 result. unfold route_receive.
  intros ([st res] & Hrec%route_answers & [= <- <-])%bind_Some. destruct Hrec as [Hb Ha]. cbn [rs_boundary] in Hb.
  set (n1 := set_reassembler _ _). assert (Hok1 : node_ok n1).
  { destruct Hok as [Hb1 Hf Hl]. constructor; cbn; rewrite ?Hb; done. }
  assert (Hnil : replies source (sr_max_frames_per_tick (sn_replica n) + 1) []) by (split; [cbn [length]; lia|constructor]).
  destruct res as [inbound|e]; [|by apply yields_ret]. specialize (Ha _ eq_refl).
  destruct inbound as [peer report|peer ch|d|peer|peer [id ranges|id]|]; cbn in Ha.
  - by apply (yields_message n1).
  - apply yields_ret. destruct ch as [d|]; [|done]. split; [cbn; lia|]. constructor; [by apply Ha|constructor].
  - apply yields_ret. split; [cbn; lia|]. constructor; [done|constructor].
  - by intros n' l [= <- <-].
  - eapply yields_mono; [by apply yields_resend|]. intros n2 l Hl. apply (batch_replies _ _ source) in Hl as [Hlen Hl]; [|done].
    split; [|done]. cbn in Hlen. cbn. lia.
  - by intros n' l [= <- <-].
  - by apply yields_ret.
Qed.

(** ** The cursor *)

(** The entries that [count] servings from [cursor] send. *)
Fixpoint servings (entries : list (K * E)) (count : nat) (cursor : option K) : list (K * E) :=
  match count with
  | 0 => []
  | Datatypes.S count =>
      match next_entry entries cursor with
      | Some ke => ke :: servings entries count (Some ke.1)
      | None => []
      end
  end.

Lemma find_filter {X} (f : X → bool) (l : list X) : find f l = head (filter (λ x, f x = true) l).
Proof. induction l as [|x l IH]; [done|]. cbn [find]. rewrite filter_cons. destruct (f x); [done|]. by rewrite decide_False. Qed.

Lemma next_entry_range (entries : list (K * E)) cursor :
  next_entry entries cursor = match head (range_after entries cursor) with Some ke => Some ke | None => head entries end.
Proof.
  unfold next_entry, range_after. destruct cursor as [last|]; [by rewrite find_filter|]. by destruct entries.
Qed.

Lemma range_suffix (entries : list (K * E)) cursor : StronglySorted entry_lt entries → ∃ before, entries = before ++ range_after entries cursor.
Proof.
  intros Hs. destruct cursor as [last|]; [|by exists []]. cbn [range_after].
  induction Hs as [|x entries Hs [before IH] Hx]; [by exists []|]. rewrite filter_cons. case_decide as Hlt.
  - exists []. cbn. f_equal. symmetry. apply filter_all. intros y Hy. rewrite Forall_forall in Hx.
    apply (ord_leb_ltb_trans _ x.1); [by apply ord_ltb_leb|by apply Hx].
  - exists (x :: before). cbn. by f_equal.
Qed.

Lemma servings_range entries count cursor before after :
  StronglySorted entry_lt entries → entries = before ++ after → range_after entries cursor = after → count ≤ length after →
  servings entries count cursor = take count after.
Proof.
  intros Hs. revert cursor before after. induction count as [|count IH]; intros cursor before after He Hr Hc; [done|].
  destruct after as [|[k e] after]; cbn in Hc; [lia|]. cbn [servings]. rewrite next_entry_range, Hr. cbn [head take fst]. f_equal.
  apply (IH _ (before ++ [(k, e)])); [by rewrite <- (assoc_L (++))| |lia]. subst entries. by apply range_after_last.
Qed.

Lemma servings_app entries a b cursor :
  entries ≠ [] → ∃ cursor', (cursor' = match last (servings entries a cursor) with Some ke => Some ke.1 | None => cursor end) ∧
    servings entries (a + b) cursor = servings entries a cursor ++ servings entries b cursor'.
Proof.
  intros Hne. revert cursor. induction a as [|a IH]; intros cursor; [by exists cursor|]. cbn [servings Nat.add].
  destruct (next_entry entries cursor) as [ke|] eqn:Hn.
  - destruct (IH (Some ke.1)) as (c & -> & Heq). eexists. split; [done|]. cbn [app]. f_equal. rewrite Heq. f_equal.
    destruct (servings entries a (Some ke.1)) as [|y l] eqn:Hl; [done|]. rewrite last_cons_cons.
    destruct (last (y :: l)) eqn:Hlast; [done|]. by apply last_None in Hlast.
  - exfalso. revert Hn. rewrite next_entry_range. by destruct (head _), entries.
Qed.

Lemma servings_wrap entries count cursor :
  StronglySorted entry_lt entries → range_after entries cursor = [] → count ≤ length entries → servings entries count cursor = take count entries.
Proof.
  intros Hs Hr Hc. destruct count as [|count]; [done|]. destruct entries as [|[k e] entries]; cbn in Hc; [lia|].
  cbn [servings]. rewrite next_entry_range, Hr. cbn [head take fst]. f_equal.
  apply (servings_range _ _ _ [(k, e)]); [done|done| |lia]. by apply (range_after_last []).
Qed.

(** As many servings as there are entries visit each of them once: the rest after the cursor, then the beginning. *)
Lemma servings_cycle entries cursor :
  StronglySorted entry_lt entries → servings entries (length entries) cursor ≡ₚ entries.
Proof.
  intros Hs. destruct (decide (entries = [])) as [->|Hne]; [done|]. destruct (range_suffix entries cursor Hs) as [before He].
  remember (range_after entries cursor) as after eqn:Ha.
  assert (Hlen : length entries = length after + length before) by (rewrite He, length_app; lia).
  destruct (servings_app entries (length after) (length before) cursor Hne) as (c & Hc & Heq).
  rewrite Hlen, Heq. pose proof (servings_range entries (length after) cursor before after Hs He (eq_sym Ha) ltac:(done)) as Hafter.
  rewrite firstn_all in Hafter. rewrite Hafter in *.
  rewrite (servings_wrap _ _ c Hs); [|subst c|lia].
  - rewrite He at 2. rewrite He, take_app_length. apply (comm (++)).
  - destruct (last after) as [[k e]|] eqn:Hl; [|apply last_None in Hl; congruence].
    apply last_Some in Hl as [front ->]. rewrite (assoc_L (++)) in He. rewrite He in Hs |- *. by apply range_after_last.
Qed.

(** ** Progress of the ticks *)

Definition frozen (n : Node) := (env n, sr_entries (sn_replica n), sr_read_only (sn_replica n)).
Lemma frozen_inv n n' : frozen n' = frozen n →
  env n' = env n ∧ sr_entries (sn_replica n') = sr_entries (sn_replica n) ∧ sr_read_only (sn_replica n') = sr_read_only (sn_replica n).
Proof. unfold frozen. intros Hf. split_and!; congruence. Qed.
Definition cursor_of (n : Node) (peer : PeerId) : option K := mjoin (sr_cursors (sn_replica n) !! peer).

(** [out] has every datagram of an update of entry [ke], sent to [peer] on the routes of [n]. *)
Definition carries (n : Node) (peer : PeerId) (out : list (RoutedDatagram A)) (ke : K * E) : Prop :=
  ∃ bytes now n1 n2 sent, serialize (Update ke.1 ke.2) = Ok bytes ∧ env n1 = env n ∧
    send_encoded peer bytes now n1 = Some (n2, Ok sent) ∧ sent ⊆ out.

(** From cursor [c] to [c'], [out] carries the next [served] entries to [peer]. *)
Record advances (n : Node) (peer : PeerId) (c : option K) (out : list (RoutedDatagram A)) (c' : option K) (served : list (K * E)) : Prop := {
  ad_served : served = servings (ordered_entries (sr_entries (sn_replica n))) (length served) c;
  ad_cursor : c' = match last served with Some ke => Some ke.1 | None => c end;
  ad_carried : Forall (carries n peer out) served;
}.

Lemma advances_none n peer c out : advances n peer c out c [].
Proof. by constructor. Qed.

Lemma carries_mono n n' peer out out' ke : env n' = env n → out ⊆ out' → carries n' peer out ke → carries n peer out' ke.
Proof. intros He Hsub (bytes & now & n1 & n2 & sent & Hs & He1 & Hsend & Hin). exists bytes, now, n1, n2, sent. split_and!; [done|congruence|done|set_solver]. Qed.

Lemma advances_app n n1 peer c out c1 served out' c2 served' out'' :
  frozen n1 = frozen n → sr_entries (sn_replica n) ≠ ∅ → out ⊆ out'' → out' ⊆ out'' →
  advances n peer c out c1 served → advances n1 peer c1 out' c2 served' → advances n peer c out'' c2 (served ++ served').
Proof.
  intros Hf Hne Hsub Hsub' [Hs Hc Hd] [Hs' Hc' Hd']. destruct (frozen_inv _ _ Hf) as (He & Hent & _). rewrite Hent in Hs'.
  assert (Hl : ordered_entries (sr_entries (sn_replica n)) ≠ []).
  { intros Hnil. apply Hne, map_to_list_empty_iff, Permutation_nil. by rewrite <- Hnil, <- ordered_perm. }
  destruct (servings_app _ (length served) (length served') c Hl) as (c3 & Hc3 & Heq). rewrite <- Hs, <- Hc in Hc3. subst c3.
  constructor.
  - rewrite length_app, Heq. congruence.
  - rewrite last_app. subst c2 c1. by destruct (last served').
  - apply Forall_app. split; (eapply Forall_impl; [eassumption|]); intros ke; by apply carries_mono.
Qed.

(** What serving some peers does for [peer]. *)
Definition serving (n : Node) (peer : PeerId) (outgoing : list (RoutedDatagram A)) (due : Prop) (n' : Node) (out : list (RoutedDatagram A)) : Prop :=
  frozen n' = frozen n ∧ sn_next_peer_index n' = sn_next_peer_index n ∧ outgoing ⊆ out ∧
  ∃ served, advances n peer (cursor_of n peer) out (cursor_of n' peer) served ∧ (due → served ≠ []).

Lemma serving_none n peer outgoing (due : Prop) : ¬ due → serving n peer outgoing due n outgoing.
Proof. intros Hdue. split_and!; [done..|]. exists []. split; [apply advances_none|done]. Qed.

(** One peer's turn. *)
Lemma turn_advances n p key entry bytes now n1 sent n2 peer :
  node_ok n → next_entry (ordered_entries (sr_entries (sn_replica n))) (cursor_of n p) = Some (key, entry) →
  serialize (Update key entry) = Ok bytes → send_encoded p bytes now n = Some (n1, Ok sent) → set_cursor p key n1 = Some (n2, Ok ()) →
  node_ok n2 ∧ serving n peer [] (p = peer) n2 sent.
Proof.
  intros Hok Hnext Hser Hsend Hset.
  assert (Hreq : ∃ count, required_fragments (sn_replica n) (len bytes) = Ok count).
  { revert Hsend. unfold SignedNetwork.send_encoded. intros [(n3 & req & [= <- <-] & Hk)|(e & ? & ?)]%bind_inv; [|done].
    destruct (required_fragments _ _) as [count|e]; [by exists count|done]. }
  destruct Hreq as [count Hreq]. pose proof (yields_send n p bytes now count Hok Hreq _ _ Hsend) as (He & _ & _).
  pose proof (keeps_send _ _ _ _ _ _ Hsend) as [= Hrep Hidx]. injection Hset as <-.
  assert (Hf : frozen (set_replica n1 (set_routes (sn_replica n1) (sr_routes (sn_replica n1)) (<[p:=Some key]> (sr_cursors (sn_replica n1))))) = frozen n).
  { unfold frozen. by rewrite <- He, <- Hrep. }
  split; [apply (env_ok n); [by apply frozen_inv in Hf as [? _]|done]|]. split_and!; [done|done|apply list_subseteq_nil|].
  unfold cursor_of at 2. cbn [sn_replica set_replica sr_cursors set_routes]. rewrite Hrep. destruct (decide (p = peer)) as [->|Hne].
  - rewrite lookup_insert_eq. exists [(key, entry)]. split; [|done]. constructor; [| done|].
    + cbn [length servings]. by rewrite Hnext.
    + constructor; [|constructor]. by exists bytes, now, n, n1, sent.
  - rewrite lookup_insert_ne by done. exists []. split; [apply advances_none|done].
Qed.

(** After [count] datagrams the tick has room for any of the entries. *)
Definition room (n : Node) (count : N) : Prop := ∀ key entry bytes frames,
  sr_entries (sn_replica n) !! key = Some entry → serialize (Update key entry) = Ok bytes →
  required_fragments (sn_replica n) (len bytes) = Ok frames → (count + frames ≤ sr_max_frames_per_tick (sn_replica n))%N.

Lemma room_none n : node_ok n → room n 0.
Proof. intros Hok key entry bytes frames _ _ Hreq. apply required_limit in Hreq; [lia|apply (no_limit _ Hok)]. Qed.

Lemma room_frozen n n' count : frozen n' = frozen n → room n count → room n' count.
Proof.
  intros (He & Hent & _)%frozen_inv Hr key entry bytes frames. unfold env in He. injection He as _ Hf Hb Hl _. unfold required_fragments. rewrite Hent, Hf, Hb, Hl.
  apply Hr.
Qed.

Lemma next_entry_in (l : list (K * E)) cursor ke : next_entry l cursor = Some ke → ke ∈ l.
Proof.
  unfold next_entry. destruct (find _ l) as [x|] eqn:Hf; [intros [= <-]; by apply find_some in Hf as [?%list_elem_of_In _]|].
  destruct l; [done|]. intros [= <-]. left.
Qed.

Lemma serve_advances n now peers outgoing peer :
  node_ok n → sr_entries (sn_replica n) ≠ ∅ →
  yields n (serve_peers blake3_hash nonce wall serialize now peers outgoing) (serving n peer outgoing (room n (len outgoing) ∧ head peers = Some peer)).
Proof.
  revert n outgoing. induction peers as [|p peers IH]; intros n outgoing Hok Hne; cbn [serve_peers].
  { apply yields_ret, serving_none. by intros [_ ?]. }
  apply yields_gets. change (mjoin (sr_cursors (sn_replica n) !! p)) with (cursor_of n p).
  destruct (next_entry _ _) as [[key entry]|] eqn:Hnext.
  2:{ exfalso. apply Hne, map_to_list_empty_iff, Permutation_nil. rewrite <- ordered_perm. revert Hnext.
      rewrite next_entry_range. destruct (head (range_after _ _)); [done|]. by destruct (ordered_entries _). }
  unfold encode. destruct (serialize (Update key entry)) as [bytes|e] eqn:Hser; [|by apply yields_bind, yields_fail].
  apply yields_bind, yields_ret, yields_gets. destruct (required_fragments _ _) as [frames|e] eqn:Hreq; [|apply yields_fail].
  apply yields_gets. destruct (N.ltb_spec (sr_max_frames_per_tick (sn_replica n)) (saturating_add (len outgoing) frames)) as [Hlt|_].
  { apply yields_ret, serving_none. intros [Hroom _]. apply next_entry_in in Hnext. rewrite ordered_perm in Hnext. apply elem_of_map_to_list in Hnext.
    specialize (Hroom _ _ _ _ Hnext Hser Hreq). pose proof (no_limit _ Hok). assert (8192 < usize_max)%N by (vm_compute; reflexivity).
    unfold saturating_add in Hlt. lia. }
  apply yields_bind. intros n1 sent Hsend. apply yields_bind. intros n2 [] Hset.
  destruct (turn_advances n p key entry bytes now n1 sent n2 peer Hok Hnext Hser Hsend Hset) as (Hok2 & Hf & Hi & _ & served & Had & Hdue).
  destruct (frozen_inv _ _ Hf) as (He & Hent & Hro). eapply yields_mono; [apply IH; [done|by rewrite Hent]|].
  intros n3 out (Hf3 & Hi3 & Hsub & served' & Had' & _). split_and!; [congruence|congruence|set_solver|].
  exists (served ++ served'). split; [eapply (advances_app n n2 peer _ sent _ _ out); [exact Hf|exact Hne|set_solver|done|exact Had|exact Had']|].
  intros [_ [= ->]] [Hnil _]%app_nil. by apply Hdue.
Qed.

Lemma rotate_head {X} (i : nat) (l : list X) : i < length l → head (rotate_left i l) = l !! i.
Proof.
  intros Hi. unfold rotate_left. destruct (drop i l) as [|x r] eqn:Hd.
  - apply (f_equal length) in Hd. rewrite length_drop in Hd. cbn in Hd. lia.
  - cbn. rewrite <- (Nat.add_0_r i), <- lookup_drop, Hd. done.
Qed.

(** The peer the tick starts with. *)
Definition first_peer (n : Node) : option PeerId :=
  let peers := confirmed_peers (sr_routes (sn_replica n)) in
  peers !! N.to_nat (sn_next_peer_index n mod len peers)%N.

(** The tick first asks for missing fragments, of at most 16 transfers. *)
Lemma missing_count n limit sent requests :
  yields n (missing_frames nonce wall limit sent requests) (λ _ out, (len out ≤ len requests)%N).
Proof.
  revert n sent. induction requests as [|q requests IH]; intros n sent; cbn [missing_frames]; [by apply yields_ret|].
  apply yields_gets. destruct (negb _); [eapply yields_mono; [apply IH|]; intros n1 l; cbn beta; cbn [length]; lia|].
  destruct (write_missing_report _ _) as [frame|]; [|apply yields_fail]. apply yields_bind. eapply yields_mono; [apply yields_routed|]. intros n1 d _.
  destruct (_ <=? _)%N; [apply yields_ret; cbn [length]; lia|]. apply yields_bind. eapply yields_mono; [apply IH|]. intros n2 l Hl. apply yields_ret. cbn [length]. cbn beta in Hl. lia.
Qed.

Lemma retry_count n now : yields n (retry_missing nonce wall now)
  (λ _ out, (len out ≤ if selective_recovery (sr_framing (sn_replica n)) then 16 else 0)%N).
Proof.
  apply yields_gets. destruct (selective_recovery _); cbn [negb]; [|by apply yields_ret].
  apply yields_bind. intros n1 requests. unfold poll_requests, poll_idle_missing. set (m := max_missing_ranges_for_budget _ _ _).
  assert (Hend : ∀ n1 (l : list (MissingRequest PeerId)), (len l ≤ 16)%N →
    yields n1 (limit ← gets (λ n, sr_max_frames_per_tick (sn_replica n)); missing_frames nonce wall limit 0 l) (λ _ out, (len out ≤ 16)%N)).
  { intros n2 l Hl. apply yields_gets. eapply yields_mono; [apply missing_count|]. intros n3 out Hout. cbn beta in Hout |- *. lia. }
  destruct (m =? 0)%N; [intros [= <- <-]; by apply Hend|]. cbn [N.eqb]. set (l := merge_sort _ _).
  pose proof (poll_loop_bound (sn_reassembler n) now m 16 l [] ltac:(done)) as Hb. destruct (poll_loop _ _ _ _ _ _) as [ra qs]. intros [= <- <-]. by apply Hend.
Qed.

(** What the requests for missing fragments leave of a tick is enough for any entry. *)
Definition roomy (n : Node) : Prop :=
  selective_recovery (sr_framing (sn_replica n)) = false ∨ (16 < sr_max_frames_per_tick (sn_replica n))%N ∧ room n 16.

Lemma roomy_frozen n n' : frozen n' = frozen n → roomy n → roomy n'.
Proof.
  intros Hf Hr. assert (Hr' : room n 16 → room n' 16) by (by apply room_frozen). destruct (frozen_inv _ _ Hf) as (He & _). unfold env in He.
  destruct Hr as [Hs|[Hl Hr]]; [left; congruence|right; split; [congruence|auto]].
Qed.

Lemma tick_advances n now peer :
  node_ok n → sr_entries (sn_replica n) ≠ ∅ → sr_read_only (sn_replica n) = false → roomy n →
  confirmed_peers (sr_routes (sn_replica n)) ≠ [] →
  yields n (reconcile now) (λ n' out, frozen n' = frozen n ∧ sn_next_peer_index n' = wrapping_add64 (sn_next_peer_index n) 1 ∧
    ∃ served, advances n peer (cursor_of n peer) out (cursor_of n' peer) served ∧ (first_peer n = Some peer → served ≠ [])).
Proof.
  intros Hok Hne Hro Hroom Hpeers. apply yields_bind. intros n1 [] [= <-]. set (n1 := set_recovery _ _).
  apply yields_bind. intros n2 asked Hretry. pose proof (keeps_retry _ _ _ _ Hretry) as [= Hrep Hidx].
  pose proof (retry_count n1 now n2 asked Hretry) as Hcount.
  pose proof (yields_retry n1 now (env_ok n n1 eq_refl Hok) n2 asked Hretry) as (He & _ & _).
  assert (Hf : frozen n2 = frozen n) by (unfold frozen; rewrite Hrep, He; done).
  change (sn_replica n1) with (sn_replica n) in *. clear Hretry.
  apply yields_gets. rewrite Hrep, Hro. apply yields_gets. rewrite Hrep.
  destruct (N.leb_spec (sr_max_frames_per_tick (sn_replica n)) (len asked)) as [Hle|_].
  { exfalso. pose proof (no_limit _ Hok). destruct Hroom as [Hs|[? _]]; [rewrite Hs in Hcount; lia|]. destruct (selective_recovery _); lia. }
  do 2 apply yields_gets. rewrite Hrep, (bool_decide_eq_false_2 _ Hpeers), (bool_decide_eq_false_2 _ Hne). cbn [orb].
  apply yields_gets, yields_bind. intros n3 [] [= <-]. rewrite Hidx. set (n3 := set_index n2 _).
  assert (Hf3 : frozen n3 = frozen n) by exact Hf.
  eapply yields_mono; [apply (serve_advances n3 now _ asked peer); [by apply (env_ok n); [apply frozen_inv in Hf3 as [? _]|]|by destruct (frozen_inv _ _ Hf3) as (_ & -> & _)]|].
  intros n4 out (Hf4 & Hi & _ & served & Had & Hdue). split; [congruence|]. split; [by rewrite Hi|].
  assert (Hcur : cursor_of n3 peer = cursor_of n peer) by (unfold cursor_of, n3; cbn; by rewrite Hrep). rewrite Hcur in Had.
  exists served. split.
  { destruct Had as [Hs Hc Hca]. destruct (frozen_inv _ _ Hf3) as (He3 & Hent & _). constructor; [by rewrite Hent in Hs|done|].
    eapply Forall_impl; [exact Hca|]. intros ke. by apply carries_mono. }
  intros Hfirst. apply Hdue. split.
  - apply (room_frozen n); [done|]. intros key entry bytes frames Hk Hser Hreq. destruct Hroom as [Hs|[_ Hr]].
    + rewrite Hs in Hcount. pose proof (room_none n Hok key entry bytes frames Hk Hser Hreq). lia.
    + pose proof (Hr key entry bytes frames Hk Hser Hreq). destruct (selective_recovery _); lia.
  - rewrite rotate_head; [exact Hfirst|].
    assert (0 < length (confirmed_peers (sr_routes (sn_replica n)))) by (destruct (confirmed_peers _); [done|cbn; lia]).
    pose proof (N.mod_lt (sn_next_peer_index n) (len (confirmed_peers (sr_routes (sn_replica n)))) ltac:(lia)). cbn. lia.
Qed.

(** ** Runs of ticks *)

Fixpoint run_ticks (nows : list N) : Act (list (RoutedDatagram A)) :=
  match nows with
  | [] => mret []
  | now :: nows => out ← reconcile now; rest ← run_ticks nows; mret (out ++ rest)
  end.

(** How many of the [count] indices from [index] on are [pos] modulo [modulus]. *)
Fixpoint hits (modulus pos index : N) (count : nat) : nat :=
  match count with
  | 0 => 0
  | Datatypes.S count => (if (index mod modulus =? pos)%N then 1 else 0) + hits modulus pos (index + 1) count
  end.

Lemma hits_add modulus pos index a b : hits modulus pos index (a + b) = hits modulus pos index a + hits modulus pos (index + N.of_nat a) b.
Proof.
  revert index. induction a as [|a IH]; intros index; cbn [hits Nat.add]; [by rewrite N.add_0_r|].
  rewrite IH, Nat2N.inj_succ, <- N.add_1_l, N.add_assoc. lia.
Qed.

Lemma hits_one modulus pos index count i : i < count → ((index + N.of_nat i) mod modulus = pos)%N → 1 ≤ hits modulus pos index count.
Proof.
  intros Hi Hp. replace count with (i + Datatypes.S (count - i - 1)) by lia. rewrite hits_add. cbn [hits].
  rewrite (proj2 (N.eqb_eq _ _) Hp). lia.
Qed.

Lemma hits_round modulus pos index : (pos < modulus)%N → 1 ≤ hits modulus pos index (N.to_nat modulus).
Proof.
  intros Hp. pose proof (N.mod_lt index modulus ltac:(lia)) as Hm. pose proof (N.div_mod index modulus ltac:(lia)) as Hd.
  generalize dependent (index mod modulus)%N. generalize (index / modulus)%N. intros q r Hm Hd.
  destruct (decide (r ≤ pos)%N).
  - apply (hits_one _ _ _ _ (N.to_nat (pos - r))); [lia|]. symmetry. apply (N.mod_unique _ _ q); lia.
  - apply (hits_one _ _ _ _ (N.to_nat (pos + modulus - r))); [lia|]. symmetry. apply (N.mod_unique _ _ (q + 1)); lia.
Qed.

Lemma hits_rounds modulus pos index rounds : (pos < modulus)%N → rounds ≤ hits modulus pos index (N.to_nat modulus * rounds).
Proof.
  intros Hp. revert index. induction rounds as [|rounds IH]; intros index; [lia|].
  rewrite Nat.mul_succ_r, Nat.add_comm, hits_add. pose proof (hits_round modulus pos index Hp). specialize (IH (index + N.of_nat (N.to_nat modulus))%N). lia.
Qed.

(** A node that serves [peer] in its [pos]th place. *)
Record serves (n : Node) (peer : PeerId) (pos : N) : Prop := {
  sv_ok : node_ok n;
  sv_entries : sr_entries (sn_replica n) ≠ ∅;
  sv_read_only : sr_read_only (sn_replica n) = false;
  sv_room : roomy n;
  sv_peer : confirmed_peers (sr_routes (sn_replica n)) !! N.to_nat pos = Some peer;
}.

Lemma serves_frozen n n' peer pos : frozen n' = frozen n → serves n peer pos → serves n' peer pos.
Proof.
  intros Hf [Hok Hne Hr Hs Hp]. pose proof (roomy_frozen _ _ Hf Hs) as Hs'. apply frozen_inv in Hf as (He & Hent & Hro).
  constructor; [by apply (env_ok n)|congruence|congruence|done|]. unfold env in He. congruence.
Qed.

Lemma run_advances n nows peer pos :
  serves n peer pos → (sn_next_peer_index n + len nows < u64_modulus)%N →
  yields n (run_ticks nows) (λ n' out, frozen n' = frozen n ∧ ∃ served, advances n peer (cursor_of n peer) out (cursor_of n' peer) served ∧
    hits (len (confirmed_peers (sr_routes (sn_replica n)))) pos (sn_next_peer_index n) (length nows) ≤ length served).
Proof.
  revert n. induction nows as [|now nows IH]; intros n Hsv Hidx; cbn [run_ticks].
  { apply yields_ret. split; [done|]. exists []. split; [apply advances_none|done]. }
  destruct Hsv as [Hok Hne Hro Hroom Hp] eqn:Hsv'. clear Hsv'.
  apply yields_bind. eapply yields_mono; [apply (tick_advances n now peer); try done; by intros Hnil; rewrite Hnil in Hp|].
  intros n1 out (Hf & Hi & served & Had & Hfirst). cbn [length] in Hidx.
  assert (Hi' : sn_next_peer_index n1 = (sn_next_peer_index n + 1)%N) by (rewrite Hi; apply N.mod_small; lia).
  apply yields_bind. eapply yields_mono; [apply IH; [by apply (serves_frozen n)|lia]|].
  intros n2 rest (Hf2 & served' & Had' & Hhits). apply yields_ret. split; [congruence|]. exists (served ++ served').
  split; [eapply (advances_app n n1 peer _ out _ _ rest); [exact Hf|exact Hne|set_solver|set_solver|exact Had|exact Had']|].
  rewrite Hi' in Hhits. replace (sr_routes (sn_replica n1)) with (sr_routes (sn_replica n)) in Hhits
    by (apply frozen_inv in Hf as (He & _); unfold env in He; congruence).
  cbn [length hits]. rewrite length_app. destruct (N.eqb_spec (sn_next_peer_index n mod len (confirmed_peers (sr_routes (sn_replica n)))) pos) as [Hpos|]; [|lia].
  assert (served ≠ []) by (apply Hfirst; unfold first_peer; by rewrite Hpos). destruct served; [done|]. cbn [length]. lia.
Qed.

(** ** Properties *)

(** C12. One reception leaves the replica's entries, members, acknowledgements, journal, clock,
    rosters and settings alone, and of the replica changes its routes at most, unless the datagram is
    signed by a provisioned peer, fresh, from that peer's confirmed route, and completes a message
    that is an update of an authority, which then does exactly [apply_remote_entry], or an
    acknowledgement of a member, which does exactly [accept_ack]. The transport's own state, which is
    the replay window, the sender's counter, the reassembler and the recovery book, is outside this claim. *)
Theorem signed_state_guarded source datagram now n n' res :
  node_receive source datagram now n = Some (n', res) →
  routes_only (sn_replica n) (sn_replica n') ∨
  ∃ peer message, delivers n source datagram now peer message ∧ message_effect (sn_replica n) peer message (sn_replica n').
Proof. apply node_receive_effect. Qed.

(** A tick emits at most [max_frames_per_tick] datagrams, each to a confirmed route; a
    reception answers with at most one datagram more, and only to the address it heard. *)
Theorem signed_work_bounded n now :
  node_ok n →
  (∀ n' out, reconcile now n = Some (n', Ok out) →
     (len out ≤ sr_max_frames_per_tick (sn_replica n))%N ∧
     Forall (λ d, ∃ peer, route (sr_routes (sn_replica n)) peer = Some (rd_destination d)) out) ∧
  (∀ source datagram n' out, node_receive source datagram now n = Some (n', Ok out) →
     (len out ≤ sr_max_frames_per_tick (sn_replica n) + 1)%N ∧ Forall (λ d, rd_destination d = source) out).
Proof.
  intros Hok. split.
  - intros n' out Hr. by destruct (yields_reconcile n now Hok n' out Hr) as (_ & Hlen & Hout).
  - intros source datagram n' out Hr. exact (yields_receive n source datagram now Hok n' out Hr).
Qed.

End props.

(** ** Witnesses *)

#[local] Existing Instances toy_lww toy_ed25519 toy_mac toy_aead.

Definition byte_of (x : N) : byte := default x00 (Byte.of_N x).
Definition demo_serialize (m : SignedMessage N N) : result (list byte) IoError :=
  match m with
  | Hello => Ok [x00]
  | Update k e => Ok [x01; byte_of k; byte_of e]
  | Ack k v => Ok [x02; byte_of k; byte_of v]
  end.
Definition demo_deserialize (bytes : list byte) : option (SignedMessage N N) :=
  match bytes with
  | [x00] => Some Hello
  | [x01; k; e] => Some (Update (Byte.to_N k) (Byte.to_N e))
  | [x02; k; v] => Some (Ack (Byte.to_N k) (Byte.to_N v))
  | _ => None
  end.

Definition plain_framing : FramingConfig := {|
  datagram_payload_budget := 1200; fc_max_logical_message_size := 1000; fc_max_fragments_per_message := 16;
  fc_max_incomplete_transfers_per_peer := 2; fc_max_reassembly_bytes_per_peer := 50; fc_max_total_reassembly_bytes := 60;
  fc_reassembly_ttl := 1000; selective_recovery := false; max_missing_ranges_per_report := 4;
  max_outbound_recovery_transfers_per_peer := 2; max_total_outbound_recovery_transfers := 4;
  max_outbound_recovery_bytes_per_peer := 100; max_total_outbound_recovery_bytes := 200;
  max_selective_recovery_rounds := 2; recovery_ttl := 1000; recovery_capability_ttl := 1000 |}.

(** A node with two entries and one confirmed authority, at address 77. *)
Definition demo_node : SignedNode (K := N) (E := N) (C := N) (A := N) (B := option (PersistedState N N PeerId)) := {|
  sn_replica := {|
    sr_routes := {| confirmed := {[ demo_seed x05 := {| c_route := 77%N; c_signer := demo_seed x05 |} ]}; pending := ∅; max_peers := 4; challenge_ttl := 500 |};
    sr_entries := {[ 1%N := 3%N; 2%N := 4%N ]}; sr_members := {[demo_seed x05]}; sr_acks := ∅;
    sr_generations := GenerationState_default; sr_persistence := None; sr_clock := 0%N;
    sr_authorities := {[demo_seed x05]}; sr_readers := ∅; sr_read_only := false; sr_framing := plain_framing;
    sr_payload_budget := payload_budget (demo_boundary x06 [x05]); sr_cursors := ∅; sr_max_frames_per_tick := 8 |};
  sn_boundary := demo_boundary x06 [x05];
  sn_reassembler := rs_reassembler demo_route_state;
  sn_recovery := book_for_identity;
  sn_next_peer_index := 3; sn_max_peer_cap := 4; sn_draws := 0 |}.

(** The authority's signed update of key 1. *)
Definition demo_update : list byte :=
  match (boundary_seal (demo_boundary x05 []) (replicate 24 x00) 700 (write_complete [x01; x01; x09])).2 with
  | Ok frame => frame
  | Err _ => []
  end.

#[local] Notation demo_receive := (node_receive (V := N) (S := N) (A := N) (B := option (PersistedState N N PeerId)) pad32 (λ _, replicate 24 x00) (λ _, replicate 32 x0a) (λ _, 900%N) demo_serialize demo_deserialize).

Lemma demo_node_ok : node_ok demo_node.
Proof. constructor; vm_compute; [reflexivity|reflexivity|by split]. Qed.

Lemma signed_state_guarded_witness :
  match demo_receive 77%N demo_update 300 demo_node with
  | Some (n', res) => sr_entries (sn_replica n') !! 1%N = Some 9%N ∧
      (routes_only (sn_replica demo_node) (sn_replica n') ∨
       ∃ peer message, delivers pad32 (λ _, 900%N) demo_deserialize demo_node 77%N demo_update 300 peer message ∧
         message_effect (sn_replica demo_node) peer message (sn_replica n'))
  | None => False
  end.
Proof.
  destruct (demo_receive 77%N demo_update 300 demo_node) as [[n' res]|] eqn:Hr.
  - split.
    + assert (Hv : (λ x, sr_entries (sn_replica x.1) !! 1%N) <$> Some (n', res) = Some (Some 9%N)) by (rewrite <- Hr; vm_compute; reflexivity).
      cbn in Hv. congruence.
    + exact (signed_state_guarded _ _ _ _ _ _ _ _ _ _ _ _ Hr).
  - assert (Hv : bool_decide (is_Some (demo_receive 77%N demo_update 300 demo_node)) = true) by (vm_compute; reflexivity).
    rewrite Hr in Hv. discriminate Hv.
Defined.

#[local] Notation demo_reconcile := (reconcile (A := N) (B := option (PersistedState N N PeerId)) pad32 (λ _, replicate 24 x00) (λ _, 900%N) demo_serialize).

Lemma signed_work_bounded_witness :
  option_map (λ x, match x.2 with Ok out => length out | Err _ => 0 end) (demo_reconcile 300 demo_node) = Some 1 ∧
  ∀ n' out, demo_reconcile 300 demo_node = Some (n', Ok out) →
    (len out ≤ 8)%N ∧ Forall (λ d, ∃ peer, route (sr_routes (sn_replica demo_node)) peer = Some (rd_destination d)) out.
Proof.
  split; [vm_compute; reflexivity|].
  exact (proj1 (signed_work_bounded pad32 (λ _, replicate 24 x00) (λ _, replicate 32 x0a) (λ _, 900%N) demo_serialize demo_deserialize demo_node 300 demo_node_ok)).
Defined.

#[local] Notation demo_ticks := (run_ticks (A := N) (B := option (PersistedState N N PeerId)) pad32 (λ _, replicate 24 x00) (λ _, 900%N) demo_serialize).

(** The same node with selective recovery, and a tick large enough for the requests of missing fragments. *)
Definition selective_node : SignedNode (K := N) (E := N) (C := N) (A := N) (B := option (PersistedState N N PeerId)) :=
  {| demo_node with sn_replica := {| (sn_replica demo_node) with sr_framing := {| plain_framing with selective_recovery := true |}; sr_max_frames_per_tick := 24 |} |}.

Lemma selective_serves : serves demo_serialize selective_node (demo_seed x05) 0.
Proof.
  constructor; [constructor; vm_compute; [reflexivity|reflexivity|by split]|vm_compute; discriminate|reflexivity| |vm_compute; reflexivity].
  right. split; [vm_compute; reflexivity|]. intros key entry bytes frames _ [= <-]. vm_compute. intros [= <-]. discriminate.
Qed.

