(* ===== verification/Nets.v ===== *)
(** * Addresses and networks ([gossip/src/gen_ip.rs], [gossip/src/discovery.rs],
      [src/replica/membership.rs])

    The random probes a node sends into its declared networks, and the local network it derives
    from them. [ipnet]'s networks and [rand]'s generator are parameters. *)
From stdpp Require Import list relations.
From Stdlib Require Import NArith.
From S2P Require Import Prelude Round.

Inductive IpAddr := V4 (a : N) | V6 (a : N).
#[export] Instance IpAddr_eq_dec : EqDecision IpAddr.
Proof. solve_decision. Defined.

(** [ipnet]: [A4] is [Ipv4Net], [A6] is [Ipv6Net]; [ipnet_new] is [IpNet::new], [None] its error. *)
Inductive IpNet (A4 A6 : Type) := NetV4 (net : A4) | NetV6 (net : A6).
Arguments NetV4 {A4 A6} net.
Arguments NetV6 {A4 A6} net.

Class IpNetOps (A4 A6 : Type) := {
  network4 : A4 → N;
  hostmask4 : A4 → N;
  contains4 : A4 → N → bool;
  network6 : A6 → N;
  hostmask6 : A6 → N;
  contains6 : A6 → N → bool;
  ipnet_new : IpAddr → N → option (IpNet A4 A6);
}.

(** As documented: the network address is the prefix with the host bits clear, a network contains
    the addresses with its prefix, and a full-length prefix is the route of one host. *)
Class IpNetLaws (A4 A6 : Type) `{IpNetOps A4 A6} : Prop := {
  network4_host n : N.land (network4 n) (hostmask4 n) = 0%N;
  contains4_prefix n a : contains4 n a = true ↔ N.ldiff a (hostmask4 n) = network4 n;
  network6_host n : N.land (network6 n) (hostmask6 n) = 0%N;
  contains6_prefix n a : contains6 n a = true ↔ N.ldiff a (hostmask6 n) = network6 n;
  host4 a : ∃ n, ipnet_new (V4 a) 32 = Some (NetV4 n) ∧ network4 n = a ∧ hostmask4 n = 0%N;
  host6 a : ∃ n, ipnet_new (V6 a) 128 = Some (NetV6 n) ∧ network6 n = a ∧ hostmask6 n = 0%N;
}.

Section gen_ip.
Context {A4 A6 R : Type} `{IpNetOps A4 A6}.
(** [rng.gen::<u32>] and [rng.gen::<u128>] *)
Context (gen_u32 gen_u128 : R → N * R).
Notation Net := (IpNet A4 A6).

(** [IpNet::contains] of an [IpAddr]: [false] across families. *)
Definition net_contains (net : Net) (addr : IpAddr) : bool :=
  match net, addr with
  | NetV4 n, V4 a => contains4 n a
  | NetV6 n, V6 a => contains6 n a
  | _, _ => false
  end.

Definition gen_ipv4 (rng : R) (network : A4) : N * R :=
  let '(random, rng) := gen_u32 rng in (N.lor (network4 network) (N.land random (hostmask4 network)), rng).
Definition gen_ipv6 (rng : R) (network : A6) : N * R :=
  let '(random, rng) := gen_u128 rng in (N.lor (network6 network) (N.land random (hostmask6 network)), rng).

Definition gen_ip (rng : R) (network : Net) : IpAddr * R :=
  match network with
  | NetV4 network => let '(a, rng) := gen_ipv4 rng network in (V4 a, rng)
  | NetV6 network => let '(a, rng) := gen_ipv6 rng network in (V6 a, rng)
  end.

Fixpoint probe_targets (rng : R) (nets : list Net) : list IpAddr * R :=
  match nets with
  | [] => ([], rng)
  | net :: nets => let '(a, rng) := gen_ip rng net in let '(l, rng) := probe_targets rng nets in (a :: l, rng)
  end.

(** [None] is the [expect]. *)
Definition host_net (addr : IpAddr) : option Net :=
  ipnet_new addr (match addr with V4 _ => 32 | V6 _ => 128 end).

(** [RandomProbe::discover] *)
Definition random_probe (nets : list Net) (rng : R) : list IpAddr * R := probe_targets rng nets.

(** ** Lemmas *)

Context `{!IpNetLaws A4 A6}.

Lemma masked_in_prefix p m x : N.land p m = 0%N → N.ldiff (N.lor p (N.land x m)) m = p.
Proof.
  intros Hp. apply N.bits_inj. intros i. rewrite N.ldiff_spec, N.lor_spec, N.land_spec.
  assert (Hi : N.testbit p i && N.testbit m i = false) by (rewrite <- N.land_spec, Hp; apply N.bits_0).
  destruct (N.testbit p i), (N.testbit m i), (N.testbit x i); done.
Qed.

Lemma gen_ip_contained rng net : net_contains net (gen_ip rng net).1 = true.
Proof.
  destruct net as [n|n]; cbn [gen_ip]; [unfold gen_ipv4; destruct (gen_u32 rng)|unfold gen_ipv6; destruct (gen_u128 rng)]; cbn.
  - apply contains4_prefix, masked_in_prefix, network4_host.
  - apply contains6_prefix, masked_in_prefix, network6_host.
Qed.

Lemma probe_targets_contained rng nets : Forall2 (λ net a, net_contains net a = true) nets (probe_targets rng nets).1.
Proof.
  revert rng. induction nets as [|net nets IH]; intros rng; cbn [probe_targets]; [constructor|].
  pose proof (gen_ip_contained rng net). destruct (gen_ip rng net) as [a rng']. specialize (IH rng').
  destruct (probe_targets rng' nets). by constructor.
Qed.

Lemma host_net_exact addr : ∃ net, host_net addr = Some net ∧ ∀ a, net_contains net a = true ↔ a = addr.
Proof.
  unfold host_net. destruct addr as [x|x]; [destruct (host4 x) as (n & -> & Hn & Hm)|destruct (host6 x) as (n & -> & Hn & Hm)];
    eexists; (split; [done|]); intros [a|a]; cbn; try (split; discriminate).
  - rewrite contains4_prefix, Hn, Hm, N.ldiff_0_r. split; congruence.
  - rewrite contains6_prefix, Hn, Hm, N.ldiff_0_r. split; congruence.
Qed.
End gen_ip.

(** ** The networks a running node declares *)

Section declared.
Context {A4 A6 R : Type} `{IpNetOps A4 A6, !IpNetLaws A4 A6} `{!EqDecision A4, !EqDecision A6} (gen_u32 gen_u128 : R → N * R).
Notation Net := (IpNet A4 A6).

#[export] Instance IpNet_eq_dec : EqDecision Net.
Proof. solve_decision. Defined.

(** The answer of [host_net], which never panics. *)
Context (host : IpAddr → Net) (host_spec : ∀ a, host_net a = Some (host a)).
Notation Topology := (Topology IpAddr Net).
Implicit Types (t : Topology).

Inductive topology_step : Topology → Topology → Prop :=
| ts_set t nets t' : set_nets net_contains host t nets = Some t' → topology_step t t'
| ts_add t net : topology_step t (add_net net_contains host t net).1
| ts_remove t net : topology_step t (remove_net net_contains host t net).1.

Record topology_ok t : Prop := {
  to_cap : (length (tp_nets t) ≤ MAX_NETS)%nat;
  to_local : tp_local t = derive_local_net net_contains host (tp_nets t) (tp_listen t);
}.

Lemma derive_local_contains nets a : net_contains (derive_local_net net_contains host nets a) a = true.
Proof.
  unfold derive_local_net, net_of. destruct (find _ nets) as [net|] eqn:Hf; [by apply find_some in Hf as [_ Hf]|].
  destruct (host_net_exact a) as (net & Hn & Ha). rewrite host_spec in Hn. injection Hn as ->. by apply Ha.
Qed.

Lemma topology_step_ok t t' : topology_step t t' → topology_ok t → topology_ok t' ∧ tp_listen t' = tp_listen t.
Proof.
  intros [s nets s' Hs|s net|s net] [Hc Hl].
  - unfold set_nets in Hs. destruct (Nat.leb_spec (length nets) MAX_NETS); [|done]. injection Hs as <-. split; [by constructor|done].
  - unfold add_net. case_decide; [done|]. destruct (Nat.leb_spec MAX_NETS (length (tp_nets s))); [done|].
    split; [|done]. constructor; cbn; [rewrite length_app; cbn; lia|done].
  - unfold remove_net. destruct (_ =? _); [done|]. split; [|done]. constructor; cbn; [|done].
    etransitivity; [apply length_filter|done].
Qed.

(** *** Overlapping changes

    [set_nets] writes [local_net] and then [nets], each under its own lock, while [add_net] and
    [remove_net] hold the lock of [nets] throughout: other changes can come between its two writes.
    The state is the topology with the networks that calls of [set_nets] have still to install. *)
Definition set_local t (nets : list Net) : Topology := {| t with tp_local := derive_local_net net_contains host nets (tp_listen t) |}.
Definition install_nets t (nets : list Net) : Topology := {| t with tp_nets := nets |}.

Inductive overlapping_step : Topology * list (list Net) → Topology * list (list Net) → Prop :=
| os_local t ws nets : (length nets ≤ MAX_NETS)%nat → overlapping_step (t, ws) (set_local t nets, nets :: ws)
| os_install t ws nets ws' : overlapping_step (t, ws ++ nets :: ws') (install_nets t nets, ws ++ ws')
| os_add t ws net : overlapping_step (t, ws) ((add_net net_contains host t net).1, ws)
| os_remove t ws net : overlapping_step (t, ws) ((remove_net net_contains host t net).1, ws).

(** What one caller at a time does is its two writes in a row. *)
Lemma set_nets_writes t nets t' ws : set_nets net_contains host t nets = Some t' → rtc overlapping_step (t, ws) (t', ws).
Proof.
  unfold set_nets. destruct (Nat.leb_spec (length nets) MAX_NETS); [|done]. intros [= <-].
  eapply rtc_l; [by apply os_local|]. exact (rtc_once _ _ (os_install (set_local t nets) [] nets ws)).
Qed.

Record declared_ok (a : IpAddr) (st : Topology * list (list Net)) : Prop := {
  dc_cap : (length (tp_nets st.1) ≤ MAX_NETS)%nat;
  dc_pending : Forall (λ nets : list Net, length nets ≤ MAX_NETS)%nat st.2;
  dc_listen : tp_listen st.1 = a;
  dc_local : net_contains (tp_local st.1) a = true;
}.

Lemma overlapping_step_ok a st st' : overlapping_step st st' → declared_ok a st → declared_ok a st'.
Proof.
  intros [t ws nets Hn|t ws nets ws'|t ws net|t ws net] [Hc Hp Hl Ha]; cbn [fst snd] in *.
  - split; cbn; [done|by constructor|done|rewrite Hl; apply derive_local_contains].
  - apply Forall_app in Hp as [Hw [Hn Hw']%Forall_cons]. split; cbn; [done|by apply Forall_app|done..].
  - unfold add_net. case_decide; [done|]. destruct (Nat.leb_spec MAX_NETS (length (tp_nets t))); [done|].
    split; cbn; [rewrite length_app; cbn; lia|done..|rewrite Hl; apply derive_local_contains].
  - unfold remove_net. destruct (_ =? _); [done|].
    split; cbn; [etransitivity; [apply length_filter|done]|done..|rewrite Hl; apply derive_local_contains].
Qed.

Lemma topology_run_ok t t' : topology_ok t → rtc topology_step t t' → topology_ok t' ∧ tp_listen t' = tp_listen t.
Proof.
  intros Ht Hrun. induction Hrun as [t|t1 t2 t3 H12 _ IH]; [done|]. destruct (topology_step_ok t1 t2 H12 Ht) as [Ht2 Hl].
  destruct (IH Ht2) as [? Hl']. split; [done|congruence].
Qed.

(** C31. Probes go where they are declared. Through any changes of the declared networks, also when
    the writes of several changes come between each other, there are never more than [MAX_NETS],
    the local network contains the listen address, and each probe round makes one probe per
    network, inside it. When the changes are made one at a time, the local network is moreover one
    of the declared networks, or this host alone when none of them contains the listen address. *)
Theorem probes_stay_in_declared_nets t : topology_ok t →
  (∀ t' ws rng, rtc overlapping_step (t, []) (t', ws) →
    (length (tp_nets t') ≤ MAX_NETS)%nat ∧ net_contains (tp_local t') (tp_listen t) = true ∧
    Forall2 (λ net a, net_contains net a = true) (tp_nets t') (random_probe gen_u32 gen_u128 (tp_nets t') rng).1) ∧
  (∀ t' rng, rtc topology_step t t' →
    (length (tp_nets t') ≤ MAX_NETS)%nat ∧ net_contains (tp_local t') (tp_listen t) = true ∧
    (tp_local t' ∈ tp_nets t' ∨
     (∀ net, net ∈ tp_nets t' → net_contains net (tp_listen t) = false) ∧ ∀ a, net_contains (tp_local t') a = true ↔ a = tp_listen t) ∧
    Forall2 (λ net a, net_contains net a = true) (tp_nets t') (random_probe gen_u32 gen_u128 (tp_nets t') rng).1).
Proof.
  intros Ht. split.
  - intros t' ws rng Hrun. assert (Hok : declared_ok (tp_listen t) (t', ws)).
    { refine (rtc_ind_l (λ st, declared_ok (tp_listen t) st → declared_ok (tp_listen t) (t', ws)) _ _ _ _ Hrun _).
      - done.
      - intros st st1 Hs _ IH Hst. eapply IH, overlapping_step_ok; done.
      - destruct Ht as [Hc Hl]. split; [done|constructor|done|cbn; rewrite Hl; apply derive_local_contains]. }
    destruct Hok as [Hc _ _ Ha]. split_and!; [done..|exact (probe_targets_contained gen_u32 gen_u128 rng (tp_nets t'))].
  - intros t' rng Hrun. destruct (topology_run_ok t t' Ht Hrun) as [[Hc Hl] Hlisten]. rewrite <- Hlisten.
    split_and!; [done|rewrite Hl; apply derive_local_contains| |exact (probe_targets_contained gen_u32 gen_u128 rng (tp_nets t'))].
    rewrite Hl. unfold derive_local_net, net_of. destruct (find _ _) as [net|] eqn:Hf.
    + left. apply find_some in Hf as [Hin _]. by apply list_elem_of_In.
    + right. split; [intros net Hin; apply (find_none _ _ Hf); by apply list_elem_of_In|].
      destruct (host_net_exact (tp_listen t')) as (net & Hn & Ha). rewrite host_spec in Hn. injection Hn as ->. exact Ha.
Qed.
End declared.

(** ** Networks as a prefix and a mask of host bits *)

Record PrefixNet := { pn_prefix : N; pn_mask : N }.
#[export] Instance PrefixNet_eq_dec : EqDecision PrefixNet.
Proof. solve_decision. Defined.

Definition prefix_net (a mask : N) : PrefixNet := {| pn_prefix := N.ldiff a mask; pn_mask := mask |}.
Definition masked (n : PrefixNet) : N := N.ldiff (pn_prefix n) (pn_mask n).
Definition prefix_ops : IpNetOps PrefixNet PrefixNet := {|
  network4 := masked; hostmask4 := pn_mask; contains4 n a := (N.ldiff a (pn_mask n) =? masked n)%N;
  network6 := masked; hostmask6 := pn_mask; contains6 n a := (N.ldiff a (pn_mask n) =? masked n)%N;
  ipnet_new addr prefix_len :=
    match addr with
    | V4 a => if (prefix_len <=? 32)%N then Some (NetV4 (prefix_net a (N.ones (32 - prefix_len)))) else None
    | V6 a => if (prefix_len <=? 128)%N then Some (NetV6 (prefix_net a (N.ones (128 - prefix_len)))) else None
    end |}.
#[local] Existing Instance prefix_ops.

Lemma land_ldiff x m : N.land (N.ldiff x m) m = 0%N.
Proof. apply N.bits_inj. intros i. rewrite N.land_spec, N.ldiff_spec, N.bits_0. by destruct (N.testbit x i), (N.testbit m i). Qed.

Lemma prefix_laws : IpNetLaws PrefixNet PrefixNet.
Proof.
  constructor; intros; cbn; try apply land_ldiff; try apply N.eqb_eq.
  - eexists. split; [done|]. cbn. unfold masked. cbn. by rewrite !N.ldiff_0_r.
  - eexists. split; [done|]. cbn. unfold masked. cbn. by rewrite !N.ldiff_0_r.
Qed.
#[local] Existing Instance prefix_laws.

Notation demo_host := (λ a : IpAddr, match a with V4 x => NetV4 (prefix_net x 0) | V6 x => NetV6 (prefix_net x 0) end).
Definition demo_net (a : N) : IpNet PrefixNet PrefixNet := NetV4 (prefix_net a 255).
Definition demo_topology : Topology IpAddr (IpNet PrefixNet PrefixNet) :=
  {| tp_nets := [demo_net 256]; tp_local := demo_net 256; tp_listen := V4 259; tp_remote_interval := 6; tp_remote_fanout := 2 |}.
Notation demo_changed := (remove_net net_contains demo_host (add_net net_contains demo_host demo_topology (demo_net 512)).1 (demo_net 256)).1.

(** Opening a region and leaving the local one: the node is then local to itself. A call of
    [set_nets] that has only written [local_net] leaves the probes inside the networks of before. *)
Lemma probes_stay_in_declared_nets_witness :
  ((random_probe (λ r : N, (r, r + 1)) (λ r : N, (r, r + 1)) (tp_nets demo_changed) 1000).1%N = [V4 744] ∧
   net_contains (tp_local demo_changed) (V4 259) = true) ∧
  net_contains (tp_local (set_local demo_host demo_topology [demo_net 512])) (V4 259) = true.
Proof.
  destruct (probes_stay_in_declared_nets (λ r : N, (r, r + 1)%N) (λ r : N, (r, r + 1)%N) demo_host
    ltac:(intros [a|a]; unfold host_net; cbn; unfold prefix_net; reflexivity) demo_topology) as [Hover Hrun].
  { split; [cbn; unfold MAX_NETS; lia|vm_compute; reflexivity]. }
  split.
  - destruct (Hrun demo_changed 1000%N) as (_ & Hl & _ & _); [eapply rtc_l; [apply ts_add|]; apply rtc_once, ts_remove|].
    split; [vm_compute; reflexivity|exact Hl].
  - destruct (Hover (set_local demo_host demo_topology [demo_net 512]) [[demo_net 512]] 0%N) as (_ & Hl & _); [|exact Hl].
    apply rtc_once, os_local. cbn. unfold MAX_NETS. lia.
Defined.

(** The local network is not always derived from the networks, whatever the comment in [set_nets]
    says: when a network is added between the two writes of a call that replaces it, the node
    stays local to a network it no longer declares. *)
Lemma overlapping_set_nets_stale_local : ∃ t',
  rtc (overlapping_step demo_host) (demo_topology, []) (t', []) ∧
  tp_nets t' = [demo_net 512] ∧ tp_local t' = demo_net 256 ∧ tp_local t' ∉ tp_nets t' ∧
  tp_local t' ≠ derive_local_net net_contains demo_host (tp_nets t') (tp_listen t').
Proof.
  eexists. split.
  - eapply rtc_l; [apply (os_local demo_host _ [] [demo_net 512]); cbn; unfold MAX_NETS; lia|].
    eapply rtc_l; [apply (os_add demo_host _ _ (demo_net 768))|]. apply rtc_once, (os_install demo_host _ [] _ []).
  - split_and!; [reflexivity|reflexivity|apply (bool_decide_unpack _); vm_compute; done|vm_compute; discriminate].
Qed.
