(* ===== verification/Discovery.v ===== *)
(** * Peer discovery ([src/replicated_map/discovery.rs], [src/read_replica_map/discovery.rs],
      [gossip/src/discovery.rs])

    What a discovery round does with the addresses a source resolved: a present address becomes a
    gossip contact, and a member that a source used to report and no longer does is decommissioned
    after a number of misses, later still when it holds up tombstones. A source and its answers are
    arguments; a round is one step, with the other tasks' steps between rounds. *)
From stdpp Require Import gmap list.
From Stdlib Require Import NArith.
From S2P Require Import Prelude Replay Reassembly RecoveryBook SignedCausal Messages Replica Dumps Repair Engine Round ReadReplica Samples ReplicaProps EngineProps.

Inductive DiscoveryKind := Authoritative | Speculative.
#[export] Instance DiscoveryKind_eq_dec : EqDecision DiscoveryKind.
Proof. solve_decision. Defined.

(** ** Sources *)

(** [DnsDiscovery::discover]: the lookup's answer, [None] when the timeout elapses first. *)
Inductive DnsDiscoveryError (Er : Type) := Resolve (e : Er) | Timeout.
Arguments Resolve {Er} e.
Arguments Timeout {Er}.
Definition dns_discover {P Er : Type} (lookup : option (result (list (P * N)) Er)) : result (list P) (DnsDiscoveryError Er) :=
  let? found := ok_or lookup Timeout in
  let? addrs := match found with Ok addrs => Ok addrs | Err e => Err (Resolve e) end in
  Ok (addrs.*1).

Definition with_discovery {Src : Type} (kind : Src → DiscoveryKind) (discovery : Src) : result (option Src) DiscoveryKind :=
  if decide (kind discovery = Authoritative) then Ok (Some discovery) else Err (kind discovery).

Definition DEFAULT_DISCOVERY_MISS_THRESHOLD : N := 3.
Definition DEFAULT_DISCOVERY_DECOMMISSION_FLOOR : N := seconds 600.

(** ** A member's presence *)

Inductive MemberPresence :=
| Present
| Absent (since misses : N).

Definition mark_missed (s : MemberPresence) (now : N) : option MemberPresence :=
  match s with
  | Present => Some (Absent now 1)
  | Absent since misses => misses ← u32_try_from (misses + 1); Some (Absent since misses)
  end.

Definition eligible_for_decommission (s : MemberPresence) (miss_threshold floor : N) (pending_tombstone_acks : bool) (now : N) : bool :=
  match s with
  | Present => false
  | Absent since misses =>
      if (misses <? miss_threshold)%N then false
      else negb pending_tombstone_acks || (floor <=? saturating_sub now since)%N
  end.

(** ** A round *)

Section discovery.
Context {K V S E C St P Ag R : Type} `{Countable K, Countable P} `{Lww V S E C}.
Notation Eng := (Engine (K := K) (E := E) (C := C) (St := St) (P := P) (Ag := Ag) (R := R)).
Context (own_addr : P) (miss_threshold floor : N).

Record Discoverer := {
  dv_engine : Eng;
  dv_presence : gmap P MemberPresence;
  dv_last : option N;
}.
Implicit Types (d : Discoverer).

(** Step 1: every currently present peer. *)
Definition refresh_present (now : N) (st : Eng * gmap P MemberPresence) (addr : P) : Eng * gmap P MemberPresence :=
  let '(e, presence) := st in (seed_peer e addr now, <[addr := Present]> presence).

(** Step 2, for one member; [None] is the overflow of the miss counter. *)
Definition grace_account (now : N) (current : gset P) (st : option (Eng * gmap P MemberPresence)) (member : P)
    : option (Eng * gmap P MemberPresence) :=
  '(e, presence) ← st;
  if decide (member = own_addr ∨ member ∈ current) then Some (e, presence)
  else
    match presence !! member with
    | None => Some (e, presence)
    | Some state =>
        state ← mark_missed state now;
        let pending := has_pending_tombstone_acks (en_replica e) member in
        if eligible_for_decommission state miss_threshold floor pending now
        then Some (engine_decommission e member, delete member presence)
        else Some (e, <[member := state]> presence)
    end.

Definition discovery_round d (resolved : list P) (now : N) : option Discoverer :=
  let current : gset P := list_to_set (filter (λ addr, addr ≠ own_addr) resolved) in
  let st := fold_left (refresh_present now) (elements current) (dv_engine d, dv_presence d) in
  '(e, presence) ← fold_left (grace_account now current) (elements (rp_members (en_replica st.1))) (Some st);
  Some {| dv_engine := e; dv_presence := presence; dv_last := Some now |}.

(** One turn of [discover_periodically]'s loop: a failed round is skipped. *)
Definition discovery_tick {Er} d (outcome : result (list P) Er) (now : N) : option Discoverer :=
  match outcome with
  | Ok resolved => discovery_round d resolved now
  | Err _ => Some d
  end.

Definition discovery_start (e : Eng) : Discoverer := {| dv_engine := e; dv_presence := ∅; dv_last := None |}.
End discovery.

(** One turn of a read replica's loop: every resolved address but its own becomes a contact. *)
Section read_replica_discovery.
Context {K St P R Net : Type} `{Countable K, Countable P}.
Notation Rr := (ReadReplicaMap (K := K) (St := St) (P := P) (R := R) (Net := Net)).

Definition rr_discovery_tick {Er} (own_addr : option P) (rr : Rr) (outcome : result (list P) Er) (now : N) : Rr :=
  match outcome with
  | Ok resolved => fold_left (λ rr addr, if decide (Some addr = own_addr) then rr else rr_seed_peer rr addr now) resolved rr
  | Err _ => rr
  end.
End read_replica_discovery.

(** ** Lemmas *)

Section props.
Context {K V S E C St P Ag R : Type} `{Countable K, Countable P} `{Lww V S E C}.
Notation Eng := (Engine (K := K) (E := E) (C := C) (St := St) (P := P) (Ag := Ag) (R := R)).
Notation Disc := (Discoverer (K := K) (E := E) (C := C) (St := St) (P := P) (Ag := Ag) (R := R)).
Context (own_addr : P) (miss_threshold floor : N).
Implicit Types (e : Eng) (d : Disc) (presence : gmap P MemberPresence).

Lemma forget_acks_others (p m : P) rows (acks : gmap K (gmap P N)) (g : Journal.GenerationState K E P) n k :
  m ≠ p → (∀ k row, (k, row) ∈ rows → acks !! k ≫= (λ r, r !! m) = row !! m) →
  NoDup rows.*1 →
  (forget_acks p rows (acks, g, n)).1.1 !! k ≫= (λ r, r !! m) = acks !! k ≫= (λ r, r !! m).
Proof.
  intros Hne. revert acks g n. induction rows as [|[k0 row] rows IH]; intros acks g n Hrows Hnd; [done|].
  unfold forget_acks. cbn [fold_left]. apply NoDup_cons in Hnd as [Hk0 Hnd].
  assert (Hins : ∀ k', <[k0 := delete p row]> acks !! k' ≫= (λ r, r !! m) = acks !! k' ≫= (λ r, r !! m)).
  { intros k'. destruct (decide (k' = k0)) as [->|]; [|by rewrite lookup_insert_ne].
    rewrite lookup_insert_eq. cbn. rewrite lookup_delete_ne by done. symmetry. apply Hrows. left. }
  rewrite <- Hins. apply IH; [|done]. intros k' row' Hin. rewrite Hins. apply Hrows. by right.
Qed.

Lemma decommission_pending (r : Replica K E St P) p m : m ≠ p →
  has_pending_tombstone_acks (decommission_peer r p) m = has_pending_tombstone_acks r m.
Proof.
  intros Hne. unfold decommission_peer.
  pose proof (forget_acks_others p m (map_to_list (rp_tombstone_acks r)) (rp_tombstone_acks r)
    (if bool_decide (p ∈ rp_members r) then Journal.record_member (rp_generations r) p false else rp_generations r)
    (if bool_decide (p ∈ rp_members r) then 1%N else 0%N)) as Hacks.
  destruct (forget_acks _ _ _) as [[acks g] n]. cbn [fst] in Hacks.
  unfold has_pending_tombstone_acks. cbn [rp_live_tombstones rp_map rp_tombstone_acks record_changes set_changes set_members].
  induction (elements (rp_live_tombstones r)) as [|k ks IH]; [done|]. cbn [existsb]. f_equal; [|exact IH].
  destruct (rp_map r !! k); [|done]. do 2 f_equal. rewrite Hacks; [done|done| |apply NoDup_fst_map_to_list].
  intros k' row ->%elem_of_map_to_list. done.
Qed.

Lemma decommission_members (r : Replica K E St P) p : rp_members (decommission_peer r p) = rp_members r ∖ {[p]}.
Proof. unfold decommission_peer. by destruct (forget_acks _ _ _) as [[acks g] n]. Qed.

(** What a round does to one member, from its presence alone: the presence it leaves, and whether
    the member is released. *)
Definition member_round (now : N) (pending listed : bool) (s : option MemberPresence) : option (option MemberPresence * bool) :=
  if listed then Some (Some Present, false)
  else
    match s with
    | None => Some (None, false)
    | Some s =>
        s ← mark_missed s now;
        Some (if eligible_for_decommission s miss_threshold floor pending now then (None, true) else (Some s, false))
    end.

Notation member e m := (m ∈ rp_members (en_replica e)).
Notation pending e m := (has_pending_tombstone_acks (en_replica e) m).

(** One member's turn leaves the others alone. *)
Lemma grace_others now current e presence p e' presence' m :
  m ≠ p → grace_account own_addr miss_threshold floor now current (Some (e, presence)) p = Some (e', presence') →
  presence' !! m = presence !! m ∧ (member e' m ↔ member e m) ∧ pending e' m = pending e m.
Proof.
  intros Hne. unfold grace_account. cbn [mbind option_bind]. case_decide; [by intros [= <- <-]|].
  destruct (presence !! p) as [s|]; [|by intros [= <- <-]].
  intros (s' & _ & Hs)%bind_Some. destruct (eligible_for_decommission _ _ _ _ _); injection Hs as <- <-.
  - cbn. rewrite lookup_delete_ne, decommission_members, decommission_pending by done. split_and!; [done|set_solver|done].
  - by rewrite lookup_insert_ne by done.
Qed.

Lemma grace_self now current e presence p e' presence' :
  grace_account own_addr miss_threshold floor now current (Some (e, presence)) p = Some (e', presence') →
  p ≠ own_addr → p ∉ current →
  ∃ released, member_round now (pending e p) false (presence !! p) = Some (presence' !! p, released) ∧
    (member e' p ↔ member e p ∧ released = false).
Proof.
  unfold grace_account, member_round. cbn [mbind option_bind]. intros Hg Hown Hcur. rewrite decide_False in Hg by tauto.
  destruct (presence !! p) as [s|] eqn:Hs; [|injection Hg as <- <-; exists false; rewrite Hs; tauto].
  apply bind_Some in Hg as (s' & -> & Hg). cbn [mbind option_bind].
  destruct (eligible_for_decommission _ _ _ _ _); injection Hg as <- <-.
  - exists true. rewrite lookup_delete_eq. cbn. rewrite decommission_members. split; [done|set_solver].
  - exists false. rewrite lookup_insert_eq. tauto.
Qed.

Lemma grace_none now current ms : fold_left (grace_account own_addr miss_threshold floor now current) ms (None : option (Eng * _)) = None.
Proof. by induction ms. Qed.

(** The members' turns, one after the other, are independent. *)
Lemma grace_fold now current ms e presence e' presence' m :
  NoDup ms → fold_left (grace_account own_addr miss_threshold floor now current) ms (Some (e, presence)) = Some (e', presence') →
  (m ∉ ms ∨ m = own_addr ∨ m ∈ current → presence' !! m = presence !! m ∧ (member e' m ↔ member e m)) ∧
  (m ∈ ms → m ≠ own_addr → m ∉ current →
   ∃ released, member_round now (pending e m) false (presence !! m) = Some (presence' !! m, released) ∧
     (member e' m ↔ member e m ∧ released = false)).
Proof.
  intros Hnd. revert e presence. induction Hnd as [|p ms Hp Hnd IH]; intros e presence Hf.
  { cbn in Hf. injection Hf as <- <-. split; [done|]. intros Hin. by apply elem_of_nil in Hin. }
  cbn [fold_left] in Hf. destruct (grace_account _ _ _ _ _ _ p) as [[e1 presence1]|] eqn:Hg; [|by rewrite grace_none in Hf].
  apply IH in Hf as [Hout Hin]. destruct (decide (m = p)) as [->|Hne].
  - destruct Hout as [Hp' Hm']; [by left|]. split.
    + intros [Hn|Hoc]; [exfalso; apply Hn; left|]. unfold grace_account in Hg. cbn [mbind option_bind] in Hg.
      rewrite decide_True in Hg by done. injection Hg as <- <-. done.
    + intros _ Hown Hcur. destruct (grace_self _ _ _ _ _ _ _ Hg Hown Hcur) as (released & Hr & Hm). exists released. rewrite Hp'. split; [done|]. tauto.
  - destruct (grace_others _ _ _ _ _ _ _ m Hne Hg) as (Hpr & Hmem & Hpend). rewrite Hpr, Hpend in *. split.
    + intros Hc. rewrite elem_of_cons in Hc. destruct Hout as [-> Hm]; [tauto|]. split; [done|tauto].
    + intros Hc Hown Hcur. rewrite elem_of_cons in Hc. destruct Hin as (released & -> & Hm); [tauto..|]. exists released. split; [done|tauto].
Qed.

Lemma refresh_fold now addrs e presence :
  let st := fold_left (refresh_present now) addrs (e, presence) in
  en_replica st.1 = en_replica e ∧ ∀ m, st.2 !! m = if decide (m ∈ addrs) then Some Present else presence !! m.
Proof.
  revert e presence. induction addrs as [|a addrs IH]; intros e presence; [by split|].
  cbn [fold_left refresh_present]. destruct (IH (seed_peer e a now) (<[a := Present]> presence)) as [-> Hm]. split; [done|].
  intros m. rewrite Hm. destruct (decide (m = a)) as [->|Hne].
  - rewrite lookup_insert_eq, (decide_True (P := a ∈ a :: addrs)) by left. by case_decide.
  - rewrite lookup_insert_ne by done. apply decide_ext. rewrite elem_of_cons. tauto.
Qed.

(** A round, member by member. *)
Lemma round_effect d resolved now d' m :
  discovery_round own_addr miss_threshold floor d resolved now = Some d' →
  let listed := bool_decide (m ≠ own_addr ∧ m ∈ resolved) in
  (m = own_addr → dv_presence d' !! m = dv_presence d !! m ∧ (member (dv_engine d') m ↔ member (dv_engine d) m)) ∧
  (m ≠ own_addr → ¬ member (dv_engine d) m →
   dv_presence d' !! m = (if listed then Some Present else dv_presence d !! m) ∧ ¬ member (dv_engine d') m) ∧
  (m ≠ own_addr → member (dv_engine d) m →
   ∃ released, member_round now (pending (dv_engine d) m) listed (dv_presence d !! m) = Some (dv_presence d' !! m, released) ∧
     (member (dv_engine d') m ↔ released = false)).
Proof.
  unfold discovery_round. set (current := list_to_set _ : gset P).
  assert (Hcur : m ∈ current ↔ m ≠ own_addr ∧ m ∈ resolved) by (unfold current; rewrite elem_of_list_to_set, list_elem_of_filter; done).
  pose proof (refresh_fold now (elements current) (dv_engine d) (dv_presence d)) as [Hrep Hpr].
  destruct (fold_left (refresh_present now) _ _) as [e1 presence1]. cbn [fst snd] in *.
  intros ([e2 presence2] & Hfold & [= <-])%bind_Some. cbn [dv_engine dv_presence]. rewrite Hrep in Hfold.
  pose proof (grace_fold now current _ e1 presence1 e2 presence2 m (NoDup_elements _) Hfold) as [Hout Hin].
  rewrite elem_of_elements, Hrep, Hpr in *. rewrite (decide_ext _ (m ∈ current)) in * by apply elem_of_elements.
  split_and!.
  - intros ->. destruct Hout as [-> Hm]; [tauto|]. rewrite decide_False by (rewrite Hcur; tauto). done.
  - intros Hown Hm. destruct Hout as [-> Hm']; [tauto|]. split; [|tauto]. case_decide; case_bool_decide; tauto.
  - intros Hown Hm. case_bool_decide as Hl; cbn [member_round].
    + destruct Hout as [-> Hm']; [tauto|]. rewrite decide_True by tauto. exists false. tauto.
    + rewrite decide_False in * by tauto. destruct Hin as (released & Hr & Hm'); [tauto..|]. exists released. split; [done|tauto].
Qed.

(** ** Histories *)

(** A discovery task's life: its rounds, and whatever the other tasks do to the engine in between. *)
Inductive DiscoveryEvent :=
| Tick (outcome : result (list P) unit) (now : N)
| Other (e : Eng).

Definition discovery_event d (ev : DiscoveryEvent) : option Disc :=
  match ev with
  | Tick outcome now => discovery_tick own_addr miss_threshold floor d outcome now
  | Other e => Some {| dv_engine := e; dv_presence := dv_presence d; dv_last := dv_last d |}
  end.
Fixpoint discovery_run d (evs : list DiscoveryEvent) : option Disc :=
  match evs with [] => Some d | ev :: evs => d ← discovery_event d ev; discovery_run d evs end.

(** The successful rounds, the latest first: when, and what was resolved. *)
Fixpoint rounds (evs : list DiscoveryEvent) (before : list (N * list P)) : list (N * list P) :=
  match evs with
  | [] => before
  | Tick (Ok resolved) now :: evs => rounds evs ((now, resolved) :: before)
  | _ :: evs => rounds evs before
  end.

(** [m] was reported once, and not in the [recent] rounds since. *)
Definition gone_since (m : P) (h recent : list (N * list P)) : Prop :=
  ∃ now resolved older, h = recent ++ (now, resolved) :: older ∧ m ∈ resolved ∧ Forall (λ r, m ∉ r.2) recent.

Definition explained (h : list (N * list P)) (m : P) (s : MemberPresence) : Prop :=
  ∃ recent, gone_since m h recent ∧
    match s with
    | Present => True
    | Absent since misses => (misses ≤ len recent)%N ∧ ∃ resolved, (since, resolved) ∈ recent
    end.

Definition presence_explained (h : list (N * list P)) presence : Prop :=
  ∀ m s, presence !! m = Some s → m ≠ own_addr ∧ explained h m s.

Lemma explained_listed h m now resolved : m ∈ resolved → explained ((now, resolved) :: h) m Present.
Proof. intros Hm. exists []. split; [|done]. exists now, resolved, h. split_and!; [done|done|constructor]. Qed.

Lemma gone_cons m h recent now resolved : m ∉ resolved → gone_since m h recent → gone_since m ((now, resolved) :: h) ((now, resolved) :: recent).
Proof. intros Hm (t & r & older & -> & Hr & Hrec). exists t, r, older. split_and!; [done|done|by constructor]. Qed.

Lemma explained_kept h m s now resolved : m ∉ resolved → explained h m s → explained ((now, resolved) :: h) m s.
Proof.
  intros Hm (recent & Hg & Hs). exists ((now, resolved) :: recent). split; [by apply gone_cons|].
  destruct s as [|since misses]; [done|]. destruct Hs as [Hle [r Hin]]. cbn [length]. split; [lia|]. exists r. by right.
Qed.

Lemma explained_missed h m s s' now resolved :
  m ∉ resolved → mark_missed s now = Some s' → explained h m s → explained ((now, resolved) :: h) m s'.
Proof.
  intros Hm Hs (recent & Hg & Hd). exists ((now, resolved) :: recent). split; [by apply gone_cons|].
  destruct s as [|since misses]; cbn in Hs.
  - injection Hs as <-. cbn [length]. split; [lia|]. exists resolved. left.
  - unfold u32_try_from in Hs. destruct (_ <=? _)%N; [|done]. injection Hs as <-. destruct Hd as [Hle [r Hin]]. cbn [length].
    split; [lia|]. exists r. by right.
Qed.

Lemma round_explained h d resolved now d' :
  discovery_round own_addr miss_threshold floor d resolved now = Some d' → presence_explained h (dv_presence d) →
  presence_explained ((now, resolved) :: h) (dv_presence d').
Proof.
  intros Hr Hp m s Hs. destruct (round_effect d resolved now d' m Hr) as (Hown & Hnon & Hmem).
  destruct (decide (m = own_addr)) as [->|Hne].
  { destruct (Hown eq_refl) as [Heq _]. rewrite Heq in Hs. by destruct (Hp _ _ Hs). }
  split; [done|]. destruct (decide (m ∈ resolved)) as [Hin|Hnin].
  - assert (s = Present) as ->; [|by apply explained_listed]. rewrite bool_decide_eq_true_2 in * by done.
    destruct (decide (member (dv_engine d) m)) as [Hm|Hm].
    + destruct (Hmem Hne Hm) as (rel & Heq & _). cbn in Heq. congruence.
    + destruct (Hnon Hne Hm) as [Heq _]. congruence.
  - rewrite bool_decide_eq_false_2 in * by tauto. destruct (decide (member (dv_engine d) m)) as [Hm|Hm].
    + destruct (Hmem Hne Hm) as (rel & Heq & _). cbn [member_round] in Heq. rewrite Hs in Heq.
      destruct (dv_presence d !! m) as [s0|] eqn:Hs0; [|done]. apply bind_Some in Heq as (s1 & Hs1 & Heq).
      destruct (eligible_for_decommission _ _ _ _ _); [done|]. injection Heq as <- _.
      apply (explained_missed h m s0); [done|done|]. by destruct (Hp _ _ Hs0).
    + destruct (Hnon Hne Hm) as [Heq _]. rewrite Heq in Hs. destruct (Hp _ _ Hs). by apply explained_kept.
Qed.

Lemma run_explained d evs d' h :
  discovery_run d evs = Some d' → presence_explained h (dv_presence d) → presence_explained (rounds evs h) (dv_presence d').
Proof.
  revert d h. induction evs as [|[[resolved|[]] now|e] evs IH]; intros d h; cbn [discovery_run rounds].
  - by intros [= ->].
  - intros (d1 & Hr & Hrun)%bind_Some Hp. eapply IH; [done|]. by apply (round_explained h d).
  - intros Hrun Hp. by apply (IH d).
  - intros Hrun Hp. eapply IH; [exact Hrun|exact Hp].
Qed.

(** [n] further successful rounds that miss [m]. In between other tasks may change the engine in any
    way, but do not themselves drop [m] from the members; no tombstone waits for [m] when a round runs. *)
Inductive vanishing (m : P) : Disc → nat → Disc → Prop :=
| vanish_now d : vanishing m d 0 d
| vanish_next d n d1 e resolved now d2 :
    vanishing m d n d1 → (member (dv_engine d1) m → member e m) → pending e m = false → m ∉ resolved →
    discovery_round own_addr miss_threshold floor {| dv_engine := e; dv_presence := dv_presence d1; dv_last := dv_last d1 |} resolved now = Some d2 →
    vanishing m d (Datatypes.S n) d2.

(** [m] is a member that the last [n] rounds missed. *)
Definition missed (m : P) (n : nat) (d : Disc) : Prop :=
  member (dv_engine d) m ∧ match n with
                           | 0 => dv_presence d !! m = Some Present
                           | _ => ∃ since, dv_presence d !! m = Some (Absent since (N.of_nat n))
                           end.

Lemma vanishing_counted m d n d' :
  m ≠ own_addr → missed m 0 d → vanishing m d n d' → n ≤ N.to_nat (N.max 1 miss_threshold) →
  if decide (n < N.to_nat (N.max 1 miss_threshold)) then missed m n d'
  else dv_presence d' !! m = None ∧ ¬ member (dv_engine d') m.
Proof.
  intros Hown Hd Hv. induction Hv as [d|d n d1 e resolved now d2 Hv IH Hkeep Hpend Hres Hr]; [intros _; rewrite decide_True by lia; done|]. intros Hle.
  specialize (IH Hd ltac:(lia)). rewrite decide_True in IH by lia. destruct IH as [Hm1 Hp1]. apply Hkeep in Hm1.
  destruct (round_effect _ _ _ _ m Hr) as (_ & _ & Heff). destruct (Heff Hown Hm1) as (rel & Hmr & Hrel). clear Heff. cbn [dv_engine dv_presence] in *.
  rewrite bool_decide_eq_false_2 in Hmr by tauto. cbn [member_round] in Hmr. rewrite Hpend in Hmr.
  assert (Hs : ∃ s since, dv_presence d1 !! m = Some s ∧ ∀ s1, mark_missed s now = Some s1 → s1 = Absent since (N.of_nat (Datatypes.S n))).
  { destruct n as [|n]; [exists Present, now; split; [done|by intros s1 [= <-]]|]. destruct Hp1 as [since Hp1].
    exists (Absent since (N.of_nat (Datatypes.S n))), since. split; [done|]. intros s1. cbn. unfold u32_try_from. destruct (_ <=? _)%N; [|done].
    intros [= <-]. f_equal. lia. }
  destruct Hs as (s & since & Hs & Hmark). rewrite Hs in Hmr. apply bind_Some in Hmr as (s1 & ->%Hmark & Hmr).
  cbn [eligible_for_decommission negb orb] in Hmr.
  destruct (N.ltb_spec (N.of_nat (Datatypes.S n)) miss_threshold); injection Hmr as Hp2 <-.
  - rewrite decide_True by lia. split; [by apply Hrel|by exists since].
  - rewrite decide_False by lia. split; [done|]. intros Hm2%Hrel. done.
Qed.

(** ** Properties *)

(** C13. A discovery round releases a member only for good reasons: the round succeeded, the
    member is not this node, the source reported it in an earlier round and in none of the at least
    [miss_threshold] successful rounds since, this one included; and when a tombstone still waits
    for its acknowledgement, one of those rounds is at least [floor] ago. Whatever the other tasks
    did to the engine in between. *)
Theorem decommission_needs_absence e evs d outcome now d' m :
  discovery_run (discovery_start e) evs = Some d →
  discovery_tick own_addr miss_threshold floor d (outcome : result (list P) unit) now = Some d' →
  member (dv_engine d) m → ¬ member (dv_engine d') m →
  ∃ resolved recent, outcome = Ok resolved ∧ m ≠ own_addr ∧
    gone_since m ((now, resolved) :: rounds evs []) recent ∧ (miss_threshold ≤ len recent)%N ∧
    (pending (dv_engine d) m = true → ∃ since r, (since, r) ∈ recent ∧ (floor ≤ now - since)%N).
Proof.
  intros Hrun Htick Hm Hm'. destruct outcome as [resolved|]; cbn in Htick; [|injection Htick as <-; done].
  assert (Hex : presence_explained (rounds evs []) (dv_presence d)) by (eapply run_explained; [exact Hrun|]; intros m0 s0 Hs; cbn in Hs; by rewrite lookup_empty in Hs).
  destruct (round_effect _ _ _ _ m Htick) as (Hown & _ & Hmem).
  destruct (decide (m = own_addr)) as [->|Hne]; [destruct (Hown eq_refl) as [_ Hiff]; tauto|].
  destruct (Hmem Hne Hm) as (rel & Hr & Hrel). assert (rel = true) as -> by (destruct rel; tauto).
  unfold member_round in Hr. case_bool_decide as Hl; [done|]. destruct (dv_presence d !! m) as [s|] eqn:Hs; [|done].
  apply bind_Some in Hr as (s1 & Hs1 & Hr). destruct (eligible_for_decommission _ _ _ _ _) eqn:Hel; [|done].
  destruct (explained_missed (rounds evs []) m s s1 now resolved) as (recent & Hg & Hd); [tauto|done|by apply Hex|].
  exists resolved, recent. split_and!; [done|done|done|..].
  - destruct s1 as [|since misses]; [done|]. cbn in Hel. destruct (N.ltb_spec misses miss_threshold); [done|]. lia.
  - intros Hpend. rewrite Hpend in Hel. destruct s1 as [|since misses]; [done|]. cbn in Hel. destruct (misses <? miss_threshold)%N; [done|].
    destruct Hd as [_ [r Hin]]. exists since, r. split; [done|]. apply N.leb_le in Hel. exact Hel.
Qed.

(** C23. A member the source reported and then stops reporting stays a member, with its misses
    counted, through every round before the one that makes the misses reach the threshold, and that
    round releases it. This is when no tombstone waits for it, only successful rounds are counted, and
    no other task drops it. *)
Theorem vanished_member_released m d n d' :
  m ≠ own_addr → dv_presence d !! m = Some Present → member (dv_engine d) m → vanishing m d n d' →
  (n < N.to_nat (N.max 1 miss_threshold) → missed m n d') ∧
  (n = N.to_nat (N.max 1 miss_threshold) → dv_presence d' !! m = None ∧ ¬ member (dv_engine d') m).
Proof.
  intros Hown Hp Hm Hv. pose proof (vanishing_counted m d n d' Hown (conj Hm Hp) Hv) as Hc.
  split; intros Hn; specialize (Hc ltac:(lia)); [by rewrite decide_True in Hc|by rewrite decide_False in Hc by lia].
Qed.
End props.

(** ** Witnesses *)

#[local] Existing Instances small_lww small_state.

Definition member_engine (m : N) : Engine (K := N) (E := N) (C := N) (St := bool) (P := N) (Ag := unit) (R := unit) :=
  set_replica small_engine (admit_member small_replica m) 9%N.
Definition listing : list (DiscoveryEvent (K := N) (E := N) (C := N) (St := bool) (P := N) (Ag := unit) (R := unit)) :=
  [Tick (Ok [50%N; 1%N]) 10; Other (member_engine 50); Tick (Ok [1%N]) 20; Tick (Err tt) 30].

Definition demo_discoverer : Discoverer := default (discovery_start small_engine) (discovery_run 1%N 2 100 (discovery_start small_engine) listing).
Definition demo_released : Discoverer := default demo_discoverer (discovery_tick 1%N 2 100 demo_discoverer (Ok [] : result (list N) unit) 200).

Lemma decommission_needs_absence_witness :
  ∃ resolved recent, (Ok [] : result (list N) unit) = Ok resolved ∧ 50%N ≠ 1%N ∧
    gone_since 50%N ((200%N, resolved) :: rounds listing []) recent ∧ (2 ≤ len recent)%N ∧
    (has_pending_tombstone_acks (en_replica (dv_engine demo_discoverer)) 50%N = true → ∃ since r, (since, r) ∈ recent ∧ (100 ≤ 200 - since)%N).
Proof.
  apply (decommission_needs_absence 1%N 2 100 small_engine listing demo_discoverer (Ok []) 200 demo_released 50%N).
  - vm_compute. reflexivity.
  - vm_compute. reflexivity.
  - decided.
  - decided.
Defined.

Lemma vanished_member_released_witness :
  dv_presence demo_released !! 50%N = None ∧ 50%N ∉ rp_members (en_replica (dv_engine demo_released)).
Proof.
  set (reported := default (discovery_start small_engine) (discovery_run 1%N 2 100 (discovery_start small_engine) (take 2 listing))).
  destruct (vanished_member_released 1%N 2 100 50%N reported 2 demo_released) as [_ Hrel]; [done|vm_compute; reflexivity|decided| |].
  - set (later := default reported (discovery_run 1%N 2 100 reported (take 2 (drop 2 listing)))).
    apply (vanish_next 1%N 2 100 50%N reported 1 later (dv_engine later) [] 200).
    + apply (vanish_next 1%N 2 100 50%N reported 0 reported (dv_engine reported) [1%N] 20);
        [constructor|done|vm_compute; reflexivity|decided|vm_compute; reflexivity].
    + done.
    + vm_compute. reflexivity.
    + decided.
    + vm_compute. reflexivity.
  - apply Hrel. reflexivity.
Defined.
