(* ===== verification/Endpoints.v ===== *)
(** * Endpoint hints for the signed replica ([gossip/src/discovery/endpoints.rs],
      [src/signed_replica/discovery.rs])

    Bounded, untrusted endpoint hints and the rate-limited rotation that probes them. The resolver's
    answer is an argument, [None] when the timeout elapses first. *)
From stdpp Require Import gmap list.
From Stdlib Require Import NArith.
From Stdlib.Strings Require Import Byte.
From S2P Require Import Prelude Bytes Replay Auth Framing Reassembly Peer Routes RecoveryBook Journal SignedCausal SignedNetwork SignedNetworkProps.

Inductive EndpointError := InvalidLimits | TimedOut | ResolverFailed | CandidateCap.

Record EndpointDiscoveryConfig := {
  max_candidates : nat;
  max_probes : nat;
  resolve_timeout : N;
  probe_interval : N;
}.

(** The counts are [NonZeroUsize]. *)
Definition config_new (candidates probes : nat) (timeout interval : N) : result EndpointDiscoveryConfig EndpointError :=
  if (candidates <? probes) || (timeout =? 0)%N || (interval =? 0)%N then Err InvalidLimits
  else Ok {| max_candidates := candidates; max_probes := probes; resolve_timeout := timeout; probe_interval := interval |}.

Definition config_default : EndpointDiscoveryConfig :=
  {| max_candidates := N.to_nat 256; max_probes := 16; resolve_timeout := seconds 5; probe_interval := seconds 1 |}.

Section endpoints.
Context {A : Type} `{EqDecision A}.

Record EndpointDiscoveryState := {
  ed_config : EndpointDiscoveryConfig;
  ed_candidates : list A;
  ed_cursor : nat;
  ed_last_probe : option N;
}.
Implicit Types (s : EndpointDiscoveryState).

Definition endpoints_new (config : EndpointDiscoveryConfig) : EndpointDiscoveryState :=
  {| ed_config := config; ed_candidates := []; ed_cursor := 0; ed_last_probe := None |}.

(** The deduplication loop: first occurrences, in order. *)
Definition push_candidate (candidates : list A) (candidate : A) : list A :=
  if decide (candidate ∈ candidates) then candidates else candidates ++ [candidate].
Definition dedup (raw : list A) : list A := fold_left push_candidate raw [].

(** [iter().position(|item| item == endpoint)] *)
Fixpoint index_of (x : A) (l : list A) : option nat :=
  match l with
  | [] => None
  | y :: l => if decide (y = x) then Some 0 else S <$> index_of x l
  end.

Definition refresh {Er} s (resolved : option (result (list A) Er)) : EndpointDiscoveryState * result unit EndpointError :=
  match resolved with
  | None => (s, Err TimedOut)
  | Some (Err _) => (s, Err ResolverFailed)
  | Some (Ok raw) =>
      if max_candidates (ed_config s) <? length raw then (s, Err CandidateCap)
      else
        let candidates := dedup raw in
        let cursor := default 0 (ed_candidates s !! ed_cursor s ≫= λ endpoint, index_of endpoint candidates) in
        ({| ed_config := ed_config s; ed_candidates := candidates; ed_cursor := cursor; ed_last_probe := ed_last_probe s |}, Ok tt)
  end.

Definition candidate_count s : nat := length (ed_candidates s).

(** The loop of [next_probes]; [None] is an index out of bounds. *)
Fixpoint take_probes (candidates : list A) (count cursor : nat) : option (list A * nat) :=
  match count with
  | 0 => Some ([], cursor)
  | S count =>
      endpoint ← candidates !! cursor;
      '(probes, cursor) ← take_probes candidates count ((cursor + 1) mod length candidates);
      Some (endpoint :: probes, cursor)
  end.

Definition cooling s (now : N) : bool :=
  match ed_last_probe s with
  | Some last => (saturating_sub now last <? probe_interval (ed_config s))%N
  | None => false
  end.

Definition next_probes s (now : N) : option (EndpointDiscoveryState * list A) :=
  if bool_decide (ed_candidates s = []) || cooling s now then Some (s, [])
  else
    let count := min (max_probes (ed_config s)) (length (ed_candidates s)) in
    '(probes, cursor) ← take_probes (ed_candidates s) count (ed_cursor s);
    Some ({| ed_config := ed_config s; ed_candidates := ed_candidates s; ed_cursor := cursor; ed_last_probe := Some now |}, probes).
End endpoints.
Arguments EndpointDiscoveryState A : clear implicits.

(** ** Probing from a signed replica *)

Section probe.
Context {K V S E C A B : Type} `{Countable K} `{Lww V S E C} `{!Persistence K E PeerId B} `{EqDecision A} `{Ed25519, Mac, Aead}.
Context (nonce : N → list byte) (wall : N → N) (serialize : SignedMessage K E → result (list byte) IoError).
Notation Act := (Act (K := K) (E := E) (C := C) (A := A) (B := B)).
#[local] Existing Instances Act_ret Act_bind.

(** [map(probe).collect()]: the first error ends it. *)
Fixpoint probe_all (endpoints : list A) : Act (list (RoutedDatagram A)) :=
  match endpoints with
  | [] => mret []
  | endpoint :: endpoints =>
      d ← probe nonce wall serialize endpoint;
      rest ← probe_all endpoints;
      mret (d :: rest)
  end.

(** The state of the hints is taken even when a probe fails. *)
Definition probe_discovered (s : EndpointDiscoveryState A) (now : N) (n : SignedNode (K := K) (E := E) (C := C) (A := A) (B := B))
    : option (EndpointDiscoveryState A * (SignedNode * result (list (RoutedDatagram A)) IoError)) :=
  '(s, endpoints) ← next_probes s now;
  res ← probe_all endpoints n;
  Some (s, res).
End probe.

(** ** Lemmas *)

Section props.
Context {A : Type} `{EqDecision A}.
Implicit Types (s : EndpointDiscoveryState A) (l raw : list A).

Lemma push_candidate_spec l x : NoDup l → NoDup (push_candidate l x) ∧ ∀ y, y ∈ push_candidate l x ↔ y ∈ l ∨ y = x.
Proof.
  intros Hl. unfold push_candidate. case_decide as Hx; [split; [done|]; set_solver|].
  split; [|set_solver]. apply NoDup_app. split_and!; [done| |apply NoDup_singleton]. set_solver.
Qed.

Lemma dedup_from raw l : NoDup l →
  NoDup (fold_left push_candidate raw l) ∧ (∀ y, y ∈ fold_left push_candidate raw l ↔ y ∈ l ∨ y ∈ raw) ∧
  length (fold_left push_candidate raw l) ≤ length l + length raw.
Proof.
  revert l. induction raw as [|x raw IH]; intros l Hl; cbn [fold_left length]; [split_and!; [done|set_solver|lia]|].
  destruct (push_candidate_spec l x Hl) as [Hnd Hel]. destruct (IH _ Hnd) as (Hnd' & Hel' & Hlen). split_and!; [done| |].
  - intros y. rewrite Hel', Hel, elem_of_cons. tauto.
  - etransitivity; [exact Hlen|]. unfold push_candidate. case_decide; rewrite ?length_app; cbn [length]; lia.
Qed.

Lemma index_of_spec x l i : index_of x l = Some i → l !! i = Some x.
Proof.
  revert i. induction l as [|y l IH]; intros i; cbn [index_of]; [done|]. case_decide as Hy; [intros [= <-]; by subst|].
  intros (j & Hj & ->)%fmap_Some. by apply IH.
Qed.
Lemma index_of_nodup x l i : NoDup l → l !! i = Some x → index_of x l = Some i.
Proof.
  revert i. induction l as [|y l IH]; intros i Hnd; [by rewrite lookup_nil|]. apply NoDup_cons in Hnd as [Hy Hnd]. cbn [index_of].
  destruct i as [|i]; cbn; [intros [= ->]; by rewrite decide_True|]. intros Hi.
  rewrite decide_False by (intros ->; apply Hy; by eapply list_elem_of_lookup_2). by rewrite (IH i Hnd Hi).
Qed.

(** The hints are distinct and within the cap, and the cursor points at one of them. *)
Record endpoints_ok s : Prop := {
  eo_nodup : NoDup (ed_candidates s);
  eo_cap : length (ed_candidates s) ≤ max_candidates (ed_config s);
  eo_cursor : ed_candidates s ≠ [] → ed_cursor s < length (ed_candidates s);
}.

Lemma endpoints_new_ok config : endpoints_ok (endpoints_new config).
Proof. constructor; cbn; [constructor|lia|done]. Qed.

Lemma refresh_ok {Er} s (resolved : option (result (list A) Er)) : endpoints_ok s → endpoints_ok (refresh s resolved).1.
Proof.
  intros Hs. destruct resolved as [[raw|e]|]; cbn [refresh]; [|done..]. destruct (Nat.ltb_spec (max_candidates (ed_config s)) (length raw)); [done|].
  destruct (dedup_from raw [] (NoDup_nil_2)) as (Hnd & _ & Hlen). cbn in Hlen. constructor; cbn; [done|unfold dedup; lia|]. intros Hne.
  destruct (ed_candidates s !! ed_cursor s ≫= _) as [i|] eqn:Hi; cbn.
  - apply bind_Some in Hi as (x & _ & Hi%index_of_spec). by eapply lookup_lt_Some.
  - destruct (dedup raw); [done|]. cbn. lia.
Qed.

(** A batch reads the hints cyclically. *)
Lemma take_probes_spec l count cursor : cursor < length l →
  ∃ batch, take_probes l count cursor = Some (batch, (cursor + count) mod length l) ∧ length batch = count ∧
    ∀ i, i < count → batch !! i = l !! ((cursor + i) mod length l).
Proof.
  revert cursor. induction count as [|count IH]; intros cursor Hc; cbn [take_probes].
  { exists []. rewrite Nat.add_0_r, Nat.mod_small by done. split_and!; [done|done|lia]. }
  destruct (lookup_lt_is_Some_2 l cursor Hc) as [x Hx]. rewrite Hx. cbn [mbind option_bind].
  assert (Hne : length l ≠ 0) by lia.
  destruct (IH ((cursor + 1) mod length l)) as (batch & -> & Hlen & Hb); [by apply Nat.mod_upper_bound|]. cbn [mbind option_bind].
  rewrite Nat.Div0.add_mod_idemp_l, <- Nat.add_assoc. exists (x :: batch). split_and!; [done|cbn; lia|]. intros [|i] Hi; cbn.
  - by rewrite Nat.add_0_r, Nat.mod_small by done.
  - rewrite Hb, Nat.Div0.add_mod_idemp_l by lia. f_equal. f_equal. lia.
Qed.

Lemma mod_window (a i j n : nat) : i < n → j < n → (a + i) mod n = (a + j) mod n → i = j.
Proof.
  intros Hi Hj Heq. pose proof (Nat.div_mod (a + i) n ltac:(lia)) as Ei. pose proof (Nat.div_mod (a + j) n ltac:(lia)) as Ej.
  rewrite Heq in Ei. generalize dependent ((a + i) / n). generalize dependent ((a + j) / n). generalize ((a + j) mod n). intros r q Ej q' Ei.
  destruct (Nat.lt_trichotomy q q') as [Hq|[->|Hq]]; [|lia|]; exfalso.
  - assert (n * (q + 1) ≤ n * q') by (apply Nat.mul_le_mono_l; lia). lia.
  - assert (n * (q' + 1) ≤ n * q) by (apply Nat.mul_le_mono_l; lia). lia.
Qed.

Record probe_result s (now : N) (s' : EndpointDiscoveryState A) (batch : list A) : Prop := {
  pr_config : ed_config s' = ed_config s;
  pr_same : ed_candidates s' = ed_candidates s;
  pr_nodup : NoDup batch;
  pr_size : length batch ≤ max_probes (ed_config s);
  pr_hints : batch ⊆ ed_candidates s;
  pr_quiet : batch = [] → max_probes (ed_config s) = 0 ∨ s' = s;
  pr_spaced : batch ≠ [] → cooling s now = false ∧ ed_last_probe s' = Some now ∧
    length batch = min (max_probes (ed_config s)) (length (ed_candidates s)) ∧
    ed_cursor s' = (ed_cursor s + length batch) mod length (ed_candidates s) ∧
    ∀ i, i < length batch → batch !! i = ed_candidates s !! ((ed_cursor s + i) mod length (ed_candidates s));
}.

(** [next_probes] never panics. *)
Lemma next_probes_spec s now : endpoints_ok s → ∃ s' batch, next_probes s now = Some (s', batch) ∧ endpoints_ok s' ∧ probe_result s now s' batch.
Proof.
  intros [Hnd Hcap Hcur]. unfold next_probes. case_bool_decide as Hne; cbn [orb].
  { exists s, []. split_and!; [done|done|]. constructor; try done; [constructor|cbn; lia|set_solver|by right]. }
  destruct (cooling s now) eqn:Hcool.
  { exists s, []. split_and!; [done|done|]. constructor; try done; [constructor|cbn; lia|set_solver|by right]. }
  specialize (Hcur Hne). set (l := ed_candidates s) in *. set (count := min _ _).
  destruct (take_probes_spec l count (ed_cursor s) Hcur) as (batch & -> & Hlen & Hb). cbn [mbind option_bind].
  assert (Hl0 : length l ≠ 0) by lia. eexists _, batch. split; [done|]. split.
  - constructor; cbn; [done|done|]. intros _. by apply Nat.mod_upper_bound.
  - constructor; cbn [ed_config ed_candidates ed_last_probe ed_cursor].
    + done.
    + done.
    + apply NoDup_alt. intros i j x Hi Hj. pose proof (lookup_lt_Some _ _ _ Hi). pose proof (lookup_lt_Some _ _ _ Hj).
      rewrite Hb in Hi, Hj by lia. apply (mod_window (ed_cursor s) i j (length l)); [unfold count in *; lia..|].
      by apply (NoDup_lookup l _ _ x).
    + unfold count in *. lia.
    + intros x [i Hi]%list_elem_of_lookup. pose proof (lookup_lt_Some _ _ _ Hi). rewrite Hb in Hi by lia. by eapply list_elem_of_lookup_2.
    + intros ->. cbn in Hlen. left. unfold count in *. lia.
    + intros _. rewrite Hlen. split_and!; [done..|]. intros i Hi. apply Hb. lia.
Qed.

(** ** Runs *)

Inductive EndpointOp :=
| Refresh (resolved : option (result (list A) unit))
| Probe (now : N).

(** The batches taken, with the time of each. *)
Fixpoint endpoint_run s (ops : list EndpointOp) : option (EndpointDiscoveryState A * list (N * list A)) :=
  match ops with
  | [] => Some (s, [])
  | Refresh resolved :: ops => endpoint_run (refresh s resolved).1 ops
  | Probe now :: ops =>
      '(s, batch) ← next_probes s now;
      '(s, log) ← endpoint_run s ops;
      Some (s, if bool_decide (batch = []) then log else (now, batch) :: log)
  end.

(** Each batch comes [interval] after the one before it. *)
Fixpoint spaced (interval : N) (last : option N) (log : list (N * list A)) : Prop :=
  match log with
  | [] => True
  | (now, _) :: log => (∀ before, last = Some before → (before + interval ≤ now)%N) ∧ spaced interval (Some now) log
  end.

Lemma run_paced s ops : endpoints_ok s → (0 < max_probes (ed_config s))%nat → (0 < probe_interval (ed_config s))%N →
  ∃ s' log, endpoint_run s ops = Some (s', log) ∧ endpoints_ok s' ∧ ed_config s' = ed_config s ∧
    Forall (λ b, NoDup b.2 ∧ length b.2 ≤ max_probes (ed_config s)) log ∧ spaced (probe_interval (ed_config s)) (ed_last_probe s) log.
Proof.
  revert s. induction ops as [|[resolved|now] ops IH]; intros s Hs Hp Hi; cbn [endpoint_run].
  - exists s, []. split_and!; [done..|constructor|done].
  - assert (Hc : ed_config (refresh s resolved).1 = ed_config s ∧ ed_last_probe (refresh s resolved).1 = ed_last_probe s).
    { destruct resolved as [[raw|e]|]; cbn [refresh]; [|done..]. by destruct (_ <? _). }
    destruct Hc as [Hc Hl]. rewrite <- Hc, <- Hl. apply IH; [by apply refresh_ok|by rewrite Hc..].
  - destruct (next_probes_spec s now Hs) as (s1 & batch & -> & Hs1 & Hr). cbn [mbind option_bind].
    destruct (IH s1 Hs1) as (s2 & log & -> & Hs2 & Hc2 & Hf & Hsp); [by rewrite (pr_config _ _ _ _ Hr)..|]. cbn [mbind option_bind].
    rewrite (pr_config _ _ _ _ Hr) in *. exists s2. case_bool_decide as Hb.
    + exists log. split_and!; [done|done|done|done|]. destruct (pr_quiet _ _ _ _ Hr Hb) as [?| ->]; [lia|done].
    + exists ((now, batch) :: log). destruct (pr_spaced _ _ _ _ Hr Hb) as (Hcool & Hlast & _). split_and!; [done..| |].
      * constructor; [|done]. split; [apply (pr_nodup _ _ _ _ Hr)|apply (pr_size _ _ _ _ Hr)].
      * cbn [spaced]. rewrite Hlast in Hsp. split; [|done]. intros before Hbefore. unfold cooling in Hcool. rewrite Hbefore in Hcool.
        apply N.ltb_ge in Hcool. unfold saturating_sub in Hcool. lia.
Qed.

(** A refresh that resolves the same hints changes nothing. *)
Lemma refresh_same s raw : endpoints_ok s → length raw ≤ max_candidates (ed_config s) → dedup raw = ed_candidates s → ed_candidates s ≠ [] →
  (refresh s (Some (Ok raw) : option (result (list A) unit))).1 = s.
Proof.
  intros [Hnd Hcap Hcur] Hraw Hd Hne. cbn [refresh]. destruct (Nat.ltb_spec (max_candidates (ed_config s)) (length raw)); [lia|].
  cbn [fst]. rewrite Hd. destruct (lookup_lt_is_Some_2 _ _ (Hcur Hne)) as [x Hx]. rewrite Hx. cbn [mbind option_bind].
  rewrite (index_of_nodup x _ (ed_cursor s) Hnd Hx). by destruct s.
Qed.

(** Refreshes in [ops] keep the hints [l]. *)
Definition keeps_hints (cap : nat) l (op : EndpointOp) : Prop :=
  match op with
  | Refresh (Some (Ok raw)) => cap < length raw ∨ dedup raw = l
  | _ => True
  end.

(** The batches, one after the other, read the hints cyclically from the cursor. *)
Lemma run_cycles s ops s' log : endpoints_ok s → 0 < max_probes (ed_config s) → ed_candidates s ≠ [] →
  Forall (keeps_hints (max_candidates (ed_config s)) (ed_candidates s)) ops → endpoint_run s ops = Some (s', log) →
  ∀ i, i < length (concat (log.*2)) → concat (log.*2) !! i = ed_candidates s !! ((ed_cursor s + i) mod length (ed_candidates s)).
Proof.
  intros Hs Hp Hne Hops. revert s Hs Hp Hne Hops log. induction ops as [|[resolved|now] ops IH]; intros s Hs Hp Hne Hops log; cbn [endpoint_run].
  - intros [= _ <-] i Hi. cbn in Hi. lia.
  - apply Forall_cons in Hops as [Hk Hops]. assert (Hsame : (refresh s resolved).1 = s).
    { destruct resolved as [[raw|e]|]; [|done..]. destruct Hk as [Hbig|Hd].
      - cbn [refresh]. destruct (Nat.ltb_spec (max_candidates (ed_config s)) (length raw)); [done|lia].
      - destruct (decide (length raw ≤ max_candidates (ed_config s))); [by apply refresh_same|].
        cbn [refresh]. destruct (Nat.ltb_spec (max_candidates (ed_config s)) (length raw)); [done|lia]. }
    rewrite Hsame. by apply IH.
  - apply Forall_cons in Hops as [_ Hops]. destruct (next_probes_spec s now Hs) as (s1 & batch & -> & Hs1 & Hr). cbn [mbind option_bind].
    intros ([s2 log1] & Hrun & Heq)%bind_Some. injection Heq as -> <-. destruct Hr as [Hcfg Hsame _ _ _ Hq Hsp].
    pose proof (IH s1 Hs1) as IH1. rewrite Hcfg, Hsame in IH1. specialize (IH1 Hp Hne Hops log1 Hrun). case_bool_decide as Hb.
    + destruct (Hq Hb) as [?| ->]; [lia|done].
    + destruct (Hsp Hb) as (_ & _ & _ & Hcur & Hread). intros i. rewrite fmap_cons. cbn [concat snd]. rewrite length_app. intros Hi.
      destruct (decide (i < length batch)) as [Hlt|Hge]; [rewrite lookup_app_l by done; by apply Hread|].
      rewrite lookup_app_r, IH1 by lia. f_equal. rewrite Hcur, Nat.Div0.add_mod_idemp_l. f_equal. lia.
Qed.

(** ** Properties *)

(** Whatever the resolver answers and whenever it is called, also with a clock that goes
    back, the schedule never panics, retains at most [max_candidates] hints, and takes batches of at
    most [max_probes] distinct endpoints, each at least [probe_interval] after the one before. *)
Theorem endpoint_probes_paced candidates probes timeout interval config ops :
  config_new candidates probes timeout interval = Ok config → 0 < probes →
  ∃ s log, endpoint_run (endpoints_new config) ops = Some (s, log) ∧ candidate_count s ≤ candidates ∧
    Forall (λ b, NoDup b.2 ∧ length b.2 ≤ probes) log ∧ spaced interval None log.
Proof.
  unfold config_new. destruct (_ || _) eqn:Hlimits; [done|]. bool_to_prop. intros [= <-] Hp.
  destruct (run_paced _ ops (endpoints_new_ok {| max_candidates := candidates; max_probes := probes; resolve_timeout := timeout; probe_interval := interval |}))
    as (s & log & Hrun & Hok & Hcfg & Hf & Hs); [done|cbn; lia|]. exists s, log. split_and!; [done| |done|done].
  pose proof (eo_cap _ Hok) as Hcap. by rewrite Hcfg in Hcap.
Qed.

(** C33. The rotation reaches every hint: while the resolver keeps giving the same hints, fails,
    or answers too much, any batches that add up to as many probes as there are hints contain each of
    them. *)
Theorem endpoint_rotation_covers s ops s' log x :
  endpoints_ok s → 0 < max_probes (ed_config s) →
  Forall (keeps_hints (max_candidates (ed_config s)) (ed_candidates s)) ops → endpoint_run s ops = Some (s', log) →
  length (ed_candidates s) ≤ length (concat (log.*2)) → x ∈ ed_candidates s → x ∈ concat (log.*2).
Proof.
  intros Hs Hp Hops Hrun Hlen [i Hi]%list_elem_of_lookup. set (l := ed_candidates s) in *.
  assert (Hne : l ≠ []) by (intros Hnil; by rewrite Hnil in Hi). pose proof (lookup_lt_Some _ _ _ Hi) as Hil.
  pose proof (run_cycles s ops s' log Hs Hp Hne Hops Hrun) as Hcyc. pose proof (eo_cursor _ Hs Hne) as Hcur. fold l in Hcyc, Hcur.
  apply list_elem_of_lookup. exists ((i + length l - ed_cursor s) mod length l).
  rewrite Hcyc by (eapply Nat.lt_le_trans; [apply Nat.mod_upper_bound|]; lia).
  rewrite Nat.Div0.add_mod_idemp_r. replace (ed_cursor s + (i + length l - ed_cursor s)) with (i + 1 * length l) by lia.
  by rewrite Nat.Div0.mod_add, Nat.mod_small.
Qed.
End props.

Section probe_props.
Context {K V S E C A B : Type} `{Countable K} `{Lww V S E C} `{!Persistence K E PeerId B} `{EqDecision A} `{Ed25519, Mac, Aead}.
Context (nonce : N → list byte) (wall : N → N) (serialize : SignedMessage K E → result (list byte) IoError).
Notation Node := (SignedNode (K := K) (E := E) (C := C) (A := A) (B := B)).

Lemma keeps_probe endpoint : keeps (probe (K := K) (E := E) (C := C) (A := A) (B := B) nonce wall serialize endpoint).
Proof.
  apply keeps_bind; [apply keeps_encode|]. intros message. apply keeps_bind; [|intros; apply keeps_ret].
  intros n n' res. unfold seal_here. destruct (boundary_seal _ _ _ _). by intros [= <- <-].
Qed.

(** Probing untrusted endpoints does not touch the signed causal replica. *)
Lemma probes_grant_nothing s now (n : Node) s' n' res :
  probe_discovered nonce wall serialize s now n = Some (s', (n', res)) → same_replica n n'.
Proof.
  intros ([s1 endpoints] & _ & ([n1 res1] & Hp & Heq)%bind_Some)%bind_Some. injection Heq as <- <- <-.
  assert (Hk : keeps (probe_all (K := K) (E := E) (C := C) (A := A) (B := B) nonce wall serialize endpoints)); [|by apply Hk in Hp].
  clear Hp. induction endpoints as [|endpoint endpoints IH]; cbn [probe_all]; [apply keeps_ret|].
  apply keeps_bind; [apply keeps_probe|]. intros d. apply keeps_bind; [apply IH|]. intros. apply keeps_ret.
Qed.
End probe_props.

(** ** Witnesses *)

Definition demo_endpoint_ops : list (EndpointOp (A := N)) :=
  [Refresh (Some (Ok [7; 8; 7; 9])%N); Probe 100; Probe 50; Refresh None; Probe 120; Probe 135].

Lemma endpoint_probes_paced_witness :
  ∃ s log, endpoint_run (endpoints_new {| max_candidates := 4; max_probes := 2; resolve_timeout := 5; probe_interval := 20 |}) demo_endpoint_ops = Some (s, log) ∧
    candidate_count s ≤ 4 ∧ Forall (λ b, NoDup b.2 ∧ length b.2 ≤ 2) log ∧ spaced 20 None log.
Proof. apply (endpoint_probes_paced 4 2 5 20); [reflexivity|lia]. Defined.

Definition demo_endpoints : EndpointDiscoveryState N :=
  {| ed_config := {| max_candidates := 4; max_probes := 2; resolve_timeout := 5; probe_interval := 20 |};
     ed_candidates := [7; 8; 9]%N; ed_cursor := 1; ed_last_probe := None |}.

Lemma endpoint_rotation_covers_witness :
  ∃ s' log, endpoint_run demo_endpoints demo_endpoint_ops = Some (s', log) ∧ 7%N ∈ concat (log.*2).
Proof.
  eexists _, _. split; [vm_compute; reflexivity|].
  eapply (endpoint_rotation_covers demo_endpoints demo_endpoint_ops).
  - constructor; cbn; [decided|lia|lia].
  - cbn. lia.
  - apply Forall_cons. split; [right; vm_compute; reflexivity|]. repeat constructor.
  - vm_compute. reflexivity.
  - cbn. lia.
  - decided.
Defined.
