(* ===== verification/Clock.v ===== *)
(** * The node's clock ([src/clock.rs])

    [HlcClock], the default adapter behind the [Clock] port. [lww_register]'s readings and their
    arithmetic are parameters; a [wall] argument is what [Utc::now] answered, in milliseconds since
    the epoch. *)
From stdpp Require Import gmap list sorting.
From Stdlib Require Import NArith ZArith.
From S2P Require Import Prelude.

(** ** [lww_register::clock] *)

(** [H] is [Hlc], [Ad] is [AdmittedTime], [T] is [Timestamp]. *)
Class HlcOps (H Ad T : Type) := {
  hlc_new : N → N → H;
  hlc_physical : H → N;
  hlc_logical : H → N;
  hlc_start : H;
  next_tick : H → H;
  advance_past_remote : H → N → Ad → N → H;
  clamped_to_drift : N → N → N → Ad;
  trusted : N → Ad;
  adm_physical : Ad → N;
  was_clamped : Ad → bool;
  ts_new : H → N → T;
  ts_hlc : T → H;
  MAX_CLOCK_DRIFT : N;
}.

(** What the crate documents: readings order by physical time first and a tick moves up, rolling at
    most one millisecond, until the [u64] is used up; advancing covers the old reading and the
    admitted one; a stamp within the budget is admitted unchanged, another as the cap. *)
Class HlcLaws (H Ad T : Type) `{HlcOps H Ad T, !RustOrd H, !RustOrd T} : Prop := {
  hlc_eta (a : H) : hlc_new (hlc_physical a) (hlc_logical a) = a;
  hlc_physical_new p l : hlc_physical (hlc_new p l) = p;
  hlc_later (a b : H) : (hlc_physical a < hlc_physical b)%N → ord_ltb a b = true;
  hlc_start_zero : hlc_physical hlc_start = 0%N;
  next_tick_later (a : H) : (hlc_physical a < u64_max)%N → ord_ltb a (next_tick a) = true;
  next_tick_roll (a : H) : (hlc_physical (next_tick a) ≤ hlc_physical a + 1)%N;
  advance_local (a : H) pt adm l : ord_leb a (advance_past_remote a pt adm l) = true;
  advance_remote (a : H) pt adm l : ord_leb (hlc_new (adm_physical adm) l) (advance_past_remote a pt adm l) = true;
  advance_physical (a : H) pt adm l :
    (hlc_physical (advance_past_remote a pt adm l) ≤ N.max (hlc_physical a) (N.max pt (adm_physical adm)) + 1)%N;
  clamped_physical p now drift : adm_physical (clamped_to_drift p now drift) = N.min p (N.min u64_max (now + drift));
  clamped_flag p now drift : was_clamped (clamped_to_drift p now drift) = (N.min u64_max (now + drift) <? p)%N;
  trusted_physical p : adm_physical (trusted p) = p;
  ts_hlc_new h n : ts_hlc (ts_new h n) = h;
  ts_later (a b : T) : ord_ltb (ts_hlc a) (ts_hlc b) = true → ord_ltb a b = true;
}.

(** [phys_now] *)
Definition phys_now (wall : Z) : N := Z.to_N (Z.max wall 0).

(** ** [HlcClock] *)

Section clock.
Context {H Ad T : Type} `{HlcOps H Ad T, !RustOrd H, !RustOrd T}.

Record HlcClock := {
  hc_node_id : N;
  hc_max_clock_drift : N;
  hc_last : H;
}.
Implicit Types (c : HlcClock).

Definition hlc_clock_new (node_id : N) : HlcClock :=
  {| hc_node_id := node_id; hc_max_clock_drift := MAX_CLOCK_DRIFT; hc_last := hlc_start |}.

Definition with_max_clock_drift c (drift : N) : HlcClock :=
  {| hc_node_id := hc_node_id c; hc_max_clock_drift := drift; hc_last := hc_last c |}.

Definition set_last c (last : H) : HlcClock :=
  {| hc_node_id := hc_node_id c; hc_max_clock_drift := hc_max_clock_drift c; hc_last := last |}.

Definition hlc_now c (wall : Z) : HlcClock * T :=
  let pt := phys_now wall in
  let next := if (hlc_physical (hc_last c) <? pt)%N then hlc_new pt 0 else next_tick (hc_last c) in
  (set_last c next, ts_new next (hc_node_id c)).

Definition hlc_observe c (wall : Z) (remote : T) : HlcClock :=
  let pt := phys_now wall in
  let admitted := clamped_to_drift (hlc_physical (ts_hlc remote)) pt (hc_max_clock_drift c) in
  set_last c (advance_past_remote (hc_last c) pt admitted (hlc_logical (ts_hlc remote))).

Definition hlc_observe_trusted c (wall : Z) (remote : T) : HlcClock :=
  let pt := phys_now wall in
  set_last c (advance_past_remote (hc_last c) pt (trusted (hlc_physical (ts_hlc remote))) (hlc_logical (ts_hlc remote))).

(** *** Any interleaving of calls *)

Inductive ClockOp := ReadNow (wall : Z) | ObserveRemote (wall : Z) (remote : T) | ObserveTrusted (wall : Z) (remote : T).

Definition clock_step c (op : ClockOp) : HlcClock * option T :=
  match op with
  | ReadNow wall => let '(c, t) := hlc_now c wall in (c, Some t)
  | ObserveRemote wall remote => (hlc_observe c wall remote, None)
  | ObserveTrusted wall remote => (hlc_observe_trusted c wall remote, None)
  end.

Fixpoint clock_run c (ops : list ClockOp) : HlcClock * list T :=
  match ops with
  | [] => (c, [])
  | op :: ops => let '(c, t) := clock_step c op in let '(c, ts) := clock_run c ops in (c, option_list t ++ ts)
  end.

(** [remote] leads the wall clock by no more than the budget. *)
Definition within_drift (drift : N) (wall : Z) (remote : T) : Prop :=
  (hlc_physical (ts_hlc remote) ≤ N.min u64_max (phys_now wall + drift))%N.

(** The stamps [op] tells the clock about and that it takes at face value. *)
Definition admitted (drift : N) (op : ClockOp) (remote : T) : Prop :=
  match op with
  | ReadNow _ => False
  | ObserveRemote wall r => r = remote ∧ within_drift drift wall r
  | ObserveTrusted _ r => r = remote
  end.

(** The furthest reading [op] may bring. *)
Definition op_limit (drift limit : N) (op : ClockOp) : Prop :=
  match op with
  | ReadNow wall => (phys_now wall ≤ limit)%N
  | ObserveRemote wall _ => (phys_now wall + drift ≤ limit)%N
  | ObserveTrusted wall r => (N.max (phys_now wall) (hlc_physical (ts_hlc r)) ≤ limit)%N
  end.

(** *** Lemmas *)

Context `{!HlcLaws H Ad T}.

Record step_spec (drift limit : N) (op : ClockOp) c c' (t : option T) : Prop := {
  ss_drift : hc_max_clock_drift c' = hc_max_clock_drift c;
  ss_later : ord_leb (hc_last c) (hc_last c') = true;
  ss_limit : (hlc_physical (hc_last c') ≤ N.max (hlc_physical (hc_last c)) limit + 1)%N;
  ss_minted t' : t = Some t' → ts_hlc t' = hc_last c' ∧ ord_ltb (hc_last c) (hc_last c') = true;
  ss_admitted remote : admitted drift op remote → ord_leb (ts_hlc remote) (hc_last c') = true;
}.

Lemma now_later c wall : (hlc_physical (hc_last c) < u64_max)%N → ord_ltb (hc_last c) (hc_last (hlc_now c wall).1) = true.
Proof.
  intros Hlast. cbn. destruct (N.ltb_spec (hlc_physical (hc_last c)) (phys_now wall)); [|by apply next_tick_later].
  apply hlc_later. by rewrite hlc_physical_new.
Qed.

Lemma observe_admits c wall remote : within_drift (hc_max_clock_drift c) wall remote →
  ord_leb (ts_hlc remote) (hc_last (hlc_observe c wall remote)) = true.
Proof.
  intros Hin. cbn. rewrite <- (hlc_eta (ts_hlc remote)) at 1. eapply ord_leb_trans; [|apply advance_remote].
  rewrite clamped_physical, N.min_l by done. apply ord_leb_refl.
Qed.

Lemma trusted_admits c wall remote : ord_leb (ts_hlc remote) (hc_last (hlc_observe_trusted c wall remote)) = true.
Proof.
  cbn. rewrite <- (hlc_eta (ts_hlc remote)) at 1. eapply ord_leb_trans; [|apply advance_remote].
  rewrite trusted_physical. apply ord_leb_refl.
Qed.

Lemma clock_step_ok drift limit op c c' t : hc_max_clock_drift c = drift → (hlc_physical (hc_last c) < u64_max)%N →
  op_limit drift limit op → clock_step c op = (c', t) → step_spec drift limit op c c' t.
Proof.
  intros Hd Hlast Hop Hs. destruct op as [wall|wall r|wall r]; cbn [clock_step op_limit admitted] in *.
  - destruct (hlc_now c wall) as [c1 t1] eqn:Hn. injection Hs as <- <-. pose proof (now_later c wall Hlast) as Hlt. rewrite Hn in Hlt.
    injection Hn as <- <-. constructor; [done|by apply ord_ltb_leb| |intros t' [= <-]; split; [apply ts_hlc_new|done]|done]. cbn.
    destruct (N.ltb_spec (hlc_physical (hc_last c)) (phys_now wall)); [rewrite hlc_physical_new; lia|].
    pose proof (next_tick_roll (hc_last c)). lia.
  - injection Hs as <- <-. constructor; [done|apply advance_local| |done|].
    + cbn. etransitivity; [apply advance_physical|]. rewrite clamped_physical, Hd. lia.
    + intros remote [<- Hin]. apply observe_admits. by rewrite Hd.
  - injection Hs as <- <-. constructor; [done|apply advance_local| |done|].
    + cbn. etransitivity; [apply advance_physical|]. rewrite trusted_physical. lia.
    + intros remote <-. apply trusted_admits.
Qed.

Notation lt := (λ a b : T, ord_ltb a b = true).

Record run_spec (drift : N) (bound : N) (ops : list ClockOp) c c' (ts : list T) : Prop := {
  rs_drift : hc_max_clock_drift c' = drift;
  rs_later : ord_leb (hc_last c) (hc_last c') = true;
  rs_limit : (hlc_physical (hc_last c') ≤ bound)%N;
  rs_minted t : t ∈ ts → ord_ltb (hc_last c) (ts_hlc t) = true ∧ ord_leb (ts_hlc t) (hc_last c') = true;
  rs_sorted : StronglySorted lt ts;
  rs_admitted op remote : op ∈ ops → admitted drift op remote → ord_leb (ts_hlc remote) (hc_last c') = true;
}.

Lemma clock_run_ok drift limit ops c bound : hc_max_clock_drift c = drift → Forall (op_limit drift limit) ops →
  (hlc_physical (hc_last c) ≤ bound)%N → (limit ≤ bound)%N → (bound + len ops ≤ u64_max)%N →
  run_spec drift (bound + len ops) ops c (clock_run c ops).1 (clock_run c ops).2.
Proof.
  revert c bound. induction ops as [|op ops IH]; intros c bound Hd Hops Hlast Hlim Hmax; cbn [clock_run length].
  { constructor; [done|apply ord_leb_refl|cbn; lia|by intros t ?%not_elem_of_nil|constructor|by intros ? ? ?%not_elem_of_nil]. }
  apply Forall_cons in Hops as [Hop Hops]. destruct (clock_step c op) as [c1 t1] eqn:Hs. cbn [length] in Hmax.
  destruct (clock_step_ok drift limit op c c1 t1 Hd) as [Hd1 Hl1 Hp1 Hm1 Ha1]; [lia|done..|].
  specialize (IH c1 (bound + 1)%N). destruct IH as [Hd' Hl' Hp' Hm' Hs' Ha']; [congruence|done|lia..|].
  destruct (clock_run c1 ops) as [c' ts]. cbn [fst snd] in *. constructor; [done|by eapply ord_leb_trans|lia| | |].
  - intros t [Ht|Ht]%elem_of_app; [|destruct (Hm' t Ht); split; [by eapply ord_leb_ltb_trans|done]].
    destruct t1 as [t1|]; [|by apply not_elem_of_nil in Ht]. apply list_elem_of_singleton in Ht as ->.
    by destruct (Hm1 t1 eq_refl) as [-> ?].
  - destruct t1 as [t1|]; [|done]. destruct (Hm1 t1 eq_refl) as [Ht1 _]. constructor; [done|]. apply Forall_forall.
    intros t Ht. apply ts_later. rewrite Ht1. by apply Hm'.
  - intros op' remote [->|Hin]%elem_of_cons Had; [|by eapply Ha']. eapply ord_leb_trans; [by apply Ha1|done].
Qed.

Lemma clock_run_app c ops ops' :
  clock_run c (ops ++ ops') =
  ((clock_run (clock_run c ops).1 ops').1, (clock_run c ops).2 ++ (clock_run (clock_run c ops).1 ops').2).
Proof.
  revert c. induction ops as [|op ops IH]; intros c; cbn [app clock_run fst snd]; [apply surjective_pairing|].
  destruct (clock_step c op) as [c1 t]. rewrite IH. destruct (clock_run c1 ops) as [c2 ts]. cbn. by rewrite (assoc_L (++)).
Qed.

(** C36. The clock mints strictly increasing stamps, in any order of its calls and whatever the wall
    clock does in between, also when it is set back; each one outranks every stamp it was told about
    before, if trusted or within the drift budget; and a stamp beyond the budget does not move it
    past the wall readings plus that budget, but for a millisecond per call. It holds as long as the
    clock's readings, of which [limit] is the furthest, leave room for the calls in a [u64]. *)
Theorem minted_stamps_outrank node_id drift limit ops ops' :
  Forall (op_limit drift limit) (ops ++ ops') → (limit + len (ops ++ ops') ≤ u64_max)%N →
  let '(c, before) := clock_run (with_max_clock_drift (hlc_clock_new node_id) drift) ops in
  let '(c', after) := clock_run c ops' in
  StronglySorted lt (before ++ after) ∧
  (∀ t op remote, t ∈ after → op ∈ ops → admitted drift op remote → ord_ltb remote t = true) ∧
  (hlc_physical (hc_last c') ≤ limit + len (ops ++ ops'))%N.
Proof.
  intros Hops Hmax. set (c0 := with_max_clock_drift _ drift).
  assert (Hc0 : (hlc_physical (hc_last c0) ≤ limit)%N) by (cbn; rewrite hlc_start_zero; lia).
  pose proof (clock_run_ok drift limit (ops ++ ops') c0 limit eq_refl Hops Hc0 (N.le_refl _) Hmax) as [_ _ Hp _ Hs _].
  rewrite clock_run_app in Hp, Hs. apply Forall_app in Hops as [Hops Hops']. rewrite length_app in *.
  destruct (clock_run_ok drift limit ops c0 limit eq_refl Hops Hc0) as [Hd _ Hp1 _ _ Ha]; [lia..|].
  destruct (clock_run c0 ops) as [c before]. cbn [fst snd] in *.
  destruct (clock_run_ok drift limit ops' c (limit + len ops) Hd Hops' Hp1) as [_ _ _ Hm _ _]; [lia..|].
  destruct (clock_run c ops') as [c' after]. cbn [fst snd] in *. split_and!; [done| |done].
  intros t op remote Ht Hop Had. apply ts_later. eapply ord_leb_ltb_trans; [by eapply Ha|by apply Hm].
Qed.
End clock.

(** ** A concrete reading: physical time and counter, compared lexicographically *)

Definition small_tick (a : N * N) : N * N := if (a.2 <? u32_max)%N then (a.1, a.2 + 1)%N else (N.min u64_max (a.1 + 1), 0)%N.
Definition later (a b : N * N) : N * N := if ord_leb a b then b else a.

Definition small_hlc : HlcOps (N * N) (N * bool) (N * N * N) := {|
  hlc_new p l := (p, l); hlc_physical := fst; hlc_logical := snd; hlc_start := (0, 0)%N; next_tick := small_tick;
  advance_past_remote a pt adm l := later (later a (pt, 0%N)) (adm.1, l);
  clamped_to_drift p now drift := let cap := N.min u64_max (now + drift) in (N.min p cap, (cap <? p)%N);
  trusted p := (p, false); adm_physical := fst; was_clamped := snd; ts_new h n := (h, n); ts_hlc := fst;
  MAX_CLOCK_DRIFT := 3600000 |}.

Lemma later_spec a b : ord_leb a (later a b) = true ∧ ord_leb b (later a b) = true ∧ ((later a b).1 ≤ N.max a.1 b.1)%N.
Proof.
  unfold later. destruct (ord_leb a b) eqn:Hab; split_and!; try done; try apply ord_leb_refl; try lia.
  destruct (ord_leb_total a b); congruence.
Qed.

Lemma pair_ltb_fst {A B} `{RustOrd A, RustOrd B} (x y : A * B) : ord_ltb x.1 y.1 = true → ord_ltb x y = true.
Proof.
  unfold ord_ltb. cbn. unfold pair_leb, ord_ltb. intros Hlt%negb_true_iff. rewrite Hlt. cbn.
  destruct (ord_leb_total x.1 y.1) as [->|]; [done|congruence].
Qed.

Lemma small_hlc_laws : @HlcLaws _ _ _ small_hlc _ _.
Proof.
  constructor; cbn [hlc_new hlc_physical hlc_logical hlc_start next_tick advance_past_remote clamped_to_drift trusted adm_physical
    was_clamped ts_new ts_hlc small_hlc fst snd]; try done.
  - by intros [p l].
  - intros a b Hlt. apply pair_ltb_fst. unfold ord_ltb. cbn. by rewrite <- N.ltb_antisym, N.ltb_lt.
  - intros [p l] Hlt. cbn in Hlt. unfold small_tick. cbn. destruct (l <? u32_max)%N.
    + unfold ord_ltb. cbn. unfold pair_leb, ord_ltb. cbn. rewrite N.leb_refl. cbn. rewrite negb_true_iff. apply N.leb_gt. lia.
    + apply pair_ltb_fst. unfold ord_ltb. cbn [fst ord_leb N_ord]. rewrite negb_true_iff. apply N.leb_gt. lia.
  - intros [p l]. unfold small_tick. destruct (_ <? _)%N; cbn; lia.
  - intros a pt adm l. eapply ord_leb_trans; [exact (proj1 (later_spec a (pt, 0%N)))|apply later_spec].
  - intros a pt adm l. apply later_spec.
  - intros a pt adm l. destruct (later_spec (later a (pt, 0%N)) (adm.1, l)) as (_ & _ & H1'). destruct (later_spec a (pt, 0%N)) as (_ & _ & H2').
    cbn [fst] in *. lia.
  - intros a b. apply pair_ltb_fst.
Qed.

#[local] Existing Instances small_hlc small_hlc_laws.

(** A peer's stamp a second ahead, a clock set back, a stamp out of the drift budget. *)
Definition demo_clock_ops : list (ClockOp (T := N * N * N)) :=
  [ReadNow 100; ObserveRemote 100 (1100, 4, 9)%N; ReadNow 90; ObserveRemote 95 (5000, 0, 9)%N]%Z.

Lemma minted_stamps_outrank_witness :
  let '(c, before) := clock_run (with_max_clock_drift (hlc_clock_new 7) 1000) demo_clock_ops in
  before = [(100, 0, 7); (1100, 5, 7)]%N ∧ (clock_run c [ReadNow 120]).2 = [(1100, 6, 7)]%N ∧
  ord_ltb (1100, 4, 9)%N (1100, 6, 7)%N = true.
Proof.
  pose proof (minted_stamps_outrank 7 1000 1200 demo_clock_ops [ReadNow 120%Z]) as Hw. cbn zeta in Hw.
  destruct Hw as (_ & Hw & _).
  - unfold demo_clock_ops. cbn [app]. repeat (apply Forall_cons; split; [vm_compute; discriminate|]). constructor.
  - vm_compute. discriminate.
  - split_and!; [vm_compute; reflexivity..|]. apply (Hw _ (ObserveRemote 100 (1100, 4, 9)%N)).
    + left.
    + right. left.
    + split; [reflexivity|]. unfold within_drift. vm_compute. discriminate.
Defined.
