(* ===== verification/Tombstones.v ===== *)
(** * Tombstones and their retention ([src/clock.rs], [src/replicated_map/write.rs])

    [BoundedInstant], the instant a stored tombstone ages from, the hook of [set_pre_insert] that
    feeds the timeout wheel, and the task that inspects what has expired. The user's own hook is not
    modelled. [chrono]'s instants are those of [TimeoutWheel], counted from its earliest one. *)
From stdpp Require Import gmap list.
From Stdlib Require Import NArith ZArith.
From S2P Require Import Prelude Btree RecoveryBook Journal SignedCausal Replica Samples TimeoutWheel Clock.

Definition i64_max : N := 9223372036854775807.
Definition i64_try_from (n : N) : option Z := if (n <=? i64_max)%N then Some (Z.of_N n) else None.

Inductive StampBound := Verbatim | Capped | Unrepresentable.
Record BoundedInstant := { bi_instant : N; bi_bound : StampBound }.

Section tombstones.
Context {K V S E C St P H Ad : Type} `{Countable K, Countable P} `{Lww V S E C} `{!EntryState V S E St} `{!EqDecision S}.
Context {T : Type} `{!HlcOps H Ad T}.
(** [chrono]: the latest instant, [DateTime::from_timestamp_millis] and [timestamp_millis]. *)
Context (datetime_max : N) (from_timestamp_millis : Z → option N) (timestamp_millis : N → Z).
Notation Wheel := (TimeoutWheel (T := K)).
Implicit Types (w : Wheel) (r : Replica K E St P).

(** [wall] is the reading of [phys_now], [utc_now] that of the fallback. *)
Definition from_stored_stamp (stamp_physical budget : N) (wall : Z) (utc_now : N) : BoundedInstant :=
  let admitted := clamped_to_drift stamp_physical (phys_now wall) budget in
  match i64_try_from (adm_physical admitted) ≫= from_timestamp_millis with
  | Some instant => {| bi_instant := instant; bi_bound := if was_clamped admitted then Capped else Verbatim |}
  | None => {| bi_instant := utc_now; bi_bound := Unrepresentable |}
  end.

Definition TOMBSTONE_STAMP_DRIFT_BUDGET : N := MAX_CLOCK_DRIFT.

(** The closure [set_pre_insert] installs, past the user's hook. *)
Definition wrapped_pre_insert w (k : K) (v : E) (wall : Z) (utc_now : N) : Wheel :=
  match value v with
  | Some _ => (wheel_remove w k).1
  | None => wheel_insert w k (bi_instant (from_stored_stamp (physical_millis (stamp v)) TOMBSTONE_STAMP_DRIFT_BUDGET wall utc_now))
  end.

(** ** [clear_expired_tombstones] *)

Definition now_ms (now : N) : option N := let z := timestamp_millis now in if (z <? 0)%Z then None else Some (Z.to_N z).

(** One turn of the loop over the expired keys. *)
Definition clear_key (now : N) (st : Replica K E St P * Wheel) (key : K) : Replica K E St P * Wheel :=
  let '(r, w) := st in
  match rp_map r !! key with
  | Some entry =>
      if is_tombstone entry then
        let '(r, collected) := gc_collect r key (stamp entry) (now_ms now) (tw_timeout w) in
        (r, match collected with Some _ => (wheel_remove w key).1 | None => w end)
      else (r, w)
  | None => (r, w)
  end.

(** The passes at [nows]; [None] is [expired] panicking. *)
Fixpoint clearing_loop r w (nows : list N) : option (Replica K E St P * Wheel) :=
  match nows with
  | [] => Some (r, w)
  | now :: nows => keys ← expired datetime_max w now; let '(r, w) := fold_left (clear_key now) keys (r, w) in clearing_loop r w nows
  end.

Definition clear_expired_tombstones r w (nows : list N) : option (Replica K E St P * Wheel) :=
  if negb has_collection_proof then Some (r, w) else clearing_loop r w nows.

Definition with_tombstone_timeout w (tombstone_timeout : N) : Wheel := set_timeout w tombstone_timeout.
Definition set_tombstone_timeout w (timeout : N) : Wheel := set_timeout w timeout.

(** ** Any sequence of writes *)

Record Hooked := { hk_key : K; hk_entry : E; hk_wall : Z; hk_now : N }.

Definition run_hook w (h : Hooked) : Wheel := wrapped_pre_insert w (hk_key h) (hk_entry h) (hk_wall h) (hk_now h).

(** The entry last written to [k]. *)
Definition last_written (k : K) (hs : list Hooked) : option E :=
  hk_entry <$> last (filter (λ h, hk_key h = k) hs).

(** ** Lemmas *)

Context `{!RustOrd H, !RustOrd T, !HlcLaws H Ad T} (unix_epoch : Z).
Context (from_millis_exact : ∀ z i, from_timestamp_millis z = Some i → Z.of_N i = (unix_epoch + z * 1000000)%Z).

(** [h] ran with both readings of the wall clock, and the drift budget, below [limit]. *)
Definition read_before (limit : N) (h : Hooked) : Prop :=
  (hk_now h ≤ limit)%N ∧ (unix_epoch + Z.of_N (phys_now (hk_wall h) + MAX_CLOCK_DRIFT) * 1000000 ≤ Z.of_N limit)%Z.

Lemma stored_stamp_bounded stamp budget wall utc_now limit :
  (utc_now ≤ limit)%N → (unix_epoch + Z.of_N (phys_now wall + budget) * 1000000 ≤ Z.of_N limit)%Z →
  (bi_instant (from_stored_stamp stamp budget wall utc_now) ≤ limit)%N.
Proof.
  intros Hnow Hwall. unfold from_stored_stamp. destruct (i64_try_from _ ≫= from_timestamp_millis) as [i|] eqn:Hi; [|done].
  apply bind_Some in Hi as (z & Hz & Hi). apply from_millis_exact in Hi. cbn. unfold i64_try_from in Hz.
  destruct (_ <=? _)%N; [|done]. injection Hz as <-. rewrite clamped_physical in Hi. lia.
Qed.

Lemma last_written_snoc k hs h : last_written k (hs ++ [h]) = if decide (hk_key h = k) then Some (hk_entry h) else last_written k hs.
Proof.
  unfold last_written. rewrite filter_app. cbn. unfold filter at 2. cbn. case_decide as Hk; [by rewrite last_snoc|by rewrite app_nil_r].
Qed.

Lemma hooks_track hs timeout limit : Forall (read_before limit) hs →
  let w := fold_left run_hook hs (set_timeout wheel_new timeout) in
  wheel_ok w ∧ tw_timeout w = timeout ∧ (∀ k i, tw_map w !! k = Some i → (i ≤ limit)%N) ∧
  ∀ k, is_Some (tw_map w !! k) ↔ ∃ e, last_written k hs = Some e ∧ value e = None.
Proof.
  induction hs as [|h hs IH] using rev_ind; intros Hf.
  { cbn. split_and!; [by destruct (wheel_new_ok (T := K))|done|by intros k i ?%lookup_empty_Some|]. intros k. rewrite lookup_empty. split; [by intros [? ?]|by intros (? & ? & _)]. }
  apply Forall_app in Hf as [Hf Hh]. apply Forall_singleton in Hh as [Hnow Hwall]. rewrite fold_left_app. cbn [fold_left].
  destruct (IH Hf) as (Hok & Ht & Hi & Hk). clear IH. set (w := fold_left run_hook hs _) in *.
  setoid_rewrite last_written_snoc. unfold run_hook, wrapped_pre_insert. destruct (value (hk_entry h)) as [v|] eqn:Hv.
  - assert (Hm : tw_map (wheel_remove w (hk_key h)).1 = delete (hk_key h) (tw_map w)).
    { unfold wheel_remove. destruct (tw_map w !! hk_key h) eqn:Hn; [done|]. by rewrite delete_id. }
    split_and!; [by apply wheel_remove_ok|by unfold wheel_remove; case_match|rewrite Hm; intros k i [_ ?]%lookup_delete_Some; by eapply Hi|].
    intros k. rewrite Hm. case_decide as Hc; [subst k; rewrite lookup_delete_eq; split; [by intros [? ?]|by intros (? & [= <-] & ?%(eq_trans (eq_sym Hv)))]|].
    by rewrite lookup_delete_ne.
  - split_and!; [by apply wheel_insert_ok|done| |].
    + intros k i. cbn [wheel_insert tw_map]. intros [[_ <-]|[_ ?]]%lookup_insert_Some; [by apply stored_stamp_bounded|by eapply Hi].
    + intros k. cbn [wheel_insert tw_map]. case_decide as Hc; [subst k; rewrite lookup_insert_eq; split; eauto|].
      by rewrite lookup_insert_ne.
Qed.

(** C24. No stamp keeps a tombstone from ageing. Whatever entries were written, with whatever
    stamps, the wheel follows exactly the keys whose last write is a deletion, and once the
    retention has passed since the furthest wall reading plus the drift budget, [expired] returns
    each of those keys once and nothing else, without panicking. *)
Theorem far_future_tombstones_age hs timeout limit now :
  Forall (read_before limit) hs → (limit + timeout ≤ datetime_max)%N → (limit + timeout < now)%N →
  let w := fold_left run_hook hs (with_tombstone_timeout wheel_new timeout) in
  ∃ keys, expired datetime_max w now = Some keys ∧ NoDup keys ∧
    ∀ k, k ∈ keys ↔ ∃ e, last_written k hs = Some e ∧ value e = None.
Proof.
  intros Hf Hmax Hnow w. destruct (hooks_track hs timeout limit Hf) as (Hok & Ht & Hi & Hk).
  change (fold_left run_hook hs (set_timeout wheel_new timeout)) with w in *.
  destruct (expired_exact datetime_max w now Hok) as (keys & He & Hnd & Hin); [intros k i Hl%Hi; lia|].
  exists keys. split_and!; [done..|]. intros k. rewrite Hin, <- Hk. split; [intros (i & ? & _); eauto|].
  intros [i Hl]. exists i. split; [done|]. apply Hi in Hl. lia.
Qed.
End tombstones.

#[local] Existing Instances small_lww small_state small_hlc small_hlc_laws.

(** A write, a deletion stamped near the end of the [u64] and an ordinary one; milliseconds are
    counted from a day after the earliest instant. *)
Definition demo_from_millis (z : Z) : option N :=
  if (z <? -86400000)%Z then None else Some (Z.to_N (86400000 + z) * 1000000)%N.
Definition demo_hooks : list (Hooked (K := N) (E := N)) :=
  [{| hk_key := 1%N; hk_entry := (2 * u64_max + 1)%N; hk_wall := 5000; hk_now := 0%N |};
   {| hk_key := 2%N; hk_entry := 9001%N; hk_wall := 5000; hk_now := 0%N |};
   {| hk_key := 3%N; hk_entry := 9002%N; hk_wall := 5000; hk_now := 0%N |}].

Lemma far_future_tombstones_age_witness :
  ∃ keys, expired (10 ^ 18) (fold_left (run_hook (K := N) (C := N) (T := N * N * N) demo_from_millis) demo_hooks (with_tombstone_timeout wheel_new (seconds 60))) (10 ^ 17) = Some keys ∧
    NoDup keys ∧ 1%N ∈ keys.
Proof.
  destruct (far_future_tombstones_age (K := N) (C := N) (T := N * N * N) (10 ^ 18) demo_from_millis 86400000000000
    ltac:(intros z i; unfold demo_from_millis; destruct (Z.ltb_spec z (-86400000)); [discriminate|intros [= <-]; lia])
    demo_hooks (seconds 60) (10 ^ 16) (10 ^ 17)) as (keys & He & Hnd & Hk).
  - unfold demo_hooks. repeat (apply Forall_cons; split; [split; vm_compute; discriminate|]). constructor.
  - vm_compute. discriminate.
  - vm_compute. reflexivity.
  - exists keys. split; [exact He|]. split; [exact Hnd|]. apply Hk. eexists. split; vm_compute; reflexivity.
Defined.
