(* ===== verification/Stamps.v ===== *)
(** * Stamps through the store ([src/clock.rs], [src/replicated_map/write.rs], [mutate.rs],
      [src/replica/dispatch.rs])

    What the [Clock] port promises the store and what the store makes of it: the stamp a write reads
    outranks everything the node has stored, planned or minted by then, with minting and storing as
    separate steps that other tasks run between. The public writes are runs of those steps, and
    [HlcClock] over the readings of the wall clock discharges the promise. *)
From stdpp Require Import gmap list relations sorting.
From Stdlib Require Import NArith ZArith.
From S2P Require Import Prelude Journal SignedCausal Messages Replica ReplicaInv ReplicaProps Dumps Repair Writes Startup Clock.

(** ** The promise *)

(** [outranks c s]: what [c] mints next is newer than [s]; [headroom c n]: [n] more readings do not
    exhaust the clock; [admissible c s]: [s] is within the drift budget as [c] stands. *)
Class ClockPort (V S E C : Type) `{Lww V S E C, !RustOrd S} := {
  headroom : C → N → Prop;
  outranks : C → S → Prop;
  admissible : C → S → Prop;
  now_headroom c n c' t : headroom c (n + 1) → clock_now c = (c', t) → headroom c' n;
  now_outranks c n c' t : headroom c (n + 1) → clock_now c = (c', t) → outranks c' t;
  now_newer c n c' t s : headroom c (n + 1) → clock_now c = (c', t) → outranks c s → ord_ltb s t = true;
  now_keeps c n c' t s : headroom c (n + 1) → clock_now c = (c', t) → outranks c s → outranks c' s;
  observe_keeps c r s : outranks c s → outranks (clock_observe c r) s;
  observe_outranks c r : admissible c r → outranks (clock_observe c r) r;
  trusted_keeps c r s : outranks c s → outranks (clock_observe_trusted c r) s;
  trusted_outranks c r : outranks (clock_observe_trusted c r) r;
}.

(** ** [HlcClock] keeps it *)

Section hlc_port.
Context {V E C0 H Ad T : Type} `{L : Lww V T E C0} `{HlcOps H Ad T, !RustOrd H, !RustOrd T, !HlcLaws H Ad T}.
(** The readings of the wall clock, in the order they are taken. *)
Context (wall : N → Z).

Record HlcState := { hs_clock : HlcClock (H := H); hs_reads : N }.

(** The entries of [L], stamped by an [HlcClock]. *)
Definition hlc_lww : Lww V T E HlcState := {|
  present := present; tombstone := tombstone; stamp := stamp; is_tombstone := is_tombstone; merge := merge; digest := digest;
  clock_now c := let '(h, t) := hlc_now (hs_clock c) (wall (hs_reads c)) in ({| hs_clock := h; hs_reads := hs_reads c + 1 |}, t);
  clock_observe c s := {| hs_clock := hlc_observe (hs_clock c) (wall (hs_reads c)) s; hs_reads := hs_reads c + 1 |};
  clock_observe_trusted c s := {| hs_clock := hlc_observe_trusted (hs_clock c) (wall (hs_reads c)) s; hs_reads := hs_reads c + 1 |} |}.
#[local] Existing Instance hlc_lww | 0.

Definition hlc_headroom (c : HlcState) (n : N) : Prop :=
  (hlc_physical (hc_last (hs_clock c)) + n ≤ u64_max)%N ∧ ∀ i, (phys_now (wall i) + n ≤ u64_max)%N.

Lemma hlc_now_spec (c : HlcState) (n : N) c' t : hlc_headroom c (n + 1) → clock_now (Lww := hlc_lww) c = (c', t) →
  hlc_headroom c' n ∧ ts_hlc t = hc_last (hs_clock c') ∧ ord_ltb (hc_last (hs_clock c)) (hc_last (hs_clock c')) = true.
Proof.
  intros [Hlast Hwall]. assert (Hlt : (hlc_physical (hc_last (hs_clock c)) < u64_max)%N) by lia.
  pose proof (now_later (hs_clock c) (wall (hs_reads c)) Hlt) as Hn. cbn [clock_now hlc_lww].
  destruct (clock_step_ok _ (phys_now (wall (hs_reads c))) (ReadNow (wall (hs_reads c))) (hs_clock c) (hlc_now (hs_clock c) (wall (hs_reads c))).1
    (Some (hlc_now (hs_clock c) (wall (hs_reads c))).2) eq_refl Hlt) as [_ _ _ Hm _]; [cbn; lia|done|].
  intros [= <- <-]. destruct (Hm _ eq_refl) as [Ht _]. split_and!; [|exact Ht|exact Hn].
  split; [|intros i; specialize (Hwall i); lia]. cbn. specialize (Hwall (hs_reads c)).
  destruct (N.ltb_spec (hlc_physical (hc_last (hs_clock c))) (phys_now (wall (hs_reads c)))); [rewrite hlc_physical_new; lia|].
  pose proof (next_tick_roll (hc_last (hs_clock c))). lia.
Qed.

#[refine, local] Instance hlc_port : ClockPort V T E HlcState := {|
  headroom := hlc_headroom;
  outranks c s := ord_leb (ts_hlc s) (hc_last (hs_clock c)) = true;
  admissible c s := within_drift (hc_max_clock_drift (hs_clock c)) (wall (hs_reads c)) s;
|}.
Proof.
  - intros c n c' t Hh Hn. by apply (hlc_now_spec c n c' t).
  - intros c n c' t Hh Hn. destruct (hlc_now_spec c n c' t Hh Hn) as (_ & -> & _). apply ord_leb_refl.
  - intros c n c' t s Hh Hn Hs. destruct (hlc_now_spec c n c' t Hh Hn) as (_ & Ht & Hlt). apply ts_later. rewrite Ht. by eapply ord_leb_ltb_trans.
  - intros c n c' t s Hh Hn Hs. destruct (hlc_now_spec c n c' t Hh Hn) as (_ & _ & Hlt). eapply ord_leb_trans; [done|by apply ord_ltb_leb].
  - intros c r s Hs. eapply ord_leb_trans; [done|apply advance_local].
  - intros c r Hr. by apply observe_admits.
  - intros c r s Hs. eapply ord_leb_trans; [done|apply advance_local].
  - intros c r. apply trusted_admits.
Defined.
End hlc_port.
Arguments HlcState H : clear implicits.

(** ** The store *)

Section stamps.
Context {K V S E C St P : Type} `{Countable K, Countable P} `{Lww V S E C} `{!EntryState V S E St}.
Context `{!RustOrd K, !RustOrd S} `{!EqDecision S} `{!ClockPort V S E C}.
Context (encoded_size : V → N) (max_concurrent_broadcasts : N) (max_value_size : option N).
Notation Store := (Store (K := K) (E := E) (C := C) (St := St) (P := P)).
Notation queue_broadcast := (queue_broadcast max_concurrent_broadcasts).
Notation store_insert := (store_insert max_concurrent_broadcasts).
Notation try_insert := (try_insert encoded_size max_concurrent_broadcasts max_value_size).
Notation try_update := (try_update encoded_size max_concurrent_broadcasts max_value_size).
Implicit Types (s : Store) (ps : list (list (K * E))) (m : gmap K E).

(** The stored entries, and the clock, of [s]. *)
Notation entries s := (rp_map (ws_replica s)).

(** Each update is within the drift budget when it is observed. *)
Fixpoint admissible_all (c : C) (updates : list (K * E)) : Prop :=
  match updates with
  | [] => True
  | (_, e) :: updates => admissible c (stamp e) ∧ admissible_all (clock_observe c (stamp e)) updates
  end.

(** What a node does to its dated entries. A write reads the clock and later, under the lock, stores
    entries with the stamps it was given; any other task may run in between, so minting and storing
    are separate steps. A remote batch also takes two: [plan_updates] and, whenever the hooks have
    run, [commit_updates]. In the state, [ps] are the batches planned and not yet committed and [ms]
    the stamps minted so far. *)
Inductive dated_step : Store * list (list (K * E)) * list S → Store * list (list (K * E)) * list S → Prop :=
| ds_mint s ps ms n s' t : headroom (ws_clock s) (n + 1) → clock_tick s = (s', t) → dated_step (s, ps, ms) (s', ps, t :: ms)
| ds_insert s ps ms k e : stamp e ∈ ms →
    dated_step (s, ps, ms) (set_state s (just_insert (ws_replica s) k e).1 (ws_clock s), ps, ms)
| ds_insert_bulk s ps ms kvs : (∀ kv, kv ∈ kvs → stamp kv.2 ∈ ms) →
    dated_step (s, ps, ms) (set_state s (just_insert_bulk (ws_replica s) kvs) (ws_clock s), ps, ms)
| ds_get_mut s ps ms t k f : t ∈ ms → dated_step (s, ps, ms) (set_state s (get_mut (ws_replica s) t k f).1 (ws_clock s), ps, ms)
| ds_mutate {Er} s ps ms t k f (validate : V → result unit Er) r res : t ∈ ms →
    mutate_live_checked (ws_replica s) t k f validate = Some (r, res) → dated_step (s, ps, ms) (set_state s r (ws_clock s), ps, ms)
| ds_plan s ps ms updates c to_apply acks : admissible_all (ws_clock s) updates →
    plan_updates (entries s) (ws_clock s) updates = (c, to_apply, acks) →
    dated_step (s, ps, ms) (set_state s (ws_replica s) c, ps ++ [to_apply], ms)
| ds_commit s ps plan ps' ms acks :
    dated_step (s, ps ++ plan :: ps', ms) (set_state s (commit_updates (ws_replica s) plan acks).1 (ws_clock s), ps ++ ps', ms)
| ds_collect s ps ms k expected now retention :
    dated_step (s, ps, ms) (set_state s (gc_candidate (ws_replica s) k expected now retention).1 (ws_clock s), ps, ms)
| ds_other s ps ms s' : entries s' = entries s → ws_clock s' = ws_clock s → dated_step (s, ps, ms) (s', ps, ms).

(** The clock outranks every entry stored or planned. *)
Definition covers (c : C) m : Prop := ∀ k e, m !! k = Some e → outranks c (stamp e).
Definition covers_plans (c : C) ps : Prop := ∀ plan k e, plan ∈ ps → (k, e) ∈ plan → outranks c (stamp e).

(** *** Lemmas *)

Context (merge_lww : ∀ x y : E, merge x y = if ord_ltb (stamp x) (stamp y) then y else x).
Context (stamp_present : ∀ t v, stamp (present t v) = t) (stamp_tombstone : ∀ t, stamp (tombstone t) = t)
  (stamp_set_stamp : ∀ (e : E) t, stamp (set_stamp e t) = t).

Lemma covers_insert c m k e : covers c m → outranks c (stamp e) → covers c (<[k := e]> m).
Proof. intros Hm He k' e' [[_ <-]|[_ ?]]%lookup_insert_Some; [done|by eapply Hm]. Qed.

Lemma covers_subseteq c m m' : m' ⊆ m → covers c m → covers c m'.
Proof. intros Hsub Hc k e Hk. eapply Hc, lookup_weaken; done. Qed.

Lemma bulk_covers c (kvs : list (K * E)) (r : Replica K E St P) : covers c (rp_map r) →
  (∀ kv, kv ∈ kvs → outranks c (stamp kv.2)) → covers c (rp_map (just_insert_bulk r kvs)).
Proof.
  unfold just_insert_bulk. cbn [record_changes set_changes rp_map]. revert r. induction kvs as [|[k e] kvs IH]; intros r Hc Hk; cbn [fold_left]; [done|].
  apply IH; [|intros kv Hkv; apply Hk; by right]. apply covers_insert; [done|]. apply (Hk (k, e)). left.
Qed.

Lemma collect_entries (r : Replica K E St P) k expected now retention : rp_map (gc_candidate r k expected now retention).1 ⊆ rp_map r.
Proof.
  unfold gc_candidate. destruct (rp_map r !! k); [|done]. destruct (_ || _); [done|]. destruct now; [|done]. destruct (_ || _); [done|].
  apply delete_subseteq.
Qed.

Lemma queue_same s kvs now : ws_replica (queue_broadcast s kvs now) = ws_replica s ∧ ws_clock (queue_broadcast s kvs now) = ws_clock s.
Proof.
  unfold Writes.queue_broadcast. destruct (queue_updates _ _ _) as [[pending scheduled] [messages|]]; [|done].
  unfold broadcast, try_claim_broadcast_slot. destruct (_ <? _)%N; [|done]. unfold spawn_broadcast. by destruct (get_peers _ _).
Qed.

Record ticked s s' (n : N) (t : S) : Prop := {
  tk_replica : ws_replica s' = ws_replica s;
  tk_headroom : headroom (ws_clock s') n;
  tk_outranks : outranks (ws_clock s') t;
  tk_newer x : outranks (ws_clock s) x → ord_ltb x t = true;
  tk_keeps x : outranks (ws_clock s) x → outranks (ws_clock s') x;
}.

Lemma tick_spec s n s1 t : headroom (ws_clock s) (n + 1) → clock_tick s = (s1, t) → ticked s s1 n t.
Proof.
  intros Hh. unfold clock_tick. destruct (clock_now (ws_clock s)) as [c t'] eqn:Hn. intros [= <- <-].
  constructor; [done|by eapply now_headroom|by eapply now_outranks|intros x; by eapply now_newer|intros x; by eapply now_keeps].
Qed.

(** What [mutate_live_checked] stores. *)
Lemma mutate_entries {Er} (r : Replica K E St P) t k f (validate : V → result unit Er) r' res :
  mutate_live_checked r t k f validate = Some (r', res) →
  rp_map r' = rp_map r ∨ ∃ k' e, stamp e = t ∧ rp_map r' = <[k' := e]> (rp_map r).
Proof.
  unfold mutate_live_checked. destruct (rp_map r !! k) as [e|]; [|intros [= <- <-]; by left].
  destruct (value e); [|intros [= <- <-]; by left]. intros (v' & _ & Heq)%bind_Some. destruct (validate v'); injection Heq as <- <-; [|by left].
  right. eexists k, _. split; [apply stamp_set_stamp|done].
Qed.

Lemma plan_outranked m c updates c' to_apply acks : admissible_all c updates → plan_updates m c updates = (c', to_apply, acks) →
  (∀ x, outranks c x → outranks c' x) ∧ ∀ k e, (k, e) ∈ to_apply → outranks c' (stamp e).
Proof.
  revert c c' to_apply acks. induction updates as [|[k e] updates IH]; intros c c' to_apply acks; cbn [admissible_all plan_updates].
  { intros _ [= <- <- _]. split; [done|by intros ? ? ?%not_elem_of_nil]. }
  intros [He Hu]. destruct (plan_updates m (clock_observe c (stamp e)) updates) as [[c1 ta] al] eqn:Hp.
  destruct (IH _ _ _ _ Hu Hp) as [Hk Hin]. assert (Hk' : ∀ x, outranks c x → outranks c1 x) by (intros x Hx; by apply Hk, observe_keeps).
  assert (He1 : outranks c1 (stamp e)) by (by apply Hk, observe_outranks).
  assert (Hcons : ∀ k' e', (k', e') ∈ (k, e) :: ta → outranks c1 (stamp e')) by (intros k' e' [[= -> ->]|?]%elem_of_cons; [done|by eapply Hin]).
  destruct (m !! k) as [local|]; [destruct (ord_ltb _ _); [|destruct (is_tombstone local)]|]; by intros [= <- <- _].
Qed.

Lemma commit_covers c (r : Replica K E St P) plan acks : covers c (rp_map r) → (∀ k e, (k, e) ∈ plan → outranks c (stamp e)) →
  covers c (rp_map (commit_updates r plan acks).1).
Proof.
  intros Hc Hp k e He. destruct (commit_joins merge_lww r plan acks) as [Hj _]. destruct (Hj k e He); eauto.
Qed.

(** *** The invariant of [dated_step]: the clock outranks all the node has stored, planned or minted *)

Definition held (x : Store * list (list (K * E)) * list S) : Prop :=
  covers (ws_clock x.1.1) (entries x.1.1) ∧ covers_plans (ws_clock x.1.1) x.1.2 ∧ ∀ t, t ∈ x.2 → outranks (ws_clock x.1.1) t.

Lemma dated_step_holds x y : dated_step x y → held x → held y.
Proof.
  destruct 1 as [s ps ms n s' t Hh Ht|s ps ms k e He|s ps ms kvs Hk|s ps ms t k f Ht|Er s ps ms t k f validate r res Ht Hm|
    s ps ms updates c to_apply acks Ha Hp|s ps plan ps' ms acks|s ps ms k expected now retention|s ps ms s' Hm Hc];
    intros (Hcov & Hps & Hms); unfold held; cbn [fst snd ws_clock ws_replica set_state] in *.
  - destruct (tick_spec s n s' t Hh Ht) as [Hr _ Ho _ Hk]. rewrite Hr. split_and!; [intros k e ?; by eapply Hk, Hcov|intros plan k e ? ?; by eapply Hk, Hps|].
    intros t' [->|?]%elem_of_cons; auto.
  - split_and!; [|done..]. apply covers_insert; auto.
  - split_and!; [|done..]. apply bulk_covers; auto.
  - split_and!; [|done..]. unfold get_mut. destruct (entries s !! k) as [e|]; [|done]. cbn. apply covers_insert; [done|]. rewrite stamp_set_stamp. auto.
  - split_and!; [|done..]. apply mutate_entries in Hm as [->|(k' & e & He & ->)]; [done|]. apply covers_insert; [done|]. rewrite He. auto.
  - destruct (plan_outranked _ _ _ _ _ _ Ha Hp) as [Hk Hin]. split_and!; [intros k e ?; by eapply Hk, Hcov| |auto].
    intros plan k e [?|Hone]%elem_of_app He; [by eapply Hk, Hps|]. apply list_elem_of_singleton in Hone as ->. by eapply Hin.
  - split_and!; [|intros plan' k e Hin He; eapply Hps; [|exact He]; set_solver|done].
    apply commit_covers; [done|]. intros k e He. eapply Hps; [|exact He]. apply elem_of_app. right. left.
  - split_and!; [|done..]. eapply covers_subseteq; [apply collect_entries|done].
  - rewrite Hm, Hc. done.
Qed.

(** A minted stamp stays minted. *)
Lemma minted_stay x y : rtc dated_step x y → ∀ t, t ∈ x.2 → t ∈ y.2.
Proof. induction 1 as [x|x y z Hxy _ IH]; [done|]. intros t Ht. apply IH. destruct Hxy; cbn [snd] in *; try done. by right. Qed.

Lemma dated_run_holds x y : rtc dated_step x y → held x → held y.
Proof. induction 1 as [x|x y z Hxy _ IH]; [done|]. intros Hx. by eapply IH, dated_step_holds. Qed.

(** *** The public writes are runs of [dated_step] *)

(** [s'] is reached from [s] with [minted] more stamps. *)
Definition runs s s' (minted : list S) : Prop := ∀ ps ms, rtc dated_step (s, ps, ms) (s', ps, minted ++ ms).

Lemma runs_trans s1 s2 s3 l l' : runs s1 s2 l → runs s2 s3 l' → runs s1 s3 (l' ++ l).
Proof. intros H12 H23 ps ms. etransitivity; [apply H12|]. rewrite <- (assoc_L (++)). apply H23. Qed.

Lemma runs_mint s n s' t : headroom (ws_clock s) (n + 1) → clock_tick s = (s', t) → runs s s' [t].
Proof. intros Hh Ht ps ms. by eapply rtc_once, ds_mint. Qed.

Lemma queue_runs s kvs now ps ms : dated_step (s, ps, ms) (queue_broadcast s kvs now, ps, ms).
Proof. destruct (queue_same s kvs now) as [Hr Hc]. apply ds_other; [by rewrite Hr|done]. Qed.

Lemma engine_insert_runs s k e now ps ms : stamp e ∈ ms →
  rtc dated_step (s, ps, ms) ((engine_insert max_concurrent_broadcasts s k e now).1, ps, ms).
Proof.
  intros He. unfold engine_insert. pose proof (ds_insert s ps ms k e He) as Hs. destruct (just_insert (ws_replica s) k e) as [r ret].
  eapply rtc_l; [exact Hs|]. apply rtc_once, queue_runs.
Qed.

Lemma engine_bulk_runs s kvs now ps ms : (∀ kv, kv ∈ kvs → stamp kv.2 ∈ ms) →
  rtc dated_step (s, ps, ms) (engine_insert_bulk max_concurrent_broadcasts s kvs now, ps, ms).
Proof. intros Hk. eapply rtc_l; [by apply (ds_insert_bulk s ps ms kvs)|]. apply rtc_once, queue_runs. Qed.

Lemma stamp_all_runs {X} (entry : S → X → K * E) s l s' kvs : (∀ t x, stamp (entry t x).2 = t) → headroom (ws_clock s) (len l) →
  stamp_all entry s l = (s', kvs) → ∃ minted, runs s s' minted ∧ ∀ kv, kv ∈ kvs → stamp kv.2 ∈ minted.
Proof.
  intros He. revert s kvs. induction l as [|x l IH]; intros s kvs Hh; cbn [stamp_all].
  { intros [= <- <-]. exists []. split; [intros ps ms; apply rtc_refl|by intros ? ?%not_elem_of_nil]. }
  destruct (clock_tick s) as [s1 t] eqn:Ht. replace (len (x :: l)) with (len l + 1)%N in Hh by (cbn [length]; lia).
  pose proof (runs_mint s (len l) s1 t Hh Ht) as Hm. destruct (tick_spec s (len l) s1 t Hh Ht) as [_ Hh1 _ _ _].
  destruct (stamp_all entry s1 l) as [s2 kvs'] eqn:Hs. intros [= <- <-]. destruct (IH s1 kvs' Hh1 Hs) as (minted & Hr & Hin).
  exists (minted ++ [t]). split; [by eapply runs_trans|]. intros kv [->|Hkv]%elem_of_cons; apply elem_of_app; [right; rewrite He; left|left; auto].
Qed.

Lemma insert_runs s k e t now s1 n : headroom (ws_clock s) (n + 1) → clock_tick s = (s1, t) → stamp e = t →
  runs s (engine_insert max_concurrent_broadcasts s1 k e now).1 [t].
Proof.
  intros Hh Ht He ps ms. etransitivity; [by eapply runs_mint|]. apply engine_insert_runs. rewrite He. left.
Qed.

Lemma store_insert_runs s k v now : headroom (ws_clock s) 1 → ∃ t, runs s (store_insert s k v now).1 [t].
Proof.
  intros Hh. unfold Writes.store_insert. destruct (clock_tick s) as [s1 t] eqn:Ht. exists t.
  pose proof (insert_runs s k (present t v) t now s1 0 Hh Ht (stamp_present t v)) as Hr. by destruct (engine_insert _ _ _ _ _).
Qed.

Lemma store_remove_runs s k now : headroom (ws_clock s) 1 → ∃ t, runs s (store_remove max_concurrent_broadcasts s k now).1 [t].
Proof.
  intros Hh. unfold store_remove. destruct (clock_tick s) as [s1 t] eqn:Ht. exists t.
  pose proof (insert_runs s k (tombstone t) t now s1 0 Hh Ht (stamp_tombstone t)) as Hr. by destruct (engine_insert _ _ _ _ _).
Qed.

Lemma bulk_runs {X} (entry : S → X → K * E) s l s' kvs now : (∀ t x, stamp (entry t x).2 = t) → headroom (ws_clock s) (len l) →
  stamp_all entry s l = (s', kvs) → ∃ minted, runs s (engine_insert_bulk max_concurrent_broadcasts s' kvs now) minted ∧
    runs s (set_state s' (just_insert_bulk (ws_replica s') kvs) (ws_clock s')) minted.
Proof.
  intros He Hh Hs. destruct (stamp_all_runs entry s l s' kvs He Hh Hs) as (minted & Hr & Hin). exists minted.
  split; intros ps ms; (etransitivity; [apply Hr|]).
  - apply engine_bulk_runs. intros kv Hkv. apply elem_of_app. left. auto.
  - apply rtc_once, ds_insert_bulk. intros kv Hkv. apply elem_of_app. left. auto.
Qed.

Lemma insert_bulk_runs s kvs now : headroom (ws_clock s) (len kvs) →
  ∃ minted, runs s (store_insert_bulk max_concurrent_broadcasts s kvs now) minted ∧ runs s (load_bulk s kvs) minted.
Proof.
  intros Hh. unfold store_insert_bulk, load_bulk. destruct (stamp_all _ s kvs) as [s1 l] eqn:Hs.
  eapply bulk_runs; [|exact Hh|exact Hs]. intros t [k v]. apply stamp_present.
Qed.

Lemma remove_selected_runs s keys now : headroom (ws_clock s) (len keys) → ∃ minted, runs s (remove_selected max_concurrent_broadcasts s keys now) minted.
Proof.
  intros Hh. unfold remove_selected. destruct keys as [|k keys]; [exists []; intros ps ms; apply rtc_refl|]. revert Hh. generalize (k :: keys). intros l Hh.
  unfold remove_bulk. destruct (stamp_all _ s l) as [s1 kvs] eqn:Hs.
  edestruct (bulk_runs (λ t k, (k, tombstone t)) s l s1 kvs now) as (minted & Hr & _); [intros; apply stamp_tombstone|exact Hh|exact Hs|by exists minted].
Qed.

Lemma try_insert_runs s k v now : headroom (ws_clock s) 1 → ∃ minted, runs s (try_insert s k v now).1 minted.
Proof.
  intros Hh. unfold Writes.try_insert. destruct (check_value_size _ _ v); [|exists []; intros ps ms; apply rtc_refl].
  destruct (clock_tick s) as [s1 t] eqn:Ht. exists [t]. intros ps ms. etransitivity; [by apply (runs_mint s 0)|].
  unfold engine_try_insert, try_claim_broadcast_slot. destruct (_ <? _)%N; [|apply rtc_refl].
  eapply rtc_l; [apply (ds_insert s1 ps ([t] ++ ms) k (present t v)); rewrite stamp_present; left|].
  cbn [just_insert map_insert fst snd ws_replica set_egress]. unfold spawn_broadcast. destruct (get_peers _ _). apply rtc_once. by apply ds_other.
Qed.

Lemma get_mut_runs s k f now : headroom (ws_clock s) 1 → ∃ t, runs s (store_get_mut max_concurrent_broadcasts s k f now) [t].
Proof.
  intros Hh. unfold store_get_mut. destruct (clock_tick s) as [s1 t] eqn:Ht. exists t. intros ps ms. etransitivity; [by apply (runs_mint s 0)|].
  pose proof (ds_get_mut s1 ps ([t] ++ ms) t k f ltac:(left)) as Hs. destruct (get_mut _ _ _ _) as [r [e|]].
  - eapply rtc_l; [exact Hs|]. apply rtc_once, queue_runs.
  - by apply rtc_once.
Qed.

Lemma mutate_live_runs s k f now s' live : headroom (ws_clock s) 1 →
  mutate_live max_concurrent_broadcasts s k f now = Some (s', live) → ∃ t, runs s s' [t].
Proof.
  intros Hh. unfold mutate_live. destruct (clock_tick s) as [s1 t] eqn:Ht. intros ([r res] & Hm & Heq)%bind_Some. exists t. intros ps ms.
  etransitivity; [by apply (runs_mint s 0)|]. pose proof (ds_mutate s1 ps ([t] ++ ms) t k f _ r res ltac:(left) Hm) as Hs.
  destruct res as [[e|]|]; [| |done]; injection Heq as <- <-; [eapply rtc_l; [exact Hs|]; apply rtc_once, queue_runs|by apply rtc_once].
Qed.

Lemma try_update_runs s k f now s' res : headroom (ws_clock s) 1 → try_update s k f now = Some (s', res) → ∃ minted, runs s s' minted.
Proof.
  intros Hh. unfold Writes.try_update, try_claim_broadcast_slot. destruct (_ <? _)%N; cbn [negb]; [|intros [= <- _]; exists []; intros ps ms; apply rtc_refl].
  set (s0 := set_egress s _ _ _). destruct (clock_tick s0) as [s1 t] eqn:Ht. intros ([r res'] & Hm & Heq)%bind_Some. injection Heq as Heq. exists [t].
  intros ps ms. eapply rtc_l; [by apply (ds_other s ps ms s0)|]. etransitivity; [by apply (runs_mint s0 0)|].
  eapply rtc_l; [eapply (ds_mutate s1 ps ([t] ++ ms) t k f _ r res' ltac:(left) Hm)|]. apply rtc_once.
  destruct res' as [[e|]|err]; try (unfold spawn_broadcast in Heq; destruct (get_peers _ _)); injection Heq as <- _; by apply ds_other.
Qed.

(** Restarting covers what is loaded. *)
Lemma loaded_held (c0 c : C) (r : Replica K E St P) loaded : install_loaded replica_new c0 loaded = (r, c) → covers c (rp_map r).
Proof.
  destruct loaded as [[[entries members] acks]|]; cbn [install_loaded]; [|intros [= <- <-] k e Hk; cbn [replica_new rp_map] in Hk; by rewrite lookup_empty in Hk].
  set (r1 := set_members _ _ _ _). intros [= <- <-]. cbn [just_insert_bulk record_changes retire_change_count set_generations set_changes set_members rp_map].
  assert (Hr1 : covers c0 (rp_map r1)) by (intros k e Hk; cbn [r1 set_members replica_new rp_map] in Hk; by rewrite lookup_empty in Hk). revert Hr1. generalize c0, r1. clear r1.
  induction entries as [|[k e] entries IH]; intros c r1 Hr1; cbn [fold_left]; [done|]. apply IH. apply covers_insert; [|apply trusted_outranks].
  intros k' e' Hk'. by eapply trusted_keeps, Hr1.
Qed.

(** C5. A node's own writes count. From a restart on, through any interleaving of writes, remote
    batches within the drift budget and collections, other tasks running between the moment a write
    reads the clock and the moment it stores: the stamp a write reads is newer than every stamp the node
    has minted and than every entry it has stored or planned to store by then, so that merged with
    any of them, on any replica and in either order, the write is what remains; and whenever it is
    stored, the key holds it. *)
Theorem local_writes_outrank c0 loaded s s1 ps ms n s2 t s3 ps3 ms3 k v now :
  install_loaded replica_new c0 loaded = (ws_replica s, ws_clock s) → rtc dated_step (s, [], []) (s1, ps, ms) →
  headroom (ws_clock s1) (n + 1) → clock_tick s1 = (s2, t) → rtc dated_step (s2, ps, t :: ms) (s3, ps3, ms3) →
  (∀ t', t' ∈ ms → ord_ltb t' t = true) ∧
  (∀ k' e, entries s1 !! k' = Some e ∨ (∃ plan, plan ∈ ps ∧ (k', e) ∈ plan) →
    merge e (present t v) = present t v ∧ merge (present t v) e = present t v) ∧
  entries (engine_insert max_concurrent_broadcasts s3 k (present t v) now).1 !! k = Some (present t v) ∧
  (∀ t' s4, clock_tick s3 = (s4, t') → headroom (ws_clock s3) (n + 1) → ord_ltb t t' = true).
Proof.
  intros Hl%loaded_held Hrun Hh Ht Hrun'.
  assert (Hs1 : held (s1, ps, ms)).
  { eapply dated_run_holds; [exact Hrun|]. split_and!; [done|by intros ? ? ? ?%not_elem_of_nil|by intros ? ?%not_elem_of_nil]. }
  assert (Hs3 : held (s3, ps3, ms3)) by (eapply dated_run_holds; [exact Hrun'|]; eapply dated_step_holds; [by eapply ds_mint|exact Hs1]).
  destruct Hs1 as (Hcov & Hps & Hms). destruct (tick_spec s1 n s2 t Hh Ht) as [_ _ _ Hnew _]. cbn [fst snd] in *. split_and!.
  - auto.
  - intros k' e Hin. assert (Hlt : ord_ltb (stamp e) t = true).
    { apply Hnew. destruct Hin as [Hin|(plan & Hplan & Hin)]; [by eapply Hcov|by eapply Hps]. }
    rewrite !merge_lww, stamp_present, Hlt. split; [done|]. destruct (ord_ltb t (stamp e)) eqn:Hgt; [|done].
    apply ord_ltb_leb in Hgt. unfold ord_ltb in Hlt. rewrite Hgt in Hlt. done.
  - unfold engine_insert. destruct (just_insert (ws_replica s3) k (present t v)) as [r ret] eqn:Hj. cbn [fst].
    destruct (queue_same (set_state s3 r (ws_clock s3)) [(k, present t v)] now) as [-> _]. injection Hj as <- _. apply lookup_insert_eq.
  - intros t' s4 Ht' Hh'. destruct (tick_spec s3 n s4 t' Hh' Ht') as [_ _ _ Hn3 _]. apply Hn3. destruct Hs3 as (_ & _ & Hms3). apply Hms3.
    eapply (minted_stay _ _ Hrun'). left.
Qed.

(** Writes take their stamp before the lock: a remote entry committed in between, newer than the
    stamp, is overwritten by the older write. *)
Lemma stale_stamp_overwrites (r : Replica K E St P) k (e : E) t v : rp_map r !! k = Some e → ord_ltb t (stamp e) = true →
  rp_map (just_insert r k (present t v)).1 !! k = Some (present t v) ∧ merge e (present t v) = e.
Proof.
  intros _ Hlt. split; [apply lookup_insert_eq|]. rewrite merge_lww, stamp_present. destruct (ord_ltb (stamp e) t) eqn:Hgt; [|done].
  apply ord_ltb_leb in Hgt. unfold ord_ltb in Hlt. by rewrite Hgt in Hlt.
Qed.
End stamps.

(** ** A restart with the wall clock set back *)

Notation Reg := (N * N * N * option N)%type.
Definition reg_lww : Lww N (N * N * N) Reg unit := {|
  present s v := (s, Some v); tombstone s := (s, None); stamp := fst; is_tombstone e := negb (bool_decide (is_Some e.2));
  merge x y := if ord_ltb x.1 y.1 then y else x; digest e := [e.1.1.1; e.1.1.2; e.1.2; default 0 e.2]%N;
  clock_now c := (c, (0, 0, 0)%N); clock_observe c _ := c; clock_observe_trusted c _ := c |}.
Definition reg_state : EntryState N (N * N * N) Reg (option N) := {|
  state := snd; project := snd; value := snd; value_mut f e := (e.1, f <$> e.2); set_stamp e s := (s, e.2);
  state_digest o := [default 0 o]%N; physical_millis s := s.1.1 |}.
Definition demo_wall (i : N) : Z := 100.
#[local] Existing Instances small_hlc small_hlc_laws reg_state.
#[local] Instance demo_lww : Lww N (N * N * N) Reg (HlcState (N * N)) := hlc_lww (L := reg_lww) demo_wall.
#[local] Instance demo_port : ClockPort N (N * N * N) Reg (HlcState (N * N)) := hlc_port (L := reg_lww) demo_wall.

Definition demo_loaded : option (list (N * Reg) * gset N * gmap N (gmap N N)) := Some ([(1, (5000, 2, 7, Some 40))]%N, ∅, ∅).
Definition demo_clock : HlcState (N * N) := {| hs_clock := with_max_clock_drift (hlc_clock_new 7) 10000; hs_reads := 0 |}.
Definition demo_restart : Replica N Reg (option N) N * HlcState (N * N) := install_loaded replica_new demo_clock demo_loaded.
Definition demo_store : Writes.Store (K := N) (E := Reg) (C := HlcState (N * N)) (St := option N) (P := N) :=
  {| ws_replica := demo_restart.1; ws_clock := demo_restart.2; ws_peers := ∅; ws_in_flight := 0; ws_tasks := [];
     ws_pending := ∅; ws_flushes := 0; ws_window := 0 |}.
Notation demo_updates := ([(2, (9000, 0, 8, Some 50))]%N : list (N * Reg)).
Notation demo_planned := (set_state demo_store (ws_replica demo_store) (clock_observe (ws_clock demo_store) (9000, 0, 8)%N)).

(** The write reads the clock after a remote batch is planned and stores after the batch is committed. *)
Lemma local_writes_outrank_witness :
  let '(s2, t) := clock_tick demo_planned in
  let s3 := set_state s2 (commit_updates (ws_replica s2) demo_updates []).1 (ws_clock s2) in
  rp_map (ws_replica (engine_insert 8 s3 2%N (present t 60%N) 0).1) !! 2%N = Some (present t 60%N) ∧
  merge (9000, 0, 8, Some 50)%N (present t 60%N) = present (Lww := demo_lww) t 60%N.
Proof.
  assert (Hmerge : ∀ x y : Reg, merge (Lww := demo_lww) x y = if ord_ltb (stamp (Lww := demo_lww) x) (stamp (Lww := demo_lww) y) then y else x) by reflexivity.
  assert (Hpresent : ∀ (t : N * N * N) (v : N), stamp (Lww := demo_lww) (present t v) = t) by reflexivity.
  assert (Htomb : ∀ t : N * N * N, stamp (Lww := demo_lww) (tombstone t) = t) by reflexivity.
  assert (Hset : ∀ (e : Reg) (t : N * N * N), stamp (Lww := demo_lww) (set_stamp e t) = t) by reflexivity.
  destruct (clock_tick demo_planned) as [s2 t] eqn:Ht. cbv zeta.
  destruct (local_writes_outrank (K := N) (St := option N) (P := N) 8 Hmerge Hpresent Htomb Hset
    demo_clock demo_loaded demo_store demo_planned [demo_updates] [] 0 s2 t
    (set_state s2 (commit_updates (ws_replica s2) demo_updates []).1 (ws_clock s2)) [] [t] 2%N 60%N 0%N) as (_ & Hm & Hs & _).
  - unfold demo_store. cbn [ws_replica ws_clock]. apply surjective_pairing.
  - apply rtc_once, (ds_plan demo_store [] [] demo_updates _ demo_updates []); [|vm_compute; reflexivity].
    split; [|exact I]. cbn [admissible demo_port hlc_port]. unfold within_drift. vm_compute. discriminate.
  - split; [vm_compute; discriminate|]. intros i. vm_compute. discriminate.
  - exact Ht.
  - apply rtc_once, (ds_commit s2 [] demo_updates [] [t] []).
  - split; [exact Hs|]. apply (Hm 2%N). right. exists demo_updates. split; left.
Defined.
