(* ===== verification/Config.v ===== *)
(** * Configuration and construction ([src/replicated_map/config/], [src/replica/construct.rs],
      [src/read_replica_map.rs])

    The configuration with its builders, what construction refuses, and the state it assembles.
    Binding the socket, the random node identity and the loopback network are arguments. *)
From stdpp Require Import gmap list relations strings.
From Stdlib Require Import NArith.
From Stdlib.Strings Require Import Byte.
From S2P Require Import Prelude Bytes Replay Auth Framing Reassembly ReassemblyInv Missing RecoveryBook FramedSend FramedSendProps Admission Ingress.
From S2P Require Import Journal SignedCausal Messages Replica Dumps Repair Engine EngineProps Writes Round RunProps ReadReplica ReadReplicaProps Clock.

(** ** [FramingConfig]'s builders *)

Module FramingBuilders.
Implicit Types (c : FramingConfig) (n : N).
Definition with_datagram_payload_budget c n : FramingConfig := {| c with datagram_payload_budget := n |}.
Definition with_max_logical_message_size c n : FramingConfig := {| c with fc_max_logical_message_size := n |}.
Definition with_max_fragments_per_message c n : FramingConfig := {| c with fc_max_fragments_per_message := n |}.
Definition with_max_incomplete_transfers_per_peer c n : FramingConfig := {| c with fc_max_incomplete_transfers_per_peer := n |}.
Definition with_max_reassembly_bytes_per_peer c n : FramingConfig := {| c with fc_max_reassembly_bytes_per_peer := n |}.
Definition with_max_total_reassembly_bytes c n : FramingConfig := {| c with fc_max_total_reassembly_bytes := n |}.
Definition with_reassembly_ttl c n : FramingConfig := {| c with fc_reassembly_ttl := n |}.
Definition with_selective_recovery c (enabled : bool) : FramingConfig := {| c with selective_recovery := enabled |}.
Definition with_max_missing_ranges_per_report c n : FramingConfig := {| c with max_missing_ranges_per_report := n |}.
Definition with_max_outbound_recovery_transfers_per_peer c n : FramingConfig := {| c with max_outbound_recovery_transfers_per_peer := n |}.
Definition with_max_total_outbound_recovery_transfers c n : FramingConfig := {| c with max_total_outbound_recovery_transfers := n |}.
Definition with_max_outbound_recovery_bytes_per_peer c n : FramingConfig := {| c with max_outbound_recovery_bytes_per_peer := n |}.
Definition with_max_total_outbound_recovery_bytes c n : FramingConfig := {| c with max_total_outbound_recovery_bytes := n |}.
Definition with_max_selective_recovery_rounds c n : FramingConfig := {| c with max_selective_recovery_rounds := n |}.
Definition with_recovery_ttl c n : FramingConfig := {| c with recovery_ttl := n |}.
Definition with_recovery_capability_ttl c n : FramingConfig := {| c with recovery_capability_ttl := n |}.
End FramingBuilders.

(** ** [Config] *)

Definition DEFAULT_BULK_SEND_RATE : N := 32 * 1024 * 1024.
Definition MIN_BULK_SEND_RATE : N := 1024 * 1024.
Definition DEFAULT_SOCKET_BUFFER_SIZE : N := 8 * 1024 * 1024.
Definition DEFAULT_MAX_PEERS : N := 1024.
Definition DEFAULT_MAX_REPLAY_SENDERS : N := 1024.
Definition DEFAULT_REPAIR_INTERVAL : N := 150 * 1000000.
Definition DEFAULT_MAX_CONCURRENT_BULK_DUMPS : N := 4.
Definition DEFAULT_MAX_CONCURRENT_BROADCASTS : N := 1024.
Definition DEFAULT_SNAPSHOT_CHANGE_THRESHOLD : N := 1.
Definition SNAPSHOT_INTERVAL : N := seconds 5.

(** The framing variants are [FramingConfigError]. *)
Inductive ConfigError := TooManyNets | MissingSecurityMode | InvalidFraming (err : FramingConfigError).
Inductive ConstructionError := ConfigErr (err : ConfigError) | IoErr (err : IoError).
Definition io_error_from (err : ConstructionError) : IoError :=
  match err with IoErr err => err | ConfigErr _ => InvalidInput end.

Section config.
Context {P Net : Type}.

Record Config := {
  cfg_port : N;
  cfg_listen_addr : P;
  cfg_nets : list (option Net);
  cfg_remote_interval : N;
  cfg_remote_fanout : nat;
  cfg_cluster_key : option ClusterKey;
  cfg_rotation_key : option ClusterKey;
  cfg_insecure_no_key : bool;
  cfg_node_id : option N;
  cfg_encrypt : bool;
  cfg_reconcile_interval : N;
  cfg_repair_interval : N;
  cfg_bulk_send_rate : option N;
  cfg_recv_buffer_size : option N;
  cfg_send_buffer_size : option N;
  cfg_freshness_window : N;
  cfg_max_peers : N;
  cfg_max_replay_senders : N;
  cfg_max_concurrent_bulk_dumps : N;
  cfg_max_concurrent_broadcasts : N;
  cfg_framing : FramingConfig;
  cfg_snapshot_interval : option N;
  cfg_snapshot_change_threshold : N;
  cfg_max_clock_drift : N;
  cfg_coalesce_window : N;
  cfg_max_value_size : option N;
}.
Implicit Types (c : Config) (n : N).

(** [loopback] is [127.0.0.1], [drift] is [MAX_CLOCK_DRIFT]. *)
Definition Config_default (loopback : P) (drift : N) : Config := {|
  cfg_port := 0; cfg_listen_addr := loopback; cfg_nets := replicate MAX_NETS None; cfg_remote_interval := 6;
  cfg_remote_fanout := 2; cfg_cluster_key := None; cfg_rotation_key := None; cfg_insecure_no_key := false;
  cfg_node_id := None; cfg_encrypt := false; cfg_reconcile_interval := seconds 1;
  cfg_repair_interval := DEFAULT_REPAIR_INTERVAL; cfg_bulk_send_rate := Some DEFAULT_BULK_SEND_RATE;
  cfg_recv_buffer_size := Some DEFAULT_SOCKET_BUFFER_SIZE; cfg_send_buffer_size := Some DEFAULT_SOCKET_BUFFER_SIZE;
  cfg_freshness_window := FRESHNESS_WINDOW_DEFAULT; cfg_max_peers := DEFAULT_MAX_PEERS;
  cfg_max_replay_senders := DEFAULT_MAX_REPLAY_SENDERS; cfg_max_concurrent_bulk_dumps := DEFAULT_MAX_CONCURRENT_BULK_DUMPS;
  cfg_max_concurrent_broadcasts := DEFAULT_MAX_CONCURRENT_BROADCASTS; cfg_framing := FramingConfig_default;
  cfg_snapshot_interval := Some SNAPSHOT_INTERVAL; cfg_snapshot_change_threshold := DEFAULT_SNAPSHOT_CHANGE_THRESHOLD;
  cfg_max_clock_drift := drift; cfg_coalesce_window := 0; cfg_max_value_size := None |}.

Definition with_port c n : Config := {| c with cfg_port := n |}.
Definition config_new (loopback : P) (drift n : N) : Config := with_port (Config_default loopback drift) n.
Definition with_listen_addr c (addr : P) : Config := {| c with cfg_listen_addr := addr |}.

(** The first free slot. *)
Fixpoint fill_slot (nets : list (option Net)) (net : Net) : option (list (option Net)) :=
  match nets with
  | [] => None
  | None :: nets => Some (Some net :: nets)
  | Some n :: nets => cons (Some n) <$> fill_slot nets net
  end.

Definition with_net c (net : Net) : result Config ConfigError :=
  match fill_slot (cfg_nets c) net with
  | None => Err TooManyNets
  | Some nets => Ok {| c with cfg_nets := nets |}
  end.

Fixpoint with_nets c (nets : list Net) : result Config ConfigError :=
  match nets with
  | [] => Ok c
  | net :: nets => match with_net c net with Ok c => with_nets c nets | Err err => Err err end
  end.

Definition with_remote_interval c n : Config := {| c with cfg_remote_interval := n |}.
Definition with_remote_fanout c (fanout : nat) : Config := {| c with cfg_remote_fanout := fanout |}.
Definition with_reconcile_interval c n : Config := {| c with cfg_reconcile_interval := n |}.
Definition with_repair_interval c n : Config := {| c with cfg_repair_interval := n |}.
Definition with_bulk_send_rate c n : Config := {| c with cfg_bulk_send_rate := Some n |}.
Definition with_recv_buffer_size c n : Config := {| c with cfg_recv_buffer_size := Some n |}.
Definition with_send_buffer_size c n : Config := {| c with cfg_send_buffer_size := Some n |}.
Definition with_cluster_key c (key : ClusterKey) : Config := {| c with cfg_cluster_key := Some key; cfg_rotation_key := None |}.
Definition with_cluster_key_rotation c (primary also_accept : ClusterKey) : Config :=
  {| c with cfg_cluster_key := Some primary; cfg_rotation_key := Some also_accept |}.
Definition auth_keys c : option Keys :=
  (λ primary, {| Auth.primary := primary; also_accept := option_list (cfg_rotation_key c) |}) <$> cfg_cluster_key c.
Definition with_insecure_no_key c : Config := {| c with cfg_insecure_no_key := true |}.
Definition check_key_or_insecure_opt_in c : result unit ConfigError :=
  if bool_decide (is_Some (cfg_cluster_key c)) || cfg_insecure_no_key c then Ok tt else Err MissingSecurityMode.
Definition with_node_id c n : Config := {| c with cfg_node_id := Some n |}.
Definition with_freshness_window c n : Config := {| c with cfg_freshness_window := n |}.
Definition with_max_peers c n : Config := {| c with cfg_max_peers := n |}.
Definition with_max_replay_senders c n : Config := {| c with cfg_max_replay_senders := n |}.
Definition with_max_concurrent_bulk_dumps c n : Config := {| c with cfg_max_concurrent_bulk_dumps := n |}.
Definition with_max_concurrent_broadcasts c n : Config := {| c with cfg_max_concurrent_broadcasts := n |}.
Definition with_framing c (framing : FramingConfig) : Config := {| c with cfg_framing := framing |}.
Definition with_snapshot_interval c (interval : option N) : Config := {| c with cfg_snapshot_interval := interval |}.
Definition with_snapshot_change_threshold c n : Config := {| c with cfg_snapshot_change_threshold := n |}.
Definition with_config_clock_drift c n : Config := {| c with cfg_max_clock_drift := n |}.
Definition with_coalesce_window c n : Config := {| c with cfg_coalesce_window := n |}.
Definition with_max_value_size c n : Config := {| c with cfg_max_value_size := Some n |}.
(** Exists only under the [encryption] feature. *)
Definition with_encryption c : Config := {| c with cfg_encrypt := true |}.

Definition check_port_is_nonzero c : result unit IoError := if (cfg_port c =? 0)%N then Err InvalidInput else Ok tt.
End config.
Arguments Config : clear implicits.

(** ** Construction of a replica *)

Section construct.
Context {K V S E C St P Ag R Net Tr : Type} `{Countable K, Countable P} `{Lww V S E C} `{!EntryState V S E St}.
Context `{!RustOrd K, !RustOrd S, !RustOrd P} `{!EqDecision S} `{Mac, Aead} `{EqDecision Net}.
(** external code: [blake3::derive_key] under the lift context, [1s / rate], [ipnet], and the
    loopback network ["127.0.0.1/8"] *)
Context (derive_lift_key : ClusterKey → list byte) (recip : N → N) (contains : Net → P → bool) (host_net : P → Net) (loopback_net : Net).
(** the [encryption] cargo feature *)
Context (encryption_feature : bool).
Implicit Types (c : Config P Net).

(** [Inner], with the transport's answers in [en_send]. *)
Record Inner := {
  in_engine : Engine (K := K) (E := E) (C := C) (St := St) (P := P) (Ag := Ag) (R := R);
  in_round : RoundState (K := K) (P := P) (Net := Net);
  in_lift_key : option (list byte);
  in_port : N;
  in_transport : Tr;
  in_reconcile_interval : N;
  in_repair_interval : N;
  in_bulk_send_rate : option N;
  in_framing : FramingConfig;
  in_max_concurrent_bulk_dumps : N;
  in_max_value_size : option N;
  in_broadcasts_in_flight : N;
  in_max_concurrent_broadcasts : N;
  in_authenticator : Authenticator;
  in_node_id_is_random : bool;
  in_max_peers : N;
  in_coalesce_window : N;
  in_coalesce_pending : gmap K E;
}.

Definition clamp_rate (rate : N) : N := if (0 <? rate)%N && (rate <? MIN_BULK_SEND_RATE)%N then MIN_BULK_SEND_RATE else rate.

Definition declared_nets c : list Net :=
  match omap id (cfg_nets c) with [] => [loopback_net] | nets => nets end.

(** [None] is the [expect] on the authenticator. *)
Definition replica_build c (transport : Tr) (net : list (result N unit)) (clock : C) (node_id_is_random : bool) (rng : R)
    : option (result Inner ConfigError) :=
  match check_key_or_insecure_opt_in c with
  | Err err => Some (Err err)
  | Ok _ =>
      match with_rotation encryption_feature (auth_keys c) (cfg_encrypt c) with
      | Err _ => None
      | Ok authenticator =>
          match framing_validate (cfg_framing c) (N.of_nat (overhead authenticator)) with
          | Err err => Some (Err (InvalidFraming err))
          | Ok _ =>
              let enabled := match authenticator with Disabled => false | _ => true end in
              let nets := declared_nets c in
              Some (Ok {|
                in_engine := {|
                  en_replica := replica_new; en_clock := clock;
                  en_replay := ReplayFilter.with_max_senders (ReplayFilter.filter_new (cfg_freshness_window c) enabled) (cfg_max_replay_senders c);
                  en_reassembler := for_identity (reassembly_limits (cfg_framing c));
                  en_send := {| s_counter := SenderCounter.counter_new; s_book := book_for_identity; s_net := net; s_log := [] |};
                  en_dumps := dumps_new (bulk_new recip (cfg_max_concurrent_bulk_dumps c)); en_tasks := [];
                  en_repairs := ∅; en_receiving := ∅; en_peers := ∅; en_rng := rng |};
                in_round := {|
                  rd_round := 0; rd_last := None; rd_cursor := None;
                  rd_topology := {| tp_nets := nets; tp_local := derive_local_net contains host_net nets (cfg_listen_addr c);
                                    tp_listen := cfg_listen_addr c; tp_remote_interval := cfg_remote_interval c;
                                    tp_remote_fanout := cfg_remote_fanout c |} |};
                in_lift_key := derive_lift_key <$> cfg_cluster_key c; in_port := cfg_port c; in_transport := transport;
                in_reconcile_interval := cfg_reconcile_interval c; in_repair_interval := cfg_repair_interval c;
                in_bulk_send_rate := clamp_rate <$> cfg_bulk_send_rate c; in_framing := cfg_framing c;
                in_max_concurrent_bulk_dumps := cfg_max_concurrent_bulk_dumps c; in_max_value_size := cfg_max_value_size c;
                in_broadcasts_in_flight := 0; in_max_concurrent_broadcasts := cfg_max_concurrent_broadcasts c;
                in_authenticator := authenticator; in_node_id_is_random := node_id_is_random;
                in_max_peers := cfg_max_peers c; in_coalesce_window := cfg_coalesce_window c; in_coalesce_pending := ∅ |})
          end
      end
  end.

(** [UdpTransport::bind] *)
Context (bind : P → N → option N → option N → result Tr IoError).

Definition bind_udp c : result Tr IoError :=
  match check_port_is_nonzero c with
  | Err err => Err err
  | Ok _ => bind (cfg_listen_addr c) (cfg_port c) (cfg_recv_buffer_size c) (cfg_send_buffer_size c)
  end.

Definition config_err {X} (built : option (result X ConfigError)) : option (result X ConstructionError) :=
  (λ r, match r with Ok x => Ok x | Err err => Err (ConfigErr err) end) <$> built.

Definition replica_new_with_clock c (net : list (result N unit)) (clock : C) (node_id_is_random : bool) (rng : R)
    : option (result Inner ConstructionError) :=
  match check_key_or_insecure_opt_in c with
  | Err err => Some (Err (ConfigErr err))
  | Ok _ =>
      match bind_udp c with
      | Err err => Some (Err (IoErr err))
      | Ok transport => config_err (replica_build c transport net clock node_id_is_random rng)
      end
  end.

(** The default clock, [random_id] what [rand::random] drew. *)
Section default_clock.
Context {H' Ad' : Type} `{HlcOps H' Ad' S} (of_hlc : HlcClock (H := H') → C).

Definition default_clock c (random_id : N) : C :=
  of_hlc (with_max_clock_drift (hlc_clock_new (default random_id (cfg_node_id c))) (cfg_max_clock_drift c)).

Definition replica_udp c (net : list (result N unit)) (random_id : N) (rng : R) : option (result Inner ConstructionError) :=
  replica_new_with_clock c net (default_clock c random_id) (negb (bool_decide (is_Some (cfg_node_id c)))) rng.

Definition with_transport c (transport : Tr) (net : list (result N unit)) (random_id : N) (rng : R) : option (result Inner ConfigError) :=
  replica_build c transport net (default_clock c random_id) (negb (bool_decide (is_Some (cfg_node_id c)))) rng.
End default_clock.

(** ** Construction of a read replica *)

Section read_replica.
Context (gen_ip : R → Net → P * R).

Definition read_replica_build c (net : list (result N unit)) (rng : R) : option (result (ReadReplicaMap (K := K) (St := St) (P := P) (R := R) (Net := Net) * Authenticator * option (list byte)) ConfigError) :=
  match check_key_or_insecure_opt_in c with
  | Err err => Some (Err err)
  | Ok _ =>
      match with_rotation encryption_feature (auth_keys c) (cfg_encrypt c) with
      | Err _ => None
      | Ok authenticator =>
          match framing_validate (cfg_framing c) (N.of_nat (overhead authenticator)) with
          | Err err => Some (Err (InvalidFraming err))
          | Ok _ =>
              Some (Ok (rr_build contains loopback_net (cfg_framing c) (omap id (cfg_nets c)) (cfg_listen_addr c) rng (cfg_freshness_window c)
                          (match authenticator with Disabled => false | _ => true end) (cfg_max_replay_senders c)
                          {| s_counter := SenderCounter.counter_new; s_book := book_for_identity; s_net := net; s_log := [] |},
                        authenticator, derive_lift_key <$> cfg_cluster_key c))
          end
      end
  end.

(** The default buffer sizes of the system. *)
Definition read_replica_udp c (net : list (result N unit)) (rng : R) :=
  match check_key_or_insecure_opt_in c with
  | Err err => Some (Err (ConfigErr err))
  | Ok _ =>
      match check_port_is_nonzero c with
      | Err err => Some (Err (IoErr err))
      | Ok _ =>
          match bind (cfg_listen_addr c) (cfg_port c) None None with
          | Err err => Some (Err (IoErr err))
          | Ok _ => config_err (read_replica_build c net rng)
          end
      end
  end.
End read_replica.

(** [warn_on_ignored_config_fields]: the fields it names. *)
Definition ignored_fields (loopback : P) (drift : N) c : list string :=
  let d := Config_default (Net := Net) loopback drift in
  let named (changed : bool) (name : string) := if changed then [name] else [] in
  named (negb (cfg_remote_interval c =? cfg_remote_interval d)%N) "remote_interval"%string
  ++ named (negb (cfg_remote_fanout c =? cfg_remote_fanout d)) "remote_fanout"%string
  ++ named (negb (bool_decide (cfg_node_id c = cfg_node_id d))) "node_id"%string
  ++ named (negb (bool_decide (cfg_bulk_send_rate c = cfg_bulk_send_rate d))) "bulk_send_rate"%string
  ++ named (negb (bool_decide (cfg_recv_buffer_size c = cfg_recv_buffer_size d))) "recv_buffer_size"%string
  ++ named (negb (bool_decide (cfg_send_buffer_size c = cfg_send_buffer_size d))) "send_buffer_size"%string
  ++ named (negb (cfg_max_concurrent_bulk_dumps c =? cfg_max_concurrent_bulk_dumps d)%N) "max_concurrent_bulk_dumps"%string
  ++ named (negb (bool_decide (cfg_max_value_size c = cfg_max_value_size d))) "max_value_size"%string
  ++ named (negb (cfg_max_concurrent_broadcasts c =? cfg_max_concurrent_broadcasts d)%N) "max_concurrent_broadcasts"%string
  ++ named (1 <? length (omap id (cfg_nets c))) "nets"%string.
End construct.
