(* ===== verification/ConfigProps.v ===== *)
(** * Properties of construction ([src/replica/construct.rs], [src/replicated_map/config/builders.rs])

    What the builders declare is what construction sees; a replica that construction accepts runs
    soundly and is unauthenticated only by request; a staged key rotation keeps every node
    reachable. *)
From stdpp Require Import gmap list relations strings.
From Stdlib Require Import NArith.
From Stdlib.Strings Require Import Byte.
From S2P Require Import Prelude Bytes Replay Auth Framing Reassembly ReassemblyInv Missing RecoveryBook FramedSend FramedSendProps Admission Ingress.
From S2P Require Import ReassemblyProps Journal SignedCausal Messages Replica Samples ReplicaInv Dumps Repair Engine EngineProps Writes Round RunProps RunLimits ReadReplica Config.

(** ** Networks *)

Section nets.
Context {P Net : Type}.
Implicit Types (c : Config P Net).

Lemma fill_slot_spec (nets : list (option Net)) net :
  match fill_slot nets net with
  | Some nets' => length nets' = length nets ∧ (Forall is_Some (take (length (omap id nets)) nets) → omap id nets' = omap id nets ++ [net] ∧ Forall is_Some (take (length (omap id nets')) nets'))
  | None => Forall is_Some nets
  end.
Proof.
  induction nets as [|[n|] nets IH]; cbn; [constructor| |].
  - destruct (fill_slot nets net) as [nets'|]; cbn; [|by constructor]. destruct IH as [Hl IH]. split; [by rewrite Hl|].
    intros [_ Hf]%Forall_cons. destruct (IH Hf) as [-> Hf']. split; [done|]. by constructor.
  - split; [done|]. intros Hf. destruct (omap id nets) as [|x l] eqn:Ho; cbn in Hf.
    + split; [done|]. by repeat constructor.
    + apply Forall_cons in Hf as [[? ?] _]. done.
Qed.

(** The slots in use are the first ones. *)
Definition packed (nets : list (option Net)) : Prop := Forall is_Some (take (length (omap id nets)) nets).

Lemma packed_full (nets : list (option Net)) : Forall is_Some nets → length (omap id nets) = length nets.
Proof. induction 1 as [|x nets [y ->] _ IH]; [done|]. cbn. by rewrite IH. Qed.

(** The builders take networks in order, up to the number of slots. *)
Lemma with_nets_spec c nets : packed (cfg_nets c) →
  if length (omap id (cfg_nets c)) + length nets <=? length (cfg_nets c)
  then ∃ c', with_nets c nets = Ok c' ∧ omap id (cfg_nets c') = omap id (cfg_nets c) ++ nets ∧ packed (cfg_nets c') ∧ length (cfg_nets c') = length (cfg_nets c)
  else with_nets c nets = Err TooManyNets.
Proof.
  revert c. induction nets as [|net nets IH]; intros c Hp; cbn [with_nets length].
  { rewrite Nat.add_0_r. assert (length (omap id (cfg_nets c)) ≤ length (cfg_nets c)) as ->%Nat.leb_le.
    { clear Hp. induction (cfg_nets c) as [|[x|] l IH]; cbn; lia. }
    exists c. rewrite app_nil_r. done. }
  unfold with_net. pose proof (fill_slot_spec (cfg_nets c) net) as Hs. destruct (fill_slot (cfg_nets c) net) as [l|].
  - destruct Hs as [Hl Hs]. destruct (Hs Hp) as [Ho Hp']. specialize (IH {| c with cfg_nets := l |} Hp'). cbn [cfg_nets] in IH.
    rewrite Ho, Hl, length_app in IH. cbn [length] in IH. rewrite <- Nat.add_assoc in IH. destruct (_ <=? _); [|done].
    destruct IH as (c' & -> & Hc' & ? & Hl'). exists c'. rewrite Hc', Hl', <- (assoc_L (++)). done.
  - rewrite (packed_full _ Hs). destruct (Nat.leb_spec (length (cfg_nets c) + Datatypes.S (length nets)) (length (cfg_nets c))); [lia|done].
Qed.
End nets.

(** ** Key rotation *)

Section rotation.
Context {P Net : Type} `{Mac, Aead} (encryption_feature : bool).
Implicit Types (c : Config P Net) (old new : ClusterKey).

(** The phases of a rollout, from the old key to the new one. *)
Definition rotation_phase c old new (i : nat) : Config P Net :=
  match i with
  | 0 => with_cluster_key c old
  | 1 => with_cluster_key_rotation c old new
  | 2 => with_cluster_key_rotation c new old
  | _ => with_cluster_key c new
  end.

Definition phase_authenticator c old new (i : nat) : result Authenticator unit :=
  with_rotation encryption_feature (auth_keys (rotation_phase c old new i)) (cfg_encrypt (rotation_phase c old new i)).

Definition adjacent (i j : nat) : bool := (i <=? Datatypes.S j) && (j <=? Datatypes.S i).

Lemma phases_accept c old new i j a b : old ≠ new → i ≤ 3 → j ≤ 3 →
  phase_authenticator c old new i = Ok a → phase_authenticator c old new j = Ok b →
  accepts a b ∧ accepts b a ↔ adjacent i j = true.
Proof.
  intros Hne Hi Hj. unfold phase_authenticator.
  destruct i as [|[|[|[|]]]]; [| | | |lia]; destruct j as [|[|[|[|]]]]; try lia;
    cbn; destruct (cfg_encrypt c); (try destruct encryption_feature); try done; intros [= <-] [= <-]; cbn -[elem_of];
    unfold keys_iter; cbn [primary also_accept]; rewrite !elem_of_cons, !elem_of_nil; naive_solver.
Qed.

(** C32. A staged rotation never splits the cluster. Two nodes at the same phase or one apart open
    what the other seals, and recover the payload with its sequence number and stamp; the phases
    cannot be shortened, two that are further apart do not accept each other both ways. *)
Theorem rotation_keeps_nodes_reachable c old new i j a b nonce q t p :
  old ≠ new → i ≤ 3 → j ≤ 3 → phase_authenticator c old new i = Ok a → phase_authenticator c old new j = Ok b →
  other_keys_reject a b nonce q t p → length nonce = AEAD_NONCE_LEN → (q ≤ u64_max)%N → (t ≤ u64_max)%N →
  (adjacent i j = true → ∃ pl, open b (seal a nonce q t p) = Some pl ∧ check_version pl = Ok {| p_bytes := p; p_seq := q; p_stamp := t |}) ∧
  (adjacent i j = false → ¬ (accepts a b ∧ accepts b a)).
Proof.
  intros Hne Hi Hj Ha Hb Hrej Hn Hq Ht. pose proof (phases_accept c old new i j a b Hne Hi Hj Ha Hb) as Hacc. split; intros Hadj.
  - apply Hacc in Hadj as [Hab _]. destruct (open_seal a b nonce q t p Hab Hrej Hn Hq Ht) as (pl & Ho & Hv). exists pl. split; [done|].
    destruct a; [|done..]. unfold phase_authenticator in Ha. destruct i as [|[|[|]]]; cbn in Ha; destruct (cfg_encrypt c), encryption_feature; done.
  - intros Hboth%Hacc. congruence.
Qed.
End rotation.

(** ** A constructed replica *)

Section constructed.
Context {K V S E C St P Ag R Net Tr : Type} `{Countable K, Countable P} `{Lww V S E C} `{!EntryState V S E St}.
Context `{!RustOrd K, !RustOrd S, !RustOrd P} `{!EqDecision S} `{Mac, Aead} `{EqDecision Net}.
Notation Msg := (Message Ag K E St).
Context (blake3_hash : list byte → id32) (wall : N → N) (nonce : N → list byte).
Context (encode : Msg → list byte) (deserialize : list byte → result (Msg * list byte) DeserializeError).
Context (entries_in : gmap K E → EnumerationRange K → list (K * E)) (states_in : gmap K St → EnumerationRange K → list (K * St)).
Context (dated_round : gmap K E → list Ag → R → list Ag * list (EnumerationRange K) * R)
        (value_round : gmap K St → list Ag → R → list Ag * list (EnumerationRange K) * R)
        (comparison_fingerprint : list Ag → id32).
Context (initial_ranges : gmap K E → list Ag) (contains : Net → P → bool) (shuffle : R → list P → list P * R).
Context (derive_lift_key : ClusterKey → list byte) (recip : N → N) (host_net : P → Net) (loopback_net : Net) (encryption_feature : bool).
Notation build := (replica_build (Tr := Tr) (K := K) (St := St) (E := E) (C := C) (Ag := Ag) derive_lift_key recip contains host_net loopback_net encryption_feature).
Notation Inner := (Inner (K := K) (E := E) (C := C) (St := St) (P := P) (Ag := Ag) (R := R) (Net := Net) (Tr := Tr)).
Implicit Types (c : Config P Net) (inner : Inner).
(** The steps of a replica built as [inner]. *)
Notation running inner := (engine_step blake3_hash wall nonce encode deserialize entries_in states_in dated_round value_round
  comparison_fingerprint initial_ranges contains shuffle (in_authenticator inner) (in_framing inner) (in_max_peers inner)
  (in_max_concurrent_bulk_dumps inner) (in_repair_interval inner) (in_port inner)).
Notation receive inner := (recv_datagram blake3_hash wall nonce encode deserialize entries_in states_in dated_round value_round
  comparison_fingerprint (in_authenticator inner) (in_framing inner) (in_max_peers inner) (in_max_concurrent_bulk_dumps inner) (in_repair_interval inner)).
Context (Hnonce : ∀ q, length (nonce q) = AEAD_NONCE_LEN) (Hhash : ∀ m, length (blake3_hash m) = 32).
Context (dated_half_open : ∀ m l rng, Forall half_open (dated_round m l rng).1.2)
        (value_half_open : ∀ m l rng, Forall half_open (value_round m l rng).1.2).

Record built_ok c inner : Prop := {
  bo_engine : engine_ok (cfg_framing c) (cfg_max_concurrent_bulk_dumps c) (in_engine inner);
  bo_replica : en_replica (in_engine inner) = replica_new;
  bo_framing : in_framing inner = cfg_framing c;
  bo_dumps : in_max_concurrent_bulk_dumps inner = cfg_max_concurrent_bulk_dumps c;
  bo_peers : in_max_peers inner = cfg_max_peers c;
  bo_inbound : inbound_within (reassembly_limits (cfg_framing c)) (cfg_freshness_window c) (cfg_max_replay_senders c) (in_engine inner);
  bo_valid : framing_validate (cfg_framing c) (N.of_nat (overhead (in_authenticator inner))) = Ok tt;
  bo_secure : in_authenticator inner = Disabled → cfg_cluster_key c = None ∧ cfg_insecure_no_key c = true;
}.

Lemma build_ok c transport net clock random rng inner : limits_ok (reassembly_limits (cfg_framing c)) →
  build c transport net clock random rng = Some (Ok inner) → built_ok c inner.
Proof.
  intros Hlim. unfold replica_build, check_key_or_insecure_opt_in. destruct (_ || _) eqn:Hkey; [|done].
  destruct (with_rotation _ _ _) as [authenticator|] eqn:Ha; [|done]. destruct (framing_validate _ _) as [[]|] eqn:Hv; [|done].
  intros [= <-]. constructor; cbn; try done.
  - constructor; cbn; [by apply wf_for_identity|intros peer id t; unfold get_transfer; cbn; by rewrite lookup_empty|apply book_ok_empty|constructor|apply dumps_new_stash|].
    constructor; cbn; [constructor|set_solver|done|lia].
  - constructor; cbn; [done..|]. unfold ReplayFilter.filter_len. cbn. rewrite map_size_empty. lia.
  - intros ->. unfold auth_keys in Ha. destruct (cfg_cluster_key c) as [key|]; cbn in *.
    + destruct (cfg_encrypt c), encryption_feature; done.
    + split; [done|exact Hkey].
Qed.

(** C14. What construction accepts runs. A replica built from any configuration whose byte limits
    leave room in a [usize] (which construction does not check), after any sequence of datagrams,
    timers, writes, membership changes and dump tasks: its reassembler works with the configured
    limits and is within them, its replay filter has the configured window and remembers at most the
    configured number of senders, its retained transfers, its datagrams and its dump tasks are within
    the configured budgets, and it cannot be made to panic by the next datagram. With the configured
    number of members it ignores strangers, and it runs unauthenticated only if the configuration
    has no key and asks for it. *)
Theorem constructed_replica_sound c transport net clock random rng inner e rd :
  limits_ok (reassembly_limits (cfg_framing c)) → book_cfg_ok (cfg_framing c) → (cfg_max_concurrent_bulk_dumps c ≤ u64_max)%N →
  build c transport net clock random rng = Some (Ok inner) →
  rtc (running inner) (in_engine inner, in_round inner) (e, rd) →
  engine_ok (cfg_framing c) (cfg_max_concurrent_bulk_dumps c) e ∧
  inbound_within (reassembly_limits (cfg_framing c)) (cfg_freshness_window c) (cfg_max_replay_senders c) e ∧
  rtc critical replica_new (en_replica e) ∧
  (∀ datagram peer now_ms now meanwhile, (∀ r, rtc critical r (meanwhile r)) →
    is_Some (receive inner e datagram peer now_ms now meanwhile)) ∧
  (∀ datagram peer now_ms now meanwhile e', receive inner e datagram peer now_ms now meanwhile = Some e' →
    peer.1 ∉ rp_members (en_replica e) → (cfg_max_peers c ≤ N.of_nat (size (rp_members (en_replica e))))%N →
    en_replica e' = en_replica e ∧ en_replay e' = en_replay e ∧ en_reassembler e' = en_reassembler e) ∧
  (in_authenticator inner = Disabled → cfg_cluster_key c = None ∧ cfg_insecure_no_key c = true).
Proof.
  intros Hlim Hbook Hdumps Hb Hrun. destruct (build_ok _ _ _ _ _ _ _ Hlim Hb) as [He Hr Hf Hd Hp Hin Hv Hs].
  rewrite <- Hr. rewrite <- Hd in Hdumps. rewrite <- Hf in Hbook, Hv. rewrite <- Hf, <- Hd in He |- *. rewrite <- Hf in Hin.
  pose proof Hrun as Hw. eapply run_within in Hw; [|done..].
  eapply run_sound in Hrun; [|done..]. destruct (Hrun He) as [He' Hc]. split_and!; [done..| |rewrite <- Hp; eauto using stranger_refused|done].
  intros datagram peer now_ms now meanwhile Hmw.
  edestruct (datagram_sound blake3_hash wall nonce encode deserialize entries_in states_in dated_round value_round
    comparison_fingerprint (in_authenticator inner) (in_framing inner) (in_max_peers inner) (in_max_concurrent_bulk_dumps inner)
    (in_repair_interval inner)) as (e1 & Hr1 & _); [done..|]. by exists e1.
Qed.
End constructed.

(** ** What the read replica does not warn about *)

(** A coalescing window, a repair interval, a snapshot schedule or a drift budget has no effect on a
    read replica either, and is not named. *)
Lemma ignored_fields_incomplete : 
  ignored_fields (Net := N) 1%N 5 (with_coalesce_window (with_repair_interval (with_snapshot_change_threshold
    (with_snapshot_interval (with_config_clock_drift (Config_default 1%N 5) 9) None) 7) 3) 4) = [].
Proof. reflexivity. Qed.

(** ** Concrete configurations *)

#[local] Existing Instances small_lww small_state toy_mac toy_aead.

Definition demo_config : Config N N := with_framing (with_insecure_no_key (config_new 10%N 5 7)) demo_framing.

(** A node already sealing with the new key, a node still sealing with the old one. *)
Lemma rotation_keeps_nodes_reachable_witness : ∃ a b pl,
  phase_authenticator false demo_config (demo_key x01) (demo_key x02) 2 = Ok a ∧
  phase_authenticator false demo_config (demo_key x01) (demo_key x02) 1 = Ok b ∧
  open b (seal a (replicate 24 x07) 5 9 [x0a]) = Some pl.
Proof.
  destruct (rotation_keeps_nodes_reachable false demo_config (demo_key x01) (demo_key x02) 2 1
    (Enabled (demo_keys x02 [x01])) (Enabled (demo_keys x01 [x02])) (replicate 24 x07) 5 9 [x0a]) as [Hopen _].
  - discriminate.
  - lia.
  - lia.
  - reflexivity.
  - reflexivity.
  - exact I.
  - reflexivity.
  - vm_compute. discriminate.
  - vm_compute. discriminate.
  - destruct Hopen as (pl & Hpl & _); [reflexivity|]. eexists _, _, pl. split; [reflexivity|]. split; [reflexivity|exact Hpl].
Defined.

Notation demo_build := (replica_build (K := N) (E := N) (C := N) (St := bool) (Ag := unit) (λ k, k) (λ n, n) small_contains (λ a, a)%N 1%N false
  demo_config tt [Ok 5%N] 9%N false tt).

(** An idle round of a node without a key, as it asked for. *)
Lemma constructed_replica_sound_witness : ∃ inner,
  demo_build = Some (Ok inner) ∧
  engine_ok demo_framing 4 (Round.recv_idle pad32 (λ q, q) demo_nonce small_encode (λ _, [tt]) small_contains small_shuffle (in_authenticator inner)
    (in_framing inner) (in_repair_interval inner) (in_port inner) (in_engine inner) (in_round inner) [11%N] 0).1 ∧
  cfg_insecure_no_key demo_config = true.
Proof.
  destruct demo_build as [[inner|]|] eqn:Hb; [|discriminate|discriminate]. exists inner. split; [reflexivity|].
  destruct (Round.recv_idle pad32 (λ q, q) demo_nonce small_encode (λ _, [tt]) small_contains small_shuffle (in_authenticator inner)
    (in_framing inner) (in_repair_interval inner) (in_port inner) (in_engine inner) (in_round inner) [11%N] 0) as [e rd] eqn:Hi.
  destruct (constructed_replica_sound (P := N) (Ag := unit) pad32 (λ q, q) demo_nonce small_encode small_deserialize small_range small_states
    small_round small_round (λ _, small_fp) (λ _, [tt]) small_contains small_shuffle (λ k, k) (λ n, n) (λ a, a)%N 1%N false (λ _, eq_refl) pad32_length
    small_round_half_open small_round_half_open demo_config tt [Ok 5%N] 9%N false tt inner e rd) as (Hok & _ & _ & _ & _ & Hsec).
  - constructor; vm_compute; (reflexivity || discriminate).
  - apply demo_framing_book.
  - vm_compute. discriminate.
  - exact Hb.
  - apply rtc_once. rewrite <- Hi. apply es_idle.
  - split; [exact Hok|]. apply Hsec. vm_compute in Hb. injection Hb as <-. reflexivity.
Defined.
