(* ===== verification/Facade.v ===== *)
(** * The public store ([src/replicated_map.rs], [src/replicated_map/membership.rs],
      [src/replicated_map/persistence.rs], [src/replica/membership.rs])

    [ReplicatedMap] around a constructed engine: its own bookkeeping, the runtime setters, the
    snapshot task with its failure count, the liveness it reports, and how [run] ends. User hooks
    are what they are called with. *)
From stdpp Require Import gmap list relations.
From Stdlib Require Import NArith.
From S2P Require Import Prelude Bytes Replay Auth Framing Reassembly RecoveryBook FramedSend Admission Journal Durability SignedCausal Messages Replica ReplicaInv ReplicaProps.
From S2P Require Import Samples Dumps Repair Engine EngineProps Writes Round RunProps TimeoutWheel Discovery Config.

Definition DEFAULT_DISCOVERY_INTERVAL : N := seconds 5.

Section facade.
Context {K V S E C St P Ag R Net Tr B Src : Type} `{Countable K, Countable P} `{Lww V S E C} `{!EntryState V S E St}.
Context `{!RustOrd K, !RustOrd S, !RustOrd P} `{!EqDecision S} `{EqDecision Net} `{!Persistence K E P B}.
Context (contains : Net → P → bool) (host_net : P → Net).
Notation Inner := (Inner (K := K) (E := E) (C := C) (St := St) (P := P) (Ag := Ag) (R := R) (Net := Net) (Tr := Tr)).
Implicit Types (i : Inner).

(** ** Runtime setters of the engine *)

Definition set_topology i (t : Topology P Net) : Inner := {| i with in_round := {| (in_round i) with rd_topology := t |} |}.
Notation topology i := (rd_topology (in_round i)).

Definition inner_set_nets i (nets : list Net) : Inner * result unit ConfigError :=
  match set_nets contains host_net (topology i) nets with
  | Some t => (set_topology i t, Ok tt)
  | None => (i, Err TooManyNets)
  end.
Definition inner_add_net i (net : Net) : Inner * bool := let '(t, ok) := add_net contains host_net (topology i) net in (set_topology i t, ok).
Definition inner_remove_net i (net : Net) : Inner * bool := let '(t, ok) := remove_net contains host_net (topology i) net in (set_topology i t, ok).
Definition nets i : list Net := tp_nets (topology i).
Definition local_net i : Net := tp_local (topology i).
Definition set_remote_interval i (interval : N) : Inner := set_topology i {| (topology i) with tp_remote_interval := interval |}.
Definition set_remote_fanout i (fanout : nat) : Inner := set_topology i {| (topology i) with tp_remote_fanout := fanout |}.
Definition set_reconcile_interval i (interval : N) : Inner := {| i with in_reconcile_interval := interval |}.
Definition set_repair_interval i (interval : N) : Inner := {| i with in_repair_interval := interval |}.
Definition set_coalesce_window i (window : N) : Inner := {| i with in_coalesce_window := window |}.
Definition peers_vec i : list P := (map_to_list (en_peers (in_engine i))).*1.
Definition members_vec i : list P := elements (rp_members (en_replica (in_engine i))).

(** ** [ReplicatedMap] *)

(** [rm_hooked] is what the persistence error hook has been called with. *)
Record ReplicatedMap := {
  rm_inner : Inner;
  rm_tombstones : TimeoutWheel (T := K);
  rm_persistence : B;
  rm_discovery : option Src;
  rm_discovery_interval : N;
  rm_discovery_miss_threshold : N;
  rm_discovery_decommission_floor : N;
  rm_snapshot_interval : option N;
  rm_snapshot_change_threshold : N;
  rm_last_snapshot_at : option N;
  rm_consecutive_failures : N;
  rm_hooked : list unit;
  rm_last_successful_discovery_at : option N;
}.
Implicit Types (m : ReplicatedMap).

(** [in_memory] is [InMemoryPersistence::default()]. *)
Definition from_engine i (in_memory : B) (snapshot_interval : option N) (snapshot_change_threshold : N) : ReplicatedMap :=
  {| rm_inner := i; rm_tombstones := wheel_new; rm_persistence := in_memory; rm_discovery := None;
     rm_discovery_interval := DEFAULT_DISCOVERY_INTERVAL; rm_discovery_miss_threshold := DEFAULT_DISCOVERY_MISS_THRESHOLD;
     rm_discovery_decommission_floor := DEFAULT_DISCOVERY_DECOMMISSION_FLOOR; rm_snapshot_interval := snapshot_interval;
     rm_snapshot_change_threshold := snapshot_change_threshold; rm_last_snapshot_at := None; rm_consecutive_failures := 0;
     rm_hooked := []; rm_last_successful_discovery_at := None |}.

(** The constructors: the engine's answer wrapped; [built] is [Replica::new], [with_transport] or
    [new_with_clock] on [c]. *)
Definition replicated_map_new {Er} (c : Config P Net) (in_memory : B) (built : option (result Inner Er)) : option (result ReplicatedMap Er) :=
  (λ r, match r with
        | Ok i => Ok (from_engine i in_memory (cfg_snapshot_interval c) (cfg_snapshot_change_threshold c))
        | Err err => Err err
        end) <$> built.

Definition set_inner m i : ReplicatedMap := {| m with rm_inner := i |}.
Definition set_engine i e : Inner := {| i with in_engine := e |}.
Notation engine m := (in_engine (rm_inner m)).
Notation replica m := (en_replica (engine m)).

(** [with_seed] and [seed_peer] *)
Definition with_seed m (peer : P) (now : N) : ReplicatedMap :=
  set_inner m (set_engine (rm_inner m) (seed_peer (engine m) peer now)).
Definition forget_peer m (peer : P) : ReplicatedMap :=
  set_inner m (set_engine (rm_inner m) (engine_decommission (engine m) peer)).
Definition with_discovery_interval m (interval : N) : ReplicatedMap := {| m with rm_discovery_interval := interval |}.
Definition with_discovery_miss_threshold m (threshold : N) : ReplicatedMap := {| m with rm_discovery_miss_threshold := threshold |}.
Definition with_discovery_decommission_floor m (floor : N) : ReplicatedMap := {| m with rm_discovery_decommission_floor := floor |}.

(** *** Liveness *)

Record SyncState := {
  ss_rounds : N;
  ss_last_round_at : option N;
  ss_peers : N;
  ss_last_snapshot_at : option N;
  ss_last_successful_discovery_at : option N;
}.

Definition sync_state m : SyncState :=
  {| ss_rounds := rd_round (in_round (rm_inner m)); ss_last_round_at := rd_last (in_round (rm_inner m));
     ss_peers := len (peers_vec (rm_inner m)); ss_last_snapshot_at := rm_last_snapshot_at m;
     ss_last_successful_discovery_at := rm_last_successful_discovery_at m |}.

(** *** Snapshots *)

Definition set_store m (r : Replica K E St P) (b : B) : ReplicatedMap :=
  {| (set_inner m (set_engine (rm_inner m) (set_replica (engine m) r (en_clock (engine m))))) with rm_persistence := b |}.

(** [snapshot_now]; [None] is a panic: the assertion, or the overflow of the failure count. *)
Definition snapshot_now m (before_cut during_save : Replica K E St P → Replica K E St P) (now : N) : option (ReplicatedMap * result unit unit) :=
  '(r, b, res) ← snapshot_inner (replica m) (rm_persistence m) before_cut during_save;
  let m := set_store m r b in
  match res with
  | Ok _ => Some ({| m with rm_last_snapshot_at := Some now; rm_consecutive_failures := 0%N |}, Ok tt)
  | Err err =>
      if (rm_consecutive_failures m =? usize_max)%N then None
      else Some ({| m with rm_consecutive_failures := (rm_consecutive_failures m + 1)%N; rm_hooked := rm_hooked m ++ [err] |}, Err err)
  end.

(** One wakeup of [snapshot_periodically]. *)
Definition snapshot_tick m (before_cut during_save : Replica K E St P → Replica K E St P) (now : N) : option ReplicatedMap :=
  match rm_snapshot_interval m with
  | None => Some m
  | Some _ =>
      if (rm_snapshot_change_threshold m <=? rp_changes (replica m))%N
      then '(m, _) ← snapshot_now m before_cut during_save now; Some m else Some m
  end.

(** The end of [run], once the shutdown signal has dropped the loops. *)
Record RunOutcome := { final_snapshot : result unit unit }.
Definition run_end m (now : N) : option (ReplicatedMap * RunOutcome) :=
  '(m, res) ← snapshot_now m id id now; Some (m, {| final_snapshot := res |}).

(** What the loops do to the dated state and to the backend. *)
Inductive facade_step : ReplicatedMap → ReplicatedMap → Prop :=
| fs_tasks m r : rtc task (replica m) r → facade_step m (set_store m r (rm_persistence m))
| fs_snapshot m before_cut during_save now m' res : between_tasks before_cut → between_tasks during_save →
    snapshot_now m before_cut during_save now = Some (m', res) → facade_step m m'
| fs_tick m before_cut during_save now m' : between_tasks before_cut → between_tasks during_save →
    snapshot_tick m before_cut during_save now = Some m' → facade_step m m'
| fs_inner m i : en_replica (in_engine i) = replica m → facade_step m (set_inner m i).

(** ** Lemmas *)

Context (tombstone_stamped : ∀ (e : E) (s : S), is_tombstone (set_stamp (V := V) (St := St) e s) = is_tombstone e)
        (tombstone_edited : ∀ f (e : E), is_tombstone (value_mut (S := S) (St := St) f e) = is_tombstone e).
Notation frozen_of r := (frozen (rp_generations r)).

(** No snapshot has failed since the last one that worked. *)
Record healthy m : Prop := {
  he_consistent : consistent (replica m) (rm_persistence m);
  he_frozen : rm_consecutive_failures m = 0%N → frozen_of (replica m) = None;
}.

Lemma tasks_frozen (r r' : Replica K E St P) (b : B) : consistent r b → rtc task r r' → frozen_of r' = frozen_of r.
Proof.
  intros Hc Ht. destruct (consistent_tasks tombstone_stamped tombstone_edited r r' b Hc Ht) as [_ [ms (_ & ->)]].
  apply frozen_journal_all, Hc.
Qed.

Lemma snapshot_healthy m before_cut during_save now m' res : healthy m → between_tasks before_cut → between_tasks during_save →
  snapshot_now m before_cut during_save now = Some (m', res) → healthy m'.
Proof.
  intros [Hc _] Hbc Hds. unfold snapshot_now.
  destruct (snapshot_consistent tombstone_stamped tombstone_edited _ _ _ _ Hc Hbc Hds) as (r' & b' & res' & -> & Hc' & Hok).
  cbn [mbind option_bind]. destruct res' as [[]|err]; [intros [= <- <-]; constructor; [done|]; intros _; by apply Hok|].
  destruct (_ =? _)%N; [done|]. intros [= <- <-]. constructor; [done|]. cbn. lia.
Qed.

Lemma facade_step_healthy m m' : facade_step m m' → healthy m → healthy m'.
Proof.
  intros [m1 r Ht|m1 bc ds now m2 res Hbc Hds Hs|m1 bc ds now m2 Hbc Hds Hs|m1 i Hi] Hm.
  - destruct Hm as [Hc Hf]. constructor; cbn.
    + by apply (consistent_tasks tombstone_stamped tombstone_edited _ _ _ Hc Ht).
    + intros Hz%Hf. by rewrite (tasks_frozen _ _ _ Hc Ht).
  - exact (snapshot_healthy m1 bc ds now m2 res Hm Hbc Hds Hs).
  - unfold snapshot_tick in Hs. destruct (rm_snapshot_interval m1); [|by injection Hs as <-]. destruct (_ <=? _)%N; [|by injection Hs as <-].
    apply bind_Some in Hs as ([m3 res] & Hs & Heq). injection Heq as <-.
    exact (snapshot_healthy m1 bc ds now m3 res Hm Hbc Hds Hs).
  - destruct Hm as [Hc Hf]. constructor; cbn; by rewrite Hi.
Qed.

(** A snapshot with nothing frozen before and nothing written meanwhile leaves nothing open. *)
Lemma quiet_snapshot_closes (r : Replica K E St P) (b : B) r' b' : tracker_ok (rp_generations r) → frozen_of r = None →
  snapshot_inner r b id id = Some (r', b', Ok tt) →
  replica_runtime r' = replica_runtime r ∧ ∀ d, apply_delta (open_delta (rp_generations r')) d ≡ d.
Proof.
  intros [_ Hok] Hfr. unfold snapshot_inner, freeze. rewrite Hfr. destruct (gen_is_empty (gs_open (rp_generations r))) eqn:He.
  - cbn [fmap option_fmap option_map]. destruct (try_save_delta b None) as [b1 handled].
    assert (Hopen : ∀ r1 : Replica K E St P, gs_open (rp_generations r1) = gs_open (rp_generations r) → ∀ d, apply_delta (open_delta (rp_generations r1)) d ≡ d).
    { intros r1 Hr1 d. unfold gen_is_empty in He. apply N.eqb_eq in He. destruct (Hok He) as (? & ? & ? & ?). unfold open_delta. rewrite Hr1. by apply empty_delta. }
    destruct handled as [[]|e]; [|destruct (save b1 _) as [b2 [[]|e]]|]; cbn [id retire_generation mbind option_bind]; intros Heq; try done;
      injection Heq as <- <-; (split; [done|by apply Hopen]).
  - cbn [fmap option_fmap option_map]. destruct (try_save_delta b _) as [b1 handled].
    destruct handled as [[]|e]; [|destruct (save b1 _) as [b2 [[]|e]]|]; cbn; intros Heq; try done;
      unfold commit in Heq; rewrite decide_True in Heq by done; injection Heq as <- <-; (split; [done|]); intros d; by apply empty_delta.
Qed.

Lemma installed_runtime (c : C) (d : PersistedState K E P) :
  replica_runtime (install_loaded (replica_new : Replica K E St P) c (Some (saved_parts d))).1 = d.
Proof.
  cbn [saved_parts install_loaded fst]. set (r1 := set_members _ _ _ _). set (l := map_to_list (st_entries d)).
  destruct (insert_fold_map l r1 (NoDup_fst_map_to_list _)) as (Em & Emem & Eack). unfold replica_runtime.
  cbn [just_insert_bulk record_changes retire_change_count set_generations set_changes set_members rp_map rp_members rp_tombstone_acks].
  rewrite Em, Emem, Eack. unfold r1, l. cbn. rewrite list_to_map_to_list, (right_id_L ∅ (∪)). by destruct d.
Qed.

(** ** Properties *)

(** C15. A clean shutdown loses nothing. For a store installed over a backend, whatever tasks and
    snapshots have run, a failure count of zero at shutdown and [Ok] as the final snapshot mean that
    the backend holds exactly the entries, members and acknowledgements of the store, that a store
    started over it has them again, and that the liveness report says when. *)
Theorem clean_shutdown_restores m0 m now m' outcome (c : C) :
  backend_ok (rm_persistence m0) → installed (replica m0) (rm_persistence m0) → rm_consecutive_failures m0 = 0%N →
  rtc facade_step m0 m → rm_consecutive_failures m = 0%N → run_end m now = Some (m', outcome) → final_snapshot outcome = Ok tt →
  ss_last_snapshot_at (sync_state m') = Some now ∧ rm_consecutive_failures m' = 0%N ∧
  ∃ d, load (rm_persistence m') = Ok (Some d) ∧
    replica_runtime (install_loaded (replica_new : Replica K E St P) c (Some (saved_parts d))).1 ≡ replica_runtime (replica m).
Proof.
  intros Hb Hi H0' Hrun Hzero Hend Hout.
  assert (Hm : healthy m).
  { assert (Hm0 : healthy m0).
    { constructor; [by apply installed_consistent|]. intros _. destruct Hi as (o & c0 & _ & <-). by destruct o. }
    clear - Hm0 Hrun tombstone_stamped tombstone_edited. induction Hrun as [m|m1 m2 m3 H12 _ IH]; [done|].
    by apply IH, (facade_step_healthy m1 m2). }
  destruct Hm as [Hc Hf]. unfold run_end, snapshot_now in Hend.
  apply bind_Some in Hend as ([m1 res] & Hs & Heq). injection Heq as <- <-. cbn in Hout. subst res.
  apply bind_Some in Hs as ([[r b] res] & Hs & Heq).
  assert (Hid : between_tasks (id : Replica K E St P → Replica K E St P)) by (intros r0; apply rtc_refl).
  destruct (snapshot_consistent tombstone_stamped tombstone_edited _ _ _ _ Hc Hid Hid) as (r1 & b1 & res1 & Hs1 & _ & Hok).
  rewrite Hs in Hs1. injection Hs1 as <- <- <-. destruct res as [[]|err]; [|by destruct (_ =? _)%N]. injection Heq as <-.
  destruct (quiet_snapshot_closes _ _ _ _ (du_tracker _ _ _ (co_durable _ _ Hc)) (Hf Hzero) Hs) as [Hrt Hopen].
  destruct (Hok eq_refl) as [_ (d & Hl & Hd)]. split_and!; [done..|]. exists d. split; [done|].
  rewrite installed_runtime, <- Hrt, <- Hd. symmetry. apply Hopen.
Qed.

(** [peers_vec] reads the contacts without expiring them. *)
Lemma expired_peer_still_listed i (peer : P) (since now : N) : en_peers (in_engine i) !! peer = Some since →
  (PEER_EXPIRATION ≤ saturating_sub now since)%N → peer ∈ peers_vec i ∧ peer ∉ (get_peers (en_peers (in_engine i)) now).2.
Proof.
  intros Hp Hold. split.
  - unfold peers_vec. apply list_elem_of_fmap. exists (peer, since). split; [done|]. by apply elem_of_map_to_list.
  - unfold get_peers. cbn. intros ([p t] & -> & Hin)%list_elem_of_fmap. apply elem_of_map_to_list, map_lookup_filter_Some in Hin as [Hin Hlt].
    cbn in *. rewrite Hp in Hin. injection Hin as <-. lia.
Qed.
End facade.

(** ** A concrete store over memory *)

#[local] Existing Instances small_lww small_state.

Definition demo_inner : Inner (K := N) (E := N) (C := N) (St := bool) (P := N) (Ag := unit) (R := unit) (Net := N) (Tr := unit) :=
  {| in_engine := {| small_engine with en_replica := replica_new |}; in_round := small_start; in_lift_key := None; in_port := 7;
     in_transport := tt; in_reconcile_interval := seconds 1; in_repair_interval := 1; in_bulk_send_rate := None;
     in_framing := FramingConfig_default; in_max_concurrent_bulk_dumps := 1; in_max_value_size := None; in_broadcasts_in_flight := 0;
     in_max_concurrent_broadcasts := 1; in_authenticator := Disabled; in_node_id_is_random := false; in_max_peers := 4;
     in_coalesce_window := 0; in_coalesce_pending := ∅ |}.
Definition demo_map : ReplicatedMap (B := option (PersistedState N N N)) (Src := unit) := from_engine demo_inner None (Some (seconds 5)) 1.
Definition demo_written : Replica N N bool N := (just_insert replica_new 1%N 8%N).1.
Definition demo_stored := set_store demo_map demo_written None.

Lemma clean_shutdown_restores_witness : ∃ m' d,
  run_end demo_stored 77 = Some (m', {| final_snapshot := Ok tt |}) ∧ ss_last_snapshot_at (sync_state m') = Some 77%N ∧
  load (rm_persistence m') = Ok (Some d) ∧
  replica_runtime (install_loaded (replica_new : Replica N N bool N) 0%N (Some (saved_parts d))).1 ≡ replica_runtime demo_written.
Proof.
  destruct (run_end demo_stored 77) as [[m' outcome]|] eqn:Hr; [|vm_compute in Hr; discriminate].
  assert (Ho : outcome = {| final_snapshot := Ok tt |}) by (vm_compute in Hr; congruence).
  destruct (clean_shutdown_restores small_stamped (λ _ _, eq_refl) demo_map demo_stored 77 m' outcome 0%N) as (Hl & _ & d & Hd & Hrt).
  - exact I.
  - exists None, 0%N. split; reflexivity.
  - reflexivity.
  - apply rtc_once, fs_tasks, rtc_once. split; [apply crit_insert|vm_compute; reflexivity].
  - reflexivity.
  - exact Hr.
  - rewrite Ho. reflexivity.
  - exists m', d. rewrite <- Ho. split; [reflexivity|]. split; [exact Hl|]. split; [exact Hd|exact Hrt].
Defined.
