(* ===== verification/Transport.v ===== *)
(** * The in-memory transport ([gossip/src/substrate.rs], [gossip/src/transport.rs])

    The datagram fabric behind [InMemoryTransport]: an endpoint is bound to an unbounded channel,
    rebinding gives it a new one, and a sender reaches whatever the address is bound to when it
    sends. [tokio]'s channel is its queue; the sockets of [UdpTransport] are not modelled. *)
From stdpp Require Import gmap list.
From Stdlib Require Import NArith.
From Stdlib.Strings Require Import Byte.
From S2P Require Import Prelude Bytes SignedCausal.

Section fabric.
Context {A : Type} `{Countable A}.

Notation Datagram := (A * list byte)%type.

(** Channels are numbered in the order they are made; a missing one has lost its receiver. *)
Record DatagramFabric := {
  fb_routes : gmap A nat;
  fb_channels : gmap nat (list Datagram);
  fb_next : nat;
  fb_max_datagram_bytes : N;
}.
Implicit Types (f : DatagramFabric).

(** [None] is the assertion. *)
Definition fabric_new (max_datagram_bytes : N) : option DatagramFabric :=
  if (0 <? max_datagram_bytes)%N
  then Some {| fb_routes := ∅; fb_channels := ∅; fb_next := 0; fb_max_datagram_bytes := max_datagram_bytes |} else None.

Record DatagramPort := { pt_address : A; pt_channel : nat }.
Implicit Types (p : DatagramPort).

Definition fabric_bind f (address : A) : DatagramFabric * DatagramPort :=
  ({| f with fb_routes := <[address := fb_next f]> (fb_routes f); fb_channels := <[fb_next f := []]> (fb_channels f);
             fb_next := S (fb_next f) |},
   {| pt_address := address; pt_channel := fb_next f |}).

(** The channel a datagram to [destination] is queued on, if any. *)
Definition open_channel f (destination : A) : option (nat * list Datagram) :=
  channel ← fb_routes f !! destination; queue ← fb_channels f !! channel; Some (channel, queue).

Definition port_send_to f p (bytes : list byte) (destination : A) : DatagramFabric * result N IoError :=
  if (fb_max_datagram_bytes f <? len bytes)%N then (f, Err InvalidInput)
  else
    (match open_channel f destination with
     | Some (channel, queue) => {| f with fb_channels := <[channel := queue ++ [(pt_address p, bytes)]]> (fb_channels f) |}
     | None => f
     end, Ok (len bytes)).

(** [Waiting] is the pending future, [Closed] the error once every sender is gone. *)
Inductive Received := Got (source : A) (bytes : list byte) | Waiting | Closed.

Definition port_recv_from f p (buf_len : nat) : DatagramFabric * Received :=
  match fb_channels f !! pt_channel p with
  | Some ((source, bytes) :: queue) =>
      ({| f with fb_channels := <[pt_channel p := queue]> (fb_channels f) |}, Got source (take buf_len bytes))
  | _ => (f, if existsb (λ '(_, channel), channel =? pt_channel p) (map_to_list (fb_routes f)) then Waiting else Closed)
  end.

(** Dropping a port closes its receiver. *)
Definition port_drop f p : DatagramFabric := {| f with fb_channels := delete (pt_channel p) (fb_channels f) |}.

(** ** Runs *)

(** Ports are named by their channel; a port that was never bound does nothing. *)
Inductive FabricOp :=
| FBind (address : A)
| FSend (from : nat) (bytes : list byte) (destination : A)
| FRecv (port : nat) (buf_len : nat)
| FDrop (port : nat).

(** The fabric, the address of each channel's port, and what was queued on and taken from each
    channel. *)
Record FabricRun := {
  fr_fabric : DatagramFabric;
  fr_ports : gmap nat DatagramPort;
  fr_queued : list (nat * Datagram);
  fr_taken : list (nat * Datagram);
}.
Implicit Types (x : FabricRun).

Definition fabric_op x (op : FabricOp) : FabricRun :=
  match op with
  | FBind address =>
      let '(f, p) := fabric_bind (fr_fabric x) address in {| x with fr_fabric := f; fr_ports := <[pt_channel p := p]> (fr_ports x) |}
  | FSend from bytes destination =>
      match fr_ports x !! from with
      | None => x
      | Some p =>
          let '(f, res) := port_send_to (fr_fabric x) p bytes destination in
          let accepted := match res with Ok _ => open_channel (fr_fabric x) destination | Err _ => None end in
          {| x with fr_fabric := f;
                    fr_queued := fr_queued x ++ option_list ((λ c, (c.1, (pt_address p, bytes))) <$> accepted) |}
      end
  | FRecv port buf_len =>
      match fr_ports x !! port with
      | None => x
      | Some p =>
          let '(f, received) := port_recv_from (fr_fabric x) p buf_len in
          let taken := match received, fb_channels (fr_fabric x) !! pt_channel p with
                       | Got _ _, Some (d :: _) => [(pt_channel p, d)]
                       | _, _ => []
                       end in
          {| x with fr_fabric := f; fr_taken := fr_taken x ++ taken |}
      end
  | FDrop port =>
      match fr_ports x !! port with
      | None => x
      | Some p => {| x with fr_fabric := port_drop (fr_fabric x) p; fr_ports := delete port (fr_ports x) |}
      end
  end.

Definition fabric_start f : FabricRun := {| fr_fabric := f; fr_ports := ∅; fr_queued := []; fr_taken := [] |}.

(** What concerns channel [c]. *)
Definition on_channel (c : nat) (l : list (nat * Datagram)) : list Datagram := (filter (λ d, d.1 = c) l).*2.

(** ** Lemmas *)

Lemma on_channel_app c l l' : on_channel c (l ++ l') = on_channel c l ++ on_channel c l'.
Proof. unfold on_channel. by rewrite filter_app, fmap_app. Qed.

Lemma on_channel_one c c' (d : Datagram) : on_channel c [(c', d)] = if decide (c' = c) then [d] else [].
Proof. unfold on_channel, filter. cbn. by case_decide. Qed.

#[local] Arguments on_channel : simpl never.

Record fabric_ok x : Prop := {
  fo_ports c p : fr_ports x !! c = Some p → pt_channel p = c ∧ is_Some (fb_channels (fr_fabric x) !! c);
  fo_fresh c : fb_next (fr_fabric x) ≤ c → fb_channels (fr_fabric x) !! c = None ∧ on_channel c (fr_queued x) = [] ∧ on_channel c (fr_taken x) = [];
  fo_open c q : fb_channels (fr_fabric x) !! c = Some q → on_channel c (fr_queued x) = on_channel c (fr_taken x) ++ q;
  fo_prefix c : on_channel c (fr_taken x) `prefix_of` on_channel c (fr_queued x);
  fo_size c d : (c, d) ∈ fr_queued x → (len d.2 ≤ fb_max_datagram_bytes (fr_fabric x))%N;
}.

Lemma bind_ok x address : fabric_ok x → fabric_ok (fabric_op x (FBind address)).
Proof.
  intros [Hp Hf Ho Hpre Hs]. destruct (Hf (fb_next (fr_fabric x)) (Nat.le_refl _)) as (Hnone & Hq & Ht).
  constructor; cbn; [| | |done|done].
  - intros c p. rewrite lookup_insert_Some. intros [[<- <-]|[Hne Hc]]; [by rewrite lookup_insert_eq|].
    rewrite lookup_insert_ne by done. by apply Hp.
  - intros c Hc. rewrite lookup_insert_ne by lia. apply Hf. lia.
  - intros c q. rewrite lookup_insert_Some. intros [[<- <-]|[Hne Hc]]; [by rewrite Hq, Ht|by apply Ho].
Qed.

Lemma send_ok x from bytes destination : fabric_ok x → fabric_ok (fabric_op x (FSend from bytes destination)).
Proof.
  intros Hx. pose proof Hx as [Hp Hf Ho Hpre Hs]. cbn. destruct (fr_ports x !! from) as [p|] eqn:Hfrom; [|done].
  unfold port_send_to. destruct (N.ltb_spec (fb_max_datagram_bytes (fr_fabric x)) (len bytes)) as [|Hlen].
  { cbn. rewrite app_nil_r. by destruct x. }
  destruct (open_channel (fr_fabric x) destination) as [[ch queue]|] eqn:Hoc; [|cbn; rewrite app_nil_r; by destruct x].
  unfold open_channel in Hoc. apply bind_Some in Hoc as (ch' & _ & (queue' & Hch & Heq)%bind_Some). injection Heq as -> ->.
  assert (Hlt : ch < fb_next (fr_fabric x)). { destruct (decide (ch < fb_next (fr_fabric x))); [done|]. destruct (Hf ch) as [? _]; [lia|congruence]. }
  constructor; cbn.
  - intros c p' Hc. destruct (Hp c p' Hc) as [Hpc Hsome]. split; [done|]. destruct (decide (ch = c)) as [->|Hne]; [by rewrite lookup_insert_eq|by rewrite lookup_insert_ne].
  - intros c Hc. rewrite lookup_insert_ne, on_channel_app, on_channel_one, decide_False, app_nil_r by lia. by apply Hf.
  - intros c q. rewrite on_channel_app, on_channel_one, lookup_insert_Some. intros [[<- <-]|[Hne Hc]].
    + rewrite decide_True, (Ho _ _ Hch) by done. by rewrite <- (assoc_L (++)).
    + rewrite decide_False, app_nil_r by done. by apply Ho.
  - intros c. rewrite on_channel_app. by apply prefix_app_r.
  - intros c d [Hin|Hin]%elem_of_app; [by eapply Hs|]. apply list_elem_of_singleton in Hin. injection Hin as _ ->. done.
Qed.

Lemma recv_ok x port buf_len : fabric_ok x → fabric_ok (fabric_op x (FRecv port buf_len)).
Proof.
  intros Hx. pose proof Hx as [Hp Hf Ho Hpre Hs]. cbn. destruct (fr_ports x !! port) as [p|] eqn:Hport; [|done].
  destruct (Hp port p Hport) as [<- [q Hq]]. unfold port_recv_from. rewrite Hq. destruct q as [|[source bytes] q].
  { destruct (existsb _ _); cbn; rewrite app_nil_r; by destruct x. }
  constructor; cbn; [| | | |done].
  - intros c p' Hc. destruct (Hp c p' Hc) as [Hpc Hsome]. split; [done|]. destruct (decide (pt_channel p = c)) as [->|Hne]; [by rewrite lookup_insert_eq|by rewrite lookup_insert_ne].
  - intros c Hc. destruct (Hf c Hc) as (Hnone & Hqn & Htn). assert (pt_channel p ≠ c) by congruence.
    rewrite lookup_insert_ne, on_channel_app, on_channel_one, decide_False, app_nil_r by done. done.
  - intros c q'. rewrite on_channel_app, on_channel_one, lookup_insert_Some. intros [[<- <-]|[Hne Hc]].
    + rewrite decide_True, (Ho _ _ Hq) by done. by rewrite <- (assoc_L (++)).
    + rewrite decide_False, app_nil_r by done. by apply Ho.
  - intros c. rewrite on_channel_app, on_channel_one. case_decide as Hc; [|by rewrite app_nil_r]. subst c.
    exists q. rewrite (Ho _ _ Hq). by rewrite <- (assoc_L (++)).
Qed.

Lemma drop_ok x port : fabric_ok x → fabric_ok (fabric_op x (FDrop port)).
Proof.
  intros Hx. pose proof Hx as [Hp Hf Ho Hpre Hs]. cbn. destruct (fr_ports x !! port) as [p|] eqn:Hport; [|done].
  destruct (Hp port p Hport) as [<- _]. constructor; cbn; [| | |done|done].
  - intros c p' [Hne Hc]%lookup_delete_Some. rewrite lookup_delete_ne by done. by apply Hp.
  - intros c Hc. split; [|by apply Hf]. apply lookup_delete_None. right. by apply Hf.
  - intros c q [_ Hc]%lookup_delete_Some. by apply Ho.
Qed.

Lemma fabric_run_ok f ops : fb_channels f = ∅ → fabric_ok (fold_left fabric_op ops (fabric_start f)).
Proof.
  intros Hf. assert (Hstart : fabric_ok (fabric_start f)).
  { constructor; cbn; rewrite ?Hf.
    - intros c p. by rewrite lookup_empty.
    - intros c _. by rewrite lookup_empty.
    - intros c q. by rewrite lookup_empty.
    - done.
    - intros c d ?%not_elem_of_nil. done. }
  revert Hstart. generalize (fabric_start f). induction ops as [|op ops IH]; intros x Hx; cbn [fold_left]; [done|].
  apply IH. destruct op; [by apply bind_ok|by apply send_ok|by apply recv_ok|by apply drop_ok].
Qed.

Lemma fabric_limit ops x : fb_max_datagram_bytes (fr_fabric (fold_left fabric_op ops x)) = fb_max_datagram_bytes (fr_fabric x).
Proof.
  revert x. induction ops as [|op ops IH]; intros x; cbn [fold_left]; [done|]. rewrite IH.
  destruct op as [a|from b a|port n|port]; cbn; [done|destruct (fr_ports x !! from); [|done]|destruct (fr_ports x !! port); [|done]|by destruct (fr_ports x !! port)].
  - unfold port_send_to. destruct (_ <? _)%N; [done|]. by destruct (open_channel _ _) as [[]|].
  - unfold port_recv_from. by destruct (fb_channels _ !! _) as [[|[]]|].
Qed.

(** The in-memory network is a FIFO per binding. Whatever is bound, rebound, sent, received
    and dropped, what a port has taken is, in order and with the sender's address, a prefix of what
    was queued for its binding; what is left is exactly its queue, so that nothing is lost,
    duplicated or reordered while the port is open; and nothing larger than the limit is queued. *)
Theorem in_memory_network_fifo limit f ops c :
  fabric_new limit = Some f → let x := fold_left fabric_op ops (fabric_start f) in
  on_channel c (fr_taken x) `prefix_of` on_channel c (fr_queued x) ∧
  (∀ q, fb_channels (fr_fabric x) !! c = Some q → on_channel c (fr_queued x) = on_channel c (fr_taken x) ++ q) ∧
  ∀ d, (c, d) ∈ fr_queued x → (len d.2 ≤ limit)%N.
Proof.
  unfold fabric_new. destruct (0 <? limit)%N; [|done]. intros Hf. cbn zeta. injection Hf as <-.
  destruct (fabric_run_ok {| fb_routes := ∅; fb_channels := ∅; fb_next := 0; fb_max_datagram_bytes := limit |} ops eq_refl) as [_ _ Ho Hp Hs].
  split_and!; [apply Hp|apply Ho|]. intros d Hd%Hs. by rewrite fabric_limit in Hd.
Qed.
End fabric.

(** An address rebound between two datagrams: the old port still has the first one. *)
Definition demo_fabric_ops : list (FabricOp (A := N)) :=
  [FBind 1%N; FBind 2%N; FSend 0 [x61] 2%N; FBind 2%N; FSend 0 [x62] 2%N; FSend 0 [x61; x62; x63] 2%N; FRecv 1 8; FRecv 2 8].

Lemma in_memory_network_fifo_witness :
  let x := fold_left fabric_op demo_fabric_ops (fabric_start {| fb_routes := ∅; fb_channels := ∅; fb_next := 0; fb_max_datagram_bytes := 2 |}) in
  on_channel 1 (fr_taken x) = [(1%N, [x61])] ∧ on_channel 2 (fr_taken x) `prefix_of` on_channel 2 (fr_queued x).
Proof.
  split; [vm_compute; reflexivity|].
  exact (proj1 (in_memory_network_fifo 2 _ demo_fabric_ops 2 eq_refl)).
Defined.
