(* ===== verification/Emulation.v ===== *)
(** * Network emulation ([gossip/src/emulation/mod.rs], [gossip/src/emulation/transport.rs])

    Seeded delay, jitter, loss and reordering on each directed link, applied to what a wrapped
    transport sends: a datagram's fate is drawn from its link's own stream, and a pump delivers
    what was kept in the order it falls due. [rand]'s generator and the floating-point draws are
    parameters. The [BinaryHeap] is the list of its elements in pop order. *)
From stdpp Require Import gmap list sorting.
From Stdlib Require Import NArith.
From Stdlib.Strings Require Import Byte.
From S2P Require Import Prelude Bytes Nets.

(** [rand] and [f64]: [Prob] is a probability, [Swing] a number in [-1, 1], [mul_abs d s] is
    [d.mul_f64(s.abs())]. *)
Class EmulationRng (Prob Swing Rng : Type) := {
  prob_zero : Prob;
  gen_bool : Prob → Rng → bool * Rng;
  gen_swing : Rng → Swing * Rng;
  swing_negative : Swing → bool;
  mul_abs : N → Swing → N;
  seed_from_u64 : N → Rng;
}.

(** As documented: an event of probability zero never happens, and nothing times anything is
    nothing. *)
Class EmulationRngLaws (Prob Swing Rng : Type) `{EmulationRng Prob Swing Rng} : Prop := {
  gen_bool_zero r : (gen_bool prob_zero r).1 = false;
  mul_abs_zero s : mul_abs 0 s = 0%N;
}.

(** ** Link seeds: SplitMix64 over the seed and both endpoints *)

Record SocketAddr := { sa_ip : IpAddr; sa_port : N }.
#[export] Instance SocketAddr_eq_dec : EqDecision SocketAddr.
Proof. solve_decision. Defined.
#[export] Instance IpAddr_countable : Countable IpAddr.
Proof.
  refine (inj_countable' (λ a, match a with V4 n => inl n | V6 n => inr n end)
                         (λ s, match s with inl n => V4 n | inr n => V6 n end) _).
  by intros [].
Defined.

Definition wrapping_mul64 (a b : N) : N := (a * b) mod u64_modulus.

Definition mix (state value : N) : N :=
  let z := wrapping_add64 (wrapping_add64 state value) 0x9e3779b97f4a7c15 in
  let z := wrapping_mul64 (N.lxor z (N.shiftr z 30)) 0xbf58476d1ce4e5b9 in
  let z := wrapping_mul64 (N.lxor z (N.shiftr z 27)) 0x94d049bb133111eb in
  N.lxor z (N.shiftr z 31).

Definition endpoint (state : N) (addr : SocketAddr) : N :=
  let state :=
    match sa_ip addr with
    | V4 v4 => mix state v4
    | V6 bits => mix (mix state (N.shiftr bits 64)) (bits mod u64_modulus)
    end in
  mix state (sa_port addr).

Definition stream_seed (seed : N) (source destination : SocketAddr) : N := endpoint (endpoint seed source) destination.

Section emulation.
Context {Prob Swing Rng A : Type} `{EmulationRng Prob Swing Rng} `{Countable A}.
Implicit Types (rng : Rng) (now delay : N) (bytes : list byte) (destination : A).

(** ** Links *)

Record Link := { li_delay : N; li_jitter : N; li_loss : Prob; li_reorder : Prob }.
Implicit Types (link : Link).

(** A round trip, in nanoseconds. *)
Definition one_way (rtt : N) : N := rtt / 2.

Definition PERFECT : Link := {| li_delay := 0; li_jitter := 0; li_loss := prob_zero; li_reorder := prob_zero |}.
Definition link_at (rtt : N) : Link := {| PERFECT with li_delay := one_way rtt |}.
Definition with_jitter link (jitter : N) : Link := {| link with li_jitter := jitter |}.
Definition with_loss link (loss : Prob) : Link := {| link with li_loss := loss |}.
Definition with_reorder link (reorder : Prob) : Link := {| link with li_reorder := reorder |}.

(** A datagram's fate: [None] is lost. *)
Definition draw link rng : option N * Rng :=
  let '(lost, rng) := gen_bool (li_loss link) rng in
  let '(swing, rng) := gen_swing rng in
  let '(reordered, rng) := gen_bool (li_reorder link) rng in
  (if (lost : bool) then None
   else
     let offset := mul_abs (li_jitter link) swing in
     let jittered := if swing_negative swing then (li_delay link - offset)%N else (li_delay link + offset)%N in
     Some (if (reordered : bool) then (jittered + li_delay link)%N else jittered), rng).

(** ** The queue *)

Record Pending := { pe_due : N; pe_seq : N; pe_destination : A; pe_bytes : list byte }.
Implicit Types (p : Pending) (q : list Pending).

(** [Ord::cmp] is [Less] *)
Definition pending_ltb p p' : bool := (pe_due p <? pe_due p')%N || ((pe_due p =? pe_due p')%N && (pe_seq p <? pe_seq p')%N).

Fixpoint queue_push p q : list Pending :=
  match q with
  | [] => [p]
  | p' :: q' => if pending_ltb p p' then p :: q else p' :: queue_push p q'
  end.

(** ** The transport: sending and the pump *)

Record EmulatedTransport := {
  em_local : A;
  em_streams : gmap A Rng;
  em_queue : list Pending;
  em_seq : N;
  em_offered : N;
  em_dropped : N;
}.
Implicit Types (em : EmulatedTransport).

Definition emulated_new (local : A) : EmulatedTransport :=
  {| em_local := local; em_streams := ∅; em_queue := []; em_seq := 0; em_offered := 0; em_dropped := 0 |}.

Section policy.
(** [LinkPolicy::link] *)
Context (policy : A → A → Link * N).

(** [send_to] up to the fate: the draw under the lock of the streams, and the counters. *)
Definition send_draw em destination : EmulatedTransport * option N :=
  let '(link, seed) := policy (em_local em) destination in
  let stream := default (seed_from_u64 seed) (em_streams em !! destination) in
  let '(delay, stream) := draw link stream in
  ({| em with em_streams := <[destination := stream]> (em_streams em); em_offered := wrapping_add64 (em_offered em) 1;
              em_dropped := match delay with None => wrapping_add64 (em_dropped em) 1 | Some _ => em_dropped em end |},
   delay).

(** The rest of [send_to], under the lock of the queue. *)
Definition send_push em now delay destination bytes : EmulatedTransport :=
  {| em with em_queue := queue_push {| pe_due := now + delay; pe_seq := em_seq em; pe_destination := destination; pe_bytes := bytes |} (em_queue em);
             em_seq := wrapping_add64 (em_seq em) 1 |}.

Definition emulated_send_to em now bytes destination : EmulatedTransport * N :=
  let '(em, delay) := send_draw em destination in
  (match delay with None => em | Some delay => send_push em now delay destination bytes end, len bytes).

Inductive Step := Deliver p | WaitUntil (due : N) | Idle.

Definition pump_step em now : EmulatedTransport * Step :=
  match em_queue em with
  | head :: rest => if (pe_due head <=? now)%N then ({| em with em_queue := rest |}, Deliver head) else (em, WaitUntil (pe_due head))
  | [] => (em, Idle)
  end.

(** ** Runs: sends of several tasks interleaved with the pump, and the time passing *)

Inductive EmOp :=
| ESend destination bytes
| EPush (task : nat)
| EPump
| ETick (elapsed : N).

(** [er_hand]: datagrams kept, not yet queued. The rest is what happened: every draw, and every
    datagram queued and delivered, with the time. *)
Record EmRun := {
  er_em : EmulatedTransport;
  er_now : N;
  er_hand : list (N * A * list byte);
  er_fates : list (A * option N);
  er_pushed : list Pending;
  er_delivered : list (N * Pending);
}.
Implicit Types (r : EmRun).

Definition emulation_start (local : A) now : EmRun :=
  {| er_em := emulated_new local; er_now := now; er_hand := []; er_fates := []; er_pushed := []; er_delivered := [] |}.

Definition em_op r (op : EmOp) : EmRun :=
  match op with
  | ESend destination bytes =>
      let '(em, fate) := send_draw (er_em r) destination in
      {| r with er_em := em; er_fates := er_fates r ++ [(destination, fate)];
                er_hand := er_hand r ++ match fate with Some delay => [(delay, destination, bytes)] | None => [] end |}
  | EPush task =>
      match er_hand r !! task with
      | Some (delay, destination, bytes) =>
          {| r with er_em := send_push (er_em r) (er_now r) delay destination bytes; er_hand := delete task (er_hand r);
                    er_pushed := er_pushed r ++ [{| pe_due := er_now r + delay; pe_seq := em_seq (er_em r);
                                                    pe_destination := destination; pe_bytes := bytes |}] |}
      | None => r
      end
  | EPump =>
      match pump_step (er_em r) (er_now r) with
      | (em, Deliver p) => {| r with er_em := em; er_delivered := er_delivered r ++ [(er_now r, p)] |}
      | _ => r
      end
  | ETick elapsed => {| r with er_now := er_now r + elapsed |}
  end.

Definition em_run r (ops : list EmOp) : EmRun := fold_left em_op ops r.

(** The draws of [n] datagrams from a stream. *)
Fixpoint draws link rng (n : nat) : list (option N) :=
  match n with 0 => [] | S n => let '(fate, rng) := draw link rng in fate :: draws link rng n end.

Definition fates_to destination (l : list (A * option N)) : list (option N) := (filter (λ d, d.1 = destination) l).*2.
End policy.

(** ** Waiting for a due datagram *)

Definition TIMER_RESOLUTION : N := 1000000.
Definition coarse_wait_worthwhile (coarse now : N) : bool := (now <? coarse)%N.
Definition still_waiting (now due : N) : bool := (now <? due)%N.

(** [clock] is what [Instant::now] answers in turn; [None] when it has not answered enough. *)
Fixpoint spin (due : N) (clock : list N) : option N :=
  match clock with
  | [] => None
  | now :: clock => if still_waiting now due then spin due clock else Some now
  end.

Inductive WaitEnd := Woken | Reached (now : N).

(** [woken]: whether a datagram is queued before the coarse sleep ends. *)
Definition wait_until (due now : N) (woken : bool) (clock : list N) : option WaitEnd :=
  if (TIMER_RESOLUTION <=? due)%N && coarse_wait_worthwhile (due - TIMER_RESOLUTION) now && woken
  then Some Woken else Reached <$> spin due clock.
End emulation.

Arguments Link : clear implicits.
Arguments Pending : clear implicits.
Arguments EmOp : clear implicits.

(** ** [IpLinkPolicy] *)

Section ip_policy.
Context {Prob : Type}.

Record IpLinkPolicy := { ip_default_link : Link Prob; ip_per_destination : gmap IpAddr (Link Prob); ip_seed : N }.
Implicit Types (pol : IpLinkPolicy).

Definition uniform (link : Link Prob) (seed : N) : IpLinkPolicy :=
  {| ip_default_link := link; ip_per_destination := ∅; ip_seed := seed |}.
Definition with_link_to pol (destination : IpAddr) (link : Link Prob) : IpLinkPolicy :=
  {| pol with ip_per_destination := <[destination := link]> (ip_per_destination pol) |}.
Definition link_to pol (destination : SocketAddr) : Link Prob :=
  default (ip_default_link pol) (ip_per_destination pol !! sa_ip destination).
Definition ip_link pol (source destination : SocketAddr) : Link Prob * N :=
  (link_to pol destination, stream_seed (ip_seed pol) source destination).
End ip_policy.

(** ** Lemmas: SplitMix64 is a bijection of the state *)

Lemma xorshift_recover k z : (64 ≤ 3 * k)%N → (z < u64_modulus)%N →
  let y := N.lxor z (N.shiftr z k) in N.lxor y (N.lxor (N.shiftr y k) (N.shiftr y (2 * k))) = z.
Proof.
  intros Hk Hz y. apply N.bits_inj. intros i. subst y.
  rewrite !N.lxor_spec, !N.shiftr_spec, !N.lxor_spec, !N.shiftr_spec by lia.
  replace (i + 2 * k + k)%N with (i + 3 * k)%N by lia. replace (i + k + k)%N with (i + 2 * k)%N by lia.
  assert (Hhigh : N.testbit z (i + 3 * k) = false).
  { destruct (N.eq_dec z 0) as [->|Hnz]; [apply N.bits_0|]. apply N.bits_above_log2.
    apply N.log2_lt_pow2; [lia|]. eapply N.lt_le_trans; [exact Hz|]. change u64_modulus with (2 ^ 64)%N.
    apply N.pow_le_mono_r; lia. }
  rewrite Hhigh. by destruct (N.testbit z i), (N.testbit z (i + k)), (N.testbit z (i + 2 * k)).
Qed.

Lemma xorshift_inj k z z' : (64 ≤ 3 * k)%N → (z < u64_modulus)%N → (z' < u64_modulus)%N →
  N.lxor z (N.shiftr z k) = N.lxor z' (N.shiftr z' k) → z = z'.
Proof. intros Hk Hz Hz' Heq. rewrite <- (xorshift_recover k z), <- (xorshift_recover k z') by done. cbn zeta. by rewrite Heq. Qed.

Lemma xorshift_lt k z : (z < u64_modulus)%N → (N.lxor z (N.shiftr z k) < u64_modulus)%N.
Proof.
  intros Hz. assert (Hsh : (N.shiftr z k ≤ z)%N) by (rewrite N.shiftr_div_pow2; apply N.Div0.div_le_upper_bound; pose proof (N.pow_nonzero 2 k); nia).
  destruct (N.eq_dec (N.lxor z (N.shiftr z k)) 0) as [->|Hnz]; [done|].
  change u64_modulus with (2 ^ 64)%N in *. apply N.log2_lt_pow2; [lia|].
  eapply N.le_lt_trans; [apply N.log2_lxor|]. assert (0 < z)%N.
  { destruct (N.eq_dec z 0) as [->|]; [|lia]. by rewrite N.shiftr_0_l in Hnz. }
  rewrite N.max_l by (by apply N.log2_le_mono). by apply N.log2_lt_pow2.
Qed.

Lemma wrapping_mul_inj c inv a b : wrapping_mul64 c inv = 1%N → (a < u64_modulus)%N → (b < u64_modulus)%N →
  wrapping_mul64 a c = wrapping_mul64 b c → a = b.
Proof.
  assert (Hback : ∀ z, wrapping_mul64 c inv = 1%N → (z < u64_modulus)%N → wrapping_mul64 (wrapping_mul64 z c) inv = z).
  { intros z Hinv Hz. unfold wrapping_mul64 in *. rewrite N.Div0.mul_mod_idemp_l, <- N.mul_assoc, <- N.Div0.mul_mod_idemp_r, Hinv.
    rewrite N.mul_1_r. by apply N.mod_small. }
  intros Hinv Ha Hb Heq. rewrite <- (Hback a), <- (Hback b) by done. by rewrite Heq.
Qed.

Lemma wrapping_mul_lt a b : (wrapping_mul64 a b < u64_modulus)%N.
Proof. by apply N.mod_lt. Qed.

Lemma wrapping_add_inj c a b : (a < u64_modulus)%N → (b < u64_modulus)%N → wrapping_add64 a c = wrapping_add64 b c → a = b.
Proof.
  assert (Hback : ∀ z, (z < u64_modulus)%N → wrapping_add64 (wrapping_add64 z c) (u64_modulus - c mod u64_modulus) = z).
  { intros z Hz. unfold wrapping_add64. rewrite N.Div0.add_mod_idemp_l. rewrite (N.Div0.div_mod c u64_modulus) at 1.
    pose proof (N.mod_lt c u64_modulus ltac:(done)).
    replace (z + (u64_modulus * (c / u64_modulus) + c mod u64_modulus) + (u64_modulus - c mod u64_modulus))%N
      with (z + (c / u64_modulus + 1) * u64_modulus)%N by lia.
    rewrite N.Div0.mod_add. by apply N.mod_small. }
  intros Ha Hb Heq. rewrite <- (Hback a), <- (Hback b) by done. by rewrite Heq.
Qed.

Lemma wrapping_add_lt a b : (wrapping_add64 a b < u64_modulus)%N.
Proof. by apply N.mod_lt. Qed.

Lemma mix_lt s v : (mix s v < u64_modulus)%N.
Proof. apply xorshift_lt, wrapping_mul_lt. Qed.

(** The finalizer is undone step by step: only the sum is left. *)
Lemma mix_inj s v s' v' : mix s v = mix s' v' → wrapping_add64 s v = wrapping_add64 s' v'.
Proof.
  unfold mix. intros Heq.
  apply xorshift_inj in Heq; [|done|apply wrapping_mul_lt..].
  apply (wrapping_mul_inj _ 0x319642b2d24d8ec3) in Heq; [|by vm_compute|apply xorshift_lt, wrapping_mul_lt..].
  apply xorshift_inj in Heq; [|done|apply wrapping_mul_lt..].
  apply (wrapping_mul_inj _ 0x96de1b173f119089) in Heq; [|by vm_compute|apply xorshift_lt, wrapping_add_lt..].
  apply xorshift_inj in Heq; [|done|apply wrapping_add_lt..].
  by apply wrapping_add_inj in Heq; [|apply wrapping_add_lt..].
Qed.

Lemma mix_state_inj v s s' : (s < u64_modulus)%N → (s' < u64_modulus)%N → mix s v = mix s' v → s = s'.
Proof. intros Hs Hs' Heq%mix_inj. by apply wrapping_add_inj in Heq. Qed.

Lemma mix_value_inj s v v' : (v < u64_modulus)%N → (v' < u64_modulus)%N → mix s v = mix s v' → v = v'.
Proof.
  intros Hv Hv' Heq%mix_inj. unfold wrapping_add64 in Heq. rewrite (N.add_comm s v), (N.add_comm s v') in Heq.
  by apply (wrapping_add_inj s) in Heq.
Qed.

Lemma endpoint_lt s a : (endpoint s a < u64_modulus)%N.
Proof. apply mix_lt. Qed.

Lemma endpoint_state_inj a s s' : (s < u64_modulus)%N → (s' < u64_modulus)%N → endpoint s a = endpoint s' a → s = s'.
Proof.
  intros Hs Hs'. unfold endpoint. destruct (sa_ip a) as [v4|bits]; intros Heq;
    repeat (apply mix_state_inj in Heq; [|done || apply mix_lt..]); done.
Qed.

(** Two endpoints a sender tells apart by their port alone, or by their IPv4 address alone. *)
Definition near_endpoints (a b : SocketAddr) : Prop :=
  (sa_port a < u64_modulus)%N ∧ (sa_port b < u64_modulus)%N ∧
  (sa_ip a = sa_ip b ∧ sa_port a ≠ sa_port b ∨
   sa_port a = sa_port b ∧
   ∃ x y, sa_ip a = V4 x ∧ sa_ip b = V4 y ∧ x ≠ y ∧ (x < u64_modulus)%N ∧ (y < u64_modulus)%N).

Lemma endpoint_near s a b : near_endpoints a b → endpoint s a ≠ endpoint s b.
Proof.
  intros (Ha & Hb & [[Hip Hport]|[Hport (x & y & Hx & Hy & Hne & Hlx & Hly)]]) Heq; unfold endpoint in Heq.
  - rewrite Hip in Heq. by apply mix_value_inj in Heq.
  - rewrite Hx, Hy, Hport in Heq. apply mix_state_inj in Heq; [|apply mix_lt..]. by apply mix_value_inj in Heq.
Qed.

(** Links have their own streams: with one seed, the seeds of two directed links that differ
    in one endpoint, and there only in the port or only in the IPv4 address, are different. *)
Theorem link_seeds_distinct seed a b c : near_endpoints a b →
  stream_seed seed c a ≠ stream_seed seed c b ∧ stream_seed seed a c ≠ stream_seed seed b c.
Proof.
  intros Hnear. split; [by apply endpoint_near|]. intros Heq. apply endpoint_state_inj in Heq; [|apply endpoint_lt..].
  by apply (endpoint_near seed a b).
Qed.

Definition demo_socket (host port : N) : SocketAddr := {| sa_ip := V4 host; sa_port := port |}.

Lemma link_seeds_distinct_witness :
  stream_seed 1 (demo_socket 1 80) (demo_socket 2 80) ≠ stream_seed 1 (demo_socket 1 80) (demo_socket 3 80).
Proof.
  apply (link_seeds_distinct 1 (demo_socket 2 80) (demo_socket 3 80) (demo_socket 1 80)).
  split_and!; [done|done|]. right. split; [done|]. by exists 2%N, 3%N.
Defined.

(** ** Lemmas: the queue and the run *)

Section proofs.
Context {Prob Swing Rng A : Type} `{EmulationRng Prob Swing Rng} `{Countable A}.
Context (policy : A → A → Link Prob * N).
Implicit Types (p : Pending A) (q : list (Pending A)) (r : EmRun (Rng := Rng) (A := A)).

Lemma queue_push_perm p q : queue_push p q ≡ₚ p :: q.
Proof. induction q as [|p' q IH]; cbn; [done|]. case_match; [done|]. rewrite IH. constructor. Qed.

(** A datagram not due before any other goes to the back. *)
Lemma queue_push_last p q : Forall (λ p', pending_ltb p p' = false) q → queue_push p q = q ++ [p].
Proof. induction 1 as [|p' q Hp' _ IH]; cbn; [done|]. by rewrite Hp', IH. Qed.

Lemma fates_to_app d l l' : fates_to (A := A) d (l ++ l') = fates_to d l ++ fates_to d l'.
Proof. unfold fates_to. by rewrite filter_app, fmap_app. Qed.

Lemma fates_to_one d d' fate : fates_to (A := A) d [(d', fate)] = if decide (d' = d) then [fate] else [].
Proof. unfold fates_to, filter. cbn. by case_decide. Qed.

Lemma em_run_ind (P : EmRun → Prop) r ops : P r → (∀ r op, P r → P (em_op policy r op)) → P (em_run policy r ops).
Proof. intros Hr Hop. revert r Hr. induction ops as [|op ops IH]; intros r Hr; cbn; [done|]. by apply IH, Hop. Qed.

(** The stream a link is left with after [n] draws. *)
Fixpoint stream_after (link : Link Prob) (rng : Rng) (n : nat) : Rng :=
  match n with 0 => rng | S n => stream_after link (draw link rng).2 n end.

Lemma draws_snoc link rng n : draws link rng (S n) = draws link rng n ++ [(draw link (stream_after link rng n)).1].
Proof.
  revert rng. induction n as [|n IH]; intros rng; [by cbn; destruct (draw link rng)|].
  transitivity ((draw link rng).1 :: draws link (draw link rng).2 (S n)); [by cbn; destruct (draw link rng)|].
  rewrite IH. cbn. by destruct (draw link rng).
Qed.

Lemma stream_after_snoc link rng n : stream_after link rng (S n) = (draw link (stream_after link rng n)).2.
Proof. revert rng. induction n as [|n IH]; intros rng; [done|]. cbn [stream_after]. by rewrite <- IH. Qed.

#[local] Arguments fates_to : simpl never.

Definition link_of (local d : A) : Link Prob := (policy local d).1.
Definition stream_of (local d : A) : Rng := seed_from_u64 (policy local d).2.

Definition streams_ok local r : Prop :=
  em_local (er_em r) = local ∧ ∀ d, let n := length (fates_to d (er_fates r)) in
  fates_to d (er_fates r) = draws (link_of local d) (stream_of local d) n ∧
  default (stream_of local d) (em_streams (er_em r) !! d) = stream_after (link_of local d) (stream_of local d) n.

Lemma streams_op local r op : streams_ok local r → streams_ok local (em_op policy r op).
Proof.
  intros [Hl Hd]. destruct op as [d' bytes|task| |elapsed]; cbn; [|by repeat case_match|by repeat case_match; simplify_eq; try (unfold pump_step in *; repeat case_match; simplify_eq)|done].
  unfold send_draw. rewrite Hl. destruct (policy local d') as [link seed] eqn:Hpol.
  destruct (draw link _) as [fate stream] eqn:Hdraw. split; [done|]. cbn. intros d. destruct (Hd d) as [Hf Hs].
  rewrite fates_to_app, fates_to_one, length_app. case_decide as Hdd.
  - subst d'. rewrite lookup_insert_eq. cbn [length default]. rewrite Nat.add_1_r, draws_snoc, stream_after_snoc, <- Hs, <- Hf.
    unfold link_of, stream_of in *. rewrite Hpol in *. cbn in *. rewrite Hdraw. done.
  - rewrite lookup_insert_ne, app_nil_r by done. cbn [length]. by rewrite Nat.add_0_r.
Qed.

(** Losses replay: whatever else a node sends, and however its tasks and its pump interleave,
    the fates of the datagrams on a link are those its own seed draws, one per datagram. *)
Theorem link_fates_reproducible local now ops d :
  let fates := fates_to d (er_fates (em_run policy (emulation_start local now) ops)) in
  fates = draws (link_of local d) (stream_of local d) (length fates).
Proof.
  assert (Hok : streams_ok local (em_run policy (emulation_start local now) ops))
    by (apply em_run_ind; [done|intros; by apply streams_op]).
  by apply Hok.
Qed.

(** ** Accounting *)

Definition kept (l : list (A * option N)) : nat := length (filter (λ d, d.2 ≠ None) l).
Definition lost (l : list (A * option N)) : nat := length (filter (λ d, d.2 = None) l).

#[local] Arguments kept : simpl never.
#[local] Arguments lost : simpl never.

Record accounts_ok r : Prop := {
  ac_offered : em_offered (er_em r) = (N.of_nat (length (er_fates r)) mod u64_modulus)%N;
  ac_dropped : em_dropped (er_em r) = (N.of_nat (lost (er_fates r)) mod u64_modulus)%N;
  ac_kept : kept (er_fates r) = length (er_hand r) + length (er_pushed r);
  ac_pushed : er_pushed r ≡ₚ (er_delivered r).*2 ++ em_queue (er_em r);
  ac_due t p : (t, p) ∈ er_delivered r → (pe_due p ≤ t)%N;
}.

Lemma lost_snoc l d fate : lost (l ++ [(d, fate)]) = lost l + match fate with None => 1 | Some _ => 0 end.
Proof. unfold lost. rewrite filter_app, length_app. f_equal. destruct fate; [by rewrite filter_cons_False|by rewrite filter_cons_True]. Qed.

Lemma kept_lost l : kept l + lost l = length l.
Proof.
  unfold kept, lost. induction l as [|[d [x|]] l IH]; [done| |].
  - rewrite filter_cons_True, filter_cons_False by done. cbn. lia.
  - rewrite filter_cons_False, filter_cons_True by (cbn; auto). cbn. lia.
Qed.

Lemma bump_mod n : wrapping_add64 (N.of_nat n mod u64_modulus) 1 = (N.of_nat (n + 1) mod u64_modulus)%N.
Proof. unfold wrapping_add64. by rewrite N.Div0.add_mod_idemp_l, Nat2N.inj_add. Qed.

Lemma accounts_op r op : accounts_ok r → accounts_ok (em_op policy r op).
Proof.
  intros Hr. pose proof Hr as [Ho Hd Hk Hp Hdue]. destruct op as [d bytes|task| |elapsed]; cbn.
  - unfold send_draw. destruct (policy _ d) as [link seed]. destruct (draw link _) as [fate stream].
    pose proof (kept_lost (er_fates r)). pose proof (kept_lost (er_fates r ++ [(d, fate)])).
    constructor; cbn; rewrite ?lost_snoc, ?length_app in *; [by rewrite Ho, bump_mod| | |done|done].
    + destruct fate; [by rewrite Nat.add_0_r|by rewrite Hd, bump_mod].
    + destruct fate; cbn in *; lia.
  - destruct (er_hand r !! task) as [[[delay d] bytes]|] eqn:Htask; [|done].
    constructor; cbn; [done|done| | |done].
    + rewrite length_app, length_delete by done. pose proof (lookup_lt_Some _ _ _ Htask). cbn. lia.
    + rewrite queue_push_perm, Hp. solve_Permutation.
  - unfold pump_step. destruct (em_queue (er_em r)) as [|p q] eqn:Hq; [by rewrite ?Hq|]. destruct (N.leb_spec (pe_due p) (er_now r)); [|done].
    constructor; cbn; [done|done|done| |].
    + rewrite Hp, fmap_app. by rewrite <- (assoc_L (++)).
    + intros t p' [Hin|Hin]%elem_of_app; [by apply Hdue|]. apply list_elem_of_singleton in Hin. by injection Hin as -> ->.
  - by constructor.
Qed.

(** The instrument accounts for every datagram: offered and dropped count the draws and the
    losses (modulo the width of the counters), each datagram kept is with its sender, in the queue
    or delivered, exactly once, and none is delivered before it is due. *)
Theorem emulation_accounts local now ops :
  let r := em_run policy (emulation_start local now) ops in
  em_offered (er_em r) = (N.of_nat (length (er_fates r)) mod u64_modulus)%N ∧
  em_dropped (er_em r) = (N.of_nat (lost (er_fates r)) mod u64_modulus)%N ∧
  length (er_fates r) = lost (er_fates r) + length (er_hand r) + length (em_queue (er_em r)) + length (er_delivered r) ∧
  er_pushed r ≡ₚ (er_delivered r).*2 ++ em_queue (er_em r) ∧
  ∀ t p, (t, p) ∈ er_delivered r → (pe_due p ≤ t)%N.
Proof.
  intros r. assert (Hr : accounts_ok r) by (apply em_run_ind; [constructor; try done; by intros ? ? ?%not_elem_of_nil|intros; by apply accounts_op]).
  destruct Hr as [Ho Hd Hk Hp Hdue]. split_and!; [done|done| |done|done].
  pose proof (kept_lost (er_fates r)).
  apply Permutation_length in Hp. rewrite length_app, length_fmap in Hp. lia.
Qed.

(** ** Links without jitter, loss or reordering *)

Context `{!EmulationRngLaws Prob Swing Rng}.

Lemma draw_steady rtt (rng : Rng) : (draw (link_at rtt) rng).1 = Some (one_way rtt).
Proof.
  unfold draw. cbn. pose proof (gen_bool_zero rng) as Hloss. destruct (gen_bool prob_zero rng) as [b rng1]. cbn in Hloss. subst b.
  destruct (gen_swing rng1) as [swing rng2]. pose proof (gen_bool_zero rng2) as Hre. destruct (gen_bool prob_zero rng2) as [b rng3].
  cbn in *. subst b. rewrite mul_abs_zero, N.sub_0_r, N.add_0_r. by destruct (swing_negative swing).
Qed.

Record steady_ok local rtt r : Prop := {
  st_local : em_local (er_em r) = local;
  st_hand delay d bytes : (delay, d, bytes) ∈ er_hand r → delay = one_way rtt;
  st_lost : lost (er_fates r) = 0;
  st_seq : em_seq (er_em r) = (N.of_nat (length (er_pushed r)) mod u64_modulus)%N;
  st_fifo : (N.of_nat (length (er_pushed r)) ≤ u64_max)%N →
    er_pushed r = (er_delivered r).*2 ++ em_queue (er_em r) ∧
    Forall (λ p, (pe_due p ≤ er_now r + one_way rtt ∧ pe_seq p < N.of_nat (length (er_pushed r)))%N) (er_pushed r);
}.

Lemma steady_push local rtt r task : steady_ok local rtt r → steady_ok local rtt (em_op policy r (EPush task)).
Proof.
  intros Hr. pose proof Hr as [Hl Hh Hz Hseq Hf]. cbn. destruct (er_hand r !! task) as [[[delay d] bytes]|] eqn:Htask; [|done].
  assert (delay = one_way rtt) as -> by (eapply Hh, list_elem_of_lookup_2, Htask).
  constructor; cbn; [done| |done| |].
  - intros delay d' bytes' Hin. eapply Hh, elem_of_sublist; [exact Hin|apply sublist_delete].
  - by rewrite Hseq, length_app, bump_mod.
  - rewrite length_app. cbn [length]. intros Hle. destruct Hf as [Hfifo Hall]; [lia|].
    assert (Hn : em_seq (er_em r) = N.of_nat (length (er_pushed r))) by (rewrite Hseq; apply N.mod_small; unfold u64_max, u64_modulus in *; lia).
    split.
    + rewrite queue_push_last; [by rewrite (assoc_L (++)), <- Hfifo|]. rewrite Hfifo, Forall_app in Hall. destruct Hall as [_ Hall].
      eapply Forall_impl; [exact Hall|]. cbn beta. intros p [Hdue Hps]. unfold pending_ltb. cbn [pe_due pe_seq].
      apply orb_false_iff. rewrite andb_false_iff, !N.ltb_ge, N.eqb_neq, Hn. rewrite <- Hfifo in Hps. lia.
    + apply Forall_app. split; [|constructor; [cbn; lia|done]]. eapply Forall_impl; [exact Hall|]. cbn beta. intros p. lia.
Qed.

Lemma steady_op local rtt r op : (∀ d, link_of local d = link_at rtt) → steady_ok local rtt r → steady_ok local rtt (em_op policy r op).
Proof.
  intros Hlink Hr. destruct op as [d bytes|task| |elapsed]; [|by apply steady_push|..]; pose proof Hr as [Hl Hh Hz Hseq Hf]; cbn.
  - unfold send_draw. rewrite Hl. pose proof (Hlink d) as Hd. unfold link_of in Hd. destruct (policy local d) as [link seed]. cbn in Hd. subst link.
    destruct (draw (link_at rtt) _) as [fate stream] eqn:Hdraw. apply (f_equal fst) in Hdraw. rewrite draw_steady in Hdraw. cbn in Hdraw. subst fate.
    constructor; cbn; [done| |by rewrite lost_snoc, Hz|done|done].
    intros delay d' bytes' [Hin|Hin]%elem_of_app; [by eapply Hh|]. apply list_elem_of_singleton in Hin. by injection Hin as -> _ _.
  - unfold pump_step. destruct (em_queue (er_em r)) as [|p q] eqn:Hq; [done|]. destruct (N.leb_spec (pe_due p) (er_now r)); [|done].
    constructor; cbn; [done..|]. intros Hle. destruct (Hf Hle) as [Hfifo Hall]. split; [|done].
    rewrite fmap_app, <- (assoc_L (++)). exact Hfifo.
  - constructor; cbn; [done..|]. intros Hle. destruct (Hf Hle) as [Hfifo Hall]. split; [done|].
    eapply Forall_impl; [exact Hall|]. cbn beta. intros p. lia.
Qed.

(** Links with a fixed delay and no jitter, loss or reordering lose nothing and keep the order
    datagrams are queued in, whatever the interleaving of senders, pump and time, for the 2^64
    datagrams the sequence number tells apart. *)
Theorem steady_links_fifo local now rtt ops : (∀ d, link_of local d = link_at rtt) →
  let r := em_run policy (emulation_start local now) ops in
  (N.of_nat (length (er_pushed r)) ≤ u64_max)%N →
  er_pushed r = (er_delivered r).*2 ++ em_queue (er_em r) ∧ em_dropped (er_em r) = 0%N.
Proof.
  intros Hlink r Hle. assert (Hr : steady_ok local rtt r).
  { apply em_run_ind; [|intros; by apply steady_op]. constructor; try done. by intros ? ? ? ?%not_elem_of_nil. }
  assert (Ha : accounts_ok r) by (apply em_run_ind; [constructor; try done; by intros ? ? ?%not_elem_of_nil|intros; by apply accounts_op]).
  destruct Hr as [_ _ Hz _ Hf]. split; [by apply Hf|]. by rewrite (ac_dropped _ Ha), Hz.
Qed.

(** The pump catches up: once every queued datagram is due, as many turns of the pump as there
    are datagrams deliver them all, in the queue's order. *)
Theorem pump_drains r elapsed : Forall (λ p, pe_due p ≤ er_now r + elapsed)%N (em_queue (er_em r)) →
  let r' := em_run policy r (ETick elapsed :: replicate (length (em_queue (er_em r))) EPump) in
  em_queue (er_em r') = [] ∧ (er_delivered r').*2 = (er_delivered r).*2 ++ em_queue (er_em r).
Proof.
  intros Hdue. cbn [em_run fold_left]. set (r0 := em_op policy r (ETick elapsed)).
  change (er_now r + elapsed)%N with (er_now r0) in Hdue. change (er_delivered r) with (er_delivered r0).
  change (em_queue (er_em r)) with (em_queue (er_em r0)) in *. clearbody r0. clear r elapsed.
  remember (em_queue (er_em r0)) as q eqn:Hq. symmetry in Hq. revert r0 Hq Hdue.
  induction q as [|p q IH]; intros r0 Hq Hdue; cbn [length replicate fold_left]; [by rewrite app_nil_r|].
  apply Forall_cons in Hdue as [Hp Hdue]. apply N.leb_le in Hp.
  assert (Hstep : em_op policy r0 EPump = {| r0 with er_em := {| (er_em r0) with em_queue := q |}; er_delivered := er_delivered r0 ++ [(er_now r0, p)] |})
    by (cbn; unfold pump_step; by rewrite Hq, Hp).
  rewrite Hstep. destruct (IH {| r0 with er_em := {| (er_em r0) with em_queue := q |}; er_delivered := er_delivered r0 ++ [(er_now r0, p)] |} eq_refl Hdue) as [He Hd].
  cbn in Hd. split; [exact He|]. etransitivity; [exact Hd|]. rewrite fmap_app. cbn. by rewrite <- (assoc_L (++)).
Qed.
End proofs.

(** A wait that was not cut short ends at or after the due time. *)
Lemma wait_reaches_due due now woken clock t : wait_until due now woken clock = Some (Reached t) → (due ≤ t)%N.
Proof.
  unfold wait_until. destruct (_ && woken); [done|]. intros Hs. apply fmap_Some in Hs as (t' & Hs & [= ->]).
  induction clock as [|c clock IH]; cbn in Hs; [done|]. unfold still_waiting in Hs.
  destruct (N.ltb_spec c due); [by apply IH|]. by injection Hs as ->.
Qed.

(** In the last millisecond a datagram queued meanwhile, even a nearer one, does not end the wait. *)
Lemma spin_not_woken due now clock : (due ≤ now + TIMER_RESOLUTION)%N → wait_until due now true clock = wait_until due now false clock.
Proof.
  intros Hle. unfold wait_until, coarse_wait_worthwhile. rewrite (proj2 (N.ltb_ge _ _)) by lia. by rewrite !andb_false_r, ?andb_false_l.
Qed.

(** ** Concrete runs *)

(** A counter for a generator: probabilities in percent, swings in tenths. *)
#[export] Instance counting_rng : EmulationRng N (bool * N) N := {|
  prob_zero := 0%N;
  gen_bool p r := ((r mod 100 <? p)%N, (r * 7 + 11)%N);
  gen_swing r := ((N.even r, (r mod 11)%N), (r * 7 + 11)%N);
  swing_negative s := s.1;
  mul_abs d s := (d * s.2 / 10)%N;
  seed_from_u64 n := (n mod 1000)%N;
|}.
#[export] Instance counting_rng_laws : EmulationRngLaws N (bool * N) N.
Proof. constructor; intros; cbn; [apply N.ltb_ge, N.le_0_l|done]. Qed.

Definition demo_steady_policy : N → N → Link N * N := λ _ d, (link_at 10, d).
Definition demo_emulation_ops : list (EmOp N) :=
  [ESend 2%N [x61]; ESend 3%N [x62]; EPush 1; ETick 2; EPush 0; EPump; ETick 3; EPump; ETick 4].

Lemma steady_links_fifo_witness :
  let r := em_run demo_steady_policy (emulation_start 1%N 0) demo_emulation_ops in
  (pe_bytes <$> (er_delivered r).*2 ++ em_queue (er_em r)) = [[x62]; [x61]] ∧ length (er_delivered r) = 1 ∧
  er_pushed r = (er_delivered r).*2 ++ em_queue (er_em r).
Proof.
  split; [vm_compute; reflexivity|]. split; [vm_compute; reflexivity|].
  apply (steady_links_fifo demo_steady_policy 1%N 0 10 demo_emulation_ops); [done|]. vm_compute. discriminate.
Defined.

Definition demo_emulation_run : EmRun (Rng := N) (A := N) := em_run demo_steady_policy (emulation_start 1%N 0) demo_emulation_ops.

Lemma pump_drains_witness :
  length (em_queue (er_em demo_emulation_run)) = 1 ∧
  em_queue (er_em (em_run demo_steady_policy demo_emulation_run
    (ETick 5 :: replicate (length (em_queue (er_em demo_emulation_run))) EPump))) = [].
Proof.
  split; [vm_compute; reflexivity|].
  apply (pump_drains demo_steady_policy demo_emulation_run 5). vm_compute. repeat constructor; discriminate.
Defined.

(** On a lossy, jittery link to 2, the fates do not change when datagrams to 3 come in between. *)
Definition demo_lossy_policy : N → N → Link N * N := λ _ d, (with_reorder (with_loss (with_jitter (link_at 20) 5) 40%N) 30%N, (d * 17)%N).
Lemma link_fates_demo :
  let fates ops := fates_to 2%N (er_fates (em_run demo_lossy_policy (emulation_start 1%N 0) ops)) in
  fates [ESend 2%N []; ESend 2%N []; ESend 2%N []; ESend 2%N []] = fates [ESend 2%N []; ESend 3%N []; ESend 2%N []; ESend 3%N []; ESend 2%N []; ESend 2%N []] ∧
  None ∈ fates [ESend 2%N []; ESend 2%N []; ESend 2%N []; ESend 2%N []].
Proof. intros fates. split; [by vm_compute|]. vm_compute. apply elem_of_cons. by left. Qed.
