(* ===== verification/Sets.v ===== *)
(** * Sets ([src/replicated_set.rs], [src/read_replica_set.rs], [src/value_ref.rs])

    A replicated set is a replicated map to unit with the calls of a set; each call is one of the
    map's. The operations that only pass on a call of the map with the same name and arguments
    (configuration, discovery, topology, running) are those of [Config], [Facade] and [Discovery]. *)
From stdpp Require Import gmap list sorting.
From Stdlib Require Import NArith.
From S2P Require Import Prelude Bytes SignedCausal Messages Replica ReplicaInv ReplicaProps Samples Dumps Repair Writes Startup Reads ReadReplica.

(** ** Handles on values *)

Section value_ref.
Context {K V E St : Type} `{Countable K} `{!Live E V, !Live St V}.

Inductive Snapshot := Dated (entry : E) | Projected (state : St).

(** [Deref::deref]; [None] is the [expect]. *)
Definition deref (r : Snapshot) : option V :=
  match r with Dated entry => as_value entry | Projected state => as_value state end.

(** [ReplicatedMap::get] and [ReadReplicaMap::get] *)
Definition map_get (m : gmap K E) (k : K) : option Snapshot := entry ← m !! k; _ ← as_value entry; Some (Dated entry).
Definition rr_get (m : gmap K St) (k : K) : option Snapshot := state ← m !! k; _ ← as_value state; Some (Projected state).

(** A handle that was given out can be read, and reads what [get_cloned] answers. *)
Lemma deref_map_get m k : match map_get m k with Some r => deref r = get_cloned m k ∧ is_Some (deref r) | None => get_cloned m k = None end.
Proof. unfold map_get, get_cloned. destruct (m !! k) as [e|]; cbn; [|done]. destruct (as_value e) eqn:He; cbn; [by rewrite He|done]. Qed.
Lemma deref_rr_get m k : match rr_get m k with Some r => deref r = get_cloned m k ∧ is_Some (deref r) | None => get_cloned m k = None end.
Proof. unfold rr_get, get_cloned. destruct (m !! k) as [e|]; cbn; [|done]. destruct (as_value e) eqn:He; cbn; [by rewrite He|done]. Qed.
End value_ref.

(** ** [ReplicatedSet] *)

Section sets.
Context {K S E C St P : Type} `{Countable K, Countable P} `{Lww unit S E C} `{!EntryState unit S E St}.
Context `{!RustOrd K, !RustOrd S} `{!EqDecision S} `{!Live E unit}.
Context (max_concurrent_broadcasts : N).
Notation Set_ := (Store (K := K) (E := E) (C := C) (St := St) (P := P)).
Implicit Types (s : Set_) (key : K) (keys : list K) (now : N).

Definition set_insert s key now : Set_ * bool :=
  let '(s, previous) := store_insert max_concurrent_broadcasts s key tt now in (s, match previous with None => true | Some _ => false end).
Definition set_insert_bulk s keys now : Set_ := store_insert_bulk max_concurrent_broadcasts s ((λ k, (k, tt)) <$> keys) now.
Definition set_load_bulk s keys : Set_ := load_bulk s ((λ k, (k, tt)) <$> keys).
Definition set_remove s key now : Set_ * bool :=
  let '(s, previous) := store_remove max_concurrent_broadcasts s key now in (s, match previous with None => false | Some _ => true end).
Definition set_remove_bulk s keys now : Set_ := remove_bulk max_concurrent_broadcasts s keys now.
Definition set_contains s key : bool := contains_key (V := unit) (rp_map (ws_replica s)) key.
Definition set_clear s now : Set_ := store_clear max_concurrent_broadcasts s now.
Definition set_retain s (keep : K → bool) now : Set_ := store_retain max_concurrent_broadcasts s (λ k _, keep k) now.
Definition set_delete_range s (range : EnumerationRange K) now : Set_ := delete_range max_concurrent_broadcasts s range now.
Definition set_keys s : list K := Reads.keys (V := unit) (rp_map (ws_replica s)).
Definition set_len s : N := live_len (V := unit) (rp_map (ws_replica s)).
Definition set_is_empty s : bool := is_empty (V := unit) (rp_map (ws_replica s)).

(** *** What a set is *)

Inductive SetOp :=
| SInsert key | SInsertBulk keys | SLoadBulk keys | SRemove key | SRemoveBulk keys | SContains key
| SClear | SRetain (keep : K → bool) | SDeleteRange (range : EnumerationRange K) | SKeys | SLen | SIsEmpty.
Inductive Answer := Done | Bool (b : bool) | Count (n : N) | Keys keys.

Definition set_exec s (op : SetOp) now : Set_ * Answer :=
  match op with
  | SInsert key => let '(s, b) := set_insert s key now in (s, Bool b)
  | SInsertBulk keys => (set_insert_bulk s keys now, Done)
  | SLoadBulk keys => (set_load_bulk s keys, Done)
  | SRemove key => let '(s, b) := set_remove s key now in (s, Bool b)
  | SRemoveBulk keys => (set_remove_bulk s keys now, Done)
  | SContains key => (s, Bool (set_contains s key))
  | SClear => (set_clear s now, Done)
  | SRetain keep => (set_retain s keep now, Done)
  | SDeleteRange range => (set_delete_range s range now, Done)
  | SKeys => (s, Keys (set_keys s))
  | SLen => (s, Count (set_len s))
  | SIsEmpty => (s, Bool (set_is_empty s))
  end.

Definition set_spec (X : gset K) (op : SetOp) : gset K * Answer :=
  match op with
  | SInsert key => ({[key]} ∪ X, Bool (bool_decide (key ∉ X)))
  | SInsertBulk keys | SLoadBulk keys => (list_to_set keys ∪ X, Done)
  | SRemove key => (X ∖ {[key]}, Bool (bool_decide (key ∈ X)))
  | SRemoveBulk keys => (X ∖ list_to_set keys, Done)
  | SContains key => (X, Bool (bool_decide (key ∈ X)))
  | SClear => (∅, Done)
  | SRetain keep => (filter (λ k, keep k = true) X, Done)
  | SDeleteRange range => (filter (λ k, in_range k range = false) X, Done)
  | SKeys => (X, Keys (sort_keys (elements X)))
  | SLen => (X, Count (N.of_nat (size X)))
  | SIsEmpty => (X, Bool (bool_decide (X = ∅)))
  end.

Fixpoint set_run s (ops : list (SetOp * N)) : Set_ * list Answer :=
  match ops with
  | [] => (s, [])
  | (op, now) :: ops => let '(s, a) := set_exec s op now in let '(s, l) := set_run s ops in (s, a :: l)
  end.
Fixpoint spec_run (X : gset K) (ops : list SetOp) : gset K * list Answer :=
  match ops with
  | [] => (X, [])
  | op :: ops => let '(X, a) := set_spec X op in let '(X, l) := spec_run X ops in (X, a :: l)
  end.

Definition set_members s : gset K := dom (omap (value (V := unit)) (rp_map (ws_replica s))).

(** *** The map's calls are those of a set *)

(** [lww_register]: the value of a fresh entry is what it was made with, and reads take that value. *)
Context (value_present : ∀ (t : S) u, value (present t u) = Some u) (value_tombstone : ∀ t : S, value (V := unit) (tombstone t) = None)
        (as_value_value : ∀ e : E, as_value e = value (V := unit) e).

Lemma members_live s k : k ∈ set_members s ↔ get_live s k = Some tt.
Proof.
  unfold set_members, get_live. rewrite elem_of_dom, lookup_omap. destruct (rp_map (ws_replica s) !! k) as [e|]; cbn; [|naive_solver].
  destruct (value e) as [[]|]; naive_solver.
Qed.

Lemma live_bool s k : get_live s k = if bool_decide (k ∈ set_members s) then Some tt else None.
Proof. case_bool_decide as Hk; rewrite members_live in Hk; [done|]. by destruct (get_live s k) as [[]|]. Qed.

Lemma queue_replica s kvs now : ws_replica (queue_broadcast max_concurrent_broadcasts s kvs now) = ws_replica s.
Proof.
  unfold queue_broadcast. destruct (queue_updates _ _ _) as [[pending scheduled] [batch|]]; [|done].
  unfold broadcast, try_claim_broadcast_slot. by destruct (_ <? _)%N.
Qed.

Lemma engine_insert_live s k e now :
  let '(s', previous) := engine_insert max_concurrent_broadcasts s k e now in
  previous = rp_map (ws_replica s) !! k ∧ rp_map (ws_replica s') = <[k := e]> (rp_map (ws_replica s)).
Proof. unfold engine_insert. cbn. by rewrite queue_replica. Qed.

Lemma bulk_live (w : option unit) (l : list (K * E)) (r : Replica K E St P) k : (∀ k e, (k, e) ∈ l → value (V := unit) e = w) →
  rp_map (just_insert_bulk r l) !! k ≫= value (V := unit) = if bool_decide (k ∈ l.*1) then w else rp_map r !! k ≫= value.
Proof.
  unfold just_insert_bulk, record_changes, set_changes. cbn [rp_map].
  induction l as [|[k' e'] l IH] using rev_ind; intros Hl; [done|]. rewrite fold_left_app, fmap_app. cbn [fold_left].
  set (r1 := fold_left _ l r) in *. cbn [map_insert fst rp_map]. destruct (decide (k' = k)) as [->|Hk].
  - rewrite lookup_insert_eq. cbn. rewrite bool_decide_true by set_solver. apply (Hl k). set_solver.
  - rewrite lookup_insert_ne, IH by (done || (intros k1 e1 Hin; apply (Hl k1); set_solver)).
    rewrite (bool_decide_ext (k ∈ l.*1 ++ [(k', e')].*1) (k ∈ l.*1)) by (cbn; set_solver). done.
Qed.

(** Stamping touches nothing but the clock, and keeps the keys. *)
Lemma stamp_all_keys {X} (entry : S → X → K * E) (key_of : X → K) (w : option unit) s l :
  (∀ t x, (entry t x).1 = key_of x ∧ value (entry t x).2 = w) →
  let '(s', kvs) := stamp_all entry s l in
  ws_replica s' = ws_replica s ∧ kvs.*1 = key_of <$> l ∧ ∀ k e, (k, e) ∈ kvs → value (V := unit) e = w.
Proof.
  intros Hentry. revert s. induction l as [|x l IH]; intros s; cbn; [split_and!; [done|done|set_solver]|].
  unfold clock_tick. destruct (clock_now (ws_clock s)) as [c t]. specialize (IH (set_state s (ws_replica s) c)).
  destruct (stamp_all entry _ l) as [s' kvs]. destruct IH as (Hr & Hk & Hv). destruct (Hentry t x) as [Hkey Hval].
  cbn. split_and!; [done|by rewrite Hkey, Hk|]. intros k e [Heq|Hin]%elem_of_cons; [|by eapply Hv]. by rewrite <- Heq in Hval.
Qed.

Lemma load_bulk_live s keys k : get_live (set_load_bulk s keys) k = if bool_decide (k ∈ keys) then Some tt else get_live s k.
Proof.
  unfold set_load_bulk, load_bulk.
  pose proof (stamp_all_keys (λ t '(k, v), (k, present t v)) fst (Some tt) s ((λ k, (k, tt)) <$> keys)) as Hs.
  destruct (stamp_all _ s _) as [s' kvs]. destruct Hs as (Hr & Hk & Hv); [intros t [k' []]; split; [done|apply value_present]|].
  unfold get_live. cbn [set_state ws_replica]. rewrite (bulk_live (Some tt)) by done. rewrite Hr, Hk, <- list_fmap_compose.
  by rewrite (list_fmap_ext (fst ∘ (λ k, (k, tt))) id), list_fmap_id by done.
Qed.

Lemma engine_bulk_map s kvs now : rp_map (ws_replica (engine_insert_bulk max_concurrent_broadcasts s kvs now)) = rp_map (just_insert_bulk (ws_replica s) kvs).
Proof. unfold engine_insert_bulk. by rewrite queue_replica. Qed.

Lemma insert_bulk_live s keys now k : get_live (set_insert_bulk s keys now) k = if bool_decide (k ∈ keys) then Some tt else get_live s k.
Proof.
  rewrite <- load_bulk_live. unfold set_insert_bulk, store_insert_bulk, set_load_bulk, load_bulk, get_live.
  destruct (stamp_all _ s _) as [s' kvs]. by rewrite engine_bulk_map.
Qed.

Lemma remove_bulk_live s keys now k : get_live (set_remove_bulk s keys now) k = if bool_decide (k ∈ keys) then None else get_live s k.
Proof.
  unfold set_remove_bulk, remove_bulk.
  pose proof (stamp_all_keys (λ t k, (k, tombstone t)) id None s keys) as Hs.
  destruct (stamp_all _ s keys) as [s' kvs]. destruct Hs as (Hr & Hk & Hv); [intros t k'; split; [done|apply value_tombstone]|].
  unfold get_live. rewrite engine_bulk_map, (bulk_live None) by done. by rewrite Hr, Hk, list_fmap_id.
Qed.

(** Deleting what a predicate selects. *)
Lemma remove_selected_live s (select : K → bool) now k :
  get_live (remove_selected max_concurrent_broadcasts s (live_keys_where s (λ k _, select k)) now) k = if select k then None else get_live s k.
Proof.
  assert (Hin : ∀ k, k ∈ live_keys_where s (λ k _, select k) ↔ select k = true ∧ get_live s k = Some tt).
  { intros k'. unfold live_keys_where. rewrite list_elem_of_filter.
    destruct (sort_keys_spec (λ _ _, []) _ (NoDup_fst_map_to_list (rp_map (ws_replica s)))) as [_ Hperm].
    rewrite Hperm, list_elem_of_fmap. split.
    - intros [Hsel _]. by destruct (get_live s k') as [[]|].
    - intros [Hsel Hl]. rewrite Hl. split; [done|]. unfold get_live in Hl. apply bind_Some in Hl as (e & He & _).
      exists (k', e). split; [done|]. by apply elem_of_map_to_list. }
  destruct (select k) eqn:Hsel.
  - unfold remove_selected. destruct (live_keys_where s _) as [|k0 ks] eqn:Hks.
    + destruct (get_live s k) as [[]|] eqn:Hl; [|done]. exfalso. apply (not_elem_of_nil k). by apply Hin.
    + pose proof (remove_bulk_live s (k0 :: ks) now k) as Hr. unfold set_remove_bulk in Hr. rewrite Hr.
      case_bool_decide as Hk; [done|]. destruct (get_live s k) as [[]|] eqn:Hl; [|done]. exfalso. apply Hk. by apply Hin.
  - unfold remove_selected. destruct (live_keys_where s _) as [|k0 ks] eqn:Hks; [done|].
    pose proof (remove_bulk_live s (k0 :: ks) now k) as Hr. unfold set_remove_bulk in Hr. rewrite Hr.
    rewrite bool_decide_false; [done|]. intros [? _]%Hin. congruence.
Qed.

Lemma insert_live s key now :
  (set_insert s key now).2 = bool_decide (key ∉ set_members s) ∧
  ∀ k, get_live (set_insert s key now).1 k = if bool_decide (k = key) then Some tt else get_live s k.
Proof.
  unfold set_insert, store_insert, clock_tick. destruct (clock_now (ws_clock s)) as [c t].
  pose proof (engine_insert_live (set_state s (ws_replica s) c) key (present t tt) now) as He.
  destruct (engine_insert _ _ key _ now) as [s' previous]. destruct He as [-> Hm]. cbn in Hm |- *. split.
  - change (rp_map (ws_replica s) !! key ≫= value) with (get_live s key). rewrite live_bool, bool_decide_not. by case_bool_decide.
  - intros k. unfold get_live. rewrite Hm. case_bool_decide as Hk; [subst; by rewrite lookup_insert_eq; cbn|by rewrite lookup_insert_ne].
Qed.

Lemma remove_live s key now :
  (set_remove s key now).2 = bool_decide (key ∈ set_members s) ∧
  ∀ k, get_live (set_remove s key now).1 k = if bool_decide (k = key) then None else get_live s k.
Proof.
  unfold set_remove, store_remove, clock_tick. destruct (clock_now (ws_clock s)) as [c t].
  pose proof (engine_insert_live (set_state s (ws_replica s) c) key (tombstone t) now) as He.
  destruct (engine_insert _ _ key _ now) as [s' previous]. destruct He as [-> Hm]. cbn in Hm |- *. split.
  - change (rp_map (ws_replica s) !! key ≫= value) with (get_live s key). rewrite live_bool. by case_bool_decide.
  - intros k. unfold get_live. rewrite Hm. case_bool_decide as Hk; [subst; by rewrite lookup_insert_eq; cbn|by rewrite lookup_insert_ne].
Qed.

Lemma members_ext s X : (∀ k, get_live s k = if bool_decide (k ∈ X) then Some tt else None) → set_members s = X.
Proof. intros Hl. apply set_eq. intros k. rewrite members_live, Hl. by case_bool_decide. Qed.

Lemma cloned_live s k : get_cloned (rp_map (ws_replica s)) k = get_live s k.
Proof. unfold get_cloned, get_live. destruct (rp_map (ws_replica s) !! k); cbn; [apply as_value_value|done]. Qed.

Lemma keys_elem s k : k ∈ (to_vec (V := unit) (rp_map (ws_replica s))).*1 ↔ k ∈ set_members s.
Proof.
  rewrite members_live, list_elem_of_fmap, <- cloned_live. split; [intros ([k' []] & -> & Hin)|intros Hk]; [by apply to_vec_elem|].
  exists (k, tt). split; [done|]. by apply to_vec_elem.
Qed.

Lemma keys_sorted s : ascending (set_keys s) ∧ set_keys s ≡ₚ elements (set_members s).
Proof.
  unfold set_keys. rewrite (proj1 (keys_spec _)).
  assert (Hs : ascending (to_vec (V := unit) (rp_map (ws_replica s))).*1).
  { unfold ascending. induction (to_vec_sorted (V := unit) (rp_map (ws_replica s))) as [|x l Hl IH Hall]; cbn; constructor; [done|].
    by apply Forall_fmap. }
  split; [done|]. apply NoDup_Permutation; [|apply NoDup_elements|intros k; rewrite elem_of_elements; apply keys_elem].
  clear -Hs. induction Hs as [|k l Hl IH Hall]; constructor; [|done]. intros Hin. rewrite Forall_forall in Hall.
  specialize (Hall k Hin). by rewrite ord_ltb_irrefl in Hall.
Qed.

Lemma ascending_unique (l l' : list K) : ascending l → ascending l' → l ≡ₚ l' → l = l'.
Proof.
  intros Hl Hl' Hp. eapply (StronglySorted_unique_strong (λ a b, ord_ltb a b = true)); [|done..].
  intros x y _ _ Hxy Hyx. apply ord_leb_antisym; by apply ord_ltb_leb.
Qed.

Ltac by_cases_members := repeat case_bool_decide; try done; exfalso; set_solver.

(** One call. *)
Lemma set_exec_spec s op now :
  let '(s', a) := set_exec s op now in set_spec (set_members s) op = (set_members s', a).
Proof.
  destruct op as [key|keys|keys|key|keys|key| |keep|range| | |]; cbn [set_exec set_spec].
  - destruct (insert_live s key now) as [Ha Hl]. destruct (set_insert s key now) as [s' a]. cbn in Ha, Hl. subst a. f_equal. symmetry.
    apply members_ext. intros k. rewrite Hl, live_bool. by_cases_members.
  - f_equal. symmetry. apply members_ext. intros k. rewrite insert_bulk_live, live_bool. by_cases_members.
  - f_equal. symmetry. apply members_ext. intros k. rewrite load_bulk_live, live_bool. by_cases_members.
  - destruct (remove_live s key now) as [Ha Hl]. destruct (set_remove s key now) as [s' a]. cbn in Ha, Hl. subst a. f_equal. symmetry.
    apply members_ext. intros k. rewrite Hl, live_bool. by_cases_members.
  - f_equal. symmetry. apply members_ext. intros k. rewrite remove_bulk_live, live_bool. by_cases_members.
  - do 2 f_equal. apply eq_true_iff_eq. unfold set_contains. by rewrite bool_decide_eq_true, contains_elem, keys_elem.
  - f_equal. symmetry. apply members_ext. intros k. unfold set_clear, store_clear. by rewrite (remove_selected_live s (λ _, true)), bool_decide_false by set_solver.
  - f_equal. symmetry. apply members_ext. intros k. unfold set_retain, store_retain. rewrite (remove_selected_live s (λ k, negb (keep k))), live_bool.
    destruct (keep k) eqn:Hk; cbn; repeat case_bool_decide; rewrite ?elem_of_filter, ?Hk in *; naive_solver.
  - f_equal. symmetry. apply members_ext. intros k. unfold set_delete_range, delete_range. rewrite (remove_selected_live s (λ k, in_range k range)), live_bool.
    destruct (in_range k range) eqn:Hk; repeat case_bool_decide; rewrite ?elem_of_filter, ?Hk in *; naive_solver.
  - do 2 f_equal. destruct (keys_sorted s) as [Hs Hp]. destruct (sort_keys_spec (λ _ _, []) _ (NoDup_elements (set_members s))) as [Hs' Hp'].
    apply ascending_unique; [done|done|]. by rewrite Hp, Hp'.
  - do 2 f_equal. destruct (keys_sorted s) as [_ Hp]. apply Permutation_length in Hp. unfold set_len. unfold live_len.
    rewrite filter_omap_len. unfold set_keys in Hp. rewrite (proj1 (keys_spec _)), length_fmap in Hp. unfold to_vec in Hp.
    unfold size, set_size. cbn. by rewrite <- Hp.
  - do 2 f_equal. apply eq_true_iff_eq. unfold set_is_empty. rewrite bool_decide_eq_true, is_empty_spec. destruct (keys_sorted s) as [_ Hp].
    unfold set_keys in Hp. rewrite (proj1 (keys_spec _)) in Hp. split.
    + intros Hx. rewrite Hx, elements_empty in Hp. by apply Permutation_nil_r, fmap_nil_inv in Hp.
    + intros Hv. rewrite Hv in Hp. cbn in Hp. symmetry in Hp. apply Permutation_nil_r, elements_empty_inv in Hp. by apply leibniz_equiv.
Qed.

(** C22. A replicated set is a set: any sequence of its calls answers what those calls of a finite
    set answer, its listing in key order, and leaves it with the same members. *)
Theorem replicated_set_refines s ops :
  let '(s', answers) := set_run s ops in spec_run (set_members s) ops.*1 = (set_members s', answers).
Proof.
  revert s. induction ops as [|[op now] ops IH]; intros s; [done|]. cbn [set_run fmap list_fmap spec_run fst].
  pose proof (set_exec_spec s op now) as He. destruct (set_exec s op now) as [s1 a]. rewrite He.
  specialize (IH s1). destruct (set_run s1 ops) as [s2 l]. by rewrite IH.
Qed.
End sets.

(** ** [ReadReplicaSet] and the remaining controls of a read replica *)

Section read_set.
Context {K St P R Net : Type} `{Countable K, Countable P} `{!RustOrd K, !RustOrd P} `{!Live St unit}.
Notation ReadMap := (ReadReplicaMap (K := K) (St := St) (P := P) (R := R) (Net := Net)).
Implicit Types (rr : ReadMap).

Definition read_set_contains rr (key : K) : bool := rr_contains_key (V := unit) rr key.
Definition read_set_len rr : N := rr_len (V := unit) rr.
Definition read_set_is_empty rr : bool := rr_is_empty (V := unit) rr.
Definition read_set_keys rr : list K := rr_keys (V := unit) rr.

Definition rr_set_net rr (net : Net) : ReadMap := {| rr with rr_net := net |}.
Definition rr_net_get rr : Net := rr_net rr.

Record ReadSyncState := { rs_rounds : N; rs_last_round_at : option N; rs_peers : N }.
Definition rr_sync_state rr (now : N) : ReadMap * ReadSyncState :=
  let '(rr, peers) := rr_peers_known rr now in
  (rr, {| rs_rounds := rr_round rr; rs_last_round_at := rr_last_round_at rr; rs_peers := len peers |}).

(** The listing of a read replica is in key order, without repetition, and is what membership,
    length and emptiness describe. *)
Lemma read_set_coherent rr :
  ascending (read_set_keys rr) ∧ (∀ k, read_set_contains rr k = true ↔ k ∈ read_set_keys rr) ∧
  read_set_len rr = len (read_set_keys rr) ∧ (read_set_is_empty rr = true ↔ read_set_keys rr = []).
Proof.
  unfold read_set_keys, rr_keys. rewrite (proj1 (keys_spec _)). split_and!.
  - unfold ascending. induction (to_vec_sorted (V := unit) (rr_tree rr)) as [|x l Hl IH Hall]; cbn; constructor; [done|]. by apply Forall_fmap.
  - intros k. apply contains_elem.
  - rewrite length_fmap. apply filter_omap_len.
  - unfold read_set_is_empty, rr_is_empty. rewrite is_empty_spec. split; [by intros ->|apply fmap_nil_inv].
Qed.
End read_set.

(** ** A concrete set *)

(** Entries are twice their stamp, plus one for a tombstone. *)
Definition unit_lww : Lww unit N N N := {|
  present s v := (2 * s)%N; tombstone s := (2 * s + 1)%N; stamp e := (e / 2)%N; is_tombstone := N.odd;
  merge x y := if (x / 2 <? y / 2)%N then y else x; digest e := [e]; clock_now c := (c + 1, c + 1)%N;
  clock_observe c s := N.max c s; clock_observe_trusted c s := N.max c s |}.
Definition unit_state : EntryState unit N N bool := {|
  state := N.odd; project := N.odd; value e := if N.odd e then None else Some tt; value_mut f e := e;
  set_stamp e s := (2 * s + N.b2n (N.odd e))%N; state_digest b := [N.b2n b]; physical_millis s := s |}.
#[local] Existing Instances unit_lww unit_state.
Definition unit_live : Live N unit := {|
  as_value e := value (EntryState := unit_state) e; dead := N.odd;
  dead_spec e := ltac:(cbn; destruct (N.odd e); split; congruence) |}.
#[local] Existing Instance unit_live.

Lemma unit_present (t : N) (u : unit) : value (present t u) = Some u.
Proof. cbn. rewrite N.odd_mul. by destruct u. Qed.
Lemma unit_tombstone (t : N) : value (V := unit) (tombstone t) = None.
Proof. cbn [value tombstone unit_lww unit_state]. by rewrite N.odd_add, N.odd_mul. Qed.

Definition demo_set : Store (K := N) (E := N) (C := N) (St := bool) (P := N) :=
  {| ws_replica := small_replica; ws_clock := 9%N; ws_peers := ∅; ws_in_flight := 0; ws_tasks := []; ws_pending := ∅; ws_flushes := 0; ws_window := 0 |}.
Definition demo_set_ops : list (SetOp (K := N) * N) :=
  [(SInsert 5, 0); (SInsertBulk [8; 3; 7], 1); (SRemove 8, 2); (SRemove 8, 3); (SRetain (λ k, k <? 6), 4); (SKeys, 5); (SLen, 6); (SClear, 7); (SIsEmpty, 8)]%N.

Lemma replicated_set_refines_witness :
  let '(s', answers) := set_run 4 demo_set demo_set_ops in
  spec_run (set_members demo_set) demo_set_ops.*1 = (set_members s', answers) ∧
  drop 2 answers = [Bool true; Bool false; Done; Keys (K := N) [1; 3; 5]%N; Count 3; Done; Bool true].
Proof.
  pose proof (replicated_set_refines (K := N) (P := N) 4 unit_present unit_tombstone (λ e, eq_refl) demo_set demo_set_ops) as Hr.
  destruct (set_run 4 demo_set demo_set_ops) as [s' answers] eqn:Hrun. split; [exact Hr|].
  assert (answers = (set_run 4 demo_set demo_set_ops).2) as -> by (by rewrite Hrun). vm_compute. reflexivity.
Defined.
