(* ===== verification/SignedStartup.v ===== *)
(** * Constructing and running a signed replica ([src/signed_replica.rs])

    The constructor's checks of the roster, the limits and the datagram budget, what it makes of
    the saved state, and whole runs of the actor it returns: receptions, ticks, probes and the
    caller's own operations in any order. *)
From stdpp Require Import gmap list sorting.
From Stdlib Require Import NArith.
From Stdlib.Strings Require Import Byte.
From S2P Require Import Prelude Bytes Replay Auth Framing Reassembly ReassemblyInv Missing Peer Routes RecoveryBook FramedSend FramedSendProps.
From S2P Require Import ReassemblyProps Journal SignedCausal SignedCausalProps Startup SignedNetwork SignedNetworkProps.

(** ** [SignedConfig] *)

Record SignedConfig := {
  sc_authorities : gset PeerId;
  sc_readers : gset PeerId;
  sc_read_only : bool;
  sc_max_peers : N;
  sc_max_replay_senders : N;
  sc_freshness_window : N;
  sc_challenge_ttl : N;
  sc_framing : FramingConfig;
  sc_max_frames_per_tick : N;
}.
Implicit Types (config : SignedConfig).

Definition signed_config_new (authorities : gset PeerId) : SignedConfig :=
  {| sc_authorities := authorities; sc_readers := ∅; sc_read_only := false; sc_max_peers := 256; sc_max_replay_senders := 512;
     sc_freshness_window := FRESHNESS_WINDOW_DEFAULT; sc_challenge_ttl := seconds 5; sc_framing := FramingConfig_default;
     sc_max_frames_per_tick := 8192 |}.

(** The checks of [new] on the roster and the limits. *)
Definition identities_overlap config (local : PeerId) : bool :=
  bool_decide (local ∈ sc_authorities config) || bool_decide (local ∈ sc_readers config)
  || negb (bool_decide (sc_authorities config ## sc_readers config)).
Definition roster_too_large config : bool :=
  (sc_max_peers config <? N.of_nat (size (sc_authorities config)))%N
  || (sc_max_replay_senders config <? N.of_nat (size (sc_authorities config)) + N.of_nat (size (sc_readers config)))%N.
Definition bad_limits config : bool :=
  (u32_max <? fc_max_logical_message_size (sc_framing config))%N || (fc_max_fragments_per_message (sc_framing config) =? 0)%N
  || negb ((1 <=? sc_max_frames_per_tick config)%N && (sc_max_frames_per_tick config <=? 8192)%N).

Section startup.
Context {K V S E C A B : Type} `{Countable K} `{Lww V S E C} `{!Persistence K E PeerId B} `{!RustOrd K} `{EqDecision A}.
Context `{Ed25519, Mac, Aead}.
Context (update_len : K → E → N).
Context (blake3_hash : list byte → id32) (nonce challenge : N → list byte) (wall : N → N).
Context (serialize : SignedMessage K E → result (list byte) IoError) (deserialize : list byte → option (SignedMessage K E)).
Notation Node := (SignedNode (K := K) (E := E) (C := C) (A := A) (B := B)).
Notation Act := (Act (K := K) (E := E) (C := C) (A := A) (B := B)).
Notation node_receive := (node_receive blake3_hash nonce challenge wall serialize deserialize).
Notation reconcile := (reconcile blake3_hash nonce wall serialize).
Implicit Types (n : Node).
#[local] Existing Instances Act_ret Act_bind.

(** [SignedReplica::new]. The clock is shared: what it observed stays observed when the constructor
    fails. *)
Definition signed_new config (cluster_key : ClusterKey) (signer : list byte) (clock : C) (persistence : B) : C * result Node IoError :=
  if identities_overlap config (peer_id signer) then (clock, Err InvalidInput)
  else if roster_too_large config then (clock, Err InvalidInput)
  else
    match authenticator_new false (Some cluster_key) false with
    | Err _ => (clock, Err InvalidInput)
    | Ok authenticator =>
        match boundary_new authenticator signer (sc_authorities config ∪ sc_readers config) (sc_freshness_window config)
                (sc_max_replay_senders config) (sc_max_peers config) (datagram_payload_budget (sc_framing config)) with
        | Err _ => (clock, Err InvalidInput)
        | Ok boundary =>
            if (payload_budget boundary <=? N.of_nat FRAGMENT_HEADER_LEN)%N || (payload_budget boundary <? 65)%N then (clock, Err InvalidInput)
            else if bad_limits config then (clock, Err InvalidInput)
            else
              match load persistence with
              | Err _ => (clock, Err Backend)
              | Ok loaded =>
                  let '(clock, restored) := restore (sc_authorities config) (sc_read_only config) (loaded_parts <$> loaded) clock in
                  match restored with
                  | Err e => (clock, Err e)
                  | Ok (st, generations) =>
                      (clock, Ok {|
                        sn_replica := {|
                          sr_routes := routes_new (saturating_add (sc_max_peers config) (N.of_nat (size (sc_readers config)))) (sc_challenge_ttl config);
                          sr_entries := st_entries st; sr_members := st_members st; sr_acks := st_acks st;
                          sr_generations := generations; sr_persistence := persistence; sr_clock := clock;
                          sr_authorities := sc_authorities config; sr_readers := sc_readers config; sr_read_only := sc_read_only config;
                          sr_framing := sc_framing config; sr_payload_budget := payload_budget boundary; sr_cursors := ∅;
                          sr_max_frames_per_tick := sc_max_frames_per_tick config |};
                        sn_boundary := boundary;
                        sn_reassembler := for_identity (reassembly_limits (sc_framing config));
                        sn_recovery := book_for_identity;
                        sn_next_peer_index := 0; sn_max_peer_cap := sc_max_peers config; sn_draws := 0 |})
                  end
              end
        end
    end.

(** Reads *)
Definition signed_peer_id n : PeerId := local_peer (sn_boundary n).
Definition signed_members n : gset PeerId := sr_members (sn_replica n).
Definition signed_is_tombstone n (key : K) : bool := match sr_entries (sn_replica n) !! key with Some e => is_tombstone e | None => false end.
Definition signed_len n : N := N.of_nat (size (sr_entries (sn_replica n))).
Definition signed_is_empty n : bool := bool_decide (sr_entries (sn_replica n) = ∅).

(** ** Runs *)

Inductive NodeOp :=
| NReceive (source : A) (datagram : list byte) (now : N)
| NReconcile (now : N)
| NProbe (endpoint : A)
| NCall (op : SOp (K := K) (V := V) (E := E)).

Definition call (op : SOp) : Act unit := λ n, s ← sexec update_len (sn_replica n) op; Some (set_replica n s, Ok tt).

Definition node_exec (op : NodeOp) : Act (list (RoutedDatagram A)) :=
  match op with
  | NReceive source datagram now => node_receive source datagram now
  | NReconcile now => reconcile now
  | NProbe endpoint => d ← probe nonce wall serialize endpoint; mret [d]
  | NCall op => _ ← call op; mret []
  end.

(** What each operation sent; one that failed sent nothing. *)
Fixpoint node_run n (ops : list NodeOp) : option (Node * list (list (RoutedDatagram A))) :=
  match ops with
  | [] => Some (n, [])
  | op :: ops =>
      '(n, res) ← node_exec op n;
      '(n, outs) ← node_run n ops;
      Some (n, match res with Ok out => out | Err _ => [] end :: outs)
  end.

(** ** Every operation is total and keeps the actor sound *)

Section invariant.
Context (framing : FramingConfig) (frames : N) (roster : gset PeerId) (Hcfg : book_cfg_ok framing).

(** What no operation changes. *)
Definition fixed (s : SignedReplica K E C A B) := (sr_framing s, sr_payload_budget s, sr_max_frames_per_tick s).
(** Members are authorities, authorities were provisioned in [roster] and are never readers. *)
Definition roster_ok (s : SignedReplica K E C A B) : Prop :=
  sr_members s ⊆ sr_authorities s ∧ sr_authorities s ⊆ roster ∧ sr_authorities s ## sr_readers s.

Record node_inv n : Prop := {
  nv_fixed : fixed (sn_replica n) = (framing, payload_budget (sn_boundary n), frames);
  nv_fragment : (N.of_nat FRAGMENT_HEADER_LEN < payload_budget (sn_boundary n))%N;
  nv_frames : (1 ≤ frames ≤ 8192)%N;
  nv_roster : roster_ok (sn_replica n);
  nv_durable : durable_inv (sn_replica n);
  nv_reassembler : wf (sn_reassembler n);
  nv_limits : r_limits (sn_reassembler n) = reassembly_limits framing;
  nv_recovery : book_ok framing (sn_recovery n);
  nv_capabilities : caps_ok (sn_max_peer_cap n) (sn_recovery n);
}.

Lemma node_inv_ok n : node_inv n → node_ok n.
Proof. clear Hcfg. intros [Hf Hfr Hl _ _ _ _ _ _]. unfold fixed in Hf. simplify_eq. by constructor. Qed.

Definition safe {X} (m : Act X) : Prop := ∀ n, node_inv n → ∃ n' res, m n = Some (n', res) ∧ node_inv n'.

Lemma safe_ret {X} (x : X) : safe (mret x).
Proof. intros n Hn. by eexists _, _. Qed.
Lemma safe_fail {X} e : safe (fail e : Act X).
Proof. intros n Hn. by eexists _, _. Qed.
Lemma safe_gets {X} (f : Node → X) : safe (gets f).
Proof. intros n Hn. by eexists _, _. Qed.
Lemma safe_bind {X Y} (m : Act X) (k : X → Act Y) : safe m → (∀ x, safe (k x)) → safe (m ≫= k).
Proof.
  intros Hm Hk n Hn. destruct (Hm n Hn) as (n1 & res & Heq & Hn1). unfold mbind, Act_bind. rewrite Heq. cbn.
  destruct res as [x|e]; [by apply Hk|by eexists _, _].
Qed.

(** A step of one part of the actor. *)
Lemma safe_replica {X : Type} (f : SignedReplica K E C A B → SignedReplica K E C A B) (g : Node → result X IoError) :
  (∀ s, durable_inv s → roster_ok s → fixed (f s) = fixed s ∧ durable_inv (f s) ∧ roster_ok (f s)) →
  safe (λ n, Some (set_replica n (f (sn_replica n)), g n)).
Proof.
  intros Hf n [I1 I2 I3 I4 I5 I6 I7 I8 I9]. eexists _, _. split; [done|]. destruct (Hf _ I5 I4) as (Hfix & Hd & Hr). constructor; cbn; [|done..]. by rewrite Hfix.
Qed.
Lemma book_step n op : node_inv n → ∃ b, book_exec framing (sn_max_peer_cap n) (sn_recovery n) op = Some b ∧ node_inv (set_recovery n b).
Proof.
  intros Hn. destruct (book_exec_ok framing _ _ op Hcfg (nv_recovery _ Hn) (nv_capabilities _ Hn)) as (b & -> & Hb & Hc).
  exists b. split; [done|]. by destruct Hn.
Qed.
Lemma framing_of n : node_inv n → sr_framing (sn_replica n) = framing.
Proof. intros [Hf _ _ _ _ _ _ _ _]. by injection Hf. Qed.

(** *** Sending *)

Lemma safe_encode message : safe (encode serialize message).
Proof. unfold encode. destruct (serialize message); [apply safe_ret|apply safe_fail]. Qed.

Lemma safe_routed peer frame : safe (routed_frame nonce wall peer frame).
Proof.
  unfold routed_frame, seal_to. intros n Hn. destruct (route _ peer) as [dest|].
  - pose proof (seal_budget (sn_boundary n) (nonce (sn_draws n)) (wall (sn_draws n)) frame) as Hb.
    destruct (boundary_seal _ _ _ _) as [b res]. destruct Hn. cbn in Hb.
    destruct res; eexists _, _; (split; [done|]); constructor; cbn; rewrite ?Hb; done.
  - eexists _, _. split; [done|]. by destruct Hn.
Qed.

Lemma safe_seal_here frame : safe (seal_here nonce wall frame).
Proof.
  intros n Hn. unfold seal_here. pose proof (seal_budget (sn_boundary n) (nonce (sn_draws n)) (wall (sn_draws n)) frame) as Hb.
  destruct (boundary_seal _ _ _ _) as [b res]. destruct Hn. cbn in Hb. eexists _, _. split; [done|]. constructor; cbn; rewrite ?Hb; done.
Qed.

Lemma safe_retain peer bytes now : safe (retain_transfer blake3_hash peer bytes now).
Proof.
  intros n Hn. unfold retain_transfer. rewrite (framing_of n Hn).
  destruct (book_step n (BRetain peer (blake3_hash bytes) bytes now) Hn) as (b & Hb & Hn'). cbn [book_exec] in Hb.
  apply fmap_Some in Hb as ([b' rep] & -> & ->). by eexists _, _.
Qed.

Ltac safe_steps := repeat first
  [ apply safe_ret | apply safe_fail | apply safe_gets | apply safe_encode | apply safe_routed | apply safe_seal_here | apply safe_retain
  | apply safe_bind; [|intros ?] | case_match ].

Lemma safe_fragments peer id total chunk index slices : safe (fragment_frames nonce wall peer id total chunk index slices).
Proof. revert index. induction slices as [|slice slices IH]; intros index; cbn [fragment_frames]; safe_steps. apply IH. Qed.

Lemma safe_send peer bytes now : safe (send_encoded blake3_hash nonce wall peer bytes now).
Proof. unfold send_encoded. safe_steps. apply safe_fragments. Qed.

Lemma safe_missing limit sent requests : safe (missing_frames nonce wall limit sent requests).
Proof. revert sent. induction requests as [|request requests IH]; intros sent; cbn [missing_frames]; safe_steps; apply IH. Qed.

Lemma safe_poll now : safe (poll_requests now).
Proof.
  intros n Hn. unfold poll_requests, poll_idle_missing. set (m := max_missing_ranges_for_budget _ _ _).
  destruct (m =? 0)%N; [eexists _, _; split; [done|]; by destruct Hn|]. cbn [N.eqb].
  set (l := merge_sort _ _). destruct (poll_loop_wf (sn_reassembler n) now m 16 l [] (nv_reassembler _ Hn)) as [Hw Hl]. rewrite (nv_limits _ Hn) in Hl.
  destruct (poll_loop _ _ _ _ _ _) as [ra requests]. eexists _, _. split; [done|]. by destruct Hn.
Qed.

Lemma safe_retry now : safe (retry_missing nonce wall now).
Proof. unfold retry_missing. apply safe_bind; [apply safe_gets|intros selective]. case_match; [apply safe_ret|]. apply safe_bind; [apply safe_poll|intros l]. safe_steps. apply safe_missing. Qed.

Lemma safe_resend_frames peer id total limit sent pieces : safe (resend_frames nonce wall peer id total limit sent pieces).
Proof. revert sent. induction pieces as [|[offset piece] pieces IH]; intros sent; cbn [resend_frames]; safe_steps; apply IH. Qed.

Lemma safe_grant peer id now : safe (grant peer id now).
Proof.
  intros n Hn. unfold grant. rewrite (framing_of n Hn). destruct (book_step n (BReport peer id now) Hn) as (b & [= <-] & Hn').
  destruct (payload_for_report _ _ _ _ _) as [b transfer]. by eexists _, _.
Qed.

Lemma safe_resend peer id ranges now : safe (resend_missing nonce wall peer id ranges now).
Proof. unfold resend_missing. apply safe_bind; [apply safe_grant|intros transfer]. safe_steps. apply safe_resend_frames. Qed.

(** *** The caller's operations *)

Definition frame_of (s : SignedReplica K E C A B) := (fixed s, sr_members s, sr_authorities s, sr_readers s).

Lemma frame_roster s s' : frame_of s' = frame_of s → roster_ok s → fixed s' = fixed s ∧ roster_ok s'.
Proof. unfold frame_of, roster_ok. intros [= Hf1 Hf2 Hf3 Hm Ha Hr] Hok. unfold fixed. rewrite Hm, Ha, Hr. split; [congruence|done]. Qed.

Lemma record_entry_frame (s : SignedReplica K E C A B) k e : frame_of (sr_record_entry s k e) = frame_of s.
Proof. done. Qed.

Lemma remote_frame (s : SignedReplica K E C A B) peer k e : frame_of (apply_remote_entry s peer k e).1 = frame_of s.
Proof. unfold apply_remote_entry. case_match; [done|]. cbn. by case_match. Qed.

Lemma ack_frame (s : SignedReplica K E C A B) peer k v : frame_of (accept_ack s peer k v) = frame_of s.
Proof. unfold accept_ack. by repeat case_match. Qed.

Lemma snapshot_frame (s s' : SignedReplica K E C A B) res : snapshot_now s = Some (s', res) → frame_of s' = frame_of s.
Proof. unfold snapshot_now. intros Hs. by repeat (case_match; simplify_eq). Qed.

Lemma sexec_frame s op s' : sexec update_len s op = Some s' → roster_ok s → fixed s' = fixed s ∧ roster_ok s'.
Proof.
  intros Hs Hr. destruct op as [k v|k|peer k e|peer k v|k|peer|]; cbn [sexec] in Hs; try (injection Hs as <-).
  - apply frame_roster; [|done]. unfold insert. destruct (sr_read_only s); [done|]. destruct (clock_now _). by case_match.
  - apply frame_roster; [|done]. unfold remove. destruct (sr_read_only s); [done|]. destruct (clock_now _). by case_match.
  - apply frame_roster; [apply remote_frame|done].
  - apply frame_roster; [apply ack_frame|done].
  - by split.
  - unfold decommission, roster_ok in *. destruct (drop_acks _ _ _ _). cbn. split; [done|]. set_solver.
  - apply fmap_Some in Hs as ([s1 res] & Hs & ->). apply frame_roster; [by eapply snapshot_frame|done].
Qed.

Lemma safe_call op : safe (call op).
Proof.
  intros n Hn. unfold call. destruct (sexec_inv update_len (sn_replica n) op (nv_durable _ Hn)) as (s' & Hs & Hd). rewrite Hs. cbn.
  destruct (sexec_frame _ _ _ Hs (nv_roster _ Hn)) as [Hf Hr]. eexists _, _. split; [done|]. destruct Hn. constructor; cbn; [by rewrite Hf|done..].
Qed.

Lemma set_routes_inv (s : SignedReplica K E C A B) routes cursors : durable_inv s → durable_inv (set_routes s routes cursors).
Proof. done. Qed.

Lemma safe_cursor peer key : safe (set_cursor peer key).
Proof. intros n Hn. eexists _, _. split; [done|]. by destruct Hn. Qed.

(** *** One tick *)

Lemma safe_serve now peers outgoing : safe (serve_peers blake3_hash nonce wall serialize now peers outgoing).
Proof.
  revert outgoing. induction peers as [|peer peers IH]; intros outgoing; cbn [serve_peers]; safe_steps;
    [apply safe_fragments|apply safe_cursor|apply IH].
Qed.

Lemma safe_expire now : safe (expire_all now).
Proof.
  intros n Hn. unfold expire_all. set (n1 := set_reassembler n _).
  assert (Hn1 : node_inv n1) by (destruct (expire_wf (sn_reassembler n) now (nv_reassembler _ Hn)) as [Hw Hl]; rewrite (nv_limits _ Hn) in Hl; by destruct Hn).
  destruct (book_step n1 (BExpire now) Hn1) as (b & [= <-] & Hn2). rewrite (framing_of n1 Hn1). by eexists _, _.
Qed.

Lemma safe_reconcile now : safe (reconcile now).
Proof.
  unfold SignedNetwork.reconcile. apply safe_bind; [apply safe_expire|intros _]. apply safe_bind; [apply safe_retry|intros outgoing].
  safe_steps; [|apply safe_serve]. intros n Hn. eexists _, _. split; [done|]. by destruct Hn.
Qed.

(** *** One reception *)

Lemma receive_total (st : RouteState A) non ch w d source ps now :
  wf (rs_reassembler st) → ∃ st' res, receive blake3_hash st non ch w d source ps now = Some (st', res) ∧ wf (rs_reassembler st') ∧ r_limits (rs_reassembler st') = r_limits (rs_reassembler st).
Proof.
  intros Hw. unfold receive. destruct (boundary_open _ _ _ _) as [b [checked|e]]; [|by eexists _, _].
  do 2 (case_match; [repeat case_match; first [done|by eexists _, _]|]).
  case_match.
  - case_match; [by eexists _, _|].
    destruct (accept_spec blake3_hash (rs_reassembler st) (rc_peer checked) (p_bytes (rc_payload checked)) now Hw) as (r' & rep & -> & Hw' & Hl' & _).
    cbn. by eexists _, _.
  - destruct (start_probe _ _ _ _ _ _ _ _) as [[s' b'] res]. by eexists _, _.
Qed.

Lemma safe_route source datagram now : safe (route_receive blake3_hash nonce challenge wall source datagram now).
Proof.
  intros n Hn. unfold route_receive. set (st := {| rs_routes := _ |}).
  match goal with |- context [receive _ _ _ _ _ _ _ ?f _] => set (ps := f) end.
  destruct (receive_total st (nonce (sn_draws n)) (challenge (sn_draws n)) (wall (sn_draws n)) datagram source ps now (nv_reassembler _ Hn))
    as (st' & res & Hrec & Hw & Hl). rewrite Hrec. cbn [rs_reassembler st] in Hl. rewrite (nv_limits _ Hn) in Hl. cbn [mbind option_bind]. apply route_answers in Hrec as [Hb _]. cbn in Hb.
  eexists _, _. split; [done|]. destruct Hn. constructor; cbn; rewrite ?Hb; done.
Qed.

Lemma safe_handle peer message now : safe (handle_verified_message blake3_hash nonce wall serialize peer message now).
Proof.
  destruct message as [|key entry|key version]; cbn [handle_verified_message]; [apply safe_ret| |].
  - apply safe_bind; [apply safe_gets|intros authority]. case_match; [apply safe_ret|]. apply safe_bind.
    + intros n Hn. pose proof (remote_recorded (sn_replica n) peer key entry) as Hrec. pose proof (remote_frame (sn_replica n) peer key entry) as Hf.
      destruct (apply_remote_entry _ _ _ _) as [r v]. cbn in *. destruct (frame_roster _ _ Hf (nv_roster _ Hn)) as [Hfix Hr].
      eexists _, _. split; [done|]. pose proof (recorded_inv _ _ Hrec (nv_durable _ Hn)). destruct Hn. constructor; cbn; [by rewrite Hfix|done..].
    + intros version. apply safe_bind; [apply safe_gets|intros read_only]. case_match; [apply safe_ret|]. case_match; [|apply safe_ret].
      unfold send_message. safe_steps. apply safe_fragments.
  - intros n Hn. eexists _, _. split; [done|]. destruct (frame_roster _ _ (ack_frame (sn_replica n) peer key version) (nv_roster _ Hn)) as [Hfix Hr].
    pose proof (recorded_inv _ _ (ack_recorded (sn_replica n) peer key version) (nv_durable _ Hn)). destruct Hn. constructor; cbn; [by rewrite Hfix|done..].
Qed.

Lemma safe_message peer report now : safe (receive_message blake3_hash nonce wall serialize deserialize peer report now).
Proof.
  unfold receive_message. destruct (outcome report) as [[bytes| |]|]; [|apply safe_ret..]. destruct (deserialize bytes) as [message|]; [|apply safe_ret].
  apply safe_bind; [case_match; safe_steps|intros responses]. apply safe_bind; [apply safe_handle|intros reply]. apply safe_ret.
Qed.

Lemma safe_receive source datagram now : safe (node_receive source datagram now).
Proof.
  unfold SignedNetwork.node_receive. apply safe_bind; [apply safe_route|intros [u|inbound]]; [apply safe_ret|].
  destruct inbound as [peer report|peer ch|d|peer|peer [id ranges|id]|]; try apply safe_ret.
  - apply safe_message.
  - intros n Hn. rewrite (framing_of n Hn). destruct (book_step n (BCapability peer now) Hn) as (b & [= <-] & Hn'). by eexists _, _.
  - apply safe_resend.
  - intros n Hn. destruct (book_step n (BComplete peer id) Hn) as (b & [= <-] & Hn'). by eexists _, _.
Qed.

Lemma safe_exec op : safe (node_exec op).
Proof.
  destruct op as [source datagram now|now|endpoint|op]; cbn [node_exec];
    [apply safe_receive|apply safe_reconcile| |apply safe_bind; [apply safe_call|intros _; apply safe_ret]].
  unfold probe. safe_steps.
Qed.
End invariant.

(** *** Whole runs *)

Lemma exec_bounded framing frames roster n op n' out :
  node_inv framing frames roster n → node_exec op n = Some (n', Ok out) → (len out ≤ frames + 1)%N.
Proof.
  intros Hn. assert (Hok : node_ok n) by (by eapply node_inv_ok). assert (Hfr : sr_max_frames_per_tick (sn_replica n) = frames) by (by destruct Hn as [[= _ _ ?] _ _ _ _ _ _ _ _]).
  destruct op as [source datagram now|now|endpoint|op]; cbn [node_exec]; intros Hr.
  - destruct (yields_receive _ _ _ _ _ _ n source datagram now Hok n' out Hr) as [Hlen _]. by rewrite Hfr in Hlen.
  - destruct (yields_reconcile _ _ _ _ n now Hok n' out Hr) as (_ & Hlen & _). lia.
  - apply bind_Some in Hr as ([n1 [d|e]] & _ & Hr); [|done]. injection Hr as _ <-. cbn. lia.
  - apply bind_Some in Hr as ([n1 [d|e]] & _ & Hr); [|done]. injection Hr as _ <-. cbn. lia.
Qed.

Lemma run_inv framing frames roster n ops : book_cfg_ok framing → node_inv framing frames roster n →
  ∃ n' outs, node_run n ops = Some (n', outs) ∧ node_inv framing frames roster n' ∧ Forall (λ out, (len out ≤ frames + 1)%N) outs.
Proof.
  intros Hcfg. revert n. induction ops as [|op ops IH]; intros n Hn; cbn [node_run]; [by eexists _, _|].
  destruct (safe_exec framing frames roster Hcfg op n Hn) as (n1 & res & Hop & Hn1). rewrite Hop. cbn [mbind option_bind].
  destruct (IH n1 Hn1) as (n2 & outs & -> & Hn2 & Hall). cbn. eexists _, _. split_and!; [done|done|]. constructor; [|done].
  destruct res as [out|e]; [exact (exec_bounded framing frames roster n op n1 out Hn Hop)|cbn; lia].
Qed.

(** The roster [config] provisions. *)
Definition provisioned config : gset PeerId := if sc_read_only config then ∅ else sc_authorities config.

(** What a successful construction has established. *)
Lemma signed_new_inv config key signer clock b clock' n :
  signed_new config key signer clock b = (clock', Ok n) →
  backend_ok b → limits_ok (reassembly_limits (sc_framing config)) →
  node_inv (sc_framing config) (sc_max_frames_per_tick config) (sc_authorities config) n ∧ sr_members (sn_replica n) = provisioned config.
Proof.
  unfold signed_new. destruct (identities_overlap _ _) eqn:Hid; [done|]. destruct (roster_too_large config); [done|].
  cbn [authenticator_new with_rotation fmap option_fmap option_map]. destruct (boundary_new _ _ _ _ _ _ _) as [boundary|]; [|done].
  destruct (_ || _) eqn:Hbudget; [done|]. destruct (bad_limits config) eqn:Hlim; [done|]. destruct (load b) as [loaded|] eqn:Hload; [|done].
  destruct (restore _ _ _ clock) as [c1 [[st g]|]] eqn:Hres; [|done]. intros [= <- <-] Hb Hlo. set (n := {| sn_boundary := boundary |}).
  assert (Hst : started (sn_replica n)) by (exists (sc_authorities config), (sc_read_only config), loaded, clock, c1, g; by destruct st).
  apply orb_false_iff in Hbudget as [Hfr%N.leb_gt _]. unfold bad_limits in Hlim.
  apply orb_false_iff in Hlim as [_ Hframes%negb_false_iff]. apply andb_true_iff in Hframes as [Hf1%N.leb_le Hf2%N.leb_le].
  unfold identities_overlap in Hid. apply orb_false_iff in Hid as [_ Hdis%negb_false_iff%bool_decide_eq_true_1].
  assert (Hmem : st_members st = provisioned config).
  { unfold provisioned. unfold restore in Hres. destruct (default _ _) as [[entries members] acks]. repeat (case_match; simplify_eq); done. }
  split; [|exact Hmem]. constructor; cbn; [done|done|done| |by apply started_inv|by apply wf_for_identity|done|apply book_ok_empty|].
  - unfold roster_ok. cbn [sn_replica n sr_members sr_authorities sr_readers]. rewrite Hmem. unfold provisioned. split_and!; [destruct (sc_read_only config); set_solver|done..].
  - unfold caps_ok. cbn. rewrite map_size_empty. lia.
Qed.

(** [acks] has an acknowledgement from outside [roster]. *)
Definition foreign_ack (roster : gset PeerId) (acks : gmap K (gmap PeerId N)) : Prop :=
  ∃ k row peer v, acks !! k = Some row ∧ row !! peer = Some v ∧ peer ∉ roster.

Lemma foreign_blockers_ack (authorities members : gset PeerId) (acks : gmap K (gmap PeerId N)) :
  foreign_blockers authorities members acks = false → ¬ foreign_ack authorities acks.
Proof.
  intros [_ Hf]%orb_false_iff (k & row & peer & v & Hk & Hp & Hn). revert Hf. apply not_false_iff_true, existsb_exists.
  exists (k, row). split; [by apply list_elem_of_In, elem_of_map_to_list|]. apply existsb_exists. exists (peer, v).
  split; [by apply list_elem_of_In, elem_of_map_to_list|]. by rewrite bool_decide_eq_false_2.
Qed.

(** What is restored was saved under the provisioned roster. *)
Lemma restore_saved config (d : PersistedState K E PeerId) (clock clock' : C) st g :
  restore (sc_authorities config) (sc_read_only config) (Some (loaded_parts d)) clock = (clock', Ok (st, g)) →
  st_members d = provisioned config ∧ ¬ foreign_ack (provisioned config) (st_acks d) ∧
  st_entries st = st_entries d ∧ st_acks st = st_acks d.
Proof.
  unfold restore. cbn [default from_option Datatypes.id loaded_parts]. rewrite (bool_decide_eq_true_2 (is_Some _)) by by eexists. cbn [andb].
  destruct (roster_mismatch _ _ _ _) eqn:Hro; [done|]. destruct (foreign_blockers _ _ _) eqn:Hfb; [done|].
  edestruct (restore_entries_spec clock ∅ (map_to_list (st_entries d))) as (c2 & Heq); [apply NoDup_fst_map_to_list|by intros; apply lookup_empty|].
  rewrite Heq, list_to_map_to_list, (right_id_L ∅ (∪)). intros [= _ <- _]. cbn. unfold provisioned, roster_mismatch in *.
  destruct (sc_read_only config).
  - apply orb_false_iff in Hro as [Hm%negb_false_iff%bool_decide_eq_true_1 Ha%negb_false_iff%bool_decide_eq_true_1].
    split_and!; [done| |done..]. rewrite Ha. intros (k & row & peer & v & Hk & _). by rewrite lookup_empty in Hk.
  - apply negb_false_iff, bool_decide_eq_true_1 in Hro. split_and!; [done|by eapply foreign_blockers_ack|done..].
Qed.

Lemma signed_new_saved config key signer clock b clock' n d :
  signed_new config key signer clock b = (clock', Ok n) → load b = Ok (Some d) →
  st_members d = provisioned config ∧ ¬ foreign_ack (provisioned config) (st_acks d) ∧
  sr_entries (sn_replica n) = st_entries d ∧ sr_acks (sn_replica n) = st_acks d.
Proof.
  intros Hnew Hload. revert Hnew. unfold signed_new. destruct (identities_overlap _ _); [done|]. destruct (roster_too_large config); [done|].
  cbn [authenticator_new with_rotation fmap option_fmap option_map]. destruct (boundary_new _ _ _ _ _ _ _) as [boundary|]; [|done].
  destruct (_ || _); [done|]. destruct (bad_limits config); [done|]. rewrite Hload. cbn [fmap option_fmap option_map].
  destruct (restore _ _ _ clock) as [c1 [[st g]|]] eqn:Hres; [|done]. intros [= <- <-]. by apply restore_saved in Hres.
Qed.

End startup.

(** ** Witnesses *)

#[local] Existing Instances toy_lww toy_ed25519 toy_mac toy_aead.

Definition demo_signed_config : SignedConfig :=
  {| (signed_config_new {[demo_seed x05]}) with sc_framing := plain_framing; sc_max_frames_per_tick := 8 |}.
Definition demo_saved : PersistedState N N PeerId :=
  {| st_entries := {[1%N := 3%N; 2%N := 4%N]}; st_members := {[demo_seed x05]}; st_acks := ∅ |}.
Definition demo_constructed : N * result (SignedNode (K := N) (E := N) (C := N) (A := N) (B := option (PersistedState N N PeerId))) IoError :=
  signed_new demo_signed_config (replicate 32 x01) (demo_seed x06) 0%N (Some demo_saved).
Definition demo_signed_node := match demo_constructed.2 with Ok n => n | Err _ => demo_node end.

Lemma demo_is_constructed : demo_constructed = (demo_constructed.1, Ok demo_signed_node).
Proof.
  assert (Hok : match demo_constructed.2 with Ok _ => true | Err _ => false end = true) by (vm_compute; reflexivity).
  unfold demo_signed_node. destruct demo_constructed as [c [n|e]]; [done|discriminate Hok].
Qed.

#[local] Notation demo_run := (node_run (V := N) (S := N) (λ _ _, 3%N) pad32 (λ _, replicate 24 x00) (λ _, replicate 32 x0a) (λ _, 900%N) demo_serialize demo_deserialize).
Definition demo_node_ops : list (NodeOp (K := N) (V := N) (E := N) (A := N)) :=
  [NProbe 77%N; NReceive 77%N demo_update 300; NCall (SInsert 5%N 2%N); NCall SSnapshot; NReconcile 400].

(** State saved under another roster. *)
Definition demo_foreign : PersistedState N N PeerId :=
  {| st_entries := st_entries demo_saved; st_members := {[demo_seed x05; demo_seed x07]}; st_acks := ∅ |}.

