(* ===== verification/Pacing.v ===== *)
(** * Pacing a bulk transfer ([src/replica/framed_send.rs])

    The [Pacer] a transfer carries: before each datagram it sleeps until the payload bytes sent so
    far are due at the configured rate. [expected] is [Duration::from_secs_f64(sent / rate)], a
    parameter, in nanoseconds: the two conversions and the division round to 53 bits each, and the
    duration is rounded to nanoseconds. *)
From stdpp Require Import list.
From Stdlib Require Import NArith.
From S2P Require Import Prelude RecoveryBook Config.

Record Pacer := { pc_rate : option N; pc_started : N; pc_sent_bytes : N }.
Implicit Types (p : Pacer) (now : N).

Section pacer.
Context (expected : N → N → N).

Definition pacer_new (rate : option N) now : Pacer := {| pc_rate := rate; pc_started := now; pc_sent_bytes := 0 |}.

(** How long [before_send] sleeps. *)
Definition before_send p now : N :=
  match pc_rate p with
  | Some rate =>
      if (0 <? rate)%N then
        if (pc_sent_bytes p =? 0)%N then 0
        else let elapsed := saturating_sub now (pc_started p) in
             if (elapsed <=? expected (pc_sent_bytes p) rate)%N then expected (pc_sent_bytes p) rate - elapsed else 0
      else 0
  | None => 0
  end.

Definition pacer_record p (bytes : N) : Pacer := {| p with pc_sent_bytes := saturating_add (pc_sent_bytes p) bytes |}.

(** A transfer's datagrams: a complete frame that fails is not recorded, a fragment always is.
    [ps_gap] is the time since the last one, [ps_late] how much longer than asked the sleep lasted. *)
Record PacedSend := { ps_fragment : bool; ps_bytes : N; ps_ok : bool; ps_gap : N; ps_late : N }.

Definition paced_send p now (s : PacedSend) : Pacer * N :=
  let now := (now + ps_gap s)%N in
  let now := (now + before_send p now + ps_late s)%N in
  (if ps_fragment s || ps_ok s then pacer_record p (ps_bytes s) else p, now).

(** When each datagram goes out, and the payload bytes handed to the transport. *)
Fixpoint paced_run p now (l : list PacedSend) : list (N * N) :=
  match l with
  | [] => []
  | s :: l => let '(p, now) := paced_send p now s in (now, if ps_ok s then ps_bytes s else 0%N) :: paced_run p now l
  end.

Definition sent_bytes (log : list (N * N)) : N := foldr (λ x n, (x.2 + n)%N) 0%N log.
Definition recordable (l : list PacedSend) : N := foldr (λ s n, (ps_bytes s + n)%N) 0%N l.

(** ** The rate is kept *)

(** Three roundings to 53 bits lose less than a [2^50]th of the quotient, and the rounding to
    nanoseconds at most one. *)
Definition PRECISION : N := 2 ^ 50.
Context (expected_close : ∀ sent rate, (sent ≤ usize_max)%N → (MIN_BULK_SEND_RATE ≤ rate)%N →
  (sent * 1000000000 * (PRECISION - 1) ≤ (expected sent rate + 1) * rate * PRECISION)%N).

Lemma sent_app log log' : sent_bytes (log ++ log') = (sent_bytes log + sent_bytes log')%N.
Proof. induction log as [|x log IH]; cbn; [done|]. unfold sent_bytes in *. rewrite IH. lia. Qed.

(** After the sleep, what was recorded is due. *)
Lemma due_after_sleep p now rate : pc_rate p = Some rate → (MIN_BULK_SEND_RATE ≤ rate)%N → (pc_started p ≤ now)%N → (pc_sent_bytes p ≤ usize_max)%N →
  (pc_sent_bytes p * 1000000000 * (PRECISION - 1) ≤ (now + before_send p now - pc_started p + 1) * rate * PRECISION)%N.
Proof.
  intros Hr Hpos Hn Hmax. assert (0 < rate)%N by (unfold MIN_BULK_SEND_RATE in Hpos; lia). unfold before_send. rewrite Hr, (proj2 (N.ltb_lt _ _)) by done.
  destruct (N.eqb_spec (pc_sent_bytes p) 0) as [->|_]; [apply N.le_0_l|]. pose proof (expected_close (pc_sent_bytes p) rate Hmax Hpos) as He.
  unfold saturating_sub. destruct (N.leb_spec (now - pc_started p) (expected (pc_sent_bytes p) rate)) as [Hle|Hle].
  - replace (now + (expected (pc_sent_bytes p) rate - (now - pc_started p)) - pc_started p)%N with (expected (pc_sent_bytes p) rate) by lia. exact He.
  - rewrite N.add_0_r. etransitivity; [exact He|]. do 2 apply N.mul_le_mono_r. lia.
Qed.

Lemma paced_bound p now l rate before log after t n :
  pc_rate p = Some rate → (MIN_BULK_SEND_RATE ≤ rate)%N → (pc_started p ≤ now)%N → (before ≤ pc_sent_bytes p)%N →
  (pc_sent_bytes p + recordable l ≤ usize_max)%N → paced_run p now l = log ++ (t, n) :: after →
  ((before + sent_bytes log) * 1000000000 * (PRECISION - 1) ≤ (t - pc_started p + 1) * rate * PRECISION)%N ∧ (pc_started p ≤ t)%N.
Proof.
  intros Hr Hpos. revert p now before log Hr. induction l as [|s l IH]; intros p now before log Hr Hn Hb Hmax Heq; cbn in Heq; [by destruct log|].
  set (t1 := (now + ps_gap s + before_send p (now + ps_gap s) + ps_late s)%N) in Heq. destruct log as [|x log].
  - injection Heq as <- _ _. cbn [sent_bytes foldr]. split; [|lia].
    pose proof (due_after_sleep p (now + ps_gap s) rate Hr Hpos ltac:(lia) ltac:(lia)) as Hd. rewrite N.add_0_r.
    etransitivity; [do 2 apply N.mul_le_mono_r; exact Hb|]. etransitivity; [exact Hd|]. do 2 apply N.mul_le_mono_r. unfold t1. lia.
  - injection Heq as <- Heq. cbn [recordable foldr] in Hmax. fold (recordable l) in Hmax. change (sent_bytes (?x :: log)) with (x.2 + sent_bytes log)%N.
    cbn [snd sent_bytes foldr]. fold (sent_bytes log).
    set (p1 := if _ || _ then _ else _) in Heq.
    assert (Hp1 : pc_rate p1 = Some rate ∧ pc_started p1 = pc_started p ∧
      (before + (if ps_ok s then ps_bytes s else 0) ≤ pc_sent_bytes p1)%N ∧ (pc_sent_bytes p1 + recordable l ≤ usize_max)%N).
    { unfold p1. destruct (ps_fragment s), (ps_ok s); cbn; unfold saturating_add; split_and!; try done; try lia. }
    destruct Hp1 as (Hr1 & Hst & Hb1 & Hmax1). rewrite <- Hst.
    destruct (IH p1 t1 (before + (if ps_ok s then ps_bytes s else 0))%N log Hr1 ltac:(unfold t1; lia) Hb1 Hmax1 Heq) as [Hbound Ht].
    split; [|done]. by rewrite N.add_assoc.
Qed.

(** C34. A paced transfer keeps its rate: when a datagram goes out, the payload bytes that went out
    before it are at most what the rate allows in the time since the transfer began and one
    nanosecond, up to the rounding of the floating-point quotient, which is less than one part in
    [2^50]; whatever the failures, the gaps between datagrams and how late the timer fires. The
    transfer is within [usize::MAX] bytes, and a configured rate is never below the floor. *)
Theorem bulk_transfer_keeps_rate rate now l log t n after :
  let rate := clamp_rate rate in (0 < rate)%N → (recordable l ≤ usize_max)%N →
  paced_run (pacer_new (Some rate) now) now l = log ++ (t, n) :: after →
  (sent_bytes log * 1000000000 * (PRECISION - 1) ≤ (t - now + 1) * rate * PRECISION)%N ∧ (MIN_BULK_SEND_RATE ≤ rate)%N.
Proof.
  intros r Hpos Hmax Heq. assert (Hmin : (MIN_BULK_SEND_RATE ≤ r)%N).
  { unfold r, clamp_rate in *. destruct (N.ltb_spec 0 rate) as [H0|H0]; cbn [andb] in *; [|lia].
    destruct (N.ltb_spec rate MIN_BULK_SEND_RATE); [done|lia]. }
  split; [|exact Hmin].
  destruct (paced_bound (pacer_new (Some r) now) now l r 0 log after t n eq_refl Hmin ltac:(cbn; lia) ltac:(cbn; lia) Hmax Heq) as [Hb _]. exact Hb.
Qed.
End pacer.

(** An exact quotient, rounded down. *)
Definition demo_expected (sent rate : N) : N := sent * 1000000000 / rate.
Lemma demo_expected_close sent rate : (sent ≤ usize_max)%N → (MIN_BULK_SEND_RATE ≤ rate)%N →
  (sent * 1000000000 * (PRECISION - 1) ≤ (demo_expected sent rate + 1) * rate * PRECISION)%N.
Proof.
  intros _ Hr. assert (0 < rate)%N by (unfold MIN_BULK_SEND_RATE in Hr; lia). unfold demo_expected.
  pose proof (N.mul_succ_div_gt (sent * 1000000000) rate ltac:(lia)). apply N.mul_le_mono; [lia|]. unfold PRECISION. lia.
Qed.

Definition demo_transfer : list PacedSend :=
  [{| ps_fragment := true; ps_bytes := 1048576; ps_ok := true; ps_gap := 0; ps_late := 0 |};
   {| ps_fragment := true; ps_bytes := 1048576; ps_ok := true; ps_gap := 10; ps_late := 5 |};
   {| ps_fragment := false; ps_bytes := 100; ps_ok := false; ps_gap := 10; ps_late := 0 |}]%N.

Lemma bulk_transfer_keeps_rate_witness :
  let log := paced_run demo_expected (pacer_new (Some (clamp_rate 7)) 50) 50 demo_transfer in
  fst <$> log = [50; 1000000055; 2000000050]%N ∧
  (sent_bytes (take 2 log) * 1000000000 * (PRECISION - 1) ≤ (2000000050 - 50 + 1) * clamp_rate 7 * PRECISION)%N.
Proof.
  split; [vm_compute; reflexivity|].
  refine (proj1 (bulk_transfer_keeps_rate demo_expected demo_expected_close 7 50 demo_transfer _ 2000000050 0 [] _ _ _)); vm_compute; [reflexivity|discriminate|reflexivity].
Defined.
