(* ===== verification/Metrics.v ===== *)
(** * Metrics ([src/metrics.rs], [src/observability.rs], [src/observability/], [src/prometheus.rs])

    The metric names, the helpers that record against them, and the descriptions an exporter
    registers. The [metrics] crate keeps the values: a helper is the list of calls it makes of it,
    with the value of a gauge before its conversion to [f64] and of a histogram in nanoseconds. *)
From stdpp Require Import gmap list strings.
From Stdlib Require Import NArith.
From S2P Require Import Prelude.

(** ** Names *)

Inductive Metric :=
| INSERTS_TOTAL | REMOVES_TOTAL | UPDATES_RECEIVED_TOTAL | MESSAGES_SENT_TOTAL | BYTES_SENT_TOTAL
| MESSAGES_RECEIVED_TOTAL | BYTES_RECEIVED_TOTAL | SEND_FAILURES_TOTAL | VALUES_OVERSIZED_TOTAL
| DATAGRAMS_DROPPED_TOTAL | FRAGMENTED_MESSAGES_TOTAL | FRAGMENTS_SENT_TOTAL | FRAGMENTS_RECEIVED_TOTAL
| REASSEMBLIES_COMPLETED_TOTAL | REASSEMBLY_DUPLICATES_TOTAL | REASSEMBLY_EVICTIONS_TOTAL
| REASSEMBLY_REJECTIONS_TOTAL | REASSEMBLY_BYTES_CURRENT | SELECTIVE_RECOVERY_REQUESTS_TOTAL
| SELECTIVE_RECOVERY_MISSING_RANGES_TOTAL | SELECTIVE_RECOVERY_RETRANSMITTED_FRAGMENTS_TOTAL
| SELECTIVE_RECOVERY_RETRANSMITTED_BYTES_TOTAL | SELECTIVE_RECOVERY_CONTROL_BYTES_TOTAL
| SELECTIVE_RECOVERY_COMPLETION_ACKS_TOTAL | SELECTIVE_RECOVERY_FALLBACKS_TOTAL | OUTBOUND_RECOVERY_TRANSFERS_CURRENT
| OUTBOUND_RECOVERY_BYTES_CURRENT | OUTBOUND_RECOVERY_EVICTIONS_TOTAL | ROUNDS_TOTAL | TOMBSTONE_ACKS_RESENT_TOTAL
| TOMBSTONE_STAMP_BOUNDED_TOTAL | PERSISTENCE_FAILURES_TOTAL | DISCOVERY_FAILURES_TOTAL | ROUND_DURATION_SECONDS
| HANDLE_DURATION_SECONDS | PEERS_CURRENT | MEMBERS_CURRENT | ENTRIES_CURRENT | TOMBSTONES_CURRENT
| BULK_DUMPS_IN_FLIGHT | BROADCASTS_IN_FLIGHT | BROADCAST_BACKPRESSURE_TOTAL | PERSISTENCE_FAILURES_CURRENT
| SNAPSHOT_FULL_MATERIALIZATIONS_TOTAL | SNAPSHOT_DELTA_COMMITS_TOTAL | SNAPSHOT_COMPACTIONS_TOTAL
| SNAPSHOT_CLEANUP_FAILURES_TOTAL | SNAPSHOT_SEGMENTS_CURRENT | SNAPSHOT_SEGMENT_BYTES_CURRENT
| SNAPSHOT_RECOVERY_SEGMENTS | SNAPSHOT_RECOVERY_DURATION_SECONDS.

#[export] Instance Metric_eq_dec : EqDecision Metric.
Proof. solve_decision. Defined.

Definition metric_name (m : Metric) : string :=
  match m with
  | INSERTS_TOTAL => "reconcile_inserts_total"
  | REMOVES_TOTAL => "reconcile_removes_total"
  | UPDATES_RECEIVED_TOTAL => "reconcile_updates_received_total"
  | MESSAGES_SENT_TOTAL => "reconcile_messages_sent_total"
  | BYTES_SENT_TOTAL => "reconcile_bytes_sent_total"
  | MESSAGES_RECEIVED_TOTAL => "reconcile_messages_received_total"
  | BYTES_RECEIVED_TOTAL => "reconcile_bytes_received_total"
  | SEND_FAILURES_TOTAL => "reconcile_send_failures_total"
  | VALUES_OVERSIZED_TOTAL => "reconcile_values_oversized_total"
  | DATAGRAMS_DROPPED_TOTAL => "reconcile_datagrams_dropped_total"
  | FRAGMENTED_MESSAGES_TOTAL => "reconcile_fragmented_messages_total"
  | FRAGMENTS_SENT_TOTAL => "reconcile_fragments_sent_total"
  | FRAGMENTS_RECEIVED_TOTAL => "reconcile_fragments_received_total"
  | REASSEMBLIES_COMPLETED_TOTAL => "reconcile_reassemblies_completed_total"
  | REASSEMBLY_DUPLICATES_TOTAL => "reconcile_reassembly_duplicates_total"
  | REASSEMBLY_EVICTIONS_TOTAL => "reconcile_reassembly_evictions_total"
  | REASSEMBLY_REJECTIONS_TOTAL => "reconcile_reassembly_rejections_total"
  | REASSEMBLY_BYTES_CURRENT => "reconcile_reassembly_bytes_current"
  | SELECTIVE_RECOVERY_REQUESTS_TOTAL => "reconcile_selective_recovery_requests_total"
  | SELECTIVE_RECOVERY_MISSING_RANGES_TOTAL => "reconcile_selective_recovery_missing_ranges_total"
  | SELECTIVE_RECOVERY_RETRANSMITTED_FRAGMENTS_TOTAL => "reconcile_selective_recovery_retransmitted_fragments_total"
  | SELECTIVE_RECOVERY_RETRANSMITTED_BYTES_TOTAL => "reconcile_selective_recovery_retransmitted_bytes_total"
  | SELECTIVE_RECOVERY_CONTROL_BYTES_TOTAL => "reconcile_selective_recovery_control_bytes_total"
  | SELECTIVE_RECOVERY_COMPLETION_ACKS_TOTAL => "reconcile_selective_recovery_completion_acks_total"
  | SELECTIVE_RECOVERY_FALLBACKS_TOTAL => "reconcile_selective_recovery_fallbacks_total"
  | OUTBOUND_RECOVERY_TRANSFERS_CURRENT => "reconcile_outbound_recovery_transfers_current"
  | OUTBOUND_RECOVERY_BYTES_CURRENT => "reconcile_outbound_recovery_bytes_current"
  | OUTBOUND_RECOVERY_EVICTIONS_TOTAL => "reconcile_outbound_recovery_evictions_total"
  | ROUNDS_TOTAL => "reconcile_rounds_total"
  | TOMBSTONE_ACKS_RESENT_TOTAL => "reconcile_tombstone_acks_resent_total"
  | TOMBSTONE_STAMP_BOUNDED_TOTAL => "reconcile_tombstone_stamp_bounded_total"
  | PERSISTENCE_FAILURES_TOTAL => "reconcile_persistence_failures_total"
  | DISCOVERY_FAILURES_TOTAL => "reconcile_discovery_failures_total"
  | ROUND_DURATION_SECONDS => "reconcile_round_duration_seconds"
  | HANDLE_DURATION_SECONDS => "reconcile_handle_messages_duration_seconds"
  | PEERS_CURRENT => "reconcile_peers_current"
  | MEMBERS_CURRENT => "reconcile_members_current"
  | ENTRIES_CURRENT => "reconcile_entries_current"
  | TOMBSTONES_CURRENT => "reconcile_tombstones_current"
  | BULK_DUMPS_IN_FLIGHT => "reconcile_bulk_dumps_in_flight"
  | BROADCASTS_IN_FLIGHT => "reconcile_broadcasts_in_flight"
  | BROADCAST_BACKPRESSURE_TOTAL => "reconcile_broadcast_backpressure_total"
  | PERSISTENCE_FAILURES_CURRENT => "reconcile_persistence_failures_current"
  | SNAPSHOT_FULL_MATERIALIZATIONS_TOTAL => "reconcile_snapshot_full_materializations_total"
  | SNAPSHOT_DELTA_COMMITS_TOTAL => "reconcile_snapshot_delta_commits_total"
  | SNAPSHOT_COMPACTIONS_TOTAL => "reconcile_snapshot_compactions_total"
  | SNAPSHOT_CLEANUP_FAILURES_TOTAL => "reconcile_snapshot_cleanup_failures_total"
  | SNAPSHOT_SEGMENTS_CURRENT => "reconcile_snapshot_segments_current"
  | SNAPSHOT_SEGMENT_BYTES_CURRENT => "reconcile_snapshot_segment_bytes_current"
  | SNAPSHOT_RECOVERY_SEGMENTS => "reconcile_snapshot_recovery_segments"
  | SNAPSHOT_RECOVERY_DURATION_SECONDS => "reconcile_snapshot_recovery_duration_seconds"
  end%string.

Definition all_metrics : list Metric :=
  [INSERTS_TOTAL; REMOVES_TOTAL; UPDATES_RECEIVED_TOTAL; MESSAGES_SENT_TOTAL; BYTES_SENT_TOTAL;
   MESSAGES_RECEIVED_TOTAL; BYTES_RECEIVED_TOTAL; SEND_FAILURES_TOTAL; VALUES_OVERSIZED_TOTAL;
   DATAGRAMS_DROPPED_TOTAL; FRAGMENTED_MESSAGES_TOTAL; FRAGMENTS_SENT_TOTAL; FRAGMENTS_RECEIVED_TOTAL;
   REASSEMBLIES_COMPLETED_TOTAL; REASSEMBLY_DUPLICATES_TOTAL; REASSEMBLY_EVICTIONS_TOTAL;
   REASSEMBLY_REJECTIONS_TOTAL; REASSEMBLY_BYTES_CURRENT; SELECTIVE_RECOVERY_REQUESTS_TOTAL;
   SELECTIVE_RECOVERY_MISSING_RANGES_TOTAL; SELECTIVE_RECOVERY_RETRANSMITTED_FRAGMENTS_TOTAL;
   SELECTIVE_RECOVERY_RETRANSMITTED_BYTES_TOTAL; SELECTIVE_RECOVERY_CONTROL_BYTES_TOTAL;
   SELECTIVE_RECOVERY_COMPLETION_ACKS_TOTAL; SELECTIVE_RECOVERY_FALLBACKS_TOTAL;
   OUTBOUND_RECOVERY_TRANSFERS_CURRENT; OUTBOUND_RECOVERY_BYTES_CURRENT; OUTBOUND_RECOVERY_EVICTIONS_TOTAL;
   ROUNDS_TOTAL; TOMBSTONE_ACKS_RESENT_TOTAL; TOMBSTONE_STAMP_BOUNDED_TOTAL; PERSISTENCE_FAILURES_TOTAL;
   DISCOVERY_FAILURES_TOTAL; ROUND_DURATION_SECONDS; HANDLE_DURATION_SECONDS; PEERS_CURRENT; MEMBERS_CURRENT;
   ENTRIES_CURRENT; TOMBSTONES_CURRENT; BULK_DUMPS_IN_FLIGHT; BROADCASTS_IN_FLIGHT; BROADCAST_BACKPRESSURE_TOTAL;
   PERSISTENCE_FAILURES_CURRENT; SNAPSHOT_FULL_MATERIALIZATIONS_TOTAL; SNAPSHOT_DELTA_COMMITS_TOTAL;
   SNAPSHOT_COMPACTIONS_TOTAL; SNAPSHOT_CLEANUP_FAILURES_TOTAL; SNAPSHOT_SEGMENTS_CURRENT;
   SNAPSHOT_SEGMENT_BYTES_CURRENT; SNAPSHOT_RECOVERY_SEGMENTS; SNAPSHOT_RECOVERY_DURATION_SECONDS].

(** ** Calls of the [metrics] facade *)

Inductive MetricCall :=
| Increment (m : Metric) (label : option (string * string)) (n : N)
| SetGauge (m : Metric) (value : N)
| RecordHistogram (m : Metric) (elapsed : N).

Inductive Kind := Counter | Gauge | Histogram.
Inductive Unit_ := UCount | UBytes | USeconds.
#[export] Instance Kind_eq_dec : EqDecision Kind.
Proof. solve_decision. Defined.

Record Description := { ds_kind : Kind; ds_metric : Metric; ds_unit : Unit_; ds_text : string }.
Definition described (kind : Kind) (m : Metric) (unit : Unit_) (text : string) : Description :=
  {| ds_kind := kind; ds_metric := m; ds_unit := unit; ds_text := text |}.

(** [observability::framing::describe] *)
Definition describe_framing : list Description :=
  [described Counter FRAGMENTED_MESSAGES_TOTAL UCount "Logical protocol messages split across fragment frames";
   described Counter FRAGMENTS_SENT_TOTAL UCount "Fragment datagrams sent";
   described Counter FRAGMENTS_RECEIVED_TOTAL UCount "Authenticated fragment datagrams received";
   described Counter REASSEMBLIES_COMPLETED_TOTAL UCount "Fragmented logical messages successfully reassembled";
   described Counter REASSEMBLY_DUPLICATES_TOTAL UCount "Exact duplicate fragments reused";
   described Counter REASSEMBLY_EVICTIONS_TOTAL UCount "Incomplete transfers removed by ttl or capacity eviction";
   described Counter REASSEMBLY_REJECTIONS_TOTAL UCount "Authenticated framing/reassembly rejections by reason";
   described Gauge REASSEMBLY_BYTES_CURRENT UBytes "Bytes retained for incomplete fragment reassembly";
   described Counter SELECTIVE_RECOVERY_REQUESTS_TOTAL UCount "Authenticated missing-range recovery reports sent";
   described Counter SELECTIVE_RECOVERY_MISSING_RANGES_TOTAL UCount "Missing byte ranges requested";
   described Counter SELECTIVE_RECOVERY_RETRANSMITTED_FRAGMENTS_TOTAL UCount "Selectively retransmitted fragment datagrams";
   described Counter SELECTIVE_RECOVERY_RETRANSMITTED_BYTES_TOTAL UBytes "Selectively retransmitted logical payload bytes";
   described Counter SELECTIVE_RECOVERY_CONTROL_BYTES_TOTAL UBytes "Wire bytes spent on selective-recovery control frames";
   described Counter SELECTIVE_RECOVERY_COMPLETION_ACKS_TOTAL UCount "Completion acknowledgements sent after fragmented reassembly";
   described Counter SELECTIVE_RECOVERY_FALLBACKS_TOTAL UCount "Selective recovery fallbacks by reason";
   described Gauge OUTBOUND_RECOVERY_TRANSFERS_CURRENT UCount "Retained outbound recoverable transfers";
   described Gauge OUTBOUND_RECOVERY_BYTES_CURRENT UBytes "Retained outbound recovery payload bytes";
   described Counter OUTBOUND_RECOVERY_EVICTIONS_TOTAL UCount "Outbound recovery state removed by ttl or capacity"]%string.

(** [describe_snapshot_metrics] *)
Definition describe_snapshot : list Description :=
  [described Counter SNAPSHOT_FULL_MATERIALIZATIONS_TOTAL UCount "Full FileSnapshot base publications";
   described Counter SNAPSHOT_DELTA_COMMITS_TOTAL UCount "Incremental FileSnapshot delta publications";
   described Counter SNAPSHOT_COMPACTIONS_TOTAL UCount "Full base publications replacing an existing delta chain";
   described Counter SNAPSHOT_CLEANUP_FAILURES_TOTAL UCount "Failed removal of superseded FileSnapshot files after manifest publication";
   described Gauge SNAPSHOT_SEGMENTS_CURRENT UCount "Currently committed FileSnapshot base plus delta segment count";
   described Gauge SNAPSHOT_SEGMENT_BYTES_CURRENT UBytes "Bytes retained by committed FileSnapshot base and delta segments";
   described Gauge SNAPSHOT_RECOVERY_SEGMENTS UCount "FileSnapshot segments replayed by the latest successful load";
   described Histogram SNAPSHOT_RECOVERY_DURATION_SECONDS USeconds "FileSnapshot recovery wall time"]%string.

(** [observability::describe] *)
Definition describe : list Description :=
  [described Counter INSERTS_TOTAL UCount "Local key insertions";
   described Counter REMOVES_TOTAL UCount "Local removals (tombstones created)";
   described Counter UPDATES_RECEIVED_TOTAL UCount "Updates merged from peers";
   described Counter MESSAGES_SENT_TOTAL UCount "Datagrams sent";
   described Counter BYTES_SENT_TOTAL UBytes "Wire bytes sent";
   described Counter MESSAGES_RECEIVED_TOTAL UCount "Datagrams accepted";
   described Counter BYTES_RECEIVED_TOTAL UBytes "Wire bytes received";
   described Counter SEND_FAILURES_TOTAL UCount "Sends that exhausted all retries";
   described Counter VALUES_OVERSIZED_TOTAL UCount "Encoded logical messages exceeding framing resource limits";
   described Counter DATAGRAMS_DROPPED_TOTAL UCount "Datagrams dropped, by reason"]%string
  ++ describe_framing ++
  [described Counter BROADCAST_BACKPRESSURE_TOTAL UCount "Writes that hit the write-broadcast egress budget, by path";
   described Counter ROUNDS_TOTAL UCount "Reconciliation rounds initiated";
   described Counter TOMBSTONE_ACKS_RESENT_TOTAL UCount "Tombstone acks resent on reconciliation rounds";
   described Counter TOMBSTONE_STAMP_BOUNDED_TOTAL UCount "Tombstones whose expiry instant had to be bounded, by outcome";
   described Histogram ROUND_DURATION_SECONDS USeconds "Duration of start_reconciliation";
   described Histogram HANDLE_DURATION_SECONDS USeconds "Duration of handle_messages";
   described Counter PERSISTENCE_FAILURES_TOTAL UCount "Snapshot writes to the persistence backend that failed";
   described Counter DISCOVERY_FAILURES_TOTAL UCount "Discovery-source resolutions that failed";
   described Gauge PEERS_CURRENT UCount "Current size of the gossip-routing peer set";
   described Gauge MEMBERS_CURRENT UCount "Current size of the causal-stability membership set";
   described Gauge ENTRIES_CURRENT UCount "Current count of live (non-tombstone) entries";
   described Gauge TOMBSTONES_CURRENT UCount "Current count of outstanding tombstones";
   described Gauge BULK_DUMPS_IN_FLIGHT UCount "Current count of bulk anti-entropy dumps in flight";
   described Gauge BROADCASTS_IN_FLIGHT UCount "Current count of write-broadcast tasks in flight";
   described Gauge PERSISTENCE_FAILURES_CURRENT UCount "Consecutive persistence-backend snapshot failures since the last success"]%string
  ++ describe_snapshot.

(** ** Helpers *)

(** The [metrics] cargo feature: without it every helper is a no-op. *)
Class MetricsFeature := metrics_on : bool.
Definition calls `{MetricsFeature} (l : list MetricCall) : list MetricCall := if metrics_on then l else [].

Section helpers.
Context `{MetricsFeature}.
Notation counter m n := (Increment m None n).
Notation labeled m key value n := (Increment m (Some (key%string, value)) n).

Definition timer (now : N) : option N := if metrics_on then Some now else None.

Definition record_insert : list MetricCall := calls [counter INSERTS_TOTAL 1].
Definition record_remove : list MetricCall := calls [counter REMOVES_TOTAL 1].
Definition record_updates_received (n : N) : list MetricCall := calls [counter UPDATES_RECEIVED_TOTAL n].
Definition record_bytes_sent (bytes : N) : list MetricCall :=
  calls [counter MESSAGES_SENT_TOTAL 1; counter BYTES_SENT_TOTAL bytes].
Definition record_bytes_received (bytes : N) : list MetricCall :=
  calls [counter MESSAGES_RECEIVED_TOTAL 1; counter BYTES_RECEIVED_TOTAL bytes].
Definition record_send_failure : list MetricCall := calls [counter SEND_FAILURES_TOTAL 1].
Definition record_value_oversized : list MetricCall := calls [counter VALUES_OVERSIZED_TOTAL 1].
Definition record_datagram_dropped (reason : string) : list MetricCall :=
  calls [labeled DATAGRAMS_DROPPED_TOTAL "reason" reason 1].
Definition record_broadcast_backpressure (path : string) : list MetricCall :=
  calls [labeled BROADCAST_BACKPRESSURE_TOTAL "path" path 1].
Definition record_reconcile_round : list MetricCall := calls [counter ROUNDS_TOTAL 1].
Definition record_tombstone_acks_resent (n : N) : list MetricCall := calls [counter TOMBSTONE_ACKS_RESENT_TOTAL n].
Definition record_tombstone_stamp_bounded (outcome : string) : list MetricCall :=
  calls [labeled TOMBSTONE_STAMP_BOUNDED_TOTAL "outcome" outcome 1].
Definition record_duration (m : Metric) (start : option N) (now : N) : list MetricCall :=
  match start with Some start => [RecordHistogram m (saturating_sub now start)] | None => [] end.
Definition record_round_duration (start : option N) (now : N) : list MetricCall :=
  calls (record_duration ROUND_DURATION_SECONDS start now).
Definition record_handle_duration (start : option N) (now : N) : list MetricCall :=
  calls (record_duration HANDLE_DURATION_SECONDS start now).
Definition record_persistence_failure (consecutive : N) : list MetricCall :=
  calls [counter PERSISTENCE_FAILURES_TOTAL 1; SetGauge PERSISTENCE_FAILURES_CURRENT consecutive].
Definition record_persistence_success : list MetricCall := calls [SetGauge PERSISTENCE_FAILURES_CURRENT 0].
Definition record_discovery_failure : list MetricCall := calls [counter DISCOVERY_FAILURES_TOTAL 1].
Definition record_state_gauges (peers members entries tombstones bulk_dumps_in_flight broadcasts_in_flight : N)
    : list MetricCall :=
  calls [SetGauge PEERS_CURRENT peers; SetGauge MEMBERS_CURRENT members; SetGauge ENTRIES_CURRENT entries;
         SetGauge TOMBSTONES_CURRENT tombstones; SetGauge BULK_DUMPS_IN_FLIGHT bulk_dumps_in_flight;
         SetGauge BROADCASTS_IN_FLIGHT broadcasts_in_flight].

(** *** Framing *)

Definition record_fragmented_message : list MetricCall := calls [counter FRAGMENTED_MESSAGES_TOTAL 1].
Definition record_fragment_sent : list MetricCall := calls [counter FRAGMENTS_SENT_TOTAL 1].
Definition record_fragment_received : list MetricCall := calls [counter FRAGMENTS_RECEIVED_TOTAL 1].
Definition record_reassembly_completed : list MetricCall := calls [counter REASSEMBLIES_COMPLETED_TOTAL 1].
Definition record_reassembly_duplicate : list MetricCall := calls [counter REASSEMBLY_DUPLICATES_TOTAL 1].
Definition record_reassembly_evictions (reason : string) (count : N) : list MetricCall :=
  calls (if (0 <? count)%N then [labeled REASSEMBLY_EVICTIONS_TOTAL "reason" reason count] else []).
Definition record_reassembly_rejection (reason : string) : list MetricCall :=
  calls [labeled REASSEMBLY_REJECTIONS_TOTAL "reason" reason 1].
Definition record_reassembly_bytes (bytes : N) : list MetricCall := calls [SetGauge REASSEMBLY_BYTES_CURRENT bytes].
Definition record_selective_recovery_request (ranges wire_bytes : N) : list MetricCall :=
  calls [counter SELECTIVE_RECOVERY_REQUESTS_TOTAL 1; counter SELECTIVE_RECOVERY_MISSING_RANGES_TOTAL ranges;
         counter SELECTIVE_RECOVERY_CONTROL_BYTES_TOTAL wire_bytes].
Definition record_selective_retransmit (payload_bytes : N) : list MetricCall :=
  calls [counter SELECTIVE_RECOVERY_RETRANSMITTED_FRAGMENTS_TOTAL 1;
         counter SELECTIVE_RECOVERY_RETRANSMITTED_BYTES_TOTAL payload_bytes].
Definition record_completion_ack (wire_bytes : N) : list MetricCall :=
  calls [counter SELECTIVE_RECOVERY_COMPLETION_ACKS_TOTAL 1; counter SELECTIVE_RECOVERY_CONTROL_BYTES_TOTAL wire_bytes].
Definition record_selective_recovery_fallback (reason : string) : list MetricCall :=
  calls [labeled SELECTIVE_RECOVERY_FALLBACKS_TOTAL "reason" reason 1].
Definition record_outbound_recovery_evictions (reason : string) (count : N) : list MetricCall :=
  calls (if (0 <? count)%N then [labeled OUTBOUND_RECOVERY_EVICTIONS_TOTAL "reason" reason count] else []).
Definition record_outbound_recovery_state (transfers bytes : N) : list MetricCall :=
  calls [SetGauge OUTBOUND_RECOVERY_TRANSFERS_CURRENT transfers; SetGauge OUTBOUND_RECOVERY_BYTES_CURRENT bytes].

(** *** Snapshots *)

Definition record_snapshot_full (compaction : bool) (segments bytes : N) : list MetricCall :=
  calls ([counter SNAPSHOT_FULL_MATERIALIZATIONS_TOTAL 1]
         ++ (if compaction then [counter SNAPSHOT_COMPACTIONS_TOTAL 1] else [])
         ++ [SetGauge SNAPSHOT_SEGMENTS_CURRENT segments; SetGauge SNAPSHOT_SEGMENT_BYTES_CURRENT bytes]).
Definition record_snapshot_delta (segments bytes : N) : list MetricCall :=
  calls [counter SNAPSHOT_DELTA_COMMITS_TOTAL 1; SetGauge SNAPSHOT_SEGMENTS_CURRENT segments;
         SetGauge SNAPSHOT_SEGMENT_BYTES_CURRENT bytes].
Definition record_snapshot_cleanup_failure : list MetricCall := calls [counter SNAPSHOT_CLEANUP_FAILURES_TOTAL 1].
Definition record_snapshot_recovery (start : option N) (segments now : N) : list MetricCall :=
  calls (SetGauge SNAPSHOT_RECOVERY_SEGMENTS segments :: record_duration SNAPSHOT_RECOVERY_DURATION_SECONDS start now).
End helpers.

(** ** What a log of calls adds up to *)

Definition amount (m : Metric) (c : MetricCall) : N :=
  match c with Increment m' _ n => if decide (m' = m) then n else 0 | _ => 0 end%N.
(** The value of a counter over all its labels. *)
Definition total (m : Metric) (l : list MetricCall) : N := foldr (λ c n, (amount m c + n)%N) 0%N l.

Definition reading (m : Metric) (c : MetricCall) (old : N) : N :=
  match c with SetGauge m' v => if decide (m' = m) then v else old | _ => old end.
(** The value of a gauge that was [old]. *)
Definition gauge (m : Metric) (old : N) (l : list MetricCall) : N := fold_left (λ v c, reading m c v) l old.

Definition labels (m : Metric) (l : list MetricCall) : list string :=
  omap (λ c, match c with Increment m' (Some (_, v)) _ => if decide (m' = m) then Some v else None | _ => None end) l.

Lemma total_app m l l' : total m (l ++ l') = (total m l + total m l')%N.
Proof. unfold total. induction l as [|c l IH]; [done|]. cbn [app foldr]. rewrite IH. lia. Qed.

Lemma gauge_app m old l l' : gauge m old (l ++ l') = gauge m (gauge m old l) l'.
Proof. apply fold_left_app. Qed.

Definition metric_of (c : MetricCall) : Metric :=
  match c with Increment m _ _ | SetGauge m _ | RecordHistogram m _ => m end.

(** Calls of other metrics leave a counter and a gauge as they are. *)
Lemma total_other m (ms : list Metric) l : Forall (λ c, metric_of c ∈ ms) l → m ∉ ms → total m l = 0%N.
Proof.
  intros Hl Hm. unfold total. induction Hl as [|c l Hc _ IH]; [done|]. cbn [foldr]. rewrite IH.
  destruct c; cbn in Hc |- *; try done. by rewrite decide_False by (by intros ->).
Qed.

Lemma gauge_other m (ms : list Metric) l old : Forall (λ c, metric_of c ∈ ms) l → m ∉ ms → gauge m old l = old.
Proof.
  intros Hl Hm. unfold gauge. induction Hl as [|c l Hc _ IH]; [done|]. cbn [fold_left].
  replace (reading m c old) with old; [done|]. destruct c; cbn in Hc |- *; try done. by rewrite decide_False by (by intros ->).
Qed.

(** Add up a closed list of calls. *)
Ltac tally := lazy -[N.add N.of_nat N.le N.lt N.sub]; rewrite ?N.add_0_r, ?N.add_0_l.

(** ** Every call is of a described metric, with its kind *)

Definition kind_of (m : Metric) : option Kind := ds_kind <$> find (λ d, bool_decide (ds_metric d = m)) describe.

Definition call_ok (c : MetricCall) : bool :=
  match c with
  | Increment m _ _ => bool_decide (kind_of m = Some Counter)
  | SetGauge m _ => bool_decide (kind_of m = Some Gauge)
  | RecordHistogram m _ => bool_decide (kind_of m = Some Histogram)
  end.
Definition calls_ok (l : list MetricCall) : Prop := Forall (λ c, call_ok c = true) l.

Lemma calls_ok_app l l' : calls_ok (l ++ l') ↔ calls_ok l ∧ calls_ok l'.
Proof. apply Forall_app. Qed.

(** A helper's calls, feature on or off, whatever its arguments. *)
Ltac helper_ok := intros; unfold calls_ok, calls; repeat case_match; repeat (apply Forall_app; split); repeat constructor.

(** Prometheus's names: lower case, digits and underscores, not starting with a digit. *)
Fixpoint name_chars (s : string) : bool :=
  match s with
  | EmptyString => true
  | String a s =>
      let n := Ascii.N_of_ascii a in
      ((97 <=? n)%N && (n <=? 122)%N || (n =? 95)%N || (48 <=? n)%N && (n <=? 57)%N) && name_chars s
  end.
Definition ends_in (suffix s : string) : bool :=
  bool_decide (String.substring (String.length s - String.length suffix) (String.length suffix) s = suffix).
Definition name_ok (m : Metric) : bool :=
  String.prefix "reconcile_" (metric_name m) && name_chars (metric_name m)
  && Bool.eqb (ends_in "_total" (metric_name m)) (bool_decide (kind_of m = Some Counter)).

Lemma all_metrics_complete m : m ∈ all_metrics.
Proof. destruct m; decided. Qed.

(** The published names are distinct and legal, exactly the counters end in [_total], and every
    metric is described once. *)
Theorem metric_names_published :
  NoDup (metric_name <$> all_metrics) ∧ NoDup (ds_metric <$> describe) ∧
  ∀ m, name_ok m = true ∧ m ∈ (ds_metric <$> describe).
Proof.
  split_and!; [decided|decided|]. intros m. pose proof (all_metrics_complete m) as Hm.
  assert (Hall : Forall (λ m, name_ok m = true ∧ m ∈ (ds_metric <$> describe)) all_metrics) by decided.
  by eapply Forall_forall in Hall.
Qed.
