(* ===== verification/Metering.v ===== *)
(** * The sending path with its metrics ([src/replica/framed_send.rs], [recovery_send.rs],
      [src/framing.rs])

    The operations of [FramedSend] and [Ingress] with the helpers of [Metrics] they call, in the
    order they call them. Recording has no effect on what is sent or kept: without its calls each
    operation is the one it meters. The counters are exact. *)
From stdpp Require Import gmap list strings.
From Stdlib Require Import NArith.
From Stdlib.Strings Require Import Byte.
From S2P Require Import Prelude Bytes Replay Auth Framing Reassembly Missing RecoveryBook FramedSend Ingress Metrics.

Section metered.
Context {P : Type} `{Countable P, RustOrd P} `{Mac, Aead} `{MetricsFeature}.
Context (blake3_hash : list byte → id32).
Context (authenticator : Authenticator) (framing : FramingConfig).
Context (wall : N → N) (nonce : N → list byte).
Notation SendState := (SendState (P := P)).
Notation Send := (Send (P := P)).

(** ** A send that also records *)

Definition Metered (A : Type) : Type := SendState → SendState * A * list MetricCall.
#[global] Instance Metered_ret : MRet Metered := λ A a s, (s, a, []).
#[global] Instance Metered_bind : MBind Metered := λ A B k m s,
  let '(s, a, l) := m s in let '(s, b, l') := k a s in (s, b, l ++ l').

Definition lift {A} (m : Send A) : Metered A := λ s, (m s, []).
Definition tell (l : list MetricCall) : Metered unit := λ s, (s, tt, l).
Definition erase {A} (m : Metered A) : Send A := λ s, (m s).1.

(** ** Sending *)

Definition metered_frame (frame : list byte) (target : P * N) : Metered (result N unit) :=
  res ← lift (send_frame_to_retry authenticator wall nonce frame target);
  _ ← tell (match res with Ok sent => record_bytes_sent sent | Err _ => record_send_failure end);
  mret res.

Fixpoint metered_fragments (id : id32) (total_len fragment_capacity : N) (peer : P * N) (index : N)
    (cs : list (list byte)) (total_sent : N) : Metered (option N) :=
  match cs with
  | [] => mret (Some total_sent)
  | chunk :: cs =>
      match write_fragment id total_len (index * fragment_capacity) chunk with
      | Err _ => mret None
      | Ok frame =>
          res ← metered_frame frame peer;
          _ ← tell (match res with Ok _ => record_fragment_sent | Err _ => [] end);
          metered_fragments id total_len fragment_capacity peer (index + 1) cs
            (match res with Ok sent => saturating_add total_sent sent | Err _ => total_sent end)
      end
  end.

(** What is recorded of the retained state before the fragments go out. *)
Definition retain_calls (report : option RetainReport) : list MetricCall :=
  match report with
  | Some rep =>
      record_outbound_recovery_evictions "ttl" (rr_expired rep)
      ++ record_outbound_recovery_evictions "capacity" (rr_evicted rep)
      ++ record_outbound_recovery_state (rr_transfers rep) (rr_bytes rep)
      ++ (if negb (rr_retained rep) then record_selective_recovery_fallback "state_limit"
          else if skip_full_send rep then []
          else if fallback_full_retry rep then record_selective_recovery_fallback "timed_full_retry" else [])
  | None => record_selective_recovery_fallback "unsupported_peer"
  end.

Definition metered_logical_payload (peer : P * N) (payload : list byte) (now : N)
    : Metered (option (result N unit)) :=
  let oversized : Metered (option (result N unit)) := _ ← tell record_value_oversized; mret (Some (Ok 0%N)) in
  match capacities authenticator framing with
  | None => oversized
  | Some (complete_capacity, fragment_capacity) =>
      if (fc_max_logical_message_size framing <? len payload)%N then oversized
      else if (len payload <=? complete_capacity)%N then
        res ← metered_frame (write_complete payload) peer; mret (Some res)
      else if (fragment_capacity =? 0)%N then oversized
      else if (fc_max_fragments_per_message framing <? div_ceil (len payload) fragment_capacity)%N
      then oversized
      else
        let id := blake3_hash payload in
        supported ← lift (with_book (λ b, supports b peer.1 now framing));
        report ← (if supported : bool then
                    lift (with_book (λ b, match retain b peer.1 id payload now framing with
                                          | Some (b, rep) => (b, Some (Some rep))
                                          | None => (b, None)
                                          end))
                  else mret (Some None));
        match report with
        | None => mret None
        | Some rep =>
            _ ← tell (retain_calls rep);
            if match rep with
               | Some rep => rr_retained rep && skip_full_send rep
               | None => false
               end
            then mret (Some (Ok 0%N))
            else
              _ ← tell record_fragmented_message;
              sent ← metered_fragments id (len payload) fragment_capacity peer 0
                       (chunks (N.to_nat fragment_capacity) payload) 0;
              mret (Ok <$> sent)
        end
  end.

Fixpoint metered_pack_loop (peer : P * N) (now complete_capacity : N) (messages : list (list byte))
    (send_buf : list byte) : Metered (list byte) :=
  match messages with
  | [] => mret send_buf
  | message :: messages =>
      let batch_len := len send_buf in
      let buf := send_buf ++ message in
      if (len buf <=? complete_capacity)%N then metered_pack_loop peer now complete_capacity messages buf
      else
        _ ← (if (0 <? batch_len)%N then metered_logical_payload peer send_buf now
             else mret (Some (Ok 0%N)));
        if (len message <=? complete_capacity)%N
        then metered_pack_loop peer now complete_capacity messages message
        else
          _ ← metered_logical_payload peer message now;
          metered_pack_loop peer now complete_capacity messages []
  end.

Definition metered_messages (peer : P * N) (now : N) (encoded_capability : list byte)
    (messages : list (list byte)) : Metered unit :=
  match capacities authenticator framing with
  | None => tell record_value_oversized
  | Some (complete_capacity, _) =>
      rest ← metered_pack_loop peer now complete_capacity messages (append_capability framing encoded_capability);
      match rest with
      | [] => mret tt
      | _ => _ ← metered_logical_payload peer rest now; mret tt
      end
  end.

Definition metered_control_batch (peer : P * N) (now : N) (encoded_capability : list byte)
    (messages : list (list byte)) : Metered unit :=
  let send_buf := append_capability framing encoded_capability ++ concat messages in
  match send_buf with
  | [] => mret tt
  | _ => _ ← metered_logical_payload peer send_buf now; mret tt
  end.

(** ** Selective recovery *)

Definition metered_recovery_control (peer : P * N) (frame : list byte) (missing_ranges : option N)
    : Metered (result N unit) :=
  res ← metered_frame frame peer;
  _ ← tell (match res with
            | Ok sent => match missing_ranges with
                         | Some ranges => record_selective_recovery_request ranges sent
                         | None => record_completion_ack sent
                         end
            | Err _ => []
            end);
  mret res.

Fixpoint metered_resend_chunks (id : id32) (total start fragment_capacity : N) (peer : P * N) (relative : N)
    (cs : list (list byte)) : Metered bool :=
  match cs with
  | [] => mret true
  | chunk :: cs =>
      match write_fragment id total (start + relative * fragment_capacity) chunk with
      | Err _ => _ ← tell (record_selective_recovery_fallback "invalid_report"); mret false
      | Ok frame =>
          res ← metered_frame frame peer;
          match res with
          | Err _ => mret false
          | Ok _ =>
              _ ← tell (record_fragment_sent ++ record_selective_retransmit (len chunk));
              metered_resend_chunks id total start fragment_capacity peer (relative + 1) cs
          end
      end
  end.

Fixpoint metered_resend_ranges (id : id32) (payload : list byte) (fragment_capacity : N) (peer : P * N)
    (ranges : list (N * N)) : Metered bool :=
  match ranges with
  | [] => mret true
  | (offset, l) :: ranges =>
      let bytes := slice (N.to_nat offset) (N.to_nat (offset + l)) payload in
      ok ← metered_resend_chunks id (len payload) offset fragment_capacity peer 0
             (chunks (N.to_nat fragment_capacity) bytes);
      if ok : bool then metered_resend_ranges id payload fragment_capacity peer ranges else mret false
  end.

Definition record_occupancy (b : RecoveryBook P) : list MetricCall :=
  record_outbound_recovery_state (occupancy b).1 (occupancy b).2.

Definition metered_retransmit (peer : P * N) (transfer_id : id32) (ranges : list (N * N)) (now : N)
    : Metered bool :=
  let fallback (reason : string) : Metered bool := _ ← tell (record_selective_recovery_fallback reason); mret false in
  if negb (selective_recovery framing) then fallback "disabled"
  else
    supported ← lift (with_book (λ b, supports b peer.1 now framing));
    granted ← (if supported : bool then lift (with_book (λ b, payload_for_report b peer.1 transfer_id now framing))
               else mret None);
    match granted with
    | None => fallback "stale_or_exhausted"
    | Some rp =>
        let fragment_capacity :=
          default 0%N (fragment_payload_capacity (datagram_payload_budget framing)
                         (N.of_nat (overhead authenticator))) in
        if (fragment_capacity =? 0)%N then fallback "invalid_capacity"
        else if negb (ranges_valid_for (len (rp_payload rp)) 0 ranges) then fallback "invalid_report"
        else
          ok ← metered_resend_ranges transfer_id (rp_payload rp) fragment_capacity peer ranges;
          if negb ok then mret false
          else
            _ ← (if exhausted_after_this_round rp
                 then forgotten ← lift (with_book (λ b, book_forget b peer.1 transfer_id));
                      book ← lift (with_book (λ b, (b, b)));
                      _ ← tell (record_occupancy book); mret forgotten
                 else mret false);
            mret true
    end.

Definition metered_complete (peer : P * N) (transfer_id : id32) : Metered bool :=
  changed ← lift (complete_recovery peer transfer_id);
  book ← lift (with_book (λ b, (b, b)));
  _ ← tell (if changed : bool then record_occupancy book else []);
  mret changed.

Definition metered_expire_recovery (now : N) : Metered ExpireReport :=
  report ← lift (expire_recovery_state framing now);
  _ ← tell (record_outbound_recovery_evictions "ttl" (er_transfers report)
            ++ record_outbound_recovery_state (remaining_transfers report) (remaining_bytes report));
  mret report.

Fixpoint metered_request_missing (port now : N) (requests : list (MissingRequest P)) : Metered unit :=
  match requests with
  | [] => mret tt
  | request :: requests =>
      supported ← lift (with_book (λ b, supports b (mr_peer request) now framing));
      _ ← (if supported : bool then
             match write_missing_report (mr_transfer_id request) (mr_ranges request) with
             | Ok frame => _ ← metered_recovery_control (mr_peer request, port) frame (Some (len (mr_ranges request))); mret tt
             | Err _ => mret tt
             end
           else tell (record_selective_recovery_fallback "unsupported_peer"));
      metered_request_missing port now requests
  end.

(** ** Receiving a frame *)

Definition error_reason (error : FrameError) : string :=
  match error with
  | Empty => "empty"
  | UnknownTag _ => "unknown_tag"
  | TruncatedFragmentHeader => "truncated_header"
  | EmptyFragment => "empty_fragment"
  | InvalidFragmentBounds => "invalid_bounds"
  | LogicalMessageTooLarge => "logical_too_large"
  | TooManyFragments => "too_many_fragments"
  | InconsistentMetadata => "inconsistent_metadata"
  | OverlappingFragment => "overlap"
  | HashMismatch => "hash_mismatch"
  | ReassemblyCapacity => "capacity"
  end.

Definition recovery_error_reason (error : RecoveryControlError) : string :=
  match error with
  | Truncated => "recovery_truncated"
  | InvalidLength => "recovery_length"
  | TooManyRanges => "recovery_ranges"
  | InvalidRange => "recovery_range"
  end.

(** [expire_reassembly] *)
Definition metered_expire_reassembly (reassembler : Reassembler P) (now : N) : Reassembler P * list MetricCall :=
  let '(reassembler, expired) := expire reassembler now in
  (reassembler, record_reassembly_evictions "ttl" expired ++ record_reassembly_bytes (retained_bytes reassembler)).

Definition metered_accept_frame (reassembler : Reassembler P) (peer : P) (payload : Payload Verified)
    (max_missing_ranges now : N) : option (Reassembler P * FrameEvent * list MetricCall) :=
  let bytes := p_bytes payload in
  match parse_recovery_control bytes max_missing_ranges with
  | Ok (Some (Framing.Missing transfer_id ranges)) => Some (reassembler, EvMissing transfer_id ranges, [])
  | Ok (Some (CompleteAck transfer_id)) => Some (reassembler, EvCompleteAck transfer_id, [])
  | Err error =>
      Some (reassembler, EvPending,
            record_reassembly_rejection (recovery_error_reason error) ++ record_datagram_dropped "framing")
  | Ok None =>
      let fragment := fragment_metadata bytes in
      '(reassembler, report) ← accept blake3_hash reassembler peer bytes now;
      let calls :=
        (if fragment_received report then record_fragment_received else [])
        ++ record_reassembly_evictions "ttl" (expired_transfers report)
        ++ record_reassembly_evictions "capacity" (evicted_transfers report)
        ++ record_reassembly_bytes (rr_retained_bytes report) in
      Some (match outcome report with
            | Ok (Complete payload) =>
                (reassembler, Logical payload (fm_transfer_id <$> fragment),
                 calls ++ (if fragment_received report then record_reassembly_completed else []))
            | Ok Pending =>
                (pending_fragment_event reassembler peer fragment max_missing_ranges now, calls)
            | Ok Duplicate =>
                (pending_fragment_event reassembler peer fragment max_missing_ranges now,
                 calls ++ record_reassembly_duplicate)
            | Err error =>
                (reassembler, EvPending,
                 calls ++ record_reassembly_rejection (error_reason error) ++ record_datagram_dropped "framing")
            end)
  end.

Definition metered_retry_idle (reassembler : Reassembler P) (port now : N) : Metered (Reassembler P) :=
  if negb (selective_recovery framing) then mret reassembler
  else
    let limit := max_missing_ranges_for_budget (datagram_payload_budget framing)
                   (N.of_nat (overhead authenticator)) (max_missing_ranges_per_report framing) in
    let '(reassembler, l) := metered_expire_reassembly reassembler now in
    _ ← tell l;
    let '(reassembler, requests) :=
      poll_idle_missing reassembler now (seconds 1) (seconds 3) limit 32 in
    _ ← metered_request_missing port now requests;
    mret reassembler.

(** ** Recording has no effect *)

Definition erases {A} (m : Metered A) (m' : Send A) : Prop := ∀ s, erase m s = m' s.

Lemma erases_ret {A} (a : A) : erases (mret a) (mret a).
Proof. done. Qed.
Lemma erases_lift {A} (m : Send A) : erases (lift m) m.
Proof. done. Qed.
Lemma erases_bind {A B} (m : Metered A) m' (k : A → Metered B) k' :
  erases m m' → (∀ a, erases (k a) (k' a)) → erases (m ≫= k) (m' ≫= k').
Proof.
  intros Hm Hk s. specialize (Hm s). unfold erase, mbind, Metered_bind, Send_bind in *.
  destruct (m s) as [[s1 a] l]. cbn [fst] in Hm. rewrite <- Hm. specialize (Hk a s1). unfold erase in Hk.
  by destruct (k a s1) as [[s2 b] l'].
Qed.
Lemma erases_tell {B} l (k : Metered B) k' : erases k k' → erases (tell l ≫= λ _, k) k'.
Proof. intros Hk s. specialize (Hk s). unfold erase, mbind, Metered_bind, tell in *. by destruct (k s) as [[s2 b] l']. Qed.
Lemma erases_tell_ret l : erases (tell l) (mret tt).
Proof. done. Qed.

Lemma erases_frame frame target : erases (metered_frame frame target) (send_frame_to_retry authenticator wall nonce frame target).
Proof. intros s. unfold erase, metered_frame, mbind, Metered_bind, lift, tell, mret, Metered_ret. by destruct (send_frame_to_retry _ _ _ frame target s). Qed.

Lemma erases_recorded {A} (m : Send A) (f : A → RecoveryBook P → list MetricCall) :
  erases (a ← lift m; book ← lift (with_book (λ b, (b, b))); _ ← tell (f a book); mret a) m.
Proof. intros s. unfold erase, mbind, Metered_bind, lift, tell, mret, Metered_ret. cbn. destruct (m s) as [[] a]. done. Qed.
End metered.

Create HintDb metered discriminated.
#[export] Hint Resolve erases_ret erases_lift erases_tell_ret erases_frame erases_recorded : metered.

(** Walk a metered operation and the one it meters in step. *)
Ltac erasing :=
  repeat first
    [ progress eauto with metered nocore
    | apply erases_tell
    | apply erases_bind; [|intros]
    | case_match
    | progress cbn beta zeta ].

Section erasure.
Context {P : Type} `{Countable P, RustOrd P} `{Mac, Aead} `{MetricsFeature}.
Context (blake3_hash : list byte → id32).
Context (authenticator : Authenticator) (framing : FramingConfig).
Context (wall : N → N) (nonce : N → list byte).

Lemma erases_fragments id total fc (peer : P * N) index cs sent :
  erases (metered_fragments authenticator wall nonce id total fc peer index cs sent)
    (send_fragments authenticator wall nonce id total fc peer index cs sent).
Proof. revert index sent. induction cs; intros; cbn; erasing. Qed.
Hint Resolve erases_fragments : metered.

Lemma erases_payload (peer : P * N) payload now :
  erases (metered_logical_payload blake3_hash authenticator framing wall nonce peer payload now)
    (send_logical_payload blake3_hash authenticator framing wall nonce peer payload now).
Proof. unfold metered_logical_payload, send_logical_payload. erasing. Qed.
Hint Resolve erases_payload : metered.

Lemma erases_pack_loop (peer : P * N) now cap messages buf :
  erases (metered_pack_loop blake3_hash authenticator framing wall nonce peer now cap messages buf)
    (pack_loop blake3_hash authenticator framing wall nonce peer now cap messages buf).
Proof. revert buf. induction messages; intros; cbn; erasing. Qed.
Hint Resolve erases_pack_loop : metered.

Lemma erases_messages (peer : P * N) now cap messages :
  erases (metered_messages blake3_hash authenticator framing wall nonce peer now cap messages)
    (send_messages_paced blake3_hash authenticator framing wall nonce peer now cap messages).
Proof. unfold metered_messages, send_messages_paced. erasing. Qed.

Lemma erases_control (peer : P * N) now cap messages :
  erases (metered_control_batch blake3_hash authenticator framing wall nonce peer now cap messages)
    (send_control_batch_to blake3_hash authenticator framing wall nonce peer now cap messages).
Proof. unfold metered_control_batch, send_control_batch_to. erasing. Qed.

Lemma erases_recovery_control (peer : P * N) frame ranges :
  erases (metered_recovery_control authenticator wall nonce peer frame ranges)
    (send_recovery_control_to authenticator wall nonce peer frame).
Proof. intros s. unfold metered_recovery_control, send_recovery_control_to. rewrite <- erases_frame.
  unfold erase, mbind, Metered_bind, tell, mret, Metered_ret. by destruct (metered_frame _ _ _ frame peer s) as [[]]. Qed.
Hint Resolve erases_recovery_control : metered.

Lemma erases_resend_chunks id total start fc (peer : P * N) relative cs :
  erases (metered_resend_chunks authenticator wall nonce id total start fc peer relative cs)
    (resend_chunks authenticator wall nonce id total start fc peer relative cs).
Proof. revert relative. induction cs; intros; cbn; erasing. Qed.
Hint Resolve erases_resend_chunks : metered.

Lemma erases_resend_ranges id payload fc (peer : P * N) ranges :
  erases (metered_resend_ranges authenticator wall nonce id payload fc peer ranges)
    (resend_ranges authenticator wall nonce id payload fc peer ranges).
Proof. induction ranges as [|[]]; cbn; erasing. Qed.
Hint Resolve erases_resend_ranges : metered.

Lemma erases_retransmit (peer : P * N) id ranges now :
  erases (metered_retransmit authenticator framing wall nonce peer id ranges now)
    (retransmit_missing_to authenticator framing wall nonce peer id ranges now).
Proof. unfold metered_retransmit, retransmit_missing_to. erasing. Qed.

Lemma erases_request_missing port now (requests : list (MissingRequest P)) :
  erases (metered_request_missing authenticator framing wall nonce port now requests)
    (request_missing authenticator framing wall nonce port now requests).
Proof. induction requests; cbn; erasing. Qed.
Hint Resolve erases_request_missing : metered.

Lemma erases_retry_idle (ra : Reassembler P) port now :
  erases (metered_retry_idle authenticator framing wall nonce ra port now)
    (retry_idle_incomplete authenticator framing wall nonce ra port now).
Proof. unfold metered_retry_idle, retry_idle_incomplete, metered_expire_reassembly.
  case_match; [erasing|]. destruct (expire ra now) as [ra' expired]. erasing. Qed.

Lemma erases_expire_recovery now : erases (metered_expire_recovery framing now) (expire_recovery_state (P := P) framing now).
Proof. intros s. unfold metered_expire_recovery, erase, mbind, Metered_bind, lift, tell, mret, Metered_ret. by destruct (expire_recovery_state framing now s). Qed.

Lemma erases_complete (peer : P * N) id : erases (metered_complete peer id) (complete_recovery peer id).
Proof. apply (erases_recorded _ (λ changed book, if changed : bool then record_occupancy book else [])). Qed.

Lemma erases_accept_frame (ra : Reassembler P) peer pl max now :
  fst <$> metered_accept_frame blake3_hash ra peer pl max now = accept_frame blake3_hash ra peer pl max now.
Proof.
  unfold metered_accept_frame, accept_frame. repeat case_match; try done.
  destruct (accept _ _ _ _ _) as [[ra' rep]|]; [|done]. cbn. by destruct (outcome rep) as [[]|].
Qed.

Lemma erases_expire_reassembly (ra : Reassembler P) now : (metered_expire_reassembly ra now).1 = expire_reassembly ra now.
Proof. unfold metered_expire_reassembly, expire_reassembly. by destruct (expire ra now). Qed.
End erasure.

(** ** The counters of the sending path are exact *)

Definition egress_metrics : list Metric :=
  [MESSAGES_SENT_TOTAL; BYTES_SENT_TOTAL; SEND_FAILURES_TOTAL; VALUES_OVERSIZED_TOTAL; FRAGMENTED_MESSAGES_TOTAL;
   FRAGMENTS_SENT_TOTAL; SELECTIVE_RECOVERY_REQUESTS_TOTAL; SELECTIVE_RECOVERY_MISSING_RANGES_TOTAL;
   SELECTIVE_RECOVERY_RETRANSMITTED_FRAGMENTS_TOTAL; SELECTIVE_RECOVERY_RETRANSMITTED_BYTES_TOTAL;
   SELECTIVE_RECOVERY_CONTROL_BYTES_TOTAL; SELECTIVE_RECOVERY_COMPLETION_ACKS_TOTAL; SELECTIVE_RECOVERY_FALLBACKS_TOTAL;
   OUTBOUND_RECOVERY_TRANSFERS_CURRENT; OUTBOUND_RECOVERY_BYTES_CURRENT; OUTBOUND_RECOVERY_EVICTIONS_TOTAL].

(** The sends the transport accepted, with the bytes it reported. *)
Definition accepted (answers : list (result N unit)) : list N :=
  omap (λ r, match r with Ok sent => Some sent | Err _ => None end) answers.
Definition sum (l : list N) : N := foldr N.add 0%N l.

Lemma accepted_app l l' : accepted (l ++ l') = accepted l ++ accepted l'.
Proof. apply omap_app. Qed.
Lemma sum_app l l' : sum (l ++ l') = (sum l + sum l')%N.
Proof. unfold sum. induction l as [|n l IH]; [done|]. cbn [app foldr]. rewrite IH. lia. Qed.

Create HintDb counted discriminated.

Section accounting.
Context {P : Type} `{Countable P, RustOrd P} `{Mac, Aead} `{MetricsFeature}.
Context (blake3_hash : list byte → id32).
Context (authenticator : Authenticator) (framing : FramingConfig).
Context (wall : N → N) (nonce : N → list byte).
Context (Hon : metrics_on = true).
Notation SendState := (SendState (P := P)).

(** From [s] to [s'] recording [l], with [spare] fragments accounted for before. *)
Record egress (spare : N) (s s' : SendState) (l : list MetricCall) : Prop := {
  eg_frames : ∃ frames, s_log s' = s_log s ++ frames ∧
    (total MESSAGES_SENT_TOTAL l + total SEND_FAILURES_TOTAL l = len frames)%N;
  eg_answers : ∃ answers, s_net s = answers ++ s_net s' ∧
    total MESSAGES_SENT_TOTAL l = len (accepted answers) ∧ total BYTES_SENT_TOTAL l = sum (accepted answers);
  eg_fragments : (total SELECTIVE_RECOVERY_RETRANSMITTED_FRAGMENTS_TOTAL l ≤ total FRAGMENTS_SENT_TOTAL l
    ≤ total MESSAGES_SENT_TOTAL l + spare)%N;
  eg_only : Forall (λ c, metric_of c ∈ egress_metrics) l;
  eg_ok : calls_ok l;
}.
Definition counts {A} (spare : N) (m : Metered (P := P) A) : Prop := ∀ s, egress spare s (m s).1.1 (m s).2.

Lemma egress_silent s s' l : s_log s' = s_log s → s_net s' = s_net s → Forall (λ c, metric_of c ∈ egress_metrics) l → calls_ok l →
  Forall (λ m, total m l = 0%N) [MESSAGES_SENT_TOTAL; SEND_FAILURES_TOTAL; BYTES_SENT_TOTAL; FRAGMENTS_SENT_TOTAL;
                                SELECTIVE_RECOVERY_RETRANSMITTED_FRAGMENTS_TOTAL] → egress 0 s s' l.
Proof.
  intros Hlog Hnet Ho Hk Hz. rewrite !Forall_cons in Hz. destruct Hz as (Z1 & Z2 & Z3 & Z4 & Z5 & _).
  split; [exists []|exists []|..]; rewrite ?app_nil_r, ?Z1, ?Z2, ?Z3, ?Z4, ?Z5; done.
Qed.

Lemma egress_trans n s s1 s' l l' : egress n s s1 l → egress 0 s1 s' l' → egress n s s' (l ++ l').
Proof.
  intros [(f & Hf & Hfl) (a & Ha & Ham & Hab) Hfr Ho Hk] [(f' & Hf' & Hfl') (a' & Ha' & Ham' & Hab') Hfr' Ho' Hk'].
  split.
  - exists (f ++ f'). rewrite Hf', Hf, app_assoc, !total_app, length_app. split; [done|]. lia.
  - exists (a ++ a'). rewrite Ha, Ha', <- app_assoc, !total_app, accepted_app, sum_app, length_app. split; [done|]. lia.
  - rewrite !total_app. lia.
  - by apply Forall_app.
  - by apply calls_ok_app.
Qed.

Lemma counts_bind {A B} n (m : Metered A) (k : A → Metered B) : counts n m → (∀ a, counts 0 (k a)) → counts n (m ≫= k).
Proof.
  intros Hm Hk s. specialize (Hm s). unfold mbind, Metered_bind. destruct (m s) as [[s1 a] l]. specialize (Hk a s1).
  destruct (k a s1) as [[s2 b] l']. cbn [fst snd] in *. by eapply egress_trans.
Qed.

Lemma counts_ret {A} (a : A) : counts 0 (mret a).
Proof. intros s. apply egress_silent; try done. all: repeat constructor. Qed.

Lemma counts_book {A} (f : RecoveryBook P → RecoveryBook P * A) : counts 0 (lift (with_book f)).
Proof. intros s. unfold lift, with_book. cbn. destruct (f (s_book s)). apply egress_silent; try done. all: repeat constructor. Qed.

(** A call of a metric that counts no datagram. *)
Definition side_call (c : MetricCall) : bool :=
  bool_decide (metric_of c ∈ egress_metrics) && call_ok c &&
  bool_decide (metric_of c ∉ [MESSAGES_SENT_TOTAL; SEND_FAILURES_TOTAL; BYTES_SENT_TOTAL; FRAGMENTS_SENT_TOTAL;
                              SELECTIVE_RECOVERY_RETRANSMITTED_FRAGMENTS_TOTAL]).

Lemma side_call_spec c : side_call c = true → metric_of c ∈ egress_metrics ∧ call_ok c = true ∧
  metric_of c ∉ [MESSAGES_SENT_TOTAL; SEND_FAILURES_TOTAL; BYTES_SENT_TOTAL; FRAGMENTS_SENT_TOTAL;
                 SELECTIVE_RECOVERY_RETRANSMITTED_FRAGMENTS_TOTAL].
Proof. unfold side_call. rewrite !andb_true_iff, !bool_decide_eq_true. tauto. Qed.

Lemma counts_tell l : Forall (λ c, side_call c = true) l → counts 0 (tell l).
Proof.
  intros Hl s. pose proof (Forall_impl _ _ _ Hl side_call_spec) as Hs. clear Hl. apply egress_silent; [done|done|..]; cbn [tell fst snd].
  - eapply Forall_impl; [exact Hs|]. by intros c [? _].
  - eapply Forall_impl; [exact Hs|]. by intros c (_ & ? & _).
  - apply Forall_forall. intros m Hm. unfold total. induction Hs as [|c l (_ & _ & Hc) _ IH]; [done|].
    cbn [foldr]. rewrite IH. destruct c; cbn [metric_of] in Hc; cbn; try done. by rewrite decide_False by (by intros ->).
Qed.

Lemma attempt_spec n net : let '(net', res) := attempt n net in
  ∃ answers, net = answers ++ net' ∧ accepted answers = match res with Ok sent => [sent] | Err _ => [] end.
Proof.
  revert net. induction n as [|n IH]; intros net; cbn; [by exists []|].
  destruct net as [|[sent|e] net]; [by exists []|by exists [Ok sent]|].
  destruct n; [by exists [Err e]|]. specialize (IH net). destruct (attempt _ net) as [net' res].
  destruct IH as (answers & -> & Ha). by exists (Err e :: answers).
Qed.

Lemma egress_frame frame target s :
  let '(s', res, l) := metered_frame authenticator wall nonce frame target s in
  egress 0 s s' l ∧ total FRAGMENTS_SENT_TOTAL l = 0%N ∧
  total MESSAGES_SENT_TOTAL l = match res with Ok _ => 1%N | Err _ => 0%N end.
Proof.
  unfold metered_frame, mbind, Metered_bind, lift, send_frame_to_retry, tell, mret, Metered_ret.
  destruct (SenderCounter.next_seq (s_counter s)) as [c seq]. destruct (SenderCounter.next_stamp_at c (wall seq)) as [c' stamp].
  pose proof (attempt_spec MAX_SENDTO_RETRIES (s_net s)) as Ha. destruct (attempt MAX_SENDTO_RETRIES (s_net s)) as [net res].
  destruct Ha as (answers & Hn & Ha). unfold record_bytes_sent, record_send_failure, calls. rewrite Hon. split.
  - split; cbn [s_log s_net fst snd].
    + eexists. split; [done|]. by destruct res.
    + exists answers. split; [done|]. rewrite Ha. destruct res; tally; done.
    + destruct res; tally; done.
    + destruct res; decided.
    + destruct res; decided.
  - by destruct res.
Qed.

Lemma counts_frame {A} frame target (k : result N unit → Metered A) :
  (∀ sent, counts 1 (k (Ok sent))) → (∀ e, counts 0 (k (Err e))) →
  counts 0 (metered_frame authenticator wall nonce frame target ≫= k).
Proof.
  intros Hok Herr s. pose proof (egress_frame frame target s) as Hf. unfold mbind, Metered_bind.
  destruct (metered_frame _ _ _ frame target s) as [[s1 res] l]. destruct Hf as (Hf & Hz & Hm).
  assert (Hk : egress (match res with Ok _ => 1 | Err _ => 0 end) s1 (k res s1).1.1 (k res s1).2) by (destruct res; [apply Hok|apply Herr]).
  destruct (k res s1) as [[s2 b] l']. cbn [fst snd] in *.
  destruct Hf as [(f & Hf & Hfl) (a & Ha & Ham & Hab) Hfr Ho Hc], Hk as [(f' & Hf' & Hfl') (a' & Ha' & Ham' & Hab') Hfr' Ho' Hc'].
  split.
  - exists (f ++ f'). rewrite Hf', Hf, app_assoc, !total_app, length_app. split; [done|]. lia.
  - exists (a ++ a'). rewrite Ha, Ha', <- app_assoc, !total_app, accepted_app, sum_app, length_app. split; [done|]. lia.
  - rewrite !total_app. lia.
  - by apply Forall_app.
  - by apply calls_ok_app.
Qed.

Lemma counts_frame_alone frame target : counts 0 (metered_frame authenticator wall nonce frame target).
Proof. intros s. pose proof (egress_frame frame target s) as Hf. destruct (metered_frame _ _ _ _ _ s) as [[? ?] ?]. apply Hf. Qed.

Lemma counts_spare {A} (m : Metered A) : counts 0 m → counts 1 m.
Proof. intros Hm s. destruct (Hm s). split; try done. lia. Qed.

(** A fragment is counted after the datagram that carried it. *)
Lemma counts_fragment {A} l (k : Metered A) :
  l = record_fragment_sent ∨ (∃ n, l = record_fragment_sent ++ record_selective_retransmit n) →
  counts 0 k → counts 1 (tell l ≫= λ _, k).
Proof.
  intros Hl Hk. apply counts_bind; [|by intros]. intros s. unfold tell. cbn [fst snd].
  destruct Hl as [->|[n ->]]; unfold record_fragment_sent, record_selective_retransmit, calls; rewrite Hon;
    (split; [exists []|exists []|..]; rewrite ?app_nil_r; [done|done|by tally|decided|]).
  all: repeat constructor.
Qed.

(** The calls of the helpers, feature on, whatever their arguments. *)
Ltac side_calls :=
  unfold retain_calls, record_occupancy, record_value_oversized, record_fragmented_message, record_selective_recovery_fallback,
    record_outbound_recovery_evictions, record_outbound_recovery_state, record_selective_recovery_request, record_completion_ack, calls;
  rewrite ?Hon; repeat case_match; repeat (apply Forall_app; split); repeat constructor.
Ltac counting :=
  repeat first
    [ progress eauto with counted nocore
    | apply counts_tell; solve [side_calls]
    | apply counts_bind; [|intros]
    | case_match
    | progress cbn beta zeta ].
#[local] Hint Resolve counts_ret counts_book counts_frame_alone : counted.

Lemma counts_fragments id total fc (peer : P * N) index cs sent :
  counts 0 (metered_fragments authenticator wall nonce id total fc peer index cs sent).
Proof.
  revert index sent. induction cs as [|c cs IH]; intros index sent; cbn; [counting|]. case_match; [|counting].
  apply counts_frame; intros; [apply counts_fragment; [by left|apply IH]|]. apply counts_bind; [counting|intros; apply IH].
Qed.
#[local] Hint Resolve counts_fragments : counted.

Lemma counts_payload (peer : P * N) payload now :
  counts 0 (metered_logical_payload blake3_hash authenticator framing wall nonce peer payload now).
Proof. unfold metered_logical_payload. counting. Qed.
#[local] Hint Resolve counts_payload : counted.

Lemma counts_pack_loop (peer : P * N) now cap messages buf :
  counts 0 (metered_pack_loop blake3_hash authenticator framing wall nonce peer now cap messages buf).
Proof. revert buf. induction messages; intros; cbn; counting. Qed.
#[local] Hint Resolve counts_pack_loop : counted.

Lemma counts_messages (peer : P * N) now cap messages :
  counts 0 (metered_messages blake3_hash authenticator framing wall nonce peer now cap messages).
Proof. unfold metered_messages. counting. Qed.

Lemma counts_control (peer : P * N) now cap messages :
  counts 0 (metered_control_batch blake3_hash authenticator framing wall nonce peer now cap messages).
Proof. unfold metered_control_batch. counting. Qed.

Lemma counts_recovery_control (peer : P * N) frame ranges :
  counts 0 (metered_recovery_control authenticator wall nonce peer frame ranges).
Proof. unfold metered_recovery_control. counting. Qed.
#[local] Hint Resolve counts_recovery_control : counted.

Lemma counts_resend_chunks id total start fc (peer : P * N) relative cs :
  counts 0 (metered_resend_chunks authenticator wall nonce id total start fc peer relative cs).
Proof.
  revert relative. induction cs as [|c cs IH]; intros relative; cbn; [counting|]. case_match; [|counting].
  apply counts_frame; intros; [|counting]. apply counts_fragment; [right; by eexists|apply IH].
Qed.
#[local] Hint Resolve counts_resend_chunks : counted.

Lemma counts_resend_ranges id payload fc (peer : P * N) ranges :
  counts 0 (metered_resend_ranges authenticator wall nonce id payload fc peer ranges).
Proof. induction ranges as [|[]]; cbn; counting. Qed.
#[local] Hint Resolve counts_resend_ranges : counted.

Lemma counts_retransmit (peer : P * N) id ranges now :
  counts 0 (metered_retransmit authenticator framing wall nonce peer id ranges now).
Proof. unfold metered_retransmit. counting. Qed.

Lemma counts_complete (peer : P * N) id : counts 0 (metered_complete peer id).
Proof. unfold metered_complete, complete_recovery. counting. Qed.

Lemma counts_expire_recovery now : counts 0 (metered_expire_recovery framing now).
Proof. unfold metered_expire_recovery, expire_recovery_state. counting. Qed.

Lemma counts_request_missing port now (requests : list (MissingRequest P)) :
  counts 0 (metered_request_missing authenticator framing wall nonce port now requests).
Proof. induction requests; cbn; counting. Qed.
End accounting.
