(* ===== verification/MeteredEngine.v ===== *)
(** * The engine's loops with their metrics ([src/replica/run.rs], [dispatch.rs], [reconciliation.rs],
      [repair.rs], [pacing.rs])

    The steps of [Engine] and [Round] with what they record, over the sends of [Metering]. A run of
    them without its calls is a run of the engine, and its counters and gauges say what happened.
    The calls of a pre-insert hook are not here, a hook being what it is called with. *)
From stdpp Require Import gmap list strings.
From Stdlib Require Import NArith.
From Stdlib.Strings Require Import Byte.
From S2P Require Import Prelude Bytes Replay Auth Framing Reassembly Missing RecoveryBook FramedSend Admission Ingress.
From S2P Require Import Journal SignedCausal Messages Replica Dumps Repair Engine Writes Round Metrics Metering.

Section engine.
Context {K V S E C St P Ag R Net : Type} `{Countable K, Countable P} `{Lww V S E C} `{!EntryState V S E St}.
Context `{!RustOrd K, !RustOrd S, !RustOrd P} `{!EqDecision S} `{Mac, Aead} `{EqDecision Net} `{MetricsFeature}.
Notation Msg := (Message Ag K E St).
Notation Addr := (P * N)%type.
Context (blake3_hash : list byte → id32) (wall : N → N) (nonce : N → list byte).
Context (encode : Msg → list byte) (deserialize : list byte → result (Msg * list byte) DeserializeError).
Context (entries_in : gmap K E → EnumerationRange K → list (K * E)) (states_in : gmap K St → EnumerationRange K → list (K * St)).
Context (dated_round : gmap K E → list Ag → R → list Ag * list (EnumerationRange K) * R)
        (value_round : gmap K St → list Ag → R → list Ag * list (EnumerationRange K) * R)
        (comparison_fingerprint : list Ag → id32).
Context (initial_ranges : gmap K E → list Ag) (contains : Net → P → bool) (shuffle : R → list P → list P * R).
Context (authenticator : Authenticator) (framing : FramingConfig).
Context (max_peers max_concurrent_bulk_dumps repair_interval port : N).
Notation Eng := (Engine (K := K) (E := E) (C := C) (St := St) (P := P) (Ag := Ag) (R := R)).
Notation Metered := (Metered (P := P)).
Implicit Types (e : Eng).

(** ** An engine step that also records; [None] is a panic *)

Definition Step (A : Type) : Type := Eng → option (Eng * A * list MetricCall).
#[global] Instance Step_ret : MRet Step := λ A a e, Some (e, a, []).
#[global] Instance Step_bind : MBind Step := λ A B k m e,
  '(e, a, l) ← m e; '(e, b, l') ← k a e; Some (e, b, l ++ l').

Definition get : Step Eng := λ e, Some (e, e, []).
Definition modify (f : Eng → Eng) : Step unit := λ e, Some (f e, tt, []).
Definition try_modify (f : Eng → option Eng) : Step unit := λ e, e ← f e; Some (e, tt, []).
Definition record (l : list MetricCall) : Step unit := λ e, Some (e, tt, l).
Definition sending {A} (m : Metered A) : Step A := λ e,
  let '(s, a, l) := m (en_send e) in Some (run_send e (λ _, (s, a)), l).

(** ** Handlers of a decoded batch *)

Definition step_send (peer : Addr) (now : N) (messages : list Msg) : Step unit :=
  sending (metered_messages blake3_hash authenticator framing wall nonce peer now (encoded_capability encode) (encode <$> messages)).
Definition step_control (peer : Addr) (now : N) (messages : list Msg) : Step unit :=
  sending (metered_control_batch blake3_hash authenticator framing wall nonce peer now (encoded_capability encode) (encode <$> messages)).

Definition step_dated_comparison (in_comparison : list Ag) (peer : Addr) (now : N) : Step unit :=
  match in_comparison with
  | [] => mret tt
  | _ =>
      let fp := comparison_fingerprint in_comparison in
      e ← get;
      let '(out_comparison, differences, rng) := dated_round (rp_map (en_replica e)) in_comparison (en_rng e) in
      _ ← modify (λ e, set_rng e rng);
      _ ← (match out_comparison with [] => mret tt | _ => step_control peer now (EntryFingerprint <$> out_comparison) end);
      _ ← (match differences with
           | [] => mret tt
           | _ => try_modify (λ e,
                    '(d, t) ← start_dated_dump fst entries_in max_concurrent_bulk_dumps (en_dumps e) (rp_map (en_replica e))
                                differences peer fp now;
                    Some (set_dump e d (en_tasks e ++ option_list t)))
           end);
      match out_comparison, differences with [], [] => step_send peer now [ConvergenceAck] | _, _ => mret tt end
  end.

Definition step_updates (updates : list (K * E)) (peer : Addr) (now : N)
    (meanwhile : Replica K E St P → Replica K E St P) : Step unit :=
  match updates with
  | [] => mret tt
  | _ =>
      _ ← record (record_updates_received (len updates));
      _ ← modify (λ e, set_contacts e (note_pending_repair (en_repairs e) peer.1 now repair_interval)
                         (<[peer.1 := now]> (en_receiving e)) (en_peers e));
      e ← get;
      let '(r, c, acks) := apply_dated_updates (en_replica e) (en_clock e) updates meanwhile in
      _ ← modify (λ e, set_replica e r c);
      match acks with [] => mret tt | _ => step_send peer now (TombstoneAck <$> acks) end
  end.

Definition step_value_comparison (in_comparison : list Ag) (peer : Addr) (now : N) : Step unit :=
  match in_comparison with
  | [] => mret tt
  | _ =>
      let fp := comparison_fingerprint in_comparison in
      e ← get;
      let '(out_comparison, differences, rng) := value_round (rp_projection (en_replica e)) in_comparison (en_rng e) in
      _ ← modify (λ e, set_rng e rng);
      _ ← (match out_comparison with [] => mret tt | _ => step_control peer now (StateFingerprint <$> out_comparison) end);
      match differences with
      | [] => mret tt
      | _ => try_modify (λ e,
               '(d, t) ← start_value_dump fst states_in max_concurrent_bulk_dumps (en_dumps e) (rp_projection (en_replica e))
                           differences peer fp now;
               Some (set_dump e d (en_tasks e ++ option_list t)))
      end
  end.

(** [later] is the clock when the batch has been handled. *)
Definition step_messages (payload : list byte) (peer : Addr) (now later : N)
    (meanwhile : Replica K E St P → Replica K E St P) : Step bool :=
  let start := timer now in
  match decode_datagram deserialize payload with
  | None => _ ← record (record_datagram_dropped "malformed"); mret false
  | Some batch =>
      _ ← (if selective_recovery_capability batch
           then sending (lift (with_book (λ b, (record_capability b peer.1 now framing max_peers, tt)))) else mret tt);
      _ ← modify (λ e, set_replica e (record_tombstone_acks (en_replica e) (tombstone_acks batch) peer.1) (en_clock e));
      _ ← step_dated_comparison (dated_ranges batch) peer now;
      _ ← step_updates (dated_updates batch) peer now meanwhile;
      _ ← step_value_comparison (value_ranges batch) peer now;
      _ ← record (record_handle_duration start later);
      mret (spoke_dated batch)
  end.

Definition step_payload (payload : list byte) (peer : Addr) (now later : N)
    (meanwhile : Replica K E St P → Replica K E St P) : Step unit :=
  _ ← modify (λ e, set_contacts e (clear_repair (en_repairs e) peer.1) (en_receiving e) (en_peers e));
  dated ← step_messages payload peer now later meanwhile;
  if dated : bool then
    modify (λ e, let e := set_contacts e (en_repairs e) (en_receiving e) (<[peer.1 := now]> (en_peers e)) in
                 set_replica e (admit_member (en_replica e) peer.1) (en_clock e))
  else mret tt.

(** ** One datagram of [recv_loop] *)

Definition step_supports (peer : Addr) (now : N) : Step bool :=
  sending (lift (with_book (λ b, supports b peer.1 now framing))).

Definition step_frame_event (ev : FrameEvent) (peer : Addr) (now later : N)
    (meanwhile : Replica K E St P → Replica K E St P) : Step unit :=
  match ev with
  | Logical payload completed_transfer =>
      _ ← (match completed_transfer with
           | Some transfer_id =>
               supported ← step_supports peer now;
               if supported : bool then
                 _ ← sending (metered_recovery_control authenticator wall nonce peer (write_completion_ack transfer_id) None);
                 mret tt
               else mret tt
           | None => mret tt
           end);
      step_payload payload peer now later meanwhile
  | RequestMissing transfer_id ranges =>
      supported ← step_supports peer now;
      if supported : bool then
        match write_missing_report transfer_id ranges with
        | Ok frame => _ ← sending (metered_recovery_control authenticator wall nonce peer frame (Some (len ranges))); mret tt
        | Err _ => mret tt
        end
      else record (record_selective_recovery_fallback "unsupported_peer")
  | EvMissing transfer_id ranges =>
      _ ← sending (metered_retransmit authenticator framing wall nonce peer transfer_id ranges now); mret tt
  | EvCompleteAck transfer_id => _ ← sending (metered_complete peer transfer_id); mret tt
  | EvPending => mret tt
  end.

Definition rejection_reason (r : InboundRejection) : string :=
  match r with
  | Authentication => "bad_mac"
  | Version _ => "version"
  | PeerCapReached _ _ => "peer_cap"
  | ReplayRejected _ _ => "replay"
  end.

(** A longer datagram fills the buffer of [BUFFER_SIZE + 1] bytes. *)
Definition step_datagram (datagram : list byte) (peer : Addr) (now_ms now later : N)
    (meanwhile : Replica K E St P → Replica K E St P) : Step unit :=
  _ ← record (record_bytes_received (N.min (len datagram) (BUFFER_SIZE + 1)));
  if (BUFFER_SIZE <? len datagram)%N then record (record_datagram_dropped "too_large")
  else
    e ← get;
    let '(f, admitted) :=
      admit_inbound authenticator (en_replay e) max_peers peer.1 datagram
        (λ _, (bool_decide (peer.1 ∈ rp_members (en_replica e)), N.of_nat (size (rp_members (en_replica e))))) now_ms in
    match admitted with
    | Err rejection =>
        _ ← modify (λ e, set_inbound e f (en_reassembler e));
        record (record_datagram_dropped (rejection_reason rejection))
    | Ok payload =>
        match metered_accept_frame blake3_hash (en_reassembler e) peer.1 payload (max_missing_ranges authenticator framing) now with
        | None => λ _, None
        | Some (ra, ev, l) =>
            _ ← modify (λ e, set_inbound e f ra);
            _ ← record l;
            step_frame_event ev peer now later meanwhile
        end
    end.

(** A receive that failed. *)
Definition step_recv_error : Step unit := record (record_datagram_dropped "recv_error").

(** ** Rounds and timers *)

(** [send_to_retry]: with a recovery book of its own. *)
Definition metered_send_to_retry (target : Addr) (payload : list byte) (now : N) : Metered (option (result N unit)) := λ s,
  let '(s', res, l) := metered_logical_payload blake3_hash authenticator framing wall nonce target payload now
    {| s_counter := s_counter s; s_book := book_for_identity; s_net := s_net s; s_log := s_log s |} in
  ({| s_counter := s_counter s'; s_book := s_book s; s_net := s_net s'; s_log := s_log s' |}, res, l).

Fixpoint step_contact_all (targets : list P) (payload : list byte) (now : N) : Step unit :=
  match targets with
  | [] => mret tt
  | peer :: targets =>
      _ ← sending (metered_send_to_retry (peer, port) payload now);
      _ ← modify (λ e, set_contacts e (note_pending_repair (en_repairs e) peer now repair_interval) (en_receiving e) (en_peers e));
      step_contact_all targets payload now
  end.

(** [broadcasts_in_flight] belongs to the public map; [later] is the clock at the end of the round. *)
Definition step_round (rd : RoundState (K := K) (P := P) (Net := Net)) (discovered : list P) (now later broadcasts_in_flight : N)
    : Step (RoundState (K := K) (P := P) (Net := Net)) :=
  let start := timer now in
  _ ← record record_reconcile_round;
  e ← get;
  let payload := comparison_payload encode initial_ranges framing (rp_map (en_replica e)) in
  let '(peers, known) := get_peers (en_peers e) now in
  let live_tombstones_len := N.of_nat (size (rp_live_tombstones (en_replica e))) in
  let total_entries := N.of_nat (size (rp_map (en_replica e))) in
  _ ← record (record_state_gauges (len known) (N.of_nat (size (rp_members (en_replica e))))
                (live_entry_count total_entries live_tombstones_len) live_tombstones_len
                (bulk_dumps_in_flight (en_dumps e)) broadcasts_in_flight);
  let '(rng, targets) := round_targets contains shuffle (rd_topology rd) (rd_round rd) (en_rng e) discovered known
                           (en_receiving e) now repair_interval in
  let '(payload, cursor, acks) := resend_held_tombstone_acks (λ k version, encode (TombstoneAck (k, version)))
                                    (rp_live_tombstones (en_replica e)) (rp_map (en_replica e)) (rd_cursor rd) payload in
  _ ← record (match elements (rp_live_tombstones (en_replica e)) with [] => [] | _ => record_tombstone_acks_resent (len acks) end);
  _ ← modify (λ e, set_rng (set_contacts e (en_repairs e) (en_receiving e) peers) rng);
  _ ← step_contact_all (elements targets) payload now;
  _ ← record (record_round_duration start later);
  mret {| rd_round := ((rd_round rd + 1) mod (u32_max + 1))%N; rd_last := Some now; rd_cursor := cursor; rd_topology := rd_topology rd |}.

Definition step_idle (rd : RoundState (K := K) (P := P) (Net := Net)) (discovered : list P) (now later broadcasts_in_flight : N)
    : Step (RoundState (K := K) (P := P) (Net := Net)) :=
  e ← get;
  let '(ra, l) := metered_expire_reassembly (en_reassembler e) now in
  _ ← modify (λ e, set_inbound e (en_replay e) ra);
  _ ← record l;
  _ ← sending (metered_expire_recovery framing now);
  step_round rd discovered now later broadcasts_in_flight.

Fixpoint step_repairs (due : list P) (now : N) : Step unit :=
  match due with
  | [] => mret tt
  | peer :: due =>
      e ← get;
      _ ← sending (metered_send_to_retry (peer, port) (comparison_payload encode initial_ranges framing (rp_map (en_replica e))) now);
      step_repairs due now
  end.

Definition step_repair_tick (now : N) : Step unit :=
  e ← get;
  let '(repairs, due) := retry_due_repairs (en_repairs e) now repair_interval in
  _ ← modify (λ e, set_contacts e repairs (en_receiving e) (en_peers e));
  step_repairs due now.

Definition step_recovery_tick (now : N) : Step unit :=
  e ← get;
  ra ← sending (metered_retry_idle authenticator framing wall nonce (en_reassembler e) port now);
  modify (λ e, set_inbound e (en_replay e) ra).

Definition step_dump_turn (t : DumpTask (A := Addr) (Ag := Ag) (K := K) (E := E) (St := St)) (messages : list Msg) (now : N)
    : Step (DumpTask (A := Addr) (Ag := Ag) (K := K) (E := E) (St := St)) :=
  _ ← step_send (dt_peer t) now messages;
  e ← get;
  let '(d, t) := drain_stash entries_in states_in (en_dumps e) (rp_map (en_replica e)) (rp_projection (en_replica e)) t in
  _ ← modify (λ e, set_dump e d (en_tasks e));
  mret t.

Definition step_broadcast_turn (peer : P) (updates : list (K * E)) (now : N) : Step unit :=
  _ ← step_send (peer, port) now (EntryUpdate <$> updates);
  modify (λ e, set_contacts e (note_pending_repair (en_repairs e) peer now repair_interval) (en_receiving e) (en_peers e)).

(** ** Recording has no effect *)

Definition plain {A} (m : Step A) (e : Eng) : option (Eng * A) := fst <$> m e.

Lemma plain_ret {A} (a : A) e : plain (mret a) e = Some (e, a).
Proof. done. Qed.
Lemma plain_bind {A B} (m : Step A) (k : A → Step B) e : plain (m ≫= k) e = '(e, a) ← plain m e; plain (k a) e.
Proof.
  unfold plain. change ((m ≫= k) e) with (Step_bind A B k m e). unfold Step_bind. destruct (m e) as [[[e1 a] l]|]; [|done]. cbn.
  by destruct (k a e1) as [[[e2 b] l']|].
Qed.
Lemma plain_get e : plain get e = Some (e, e).
Proof. done. Qed.
Lemma plain_modify f e : plain (modify f) e = Some (f e, tt).
Proof. done. Qed.
Lemma plain_try f e : plain (try_modify f) e = (λ e, (e, tt)) <$> f e.
Proof. unfold plain, try_modify. by destruct (f e). Qed.
Lemma plain_record l e : plain (record l) e = Some (e, tt).
Proof. done. Qed.
Lemma plain_sending {A} (m : Metered A) m' e : erases m m' → plain (sending m) e = Some (run_send e m').
Proof.
  intros Hm. specialize (Hm (en_send e)). unfold plain, sending, run_send. unfold erase in Hm. rewrite <- Hm.
  by destruct (m (en_send e)) as [[s a] l].
Qed.
Lemma plain_lift {A} (m : Send (P := P) A) e : plain (sending (lift m)) e = Some (run_send e m).
Proof. apply plain_sending, erases_lift. Qed.
Lemma plain_send peer now messages e :
  plain (step_send peer now messages) e = Some (send_to blake3_hash wall nonce encode authenticator framing e peer now messages, tt).
Proof. unfold step_send, send_to. rewrite (plain_sending _ _ _ (erases_messages _ _ _ _ _ _ _ _ _)). by destruct (run_send e _) as [? []]. Qed.
Lemma plain_control peer now messages e :
  plain (step_control peer now messages) e = Some (send_control_to blake3_hash wall nonce encode authenticator framing e peer now messages, tt).
Proof. unfold step_control, send_control_to. rewrite (plain_sending _ _ _ (erases_control _ _ _ _ _ _ _ _ _)). by destruct (run_send e _) as [? []]. Qed.

Ltac plain := repeat first [rewrite plain_bind | rewrite plain_get | rewrite plain_modify | rewrite plain_record | rewrite plain_ret
  | rewrite plain_send | rewrite plain_control | rewrite plain_try | rewrite plain_lift | progress cbn [mbind option_bind fmap option_fmap option_map]].

Lemma plain_dated inc peer now e : plain (step_dated_comparison inc peer now) e =
  (λ e, (e, tt)) <$> handle_dated_comparison blake3_hash wall nonce encode entries_in dated_round comparison_fingerprint authenticator framing
    max_concurrent_bulk_dumps e inc peer now.
Proof.
  unfold step_dated_comparison, handle_dated_comparison. destruct inc as [|a inc]; [done|]. plain.
  destruct (dated_round _ _ _) as [[out differences] rng]. plain. destruct out, differences; plain; try done.
  all: destruct (start_dated_dump _ _ _ _ _ _ _ _ _) as [[]|]; by plain.
Qed.

Lemma plain_value inc peer now e : plain (step_value_comparison inc peer now) e =
  (λ e, (e, tt)) <$> handle_value_comparison blake3_hash wall nonce encode states_in value_round comparison_fingerprint authenticator framing
    max_concurrent_bulk_dumps e inc peer now.
Proof.
  unfold step_value_comparison, handle_value_comparison. destruct inc as [|a inc]; [done|]. plain.
  destruct (value_round _ _ _) as [[out differences] rng]. plain. destruct out, differences; plain; try done.
Qed.

Lemma plain_updates updates peer now meanwhile e : plain (step_updates updates peer now meanwhile) e =
  Some (handle_updates blake3_hash wall nonce encode authenticator framing repair_interval e updates peer now meanwhile, tt).
Proof.
  unfold step_updates, handle_updates. destruct updates as [|u updates]; [done|]. plain.
  destruct (apply_dated_updates _ _ _ _) as [[r c] acks]. plain. by destruct acks; plain.
Qed.

Lemma plain_messages payload peer now later meanwhile e : plain (step_messages payload peer now later meanwhile) e =
  handle_messages blake3_hash wall nonce encode deserialize entries_in states_in dated_round value_round comparison_fingerprint
    authenticator framing max_peers max_concurrent_bulk_dumps repair_interval e payload peer now meanwhile.
Proof.
  unfold step_messages, handle_messages. destruct (decode_datagram deserialize payload) as [batch|]; [|done].
  rewrite plain_bind.
  assert (Hc : ∃ e1, plain (if selective_recovery_capability batch
      then sending (lift (with_book (λ b, (record_capability b peer.1 now framing max_peers, tt)))) else mret tt : Step unit) e = Some (e1, tt) ∧
    (if selective_recovery_capability batch
     then (run_send e (with_book (λ b, (record_capability b peer.1 now framing max_peers, tt)))).1 else e) = e1)
    by (destruct (selective_recovery_capability batch); [rewrite plain_lift; destruct (run_send e _) as [e1 []]|]; by eexists).
  destruct Hc as (e1 & -> & ->). plain. rewrite plain_dated. destruct (handle_dated_comparison _ _ _ _ _ _ _ _ _ _ _ _ _ _) as [e2|]; [|done].
  plain. rewrite plain_updates. plain. rewrite plain_value. by destruct (handle_value_comparison _ _ _ _ _ _ _ _ _ _ _ _ _ _).
Qed.

Lemma plain_payload payload peer now later meanwhile e : plain (step_payload payload peer now later meanwhile) e =
  (λ e, (e, tt)) <$> receive_payload blake3_hash wall nonce encode deserialize entries_in states_in dated_round value_round comparison_fingerprint
    authenticator framing max_peers max_concurrent_bulk_dumps repair_interval e payload peer now meanwhile.
Proof.
  unfold step_payload, receive_payload. plain. rewrite plain_messages.
  destruct (handle_messages _ _ _ _ _ _ _ _ _ _ _ _ _ _ _ _ _ _ _ _) as [[e1 []]|]; by plain.
Qed.

Lemma plain_supports peer now e : plain (step_supports peer now) e = Some (peer_supports framing e peer now).
Proof. apply plain_lift. Qed.

Lemma plain_recovery_control peer frame ranges e :
  plain (sending (metered_recovery_control authenticator wall nonce peer frame ranges)) e =
  Some (run_send e (send_recovery_control_to authenticator wall nonce peer frame)).
Proof. apply plain_sending, erases_recovery_control. Qed.

Lemma plain_frame_event ev peer now later meanwhile e : plain (step_frame_event ev peer now later meanwhile) e =
  (λ e, (e, tt)) <$> handle_frame_event blake3_hash wall nonce encode deserialize entries_in states_in dated_round value_round
    comparison_fingerprint authenticator framing max_peers max_concurrent_bulk_dumps repair_interval e ev peer now meanwhile.
Proof.
  unfold step_frame_event, handle_frame_event. destruct ev as [payload [id|]|id ranges|id ranges|id|].
  - rewrite !plain_bind, plain_supports. plain. destruct (peer_supports framing e peer now) as [e1 []]; plain;
      rewrite ?plain_recovery_control; plain; rewrite ?plain_payload; [|done].
    by destruct (run_send e1 _) as [e2 []]; plain; rewrite plain_payload.
  - plain. by rewrite plain_payload.
  - rewrite !plain_bind, plain_supports. plain. destruct (peer_supports framing e peer now) as [e1 []]; plain; [|done].
    destruct (write_missing_report id ranges); plain; [|done]. rewrite plain_recovery_control. plain. by destruct (run_send e1 _).
  - rewrite plain_bind, (plain_sending _ _ _ (erases_retransmit _ _ _ _ _ _ _ _)). plain. by destruct (run_send e _).
  - rewrite plain_bind, (plain_sending _ _ _ (erases_complete _ _)). plain. by destruct (run_send e _).
  - done.
Qed.

Lemma plain_datagram datagram peer now_ms now later meanwhile e : plain (step_datagram datagram peer now_ms now later meanwhile) e =
  (λ e, (e, tt)) <$> recv_datagram blake3_hash wall nonce encode deserialize entries_in states_in dated_round value_round
    comparison_fingerprint authenticator framing max_peers max_concurrent_bulk_dumps repair_interval e datagram peer now_ms now meanwhile.
Proof.
  unfold step_datagram, recv_datagram. plain. case_match; [done|]. plain. destruct (admit_inbound _ _ _ _ _ _ _) as [f [pl|rej]]; [|done].
  rewrite <- erases_accept_frame. destruct (metered_accept_frame _ _ _ _ _ _) as [[[ra ev] l]|]; [|done]. plain. apply plain_frame_event.
Qed.

Lemma erases_send_to_retry target payload now :
  erases (metered_send_to_retry target payload now) (send_to_retry blake3_hash wall nonce authenticator framing target payload now).
Proof.
  intros s. unfold erase, metered_send_to_retry, send_to_retry. rewrite <- (erases_payload _ _ _ _ _ _ _ _ _). unfold erase.
  by destruct (metered_logical_payload _ _ _ _ _ _ _ _ _) as [[s' res] l].
Qed.

Lemma plain_contact_all targets payload now e : plain (step_contact_all targets payload now) e =
  Some (contact_all blake3_hash wall nonce authenticator framing repair_interval port e targets payload now, tt).
Proof.
  revert e. unfold contact_all. induction targets as [|p targets IH]; intros e; [done|]. cbn [step_contact_all fold_left].
  rewrite plain_bind, (plain_sending _ _ _ (erases_send_to_retry _ _ _)). plain. destruct (run_send e _) as [e1 res]. plain. apply IH.
Qed.

Lemma plain_round rd discovered now later broadcasts e : plain (step_round rd discovered now later broadcasts) e =
  Some (start_reconciliation blake3_hash wall nonce encode initial_ranges contains shuffle authenticator framing repair_interval port
          e rd discovered now).
Proof.
  unfold step_round, start_reconciliation. plain. destruct (get_peers _ _) as [peers known]. plain.
  destruct (round_targets _ _ _ _ _ _ _ _ _) as [rng targets]. plain.
  destruct (resend_held_tombstone_acks _ _ _ _ _) as [[payload cursor] acks]. plain. rewrite plain_contact_all. by plain.
Qed.

Lemma plain_idle rd discovered now later broadcasts e : plain (step_idle rd discovered now later broadcasts) e =
  Some (recv_idle blake3_hash wall nonce encode initial_ranges contains shuffle authenticator framing repair_interval port e rd discovered now).
Proof.
  unfold step_idle, recv_idle. plain. rewrite <- erases_expire_reassembly. destruct (metered_expire_reassembly _ _) as [ra l]. plain.
  rewrite (plain_sending _ _ _ (erases_expire_recovery _ _)). plain. cbn [fst]. destruct (run_send _ _) as [e1 rep]. apply plain_round.
Qed.

Lemma plain_repairs due now e : plain (step_repairs due now) e = Some (fold_left (λ e peer,
    (run_send e (send_to_retry blake3_hash wall nonce authenticator framing (peer, port)
       (comparison_payload encode initial_ranges framing (rp_map (en_replica e))) now)).1) due e, tt).
Proof.
  revert e. induction due as [|p due IH]; intros e; [done|]. cbn [step_repairs fold_left]. plain.
  rewrite (plain_sending _ _ _ (erases_send_to_retry _ _ _)). plain. destruct (run_send e _) as [e1 res]. apply IH.
Qed.

Lemma plain_repair_tick now e : plain (step_repair_tick now) e =
  Some (repair_tick blake3_hash wall nonce encode initial_ranges authenticator framing repair_interval port e now, tt).
Proof. unfold step_repair_tick, repair_tick. plain. destruct (retry_due_repairs _ _ _). plain. apply plain_repairs. Qed.

Lemma plain_recovery_tick now e : plain (step_recovery_tick now) e =
  Some (recovery_tick wall nonce authenticator framing port e now, tt).
Proof.
  unfold step_recovery_tick, recovery_tick. plain. rewrite (plain_sending _ _ _ (erases_retry_idle _ _ _ _ _ _ _)). plain.
  by destruct (run_send e _) as [e1 ra].
Qed.

Lemma plain_dump_turn t messages now e : plain (step_dump_turn t messages now) e =
  Some (dump_turn blake3_hash wall nonce encode entries_in states_in authenticator framing e t messages now).
Proof. unfold step_dump_turn, dump_turn. plain. destruct (drain_stash _ _ _ _ _ _) as [d t']. by plain. Qed.

Lemma plain_broadcast_turn peer updates now e : plain (step_broadcast_turn peer updates now) e =
  Some (broadcast_turn blake3_hash wall nonce encode authenticator framing repair_interval port e peer updates now, tt).
Proof. unfold step_broadcast_turn, broadcast_turn. by plain. Qed.
End engine.
