(* ===== verification/MetricsRun.v ===== *)
(** * What the metrics of a run say ([src/replica/run.rs], [src/metrics.rs])

    A running engine that records: its steps are those of [RunProps.engine_step] and its counters
    and gauges are exact. *)
From stdpp Require Import gmap list strings relations.
From Stdlib Require Import NArith.
From Stdlib.Strings Require Import Byte.
From S2P Require Import Prelude Bytes Replay Auth Framing Reassembly ReassemblyInv Missing RecoveryBook FramedSend Admission Ingress.
From S2P Require Import Journal SignedCausal Messages Replica ReplicaInv ReplicaProps Dumps Repair Engine Writes Round RunProps.
From S2P Require Import FramedSendProps ReassemblyComplete ReassemblyProps EngineProps Samples Metrics Metering MeteredEngine.

(** Reports leave the retained bytes as they are. *)
Lemma due_keeps_bytes {P} `{Countable P, RustOrd P} (r : Reassembler P) peer id now interval max :
  retained_bytes (missing_ranges_if_due r peer id now interval max).1 = retained_bytes r.
Proof. unfold missing_ranges_if_due. by repeat case_match. Qed.

Lemma pending_keeps_bytes {P} `{Countable P, RustOrd P} (r : Reassembler P) peer fragment max now :
  retained_bytes (pending_fragment_event r peer fragment max now).1 = retained_bytes r.
Proof.
  unfold pending_fragment_event. destruct fragment as [m|]; [|done]. case_match; [|done].
  pose proof (due_keeps_bytes r peer (fm_transfer_id m) now (seconds 3) max) as Hd.
  destruct (missing_ranges_if_due _ _ _ _ _ _) as [r' ranges]. by destruct ranges.
Qed.

Lemma poll_keeps_bytes {P} `{Countable P, RustOrd P} (r : Reassembler P) now idle interval max reports :
  retained_bytes (poll_idle_missing r now idle interval max reports).1 = retained_bytes r.
Proof.
  unfold poll_idle_missing. do 2 (case_match; [done|]). 
  match goal with |- context [poll_loop _ _ _ _ ?l ?acc] => generalize l, acc end. intros l acc. revert r acc.
  induction l as [|[p id] l IH]; intros r acc; cbn [poll_loop]; [done|]. repeat (case_match; [done|]).
  destruct (get_transfer r p id) as [t|]; [|apply IH]. destruct (missing_ranges_for_transfer t max); [apply IH|]. by rewrite IH.
Qed.

(** ** The ledger of a step *)

Create HintDb booked discriminated.

Section run.
Context {K V S E C St P Ag R Net : Type} `{Countable K, Countable P} `{Lww V S E C} `{!EntryState V S E St}.
Context `{!RustOrd K, !RustOrd S, !RustOrd P} `{!EqDecision S} `{Mac, Aead} `{EqDecision Net} `{MetricsFeature}.
Notation Msg := (Message Ag K E St).
Notation Addr := (P * N)%type.
Notation Eng := (Engine (K := K) (E := E) (C := C) (St := St) (P := P) (Ag := Ag) (R := R)).
Notation RoundState := (RoundState (K := K) (P := P) (Net := Net)).
Notation Step := (Step (K := K) (E := E) (C := C) (St := St) (P := P) (Ag := Ag) (R := R)).
Context (blake3_hash : list byte → id32) (wall : N → N) (nonce : N → list byte).
Context (encode : Msg → list byte) (deserialize : list byte → result (Msg * list byte) DeserializeError).
Context (entries_in : gmap K E → EnumerationRange K → list (K * E)) (states_in : gmap K St → EnumerationRange K → list (K * St)).
Context (dated_round : gmap K E → list Ag → R → list Ag * list (EnumerationRange K) * R)
        (value_round : gmap K St → list Ag → R → list Ag * list (EnumerationRange K) * R)
        (comparison_fingerprint : list Ag → id32).
Context (initial_ranges : gmap K E → list Ag) (contains : Net → P → bool) (shuffle : R → list P → list P * R).
Context (authenticator : Authenticator) (framing : FramingConfig).
Context (max_peers max_concurrent_bulk_dumps repair_interval port : N).
Context (Hon : metrics_on = true).
Implicit Types (e : Eng).

(** [received] datagrams counted, at most [dropped] of them as dropped, and [rounds] rounds. *)
Record ledger (received dropped rounds : N) e e' (l : list MetricCall) : Prop := {
  lg_frames : ∃ frames, s_log (en_send e') = s_log (en_send e) ++ frames ∧
    (total MESSAGES_SENT_TOTAL l + total SEND_FAILURES_TOTAL l = len frames)%N;
  lg_answers : ∃ answers, s_net (en_send e) = answers ++ s_net (en_send e') ∧
    total MESSAGES_SENT_TOTAL l = len (accepted answers) ∧ total BYTES_SENT_TOTAL l = sum (accepted answers);
  lg_fragments : (total SELECTIVE_RECOVERY_RETRANSMITTED_FRAGMENTS_TOTAL l ≤ total FRAGMENTS_SENT_TOTAL l
    ≤ total MESSAGES_SENT_TOTAL l)%N;
  lg_received : total MESSAGES_RECEIVED_TOTAL l = received;
  lg_dropped : (total DATAGRAMS_DROPPED_TOTAL l ≤ dropped)%N;
  lg_rounds : total ROUNDS_TOTAL l = rounds;
  lg_bytes : gauge REASSEMBLY_BYTES_CURRENT (retained_bytes (en_reassembler e)) l = retained_bytes (en_reassembler e');
  lg_ok : calls_ok l;
}.
Definition books {A} (received dropped rounds : N) (m : Step A) : Prop :=
  ∀ e e' a l, m e = Some (e', a, l) → ledger received dropped rounds e e' l.

Lemma ledger_trans rc dr rd rc' dr' rd' e e1 e' l l' :
  ledger rc dr rd e e1 l → ledger rc' dr' rd' e1 e' l' → ledger (rc + rc') (dr + dr') (rd + rd') e e' (l ++ l').
Proof.
  intros [(f & Hf & Hfl) (a & Ha & Ham & Hab) Hfr Hrc Hdr Hrd Hb Hk] [(f' & Hf' & Hfl') (a' & Ha' & Ham' & Hab') Hfr' Hrc' Hdr' Hrd' Hb' Hk'].
  split; rewrite ?total_app; try lia.
  - exists (f ++ f'). rewrite Hf', Hf, app_assoc, length_app. split; [done|]. lia.
  - exists (a ++ a'). rewrite Ha, Ha', <- app_assoc, accepted_app, sum_app, length_app. split; [done|]. lia.
  - by rewrite gauge_app, Hb.
  - by apply calls_ok_app.
Qed.

Lemma books_bind {A B} rc dr rd rc' dr' rd' (m : Step A) (k : A → Step B) :
  books rc dr rd m → (∀ a, books rc' dr' rd' (k a)) → books (rc + rc') (dr + dr') (rd + rd') (m ≫= k).
Proof.
  intros Hm Hk e e' b l. change ((m ≫= k) e) with (Step_bind A B k m e). unfold Step_bind.
  destruct (m e) as [[[e1 a] l1]|] eqn:E1; [|done]. cbn. destruct (k a e1) as [[[e2 b2] l2]|] eqn:E2; [|done]. cbn. intros [= -> -> <-].
  eapply ledger_trans; [by eapply Hm|by eapply Hk].
Qed.

(** Bind for steps that count no datagram and no round. *)
Lemma books_then {A B} (m : Step A) (k : A → Step B) : books 0 0 0 m → (∀ a, books 0 0 0 (k a)) → books 0 0 0 (m ≫= k).
Proof. apply (books_bind 0 0 0 0 0 0). Qed.

Lemma books_weaken {A} rc dr dr' rd (m : Step A) : (dr ≤ dr')%N → books rc dr rd m → books rc dr' rd m.
Proof. intros Hle Hm e e' a l He. destruct (Hm e e' a l He). split; try done. lia. Qed.

Lemma ledger_sent rc dr rd e e' l : en_send e' = en_send e →
  Forall (λ m, total m l = 0%N) [MESSAGES_SENT_TOTAL; SEND_FAILURES_TOTAL; BYTES_SENT_TOTAL; FRAGMENTS_SENT_TOTAL;
                                SELECTIVE_RECOVERY_RETRANSMITTED_FRAGMENTS_TOTAL] →
  total MESSAGES_RECEIVED_TOTAL l = rc → (total DATAGRAMS_DROPPED_TOTAL l ≤ dr)%N → total ROUNDS_TOTAL l = rd →
  gauge REASSEMBLY_BYTES_CURRENT (retained_bytes (en_reassembler e)) l = retained_bytes (en_reassembler e') → calls_ok l →
  ledger rc dr rd e e' l.
Proof.
  intros Hs Hz. rewrite !Forall_cons in Hz. destruct Hz as (Z1 & Z2 & Z3 & Z4 & Z5 & _). intros.
  split; try done; rewrite ?Hs, ?Z1, ?Z2, ?Z3, ?Z4, ?Z5; try done; [exists []|exists []]; by rewrite ?app_nil_r.
Qed.

Lemma books_ret {A} (a : A) : books 0 0 0 (mret a).
Proof. intros e e' b l [= <- <- <-]. apply ledger_sent; try done. all: repeat constructor. Qed.
Lemma books_get : books 0 0 0 get.
Proof. intros e e' b l [= <- <- <-]. apply ledger_sent; try done. all: repeat constructor. Qed.
Lemma books_modify f : (∀ e, en_send (f e) = en_send e) → (∀ e, en_reassembler (f e) = en_reassembler e) → books 0 0 0 (modify f).
Proof. intros Hs Hr e e' b l [= <- <- <-]. apply ledger_sent; try done. { repeat constructor. } { cbn. by rewrite Hr. } constructor. Qed.
Lemma books_sending {A} (m : Metered A) : counts 0 m → books 0 0 0 (sending m).
Proof.
  intros Hm e e' b l. unfold sending. specialize (Hm (en_send e)). destruct (m (en_send e)) as [[s a] l1]. cbn [fst snd] in Hm.
  unfold run_send. intros [= <- <- <-]. destruct Hm as [Hf Ha Hfr Ho Hk].
  assert (Hz : ∀ x, x ∉ egress_metrics → total x l1 = 0%N) by (intros x Hx; by eapply total_other).
  split; cbn [en_send en_reassembler]; [done|done|lia|apply Hz; decided|rewrite (Hz DATAGRAMS_DROPPED_TOTAL) by decided; done
    |apply Hz; decided|eapply gauge_other; [exact Ho|decided]|done].
Qed.

(** What a list of calls that sends nothing adds to the ledger. *)
Record entry (received dropped rounds : N) (old new : N) (l : list MetricCall) : Prop := {
  en_silent : Forall (λ m, total m l = 0%N) [MESSAGES_SENT_TOTAL; SEND_FAILURES_TOTAL; BYTES_SENT_TOTAL; FRAGMENTS_SENT_TOTAL;
                                            SELECTIVE_RECOVERY_RETRANSMITTED_FRAGMENTS_TOTAL];
  en_received : total MESSAGES_RECEIVED_TOTAL l = received;
  en_dropped : total DATAGRAMS_DROPPED_TOTAL l = dropped;
  en_rounds : total ROUNDS_TOTAL l = rounds;
  en_gauge : gauge REASSEMBLY_BYTES_CURRENT old l = new;
  en_ok : calls_ok l;
}.

Lemma entry_app rc dr rd rc' dr' rd' a b c l l' :
  entry rc dr rd a b l → entry rc' dr' rd' b c l' → entry (rc + rc') (dr + dr') (rd + rd') a c (l ++ l').
Proof.
  intros [Hs Hrc Hdr Hrd Hg Hk] [Hs' Hrc' Hdr' Hrd' Hg' Hk']. split; rewrite ?total_app; try congruence.
  - rewrite Forall_forall in *. intros m Hm. rewrite total_app, (Hs m Hm), (Hs' m Hm). done.
  - by rewrite gauge_app, Hg.
  - by apply calls_ok_app.
Qed.

Lemma entry_nil a : entry 0 0 0 a a [].
Proof. split; try done. all: repeat constructor. Qed.

(** The helpers that are not sends. *)
Ltac entered := unfold record_updates_received, record_bytes_received, record_datagram_dropped, record_reconcile_round,
    record_tombstone_acks_resent, record_round_duration, record_handle_duration, record_duration, timer, record_state_gauges,
    record_fragment_received, record_reassembly_completed, record_reassembly_duplicate, record_reassembly_rejection,
    record_reassembly_bytes, record_reassembly_evictions, record_selective_recovery_fallback, calls; rewrite ?Hon; repeat case_match;
  (split; [repeat constructor|tally; done|tally; done|tally; done|done|repeat constructor]).

Lemma entry_received a n : entry 1 0 0 a a (record_bytes_received n).
Proof. entered. Qed.
Lemma entry_dropped a reason : entry 0 1 0 a a (record_datagram_dropped reason).
Proof. entered. Qed.
Lemma entry_round a : entry 0 0 1 a a record_reconcile_round.
Proof. entered. Qed.
Lemma entry_bytes a b : entry 0 0 0 a b (record_reassembly_bytes b).
Proof. entered. Qed.
Lemma entry_evictions a reason n : entry 0 0 0 a a (record_reassembly_evictions reason n).
Proof. entered. Qed.
Lemma entry_rejection a reason : entry 0 0 0 a a (record_reassembly_rejection reason).
Proof. entered. Qed.

Lemma ledger_entry rc dr rd e e' l : en_send e' = en_send e →
  entry rc dr rd (retained_bytes (en_reassembler e)) (retained_bytes (en_reassembler e')) l → ledger rc dr rd e e' l.
Proof. intros Hs []. apply ledger_sent; try done. lia. Qed.

Lemma books_record rc dr rd l : (∀ a, entry rc dr rd a a l) → books rc dr rd (record l).
Proof. intros Hl e e' a l' [= <- <- <-]. by apply ledger_entry. Qed.

Lemma expire_entry (ra : Reassembler P) now : let '(ra', l) := metered_expire_reassembly ra now in
  entry 0 0 0 (retained_bytes ra) (retained_bytes ra') l.
Proof.
  unfold metered_expire_reassembly. destruct (expire ra now) as [ra' expired].
  apply (entry_app 0 0 0 0 0 0 _ (retained_bytes ra)); [apply entry_evictions|apply entry_bytes].
Qed.

Lemma accept_reports (ra : Reassembler P) peer bytes now ra' rep :
  accept blake3_hash ra peer bytes now = Some (ra', rep) → rr_retained_bytes rep = retained_bytes ra'.
Proof.
  unfold accept. destruct (expire ra now) as [r expired]. repeat (case_match; try (by intros [= <- <-])).
  destruct (accept_fragment _ _ _ _ _ _) as [[[r' ev] o]|]; [|done]. by intros [= <- <-].
Qed.

(** A frame is dropped once, and then nothing is handed on. *)
Lemma accept_frame_entry (ra : Reassembler P) peer pl max now ra' ev l :
  metered_accept_frame blake3_hash ra peer pl max now = Some (ra', ev, l) →
  ∃ dr, entry 0 dr 0 (retained_bytes ra) (retained_bytes ra') l ∧ (dr = 0%N ∨ dr = 1%N ∧ ev = EvPending).
Proof.
  unfold metered_accept_frame. destruct (parse_recovery_control _ _) as [[[id rs|id]|]|err].
  1,2: intros [= <- <- <-]; exists 0%N; split; [apply entry_nil|by left].
  2: { intros [= <- <- <-]. exists 1%N. split; [|by right]. apply (entry_app 0 0 0 0 1 0 _ (retained_bytes ra)); [apply entry_rejection|apply entry_dropped]. }
  destruct (accept _ _ _ _ _) as [[r rep]|] eqn:Ha; [|done]. apply accept_reports in Ha. cbn [mbind option_bind].
  set (base := _ ++ _ ++ _ ++ record_reassembly_bytes _).
  assert (Hbase : entry 0 0 0 (retained_bytes ra) (retained_bytes r) base).
  { apply (entry_app 0 0 0 0 0 0 _ (retained_bytes ra)); [destruct (fragment_received rep); [entered|apply entry_nil]|].
    apply (entry_app 0 0 0 0 0 0 _ (retained_bytes ra)); [apply entry_evictions|].
    apply (entry_app 0 0 0 0 0 0 _ (retained_bytes ra)); [apply entry_evictions|]. rewrite Ha. apply entry_bytes. }
  pose proof (pending_keeps_bytes r peer (fragment_metadata (p_bytes pl)) max now) as Hp.
  destruct (outcome rep) as [[p| |]|err].
  - intros [= <- <- <-]. exists 0%N. split; [|by left]. apply (entry_app 0 0 0 0 0 0 _ (retained_bytes r)); [done|].
    destruct (fragment_received rep); [entered|apply entry_nil].
  - intros Heq. injection Heq as Hev <-. rewrite Hev in Hp. cbn [fst] in Hp. exists 0%N. rewrite Hp. split; [done|by left].
  - intros Heq. injection Heq as Hev <-. rewrite Hev in Hp. cbn [fst] in Hp. exists 0%N. rewrite Hp. split; [|by left].
    apply (entry_app 0 0 0 0 0 0 _ (retained_bytes r)); [done|entered].
  - intros [= <- <- <-]. exists 1%N. split; [|by right]. apply (entry_app 0 0 0 0 1 0 _ (retained_bytes r)); [done|].
    apply (entry_app 0 0 0 0 1 0 _ (retained_bytes r)); [apply entry_rejection|apply entry_dropped].
Qed.

(** *** The steps *)

Lemma books_try f : (∀ e e', f e = Some e' → en_send e' = en_send e ∧ en_reassembler e' = en_reassembler e) → books 0 0 0 (try_modify f).
Proof.
  intros Hf e e' a l. unfold try_modify. destruct (f e) as [e1|] eqn:He; [|done]. intros [= <- <- <-]. destruct (Hf _ _ He) as [Hs Hr].
  apply ledger_entry; [done|]. rewrite Hr. apply entry_nil.
Qed.

Lemma books_started {A} (o : Eng → option (A * option (DumpTask (A := Addr) (K := K) (E := E) (St := St) (Ag := Ag)))) (f : A → Dumps Addr P K) :
  books 0 0 0 (try_modify (λ e, '(d, t) ← o e; Some (set_dump e (f d) (en_tasks e ++ option_list t)))).
Proof. apply books_try. intros e e'. destruct (o e) as [[d t]|]; [|done]. by intros [= <-]. Qed.

Lemma books_step_send peer now messages : books 0 0 0 (step_send blake3_hash wall nonce encode authenticator framing peer now messages).
Proof. apply books_sending, counts_messages, Hon. Qed.
Lemma books_step_control peer now messages : books 0 0 0 (step_control blake3_hash wall nonce encode authenticator framing peer now messages).
Proof. apply books_sending, counts_control, Hon. Qed.
Lemma books_book {A} (g : RecoveryBook P → RecoveryBook P * A) : books 0 0 0 (sending (lift (with_book g))).
Proof. apply books_sending, counts_book. Qed.

#[local] Hint Resolve books_ret books_get books_step_send books_step_control books_book books_started : booked.
Ltac booking :=
  repeat first
    [ progress eauto with booked nocore
    | apply books_modify; [done|done]
    | apply (books_record 0 0 0); intros; solve [entered]
    | apply books_then; [|intros]
    | case_match
    | progress cbn beta zeta ].

Lemma books_dated inc peer now : books 0 0 0 (step_dated_comparison blake3_hash wall nonce encode entries_in dated_round comparison_fingerprint
  authenticator framing max_concurrent_bulk_dumps inc peer now).
Proof. unfold step_dated_comparison. booking. all: apply (books_started (λ e, start_dated_dump _ _ _ _ _ _ _ _ _) (λ d, d)). Qed.

Lemma books_value inc peer now : books 0 0 0 (step_value_comparison blake3_hash wall nonce encode states_in value_round comparison_fingerprint
  authenticator framing max_concurrent_bulk_dumps inc peer now).
Proof. unfold step_value_comparison. booking. all: apply (books_started (λ e, start_value_dump _ _ _ _ _ _ _ _ _) (λ d, d)). Qed.

Lemma books_updates updates peer now meanwhile :
  books 0 0 0 (step_updates blake3_hash wall nonce encode authenticator framing repair_interval updates peer now meanwhile).
Proof. unfold step_updates. booking. Qed.
#[local] Hint Resolve books_dated books_value books_updates : booked.

Notation step_messages := (step_messages blake3_hash wall nonce encode deserialize entries_in states_in dated_round value_round
  comparison_fingerprint authenticator framing max_peers max_concurrent_bulk_dumps repair_interval).
Notation step_payload := (step_payload blake3_hash wall nonce encode deserialize entries_in states_in dated_round value_round
  comparison_fingerprint authenticator framing max_peers max_concurrent_bulk_dumps repair_interval).
Notation step_frame_event := (step_frame_event blake3_hash wall nonce encode deserialize entries_in states_in dated_round value_round
  comparison_fingerprint authenticator framing max_peers max_concurrent_bulk_dumps repair_interval).
Notation step_datagram := (step_datagram blake3_hash wall nonce encode deserialize entries_in states_in dated_round value_round
  comparison_fingerprint authenticator framing max_peers max_concurrent_bulk_dumps repair_interval).

Lemma books_messages payload peer now later meanwhile : books 0 1 0 (step_messages payload peer now later meanwhile).
Proof.
  unfold MeteredEngine.step_messages. destruct (decode_datagram deserialize payload) as [batch|].
  - apply (books_weaken 0 0 1 0); [done|]. booking.
  - apply (books_bind 0 1 0 0 0 0); [apply books_record; intros; apply entry_dropped|booking].
Qed.

Lemma books_payload payload peer now later meanwhile : books 0 1 0 (step_payload payload peer now later meanwhile).
Proof.
  unfold MeteredEngine.step_payload. apply (books_bind 0 0 0 0 1 0); [booking|intros _].
  apply (books_bind 0 1 0 0 0 0); [apply books_messages|intros dated]. booking.
Qed.

Lemma books_control_frame (peer : Addr) frame ranges : books 0 0 0 (sending (metered_recovery_control authenticator wall nonce peer frame ranges)).
Proof. apply books_sending, counts_recovery_control, Hon. Qed.
Lemma books_supports peer now : books 0 0 0 (step_supports framing peer now).
Proof. apply books_book. Qed.
#[local] Hint Resolve books_control_frame books_supports : booked.

Lemma books_frame_event ev peer now later meanwhile :
  books 0 (match ev with Logical _ _ => 1 | _ => 0 end) 0 (step_frame_event ev peer now later meanwhile).
Proof.
  destruct ev as [payload completed|id ranges|id ranges|id|]; cbn [MeteredEngine.step_frame_event]; [|booking|booking..].
  - apply (books_bind 0 0 0 0 1 0); [booking|intros _; apply books_payload].
  - apply books_sending, counts_retransmit, Hon.
  - apply books_sending, counts_complete, Hon.
Qed.

(** A step that starts by reading the engine. *)
Lemma books_at {A} rc dr rd (k : Eng → Step A) :
  (∀ e e' a l, k e e = Some (e', a, l) → ledger rc dr rd e e' l) → books rc dr rd (get ≫= k).
Proof.
  intros Hk e e' a l. change ((get ≫= k) e) with (Step_bind _ A k get e). unfold Step_bind, get. cbn.
  destruct (k e e) as [[[e1 b] l1]|] eqn:Hk1; [|done]. cbn. intros [= -> -> <-]. by eapply Hk.
Qed.

(** The reassembler is replaced, and what that changes is recorded before going on. *)
Lemma ledger_inbound {A} dr dr' rd e f (ra : Reassembler P) l (k : Step A) e' a l' :
  entry 0 dr 0 (retained_bytes (en_reassembler e)) (retained_bytes ra) l → books 0 dr' rd k →
  (_ ← modify (λ e, set_inbound e (f e) ra); _ ← record l; k : Step A) e = Some (e', a, l') → ledger 0 (dr + dr') rd e e' l'.
Proof.
  intros Hl Hk Heq. unfold mbind, Step_bind, modify, record in Heq. cbn in Heq.
  destruct (k (set_inbound e (f e) ra)) as [[[e1 b] l1]|] eqn:Hk1; [|done]. injection Heq as <- <- <-.
  change rd with (0 + rd)%N. eapply (ledger_trans 0 dr 0 0 dr' rd); [|by eapply Hk]. by apply ledger_entry.
Qed.

Lemma books_datagram datagram peer now_ms now later meanwhile : books 1 1 0 (step_datagram datagram peer now_ms now later meanwhile).
Proof.
  unfold MeteredEngine.step_datagram. apply (books_bind 1 0 0 0 1 0); [apply books_record; intros; apply entry_received|intros _].
  case_match; [apply books_record; intros; apply entry_dropped|]. apply books_at. intros e.
  destruct (admit_inbound _ _ _ _ _ _ _) as [f [pl|rej]].
  - destruct (metered_accept_frame _ _ _ _ _ _) as [[[ra ev] l]|] eqn:Ha; [|done]. apply accept_frame_entry in Ha as (dr & Hl & Hdr).
    intros e' a l' Heq. pose proof (ledger_inbound _ _ _ _ _ _ _ _ _ _ _ Hl (books_frame_event ev peer now later meanwhile) Heq) as [].
    split; try done. destruct Hdr as [->|[-> ->]]; [destruct ev|]; lia.
  - revert e. apply (books_bind 0 0 0 0 1 0); [booking|intros _]. apply books_record; intros; apply entry_dropped.
Qed.

Lemma books_recv_error : books 0 1 0 step_recv_error.
Proof. apply books_record. intros. apply entry_dropped. Qed.

(** *** Rounds and timers *)

Notation send_to_retry := (metered_send_to_retry blake3_hash wall nonce authenticator framing).

Lemma books_retry target payload now : books 0 0 0 (sending (send_to_retry target payload now)).
Proof.
  apply books_sending. intros s. unfold metered_send_to_retry.
  pose proof (counts_payload blake3_hash authenticator framing wall nonce Hon target payload now
    {| s_counter := s_counter s; s_book := book_for_identity; s_net := s_net s; s_log := s_log s |}) as Hc.
  destruct (metered_logical_payload _ _ _ _ _ _ _ _ _) as [[s' res] l]. destruct Hc. by split.
Qed.
#[local] Hint Resolve books_retry : booked.

Lemma books_contact_all targets payload now :
  books 0 0 0 (step_contact_all blake3_hash wall nonce authenticator framing repair_interval port targets payload now).
Proof. induction targets; cbn; booking. Qed.
#[local] Hint Resolve books_contact_all : booked.

Notation step_round := (step_round blake3_hash wall nonce encode initial_ranges contains shuffle authenticator framing repair_interval port).
Notation step_idle := (step_idle blake3_hash wall nonce encode initial_ranges contains shuffle authenticator framing repair_interval port).

Lemma books_round rd discovered now later broadcasts : books 0 0 1 (step_round rd discovered now later broadcasts).
Proof.
  unfold MeteredEngine.step_round. apply (books_bind 0 0 1 0 0 0); [apply books_record; intros; apply entry_round|intros _]. booking.
Qed.

Lemma books_idle rd discovered now later broadcasts : books 0 0 1 (step_idle rd discovered now later broadcasts).
Proof.
  unfold MeteredEngine.step_idle. apply books_at. intros e e' a l.
  pose proof (expire_entry (en_reassembler e) now) as Hl. destruct (metered_expire_reassembly _ _) as [ra l0].
  apply (ledger_inbound 0 0 1 e en_replay ra l0 _ _ _ _ Hl). apply (books_bind 0 0 0 0 0 1); [|intros _; apply books_round].
  apply books_sending, counts_expire_recovery, Hon.
Qed.

Lemma books_repairs due now : books 0 0 0 (step_repairs blake3_hash wall nonce encode initial_ranges authenticator framing port due now).
Proof. induction due; cbn; booking. Qed.
#[local] Hint Resolve books_repairs : booked.

Lemma books_repair_tick now :
  books 0 0 0 (step_repair_tick blake3_hash wall nonce encode initial_ranges authenticator framing repair_interval port now).
Proof. unfold step_repair_tick. booking. Qed.

Lemma books_dump_turn t messages now :
  books 0 0 0 (step_dump_turn blake3_hash wall nonce encode entries_in states_in authenticator framing t messages now).
Proof. unfold step_dump_turn. booking. Qed.

Lemma books_recovery_tick now : books 0 0 0 (step_recovery_tick wall nonce authenticator framing port now).
Proof.
  unfold step_recovery_tick. apply books_at. intros e e' a l. unfold metered_retry_idle. case_match.
  { intros [= <- <- <-]. apply ledger_entry; [done|apply entry_nil]. }
  pose proof (expire_entry (en_reassembler e) now) as Hl. destruct (metered_expire_reassembly _ _) as [ra l0].
  pose proof (poll_keeps_bytes ra now (seconds 1) (seconds 3) (max_missing_ranges_for_budget (datagram_payload_budget framing)
    (N.of_nat (overhead authenticator)) (max_missing_ranges_per_report framing)) 32) as Hp.
  destruct (poll_idle_missing _ _ _ _ _ _) as [ra' requests]. cbn [fst] in Hp.
  pose proof (books_sending _ (counts_request_missing authenticator framing wall nonce Hon port now requests)
    (set_inbound e (en_replay e) ra')) as Hs. unfold sending in Hs |- *.
  unfold mbind, Step_bind, Metered_bind, tell, modify. cbn [en_send set_inbound] in Hs.
  destruct (metered_request_missing _ _ _ _ _ _ _ (en_send e)) as [[s []] l1]. specialize (Hs _ _ _ eq_refl). unfold run_send in *. cbn in *.
  intros [= <- <- <-]. rewrite !app_nil_r. eapply (ledger_trans 0 0 0 0 0 0); [|exact Hs]. apply ledger_entry; [done|]. cbn. by rewrite Hp.
Qed.

(** ** A run that records *)

Inductive Occasion := Received | ReceiveFailed | IdleRound | OtherStep.
#[export] Instance Occasion_eq_dec : EqDecision Occasion.
Proof. solve_decision. Defined.

Notation engine_step := (engine_step (Net := Net) blake3_hash wall nonce encode deserialize entries_in states_in dated_round value_round
  comparison_fingerprint initial_ranges contains shuffle authenticator framing max_peers max_concurrent_bulk_dumps repair_interval port).

(** What the local writers record: an insertion or a removal, a broadcast skipped or refused for
    want of a slot, and a tombstone whose stamp does not say when to collect it. *)
Inductive LocalRecord := LInsert | LRemove | LBackpressure (path : string) | LStampBounded (reason : string).
Definition local_calls (x : LocalRecord) : list MetricCall :=
  match x with
  | LInsert => record_insert
  | LRemove => record_remove
  | LBackpressure path => record_broadcast_backpressure path
  | LStampBounded reason => record_tombstone_stamp_bounded reason
  end.

(** The steps of [engine_step] with what they record; a failed receive changes nothing, and a writer
    may also record without a critical section of its own. Which of its calls a local write makes
    is in [MetricsWrites]; its broadcast is [ms_broadcast], for one peer at a time. *)
Inductive metered_step : Eng * RoundState → Occasion → list MetricCall → Eng * RoundState → Prop :=
| ms_datagram e rd datagram peer now_ms now later meanwhile e' l :
    (∀ r, rtc critical r (meanwhile r)) → step_datagram datagram peer now_ms now later meanwhile e = Some (e', tt, l) →
    metered_step (e, rd) Received l (e', rd)
| ms_recv_error e rd e' l : step_recv_error e = Some (e', tt, l) → metered_step (e, rd) ReceiveFailed l (e', rd)
| ms_idle e rd discovered now later broadcasts e' rd' l :
    step_idle rd discovered now later broadcasts e = Some (e', rd', l) → metered_step (e, rd) IdleRound l (e', rd')
| ms_repair e rd now e' l :
    step_repair_tick blake3_hash wall nonce encode initial_ranges authenticator framing repair_interval port now e = Some (e', tt, l) →
    metered_step (e, rd) OtherStep l (e', rd)
| ms_recovery e rd now e' l :
    step_recovery_tick wall nonce authenticator framing port now e = Some (e', tt, l) → metered_step (e, rd) OtherStep l (e', rd)
| ms_dump e rd ts t ts' messages now e' t' l :
    en_tasks e = ts ++ t :: ts' → dt_phase t = Sending messages →
    step_dump_turn blake3_hash wall nonce encode entries_in states_in authenticator framing t messages now e = Some (e', t', l) →
    metered_step (e, rd) OtherStep l (set_dump e' (en_dumps e') (ts ++ t' :: ts'), rd)
| ms_local e rd r c recorded : critical (en_replica e) r → metered_step (e, rd) OtherStep (recorded ≫= local_calls) (set_replica e r c, rd)
| ms_record e rd recorded : metered_step (e, rd) OtherStep (recorded ≫= local_calls) (e, rd)
| ms_broadcast e rd peer updates now e' l :
    step_broadcast_turn blake3_hash wall nonce encode authenticator framing repair_interval port peer updates now e = Some (e', tt, l) →
    metered_step (e, rd) OtherStep l (e', rd)
| ms_decommission e rd peer : metered_step (e, rd) OtherStep [] (engine_decommission e peer, rd)
| ms_seed e rd peer now : metered_step (e, rd) OtherStep [] (seed_peer e peer now, rd)
| ms_abort e rd ts t ts' messages : en_tasks e = ts ++ t :: ts' → dt_phase t = Sending messages →
    metered_step (e, rd) OtherStep [] (set_dump e (en_dumps e) (ts ++ with_phase t Leaving :: ts'), rd)
| ms_uncount e rd ts t ts' : en_tasks e = ts ++ t :: ts' → dt_phase t = Leaving →
    metered_step (e, rd) OtherStep [] (set_dump e (drop_count_guard (en_dumps e)) (ts ++ with_phase t Uncounted :: ts'), rd)
| ms_finish e rd ts t ts' : en_tasks e = ts ++ t :: ts' → dt_phase t = Uncounted →
    metered_step (e, rd) OtherStep [] (set_dump e (drop_peer_guard (en_dumps e) (dt_peer t)) (ts ++ ts'), rd).

Inductive metered_run : Eng * RoundState → list Occasion → list MetricCall → Eng * RoundState → Prop :=
| mr_done st : metered_run st [] [] st
| mr_step st o l st1 os l' st' : metered_step st o l st1 → metered_run st1 os l' st' → metered_run st (o :: os) (l ++ l') st'.

Lemma plain_some {A} (m : Step A) e x l : m e = Some (x, l) → plain m e = Some x.
Proof. unfold plain. by intros ->. Qed.

(** A run that records goes through states of the engine that does not. *)
Lemma metered_is_step st o l st' : metered_step st o l st' → engine_step st st' ∨ st' = st.
Proof.
  intros Hs. destruct Hs as [e rd datagram peer now_ms now later meanwhile e' l Hm Hd|e rd e' l Hd|e rd discovered now later b e' rd' l Hd
    |e rd now e' l Hd|e rd now e' l Hd|e rd ts t ts' messages now e' t' l Ht Hph Hd|e rd r c recorded Hc|e rd recorded|e rd peer updates now e' l Hd|e rd peer|e rd peer now
    |e rd ts t ts' messages Ht Hph|e rd ts t ts' Ht Hph|e rd ts t ts' Ht Hph]; try apply plain_some in Hd.
  all: lazymatch goal with |- _ ∨ (?e, _) = (?e, _) => right | Hd : plain step_recv_error _ = _ |- _ => right | _ => left end.
  - rewrite plain_datagram in Hd. destruct (recv_datagram _ _ _ _ _ _ _ _ _ _ _ _ _ _ _ _ _ _ _ _ _) as [e1|] eqn:Hr; [|done].
    injection Hd as ->. by eapply es_datagram.
  - by injection Hd as <-.
  - rewrite plain_idle in Hd. apply (inj Some) in Hd. rewrite <- Hd. apply es_idle.
  - rewrite plain_repair_tick in Hd. injection Hd as <-. apply es_repair.
  - rewrite plain_recovery_tick in Hd. injection Hd as <-. apply es_recovery.
  - rewrite plain_dump_turn in Hd. apply (inj Some) in Hd. eapply es_dump; [exact Ht|exact Hph|exact Hd].
  - by apply es_local.
  - done.
  - rewrite plain_broadcast_turn in Hd. injection Hd as <-. apply es_broadcast.
  - apply es_decommission.
  - apply es_seed.
  - by eapply es_abort.
  - by eapply es_uncount.
  - by eapply es_finish.
Qed.

Definition occasions (o : Occasion) (os : list Occasion) : N := len (filter (.= o) os).

Lemma local_entry a recorded : entry 0 0 0 a a (recorded ≫= local_calls).
Proof.
  induction recorded as [|x recorded IH]; [apply entry_nil|]. cbn. apply (entry_app 0 0 0 0 0 0 a a a); [|exact IH].
  destruct x; unfold local_calls, record_insert, record_remove, record_broadcast_backpressure, record_tombstone_stamp_bounded; entered.
Qed.

Lemma books_broadcast_turn peer updates now :
  books 0 0 0 (step_broadcast_turn blake3_hash wall nonce encode authenticator framing repair_interval port peer updates now).
Proof. unfold step_broadcast_turn. booking. Qed.

Lemma step_ledger st o l st' : metered_step st o l st' →
  ledger (occasions Received [o]) (occasions Received [o] + occasions ReceiveFailed [o]) (occasions IdleRound [o]) st.1 st'.1 l.
Proof.
  intros Hs. destruct Hs; cbn [fst]; try (apply ledger_entry; [done|first [apply local_entry|apply entry_nil]]).
  - by eapply books_datagram.
  - by eapply books_recv_error.
  - by eapply books_idle.
  - by eapply books_repair_tick.
  - by eapply books_recovery_tick.
  - match goal with Hd : step_dump_turn _ _ _ _ _ _ _ _ _ _ _ _ = Some _ |- _ => destruct (books_dump_turn _ _ _ _ _ _ _ Hd) end. by split.
  - by eapply books_broadcast_turn.
Qed.

Lemma run_ledger st os l st' : metered_run st os l st' →
  ledger (occasions Received os) (occasions Received os + occasions ReceiveFailed os) (occasions IdleRound os) st.1 st'.1 l.
Proof.
  induction 1 as [st|st o l st1 os l' st' Hs _ IH]; [apply ledger_entry; [done|apply entry_nil]|].
  assert (Hc : ∀ x, occasions x (o :: os) = (occasions x [o] + occasions x os)%N).
  { intros x. unfold occasions. change (o :: os) with ([o] ++ os). rewrite filter_app, length_app. lia. }
  rewrite !Hc. pose proof (ledger_trans _ _ _ _ _ _ _ _ _ _ _ (step_ledger _ _ _ _ Hs) IH) as []. split; try done. lia.
Qed.

(** *** The gauges of a round *)

Definition live_entries (m : gmap K E) : gmap K E := filter (λ kv, is_tombstone kv.2 = false) m.
Definition dead_entries (m : gmap K E) : gmap K E := filter (λ kv, is_tombstone kv.2 = true) m.

Lemma tombstone_index_size (r : Replica K E St P) : indexed r → size (rp_live_tombstones r) = size (dead_entries (rp_map r)).
Proof.
  intros [_ Ht]. rewrite <- (size_dom (D := gset K)). f_equal. apply set_eq. intros k. rewrite Ht, elem_of_dom. unfold dead_entries. split.
  - intros (e & Hk & He). exists e. by apply map_lookup_filter_Some.
  - intros [e He]. apply map_lookup_filter_Some in He as [Hk He]. by exists e.
Qed.

Lemma entries_split (m : gmap K E) : size m = size (live_entries m) + size (dead_entries m).
Proof.
  rewrite <- (map_filter_union_complement (λ kv : K * E, is_tombstone kv.2 = false) m) at 1.
  rewrite map_size_disj_union by apply map_disjoint_filter_complement. f_equal. f_equal. apply map_filter_ext. intros k e _. cbn.
  destruct (is_tombstone e); naive_solver.
Qed.

Lemma live_entry_split a b : live_entry_count (N.of_nat (a + b)) (N.of_nat b) = N.of_nat a.
Proof. unfold live_entry_count, saturating_sub. lia. Qed.

(** What is recorded while the targets are contacted is of the sends. *)
Lemma contact_all_egress targets payload now e e' a l :
  step_contact_all blake3_hash wall nonce authenticator framing repair_interval port targets payload now e = Some (e', a, l) →
  Forall (λ c, metric_of c ∈ egress_metrics) l.
Proof.
  revert e e' l. induction targets as [|p targets IH]; intros e e' l; cbn [step_contact_all]; [by intros [= <- <- <-]|].
  unfold mbind, Step_bind, sending, modify, metered_send_to_retry.
  pose proof (counts_payload blake3_hash authenticator framing wall nonce Hon (p, port) payload now
    {| s_counter := s_counter (en_send e); s_book := book_for_identity; s_net := s_net (en_send e); s_log := s_log (en_send e) |}) as [_ _ _ Ho _].
  destruct (metered_logical_payload _ _ _ _ _ _ _ _ _) as [[s' res] l1]. cbn [fst snd] in Ho. cbn.
  destruct (step_contact_all _ _ _ _ _ _ _ _ _ _ _) as [[[e2 b] l2]|] eqn:Hc; [|done]. cbn. intros [= <- <- <-].
  apply Forall_app. split; [done|by eapply IH].
Qed.

(** The gauges of a round say what the replica held when it began. *)
Lemma round_gauges rd discovered now later broadcasts e e' rd' l old : indexed (en_replica e) →
  step_round rd discovered now later broadcasts e = Some (e', rd', l) →
  let m := rp_map (en_replica e) in
  gauge ENTRIES_CURRENT old l = N.of_nat (size (live_entries m)) ∧ gauge TOMBSTONES_CURRENT old l = N.of_nat (size (dead_entries m)) ∧
  gauge MEMBERS_CURRENT old l = N.of_nat (size (rp_members (en_replica e))) ∧
  gauge PEERS_CURRENT old l = len (get_peers (en_peers e) now).2 ∧
  gauge BULK_DUMPS_IN_FLIGHT old l = bulk_dumps_in_flight (en_dumps e) ∧ gauge BROADCASTS_IN_FLIGHT old l = broadcasts.
Proof.
  intros Hi. unfold MeteredEngine.step_round, mbind, Step_bind, record, get, modify. cbn [mbind option_bind].
  rewrite (tombstone_index_size _ Hi), (entries_split (rp_map (en_replica e))).
  destruct (get_peers (en_peers e) now) as [peers known]. destruct (round_targets _ _ _ _ _ _ _ _ _) as [rng targets].
  destruct (resend_held_tombstone_acks _ _ _ _ _) as [[payload cursor] acks].
  destruct (step_contact_all _ _ _ _ _ _ _ _ _ _ _) as [[[e1 b] lc]|] eqn:Hc; [|done]. apply contact_all_egress in Hc.
  intros [= <- <- <-]. cbn [snd]. clear Hi. rewrite ?app_nil_l, ?app_nil_r.
  set (rest := (match elements _ with [] => [] | _ => _ end) ++ _).
  assert (Hr : Forall (λ c, metric_of c ∈ TOMBSTONE_ACKS_RESENT_TOTAL :: ROUND_DURATION_SECONDS :: egress_metrics) rest).
  { unfold rest. rewrite !Forall_app. split_and!.
    - unfold record_tombstone_acks_resent, calls. rewrite Hon. case_match; repeat constructor.
    - eapply Forall_impl; [exact Hc|]. intros c Hin. by do 2 right.
    - unfold record_round_duration, record_duration, timer, calls. rewrite Hon. constructor; [right; left|constructor]. }
  unfold record_reconcile_round, record_state_gauges, calls. rewrite Hon, live_entry_split.
  split_and!; (rewrite !gauge_app; etransitivity; [eapply gauge_other; [exact Hr|decided]|reflexivity]).
Qed.

(** *** A dropped datagram leaves the replica alone *)

Definition inert {A} (m : Step A) : Prop := ∀ e e' a l, m e = Some (e', a, l) → total DATAGRAMS_DROPPED_TOTAL l ≠ 0%N →
  en_replica e' = en_replica e.

Lemma inert_books {A} rc rd (m : Step A) : books rc 0 rd m → inert m.
Proof. intros Hm e e' a l He Hd. destruct (Hm _ _ _ _ He). lia. Qed.

(** Before the drop the replica is kept, after it nothing is counted. *)
Lemma inert_bind {A B} (m : Step A) (k : A → Step B) : books 0 0 0 m → (∀ e e' a l, m e = Some (e', a, l) → en_replica e' = en_replica e) →
  (∀ a, inert (k a)) → inert (m ≫= k).
Proof.
  intros Hm Hr Hk e e' b l. change ((m ≫= k) e) with (Step_bind A B k m e). unfold Step_bind.
  destruct (m e) as [[[e1 a] l1]|] eqn:E1; [|done]. cbn. destruct (k a e1) as [[[e2 b2] l2]|] eqn:E2; [|done]. cbn. intros [= -> -> <-].
  rewrite total_app. destruct (Hm _ _ _ _ E1). intros Hd. rewrite <- (Hr _ _ _ _ E1). eapply Hk; [exact E2|]. lia.
Qed.

Lemma sending_keeps_replica {A} (m : Metered A) e e' a l : sending m e = Some (e', a, l) → en_replica e' = en_replica e.
Proof. unfold sending, run_send. destruct (m (en_send e)) as [[s b] l1]. by intros [= <- <- <-]. Qed.

Lemma inert_payload payload peer now later meanwhile : inert (step_payload payload peer now later meanwhile).
Proof.
  unfold MeteredEngine.step_payload. apply inert_bind; [booking|by intros e e' a l [= <- <- <-]|intros _]. unfold MeteredEngine.step_messages.
  destruct (decode_datagram deserialize payload) as [batch|].
  - apply (inert_books 0 0), (books_bind 0 0 0 0 0 0); [booking|intros []; booking].
  - intros e e' a l. unfold mbind, Step_bind, record, mret, Step_ret. cbn. by intros [= <- <- <-].
Qed.

Lemma inert_frame_event ev peer now later meanwhile : inert (step_frame_event ev peer now later meanwhile).
Proof.
  destruct ev as [payload completed|id ranges|id ranges|id|]; [|eapply (inert_books 0 0), (books_frame_event (RequestMissing id ranges))
    |eapply (inert_books 0 0), (books_frame_event (EvMissing id ranges))|eapply (inert_books 0 0), (books_frame_event (EvCompleteAck id))
    |eapply (inert_books 0 0), (books_frame_event EvPending)].
  cbn [MeteredEngine.step_frame_event]. apply inert_bind; [booking| |intros _; apply inert_payload].
  intros e e' a l. destruct completed as [id|]; [|by intros [= <- <- <-]]. unfold mbind, Step_bind, step_supports.
  destruct (sending _ e) as [[[e1 []] l1]|] eqn:E1; [| |done]; apply sending_keeps_replica in E1; cbn; [|by intros [= <- <- <-]].
  destruct (sending _ e1) as [[[e2 r] l2]|] eqn:E2; [|done]. apply sending_keeps_replica in E2. intros [= <- <- <-]. congruence.
Qed.

Lemma inert_datagram datagram peer now_ms now later meanwhile : inert (step_datagram datagram peer now_ms now later meanwhile).
Proof.
  intros e e' a l. unfold MeteredEngine.step_datagram, mbind, Step_bind, record, get, modify. cbn [mbind option_bind].
  case_match; [by intros [= <- <- <-]|]. cbn [mbind option_bind].
  destruct (admit_inbound _ _ _ _ _ _ _) as [f [pl|rej]]; [|by intros [= <- <- <-]].
  destruct (metered_accept_frame _ _ _ _ _ _) as [[[ra ev] l1]|] eqn:Ha; [|done]. cbn [mbind option_bind].
  destruct (step_frame_event ev peer now later meanwhile (set_inbound e f ra)) as [[[e2 []] l2]|] eqn:He; [|done]. cbn. intros [= <- <- <-].
  apply accept_frame_entry in Ha as (dr & Hl & Hdr). destruct Hdr as [->|[-> ->]]; [|by injection He as <- <-].
  rewrite !total_app, (en_dropped _ _ _ _ _ _ Hl). intros Hd. change (en_replica e) with (en_replica (set_inbound e f ra)). eapply inert_frame_event; [exact He|].
  intros Hz. apply Hd. rewrite Hz. destruct (entry_received 0 (N.min (len datagram) (BUFFER_SIZE + 1))). lia.
Qed.

(** ** The theorems *)

(** C35. The metrics of a run are exact: whatever happens, local writes and their broadcasts included,
    each datagram received is counted once and
    dropped at most once, with the failed receives; each round is counted; each frame that was
    sealed is counted as sent or as failed, and the messages and bytes sent are those the
    transport accepted; retransmitted fragments are among the fragments sent, and these among the
    datagrams; the gauge of retained fragment bytes is what the reassembler retains; and every call
    is of a described metric of its kind. *)
Theorem run_metrics_exact e rd os l e' rd' : metered_run (e, rd) os l (e', rd') →
  total MESSAGES_RECEIVED_TOTAL l = occasions Received os ∧
  (total DATAGRAMS_DROPPED_TOTAL l ≤ occasions Received os + occasions ReceiveFailed os)%N ∧
  total ROUNDS_TOTAL l = occasions IdleRound os ∧
  (∃ frames, s_log (en_send e') = s_log (en_send e) ++ frames ∧
     (total MESSAGES_SENT_TOTAL l + total SEND_FAILURES_TOTAL l = len frames)%N) ∧
  (∃ answers, s_net (en_send e) = answers ++ s_net (en_send e') ∧
     total MESSAGES_SENT_TOTAL l = len (accepted answers) ∧ total BYTES_SENT_TOTAL l = sum (accepted answers)) ∧
  (total SELECTIVE_RECOVERY_RETRANSMITTED_FRAGMENTS_TOTAL l ≤ total FRAGMENTS_SENT_TOTAL l ≤ total MESSAGES_SENT_TOTAL l)%N ∧
  gauge REASSEMBLY_BYTES_CURRENT (retained_bytes (en_reassembler e)) l = retained_bytes (en_reassembler e') ∧
  calls_ok l.
Proof. intros Hr%run_ledger. destruct Hr as [? ? [? ?] ? ? ? ? ?]. by split_and!. Qed.

(** A datagram that is counted as dropped, for whatever reason, has left the replica as it was. *)
Theorem dropped_datagrams_inert datagram peer now_ms now later meanwhile e e' l :
  step_datagram datagram peer now_ms now later meanwhile e = Some (e', tt, l) →
  (0 < total DATAGRAMS_DROPPED_TOTAL l)%N → en_replica e' = en_replica e.
Proof. intros Hs Hd. eapply inert_datagram; [exact Hs|]. lia. Qed.

Section gauges.
Context (tombstone_stamped : ∀ (e : E) (s : S), is_tombstone (set_stamp (V := V) (St := St) e s) = is_tombstone e)
        (tombstone_edited : ∀ f (e : E), is_tombstone (value_mut (S := S) (St := St) f e) = is_tombstone e).

Lemma critical_run_indexed (r r' : Replica K E St P) : rtc critical r r' → (rp_changes r < u64_modulus)%N → indexed r → indexed r'.
Proof.
  induction 1 as [r|r r1 r' Hc _ IH]; [done|]. intros Hr Hi.
  destruct (critical_logged tombstone_stamped tombstone_edited r r1 Hr Hc) as [(ms & _ & Hn) Hi1]. apply IH; [|auto].
  rewrite Hn. unfold wrapping_add64, u64_modulus. apply N.mod_lt. done.
Qed.

(** The gauges a round refreshes say what the node holds: after any history of its critical
    sections, the live entries and the tombstones of the map, the members, the peers that have not
    expired, and the dump and broadcast slots taken. *)
Theorem round_gauges_exact rd discovered now later broadcasts e e' rd' l old : rtc critical replica_new (en_replica e) →
  step_round rd discovered now later broadcasts e = Some (e', rd', l) →
  let m := rp_map (en_replica e) in
  gauge ENTRIES_CURRENT old l = N.of_nat (size (live_entries m)) ∧ gauge TOMBSTONES_CURRENT old l = N.of_nat (size (dead_entries m)) ∧
  gauge MEMBERS_CURRENT old l = N.of_nat (size (rp_members (en_replica e))) ∧
  gauge PEERS_CURRENT old l = len (get_peers (en_peers e) now).2 ∧
  gauge BULK_DUMPS_IN_FLIGHT old l = bulk_dumps_in_flight (en_dumps e) ∧ gauge BROADCASTS_IN_FLIGHT old l = broadcasts.
Proof. intros Hc. apply round_gauges. eapply critical_run_indexed; [exact Hc|done|apply indexed_new]. Qed.
End gauges.
End run.

(** ** A concrete run *)

#[local] Existing Instances small_lww small_state toy_mac toy_aead.
#[local] Instance recording : MetricsFeature := true.

Notation small_metered := (metered_run (Net := N) pad32 (λ q, q) demo_nonce small_encode small_deserialize small_range small_states
  small_round small_round (λ _, small_fp) (λ _, [tt]) small_contains small_shuffle Disabled demo_framing 4 1 (seconds 1) 1%N).
Notation small_step := (step_datagram pad32 (λ q, q) demo_nonce small_encode small_deserialize small_range small_states
  small_round small_round (λ _, small_fp) Disabled demo_framing 4 1 (seconds 1)).

(** A datagram with an update, one of garbage, and a failed receive. *)
Lemma run_metrics_exact_witness : ∃ e l, small_metered (small_engine, small_start) [Received; Received; ReceiveFailed] l (e, small_start) ∧
  total MESSAGES_RECEIVED_TOTAL l = 2%N ∧ (0 < total DATAGRAMS_DROPPED_TOTAL l)%N ∧ calls_ok l.
Proof.
  destruct (small_step small_datagram (7%N, 1%N) 0%N 0%N 0%N id small_engine) as [[[e1 []] l1]|] eqn:H1; [|vm_compute in H1; discriminate].
  destruct (small_step [x63] (7%N, 1%N) 0%N 0%N 0%N id e1) as [[[e2 []] l2]|] eqn:H2;
    [|vm_compute in H1; injection H1 as <- <-; vm_compute in H2; discriminate].
  set (l := l1 ++ l2 ++ record_datagram_dropped "recv_error" ++ []).
  assert (Hr : small_metered (small_engine, small_start) [Received; Received; ReceiveFailed] l (e2, small_start)).
  { eapply mr_step; [eapply ms_datagram; [intros r; apply (rtc_refl critical r)|exact H1]|].
    eapply mr_step; [eapply ms_datagram; [intros r; apply (rtc_refl critical r)|exact H2]|].
    eapply mr_step; [apply ms_recv_error; reflexivity|apply mr_done]. }
  exists e2, l. split; [exact Hr|].
  destruct (run_metrics_exact pad32 (λ q, q) demo_nonce small_encode small_deserialize small_range small_states small_round small_round
    (λ _, small_fp) (λ _, [tt]) small_contains small_shuffle Disabled demo_framing 4 1 (seconds 1) 1 eq_refl
    small_engine small_start _ l e2 small_start Hr) as (Hm & _ & _ & _ & _ & _ & _ & Hk).
  split_and!; [exact Hm| |exact Hk]. unfold l. rewrite !total_app. change (total DATAGRAMS_DROPPED_TOTAL (record_datagram_dropped "recv_error")) with 1%N. lia.
Defined.
