(* ===== verification/MetricsWrites.v ===== *)
(** * What the local writers record ([src/replica/write.rs], [src/replicated_map/write.rs], [mutate.rs])

    The operations of [Writes] with the metrics they record, and what the counters of local writes
    and of skipped broadcasts say after any sequence of them. *)
From stdpp Require Import gmap list strings relations.
From Stdlib Require Import NArith.
From S2P Require Import Prelude RecoveryBook Journal SignedCausal Messages Replica Samples ReplicaInv ReplicaProps Dumps Repair Writes Metrics.

Section writes.
Context {K V S E C St P : Type} `{Countable K, Countable P} `{Lww V S E C} `{!EntryState V S E St}.
Context `{!RustOrd K, !RustOrd S} `{!EqDecision S} `{MetricsFeature}.
Context (encoded_size : V → N) (max_concurrent_broadcasts : N) (max_value_size : option N).
Notation Store := (Store (K := K) (E := E) (C := C) (St := St) (P := P)).
Notation try_claim_broadcast_slot := (try_claim_broadcast_slot max_concurrent_broadcasts).
Notation check_value_size := (check_value_size encoded_size max_value_size).
Notation Calls := (list MetricCall).
Implicit Types (s : Store).

(** ** The operations *)

(** What [just_insert] and [just_insert_bulk] record for one entry. *)
Definition entry_calls (v : E) : Calls := if is_tombstone v then record_remove else record_insert.

Definition metered_broadcast s (updates : list (K * E)) (now : N) : Store * Calls :=
  let '(s, claimed) := try_claim_broadcast_slot s in
  if (claimed : bool) then (spawn_broadcast s updates now, []) else (s, record_broadcast_backpressure "eager").

Definition metered_queue_broadcast s (key_values : list (K * E)) (now : N) : Store * Calls :=
  let '(pending, scheduled, batch) := queue_updates (ws_pending s) (ws_window s) key_values in
  let s := set_pending s pending (if (scheduled : bool) then Datatypes.S (ws_flushes s) else ws_flushes s) in
  match batch with Some messages => metered_broadcast s messages now | None => (s, []) end.

Definition metered_run_flush s (now : N) : Store * Calls :=
  let '(pending, batch) := flush_updates (ws_pending s) in
  let s := set_pending s pending (Nat.pred (ws_flushes s)) in
  match batch with Some messages => metered_broadcast s messages now | None => (s, []) end.

Definition metered_just_insert (r : Replica K E St P) (key : K) (v : E) : Replica K E St P * option E * Calls :=
  (just_insert r key v, entry_calls v).

Definition metered_just_insert_bulk (r : Replica K E St P) (key_values : list (K * E)) : Replica K E St P * Calls :=
  (just_insert_bulk r key_values, key_values ≫= λ kv, entry_calls kv.2).

Definition metered_engine_insert s (key : K) (v : E) (now : N) : Store * option E * Calls :=
  let '(r, ret, l) := metered_just_insert (ws_replica s) key v in
  let '(s, l') := metered_queue_broadcast (set_state s r (ws_clock s)) [(key, v)] now in (s, ret, l ++ l').

Definition metered_engine_insert_bulk s (key_values : list (K * E)) (now : N) : Store * Calls :=
  let '(r, l) := metered_just_insert_bulk (ws_replica s) key_values in
  let '(s, l') := metered_queue_broadcast (set_state s r (ws_clock s)) key_values now in (s, l ++ l').

Definition metered_engine_try_insert s (key : K) (v : E) (now : N) : Store * option (option E) * Calls :=
  let '(s, claimed) := try_claim_broadcast_slot s in
  if (claimed : bool) then
    let '(r, ret, l) := metered_just_insert (ws_replica s) key v in
    (spawn_broadcast (set_state s r (ws_clock s)) [(key, v)] now, Some ret, l)
  else (s, None, []).

Definition metered_insert s (key : K) (v : V) (now : N) : Store * Calls :=
  let '(s, t) := clock_tick s in let '(s, _, l) := metered_engine_insert s key (present t v) now in (s, l).

Definition metered_remove s (key : K) (now : N) : Store * Calls :=
  let '(s, t) := clock_tick s in let '(s, _, l) := metered_engine_insert s key (tombstone t) now in (s, l).

Definition metered_insert_bulk s (key_values : list (K * V)) (now : N) : Store * Calls :=
  let '(s, kvs) := stamp_all (λ t '(k, v), (k, present t v)) s key_values in metered_engine_insert_bulk s kvs now.

Definition metered_load_bulk s (key_values : list (K * V)) : Store * Calls :=
  let '(s, kvs) := stamp_all (λ t '(k, v), (k, present t v)) s key_values in
  let '(r, l) := metered_just_insert_bulk (ws_replica s) kvs in (set_state s r (ws_clock s), l).

Definition metered_remove_bulk s (keys : list K) (now : N) : Store * Calls :=
  let '(s, kvs) := stamp_all (λ t k, (k, tombstone t)) s keys in metered_engine_insert_bulk s kvs now.

Definition metered_try_insert s (key : K) (v : V) (now : N) : Store * Calls :=
  match check_value_size v with
  | Err _ => (s, [])
  | Ok _ => let '(s, t) := clock_tick s in let '(s, _, l) := metered_engine_try_insert s key (present t v) now in (s, l)
  end.

Definition metered_get_mut s (key : K) (callback : V → V) (now : N) : Store * Calls :=
  let '(s, t) := clock_tick s in
  let '(r, updated) := get_mut (ws_replica s) t key callback in
  let s := set_state s r (ws_clock s) in
  match updated with Some entry => metered_queue_broadcast s [(key, entry)] now | None => (s, []) end.

Definition metered_mutate_live s (key : K) (callback : V → V) (now : N) : option (Store * bool * Calls) :=
  let '(s, t) := clock_tick s in
  '(r, res) ← mutate_live_checked (Er := ValueTooLarge) (ws_replica s) t key callback (λ _, Ok tt);
  let s := set_state s r (ws_clock s) in
  match res with
  | Ok (Some entry) => let '(s, l) := metered_queue_broadcast s [(key, entry)] now in Some (s, true, l)
  | Ok None => Some (s, false, [])
  | Err _ => None
  end.

(** The slot is claimed without [broadcast], and a refusal is only returned. *)
Definition metered_try_update s (key : K) (f : V → V) (now : N) : option (Store * Calls) :=
  '(s, _) ← try_update encoded_size max_concurrent_broadcasts max_value_size s key f now; Some (s, []).

Definition metered_upsert s (key : K) (default : V) (f : V → V) (now : N) : option (Store * Calls) :=
  '(s, live, l) ← metered_mutate_live s key f now;
  Some (if (live : bool) then (s, l) else let '(s, l') := metered_insert s key default now in (s, l ++ l')).

Definition metered_get_or_insert_with s (key : K) (v : V) (now : N) : Store * Calls :=
  match get_live s key with Some _ => (s, []) | None => metered_insert s key v now end.

Definition metered_remove_selected s (keys : list K) (now : N) : Store * Calls :=
  match keys with [] => (s, []) | _ => metered_remove_bulk s keys now end.

(** ** A sequence of calls *)

Inductive WriteOp :=
| OInsert (key : K) (v : V) | ORemove (key : K) | OInsertBulk (kvs : list (K * V)) | OLoadBulk (kvs : list (K * V))
| ORemoveBulk (keys : list K) | OTryInsert (key : K) (v : V) | OGetMut (key : K) (f : V → V) | OUpdate (key : K) (f : V → V)
| OTryUpdate (key : K) (f : V → V) | OUpsert (key : K) (v : V) (f : V → V) | OGetOrInsert (key : K) (v : V)
| OClear | ORetain (keep : K → V → bool) | ODeleteRange (range : EnumerationRange K) | OFlush.

Definition write s (op : WriteOp) (now : N) : option Store :=
  match op with
  | OInsert k v => Some (store_insert max_concurrent_broadcasts s k v now).1
  | ORemove k => Some (store_remove max_concurrent_broadcasts s k now).1
  | OInsertBulk kvs => Some (store_insert_bulk max_concurrent_broadcasts s kvs now)
  | OLoadBulk kvs => Some (load_bulk s kvs)
  | ORemoveBulk ks => Some (remove_bulk max_concurrent_broadcasts s ks now)
  | OTryInsert k v => Some (try_insert encoded_size max_concurrent_broadcasts max_value_size s k v now).1
  | OGetMut k f => Some (store_get_mut max_concurrent_broadcasts s k f now)
  | OUpdate k f => fst <$> mutate_live max_concurrent_broadcasts s k f now
  | OTryUpdate k f => fst <$> try_update encoded_size max_concurrent_broadcasts max_value_size s k f now
  | OUpsert k v f => upsert max_concurrent_broadcasts s k v f now
  | OGetOrInsert k v => Some (get_or_insert_with max_concurrent_broadcasts s k v now).1
  | OClear => Some (store_clear max_concurrent_broadcasts s now)
  | ORetain keep => Some (store_retain max_concurrent_broadcasts s keep now)
  | ODeleteRange range => Some (delete_range max_concurrent_broadcasts s range now)
  | OFlush => Some (run_flush max_concurrent_broadcasts s now)
  end.

Definition metered_write s (op : WriteOp) (now : N) : option (Store * Calls) :=
  match op with
  | OInsert k v => Some (metered_insert s k v now)
  | ORemove k => Some (metered_remove s k now)
  | OInsertBulk kvs => Some (metered_insert_bulk s kvs now)
  | OLoadBulk kvs => Some (metered_load_bulk s kvs)
  | ORemoveBulk ks => Some (metered_remove_bulk s ks now)
  | OTryInsert k v => Some (metered_try_insert s k v now)
  | OGetMut k f => Some (metered_get_mut s k f now)
  | OUpdate k f => '(s, _, l) ← metered_mutate_live s k f now; Some (s, l)
  | OTryUpdate k f => metered_try_update s k f now
  | OUpsert k v f => metered_upsert s k v f now
  | OGetOrInsert k v => Some (metered_get_or_insert_with s k v now)
  | OClear => Some (metered_remove_selected s (live_keys_where s (λ _ _, true)) now)
  | ORetain keep => Some (metered_remove_selected s (live_keys_where s (λ k v, negb (keep k v))) now)
  | ODeleteRange range => Some (metered_remove_selected s (live_keys_where s (λ k _, in_range k range)) now)
  | OFlush => Some (metered_run_flush s now)
  end.

(** ** What the operations do to the store, counted independently of the calls *)

Definition accepts s (v : V) : bool :=
  match check_value_size v with Ok _ => (ws_in_flight s <? max_concurrent_broadcasts)%N | Err _ => false end.
Definition one (b : bool) : N := if b then 1%N else 0%N.
Definition alive s (key : K) : bool := bool_decide (is_Some (get_live s key)).

Definition inserted s (op : WriteOp) : N :=
  match op with
  | OInsert _ _ => 1%N
  | OInsertBulk kvs | OLoadBulk kvs => len kvs
  | OTryInsert _ v => one (accepts s v)
  | OUpsert k _ _ | OGetOrInsert k _ => one (negb (alive s k))
  | _ => 0%N
  end.

Definition removed s (op : WriteOp) : N :=
  match op with
  | ORemove _ => 1%N
  | ORemoveBulk ks => len ks
  | OClear => len (live_keys_where s (λ _ _, true))
  | ORetain keep => len (live_keys_where s (λ k v, negb (keep k v)))
  | ODeleteRange range => len (live_keys_where s (λ k _, in_range k range))
  | _ => 0%N
  end.

Definition edited s (op : WriteOp) (now : N) : N :=
  match op with
  | OGetMut k _ => one (bool_decide (is_Some (rp_map (ws_replica s) !! k)))
  | OUpdate k _ | OUpsert k _ _ => one (alive s k)
  | OTryUpdate k f =>
      match try_update encoded_size max_concurrent_broadcasts max_value_size s k f now with Some (_, Ok true) => 1%N | _ => 0%N end
  | _ => 0%N
  end.

Fixpoint writes s (ops : list (WriteOp * N)) : option Store :=
  match ops with [] => Some s | (op, now) :: ops => s ← write s op now; writes s ops end.

Fixpoint metered_writes s (ops : list (WriteOp * N)) : option (Store * Calls) :=
  match ops with
  | [] => Some (s, [])
  | (op, now) :: ops => '(s, l) ← metered_write s op now; '(s, l') ← metered_writes s ops; Some (s, l ++ l')
  end.

(** [count] of each operation, in the state it ran in. *)
Fixpoint sum_over (count : Store → WriteOp → N → N) s (ops : list (WriteOp * N)) : N :=
  match ops with
  | [] => 0%N
  | (op, now) :: ops => (count s op now + match write s op now with Some s => sum_over count s ops | None => 0 end)%N
  end.

(** ** Recording changes nothing *)

Lemma broadcast_erased s updates now : (metered_broadcast s updates now).1 = broadcast max_concurrent_broadcasts s updates now.
Proof. unfold metered_broadcast, broadcast. by destruct (try_claim_broadcast_slot s) as [s1 []]. Qed.

Lemma queue_erased s kvs now : (metered_queue_broadcast s kvs now).1 = queue_broadcast max_concurrent_broadcasts s kvs now.
Proof.
  unfold metered_queue_broadcast, queue_broadcast. destruct (queue_updates _ _ _) as [[pending scheduled] [batch|]]; [|done].
  apply broadcast_erased.
Qed.

Lemma flush_erased s now : (metered_run_flush s now).1 = run_flush max_concurrent_broadcasts s now.
Proof. unfold metered_run_flush, run_flush. destruct (flush_updates _) as [pending [batch|]]; [|done]. apply broadcast_erased. Qed.

Lemma engine_insert_erased s k v now : (metered_engine_insert s k v now).1 = engine_insert max_concurrent_broadcasts s k v now.
Proof.
  unfold metered_engine_insert, engine_insert, metered_just_insert. destruct (just_insert _ _ _) as [r ret].
  rewrite <- queue_erased. by destruct (metered_queue_broadcast _ _ _).
Qed.

Lemma engine_bulk_erased s kvs now : (metered_engine_insert_bulk s kvs now).1 = engine_insert_bulk max_concurrent_broadcasts s kvs now.
Proof.
  unfold metered_engine_insert_bulk, engine_insert_bulk, metered_just_insert_bulk. rewrite <- queue_erased.
  by destruct (metered_queue_broadcast _ _ _).
Qed.

Lemma try_insert_erased s k v now :
  (metered_try_insert s k v now).1 = (try_insert encoded_size max_concurrent_broadcasts max_value_size s k v now).1.
Proof.
  unfold metered_try_insert, try_insert. destruct (check_value_size v); [|done]. destruct (clock_tick s) as [s1 t].
  unfold metered_engine_try_insert, engine_try_insert, metered_just_insert. destruct (try_claim_broadcast_slot s1) as [s2 []]; [|done].
  by destruct (just_insert _ _ _).
Qed.

Lemma insert_erased s k v now : (metered_insert s k v now).1 = (store_insert max_concurrent_broadcasts s k v now).1.
Proof.
  unfold metered_insert, store_insert. destruct (clock_tick s) as [s1 t]. rewrite <- engine_insert_erased.
  by destruct (metered_engine_insert _ _ _ _) as [[??] ?].
Qed.

Lemma remove_erased s k now : (metered_remove s k now).1 = (store_remove max_concurrent_broadcasts s k now).1.
Proof.
  unfold metered_remove, store_remove. destruct (clock_tick s) as [s1 t]. rewrite <- engine_insert_erased.
  by destruct (metered_engine_insert _ _ _ _) as [[??] ?].
Qed.

Lemma remove_bulk_erased s ks now : (metered_remove_bulk s ks now).1 = remove_bulk max_concurrent_broadcasts s ks now.
Proof. unfold metered_remove_bulk, remove_bulk. destruct (stamp_all _ _ _) as [s1 kvs]. apply engine_bulk_erased. Qed.

Lemma selected_erased s ks now : (metered_remove_selected s ks now).1 = remove_selected max_concurrent_broadcasts s ks now.
Proof. destruct ks; [done|]. apply remove_bulk_erased. Qed.

Lemma get_mut_erased s k f now : (metered_get_mut s k f now).1 = store_get_mut max_concurrent_broadcasts s k f now.
Proof.
  unfold metered_get_mut, store_get_mut. destruct (clock_tick s) as [s1 t]. destruct (get_mut _ _ _ _) as [r [entry|]]; [|done].
  apply queue_erased.
Qed.

Lemma mutate_erased s k f now : fst <$> metered_mutate_live s k f now = mutate_live max_concurrent_broadcasts s k f now.
Proof.
  unfold metered_mutate_live, mutate_live. destruct (clock_tick s) as [s1 t].
  destruct (mutate_live_checked _ _ _ _ _) as [[r [[entry|]|err]]|]; cbn [mbind option_bind]; [|done..].
  rewrite <- queue_erased. by destruct (metered_queue_broadcast _ _ _).
Qed.

Lemma upsert_erased s k v f now : fst <$> metered_upsert s k v f now = upsert max_concurrent_broadcasts s k v f now.
Proof.
  unfold metered_upsert, upsert. rewrite <- mutate_erased. destruct (metered_mutate_live s k f now) as [[[s1 live] l]|]; [|done].
  cbn [fmap option_fmap option_map mbind option_bind fst]. destruct live; [done|]. rewrite <- insert_erased.
  by destruct (metered_insert _ _ _ _).
Qed.

Lemma write_erased s op now : fst <$> metered_write s op now = write s op now.
Proof.
  destruct op; cbn [metered_write write fmap option_fmap option_map].
  - by rewrite insert_erased.
  - by rewrite remove_erased.
  - unfold metered_insert_bulk, store_insert_bulk. destruct (stamp_all _ _ _) as [s1 l]. by rewrite engine_bulk_erased.
  - unfold metered_load_bulk, load_bulk. by destruct (stamp_all _ _ _) as [s1 l].
  - by rewrite remove_bulk_erased.
  - by rewrite try_insert_erased.
  - by rewrite get_mut_erased.
  - rewrite <- mutate_erased. by destruct (metered_mutate_live _ _ _ _) as [[[??]?]|].
  - unfold metered_try_update. by destruct (try_update _ _ _ _ _ _ _) as [[??]|].
  - apply upsert_erased.
  - unfold metered_get_or_insert_with, get_or_insert_with. destruct (get_live s key); [done|]. by rewrite insert_erased.
  - by rewrite selected_erased.
  - by rewrite selected_erased.
  - by rewrite selected_erased.
  - by rewrite flush_erased.
Qed.

Lemma writes_erased s ops : fst <$> metered_writes s ops = writes s ops.
Proof.
  revert s. induction ops as [|[op now] ops IH]; intros s; cbn [metered_writes writes]; [done|]. rewrite <- write_erased.
  destruct (metered_write s op now) as [[s1 l]|]; [|done]. cbn [fmap option_fmap option_map mbind option_bind fst].
  rewrite <- IH. by destruct (metered_writes s1 ops) as [[??]|].
Qed.

(** ** The ledger of a write *)

Context (Hon : metrics_on = true) (Hbudget : (max_concurrent_broadcasts ≤ u64_max)%N).
Context (present_live : ∀ (t : S) (v : V), is_tombstone (present t v) = false) (tombstone_dead : ∀ t : S, is_tombstone (tombstone t) = true).

(** [inserts], [removes] and [edits] changes made; broadcasts skipped only at the budget. *)
Record write_ledger (inserts removes edits : N) s s' (l : Calls) : Prop := {
  wl_inserts : total INSERTS_TOTAL l = inserts;
  wl_removes : total REMOVES_TOTAL l = removes;
  wl_changes : (rp_changes (ws_replica s') mod u64_modulus
                = (rp_changes (ws_replica s) + (inserts + removes + edits)) mod u64_modulus)%N;
  wl_claims : (ws_in_flight s ≤ ws_in_flight s')%N;
  wl_skipped : (0 < total BROADCAST_BACKPRESSURE_TOTAL l → max_concurrent_broadcasts ≤ ws_in_flight s')%N;
  wl_labels : Forall (λ path, path = "eager") (labels BROADCAST_BACKPRESSURE_TOTAL l);
  wl_kinds : calls_ok l;
}.

Lemma write_ledger_trans i1 r1 e1 i2 r2 e2 s1 s2 s3 l1 l2 :
  write_ledger i1 r1 e1 s1 s2 l1 → write_ledger i2 r2 e2 s2 s3 l2 → write_ledger (i1 + i2) (r1 + r2) (e1 + e2) s1 s3 (l1 ++ l2).
Proof.
  intros [Hi1 Hr1 Hc1 Hb1 Hs1 Hl1 Hk1] [Hi2 Hr2 Hc2 Hb2 Hs2 Hl2 Hk2]. constructor; rewrite ?total_app; try lia.
  - rewrite Hc2, <- N.Div0.add_mod_idemp_l, Hc1, N.Div0.add_mod_idemp_l. f_equal. lia.
  - unfold labels. rewrite omap_app. by apply Forall_app.
  - by apply calls_ok_app.
Qed.

(** Nothing but the clock, the buffer or the peers. *)
Lemma ledger_quiet s s' : rp_changes (ws_replica s') = rp_changes (ws_replica s) → (ws_in_flight s ≤ ws_in_flight s')%N →
  write_ledger 0 0 0 s s' [].
Proof. intros Hc Hf. constructor; [done|done|by rewrite Hc, N.add_0_r|done|by vm_compute|constructor|constructor]. Qed.

Lemma ledger_tick s s1 t : clock_tick s = (s1, t) → write_ledger 0 0 0 s s1 [].
Proof. unfold clock_tick. destruct (clock_now _). intros [= <- _]. by apply ledger_quiet. Qed.

Lemma ledger_stamps {X} (entry : S → X → K * E) s l s1 kvs : stamp_all entry s l = (s1, kvs) → write_ledger 0 0 0 s s1 [].
Proof.
  revert s kvs. induction l as [|x l IH]; intros s kvs; cbn [stamp_all]; [intros [= <- _]; by apply ledger_quiet|].
  destruct (clock_tick s) as [s2 t] eqn:Ht. destruct (stamp_all entry s2 l) as [s3 kvs'] eqn:Hs. intros [= <- _].
  exact (write_ledger_trans 0 0 0 0 0 0 _ _ _ _ _ (ledger_tick _ _ _ Ht) (IH _ _ Hs)).
Qed.

Lemma ledger_claim s s1 : try_claim_broadcast_slot s = (s1, true) → write_ledger 0 0 0 s s1 [].
Proof. unfold Writes.try_claim_broadcast_slot. destruct (_ <? _)%N; [|done]. intros [= <-]. apply ledger_quiet; [done|]. cbn. lia. Qed.

Lemma ledger_spawn s updates now : write_ledger 0 0 0 s (spawn_broadcast s updates now) [].
Proof. by apply ledger_quiet. Qed.

Lemma ledger_broadcast s updates now s' l : metered_broadcast s updates now = (s', l) → write_ledger 0 0 0 s s' l.
Proof.
  unfold metered_broadcast. destruct (try_claim_broadcast_slot s) as [s1 []] eqn:Hc; intros [= <- <-].
  - exact (write_ledger_trans 0 0 0 0 0 0 _ _ _ _ _ (ledger_claim _ _ Hc) (ledger_spawn _ _ _)).
  - unfold Writes.try_claim_broadcast_slot in Hc. destruct (N.ltb_spec (ws_in_flight s) max_concurrent_broadcasts); [done|].
    injection Hc as <-. unfold record_broadcast_backpressure, calls. rewrite Hon.
    constructor; [reflexivity|reflexivity|by rewrite N.add_0_r|done|done|by repeat constructor|by repeat constructor].
Qed.

Lemma ledger_queue s kvs now s' l : metered_queue_broadcast s kvs now = (s', l) → write_ledger 0 0 0 s s' l.
Proof.
  unfold metered_queue_broadcast. destruct (queue_updates _ _ _) as [[pending scheduled] [batch|]]; [|intros [= <- <-]; by apply ledger_quiet].
  intros Hb%ledger_broadcast. destruct Hb as [????]. by constructor.
Qed.

Lemma ledger_flush s now s' l : metered_run_flush s now = (s', l) → write_ledger 0 0 0 s s' l.
Proof.
  unfold metered_run_flush. destruct (flush_updates _) as [pending [batch|]]; [|intros [= <- <-]; by apply ledger_quiet].
  intros Hb%ledger_broadcast. destruct Hb as [????]. by constructor.
Qed.

(** The changes of a replica step whose calls are [l]. *)
Lemma ledger_state i r e s (rp : Replica K E St P) l : rp_changes rp = wrapping_add64 (rp_changes (ws_replica s)) (i + r + e) →
  total INSERTS_TOTAL l = i → total REMOVES_TOTAL l = r → total BROADCAST_BACKPRESSURE_TOTAL l = 0%N →
  labels BROADCAST_BACKPRESSURE_TOTAL l = [] → calls_ok l → write_ledger i r e s (set_state s rp (ws_clock s)) l.
Proof.
  intros Hc Hi Hr Hb Hl Hk. constructor; [done|done| |done|rewrite Hb; lia|by rewrite Hl|done].
  cbn. rewrite Hc. unfold wrapping_add64. apply N.Div0.mod_mod.
Qed.

(** [n] live entries, or [n] tombstones. *)
Definition dead (b : bool) (kvs : list (K * E)) : Prop := Forall (λ kv, is_tombstone kv.2 = b) kvs.

Lemma entry_call v : total INSERTS_TOTAL (entry_calls v) = one (negb (is_tombstone v)) ∧
  total REMOVES_TOTAL (entry_calls v) = one (is_tombstone v) ∧ total BROADCAST_BACKPRESSURE_TOTAL (entry_calls v) = 0%N ∧
  labels BROADCAST_BACKPRESSURE_TOTAL (entry_calls v) = [] ∧ calls_ok (entry_calls v).
Proof.
  unfold entry_calls, record_remove, record_insert, calls. rewrite Hon.
  destruct (is_tombstone v); (split_and!; [reflexivity..|by repeat constructor]).
Qed.

Lemma entry_totals b kvs : dead b kvs →
  let l := kvs ≫= λ kv, entry_calls kv.2 in
  total INSERTS_TOTAL l = (if b then 0 else len kvs)%N ∧ total REMOVES_TOTAL l = (if b then len kvs else 0)%N ∧
  total BROADCAST_BACKPRESSURE_TOTAL l = 0%N ∧ labels BROADCAST_BACKPRESSURE_TOTAL l = [] ∧ calls_ok l.
Proof.
  intros Hd l. subst l. induction Hd as [|kv kvs Hb _ (IHi & IHr & IHb & IHl & IHk)]; [destruct b; (split_and!; [done..|constructor])|].
  rewrite bind_cons. destruct (entry_call kv.2) as (Hi & Hr & Hp & Hl & Hk). rewrite Hb in Hi, Hr.
  unfold labels in *. rewrite omap_app, !total_app, IHi, IHr, IHb, IHl, Hi, Hr, Hp, Hl, calls_ok_app. cbn [length].
  destruct b; cbn [one negb]; (split_and!; [lia..|done|done|done]).
Qed.

Lemma bulk_changes (r : Replica K E St P) kvs : rp_changes (just_insert_bulk r kvs) = wrapping_add64 (rp_changes r) (len kvs).
Proof.
  unfold just_insert_bulk. cbn [record_changes set_changes rp_changes]. f_equal. revert r.
  induction kvs as [|[k v] kvs IH]; intros r; cbn [fold_left]; [done|]. by rewrite IH.
Qed.

Lemma ledger_just_bulk b s kvs : dead b kvs →
  write_ledger (if b then 0 else len kvs) (if b then len kvs else 0) 0 s
    (set_state s (just_insert_bulk (ws_replica s) kvs) (ws_clock s)) (kvs ≫= λ kv, entry_calls kv.2).
Proof.
  intros Hd. destruct (entry_totals b kvs Hd) as (Hi & Hr & Hb & Hl & Hk). apply ledger_state; [|done..].
  rewrite bulk_changes. f_equal. destruct b; lia.
Qed.

Lemma ledger_bulk b s kvs now s' l : dead b kvs → metered_engine_insert_bulk s kvs now = (s', l) →
  write_ledger (if b then 0 else len kvs) (if b then len kvs else 0) 0 s s' l.
Proof.
  intros Hd. unfold metered_engine_insert_bulk, metered_just_insert_bulk.
  destruct (metered_queue_broadcast _ _ _) as [s1 l1] eqn:Hq. intros [= <- <-].
  pose proof (write_ledger_trans _ _ _ 0 0 0 _ _ _ _ _ (ledger_just_bulk b s kvs Hd) (ledger_queue _ _ _ _ _ Hq)) as Ht.
  by rewrite !N.add_0_r in Ht.
Qed.

Lemma write_ledger_entry s (k : K) v :
  write_ledger (one (negb (is_tombstone v))) (one (is_tombstone v)) 0 s
    (set_state s (just_insert (ws_replica s) k v).1 (ws_clock s)) (entry_calls v).
Proof.
  pose proof (ledger_just_bulk (is_tombstone v) s [(k, v)]) as Hb. cbn [mbind list_bind] in Hb. rewrite app_nil_r in Hb.
  destruct (is_tombstone v) eqn:Hv; apply Hb; by repeat constructor.
Qed.

Lemma ledger_insert s k v now s' ret l : metered_engine_insert s k v now = (s', ret, l) →
  write_ledger (one (negb (is_tombstone v))) (one (is_tombstone v)) 0 s s' l.
Proof.
  unfold metered_engine_insert, metered_just_insert. pose proof (write_ledger_entry s k v) as He. destruct (just_insert _ _ _) as [r ret1].
  destruct (metered_queue_broadcast _ _ _) as [s1 l1] eqn:Hq. intros [= <- _ <-].
  pose proof (write_ledger_trans _ _ _ 0 0 0 _ _ _ _ _ He (ledger_queue _ _ _ _ _ Hq)) as Ht. by rewrite !N.add_0_r in Ht.
Qed.

Lemma stamped_dead {X} b (entry : S → X → K * E) s l s1 kvs : (∀ t x, is_tombstone (entry t x).2 = b) →
  stamp_all entry s l = (s1, kvs) → dead b kvs ∧ len kvs = len l.
Proof.
  intros Hb. revert s kvs. induction l as [|x l IH]; intros s kvs; cbn [stamp_all]; [intros [= _ <-]; by split; [constructor|]|].
  destruct (clock_tick s) as [s2 t]. destruct (stamp_all entry s2 l) as [s3 kvs'] eqn:Hs. intros [= -> <-].
  destruct (IH _ _ Hs) as [Hd Hn]. split; [by constructor|]. cbn [length]. lia.
Qed.

(** After the clock's steps. *)
Lemma ledger_after i r e s s1 s' l : write_ledger 0 0 0 s s1 [] → write_ledger i r e s1 s' l → write_ledger i r e s s' l.
Proof. exact (write_ledger_trans 0 0 0 i r e _ _ _ _ _). Qed.

Lemma metered_insert_ledger s k v now s' l : metered_insert s k v now = (s', l) → write_ledger 1 0 0 s s' l.
Proof.
  unfold metered_insert. destruct (clock_tick s) as [s1 t] eqn:Ht. destruct (metered_engine_insert _ _ _ _) as [[s2 ret] l2] eqn:Hi.
  intros [= <- <-]. apply ledger_insert in Hi. rewrite present_live in Hi. eapply ledger_after; [by eapply ledger_tick|exact Hi].
Qed.

Lemma metered_remove_ledger s k now s' l : metered_remove s k now = (s', l) → write_ledger 0 1 0 s s' l.
Proof.
  unfold metered_remove. destruct (clock_tick s) as [s1 t] eqn:Ht. destruct (metered_engine_insert _ _ _ _) as [[s2 ret] l2] eqn:Hi.
  intros [= <- <-]. apply ledger_insert in Hi. rewrite tombstone_dead in Hi. eapply ledger_after; [by eapply ledger_tick|exact Hi].
Qed.

Lemma metered_remove_bulk_ledger s ks now s' l : metered_remove_bulk s ks now = (s', l) → write_ledger 0 (len ks) 0 s s' l.
Proof.
  unfold metered_remove_bulk. destruct (stamp_all _ _ _) as [s1 kvs] eqn:Hs.
  destruct (λ Hb, stamped_dead true _ _ _ _ _ Hb Hs) as [Hd <-]; [intros t k; apply tombstone_dead|]. intros Hb.
  eapply ledger_after; [by eapply ledger_stamps|]. exact (ledger_bulk true _ _ _ _ _ Hd Hb).
Qed.

Lemma metered_selected_ledger s ks now s' l : metered_remove_selected s ks now = (s', l) → write_ledger 0 (len ks) 0 s s' l.
Proof. destruct ks; [intros [= <- <-]; by apply ledger_quiet|]. apply metered_remove_bulk_ledger. Qed.

Lemma metered_insert_bulk_ledger s kvs now s' l : metered_insert_bulk s kvs now = (s', l) → write_ledger (len kvs) 0 0 s s' l.
Proof.
  unfold metered_insert_bulk. destruct (stamp_all _ _ _) as [s1 es] eqn:Hs.
  destruct (λ Hb, stamped_dead false _ _ _ _ _ Hb Hs) as [Hd <-]; [intros t [??]; apply present_live|]. intros Hb.
  eapply ledger_after; [by eapply ledger_stamps|]. exact (ledger_bulk false _ _ _ _ _ Hd Hb).
Qed.

Lemma metered_load_bulk_ledger s kvs s' l : metered_load_bulk s kvs = (s', l) → write_ledger (len kvs) 0 0 s s' l.
Proof.
  unfold metered_load_bulk, metered_just_insert_bulk. destruct (stamp_all _ _ _) as [s1 es] eqn:Hs.
  destruct (λ Hb, stamped_dead false _ _ _ _ _ Hb Hs) as [Hd <-]; [intros t [??]; apply present_live|]. intros [= <- <-].
  eapply ledger_after; [by eapply ledger_stamps|]. exact (ledger_just_bulk false s1 es Hd).
Qed.

Lemma metered_try_insert_ledger s k v now s' l : metered_try_insert s k v now = (s', l) → write_ledger (one (accepts s v)) 0 0 s s' l.
Proof.
  unfold metered_try_insert, accepts. destruct (check_value_size v); [|intros [= <- <-]; by apply ledger_quiet].
  destruct (clock_tick s) as [s1 t] eqn:Ht. unfold metered_engine_try_insert, metered_just_insert.
  assert (Hf : ws_in_flight s1 = ws_in_flight s) by (unfold clock_tick in Ht; destruct (clock_now _); by injection Ht as <- _).
  destruct (try_claim_broadcast_slot s1) as [s2 []] eqn:Hc.
  - assert (Hlt : (ws_in_flight s <? max_concurrent_broadcasts)%N = true)
      by (unfold Writes.try_claim_broadcast_slot in Hc; rewrite Hf in Hc; by destruct (_ <? _)%N).
    rewrite Hlt. pose proof (write_ledger_entry s2 k (present t v)) as He. rewrite present_live in He. destruct (just_insert _ _ _) as [r ret].
    intros [= <- <-]. eapply ledger_after; [by eapply ledger_tick|]. eapply ledger_after; [by eapply ledger_claim|].
    pose proof (write_ledger_trans _ _ _ 0 0 0 _ _ _ _ _ He (ledger_spawn _ [(k, present t v)] now)) as Hl.
    by rewrite app_nil_r, !N.add_0_r in Hl.
  - unfold Writes.try_claim_broadcast_slot in Hc. rewrite <- Hf. destruct (_ <? _)%N; [done|]. injection Hc as <-.
    intros [= <- <-]. by eapply ledger_tick.
Qed.

(** In-place edits change the map and record nothing of it. *)
Lemma mutated_ledger s (k : K) entry now s' l :
  metered_queue_broadcast (set_state s (store_mutated (ws_replica s) k entry) (ws_clock s)) [(k, entry)] now = (s', l) →
  write_ledger 0 0 1 s s' l.
Proof.
  intros Hq%ledger_queue. assert (Hs := ledger_state 0 0 1 s (store_mutated (ws_replica s) k entry) []).
  exact (write_ledger_trans 0 0 1 0 0 0 _ _ _ [] _ (Hs eq_refl eq_refl eq_refl eq_refl eq_refl (Forall_nil_2 _)) Hq).
Qed.

Lemma tick_keeps s s1 t : clock_tick s = (s1, t) → ws_replica s1 = ws_replica s ∧ ws_in_flight s1 = ws_in_flight s.
Proof. unfold clock_tick. destruct (clock_now _). by intros [= <- _]. Qed.

Lemma metered_get_mut_ledger s k f now s' l : metered_get_mut s k f now = (s', l) →
  write_ledger 0 0 (one (bool_decide (is_Some (rp_map (ws_replica s) !! k)))) s s' l.
Proof.
  unfold metered_get_mut. destruct (clock_tick s) as [s1 t] eqn:Ht. destruct (tick_keeps _ _ _ Ht) as [<- _].
  apply ledger_tick in Ht. unfold get_mut. destruct (rp_map (ws_replica s1) !! k).
  - rewrite bool_decide_eq_true_2 by eauto. intros Hq. eapply ledger_after; [exact Ht|by eapply mutated_ledger].
  - rewrite bool_decide_eq_false_2 by (by intros [? ?]). intros [= <- <-]. destruct Ht. by constructor.
Qed.

Lemma live_ledger s k f now s' live l : metered_mutate_live s k f now = Some (s', live, l) →
  write_ledger 0 0 (one live) s s' l ∧ live = alive s k ∧ (live = false → ws_in_flight s' = ws_in_flight s ∧ ws_replica s' = ws_replica s).
Proof.
  unfold metered_mutate_live. destruct (clock_tick s) as [s1 t] eqn:Ht. destruct (tick_keeps _ _ _ Ht) as [Hr Hf].
  apply ledger_tick in Ht. unfold alive, get_live. rewrite <- Hr. unfold mutate_live_checked.
  assert (Hquiet : write_ledger 0 0 0 s (set_state s1 (ws_replica s1) (ws_clock s1)) []) by (destruct Ht; by constructor).
  destruct (rp_map (ws_replica s1) !! k) as [entry|]; cbn [mbind option_bind]; [destruct (value entry) as [v|]|];
    [|cbn; intros [= <- <- <-]; by split_and!..].
  destruct (value (set_stamp _ t)) as [v'|]; cbn [mbind option_bind]; [|done].
  destruct (metered_queue_broadcast _ _ _) as [s2 l2] eqn:Hq. intros [= <- <- <-].
  split_and!; [eapply ledger_after; [exact Ht|by eapply mutated_ledger]|by rewrite bool_decide_eq_true_2 by eauto|done].
Qed.

Lemma upsert_ledger s k v f now s' l : metered_upsert s k v f now = Some (s', l) →
  write_ledger (one (negb (alive s k))) 0 (one (alive s k)) s s' l.
Proof.
  unfold metered_upsert. destruct (metered_mutate_live s k f now) as [[[s1 live] l1]|] eqn:Hm; [|done].
  destruct (live_ledger _ _ _ _ _ _ _ Hm) as (Hl & -> & _). cbn [mbind option_bind]. destruct (alive s k); [by intros [= <- <-]|].
  destruct (metered_insert s1 k v now) as [s2 l2] eqn:Hi. intros [= <- <-].
  exact (write_ledger_trans _ _ _ _ _ _ _ _ _ _ _ Hl (metered_insert_ledger _ _ _ _ _ _ Hi)).
Qed.

Lemma try_update_ledger s k f now s' l : metered_try_update s k f now = Some (s', l) →
  write_ledger 0 0 (edited s (OTryUpdate k f) now) s s' l.
Proof.
  unfold metered_try_update, edited, try_update. destruct (try_claim_broadcast_slot s) as [s1 claimed] eqn:Hc.
  unfold Writes.try_claim_broadcast_slot in Hc. destruct (N.ltb_spec (ws_in_flight s) max_concurrent_broadcasts) as [Hlt|Hge];
    injection Hc as <- <-; cbn [negb]; [|cbn; intros [= <- <-]; by apply ledger_quiet].
  set (s1 := set_egress s _ _ _). destruct (clock_tick s1) as [s2 t] eqn:Ht. destruct (tick_keeps _ _ _ Ht) as [Hr Hf]. cbn in Hr, Hf.
  destruct (mutate_live_checked _ _ _ _ _) as [[r res]|] eqn:Hm; [|done]. cbn [mbind option_bind].
  assert (Hdrop : ∀ r1, rp_changes r1 = rp_changes (ws_replica s) → write_ledger 0 0 0 s (drop_broadcast_guard (set_state s2 r1 (ws_clock s2))) []).
  { intros r1 Hr1. apply ledger_quiet; [exact Hr1|]. cbn. rewrite Hf. unfold wrapping_add64, u64_modulus, u64_max in *.
    replace (ws_in_flight s + 1 + 18446744073709551615)%N with (ws_in_flight s + 1 * 18446744073709551616)%N by lia.
    rewrite N.Div0.mod_add, N.mod_small by lia. done. }
  unfold mutate_live_checked in Hm. rewrite Hr in Hm. destruct (rp_map (ws_replica s) !! k) as [entry|].
  2: { injection Hm as <- <-. intros [= <- <-]. by apply Hdrop. }
  destruct (value entry); [|injection Hm as <- <-; intros [= <- <-]; by apply Hdrop].
  destruct (value (set_stamp _ t)) as [v'|]; cbn [mbind option_bind] in Hm; [|done].
  destruct (check_value_size v'); injection Hm as <- <-; intros [= <- <-]; [|by apply Hdrop].
  constructor; [reflexivity|reflexivity| |cbn; rewrite Hf; lia|by vm_compute|constructor|constructor].
  cbn. unfold wrapping_add64. by rewrite N.Div0.mod_mod.
Qed.

Lemma write_ledger_of s op now s' l : metered_write s op now = Some (s', l) →
  write_ledger (inserted s op) (removed s op) (edited s op now) s s' l.
Proof.
  destruct op; cbn [metered_write inserted removed edited]; try (intros Hw; apply (inj Some) in Hw; revert Hw).
  - apply metered_insert_ledger.
  - apply metered_remove_ledger.
  - apply metered_insert_bulk_ledger.
  - apply metered_load_bulk_ledger.
  - apply metered_remove_bulk_ledger.
  - apply metered_try_insert_ledger.
  - apply metered_get_mut_ledger.
  - destruct (metered_mutate_live s key f now) as [[[s1 live] l1]|] eqn:Hm; [|done]. cbn. intros [= <- <-].
    by destruct (live_ledger _ _ _ _ _ _ _ Hm) as (Hl & <- & _).
  - apply try_update_ledger.
  - apply upsert_ledger.
  - unfold metered_get_or_insert_with, alive. destruct (get_live s key).
    + rewrite bool_decide_eq_true_2 by eauto. intros [= <- <-]. by apply ledger_quiet.
    + rewrite bool_decide_eq_false_2 by (by intros [? ?]). apply metered_insert_ledger.
  - apply metered_selected_ledger.
  - apply metered_selected_ledger.
  - apply metered_selected_ledger.
  - apply ledger_flush.
Qed.

(** The counters of local writes are exact about what they count. In any sequence of calls to
    the writers, recording changes nothing of what they do, every metric is used with its kind,
    [INSERTS_TOTAL] and [REMOVES_TOTAL] have grown by the live entries and by the tombstones the
    inserting and removing calls stored, the change counter has moved by these and the in-place
    edits together, so the edits are in neither, and skipped broadcasts, all under the label
    ["eager"], were counted only if the egress budget was exhausted. *)
Theorem local_writes_counted s ops :
  fst <$> metered_writes s ops = writes s ops ∧
  ∀ s' l, metered_writes s ops = Some (s', l) →
    total INSERTS_TOTAL l = sum_over (λ s op _, inserted s op) s ops ∧
    total REMOVES_TOTAL l = sum_over (λ s op _, removed s op) s ops ∧
    (rp_changes (ws_replica s') mod u64_modulus
     = (rp_changes (ws_replica s) + (total INSERTS_TOTAL l + total REMOVES_TOTAL l + sum_over edited s ops)) mod u64_modulus)%N ∧
    (0 < total BROADCAST_BACKPRESSURE_TOTAL l → max_concurrent_broadcasts ≤ ws_in_flight s')%N ∧
    Forall (λ path, path = "eager") (labels BROADCAST_BACKPRESSURE_TOTAL l) ∧ calls_ok l.
Proof.
  split; [apply writes_erased|]. intros s' l Hw.
  cut (write_ledger (sum_over (λ s op _, inserted s op) s ops) (sum_over (λ s op _, removed s op) s ops) (sum_over edited s ops) s s' l).
  { intros [Hi Hr Hc Hb Hs Hl Hk]. rewrite Hi, Hr. by split_and!. }
  revert s s' l Hw. induction ops as [|[op now] ops IH]; intros s s' l; cbn [metered_writes sum_over]; [intros [= <- <-]; by apply ledger_quiet|].
  rewrite <- write_erased. destruct (metered_write s op now) as [[s1 l1]|] eqn:Hm; [|done]. cbn [mbind option_bind fmap option_fmap option_map fst].
  destruct (metered_writes s1 ops) as [[s2 l2]|] eqn:Hms; [|done]. cbn. intros [= <- <-].
  exact (write_ledger_trans _ _ _ _ _ _ _ _ _ _ _ (write_ledger_of _ _ _ _ _ Hm) (IH _ _ _ Hms)).
Qed.
End writes.

(** ** A concrete run: the second broadcast finds the only slot taken *)

#[local] Existing Instances small_lww small_state.
#[local] Instance writes_recorded : MetricsFeature := true.

Definition small_ops : list (WriteOp (K := N) (V := N) * N) := [(OInsert 1 3, 5); (ORemove 2, 6); (OUpdate 1 (λ v, v), 7)]%N.

Lemma small_present (t v : N) : is_tombstone (present t v) = false.
Proof. cbn [is_tombstone present small_lww]. by rewrite N.odd_mul. Qed.
Lemma small_tombstone (t : N) : is_tombstone (tombstone (V := N) t) = true.
Proof. cbn [is_tombstone tombstone small_lww]. by rewrite N.odd_add, N.odd_mul. Qed.

Lemma local_writes_counted_witness : ∃ s' l, metered_writes (λ _, 3%N) 1 None (small_store 0) small_ops = Some (s', l) ∧
  total INSERTS_TOTAL l = 1%N ∧ total REMOVES_TOTAL l = 1%N ∧ (rp_changes (ws_replica s') mod u64_modulus = rp_changes small_replica + 3)%N ∧ calls_ok l.
Proof.
  destruct (local_writes_counted (λ _, 3%N) 1 None eq_refl small_budget small_present small_tombstone (small_store 0) small_ops) as [_ Hw].
  destruct (metered_writes _ _ _ _ small_ops) as [[s' l]|] eqn:Hm; [|vm_compute in Hm; discriminate].
  destruct (Hw s' l eq_refl) as (Hi & Hr & Hc & _ & _ & Hk). exists s', l. rewrite Hc, Hi, Hr. split_and!; [done|reflexivity..|exact Hk].
Defined.
