(* ===== verification/MetricsStore.v ===== *)
(** * What snapshots, deletions and discovery record ([src/replicated_map/persistence.rs],
      [src/replicated_map/write.rs], [src/replicated_map/discovery.rs], [src/snapshot/incremental.rs])

    The failure gauge of the snapshot task, the outcomes of the tombstone hook, failed discovery
    rounds, and the segment gauges of the file store. A failed listing of the segment directory, the
    one other occasion of a cleanup failure, is not in [SnapshotStore.Env]. *)
From stdpp Require Import gmap list strings relations.
From Stdlib Require Import NArith ZArith.
From Stdlib.Strings Require Import Byte.
From S2P Require Import Prelude Bytes Replay Auth Framing Reassembly RecoveryBook FramedSend Admission Journal Durability SignedCausal Messages Replica ReplicaInv ReplicaProps.
From S2P Require Import Samples Dumps Repair Engine Writes Round RunProps TimeoutWheel Clock Tombstones Discovery Config Facade.
From S2P Require Import Peer Routes SignedCausalProps SnapshotStore SnapshotProps Metrics.

(** ** The tombstone hook *)

Section hook.
Context {K V S E C St : Type} `{Countable K} `{Lww V S E C} `{!EntryState V S E St}.
Context {Hs Ad T : Type} `{!HlcOps Hs Ad T} `{MetricsFeature} (from_timestamp_millis : Z → option N).
Notation Wheel := (TimeoutWheel (T := K)).
Notation bounded v wall utc_now :=
  (from_stored_stamp from_timestamp_millis (physical_millis (stamp v)) TOMBSTONE_STAMP_DRIFT_BUDGET wall utc_now).

Definition bound_calls (b : StampBound) : list MetricCall :=
  match b with
  | Verbatim => []
  | Capped => record_tombstone_stamp_bounded "capped"
  | Unrepresentable => record_tombstone_stamp_bounded "unrepresentable"
  end.

Definition metered_pre_insert (w : Wheel) (k : K) (v : E) (wall : Z) (utc_now : N) : Wheel * list MetricCall :=
  match value v with
  | Some _ => ((wheel_remove w k).1, [])
  | None =>
      let b := bounded v wall utc_now in
      (wheel_insert w k (bi_instant b), bound_calls (bi_bound b))
  end.

(** The hook feeds the wheel as [Tombstones] says, and counts a deletion exactly when the instant
    it ages from is not its stamp's. *)
Lemma pre_insert_counted (w : Wheel) (k : K) (v : E) (wall : Z) (utc_now : N) : metrics_on = true →
  (metered_pre_insert w k v wall utc_now).1 = wrapped_pre_insert from_timestamp_millis w k v wall utc_now ∧
  total TOMBSTONE_STAMP_BOUNDED_TOTAL (metered_pre_insert w k v wall utc_now).2
  = match value v, bi_bound (bounded v wall utc_now) with None, (Capped | Unrepresentable) => 1%N | _, _ => 0%N end.
Proof.
  intros Hon. unfold metered_pre_insert, wrapped_pre_insert. destruct (value v) as [v'|]; [done|].
  split; [done|]. cbn [snd]. unfold bound_calls, record_tombstone_stamp_bounded, calls. rewrite Hon. by destruct (bi_bound _).
Qed.
End hook.

(** ** Snapshots and discovery *)

Section facade.
Context {K V S E C St P Ag R Net Tr B Src : Type} `{Countable K, Countable P} `{Lww V S E C} `{!EntryState V S E St}.
Context `{!RustOrd K, !RustOrd S, !RustOrd P} `{!EqDecision S} `{EqDecision Net} `{!Persistence K E P B} `{MetricsFeature}.
Notation Map := (ReplicatedMap (K := K) (E := E) (C := C) (St := St) (P := P) (Ag := Ag) (R := R) (Net := Net) (Tr := Tr) (B := B) (Src := Src)).
Implicit Types (m : Map).

Definition metered_snapshot_now m (before_cut during_save : Replica K E St P → Replica K E St P) (now : N)
    : option (Map * result unit unit * list MetricCall) :=
  '(m, res) ← snapshot_now m before_cut during_save now;
  Some (m, res, match res with
                | Ok _ => record_persistence_success
                | Err _ => record_persistence_failure (rm_consecutive_failures m)
                end).

Definition metered_snapshot_tick m (before_cut during_save : Replica K E St P → Replica K E St P) (now : N)
    : option (Map * list MetricCall) :=
  match rm_snapshot_interval m with
  | None => Some (m, [])
  | Some _ =>
      if (rm_snapshot_change_threshold m <=? rp_changes (en_replica (in_engine (rm_inner m))))%N
      then '(m, _, l) ← metered_snapshot_now m before_cut during_save now; Some (m, l) else Some (m, [])
  end.

Definition discovery_calls {Er} (outcome : result (list P) Er) : list MetricCall :=
  match outcome with Ok _ => [] | Err _ => record_discovery_failure end.

(** Snapshots, forced or periodic, with anything between them that leaves the failure count and
    the hook alone. *)
Inductive metered_life : Map → list MetricCall → Map → Prop :=
| ml_done m : metered_life m [] m
| ml_snapshot m bc ds now m1 res l m2 l' : metered_snapshot_now m bc ds now = Some (m1, res, l) → metered_life m1 l' m2 → metered_life m (l ++ l') m2
| ml_tick m bc ds now m1 l m2 l' : metered_snapshot_tick m bc ds now = Some (m1, l) → metered_life m1 l' m2 → metered_life m (l ++ l') m2
| ml_other m m1 m2 l : rm_consecutive_failures m1 = rm_consecutive_failures m → rm_hooked m1 = rm_hooked m →
    metered_life m1 l m2 → metered_life m l m2.

(** The gauge reads the failure count and each failure was counted and given to the hook. *)
Definition failures_tracked m (l : list MetricCall) m' : Prop :=
  gauge PERSISTENCE_FAILURES_CURRENT (rm_consecutive_failures m) l = rm_consecutive_failures m' ∧
  (len (rm_hooked m) + total PERSISTENCE_FAILURES_TOTAL l = len (rm_hooked m'))%N.

Lemma tracked_trans m1 l m2 l' m3 : failures_tracked m1 l m2 → failures_tracked m2 l' m3 → failures_tracked m1 (l ++ l') m3.
Proof. intros [Hg Ht] [Hg' Ht']. split; [by rewrite gauge_app, Hg|rewrite total_app; lia]. Qed.

Context (Hon : metrics_on = true).

Lemma snapshot_tracked m bc ds now m' res l : metered_snapshot_now m bc ds now = Some (m', res, l) → failures_tracked m l m'.
Proof.
  unfold metered_snapshot_now, snapshot_now. destruct (snapshot_inner _ _ _ _) as [[[r b] []]|]; [|cbn [mbind option_bind]|done].
  - cbn. unfold record_persistence_success, calls. rewrite Hon. intros [= <- <- <-]. split; [reflexivity|]. cbn. lia.
  - case_match; [done|]. unfold record_persistence_failure, calls. rewrite Hon. intros Hs. apply (inj Some) in Hs. injection Hs as <- <- <-.
    split; [reflexivity|]. cbn. rewrite length_app. cbn. rewrite decide_True by done. lia.
Qed.

Lemma tick_tracked m bc ds now m' l : metered_snapshot_tick m bc ds now = Some (m', l) → failures_tracked m l m'.
Proof.
  assert (Hid : failures_tracked m [] m) by (split; [done|]; cbn; lia).
  unfold metered_snapshot_tick. destruct (rm_snapshot_interval m); [|by intros [= <- <-]]. destruct (_ <=? _)%N; [|by intros [= <- <-]].
  destruct (metered_snapshot_now m bc ds now) as [[[m1 res] l1]|] eqn:Hs; [|done]. cbn. intros [= <- <-]. by eapply snapshot_tracked.
Qed.

(** The gauge of consecutive failures reads what the next snapshot would count from, whatever mix
    of forced and periodic snapshots ran, and every counted failure reached the error hook. *)
Theorem persistence_gauge_exact m l m' : metered_life m l m' → failures_tracked m l m'.
Proof.
  induction 1 as [m|m bc ds now m1 res l m2 l' Hs _ IH|m bc ds now m1 l m2 l' Hs _ IH|m m1 m2 l Hf Hh _ [IHg IHt]].
  - split; [done|]. cbn. lia.
  - eapply tracked_trans; [by eapply snapshot_tracked|done].
  - eapply tracked_trans; [by eapply tick_tracked|done].
  - split; [by rewrite <- Hf|by rewrite <- Hh].
Qed.
End facade.

(** ** The file store *)

(** [usize::try_from] keeps every [u64]. *)
Definition segment_count (m : Manifest) : N := saturating_add (delta_count m) 1.
Definition segment_bytes (m : Manifest) : N := saturating_add (base_bytes m) (delta_bytes m).

(** The files [cleanup] removes, if they are there and removal is not refused. *)
Definition superseded (keep_base_generation : N) (f : FileName) : bool :=
  match f.1 with
  | PBase g => negb (bool_decide (f = (PBase keep_base_generation, false)))
  | PDelta _ => true
  | _ => bool_decide (f = (PLegacy, false))
  end.

Section files.
Context {K E P : Type} `{Countable K, Countable P} `{MetricsFeature}.
Context (blake3_hash : list byte → list byte).
Context (ser_manifest : Manifest → list byte) (de_manifest : list byte → option Manifest).
Context (ser_base : N * PersistedState K E P → list byte) (de_base : list byte → option (N * PersistedState K E P)).
Context (ser_delta : N * N * PersistenceDelta K E P → list byte)
        (de_delta : list byte → option (N * N * PersistenceDelta K E P)).
Context (format_version : N).
Notation read_manifest := (read_manifest blake3_hash de_manifest format_version).
Notation save_full := (save_full blake3_hash ser_manifest de_manifest ser_base format_version).
Notation try_save := (try_save blake3_hash ser_manifest de_manifest ser_delta format_version).
Notation load_incremental := (load_incremental blake3_hash de_manifest de_base de_delta format_version).
Notation encode_version := (encode_version blake3_hash format_version).
Notation cur := (cur blake3_hash de_manifest format_version).
Implicit Types (fs : Fs) (st : PersistedState K E P).

(** Refused removals of files that are there; [fs] is what the listing saw. *)
Definition cleanup_calls (denied : gset FileName) fs (keep_base_generation : N) : list MetricCall :=
  filter (λ f, superseded keep_base_generation f = true ∧ f ∈ denied) (map_to_list fs).*1 ≫= λ _, record_snapshot_cleanup_failure.

(** The calls of a save that went through; after the manifest is published only a crash can keep
    [save_full] from answering [Ok]. *)
Definition metered_save_full (env : Env) fs st : Fs * result unit unit * list MetricCall :=
  let '(fs', r) := save_full env fs st in
  (fs', r, match r, read_manifest fs with
           | Ok _, Ok previous =>
               let generation := match previous with Some m => saturating_add (current_generation m) 1 | None => 1%N end in
               let base := encode_version BASE_MAGIC (ser_base (generation, st)) in
               let manifest := {| base_generation := generation; base_bytes := len base; current_generation := generation; delta_bytes := 0 |} in
               let compaction := match previous with Some m => (0 <? delta_count m)%N | None => false end in
               let written := run (CreateDir :: write_atomic (PBase generation) base
                                   ++ write_atomic PManifest (encode_version MANIFEST_MAGIC (ser_manifest manifest))) fs in
               record_snapshot_full compaction (segment_count manifest) (segment_bytes manifest)
               ++ cleanup_calls (env_denied env) written generation
           | _, _ => []
           end).

Definition metered_try_save (env : Env) fs (delta : option (PersistenceDelta K E P)) : Fs * result bool unit * list MetricCall :=
  let '(fs', r) := try_save env fs delta in
  (fs', r, match r, read_manifest fs, delta with
           | Ok true, Ok (Some manifest), Some delta =>
               let to_generation := saturating_add (current_generation manifest) 1 in
               let bytes := len (encode_version DELTA_MAGIC (ser_delta (current_generation manifest, to_generation, delta))) in
               let manifest := {| base_generation := base_generation manifest; base_bytes := base_bytes manifest;
                                  current_generation := to_generation; delta_bytes := saturating_add (delta_bytes manifest) bytes |} in
               record_snapshot_delta (segment_count manifest) (segment_bytes manifest)
           | _, _, _ => []
           end).

Definition metered_load (start : option N) (now : N) fs : result (option (PersistedState K E P)) unit * list MetricCall :=
  let r := load_incremental fs in
  (r, match r, read_manifest fs with
      | Ok (Some _), Ok (Some manifest) => record_snapshot_recovery start (segment_count manifest) now
      | _, _ => []
      end).

Inductive SaveRequest := SaveFull (st : PersistedState K E P) | SaveDelta (d : option (PersistenceDelta K E P)).

Definition metered_save (env : Env) fs (req : SaveRequest) : Fs * bool * list MetricCall :=
  match req with
  | SaveFull st => let '(fs, r, l) := metered_save_full env fs st in (fs, match r with Ok _ => true | Err _ => false end, l)
  | SaveDelta d => let '(fs, r, l) := metered_try_save env fs d in (fs, match r with Ok _ => true | Err _ => false end, l)
  end.

(** Saves none of which fails; [None] otherwise. *)
Fixpoint metered_saves fs (reqs : list (Env * SaveRequest)) : option (Fs * list MetricCall) :=
  match reqs with
  | [] => Some (fs, [])
  | (env, req) :: reqs =>
      let '(fs, ok, l) := metered_save env fs req in
      if (ok : bool) then '(fs, l') ← metered_saves fs reqs; Some (fs, l ++ l') else None
  end.

Definition segments fs : N := match read_manifest fs with Ok (Some m) => segment_count m | _ => 0%N end.
Definition segment_total fs : N := match read_manifest fs with Ok (Some m) => segment_bytes m | _ => 0%N end.

Context (hash_len : ∀ m, length (blake3_hash m) = 32) (manifest_rt : ∀ m, de_manifest (ser_manifest m) = Some m).
Context (version_u32 : (format_version ≤ u32_max)%N) (Hon : metrics_on = true).

(** What a save adds to the generation and to the gauges. *)
Record saved fs fs' (l : list MetricCall) : Prop := {
  sv_segments : gauge SNAPSHOT_SEGMENTS_CURRENT (segments fs) l = segments fs';
  sv_bytes : gauge SNAPSHOT_SEGMENT_BYTES_CURRENT (segment_total fs) l = segment_total fs';
  sv_generation : (cur fs + total SNAPSHOT_FULL_MATERIALIZATIONS_TOTAL l + total SNAPSHOT_DELTA_COMMITS_TOTAL l = cur fs')%N;
  sv_compactions : (total SNAPSHOT_COMPACTIONS_TOTAL l ≤ total SNAPSHOT_FULL_MATERIALIZATIONS_TOTAL l)%N;
}.

Lemma saved_refl fs : saved fs fs [].
Proof. constructor; cbn; lia. Qed.

Lemma saved_trans fs1 fs2 fs3 l l' : saved fs1 fs2 l → saved fs2 fs3 l' → saved fs1 fs3 (l ++ l').
Proof. intros [Hs Hb Hg Hc] [Hs' Hb' Hg' Hc']. constructor; rewrite ?gauge_app, ?total_app, ?Hs, ?Hb; lia. Qed.

(** One save. *)
Definition saved_once fs fs' l : Prop := saved fs fs' l ∧ (cur fs' ≤ cur fs + 1)%N.

Lemma saved_none fs : saved_once fs fs [].
Proof. split; [apply saved_refl|lia]. Qed.

Lemma executed_ok env es fs fs' : execute env es fs = (fs', Ok tt) → fs' = run es fs.
Proof. unfold execute. destruct (env_fault env) as [[k n]|]; [case_match|]; by intros [= <-]. Qed.

(** After a publish and whatever spares it, the published manifest is read. *)
Lemma published fs p bytes m rest : validate_manifest m = Ok tt → Forall (spares (PManifest, false)) rest →
  read_manifest (run (write_atomic p bytes ++ write_atomic PManifest (encode_version MANIFEST_MAGIC (ser_manifest m)) ++ rest) fs) = Ok (Some m).
Proof.
  intros Hv Hr. apply (read_manifest_encoded blake3_hash ser_manifest); [done..|]. unfold read. rewrite app_assoc, run_app, run_spares by done.
  pose proof (publish_run fs p bytes (encode_version MANIFEST_MAGIC (ser_manifest m)) PManifest) as Hp. unfold read in Hp.
  unfold run in *. cbn [fold_left run1] in Hp. rewrite Hp. by rewrite lookup_insert_eq.
Qed.

Lemma cleanup_only denied fs keep : Forall (λ c, metric_of c ∈ [SNAPSHOT_CLEANUP_FAILURES_TOTAL]) (cleanup_calls denied fs keep).
Proof.
  unfold cleanup_calls. apply Forall_bind, Forall_forall. intros f _. unfold record_snapshot_cleanup_failure, calls. rewrite Hon.
  repeat constructor.
Qed.

(** A manifest whose numbers a save reported, followed by cleanup failures. *)
Lemma saved_report fs fs' m l rest : read_manifest fs' = Ok (Some m) → (current_generation m = cur fs + 1)%N →
  (∃ compaction, l = record_snapshot_full compaction (segment_count m) (segment_bytes m)) ∨ l = record_snapshot_delta (segment_count m) (segment_bytes m) →
  Forall (λ c, metric_of c ∈ [SNAPSHOT_CLEANUP_FAILURES_TOTAL]) rest → saved_once fs fs' (l ++ rest).
Proof.
  intros Hm Hg Hl Hrest.
  assert (Hn : ∀ x, x ≠ SNAPSHOT_CLEANUP_FAILURES_TOTAL → x ∉ [SNAPSHOT_CLEANUP_FAILURES_TOTAL]) by (intros x Hx ?%list_elem_of_singleton; done).
  split; [|unfold SnapshotStore.cur at 1; rewrite Hm; lia].
  constructor; rewrite ?gauge_app, ?total_app; rewrite ?(gauge_other _ _ _ _ Hrest), ?(total_other _ _ _ Hrest) by (by apply Hn);
    unfold segments, segment_total, SnapshotStore.cur in *; rewrite ?Hm; destruct Hl as [[c ->]| ->];
    unfold record_snapshot_full, record_snapshot_delta, calls; rewrite Hon; try destruct c; try reflexivity; rewrite ?Hg; cbn; repeat case_decide; done || lia.
Qed.

Lemma save_full_saved env fs st fs' l : (cur fs < usize_max)%N → metered_save_full env fs st = (fs', Ok tt, l) → saved_once fs fs' l.
Proof.
  intros Hcur. unfold metered_save_full, SnapshotStore.save_full. destruct (read_manifest fs) as [prev|] eqn:Hm; [|done].
  destruct (negb (format_version =? FORMAT_VERSION)%N && _ && _); [done|].
  set (gen := match prev with Some m => _ | None => _ end).
  assert (Hgen : gen = (cur fs + 1)%N).
  { unfold gen, SnapshotStore.cur in *. rewrite Hm in *. destruct prev; [|done]. unfold saturating_add. lia. }
  clearbody gen. fold (base_manifest blake3_hash ser_base format_version gen st). set (bm := base_manifest _ _ _ gen st).
  unfold publish_manifest. assert (Hv : validate_manifest bm = Ok tt) by (apply base_manifest_valid; first [done|lia]). rewrite Hv.
  set (cl := cleanup _ _ _). destruct (execute _ _ _) as [fs1 r] eqn:Hx. intros [= <- -> <-]. apply executed_ok in Hx.
  eapply (saved_report _ _ bm); [|exact Hgen|left; by eexists|apply cleanup_only]. rewrite Hx.
  change (run _ fs) with (run ((write_atomic (PBase gen) (encode_version BASE_MAGIC (ser_base (gen, st)))
    ++ write_atomic PManifest (encode_version MANIFEST_MAGIC (ser_manifest bm))) ++ cl) fs). rewrite <- app_assoc.
  apply published; [done|]. unfold cl. apply cleanup_spares. by left.
Qed.

Lemma try_save_saved env fs d fs' b l : (cur fs < usize_max)%N → metered_try_save env fs d = (fs', Ok b, l) → saved_once fs fs' l.
Proof.
  intros Hcur. unfold metered_try_save, SnapshotStore.try_save. destruct (read_manifest fs) as [[m|]|] eqn:Hm; [|destruct (negb _ && _); [done|]; intros [= <- <- <-]; apply saved_none|done].
  destruct d as [d|]; [|intros [= <- <- <-]; apply saved_none]. destruct (should_materialize _ _); [intros [= <- <- <-]; apply saved_none|].
  assert (Hc : cur fs = current_generation m) by (unfold SnapshotStore.cur; by rewrite Hm).
  replace (saturating_add (current_generation m) 1) with (current_generation m + 1)%N by (unfold saturating_add; lia).
  set (bytes := encode_version DELTA_MAGIC _). fold (next_manifest m (len bytes)). unfold publish_manifest.
  assert (Hv : validate_manifest (next_manifest m (len bytes)) = Ok tt).
  { eapply (next_manifest_valid blake3_hash); [done|done|]. unfold bytes. rewrite length_encode by done. lia. }
  rewrite Hv. destruct (execute _ _ _) as [fs1 r] eqn:Hx. destruct r as [[]|]; [|done]. intros [= <- <- <-]. apply executed_ok in Hx.
  rewrite <- (app_nil_r (record_snapshot_delta _ _)). eapply (saved_report _ _ (next_manifest m (len bytes))); [|by cbn; rewrite Hc|by right|constructor]. rewrite Hx.
  rewrite <- (app_nil_r (write_atomic PManifest _)). by apply published.
Qed.

Lemma unlinked l fs f : run ((Unlink <$> l) ++ [SyncDir]) fs !! f = if decide (f ∈ l) then None else fs !! f.
Proof.
  rewrite run_app. cbn [run fold_left run1]. revert fs. induction l as [|g l IH]; intros fs; [done|].
  cbn [fmap list_fmap]. change (run (Unlink g :: ?es) fs) with (run es (delete g fs)). rewrite IH.
  destruct (decide (f ∈ l)); [by rewrite decide_True by (by right)|]. destruct (decide (f = g)) as [->|Hne].
  - by rewrite decide_True, lookup_delete_eq by left.
  - by rewrite decide_False, lookup_delete_ne by (rewrite ?elem_of_cons; naive_solver).
Qed.

Lemma cleanup_leaves denied fs keep f :
  superseded keep f = true ∧ is_Some (run (cleanup denied fs keep) fs !! f) ↔ superseded keep f = true ∧ f ∈ denied ∧ is_Some (fs !! f).
Proof.
  unfold cleanup. rewrite unlinked. set (victims := _ ++ [(PLegacy, false)]).
  assert (Hv : superseded keep f = true → is_Some (fs !! f) → f ∈ victims).
  { intros Hs [bytes Hf]. unfold victims. rewrite elem_of_app. unfold superseded in Hs. destruct (f.1) eqn:Hf1.
    2,3: left; apply list_elem_of_filter; split; [by rewrite Hf1|];
      apply list_elem_of_fmap; exists (f, bytes); split; [done|]; by apply elem_of_map_to_list.
    all: right; apply bool_decide_eq_true in Hs; by apply list_elem_of_singleton. }
  destruct (decide (f ∈ filter _ victims)) as [[Hd _]%list_elem_of_filter|Hn].
  - split; [by intros [_ [? ?]]|]. by intros (_ & ? & _).
  - split; [|naive_solver]. intros [Hs Hf]. split_and!; [done| |done]. destruct (decide (f ∈ denied)); [done|].
    destruct Hn. apply list_elem_of_filter. auto.
Qed.

(** The superseded files a cleanup leaves behind are the failures it counted. *)
Lemma cleanup_failures_exact denied fs keep :
  total SNAPSHOT_CLEANUP_FAILURES_TOTAL (cleanup_calls denied fs keep)
  = len (filter (λ f, superseded keep f = true) (map_to_list (run (cleanup denied fs keep) fs)).*1).
Proof.
  assert (Hl : ∀ l : list FileName, total SNAPSHOT_CLEANUP_FAILURES_TOTAL (l ≫= λ _, record_snapshot_cleanup_failure) = len l).
  { intros l. induction l as [|f l IH]; [done|]. rewrite bind_cons, total_app, IH. unfold record_snapshot_cleanup_failure, calls. rewrite Hon.
    change (total _ [_]) with 1%N. cbn [length]. lia. }
  unfold cleanup_calls. rewrite Hl. f_equal. apply Permutation_length, NoDup_Permutation; [apply NoDup_filter, NoDup_fst_map_to_list..|].
  assert (Hin : ∀ (fs : Fs) f, f ∈ (map_to_list fs).*1 ↔ is_Some (fs !! f)).
  { intros fs0 f. rewrite list_elem_of_fmap. split; [intros ([g b] & -> & Hg%elem_of_map_to_list); eauto|].
    intros [b Hb]. exists (f, b). split; [done|]. by apply elem_of_map_to_list. }
  intros f. rewrite !list_elem_of_filter, !Hin, (cleanup_leaves denied fs keep f). naive_solver.
Qed.

(** Into an empty directory, without faults, a full save goes through. *)
Lemma first_save_succeeds env st : env_fault env = None → ∃ fs' l, metered_saves ∅ [(env, SaveFull st)] = Some (fs', l).
Proof.
  intros Hf. cbn [metered_saves metered_save]. unfold metered_save_full, SnapshotStore.save_full.
  change (read_manifest ∅) with (Ok None : result (option Manifest) unit). cbv iota.
  rewrite (bool_decide_eq_false_2 (is_Some _)) by (by intros [? ?]). rewrite andb_false_r.
  fold (base_manifest blake3_hash ser_base format_version 1 st). unfold publish_manifest. rewrite base_manifest_valid by done.
  unfold execute. rewrite Hf. cbn [mbind option_bind]. by eexists _, _.
Qed.

(** The snapshot gauges describe the files. After any sequence of full and delta saves none of
    which failed, the segment gauges read the number of segments and the bytes the manifest on
    disk names, every full materialization and every delta commit counted moved its generation by
    one, no more compactions than full materializations were counted, and a load that follows
    reports as many segments. *)
Theorem snapshot_gauges_exact fs reqs fs' l start now st : (cur fs + len reqs < usize_max)%N → metered_saves fs reqs = Some (fs', l) →
  gauge SNAPSHOT_SEGMENTS_CURRENT (segments fs) l = segments fs' ∧
  gauge SNAPSHOT_SEGMENT_BYTES_CURRENT (segment_total fs) l = segment_total fs' ∧
  (cur fs + total SNAPSHOT_FULL_MATERIALIZATIONS_TOTAL l + total SNAPSHOT_DELTA_COMMITS_TOTAL l = cur fs')%N ∧
  (total SNAPSHOT_COMPACTIONS_TOTAL l ≤ total SNAPSHOT_FULL_MATERIALIZATIONS_TOTAL l)%N ∧
  (load_incremental fs' = Ok (Some st) → gauge SNAPSHOT_RECOVERY_SEGMENTS 0 (metered_load start now fs').2 = segments fs').
Proof.
  intros Hcur Hs. cut (saved fs fs' l).
  { intros [H1' H2' H3' H4']. split_and!; [done..|]. intros Hl. unfold metered_load, segments. rewrite Hl. cbn [snd].
    assert (Hm : ∃ m, read_manifest fs' = Ok (Some m)) by (unfold SnapshotStore.load_incremental in Hl; destruct (read_manifest fs') as [[m|]|]; [by eexists|done..]).
    destruct Hm as [m ->]. unfold record_snapshot_recovery, calls. rewrite Hon. by destruct start. }
  revert fs l Hcur Hs. induction reqs as [|[env req] reqs IH]; intros fs l Hcur; cbn [metered_saves]; [intros [= <- <-]; apply saved_refl|].
  destruct (metered_save env fs req) as [[fs1 ok] l1] eqn:Hr. destruct ok; [|done].
  assert (H1' : saved_once fs fs1 l1).
  { destruct req as [st'|d]; cbn [metered_save] in Hr.
    - destruct (metered_save_full env fs st') as [[fs2 [[]|]] l2] eqn:Hf; [|done]. injection Hr as <- <-. eapply save_full_saved; [|exact Hf]. cbn [length] in *. lia.
    - destruct (metered_try_save env fs d) as [[fs2 [b|]] l2] eqn:Hf; [|done]. injection Hr as <- <-. eapply try_save_saved; [|exact Hf]. cbn [length] in *. lia. }
  destruct (metered_saves fs1 reqs) as [[fs2 l2]|] eqn:Hms; [|done]. cbn. intros [= <- <-]. destruct H1' as [Hs1 Hc1]. eapply saved_trans; [exact Hs1|].
  apply IH; [cbn [length] in Hcur; lia|done].
Qed.
End files.

(** ** A first save *)

#[local] Instance snapshots_recorded : MetricsFeature := true.

Lemma snapshot_gauges_exact_witness : ∃ fs' l,
  metered_saves flat_hash toy_ser_manifest toy_de_manifest toy_ser_base toy_ser_delta FORMAT_VERSION ∅ [({| env_fault := None; env_denied := ∅ |}, SaveFull demo_base_state)] = Some (fs', l) ∧
  gauge SNAPSHOT_SEGMENTS_CURRENT 0 l = segments flat_hash toy_de_manifest FORMAT_VERSION fs'.
Proof.
  destruct (first_save_succeeds flat_hash toy_ser_manifest toy_de_manifest toy_ser_base toy_ser_delta FORMAT_VERSION flat_hash_len toy_version
    {| env_fault := None; env_denied := ∅ |} demo_base_state eq_refl) as (fs' & l & Hs).
  exists fs', l. split; [exact Hs|].
  assert (Hc : (cur flat_hash toy_de_manifest FORMAT_VERSION ∅ + 1 < usize_max)%N)
    by (change (cur flat_hash toy_de_manifest FORMAT_VERSION ∅) with 0%N; unfold usize_max, u64_max; lia).
  destruct (snapshot_gauges_exact flat_hash toy_ser_manifest toy_de_manifest toy_ser_base toy_de_base toy_ser_delta toy_de_delta FORMAT_VERSION
    flat_hash_len toy_manifest_rt toy_version eq_refl ∅ [({| env_fault := None; env_denied := ∅ |}, SaveFull demo_base_state)] fs' l None 0
    demo_base_state Hc Hs) as (Hg & _). exact Hg.
Defined.
